(* ===== verification/_CoqProject ===== *)
-Q . S2P
Prelude.v
Gob.v
Labgob.v
LabgobWitness.v
Persister.v
Raft.v
RaftNode.v
RaftSpec.v
RaftLog.v
RaftSnapshot.v
RaftCluster.v
RaftMatching.v
RaftSafety.v
RaftSteps.v
RaftElect.v
RaftReplicate.v
RaftCompact.v
RaftAgreement.v
RaftWitness.v
KvServer.v
KvLin.v
Lock.v
LockWitness.v
KvLog.v
KvTest.v
KvClients.v
KvAppend.v
KvAppendWitness.v
KvPuts.v
KvPutsWitness.v
KvClientsWitness.v
KvWitness.v
Names.v
GoStrings.v
Fnv.v
MrCoordinator.v
MrWorker.v
MrSystem.v
MrLive.v
MrFinish.v
MrApps.v
MrHarness.v
MrObserve.v
MrObserveWitness.v
MrWitness.v
ShardCfg.v
ShardCfgWitness.v
LabRpc.v
LabRpcWitness.v
TesterGroup.v
TesterConfig.v
TesterConfigWitness.v
Daemon.v
DaemonWitness.v
TesterClnts.v
ShardKv.v
ShardKvWitness.v
ShardConc.v
ShardConcWitness.v
ShardPart.v
ShardPartWitness.v
Annotation.v
TesterMain.v
TesterMainWitness.v
Porcupine.v
PorcupineWitness.v
TesterWitness.v
Rsm.v
RsmWitness.v
RaftTest.v
TesterFaults.v
TesterFaultsWitness.v
KvRaft.v
KvRaftWitness.v
RfSrv.v
RaftTester.v
Demux.v
HarnessWitness.v
RaftTesterWitness.v
DemuxWitness.v
