(* ===== verification/Prelude.v ===== *)
(** * Verification of the MIT 6.5840 distributed-systems labs

    The repository holds the labs of a distributed-systems course in Go: a
    MapReduce framework, a versioned key/value server, the Raft consensus
    protocol, the assignment of shards to groups, and the simulated network and
    tester that run and break them. This development models that code as pure
    functions and transition systems and proves what makes it correct. This
    file is the prelude: outcomes of Go code, slices, record update, counting
    and the automation every other file uses.

    ** Conventions

    - A Go function is a function of the state it changes; [go A] is its
      outcome: it returns, it panics (a slice index out of range, a nil
      dereference) or it ends the process ([log.Fatalf], [t.Fatalf]).
      [returns m P] is total correctness.
    - Code under a mutex is one step. Where a goroutine releases a lock around
      an RPC or a channel operation, the part before and the part after are
      separate functions, and what the goroutine captured is an argument of the
      second. Systems of goroutines are functions from lists of events to
      states ([crun], [sys_run], [put_run], [log_run], [lock_run],
      [spawn_run], [mr_run], [p_run], [cc_run], [LabRpc.run], [drun],
      [dm_run]): a theorem for all event lists is a theorem for all
      interleavings. What a test does by itself is a list too
      ([run_actions], [generic_rounds]).
    - Time, random numbers and the iteration order of maps are arguments.
      Slices are lists with Go's bounds checks ([gidx], [gset_idx],
      [gslice_to], [gslice_from]); [int] is [Z], with the wrap-around written
      out where a counter of fixed width can reach it ([u64], [u32],
      [wrap_int]).
    - [encoding/gob], [encoding/json] and [sort.Sort] are interfaces with their
      documented laws ([GobCodec], [KVJson], [KVSort]); the witness files give
      concrete instances.

    ** Raft: [raft1/raft.go], [tester1/persister.go]

    [Persister.v] is a server's disk. [Raft.v] has the peer's record ([Raft])
    and every critical section: the RPC handlers, [Start], [Snapshot],
    [startElection] and its reply part [onVoteReply], [sendHeartbeats] with the
    goroutine's two parts [heartbeatMsg] and [onAppendEntriesReply] (or
    [onInstallSnapshotReply]), [applyCommitted], [updateCommitIndex], [Make].
    [RaftNode.v] puts them into one operation type, with the well-formedness
    invariant [raft_wf], the order [vote_le] in which terms and votes grow, and
    [durable]: what a restart would read is what is in memory. [RaftSpec.v]
    states one peer's life with crashes, recovery, and voting; [RaftLog.v]
    replication, back-off, commit and apply; [RaftSnapshot.v] compaction and
    [InstallSnapshot], with two behaviours that lose the connection between
    log and service. [RaftCluster.v] is a cluster over a network that may lose,
    repeat and reorder: no execution panics, and a term has one leader.

    Agreement is proved for executions with compaction and snapshots in flight,
    provided that services snapshot only what they have applied, and never
    exactly index 1 ([services_ok]); [placeholder_replicated] is an execution
    that goes wrong at index 1. [RaftMatching.v] compares the logs with a ghost
    map of the leaders' logs; [RaftSafety.v] states the invariant (which indices
    are chosen, which can no longer be, and a virtual log for every peer that
    still has what the peer compacted) and which changes of a cluster keep it;
    [RaftSteps.v], [RaftElect.v], [RaftReplicate.v] and [RaftCompact.v] go
    through the events; [RaftAgreement.v] has the theorems
    [state_machine_safety], [leader_completeness] and [log_matching].
    [RaftTester.v] composes the cluster with the servers' [applier] goroutines
    and the tester's checks (see below): without snapshots, [CheckLogs] and
    [ApplyErr] record no error and [nCommitted] does not end the test. With
    them it may, since a peer can deliver a snapshot that is behind what it has
    applied ([InstallSnapshot_behind_applied]).

    Loops with fuel ([applyLoop], [commitScan], [findXIndex]) take as fuel the
    number of iterations the code makes at most: the distance between the two
    indices they run over.

    ** Key/value service: [kvsrv1/], [models1/kv.go], [kvtest1/]

    [KvServer.v] has server, clerk and the sequential model; [KvLin.v] the
    system of clerks over a lossy network, its linearizability, and what
    [Clerk.Put]'s error codes promise. [KvTest.v] models the test library's
    workloads and checks; its retry loops have fuel because the code retries
    without bound, and [CheckAppends] is characterised exactly. [KvPuts.v] and
    [KvAppend.v] compose server, clerk, workload and check: clients race for
    one key, their calls are lost before or after the server executes them, and
    the test that follows passes. [KvClients.v] is how the test library starts
    its clients and collects their results: goroutines and unbuffered channels,
    with the proof that it ends, and that it never returns once a client has
    failed. [KvLog.v] adds the log of operations with the clock; [Porcupine.v]
    [checkPorcupine] on top of it, over the interface [Checker] of the porcupine
    library: the check of a history that server and clerks made does not fail.
    [Lock.v] has the lock test over any lock that excludes, and the repository's
    skeleton of a lock, with which it fails.

    ** MapReduce: [mr/], [main/mrsequential.go]

    [MrCoordinator.v] is the coordinator (task tables, phases, timeouts),
    [MrWorker.v] the map and reduce tasks on a shared directory and the
    sequential program, [Names.v] and [Fnv.v] file names and the hash.
    A task is a sequence of single operations on files ([WorkerState]): opening,
    reading some bytes, creating, writing one value; the code writes files in
    place, under their final names. [MrSystem.v] runs coordinator and workers
    that interleave and crash between any two operations, and proves that a
    finished job holds the lines of the sequential program, in executions in
    which the coordinator gives up no worker that lives and holds a task
    ([timely]). Without that condition it is false: [late_worker_truncates] in
    [MrWitness.v] is a finished job whose output a late worker empties.
    [MrLive.v]: once all tasks in progress have timed out, one live worker is
    led through the job by the coordinator; [MrFinish.v]: its file operations
    end, so that every execution can be continued until the job is done. [MrApps.v] adds the applications of [mrapps/]:
    for the word count and the index, what the output files of a finished job
    hold in terms of the input files. [MrHarness.v] is the harness of [mr/util.go]
    and [mr/mr_test.go] over the same directory, with [find], [sort] and [cmp]
    as the interface [Shell]: its tests pass. [GoStrings.v] has what these
    files use of Go's strings: decoding of UTF-8, [FieldsFunc], [Split],
    [TrimSpace], base64, [Atoi]. [MrObserve.v] has the applications that
    count workers through files in a directory that processes share, where
    processes start, crash and reuse process numbers between any two system
    calls: the count is bounded, not exact. [decode_kva] and [group_runs] have the length of their
    input as fuel.

    ** Shards: [shardkv1/shardcfg/shardcfg.go], [shardkv1/test.go]

    [ShardCfg.v]: configurations, [Rebalance], [Join], [Leave], [CheckConfig].
    [balance_fuel] is 200: every move lowers the sum of the squares of the
    loads, at most 144 for 12 shards, by at least 2. [ShardKv.v]: the tester
    that lets groups join and leave, against the interface [ShardCtrler] of
    the controller; with a controller that keeps its laws, groups that join and
    then leave restore the configuration's groups, and with the repository's
    skeleton the tester panics. [ShardConc.v]: the goroutines of [concurCtrler],
    whose joins and leaves interleave; each change of the configuration is one
    step of the controller, and [CtrlerOrder] says, as the comments of
    [shardctrler.go] (50-53) and [test.go] (330) do, that a change made from a
    configuration that is not current any more changes nothing. [ShardPart.v]:
    [partitionCtrler] cuts a controller off at any point of a join or leave, its
    goroutine goes on until it needs the controller, and another one recovers;
    what an interrupted change leaves and how it is recovered is the interface
    [CtrlerRecovery].

    ** Replicated state machine: [kvraft1/rsm/]

    [Rsm.v]: the counter server, whose calls of [DoOp] interleave, its
    snapshots, the RPC proxy, and the tester's search for a leader and polling
    of the counters; [RSM.Submit] is the repository's skeleton. The outer loop
    of [onePartition] runs over the list of rounds that fit in its ten seconds.

    ** Replicated key/value service: [kvraft1/]

    [KvRaft.v]: the skeleton of the clerk, and what [GenericTest] does to the
    servers under it: partitions, crashes, restarts, and the checks of sizes.

    ** Network and tester: [labrpc/labrpc.go], [tester1/], [raft1/test.go],
    [raft1/server.go]

    [LabRpc.v]: client ends, the network's tables, the stages of a request in
    [processReq], dispatch to methods; at-most-once execution, silence of
    deleted servers, and calls on a healthy network. [TesterGroup.v]: groups of
    servers, partitions, crash and restart; a server's process lives, has ended
    by itself (then the tester's next call to it ends the test) or has been
    waited for. [TesterConfig.v]: the map of groups,
    starting and shutting down a whole group, statistics and time limit of a
    test, and the shuffle of a clerk's handles. [Daemon.v]: the processes that
    servers run in: their command line, their start (three goroutines that
    meet on one channel; before the service is added to the control server, a
    request ends the process), and the calls into and out of them, over
    connections as [Demux.v] provides them; a server in a process behaves as the
    server itself, and when it ends the process all later calls fail. [TesterClnts.v]: which servers a
    clerk reaches. [TesterMain.v]: the tester's record from [MakeConfig] to
    [Cleanup], which takes everything down, ends the test if a process has ended
    by itself, and panics if the tester's socket is not open yet. [RaftTest.v] and [RfSrv.v]: the Raft tester's checks and the
    server that feeds it, related by the interface [Itester]; [RaftTester.v]
    puts them on top of the Raft cluster. [Annotation.v]: what the tester
    records about a run; the failures shown at each moment are those that a
    replay of the calls on two flags for each server gives ([Shown]).
    [TesterFaults.v] puts group, network, the Raft tester's records and the
    annotations together: what a test does to its servers, and what is shown of
    it. [Demux.v]: calls
    multiplexed over one socket. [Labgob.v]: the checks that [labgob/labgob.go]
    makes before it calls [encoding/gob]; the walk over the types has one more
    than the number of types as fuel, and visits each type at most once.

    ** Witnesses

    [RaftWitness.v], [KvWitness.v], [KvAppendWitness.v], [KvPutsWitness.v],
    [MrWitness.v], [MrObserveWitness.v], [ShardCfgWitness.v],
    [ShardKvWitness.v], [LabRpcWitness.v], [TesterConfigWitness.v],
    [DaemonWitness.v], [TesterWitness.v], [RsmWitness.v], [HarnessWitness.v],
    [RaftTesterWitness.v], [DemuxWitness.v], [LabgobWitness.v],
    [KvClientsWitness.v], [PorcupineWitness.v], [LockWitness.v],
    [ShardConcWitness.v], [ShardPartWitness.v], [TesterMainWitness.v],
    [TesterFaultsWitness.v] and [KvRaftWitness.v] apply the theorems to concrete
    states and runs.

    ** Not modelled

    - Listening and accepting on sockets, operating-system processes, parsing
      of flags, the command-line programs; [cleanup] of [mr/util.go].
    - Stubs without code: [kvraft1/server.go], [shardkv1/client.go], [shardgrp].
      The stubs [lock.go], [kvraft1/client.go], [rsm.go] and [shardctrler.go]
      are modelled as the stubs they are, and what depends on them is proved
      over interfaces of what they are documented to do ([ShardCtrler] with
      [CtrlerOrder] and [RecoveryLaws], the lock's interface in [Lock.v]).
    - The [porcupine] checker, a library ([Checker] states its promise); the
      tests of [mr/] that look for patterns in the output of the applications
      that count workers.
    - Data races and the exact timing of tickers: a timeout may happen at any
      time. *)

From stdpp Require Export base numbers list gmap strings fin_maps sorting pretty.

#[export] Set Default Goal Selector "!".

(** ** Outcomes of Go code

    A Go function either returns, panics (index out of range, nil
    dereference: the process dies), or calls [log.Fatalf] (the process exits).
    [go A] is the value-or-failure type every fallible definition returns. *)

Inductive go (A : Type) : Type :=
  | Ret (a : A)
  | Panic
  | Fatal.
Arguments Ret {A} a.
Arguments Panic {A}.
Arguments Fatal {A}.

#[export] Instance go_ret : MRet go := @Ret.
#[export] Instance go_bind : MBind go := λ A B f m,
  match m with Ret a => f a | Panic => Panic | Fatal => Fatal end.
#[export] Instance go_fmap : FMap go := λ A B f m,
  match m with Ret a => Ret (f a) | Panic => Panic | Fatal => Fatal end.

#[export] Instance go_eq_dec `{EqDecision A} : EqDecision (go A).
Proof. solve_decision. Defined.

(** [returns m P]: the code terminates normally with a result satisfying [P]
    (a total-correctness triple: neither a panic nor a fatal exit). *)
Definition returns {A} (m : go A) (P : A → Prop) : Prop :=
  ∃ a, m = Ret a ∧ P a.

Lemma returns_Ret {A} (a : A) (P : A → Prop) : P a → returns (Ret a) P.
Proof. intros H. by exists a. Qed.

Lemma returns_bind {A B} (m : go A) (f : A → go B) (P : A → Prop) (Q : B → Prop) :
  returns m P → (∀ a, P a → returns (f a) Q) → returns (m ≫= f) Q.
Proof. intros (a & -> & Ha) Hf. exact (Hf a Ha). Qed.

Lemma returns_fmap {A B} (f : A → B) (m : go A) (Q : B → Prop) :
  returns m (λ a, Q (f a)) → returns (f <$> m) Q.
Proof. intros (a & -> & Ha). by exists (f a). Qed.

Lemma returns_mono {A} (m : go A) (P Q : A → Prop) :
  returns m P → (∀ a, P a → Q a) → returns m Q.
Proof. intros (a & -> & Ha) HPQ. exists a. auto. Qed.

Lemma bind_Ret_inv {A B} (m : go A) (f : A → go B) b :
  m ≫= f = Ret b → ∃ a, m = Ret a ∧ f a = Ret b.
Proof. destruct m as [a| |]; simpl; intros H; try discriminate. by exists a. Qed.

Lemma fmap_Ret_inv {A B} (f : A → B) (m : go A) b :
  f <$> m = Ret b → ∃ a, m = Ret a ∧ f a = b.
Proof. destruct m as [a| |]; simpl; intros Hm; try discriminate. injection Hm. by exists a. Qed.

(** The result of code that is known to return, on concrete inputs. *)
Definition returned {A} (m : go A) : bool := match m with Ret _ => true | _ => false end.
Definition result {A} (m : go A) (d : A) : A := match m with Ret a => a | _ => d end.

Lemma result_Ret {A} (m : go A) d : returned m = true → m = Ret (result m d).
Proof. by destruct m. Qed.

Lemma Ret_det {A} (m : go A) a b : m = Ret a → m = Ret b → a = b.
Proof. congruence. Qed.

(** Case analysis on a returned bind: [go_inv H] splits [H : m ≫= f = Ret b]
    into the intermediate results. *)
Ltac go_inv H :=
  repeat match type of H with
  | (_ ≫= _) = Ret _ =>
      let a := fresh "a" in let Ha := fresh "Ha" in
      apply bind_Ret_inv in H as (a & Ha & H)
  | (_ <$> _) = Ret _ =>
      let a := fresh "a" in let Ha := fresh "Ha" in
      apply fmap_Ret_inv in H as (a & Ha & H)
  | Ret _ = Ret _ => injection H as H
  end.

(** A Go [for] loop over the elements of a list, in order. *)
Fixpoint foldM {A S} (f : S → A → go S) (s : S) (l : list A) : go S :=
  match l with
  | [] => Ret s
  | x :: l => s' ← f s x; foldM f s' l
  end.

Lemma foldM_returns {A S} (f : S → A → go S) (I : S → Prop) l s :
  I s → (∀ s x, I s → x ∈ l → returns (f s x) I) → returns (foldM f s l) I.
Proof.
  revert s. induction l as [|x l IH]; intros s Hs Hf; simpl.
  { by apply returns_Ret. }
  eapply returns_bind; [apply Hf; [done|left]|].
  intros s' Hs'. apply IH; [done|]. intros s'' y Hs'' Hy. apply Hf; [done|by right].
Qed.

(** What every iteration that returns preserves, the loop preserves. *)
Lemma foldM_Ret_inv {A S} (f : S → A → go S) (R : S → Prop) l : ∀ s s',
  (∀ s x s', R s → f s x = Ret s' → R s') → R s → foldM f s l = Ret s' → R s'.
Proof.
  induction l as [|x l IH]; intros s s' Hf Hs; simpl; [by intros [= <-]|].
  intros H. apply bind_Ret_inv in H as (s1 & H1 & H). eapply IH; [done| |done]. by eapply Hf.
Qed.

Lemma foldM_app {A S} (f : S → A → go S) l1 l2 s : foldM f s (l1 ++ l2) = (s ← foldM f s l1; foldM f s l2).
Proof.
  revert s. induction l1 as [|x l1 IH]; intros s; cbn [foldM app]; [done|].
  destruct (f s x); cbn [mbind go_bind]; [apply IH|done|done].
Qed.

(** ** Go slices

    Slices are lists indexed by Go's [int]; reading or writing out of range
    panics, as in the language. *)

Open Scope Z_scope.

Definition glen {A} (l : list A) : Z := Z.of_nat (length l).

(** [l[i]] *)
Definition gidx {A} (l : list A) (i : Z) : go A :=
  if i <? 0 then Panic
  else match l !! Z.to_nat i with Some x => Ret x | None => Panic end.

(** [l[i] = x] *)
Definition gset_idx {A} (l : list A) (i : Z) (x : A) : go (list A) :=
  if (i <? 0) || (glen l <=? i) then Panic else Ret (<[Z.to_nat i := x]> l).

(** [l[:n]] and [l[n:]]; the code only slices within the length. *)
Definition gslice_to {A} (l : list A) (n : Z) : go (list A) :=
  if (n <? 0) || (glen l <? n) then Panic else Ret (take (Z.to_nat n) l).
Definition gslice_from {A} (l : list A) (n : Z) : go (list A) :=
  if (n <? 0) || (glen l <? n) then Panic else Ret (drop (Z.to_nat n) l).

(** The same lookup as an option, for specifications. *)
Definition zlookup {A} (l : list A) (i : Z) : option A :=
  if i <? 0 then None else l !! Z.to_nat i.

Notation "l .[ i ]" := (zlookup l i) (at level 1, left associativity, format "l .[ i ]").

Section slices.
Context {A : Type}.
Implicit Types (l : list A) (i : Z) (x : A).

Lemma glen_nonneg l : 0 ≤ glen l.
Proof. unfold glen. lia. Qed.

Lemma glen_app l1 l2 : glen (l1 ++ l2) = glen l1 + glen l2.
Proof. unfold glen. rewrite length_app. lia. Qed.

Lemma glen_cons x l : glen (x :: l) = 1 + glen l.
Proof. unfold glen. simpl. lia. Qed.

Lemma glen_nil : glen (@nil A) = 0.
Proof. done. Qed.

Lemma glen_insert (n : nat) x l : glen (<[n := x]> l) = glen l.
Proof. unfold glen. by rewrite length_insert. Qed.

Lemma glen_replicate (n : nat) x : glen (replicate n x) = Z.of_nat n.
Proof. unfold glen. by rewrite length_replicate. Qed.

Lemma gidx_zlookup l i : gidx l i = match l.[i] with Some x => Ret x | None => Panic end.
Proof. unfold gidx, zlookup. by destruct (i <? 0). Qed.

Lemma gidx_Ret l i x : gidx l i = Ret x ↔ l.[i] = Some x.
Proof. rewrite gidx_zlookup. destruct l.[i]; split; congruence. Qed.

Lemma zlookup_lt_Some l i x : l.[i] = Some x → 0 ≤ i < glen l.
Proof.
  unfold zlookup, glen. destruct (Z.ltb_spec i 0); [done|].
  intros ?%lookup_lt_Some. lia.
Qed.

Lemma zlookup_is_Some l i : 0 ≤ i < glen l → ∃ x, l.[i] = Some x.
Proof.
  unfold zlookup, glen. intros Hi. destruct (Z.ltb_spec i 0); [lia|].
  apply lookup_lt_is_Some. lia.
Qed.

Lemma zlookup_None l i : l.[i] = None ↔ i < 0 ∨ glen l ≤ i.
Proof.
  unfold zlookup, glen. destruct (Z.ltb_spec i 0).
  - split; [auto|done].
  - rewrite lookup_ge_None. lia.
Qed.

Lemma gidx_returns l i : 0 ≤ i < glen l → returns (gidx l i) (λ x, l.[i] = Some x).
Proof.
  intros [x Hx]%zlookup_is_Some. exists x. by rewrite gidx_Ret.
Qed.

Lemma zlookup_app_l l1 l2 i : i < glen l1 → (l1 ++ l2).[i] = l1.[i].
Proof.
  unfold zlookup, glen. intros Hi. destruct (Z.ltb_spec i 0); [done|].
  apply lookup_app_l. lia.
Qed.

Lemma zlookup_app_r l1 l2 i : glen l1 ≤ i → (l1 ++ l2).[i] = l2.[i - glen l1].
Proof.
  unfold zlookup, glen. intros Hi.
  destruct (Z.ltb_spec i 0), (Z.ltb_spec (i - Z.of_nat (length l1)) 0); try lia.
  rewrite lookup_app_r by lia. f_equal. lia.
Qed.

Lemma zlookup_take l (n : nat) i : i < Z.of_nat n → (take n l).[i] = l.[i].
Proof.
  unfold zlookup. intros Hi. destruct (Z.ltb_spec i 0); [done|].
  apply lookup_take_lt. lia.
Qed.

Lemma zlookup_drop l (n : nat) i : 0 ≤ i → (drop n l).[i] = l.[Z.of_nat n + i].
Proof.
  unfold zlookup. intros Hi.
  destruct (Z.ltb_spec i 0), (Z.ltb_spec (Z.of_nat n + i) 0); try lia.
  rewrite lookup_drop. f_equal. lia.
Qed.

Lemma zlookup_cons_0 x l : (x :: l).[0] = Some x.
Proof. done. Qed.

Lemma zlookup_cons_pos x l i : 0 < i → (x :: l).[i] = l.[i - 1].
Proof.
  unfold zlookup. intros Hi.
  destruct (Z.ltb_spec i 0), (Z.ltb_spec (i - 1) 0); try lia.
  replace (Z.to_nat i) with (S (Z.to_nat (i - 1))) by lia. done.
Qed.

Lemma zlookup_insert l i j x :
  0 ≤ i < glen l → (<[Z.to_nat i := x]> l).[j] = if decide (i = j) then Some x else l.[j].
Proof.
  unfold zlookup, glen. intros Hi. destruct (Z.ltb_spec j 0).
  { rewrite decide_False by lia. done. }
  case_decide; subst.
  - rewrite list_lookup_insert_eq by lia. done.
  - rewrite list_lookup_insert_ne by lia. done.
Qed.

Lemma zlookup_elem_of l x : x ∈ l ↔ ∃ i, l.[i] = Some x.
Proof.
  rewrite list_elem_of_lookup. split.
  - intros [n Hn]. exists (Z.of_nat n). unfold zlookup.
    destruct (Z.ltb_spec (Z.of_nat n) 0); [lia|]. by rewrite Nat2Z.id.
  - intros [i Hi]. exists (Z.to_nat i). revert Hi. unfold zlookup. by destruct (i <? 0).
Qed.

Lemma list_eq_zlookup l1 l2 : (∀ i, 0 ≤ i → l1.[i] = l2.[i]) → l1 = l2.
Proof.
  intros H. apply list_eq. intros n. specialize (H (Z.of_nat n) ltac:(lia)).
  revert H. unfold zlookup. destruct (Z.ltb_spec (Z.of_nat n) 0); [lia|].
  by rewrite Nat2Z.id.
Qed.

Lemma gset_idx_Ret l i x :
  0 ≤ i < glen l → gset_idx l i x = Ret (<[Z.to_nat i := x]> l).
Proof.
  intros Hi. unfold gset_idx.
  destruct (Z.ltb_spec i 0), (Z.leb_spec (glen l) i); simpl; lia || done.
Qed.

Lemma gset_idx_returns l i x :
  0 ≤ i < glen l → returns (gset_idx l i x) (λ l', glen l' = glen l).
Proof.
  intros Hi. rewrite gset_idx_Ret by done. apply returns_Ret, glen_insert.
Qed.

Lemma gslice_to_Ret l n : 0 ≤ n ≤ glen l → gslice_to l n = Ret (take (Z.to_nat n) l).
Proof.
  intros Hn. unfold gslice_to.
  destruct (Z.ltb_spec n 0), (Z.ltb_spec (glen l) n); simpl; lia || done.
Qed.

Lemma gslice_from_Ret l n : 0 ≤ n ≤ glen l → gslice_from l n = Ret (drop (Z.to_nat n) l).
Proof.
  intros Hn. unfold gslice_from.
  destruct (Z.ltb_spec n 0), (Z.ltb_spec (glen l) n); simpl; lia || done.
Qed.
End slices.

(** ** Record update

    [r <| f := v |>] is Go's assignment [r.f = v] on a value; each record
    declares one [Upd] instance per mutable field. *)

Class Upd {R E : Type} (f : R → E) := upd : (E → E) → R → R.
#[export] Hint Mode Upd ! ! ! : typeclass_instances.
Notation "r <| f := v |>" := (upd (f:=f) (λ _, v) r)
  (at level 1, f at level 99, left associativity, format "r  <| f  :=  v |>").

(** ** Counting

    [countb f l] counts the elements on which a Go loop's condition holds. *)
Definition countb {A} (f : A → bool) (l : list A) : Z :=
  glen (filter (λ x, f x = true) l).

Lemma countb_nil {A} (f : A → bool) : countb f [] = 0.
Proof. done. Qed.

Lemma countb_cons {A} (f : A → bool) x l :
  countb f (x :: l) = (if f x then 1 else 0) + countb f l.
Proof.
  unfold countb. rewrite filter_cons. destruct (f x) eqn:E.
  - rewrite decide_True by done. apply glen_cons.
  - rewrite decide_False by done. lia.
Qed.

Lemma countb_app {A} (f : A → bool) l1 l2 : countb f (l1 ++ l2) = countb f l1 + countb f l2.
Proof. unfold countb. by rewrite filter_app, glen_app. Qed.

Lemma countb_bounds {A} (f : A → bool) l : 0 ≤ countb f l ≤ glen l.
Proof. unfold countb, glen. pose proof (length_filter (λ x, f x = true) l). lia. Qed.

Lemma countb_insert {A} (f : A → bool) l i x y :
  l.[i] = Some x →
  countb f (<[Z.to_nat i := y]> l) = countb f l - (if f x then 1 else 0) + (if f y then 1 else 0).
Proof.
  unfold zlookup. destruct (i <? 0); [done|]. generalize (Z.to_nat i). clear i. intros n Hn.
  revert n Hn. induction l as [|z l IH]; intros [|n] Hn; [done..| |].
  - injection Hn as ->. change (<[0%nat:=y]> (x :: l)) with (y :: l). rewrite !countb_cons.
    destruct (f x), (f y); lia.
  - change (<[S n:=y]> (z :: l)) with (z :: <[n:=y]> l). rewrite !countb_cons, (IH n Hn). lia.
Qed.

Lemma countb_pos {A} (f : A → bool) l i x : l.[i] = Some x → f x = true → 1 ≤ countb f l.
Proof.
  intros Hi%gidx_Ret Hf. rewrite gidx_zlookup in Hi. destruct l.[i] eqn:E; [|done]. injection Hi as ->.
  assert (x ∈ l) as (l1 & l2 & ->)%list_elem_of_split by (apply zlookup_elem_of; eauto).
  rewrite countb_app, countb_cons, Hf. pose proof (countb_bounds f l1). pose proof (countb_bounds f l2). lia.
Qed.

(** Counting less than the length leaves an element uncounted. *)
Lemma countb_lt {A} (f : A → bool) l : countb f l < glen l → ∃ i x, l.[i] = Some x ∧ f x = false.
Proof.
  intros Hlt. assert (∃ x, x ∈ l ∧ f x = false) as (x & Hx & Hf).
  { induction l as [|x l IH]; [by destruct (Z.lt_irrefl 0)|]. rewrite countb_cons, glen_cons in Hlt.
    destruct (f x) eqn:Hf; [|by exists x; split; [left|]].
    destruct IH as (y & Hy & Hfy); [lia|]. exists y. by split; [right|]. }
  apply zlookup_elem_of in Hx as [i Hi]. by exists i, x.
Qed.

Lemma countb_full {A} (f : A → bool) l i x : countb f l = glen l → l.[i] = Some x → f x = true.
Proof.
  intros Hc Hi. destruct (f x) eqn:Hf; [done|].
  pose proof (countb_pos (λ x, negb (f x)) l i x Hi ltac:(cbn; by rewrite Hf)).
  assert (countb f l + countb (λ x, negb (f x)) l = glen l); [|lia].
  clear. induction l as [|y l IH]; [done|]. rewrite !countb_cons, glen_cons. destruct (f y); cbn; lia.
Qed.

(** [range n] is the index list of [for i := range xs] with [len xs = n]. *)
Definition range (n : Z) : list Z := seqZ 0 n.

Lemma elem_of_range n i : i ∈ range n ↔ 0 ≤ i < n.
Proof. unfold range. rewrite elem_of_seqZ. lia. Qed.

Lemma glen_range n : 0 ≤ n → glen (range n) = n.
Proof. unfold glen, range. rewrite length_seqZ. lia. Qed.

Lemma NoDup_range n : NoDup (range n).
Proof. apply NoDup_seqZ. Qed.

Lemma elem_of_concat {A} (ls : list (list A)) x : x ∈ concat ls ↔ ∃ l, x ∈ l ∧ l ∈ ls.
Proof.
  induction ls as [|l ls IH]; simpl; [set_solver|]. rewrite elem_of_app, IH. set_solver.
Qed.

Lemma glen_fmap {A B} (f : A → B) l : glen (f <$> l) = glen l.
Proof. unfold glen. by rewrite length_fmap. Qed.

Lemma zlookup_fmap {A B} (f : A → B) l i : (f <$> l).[i] = f <$> l.[i].
Proof. unfold zlookup. case_match; [done|]. apply list_lookup_fmap. Qed.

(** ** Automation *)

Create HintDb golab.
Create Rewrite HintDb golen.
Create Rewrite HintDb gorw.
Create HintDb golen.
#[export] Hint Resolve returns_Ret glen_nonneg elem_of_range : golab.
#[export] Hint Rewrite @glen_app @glen_cons @glen_nil @glen_insert @glen_replicate : golen.

(** Integer comparisons as propositions. *)
Ltac zbool_in E :=
  lazymatch type of E with
  | (_ <? _) = true => apply Z.ltb_lt in E
  | (_ <? _) = false => apply Z.ltb_ge in E
  | (_ <=? _) = true => apply Z.leb_le in E
  | (_ <=? _) = false => apply Z.leb_gt in E
  | (_ =? _) = true => apply Z.eqb_eq in E
  | (_ =? _) = false => apply Z.eqb_neq in E
  | _ => idtac
  end.

(** Split on the first conditional of the goal and keep the fact. *)
Ltac case_if :=
  match goal with
  | |- context [if ?b then _ else _] =>
      match type of b with
      | bool => let E := fresh "E" in destruct b eqn:E; zbool_in E
      | _ => let E := fresh "E" in destruct b as [E|E]
      end
  end.
Ltac glen_lia := autorewrite with golen in *; unfold glen in *; lia.
Ltac case_if_in H :=
  match type of H with
  | context [if ?b then _ else _] => let E := fresh "E" in destruct b eqn:E; zbool_in E
  end.
