(* ===== verification/Gob.v ===== *)
(** * Encoding: [labgob/labgob.go] over Go's [encoding/gob]

    [LabEncoder.Encode] checks the type of its argument and appends its gob
    encoding to the writer; [LabDecoder.Decode] consumes one value from the
    reader. The byte format itself is the standard library's, so a codec is a
    typeclass: an encoder, a decoder that returns the value or an error
    together with the rest of the stream, and the documented law that a value
    decodes from the bytes it was encoded to, leaving the rest of the stream.
    [countable_codec] is a concrete codec for every countable type, which the
    witnesses use. *)

From S2P Require Import Prelude.
From Stdlib Require Import Strings.Byte.

Abbreviation bytes := (list Byte.byte).

#[export] Instance byte_eq_decision : EqDecision Byte.byte := Byte.byte_eq_dec.

(** ** The codec interface *)

Class GobCodec (A : Type) := {
  Encode : A → bytes;
  Decode : bytes → option A * bytes;
}.

Class GobLaws (A : Type) `{GobCodec A} : Prop := {
  Decode_Encode (a : A) (rest : bytes) : Decode (Encode a ++ rest) = (Some a, rest);
  Decode_EOF : (Decode (A:=A) []).1 = None;
}.
#[export] Hint Rewrite @Decode_Encode : gorw.

Section gob_facts.
Context `{GobLaws A}.

Lemma Decode_Encode_nil (a : A) : Decode (Encode a) = (Some a, []).
Proof. rewrite <-(app_nil_r (Encode a)). apply Decode_Encode. Qed.

Lemma Encode_nonempty (a : A) : Encode a ≠ [].
Proof.
  intros E. pose proof (Decode_Encode a []) as Hd.
  rewrite E in Hd. pose proof Decode_EOF as Heof. simpl in Hd. by rewrite Hd in Heof.
Qed.
End gob_facts.

(** ** A concrete codec

    A countable value is written as the binary digits of its code, one digit
    per byte, closed by a terminator. *)

Fixpoint pos_bytes (p : positive) : bytes :=
  match p with
  | xH => [Byte.x02]
  | xO p => Byte.x00 :: pos_bytes p
  | xI p => Byte.x01 :: pos_bytes p
  end.

Fixpoint bytes_pos (bs : bytes) : option positive * bytes :=
  match bs with
  | Byte.x02 :: rest => (Some xH, rest)
  | Byte.x00 :: rest => let '(p, rest') := bytes_pos rest in (xO <$> p, rest')
  | Byte.x01 :: rest => let '(p, rest') := bytes_pos rest in (xI <$> p, rest')
  | _ => (None, [])
  end.

Lemma bytes_pos_pos_bytes p rest : bytes_pos (pos_bytes p ++ rest) = (Some p, rest).
Proof. induction p as [p IH|p IH|]; simpl; [by rewrite IH..|done]. Qed.

Definition countable_codec (A : Type) `{Countable A} : GobCodec A := {|
  Encode a := pos_bytes (encode a);
  Decode bs := let '(p, rest) := bytes_pos bs in (p ≫= decode, rest);
|}.

Lemma countable_codec_laws (A : Type) `{Countable A} : @GobLaws A (countable_codec A).
Proof.
  split; [|done]. intros a rest. cbn [Encode Decode countable_codec].
  rewrite bytes_pos_pos_bytes. simpl. by rewrite decode_encode.
Qed.
