(* ===== verification/Labgob.v ===== *)
(** * The checks of [labgob/labgob.go]

    [labgob] wraps [encoding/gob] (the class [GobCodec] of [Gob.v]) with two
    warnings: one for lower-case field names in the types it is given, one for
    decoding into a value that is not the default. Go's [reflect] is a table of
    types, whose entries refer to each other by number and may be recursive,
    and a heap for pointers. Both checks count errors in a global variable.

    The walk over the types is a depth-first search that remembers in [checked]
    what it has seen. It has fuel; one more than the number of types is always
    enough. *)

From S2P Require Import Prelude Gob.

(** [reflect.Kind], as far as the code distinguishes them. *)
Inductive Kind :=
  | Struct (fields : list (string * Z))
  | Slice (elem : Z)
  | Array (elem : Z)
  | Ptr (elem : Z)
  | Map (elem key : Z)
  | Basic
  | OtherKind.

Record TypeDef := mkTypeDef { t_name : string; t_kind : Kind }.

Inductive Warning :=
  | LowerCase (field type : string)
  | NonDefault (what : string).

(** The package's variables [errorCount] and [checked], and what was printed. *)
Record LabState := mkLab {
  errorCount : Z;
  checked : gset Z;
  printed : list Warning;
}.

#[export] Instance upd_errorCount : Upd errorCount := λ f s, mkLab (f s.(errorCount)) s.(checked) s.(printed).
#[export] Instance upd_checked : Upd checked := λ f s, mkLab s.(errorCount) (f s.(checked)) s.(printed).
#[export] Instance upd_printed : Upd printed := λ f s, mkLab s.(errorCount) s.(checked) (f s.(printed)).

Section labgob.
(** Whether the first rune of a name is upper case ([unicode.IsUpper]). *)
Context (upper_first : string → bool).
Context (types : gmap Z TypeDef).
Implicit Types (t u : Z) (st : LabState).

(** ** [checkType] *)

Definition count_error (w : list Warning) st : LabState :=
  st <| errorCount := st.(errorCount) + 1 |> <| printed := st.(printed) ++ w |>.

Fixpoint checkType (fuel : nat) t st : go LabState :=
  match fuel with
  | O => Panic
  | S fuel =>
    match types !! t with
    | None => Panic
    | Some d =>
      if bool_decide (t ∈ st.(checked)) then Ret st
      else
        let st := st <| checked := {[ t ]} ∪ st.(checked) |> in
        match d.(t_kind) with
        | Struct fields =>
          foldM (λ st f,
            let st := if upper_first f.1 then st
                      else count_error [LowerCase f.1 d.(t_name)] st in
            checkType fuel f.2 st) st fields
        | Slice e | Array e | Ptr e => checkType fuel e st
        | Map e k => st ← checkType fuel e st; checkType fuel k st
        | Basic | OtherKind => Ret st
        end
    end
  end.

(** [checkValue], called by [Encode], [EncodeValue], [Decode], [Register]. *)
Definition checkValue t st : go LabState := checkType (S (size types)) t st.

(** ** [checkDefault] *)

Inductive Value :=
  | VStruct (fields : list (string * Value))
  | VPtr (target : option Z)
  | VBasic (type : string) (default : bool)
  | VOther.

Context (heap : gmap Z Value).

Definition field_name (name f : string) : string :=
  if bool_decide (name = "") then f else name +:+ "." +:+ f.

Definition warn_default (name type : string) st : LabState :=
  let what := if bool_decide (name = "") then type else name in
  count_error (if st.(errorCount) <? 1 then [NonDefault what] else []) st.

(** [todo] is [4 - depth]: [depth] counts up from 1 and the walk stops above
    3. A pointer that is not nil points to something. *)
Fixpoint checkDefault1 (todo : nat) (v : Value) (name : string) st : LabState :=
  match todo with
  | O => st
  | S todo =>
    match v with
    | VStruct fields =>
      foldl (λ st f, checkDefault1 todo f.2 (field_name name f.1) st) st fields
    | VPtr None => st
    | VPtr (Some a) =>
      match heap !! a with None => st | Some v => checkDefault1 todo v name st end
    | VBasic type default => if default then st else warn_default name type st
    | VOther => st
    end
  end.

Definition checkDefault (v : option Value) st : LabState :=
  match v with None => st | Some v => checkDefault1 3 v "" st end.

(** The variables that are not default, in the order of the walk. *)
Fixpoint nondefaults (todo : nat) (v : Value) (name : string) : list string :=
  match todo, v with
  | S todo, VStruct fields => fields ≫= λ f, nondefaults todo f.2 (field_name name f.1)
  | S todo, VPtr (Some a) => match heap !! a with Some v => nondefaults todo v name | None => [] end
  | S _, VBasic type false => [if bool_decide (name = "") then type else name]
  | _, _ => []
  end.

(** ** What is reachable *)

Definition succs t : list Z :=
  match t_kind <$> types !! t with
  | Some (Struct fields) => fields.*2
  | Some (Slice e) | Some (Array e) | Some (Ptr e) => [e]
  | Some (Map e k) => [e; k]
  | _ => []
  end.

(** The types the runtime knows refer only to types it knows. *)
Definition closed_table : Prop := ∀ t u, is_Some (types !! t) → u ∈ succs t → is_Some (types !! u).

Definition reaches : Z → Z → Prop := rtc (λ t u, u ∈ succs t).

(** The lower-case fields of a type. *)
Definition bad_fields t : Z :=
  match t_kind <$> types !! t with
  | Some (Struct fields) => countb (λ f, negb (upper_first f.1)) fields
  | _ => 0
  end.
Definition bad_sum (X : gset Z) : Z := foldr Z.add 0 (bad_fields <$> elements X).

Lemma sum_app (l1 l2 : list Z) : foldr Z.add 0 (l1 ++ l2) = foldr Z.add 0 l1 + foldr Z.add 0 l2.
Proof. induction l1; simpl; lia. Qed.

Lemma sum_perm (l1 l2 : list Z) : l1 ≡ₚ l2 → foldr Z.add 0 l1 = foldr Z.add 0 l2.
Proof. induction 1; simpl; lia. Qed.

Lemma bad_sum_union X Y : X ## Y → bad_sum (X ∪ Y) = bad_sum X + bad_sum Y.
Proof.
  intros HXY. unfold bad_sum. rewrite <-sum_app, <-fmap_app. apply sum_perm.
  by rewrite elements_disj_union.
Qed.

Lemma bad_sum_singleton t : bad_sum {[ t ]} = bad_fields t.
Proof. unfold bad_sum. rewrite elements_singleton. simpl. lia. Qed.

Lemma bad_sum_empty : bad_sum ∅ = 0.
Proof. unfold bad_sum. by rewrite elements_empty. Qed.

(** ** The walk over the types

    What a call that starts in [st] and ends in [st'] has done, for the types
    [ts] it was called on, if it also counted [k] fields itself. *)
Record walked (k : Z) (ts : list Z) st st' : Prop := {
  w_grow : st.(checked) ⊆ st'.(checked);
  w_roots : ∀ t, t ∈ ts → t ∈ st'.(checked);
  w_new : ∀ u, u ∈ st'.(checked) → u ∉ st.(checked) →
    (∃ t, t ∈ ts ∧ reaches t u) ∧ ∀ v, v ∈ succs u → v ∈ st'.(checked);
  w_errors : st'.(errorCount) = st.(errorCount) + k + bad_sum (st'.(checked) ∖ st.(checked));
}.

Lemma bad_sum_split (X Y Z0 : gset Z) :
  X ⊆ Y → Y ⊆ Z0 → bad_sum (Z0 ∖ X) = bad_sum (Y ∖ X) + bad_sum (Z0 ∖ Y).
Proof.
  intros HXY HYZ. rewrite <-bad_sum_union by set_solver. f_equal. apply leibniz_equiv. intros x.
  rewrite elem_of_union, !elem_of_difference. destruct (decide (x ∈ Y)); naive_solver.
Qed.

Lemma walked_nil st : walked 0 [] st st.
Proof.
  constructor; [done|by intros t ?%not_elem_of_nil|done|]. rewrite difference_diag_L, bad_sum_empty. lia.
Qed.

Lemma walked_app k1 k2 ts1 ts2 st1 st2 st3 :
  walked k1 ts1 st1 st2 → walked k2 ts2 st2 st3 → walked (k1 + k2) (ts1 ++ ts2) st1 st3.
Proof.
  intros [Hg Hr Hn He] [Hg' Hr' Hn' He']. constructor.
  - by etransitivity.
  - intros t [Ht|Ht]%elem_of_app; [apply Hg'; auto|auto].
  - intros u Hu Hu1. destruct (decide (u ∈ st2.(checked))) as [Hu2|Hu2].
    + destruct (Hn u Hu2 Hu1) as [(t & Ht & Hre) Hs]. split; [|auto].
      exists t. split; [apply elem_of_app; by left|done].
    + destruct (Hn' u Hu Hu2) as [(t & Ht & Hre) Hs]. split; [|done].
      exists t. split; [apply elem_of_app; by right|done].
  - rewrite He', He, (bad_sum_split st1.(checked) st2.(checked) st3.(checked)) by done. lia.
Qed.

Lemma walked_checked ts st : (∀ t, t ∈ ts → t ∈ st.(checked)) → walked 0 ts st st.
Proof. intros Hts. constructor; try done. rewrite difference_diag_L, bad_sum_empty. lia. Qed.

(** Marking [t] and walking its successors. *)
Lemma walked_node t st st2 :
  t ∉ st.(checked) →
  walked (bad_fields t) (succs t) (st <| checked := {[ t ]} ∪ st.(checked) |>) st2 →
  walked 0 [t] st st2.
Proof.
  intros Hnew [Hg Hr Hn He']. cbn in Hg, Hn, He'. constructor.
  - set_solver.
  - intros u ->%list_elem_of_singleton. set_solver.
  - intros u Hu Hu1. destruct (decide (u = t)) as [->|Hne].
    + split; [|done]. exists t. split; [by apply list_elem_of_singleton|apply rtc_refl].
    + destruct (Hn u Hu) as [(v & Hv & Hre) Hs]; [set_solver|]. split; [|done].
      exists t. split; [by apply list_elem_of_singleton|]. by eapply rtc_l.
  - rewrite He', (bad_sum_split st.(checked) ({[ t ]} ∪ st.(checked)) st2.(checked)) by set_solver.
    assert (({[ t ]} ∪ st.(checked)) ∖ st.(checked) = {[ t ]}) as -> by set_solver.
    rewrite bad_sum_singleton. lia.
Qed.

(** What the fuel must exceed. *)
Definition unseen st : nat := size (dom types ∖ st.(checked)).

Lemma unseen_le st st' : st.(checked) ⊆ st'.(checked) → (unseen st' ≤ unseen st)%nat.
Proof. intros Hs. unfold unseen. apply subseteq_size. set_solver. Qed.

Lemma unseen_lt t st :
  is_Some (types !! t) → t ∉ st.(checked) →
  (unseen (st <| checked := {[ t ]} ∪ st.(checked) |>) < unseen st)%nat.
Proof.
  intros Ht%elem_of_dom Hnew. unfold unseen. apply subset_size. cbn. split; [set_solver|].
  intros Hsub. specialize (Hsub t). set_solver.
Qed.

Lemma checkType_walk fuel : ∀ t st,
  closed_table → is_Some (types !! t) → (unseen st < fuel)%nat →
  returns (checkType fuel t st) (walked 0 [t] st).
Proof.
  induction fuel as [|fuel IH]; intros t st Htab Ht Hf; [lia|]. cbn [checkType].
  destruct Ht as [d Hd]. rewrite Hd. case_bool_decide as Hin.
  { apply returns_Ret, walked_checked. by intros u ->%list_elem_of_singleton. }
  pose proof (unseen_lt t st (ex_intro _ d Hd) Hin) as Hlt.
  set (st1 := st <| checked := _ |>) in *.
  assert (∀ u, u ∈ succs t → is_Some (types !! u)) as Hsucc by (intros u; apply Htab; by exists d).
  eapply returns_mono; [|intros st2; by apply walked_node]. fold st1.
  unfold succs, bad_fields in *. rewrite Hd in *. cbn in *.
  destruct (t_kind d) as [fields|e|e|e|e k| |]; try (apply returns_Ret, walked_nil);
    try (apply IH; [done|apply Hsucc; left|lia]).
  - assert (unseen st1 < fuel)%nat as Hf1 by lia. clearbody st1. clear Hlt Hd Hin. revert st1 Hf1 Hsucc.
    induction fields as [|[f u] fields IHf]; intros st1 Hf1 Hsucc; cbn [foldM].
    { rewrite countb_nil. apply returns_Ret, walked_nil. }
    set (st2 := if upper_first _ then st1 else _).
    assert (walked (if negb (upper_first f) then 1 else 0) [] st1 st2) as Hw0.
    { unfold st2. cbn [fst]. destruct (upper_first f); [apply walked_nil|].
      constructor; cbn; [done|by intros ? ?%not_elem_of_nil|done|].
      rewrite difference_diag_L, bad_sum_empty. lia. }
    eapply returns_bind; [apply (IH u st2); [done|apply Hsucc; left|]|].
    { pose proof (unseen_le _ _ (w_grow _ _ _ _ Hw0)). lia. }
    intros st3 Hw. eapply returns_mono; [apply (IHf st3)|].
    + pose proof (unseen_le _ _ (w_grow _ _ _ _ Hw0)). pose proof (unseen_le _ _ (w_grow _ _ _ _ Hw)). lia.
    + intros v Hv. apply Hsucc. by right.
    + intros st4 Hw'. rewrite countb_cons.
      pose proof (walked_app _ _ _ _ _ _ _ Hw0 (walked_app _ _ _ _ _ _ _ Hw Hw')) as Hall.
      by rewrite Z.add_0_l in Hall.
  - eapply returns_bind; [apply (IH e st1); [done|apply Hsucc; left|lia]|]. intros st2 Hw.
    eapply returns_mono; [apply (IH k st2); [done|apply Hsucc; right; left|]|].
    + pose proof (unseen_le _ _ (w_grow _ _ _ _ Hw)). lia.
    + intros st3 Hw'. exact (walked_app _ _ _ _ _ _ _ Hw Hw').
Qed.

(** ** The theorems *)

(** Between calls, what is checked is closed under reachability. *)
Definition lab_inv st : Prop := ∀ u v, u ∈ st.(checked) → v ∈ succs u → v ∈ st.(checked).

(** C33. [checkValue] terminates on every type, recursive ones included; it
    marks exactly the types reachable from the given one, and raises the error
    count by the number of lower-case fields of those it had not seen before:
    every bad field is reported once in the life of the program. *)
Theorem checkValue_spec t st :
  closed_table → is_Some (types !! t) → lab_inv st →
  returns (checkValue t st) (λ st',
    lab_inv st' ∧
    (∀ u, u ∈ st'.(checked) ↔ u ∈ st.(checked) ∨ reaches t u) ∧
    st'.(errorCount) = st.(errorCount) + bad_sum (st'.(checked) ∖ st.(checked))).
Proof.
  intros Htab Ht Hinv. eapply returns_mono; [apply checkType_walk; [done..|]|].
  { unfold unseen. assert (size (dom types ∖ checked st) ≤ size (dom types))%nat
      by (apply subseteq_size; set_solver). rewrite size_dom in *. lia. }
  intros st' [Hg Hr Hn He].
  assert (lab_inv st') as Hinv'.
  { intros u v Hu Hv. destruct (decide (u ∈ st.(checked))) as [Hin|Hout].
    - apply Hg. by eapply Hinv.
    - destruct (Hn u Hu Hout) as [_ Hs]. auto. }
  split; [done|]. split; [|lia]. intros u. split.
  - intros Hu. destruct (decide (u ∈ st.(checked))) as [|Hout]; [by left|right].
    destruct (Hn u Hu Hout) as [(t' & ->%list_elem_of_singleton & Hre) _]. done.
  - intros [Hu|Hre]; [by apply Hg|]. assert (t ∈ st'.(checked)) as Hroot by (apply Hr; by left).
    clear -Hre Hroot Hinv'. induction Hre as [|a b d Hab _ IH]; [done|]. by eapply IH, Hinv'.
Qed.

(** The warnings a list of variables causes. *)
Definition warned (ws : list string) st st' : Prop :=
  st'.(checked) = st.(checked) ∧ st'.(errorCount) = st.(errorCount) + glen ws ∧
  st'.(printed) = st.(printed) ++
    (if st.(errorCount) <? 1 then NonDefault <$> take 1 ws else []).

Lemma warned_app ws1 ws2 st1 st2 st3 :
  0 ≤ st1.(errorCount) → warned ws1 st1 st2 → warned ws2 st2 st3 → warned (ws1 ++ ws2) st1 st3.
Proof.
  intros Hpos (Hc & He & Hp) (Hc' & He' & Hp'). unfold warned. rewrite Hc', He', Hp', Hc, He, Hp, glen_app.
  split; [done|]. split; [lia|]. rewrite <-app_assoc. f_equal.
  destruct ws1 as [|w ws1].
  - rewrite glen_nil, Z.add_0_r. by destruct (_ <? 1).
  - rewrite glen_cons. pose proof (glen_nonneg ws1).
    destruct (Z.ltb_spec st1.(errorCount) 1), (Z.ltb_spec (st1.(errorCount) + (1 + glen ws1)) 1);
      cbn; rewrite ?app_nil_r; try done; lia.
Qed.

Lemma warned_nil st : warned [] st st.
Proof.
  split; [done|]. split; [rewrite glen_nil; lia|]. destruct (_ <? 1); cbn; by rewrite app_nil_r.
Qed.

Lemma warned_count ws st st' : warned ws st st' → st.(errorCount) ≤ st'.(errorCount).
Proof. intros (_ & -> & _). pose proof (glen_nonneg ws). lia. Qed.

Lemma checkDefault1_warned todo : ∀ v name st,
  0 ≤ st.(errorCount) → warned (nondefaults todo v name) st (checkDefault1 todo v name st).
Proof.
  induction todo as [|todo IH]; intros v name st Hst; [apply warned_nil|].
  destruct v as [fields|[a|]|type [|]|]; cbn [checkDefault1 nondefaults]; try apply warned_nil.
  - revert st Hst. induction fields as [|f fields IHf]; intros st Hst; [apply warned_nil|].
    cbn [foldl]. rewrite bind_cons. pose proof (IH f.2 (field_name name f.1) st Hst) as Hw.
    eapply warned_app; [done|exact Hw|]. apply IHf. apply warned_count in Hw. lia.
  - destruct (heap !! a); [by apply IH|apply warned_nil].
  - unfold warn_default, warned, count_error. cbn. split; [done|]. split; [done|].
    by destruct (_ <? 1).
Qed.

(** [checkDefault] counts every variable within depth 3 that is not
    default, follows pointers and cycles without end, and prints a warning for
    the first one only, and only if nothing was wrong before. *)
Theorem checkDefault_spec v st :
  0 ≤ st.(errorCount) →
  let ws := nondefaults 3 v "" in let st' := checkDefault (Some v) st in
  st'.(errorCount) = st.(errorCount) + glen ws ∧
  st'.(printed) = st.(printed) ++
    (if st.(errorCount) <? 1 then NonDefault <$> take 1 ws else []) ∧
  st'.(checked) = st.(checked).
Proof.
  intros Hst ws st'. by destruct (checkDefault1_warned 3 v "" st Hst) as (? & ? & ?).
Qed.
End labgob.
