(* ===== verification/LabgobWitness.v ===== *)
(** * The checks of [labgob] at concrete types and values

    A linked list whose node has a lower-case field, and an RPC reply that
    points to a value already written. *)

From S2P Require Import Prelude Gob Labgob.

Definition upper (name : string) : bool :=
  match name with
  | EmptyString => false
  | String a _ => let n := Ascii.nat_of_ascii a in (65 <=? n)%nat && (n <=? 90)%nat
  end.

(** [type Node struct { Val int; next *Node }], [*Node], [int],
    [type Args struct { Nodes []Node; Head *Node }], [[]Node]. *)
Definition node_types : gmap Z TypeDef := list_to_map
  [(1, mkTypeDef "Node" (Struct [("Val", 3); ("next", 2)])); (2, mkTypeDef "" (Ptr 1));
   (3, mkTypeDef "int" Basic); (4, mkTypeDef "Args" (Struct [("Nodes", 5); ("Head", 2)]));
   (5, mkTypeDef "" (Slice 1))].

Definition lab0 : LabState := mkLab 0 ∅ [].

Lemma node_types_closed : closed_table node_types.
Proof.
  intros t u [d Hd] Hu. apply elem_of_list_to_map_2 in Hd.
  repeat (apply elem_of_cons in Hd as [[= -> ->]|Hd]; [vm_compute in Hu;
    repeat (apply elem_of_cons in Hu as [->|Hu]; [by eexists|]); by apply not_elem_of_nil in Hu|]).
  by apply not_elem_of_nil in Hd.
Qed.

Lemma checkValue_spec_witness :
  returns (checkValue upper node_types 4 lab0) (λ st, 1 ∈ st.(checked)) ∧
  errorCount <$> (match checkValue upper node_types 4 lab0 with Ret st => Some st | _ => None end) = Some 1.
Proof.
  split; [|vm_compute; reflexivity].
  eapply returns_mono; [refine (checkValue_spec upper node_types 4 lab0 node_types_closed _ _)|].
  - by eexists.
  - intros u v Hu. by apply elem_of_empty in Hu.
  - intros st (_ & Hall & _). apply Hall. right. apply rtc_l with 5; [vm_compute; left|].
    apply rtc_once. vm_compute. left.
Defined.

Definition reply_heap : gmap Z Value := {[ 1 := VStruct [("Err", VBasic "string" true); ("Rep", VPtr (Some 1)); ("N", VBasic "int" false)] ]}.

Lemma checkDefault_spec_witness :
  0 ≤ lab0.(errorCount) ∧
  (checkDefault reply_heap (Some (VPtr (Some 1))) lab0).(printed) = [NonDefault "N"].
Proof.
  split; [done|]. destruct (checkDefault_spec reply_heap (VPtr (Some 1)) lab0) as (_ & -> & _); [done|].
  vm_compute; reflexivity.
Defined.
