(* ===== verification/Persister.v ===== *)
(** * The persister: [tester1/persister.go]

    Each server's disk: the encoded Raft state and the service snapshot. The
    mutex of the code makes each method atomic, so a method is one function
    on the record. *)

From S2P Require Import Prelude Gob.
From Stdlib Require Import Strings.Byte.

Record Persister := mkPersister {
  raftstate : bytes;
  snapshot : bytes;
}.

#[export] Instance Persister_eq_dec : EqDecision Persister.
Proof. solve_decision. Defined.

#[export] Instance upd_raftstate : Upd raftstate := λ f p, mkPersister (f p.(raftstate)) p.(snapshot).
#[export] Instance upd_snapshot : Upd snapshot := λ f p, mkPersister p.(raftstate) (f p.(snapshot)).

(** [make([]byte, len(orig))] followed by the element-wise [copy]. *)
Fixpoint copy_into (dst src : bytes) : bytes :=
  match dst, src with
  | _ :: dst, b :: src => b :: copy_into dst src
  | dst, _ => dst
  end.
Definition clone (orig : bytes) : bytes :=
  copy_into (replicate (length orig) Byte.x00) orig.

Arguments clone : simpl never.

Definition MakePersister : Persister := mkPersister [] [].

Definition ReadRaftState (ps : Persister) : bytes := clone ps.(raftstate).
Definition RaftStateSize (ps : Persister) : Z := glen ps.(raftstate).
Definition ReadSnapshot (ps : Persister) : bytes := clone ps.(snapshot).
Definition SnapshotSize (ps : Persister) : Z := glen ps.(snapshot).

Definition Save (raftstate_ snapshot_ : bytes) (ps : Persister) : Persister :=
  ps <| raftstate := clone raftstate_ |> <| snapshot := clone snapshot_ |>.

Definition Checkpoint (ps : Persister) : Persister :=
  MakePersister <| raftstate := clone ps.(raftstate) |> <| snapshot := clone ps.(snapshot) |>.

(** ** Facts *)

Lemma clone_id bs : clone bs = bs.
Proof. unfold clone. induction bs as [|b bs IH]; simpl; [done|by f_equal]. Qed.

Lemma ReadRaftState_Save st sn ps : ReadRaftState (Save st sn ps) = st.
Proof. unfold ReadRaftState, Save. cbn. by rewrite !clone_id. Qed.

Lemma ReadSnapshot_Save st sn ps : ReadSnapshot (Save st sn ps) = sn.
Proof. unfold ReadSnapshot, Save. cbn. by rewrite !clone_id. Qed.

Lemma Checkpoint_eq ps : Checkpoint ps = ps.
Proof. unfold Checkpoint. cbn. rewrite !clone_id. by destruct ps. Qed.

#[export] Hint Rewrite ReadRaftState_Save ReadSnapshot_Save Checkpoint_eq clone_id : gorw.
