(* ===== verification/Raft.v ===== *)
(** * The Raft peer: [raft1/raft.go]

    One record per peer and one function per critical section of the code.
    Every handler of [raft.go] runs under [rf.mu], so it is atomic: it maps
    the state (and its RPC arguments) to the new state, the reply and what it
    sends on [applyCh]. Where a goroutine releases the lock around an RPC
    ([startElection], [sendHeartbeats]), the part before the call and the part
    after it are separate functions, and the values the goroutine captured in
    between are explicit arguments. Out-of-range slice accesses panic. *)

From S2P Require Import Prelude Gob Persister.
From Stdlib Require Import Strings.Byte.

(** The constants [Follower], [Candidate], [Leader] of the code. *)
Inductive RaftState := Follower | Candidate | Leader.

#[export] Instance RaftState_eq_dec : EqDecision RaftState.
Proof. solve_decision. Defined.

Record LogEntry {Cmd : Type} := mkEntry { le_Term : Z; le_Command : option Cmd }.
Arguments LogEntry : clear implicits.
Arguments mkEntry {Cmd} le_Term le_Command.

#[export] Instance LogEntry_eq_dec `{EqDecision Cmd} : EqDecision (LogEntry Cmd).
Proof. solve_decision. Defined.

#[export] Instance LogEntry_countable `{Countable Cmd} : Countable (LogEntry Cmd).
Proof.
  refine (inj_countable' (λ e, (e.(le_Term), e.(le_Command)))
            (λ p, mkEntry p.1 p.2) _). by intros [].
Defined.

(** [peers] and [applyCh] are handles of the environment: of [peers] the code
    uses the length, and what is sent on [applyCh] is an output. *)
Record Raft {Cmd : Type} := mkRaft {
  npeers : Z;
  me : Z;
  dead : bool;
  persister : Persister;
  currentTerm : Z;
  votedFor : Z;
  log : list (LogEntry Cmd);
  commitIndex : Z;
  lastApplied : Z;
  nextIndex : list Z;
  matchIndex : list Z;
  state : RaftState;
  lastContact : Z;
  snapshotIndex : Z;
  snapshotTerm : Z;
}.
Arguments Raft : clear implicits.
Arguments mkRaft {Cmd}.

Section raft_updates.
Context {Cmd : Type}.
#[export] Instance upd_dead : Upd (@dead Cmd) := λ g r,
  mkRaft r.(npeers) r.(me) (g r.(dead)) r.(persister) r.(currentTerm) r.(votedFor) r.(log) r.(commitIndex) r.(lastApplied) r.(nextIndex) r.(matchIndex) r.(state) r.(lastContact) r.(snapshotIndex) r.(snapshotTerm).
#[export] Instance upd_persister : Upd (@persister Cmd) := λ g r,
  mkRaft r.(npeers) r.(me) r.(dead) (g r.(persister)) r.(currentTerm) r.(votedFor) r.(log) r.(commitIndex) r.(lastApplied) r.(nextIndex) r.(matchIndex) r.(state) r.(lastContact) r.(snapshotIndex) r.(snapshotTerm).
#[export] Instance upd_currentTerm : Upd (@currentTerm Cmd) := λ g r,
  mkRaft r.(npeers) r.(me) r.(dead) r.(persister) (g r.(currentTerm)) r.(votedFor) r.(log) r.(commitIndex) r.(lastApplied) r.(nextIndex) r.(matchIndex) r.(state) r.(lastContact) r.(snapshotIndex) r.(snapshotTerm).
#[export] Instance upd_votedFor : Upd (@votedFor Cmd) := λ g r,
  mkRaft r.(npeers) r.(me) r.(dead) r.(persister) r.(currentTerm) (g r.(votedFor)) r.(log) r.(commitIndex) r.(lastApplied) r.(nextIndex) r.(matchIndex) r.(state) r.(lastContact) r.(snapshotIndex) r.(snapshotTerm).
#[export] Instance upd_log : Upd (@log Cmd) := λ g r,
  mkRaft r.(npeers) r.(me) r.(dead) r.(persister) r.(currentTerm) r.(votedFor) (g r.(log)) r.(commitIndex) r.(lastApplied) r.(nextIndex) r.(matchIndex) r.(state) r.(lastContact) r.(snapshotIndex) r.(snapshotTerm).
#[export] Instance upd_commitIndex : Upd (@commitIndex Cmd) := λ g r,
  mkRaft r.(npeers) r.(me) r.(dead) r.(persister) r.(currentTerm) r.(votedFor) r.(log) (g r.(commitIndex)) r.(lastApplied) r.(nextIndex) r.(matchIndex) r.(state) r.(lastContact) r.(snapshotIndex) r.(snapshotTerm).
#[export] Instance upd_lastApplied : Upd (@lastApplied Cmd) := λ g r,
  mkRaft r.(npeers) r.(me) r.(dead) r.(persister) r.(currentTerm) r.(votedFor) r.(log) r.(commitIndex) (g r.(lastApplied)) r.(nextIndex) r.(matchIndex) r.(state) r.(lastContact) r.(snapshotIndex) r.(snapshotTerm).
#[export] Instance upd_nextIndex : Upd (@nextIndex Cmd) := λ g r,
  mkRaft r.(npeers) r.(me) r.(dead) r.(persister) r.(currentTerm) r.(votedFor) r.(log) r.(commitIndex) r.(lastApplied) (g r.(nextIndex)) r.(matchIndex) r.(state) r.(lastContact) r.(snapshotIndex) r.(snapshotTerm).
#[export] Instance upd_matchIndex : Upd (@matchIndex Cmd) := λ g r,
  mkRaft r.(npeers) r.(me) r.(dead) r.(persister) r.(currentTerm) r.(votedFor) r.(log) r.(commitIndex) r.(lastApplied) r.(nextIndex) (g r.(matchIndex)) r.(state) r.(lastContact) r.(snapshotIndex) r.(snapshotTerm).
#[export] Instance upd_state : Upd (@state Cmd) := λ g r,
  mkRaft r.(npeers) r.(me) r.(dead) r.(persister) r.(currentTerm) r.(votedFor) r.(log) r.(commitIndex) r.(lastApplied) r.(nextIndex) r.(matchIndex) (g r.(state)) r.(lastContact) r.(snapshotIndex) r.(snapshotTerm).
#[export] Instance upd_lastContact : Upd (@lastContact Cmd) := λ g r,
  mkRaft r.(npeers) r.(me) r.(dead) r.(persister) r.(currentTerm) r.(votedFor) r.(log) r.(commitIndex) r.(lastApplied) r.(nextIndex) r.(matchIndex) r.(state) (g r.(lastContact)) r.(snapshotIndex) r.(snapshotTerm).
#[export] Instance upd_snapshotIndex : Upd (@snapshotIndex Cmd) := λ g r,
  mkRaft r.(npeers) r.(me) r.(dead) r.(persister) r.(currentTerm) r.(votedFor) r.(log) r.(commitIndex) r.(lastApplied) r.(nextIndex) r.(matchIndex) r.(state) r.(lastContact) (g r.(snapshotIndex)) r.(snapshotTerm).
#[export] Instance upd_snapshotTerm : Upd (@snapshotTerm Cmd) := λ g r,
  mkRaft r.(npeers) r.(me) r.(dead) r.(persister) r.(currentTerm) r.(votedFor) r.(log) r.(commitIndex) r.(lastApplied) r.(nextIndex) r.(matchIndex) r.(state) r.(lastContact) r.(snapshotIndex) (g r.(snapshotTerm)).
End raft_updates.

(** ** Messages *)

(** [raftapi.ApplyMsg]: exactly one of the two kinds is valid in a message. *)
Record ApplyMsg {Cmd : Type} := mkApplyMsg {
  CommandValid : bool;
  am_Command : option Cmd;
  CommandIndex : Z;
  SnapshotValid : bool;
  am_Snapshot : bytes;
  am_SnapshotTerm : Z;
  am_SnapshotIndex : Z;
}.
Arguments ApplyMsg : clear implicits.
Arguments mkApplyMsg {Cmd}.

Record InstallSnapshotArgs := mkISArgs {
  is_Term : Z;
  is_LeaderId : Z;
  LastIncludedIndex : Z;
  LastIncludedTerm : Z;
  Data : bytes;
}.

Record InstallSnapshotReply := mkISReply { isr_Term : Z }.

Record RequestVoteArgs := mkRVArgs {
  rv_Term : Z;
  CandidateId : Z;
  LastLogIndex : Z;
  LastLogTerm : Z;
}.

Record RequestVoteReply := mkRVReply { rvr_Term : Z; VoteGranted : bool }.

Record AppendEntriesArgs {Cmd : Type} := mkAEArgs {
  ae_Term : Z;
  ae_LeaderId : Z;
  PrevLogIndex : Z;
  PrevLogTerm : Z;
  Entries : list (LogEntry Cmd);
  LeaderCommit : Z;
}.
Arguments AppendEntriesArgs : clear implicits.
Arguments mkAEArgs {Cmd}.

Record AppendEntriesReply := mkAEReply {
  aer_Term : Z;
  Success : bool;
  XTerm : Z;
  XIndex : Z;
  XLen : Z;
}.

(** ** Operations *)

Section raft_ops.
Context {Cmd : Type} `{GobCodec Z, GobCodec (list (LogEntry Cmd))}.
Implicit Types (rf : Raft Cmd).

(** [GetState] *)
Definition GetState rf : Z * bool := (rf.(currentTerm), bool_decide (rf.(state) = Leader)).

(** The five values [persist] and [persistWithSnapshot] write, in order. *)
Definition encodeState rf : bytes :=
  Encode rf.(currentTerm) ++ Encode rf.(votedFor) ++ Encode rf.(log) ++
  Encode rf.(snapshotIndex) ++ Encode rf.(snapshotTerm).

Definition persist rf : Raft Cmd :=
  rf <| persister := Save (encodeState rf) (ReadSnapshot rf.(persister)) rf.(persister) |>.

Definition persistWithSnapshot (snapshot_ : bytes) rf : Raft Cmd :=
  rf <| persister := Save (encodeState rf) snapshot_ rf.(persister) |>.

(** [readPersist]: the first three values are assigned only if all three
    decode ([||] short-circuits); the snapshot pair is then decoded from
    wherever the stream stands. *)
Definition decodeCore (data : bytes) : option (Z * Z * list (LogEntry Cmd)) * bytes :=
  let '(currentTerm_, d) := Decode data in
  match currentTerm_ with
  | None => (None, d)
  | Some currentTerm_ =>
    let '(votedFor_, d) := Decode d in
    match votedFor_ with
    | None => (None, d)
    | Some votedFor_ =>
      let '(lg, d) := Decode d in
      match lg with
      | None => (None, d)
      | Some lg => (Some (currentTerm_, votedFor_, lg), d)
      end
    end
  end.

Definition readPersist (data : bytes) rf : Raft Cmd :=
  if glen data <? 1 then rf
  else
    let '(core, d) := decodeCore data in
    let rf :=
      match core with
      | None => rf
      | Some (currentTerm_, votedFor_, lg) =>
        rf <| currentTerm := currentTerm_ |> <| votedFor := votedFor_ |> <| log := lg |>
      end in
    let '(snapshotIndex_, d) := Decode d in
    match snapshotIndex_ with
    | None => rf
    | Some snapshotIndex_ =>
      match (Decode d).1 with
      | None => rf
      | Some snapshotTerm_ =>
        rf <| snapshotIndex := snapshotIndex_ |> <| snapshotTerm := snapshotTerm_ |>
           <| lastApplied := snapshotIndex_ |> <| commitIndex := snapshotIndex_ |>
      end
    end.

Definition PersistBytes rf : Z := RaftStateSize rf.(persister).

(** [Make], up to starting the goroutines. *)
Definition Make (npeers_ me_ : Z) (ps : Persister) (now : Z) : Raft Cmd :=
  readPersist (ReadRaftState ps) {|
    npeers := npeers_; me := me_; dead := false; persister := ps;
    currentTerm := 0; votedFor := -1; log := [mkEntry 0 None];
    commitIndex := 0; lastApplied := 0; nextIndex := []; matchIndex := [];
    state := Follower; lastContact := now; snapshotIndex := 0; snapshotTerm := 0
  |}.

(** [rf.lastContact = time.Now(); rf.state = Follower] *)
Definition followerContact (now : Z) rf : Raft Cmd :=
  rf <| lastContact := now |> <| state := Follower |>.

(** [if rf.commitIndex < i { rf.commitIndex = i }], and for [lastApplied]. *)
Definition raiseCommit (i : Z) rf : Raft Cmd :=
  if rf.(commitIndex) <? i then rf <| commitIndex := i |> else rf.
Definition raiseApplied (i : Z) rf : Raft Cmd :=
  if rf.(lastApplied) <? i then rf <| lastApplied := i |> else rf.

(** The leader's [nextIndex]/[matchIndex] adjustment in [Snapshot]. *)
Definition snapshotPeer rf (nm : list Z * list Z) (i : Z) : go (list Z * list Z) :=
  let '(nextIndex_, matchIndex_) := nm in
  nextIndex_ ← (if i =? rf.(me) then Ret nextIndex_
                else ni ← gidx nextIndex_ i;
                     if ni <? rf.(snapshotIndex) + 1
                     then gset_idx nextIndex_ i (rf.(snapshotIndex) + 1)
                     else Ret nextIndex_);
  mi ← gidx matchIndex_ i;
  matchIndex_ ← (if mi <? rf.(snapshotIndex)
                 then gset_idx matchIndex_ i rf.(snapshotIndex)
                 else Ret matchIndex_);
  Ret (nextIndex_, matchIndex_).

Definition snapshotLeader rf : go (Raft Cmd) :=
  if bool_decide (rf.(state) = Leader) then
    nm ← foldM (snapshotPeer rf) (rf.(nextIndex), rf.(matchIndex)) (range rf.(npeers));
    Ret (rf <| nextIndex := nm.1 |> <| matchIndex := nm.2 |>)
  else Ret rf.

Definition Snapshot (index : Z) (snapshot_ : bytes) rf : go (Raft Cmd) :=
  if index <=? rf.(snapshotIndex) then Ret rf
  else
    let logIdx := index - rf.(snapshotIndex) in
    if (logIdx <? 0) || (glen rf.(log) <=? logIdx) then Ret rf
    else
      e ← gidx rf.(log) logIdx;
      rest ← gslice_from rf.(log) (logIdx + 1);
      let rf := rf <| snapshotTerm := e.(le_Term) |> <| snapshotIndex := index |> in
      let rf := rf <| log := mkEntry rf.(snapshotTerm) None :: rest |> in
      rf ← snapshotLeader (raiseApplied index (raiseCommit index rf));
      Ret (persistWithSnapshot snapshot_ rf).

(** The block every handler runs on a newer term. *)
Definition stepDown (term : Z) rf : Raft Cmd :=
  persist (rf <| currentTerm := term |> <| votedFor := -1 |> <| state := Follower |>).

Definition observeTerm (term : Z) rf : Raft Cmd :=
  if rf.(currentTerm) <? term then stepDown term rf else rf.

(** The part of [InstallSnapshot] after the staleness checks. *)
Definition installSnapshotLog (args : InstallSnapshotArgs) rf : go (Raft Cmd) :=
  let oldSnapshotIndex := rf.(snapshotIndex) in
  let logStartIdx := args.(LastIncludedIndex) + 1 - oldSnapshotIndex in
  rest ← (if (0 <=? logStartIdx) && (logStartIdx <? glen rf.(log))
          then gslice_from rf.(log) logStartIdx else Ret []);
  let rf := rf <| snapshotIndex := args.(LastIncludedIndex) |>
               <| snapshotTerm := args.(LastIncludedTerm) |> in
  let rf := raiseCommit args.(LastIncludedIndex) rf in
  let rf := raiseApplied args.(LastIncludedIndex) rf in
  let rf := rf <| log := mkEntry args.(LastIncludedTerm) None :: rest |> in
  Ret (persistWithSnapshot args.(Data) rf).

Definition snapshotMsg (args : InstallSnapshotArgs) : ApplyMsg Cmd :=
  mkApplyMsg false None 0 true args.(Data) args.(LastIncludedTerm) args.(LastIncludedIndex).

Definition InstallSnapshot (now : Z) (args : InstallSnapshotArgs) rf :
    go (Raft Cmd * InstallSnapshotReply * list (ApplyMsg Cmd)) :=
  let reply := mkISReply rf.(currentTerm) in
  if args.(is_Term) <? rf.(currentTerm) then Ret (rf, reply, [])
  else
    let rf := followerContact now (observeTerm args.(is_Term) rf) in
    if args.(LastIncludedIndex) <=? rf.(snapshotIndex) then Ret (rf, reply, [])
    else
      rf ← installSnapshotLog args rf;
      Ret (rf, reply, [snapshotMsg args]).

(** [rf.snapshotIndex + len(rf.log) - 1] *)
Definition lastLogIndex rf : Z := rf.(snapshotIndex) + glen rf.(log) - 1.

(** [RequestVote] from the log comparison on. *)
Definition decideVote (now term : Z) (args : RequestVoteArgs) rf :
    go (Raft Cmd * RequestVoteReply) :=
  last ← gidx rf.(log) (glen rf.(log) - 1);
  let lastLogTerm := last.(le_Term) in
  let upToDate := (lastLogTerm <? args.(LastLogTerm)) ||
                  ((args.(LastLogTerm) =? lastLogTerm) &&
                   (lastLogIndex rf <=? args.(LastLogIndex))) in
  if ((rf.(votedFor) =? -1) || (rf.(votedFor) =? args.(CandidateId))) && upToDate
  then Ret (persist (rf <| votedFor := args.(CandidateId) |> <| state := Follower |>
                        <| lastContact := now |>), mkRVReply term true)
  else Ret (rf, mkRVReply term false).

Definition RequestVote (now : Z) (args : RequestVoteArgs) rf :
    go (Raft Cmd * RequestVoteReply) :=
  let term := rf.(currentTerm) in
  if args.(rv_Term) <? rf.(currentTerm) then Ret (rf, mkRVReply term false)
  else decideVote now term args (observeTerm args.(rv_Term) rf).

(** The scan for the first entry of the conflicting term: position [n - 1]
    is looked at first, then downwards. *)
Fixpoint findXIndex rf (xTerm xIndex : Z) (n : nat) : go Z :=
  match n with
  | O => Ret xIndex
  | S n =>
    e ← gidx rf.(log) (Z.of_nat n);
    if e.(le_Term) =? xTerm then findXIndex rf xTerm xIndex n
    else Ret (rf.(snapshotIndex) + Z.of_nat n + 1)
  end.

(** The loop over [args.Entries]. *)
Fixpoint appendLoop (idx : Z) (entries lg : list (LogEntry Cmd)) : go (list (LogEntry Cmd)) :=
  match entries with
  | [] => Ret lg
  | entry :: entries =>
    lg ← (if glen lg <=? idx then Ret (lg ++ [entry])
            else e ← gidx lg idx;
                 if e.(le_Term) =? entry.(le_Term) then Ret lg
                 else prefix ← gslice_to lg idx; Ret (prefix ++ [entry]));
    appendLoop (idx + 1) entries lg
  end.

(** The commit rule: [min(LeaderCommit, index of the last new entry)]. *)
Definition followerCommit (args : AppendEntriesArgs Cmd) rf : Raft Cmd :=
  if rf.(commitIndex) <? args.(LeaderCommit) then
    let lastNewIndex := args.(PrevLogIndex) + glen args.(Entries) in
    if lastNewIndex <? args.(LeaderCommit)
    then rf <| commitIndex := lastNewIndex |>
    else rf <| commitIndex := args.(LeaderCommit) |>
  else rf.

(** [AppendEntries] from the consistency check on; [term] is the value
    [reply.Term] was given at entry. *)
Definition appendEntriesLog (term : Z) (args : AppendEntriesArgs Cmd) rf :
    go (Raft Cmd * AppendEntriesReply) :=
  let logIndex := args.(PrevLogIndex) - rf.(snapshotIndex) in
  let xLen := rf.(snapshotIndex) + glen rf.(log) in
  if args.(PrevLogIndex) <? rf.(snapshotIndex)
  then Ret (rf, mkAEReply term false (-1) (-1) xLen)
  else if glen rf.(log) <=? logIndex
  then Ret (rf, mkAEReply term false (-1) (-1) xLen)
  else
    e ← gidx rf.(log) logIndex;
    if (0 <=? logIndex) && negb (e.(le_Term) =? args.(PrevLogTerm)) then
      xIndex ← findXIndex rf e.(le_Term) args.(PrevLogIndex) (Z.to_nat logIndex);
      Ret (rf, mkAEReply term false e.(le_Term) xIndex xLen)
    else
      lg ← appendLoop (logIndex + 1) args.(Entries) rf.(log);
      let rf := rf <| log := lg |> in
      let rf := if 0 <? glen args.(Entries) then persist rf else rf in
      Ret (followerCommit args rf, mkAEReply term true 0 0 0).

Definition AppendEntries (now : Z) (args : AppendEntriesArgs Cmd) rf :
    go (Raft Cmd * AppendEntriesReply) :=
  let term := rf.(currentTerm) in
  if args.(ae_Term) <? rf.(currentTerm) then Ret (rf, mkAEReply term false 0 0 0)
  else appendEntriesLog term args (followerContact now (observeTerm args.(ae_Term) rf)).

Definition Start (command : option Cmd) rf : Raft Cmd * (Z * Z * bool) :=
  if bool_decide (rf.(state) = Leader) then
    let index := rf.(snapshotIndex) + glen rf.(log) in
    let rf := persist (rf <| log := rf.(log) ++ [mkEntry rf.(currentTerm) command] |>) in
    (rf, (index, rf.(currentTerm), true))
  else (rf, (-1, rf.(currentTerm), false)).

Definition Kill rf : Raft Cmd := rf <| dead := true |>.
Definition killed rf : bool := rf.(dead).

(** [ticker]: the election-timeout test of one iteration; times are in
    nanoseconds and [r] is the value of [rand.Int63()]. *)
Definition Millisecond : Z := 1000000.
Definition ticker_due (now r : Z) rf : bool :=
  let timeout := (300 + r mod 200) * Millisecond in
  negb (bool_decide (rf.(state) = Leader)) && (timeout <? now - rf.(lastContact)).

(** [startElection] up to the [go] statements: the arguments every
    [RequestVote] goroutine sends, and the servers it is sent to. The
    election starts with [votes = 1] and [electionWon = 0]. *)
Definition startElection (now : Z) rf : go (Raft Cmd * RequestVoteArgs * list Z) :=
  let rf := rf <| state := Candidate |> <| currentTerm := rf.(currentTerm) + 1 |>
               <| votedFor := rf.(me) |> in
  let rf := persist rf <| lastContact := now |> in
  last ← gidx rf.(log) (glen rf.(log) - 1);
  Ret (rf, mkRVArgs rf.(currentTerm) rf.(me) (lastLogIndex rf) last.(le_Term),
       filter (λ i, i ≠ rf.(me)) (range rf.(npeers))).

(** What a [RequestVote] goroutine does with its reply. [votes] and
    [electionWon] are the variables the goroutines of one election share. *)
Definition becomeLeader rf : go (Raft Cmd) :=
  matchIndex_ ← gset_idx (replicate (Z.to_nat rf.(npeers)) rf.(snapshotIndex))
                  rf.(me) (lastLogIndex rf);
  Ret (rf <| state := Leader |>
          <| nextIndex := replicate (Z.to_nat rf.(npeers)) (rf.(snapshotIndex) + glen rf.(log)) |>
          <| matchIndex := matchIndex_ |>).

Definition onVoteReply (args : RequestVoteArgs) (reply : RequestVoteReply)
    (votes electionWon : Z) rf : go (Raft Cmd * Z * Z) :=
  if bool_decide (rf.(state) = Candidate) && (rf.(currentTerm) =? args.(rv_Term)) then
    if rf.(currentTerm) <? reply.(rvr_Term) then
      Ret (stepDown reply.(rvr_Term) rf, votes, electionWon)
    else if reply.(VoteGranted) then
      let votes := votes + 1 in
      if (rf.(npeers) / 2 <? votes) && (electionWon =? 0) then
        rf ← becomeLeader rf; Ret (rf, votes, 1)
      else Ret (rf, votes, electionWon)
    else Ret (rf, votes, electionWon)
  else Ret (rf, votes, electionWon).

(** [sendHeartbeats]: what it captures under the first lock. *)
Record HeartbeatCtx := mkHb {
  hb_currentTerm : Z;
  hb_commitIndex : Z;
  hb_snapshotIndex : Z;
  hb_snapshot : bytes;
  hb_servers : list Z;
}.

Definition sendHeartbeats rf : option HeartbeatCtx :=
  if bool_decide (rf.(state) = Leader) then
    Some (mkHb rf.(currentTerm) rf.(commitIndex) rf.(snapshotIndex)
            (ReadSnapshot rf.(persister)) (filter (λ i, i ≠ rf.(me)) (range rf.(npeers))))
  else None.

Inductive HeartbeatMsg :=
  | SendInstallSnapshot (args : InstallSnapshotArgs)
  | SendAppendEntries (args : AppendEntriesArgs Cmd).

(** The goroutine for [srv] up to its RPC; it takes the lock again, so [rf]
    may have changed since [hb] was captured. *)
Definition heartbeatMsg (hb : HeartbeatCtx) (srv : Z) rf : go (option HeartbeatMsg) :=
  if negb (bool_decide (rf.(state) = Leader)) || negb (rf.(currentTerm) =? hb.(hb_currentTerm))
  then Ret None
  else
    next ← gidx rf.(nextIndex) srv;
    if (next <=? hb.(hb_snapshotIndex)) && (0 <? glen hb.(hb_snapshot)) then
      Ret (Some (SendInstallSnapshot
        (mkISArgs hb.(hb_currentTerm) rf.(me) hb.(hb_snapshotIndex) rf.(snapshotTerm)
           hb.(hb_snapshot))))
    else
      let prevLogIndex := next - 1 in
      let logIdx := prevLogIndex - rf.(snapshotIndex) in
      prevLogTerm ← (if (0 <=? logIdx) && (logIdx <? glen rf.(log))
                     then e ← gidx rf.(log) logIdx; Ret e.(le_Term) else Ret 0);
      let startIdx := next - rf.(snapshotIndex) in
      entries ← (if (0 <=? startIdx) && (startIdx <? glen rf.(log))
                 then gslice_from rf.(log) startIdx else Ret []);
      Ret (Some (SendAppendEntries
        (mkAEArgs hb.(hb_currentTerm) rf.(me) prevLogIndex prevLogTerm entries
           hb.(hb_commitIndex)))).

(** The goroutine's use of the reply, for each of the two RPCs. *)
Definition onInstallSnapshotReply (srv : Z) (args : InstallSnapshotArgs)
    (reply : InstallSnapshotReply) rf : go (Raft Cmd) :=
  if bool_decide (rf.(state) = Leader) && (rf.(currentTerm) =? args.(is_Term)) then
    if rf.(currentTerm) <? reply.(isr_Term) then Ret (stepDown reply.(isr_Term) rf)
    else
      matchIndex_ ← gset_idx rf.(matchIndex) srv args.(LastIncludedIndex);
      nextIndex_ ← gset_idx rf.(nextIndex) srv (args.(LastIncludedIndex) + 1);
      Ret (rf <| matchIndex := matchIndex_ |> <| nextIndex := nextIndex_ |>)
  else Ret rf.

Definition onAppendEntriesReply (srv : Z) (args : AppendEntriesArgs Cmd)
    (reply : AppendEntriesReply) rf : go (Raft Cmd) :=
  if bool_decide (rf.(state) = Leader) && (rf.(currentTerm) =? args.(ae_Term)) then
    if reply.(Success) then
      let newMatch := args.(PrevLogIndex) + glen args.(Entries) in
      mi ← gidx rf.(matchIndex) srv;
      if mi <? newMatch then
        matchIndex_ ← gset_idx rf.(matchIndex) srv newMatch;
        nextIndex_ ← gset_idx rf.(nextIndex) srv (newMatch + 1);
        Ret (rf <| matchIndex := matchIndex_ |> <| nextIndex := nextIndex_ |>)
      else Ret rf
    else if rf.(currentTerm) <? reply.(aer_Term) then Ret (stepDown reply.(aer_Term) rf)
    else
      let next := if reply.(XTerm) =? -1 then reply.(XLen) else reply.(XIndex) in
      nextIndex_ ← gset_idx rf.(nextIndex) srv next;
      nextIndex_ ← (if next <? 1 then gset_idx nextIndex_ srv 1 else Ret nextIndex_);
      Ret (rf <| nextIndex := nextIndex_ |>)
  else Ret rf.

(** [applyCommitted]: the loop that collects the messages, then the sends.
    The first argument counts the remaining iterations. *)
Fixpoint applyLoop (fuel : nat) rf : go (Raft Cmd * list (ApplyMsg Cmd)) :=
  match fuel with
  | O => Ret (rf, [])
  | S fuel =>
    if rf.(lastApplied) <? rf.(commitIndex) then
      let rf := rf <| lastApplied := rf.(lastApplied) + 1 |> in
      let logIdx := rf.(lastApplied) - rf.(snapshotIndex) in
      msgs ← (if (0 <=? logIdx) && (logIdx <? glen rf.(log))
              then e ← gidx rf.(log) logIdx;
                   Ret [mkApplyMsg true e.(le_Command) rf.(lastApplied) false [] 0 0]
              else Ret []);
      r ← applyLoop fuel rf;
      Ret (r.1, msgs ++ r.2)
    else Ret (rf, [])
  end.

Definition applyCommitted rf : go (Raft Cmd * list (ApplyMsg Cmd)) :=
  applyLoop (Z.to_nat (rf.(commitIndex) - rf.(lastApplied))) rf.

(** [updateCommitIndex] *)
Definition countMatch rf (n : Z) : go Z :=
  foldM (λ count i,
    if i =? rf.(me) then Ret count
    else mi ← gidx rf.(matchIndex) i;
         Ret (if n <=? mi then count + 1 else count)) 1 (range rf.(npeers)).

Fixpoint commitScan (fuel : nat) (n : Z) rf : go (Raft Cmd) :=
  match fuel with
  | O => Ret rf
  | S fuel =>
    if n <=? rf.(commitIndex) then Ret rf
    else
      let logIdx := n - rf.(snapshotIndex) in
      if (logIdx <? 0) || (glen rf.(log) <=? logIdx) then commitScan fuel (n - 1) rf
      else
        e ← gidx rf.(log) logIdx;
        if negb (e.(le_Term) =? rf.(currentTerm)) then commitScan fuel (n - 1) rf
        else
          count ← countMatch rf n;
          if rf.(npeers) / 2 <? count then Ret (rf <| commitIndex := n |>)
          else commitScan fuel (n - 1) rf
  end.

Definition updateCommitIndex rf : go (Raft Cmd) :=
  if bool_decide (rf.(state) = Leader) then
    commitScan (Z.to_nat (lastLogIndex rf - rf.(commitIndex))) (lastLogIndex rf) rf
  else Ret rf.
End raft_ops.
Arguments HeartbeatMsg : clear implicits.
