(* ===== verification/RaftNode.v ===== *)
(** * One Raft peer: invariants and functional behaviour of its handlers

    [exec] runs any critical section of [raft1/raft.go] as one step, with its
    arguments chosen by the environment. The first part proves what every
    step preserves (no panic and well-formedness, monotone terms and one vote
    per term, disk in agreement with memory); the second part proves what each
    handler computes. *)

From S2P Require Import Prelude Gob Persister Raft.
From Stdlib Require Import Strings.Byte.

(** ** Steps of one peer *)

Inductive RaftOp {Cmd : Type} :=
  | OpRequestVote (now : Z) (args : RequestVoteArgs)
  | OpAppendEntries (now : Z) (args : AppendEntriesArgs Cmd)
  | OpInstallSnapshot (now : Z) (args : InstallSnapshotArgs)
  | OpStart (command : option Cmd)
  | OpSnapshot (index : Z) (data : bytes)
  | OpElection (now : Z)
  | OpVoteReply (args : RequestVoteArgs) (reply : RequestVoteReply) (votes won : Z)
  | OpHeartbeat (hb : HeartbeatCtx) (srv : Z)
  | OpInstallSnapshotReply (srv : Z) (args : InstallSnapshotArgs) (reply : InstallSnapshotReply)
  | OpAppendEntriesReply (srv : Z) (args : AppendEntriesArgs Cmd) (reply : AppendEntriesReply)
  | OpUpdateCommit
  | OpApply
  | OpKill.
Arguments RaftOp : clear implicits.

Section node.
Context {Cmd : Type} `{GobCodec Z, GobCodec (list (LogEntry Cmd))}.
Implicit Types (rf : Raft Cmd) (op : RaftOp Cmd).

Definition exec op rf : go (Raft Cmd) :=
  match op with
  | OpRequestVote now args => fst <$> RequestVote now args rf
  | OpAppendEntries now args => fst <$> AppendEntries now args rf
  | OpInstallSnapshot now args => (fst ∘ fst) <$> InstallSnapshot now args rf
  | OpStart command => Ret (Start command rf).1
  | OpSnapshot index data => Snapshot index data rf
  | OpElection now => (fst ∘ fst) <$> startElection now rf
  | OpVoteReply args reply votes won => (fst ∘ fst) <$> onVoteReply args reply votes won rf
  | OpHeartbeat hb srv => (λ _, rf) <$> heartbeatMsg hb srv rf
  | OpInstallSnapshotReply srv args reply => onInstallSnapshotReply srv args reply rf
  | OpAppendEntriesReply srv args reply => onAppendEntriesReply srv args reply rf
  | OpUpdateCommit => updateCommitIndex rf
  | OpApply => fst <$> applyCommitted rf
  | OpKill => Ret (Kill rf)
  end.

(** The server a reply or heartbeat is for is one of the peers. *)
Definition op_srv_ok op (n : Z) : Prop :=
  match op with
  | OpHeartbeat _ srv | OpInstallSnapshotReply srv _ _ | OpAppendEntriesReply srv _ _ =>
      0 ≤ srv < n
  | _ => True
  end.

(** ** Well-formedness *)

Record raft_wf rf : Prop := {
  wf_me : 0 ≤ rf.(me) < rf.(npeers);
  wf_head : le_Term <$> rf.(log).[0] = Some rf.(snapshotTerm);
  wf_snap : 0 ≤ rf.(snapshotIndex);
  wf_commit : rf.(snapshotIndex) ≤ rf.(commitIndex);
  wf_applied : rf.(snapshotIndex) ≤ rf.(lastApplied);
  wf_leader : rf.(state) = Leader →
    glen rf.(nextIndex) = rf.(npeers) ∧ glen rf.(matchIndex) = rf.(npeers);
}.

Lemma wf_log_nonempty rf : raft_wf rf → 0 < glen rf.(log).
Proof.
  intros Hwf. pose proof (wf_head _ Hwf) as Hh.
  destruct (rf.(log).[0]) as [e|] eqn:He; [|done].
  apply zlookup_lt_Some in He. lia.
Qed.

(** *** Votes and terms *)

(** [vote_le rf rf']: the term did not decrease, and a vote cast in the
    current term was not taken back; the identity of the peer is fixed. *)
Record vote_le rf rf' : Prop := {
  vl_me : rf'.(me) = rf.(me);
  vl_npeers : rf'.(npeers) = rf.(npeers);
  vl_term : rf.(currentTerm) ≤ rf'.(currentTerm);
  vl_vote : rf'.(currentTerm) = rf.(currentTerm) → rf.(votedFor) ≠ -1 →
    rf'.(votedFor) = rf.(votedFor);
}.

#[export] Instance vote_le_preorder : PreOrder vote_le.
Proof.
  split.
  - intros rf. by constructor.
  - intros a b c [Hm Hn Ht Hv] [Hm' Hn' Ht' Hv']. constructor; [lia..|].
    intros Heq Hne. assert (b.(votedFor) = a.(votedFor)) as E by (apply Hv; [lia|done]).
    rewrite <-E. apply Hv'; [lia|congruence].
Qed.

(** *** Durability: what a restart would read is what is in memory

    Before the first [persist] the disk is empty, and a restart
    reinitialises the peer to the state it is still in. *)

Definition core rf : Z * Z * list (LogEntry Cmd) * Z * Z :=
  (rf.(currentTerm), rf.(votedFor), rf.(log), rf.(snapshotIndex), rf.(snapshotTerm)).

Definition initial_core : Z * Z * list (LogEntry Cmd) * Z * Z :=
  (0, -1, [mkEntry 0 None], 0, 0).

Definition durable rf : Prop :=
  ReadRaftState rf.(persister) = encodeState rf ∨
  (ReadRaftState rf.(persister) = [] ∧ core rf = initial_core).

Lemma encodeState_core rf rf' : core rf' = core rf → encodeState rf' = encodeState rf.
Proof. unfold core, encodeState. by intros [= -> -> -> -> ->]. Qed.

Lemma durable_same rf rf' :
  core rf' = core rf ∧ rf'.(persister) = rf.(persister) → durable rf → durable rf'.
Proof.
  unfold durable. intros [Hc ->]. rewrite (encodeState_core _ _ Hc), Hc. done.
Qed.

Lemma durable_persist rf : durable (persist rf).
Proof. left. unfold persist. cbn. by rewrite ReadRaftState_Save. Qed.

Lemma durable_persistWithSnapshot sn rf : durable (persistWithSnapshot sn rf).
Proof. left. unfold persistWithSnapshot. cbn. by rewrite ReadRaftState_Save. Qed.
End node.

#[export] Hint Resolve durable_persist durable_persistWithSnapshot wf_log_nonempty : golab.

(** Case analysis on a handler's equation [H : handler .. = Ret r]: split every
    conditional and bind until [H] gives the result outright. *)
Ltac go_cases H :=
  repeat first
    [ progress go_inv H
    | match type of H with context [if ?b then _ else _] => destruct b eqn:? end ];
  try discriminate H.

#[global] Arguments observeTerm : simpl never.
#[global] Arguments stepDown : simpl never.
#[global] Arguments followerContact : simpl never.

Section vote_steps.
Context {Cmd : Type} `{GobCodec Z, GobCodec (list (LogEntry Cmd))}.
Implicit Types (rf : Raft Cmd) (op : RaftOp Cmd).

Lemma stepDown_vote_le t rf : rf.(currentTerm) < t → vote_le rf (stepDown t rf).
Proof. intros Ht. unfold stepDown. constructor; cbn; [done..|lia|lia]. Qed.

Lemma observeTerm_vote_le t rf : vote_le rf (observeTerm t rf).
Proof.
  unfold observeTerm. case_if; [|done]. apply stepDown_vote_le. lia.
Qed.

Lemma observeTerm_ge t rf : t ≤ (observeTerm t rf).(currentTerm).
Proof. unfold observeTerm, stepDown. case_if; cbn; lia. Qed.

(** Updates that leave the identity, term and vote alone. *)
Definition same_vote rf rf' : Prop :=
  (rf'.(me), rf'.(npeers), rf'.(currentTerm), rf'.(votedFor)) =
  (rf.(me), rf.(npeers), rf.(currentTerm), rf.(votedFor)).

Lemma same_vote_le rf rf' : same_vote rf rf' → vote_le rf rf'.
Proof. intros [=]. constructor; lia || congruence. Qed.

Ltac same_vote_tac :=
  apply same_vote_le; unfold same_vote, persist, followerCommit, raiseCommit, raiseApplied;
  repeat case_if; done.

Lemma applyLoop_frame fuel rf r :
  applyLoop fuel rf = Ret r →
  r.1 = rf <| lastApplied := r.1.(lastApplied) |>.
Proof.
  revert rf r. induction fuel as [|fuel IH]; intros rf r Hr; simpl in Hr.
  { injection Hr as <-. by destruct rf. }
  case_match eqn:E; [|injection Hr as <-; by destruct rf].
  go_inv Hr. subst r. simpl.
  match goal with Ha : applyLoop _ _ = _ |- _ => apply IH in Ha; rewrite Ha end. done.
Qed.

Lemma commitScan_frame fuel n rf rf' :
  commitScan fuel n rf = Ret rf' →
  rf' = rf <| commitIndex := rf'.(commitIndex) |>.
Proof.
  revert n rf'. induction fuel as [|fuel IH]; intros n rf' Hr; simpl in Hr.
  { injection Hr as <-. by destruct rf. }
  go_cases Hr; eauto; subst rf'; by destruct rf.
Qed.

Lemma becomeLeader_frame rf rf' :
  becomeLeader rf = Ret rf' →
  rf' = rf <| state := Leader |> <| nextIndex := rf'.(nextIndex) |>
           <| matchIndex := rf'.(matchIndex) |>.
Proof. unfold becomeLeader. intros Hr. go_inv Hr. by subst rf'. Qed.

Lemma decideVote_vote_le now term args rf r :
  decideVote now term args rf = Ret r → vote_le rf r.1.
Proof.
  unfold decideVote. intros Hr. go_cases Hr; subst r; [|done].
  constructor; cbn; [lia..|]. intros _ Hne. lia.
Qed.

Lemma RequestVote_vote_le now args rf r : RequestVote now args rf = Ret r → vote_le rf r.1.
Proof.
  unfold RequestVote. intros Hr. go_cases Hr; [by subst r|].
  etransitivity; [apply observeTerm_vote_le|]. eauto using decideVote_vote_le.
Qed.

Lemma appendEntriesLog_vote_le term args rf r :
  appendEntriesLog term args rf = Ret r → vote_le rf r.1.
Proof.
  unfold appendEntriesLog. intros Hr. go_cases Hr; subst r; try done; same_vote_tac.
Qed.

Lemma observe_follower_vote_le now t rf :
  vote_le rf (followerContact now (observeTerm t rf)).
Proof. etransitivity; [apply observeTerm_vote_le|]. same_vote_tac. Qed.

Lemma AppendEntries_vote_le now args rf r : AppendEntries now args rf = Ret r → vote_le rf r.1.
Proof.
  unfold AppendEntries. intros Hr. go_cases Hr; [by subst r|].
  etransitivity; [apply observe_follower_vote_le|]. eauto using appendEntriesLog_vote_le.
Qed.

Lemma installSnapshotLog_vote_le args rf rf' :
  installSnapshotLog args rf = Ret rf' → vote_le rf rf'.
Proof. unfold installSnapshotLog. intros Hr. go_inv Hr. subst. same_vote_tac. Qed.

Lemma InstallSnapshot_vote_le now args rf r :
  InstallSnapshot now args rf = Ret r → vote_le rf r.1.1.
Proof.
  unfold InstallSnapshot. intros Hr. go_cases Hr; subst r; simpl.
  - done.
  - apply observe_follower_vote_le.
  - etransitivity; [apply observe_follower_vote_le|]. eauto using installSnapshotLog_vote_le.
Qed.

Lemma snapshotLeader_frame rf rf' :
  snapshotLeader rf = Ret rf' →
  rf' = rf <| nextIndex := rf'.(nextIndex) |> <| matchIndex := rf'.(matchIndex) |>.
Proof.
  unfold snapshotLeader. intros Hr. go_cases Hr; subst; [done|by destruct rf'].
Qed.

Lemma Snapshot_vote_le index data rf rf' : Snapshot index data rf = Ret rf' → vote_le rf rf'.
Proof.
  unfold Snapshot. intros Hr. go_cases Hr; subst; try done.
  match goal with Ha : snapshotLeader _ = _ |- _ => rewrite (snapshotLeader_frame _ _ Ha) end.
  same_vote_tac.
Qed.

Lemma onVoteReply_vote_le args reply v w rf r :
  onVoteReply args reply v w rf = Ret r → vote_le rf r.1.1.
Proof.
  unfold onVoteReply. intros Hr. go_cases Hr; subst r; simpl; try done.
  - apply stepDown_vote_le. lia.
  - match goal with Hb : becomeLeader _ = _ |- _ => rewrite (becomeLeader_frame _ _ Hb) end.
    same_vote_tac.
Qed.

Lemma startElection_vote_le now rf r : startElection now rf = Ret r → vote_le rf r.1.1.
Proof.
  unfold startElection. intros Hr. go_inv Hr. subst. constructor; cbn; lia.
Qed.

Lemma onInstallSnapshotReply_vote_le srv args reply rf rf' :
  onInstallSnapshotReply srv args reply rf = Ret rf' → vote_le rf rf'.
Proof.
  unfold onInstallSnapshotReply. intros Hr. go_cases Hr; subst; try done; try same_vote_tac.
  all: apply stepDown_vote_le; lia.
Qed.

Lemma onAppendEntriesReply_vote_le srv args reply rf rf' :
  onAppendEntriesReply srv args reply rf = Ret rf' → vote_le rf rf'.
Proof.
  unfold onAppendEntriesReply. intros Hr. go_cases Hr; subst; try done; try same_vote_tac.
  all: apply stepDown_vote_le; lia.
Qed.

Lemma updateCommitIndex_vote_le rf rf' : updateCommitIndex rf = Ret rf' → vote_le rf rf'.
Proof.
  unfold updateCommitIndex. intros Hr. go_cases Hr; [|by subst].
  rewrite (commitScan_frame _ _ _ _ Hr). same_vote_tac.
Qed.

Lemma exec_vote_le op rf rf' : exec op rf = Ret rf' → vote_le rf rf'.
Proof.
  destruct op; simpl; intros Hr; go_inv Hr; subst.
  all: eauto using RequestVote_vote_le, AppendEntries_vote_le, InstallSnapshot_vote_le,
    Snapshot_vote_le, startElection_vote_le, onVoteReply_vote_le,
    onInstallSnapshotReply_vote_le, onAppendEntriesReply_vote_le, updateCommitIndex_vote_le.
  - unfold Start. case_if; [same_vote_tac|done].
  - done.
  - apply applyLoop_frame in Ha. rewrite Ha. same_vote_tac.
  - same_vote_tac.
Qed.
End vote_steps.

(** ** The replicated log: [appendLoop] against the rule of the Raft paper

    "If an existing entry conflicts with a new one (same index but different
    terms), delete the existing entry and all that follow it; append any new
    entries not already in the log." *)

Section merge.
Context {Cmd : Type}.
Implicit Types (lg entries : list (LogEntry Cmd)).

Fixpoint agree_len (lg entries : list (LogEntry Cmd)) : nat :=
  match lg, entries with
  | e :: lg, e' :: entries =>
    if e.(le_Term) =? e'.(le_Term) then S (agree_len lg entries) else 0
  | _, _ => 0
  end.

Definition merge_log (n : nat) entries lg : list (LogEntry Cmd) :=
  let j := agree_len (drop n lg) entries in
  if decide (j = length entries) then lg
  else take (n + j) lg ++ drop j entries.

Lemma agree_len_nil_r lg : agree_len lg [] = 0%nat.
Proof. by destruct lg. Qed.

Lemma agree_len_le lg entries :
  (agree_len lg entries ≤ length lg ∧ agree_len lg entries ≤ length entries)%nat.
Proof.
  revert entries. induction lg as [|e lg IH]; intros [|e' entries]; simpl; [lia..|].
  specialize (IH entries). case_if; lia.
Qed.

Lemma merge_log_end entries lg : merge_log (length lg) entries lg = lg ++ entries.
Proof.
  unfold merge_log. rewrite drop_all. simpl. rewrite Nat.add_0_r, firstn_all.
  case_decide; [|done]. by rewrite (nil_length_inv entries), app_nil_r.
Qed.

Lemma merge_log_nil n lg : merge_log n [] lg = lg.
Proof. unfold merge_log. by rewrite agree_len_nil_r. Qed.

Lemma appendLoop_merge n entries lg :
  (n ≤ length lg)%nat →
  appendLoop (Z.of_nat n) entries lg = Ret (merge_log n entries lg).
Proof.
  revert n lg. induction entries as [|e entries IH]; intros n lg Hn; simpl.
  { by rewrite merge_log_nil. }
  replace (Z.of_nat n + 1) with (Z.of_nat (S n)) by lia.
  assert (∀ l, length l = n →
    appendLoop (Z.of_nat (S n)) entries (l ++ [e]) = Ret (l ++ e :: entries)) as Hend.
  { intros l Hl. replace (S n) with (length (l ++ [e])) by (rewrite length_app; simpl; lia).
    rewrite IH by done. by rewrite merge_log_end, <-app_assoc. }
  case_if.
  { assert (n = length lg) as -> by (unfold glen in *; lia). simpl.
    rewrite Hend by done. by rewrite merge_log_end. }
  destruct (lookup_lt_is_Some_2 lg n) as [x Hx]; [unfold glen in *; lia|].
  assert (gidx lg (Z.of_nat n) = Ret x) as ->.
  { apply gidx_Ret. unfold zlookup. case_if; [lia|]. by rewrite Nat2Z.id. }
  simpl. unfold merge_log. rewrite (drop_S _ _ _ Hx). simpl. case_if; simpl.
  - rewrite IH by (apply lookup_lt_Some in Hx; lia). unfold merge_log.
    repeat case_decide; try lia; [done|]. simpl. by rewrite Nat.add_succ_r.
  - rewrite gslice_to_Ret by (unfold glen in *; lia). simpl. rewrite Nat2Z.id.
    rewrite Hend by (rewrite length_take; lia). by rewrite Nat.add_0_r.
Qed.

Lemma merge_log_take n entries lg :
  (n ≤ length lg)%nat → take n (merge_log n entries lg) = take n lg.
Proof.
  intros Hn. unfold merge_log. case_decide; [done|].
  pose proof (agree_len_le (drop n lg) entries) as [Hl _]. rewrite length_drop in Hl.
  rewrite take_app_le by (rewrite length_take; lia). rewrite take_take. f_equal. lia.
Qed.

Lemma merge_log_terms n entries lg k e :
  (n ≤ length lg)%nat → entries !! k = Some e →
  le_Term <$> merge_log n entries lg !! (n + k)%nat = Some e.(le_Term).
Proof.
  intros Hn Hk.
  assert (∀ l es, agree_len l es = length es ∨ (k < agree_len l es)%nat → es !! k = Some e →
    le_Term <$> l !! k = Some e.(le_Term)) as Hagree.
  { clear. revert k. intros k l es. revert k l.
    induction es as [|e' es IH]; intros k [|x l] Hj Hk; simpl in *; [lia || done..|].
    destruct (Z.eqb_spec x.(le_Term) e'.(le_Term)); [|lia].
    destruct k as [|k]; simpl in *; [congruence|]. apply IH; [lia|done]. }
  unfold merge_log. case_decide as Hd.
  { rewrite <-lookup_drop. eauto. }
  pose proof (agree_len_le (drop n lg) entries) as [Hl _]. rewrite length_drop in Hl.
  set (j := agree_len (drop n lg) entries) in *.
  destruct (decide (k < j)%nat).
  - rewrite lookup_app_l by (rewrite length_take; lia).
    rewrite lookup_take_lt by lia. rewrite <-lookup_drop. eauto.
  - rewrite lookup_app_r by (rewrite length_take; lia).
    rewrite length_take, lookup_drop. replace (j + _)%nat with k by lia. by rewrite Hk.
Qed.

Lemma merge_log_source n entries lg k e e' :
  (n ≤ length lg)%nat → entries !! k = Some e → merge_log n entries lg !! (n + k)%nat = Some e' →
  lg !! (n + k)%nat = Some e' ∨ e' = e.
Proof.
  intros Hn Hk. unfold merge_log. case_decide as Hd; [by left|].
  pose proof (agree_len_le (drop n lg) entries) as [Hl _]. rewrite length_drop in Hl.
  set (j := agree_len (drop n lg) entries) in *.
  destruct (decide (k < j)%nat).
  - rewrite lookup_app_l by (rewrite length_take; lia).
    rewrite lookup_take_lt by lia. by left.
  - rewrite lookup_app_r by (rewrite length_take; lia).
    rewrite length_take, lookup_drop. replace (j + _)%nat with k by lia. intros. right. congruence.
Qed.

Lemma merge_log_length n entries lg :
  (n ≤ length lg)%nat → (n + length entries ≤ length (merge_log n entries lg))%nat.
Proof.
  intros Hn. unfold merge_log.
  pose proof (agree_len_le (drop n lg) entries) as [Hl ?]. rewrite length_drop in Hl.
  case_decide; [lia|]. rewrite length_app, length_take, length_drop. lia.
Qed.
End merge.

(** ** No handler panics on a well-formed peer, and all keep it well-formed *)

Section wf_steps.
Context {Cmd : Type} `{GobCodec Z, GobCodec (list (LogEntry Cmd))}.
Implicit Types (rf : Raft Cmd) (op : RaftOp Cmd).

Ltac wf_tac := constructor; cbn; try lia; try done; intros; try discriminate; auto.

Lemma stepDown_wf t rf : raft_wf rf → raft_wf (stepDown t rf).
Proof. intros []. unfold stepDown. wf_tac. Qed.

Lemma observeTerm_wf t rf : raft_wf rf → raft_wf (observeTerm t rf).
Proof. intros Hwf. unfold observeTerm. case_if; auto using stepDown_wf. Qed.

Lemma followerContact_wf now rf : raft_wf rf → raft_wf (followerContact now rf).
Proof. intros []. unfold followerContact. wf_tac. Qed.

Lemma persist_wf rf : raft_wf rf → raft_wf (persist rf).
Proof. intros []. wf_tac. Qed.

Lemma persistWithSnapshot_wf sn rf : raft_wf rf → raft_wf (persistWithSnapshot sn rf).
Proof. intros []. wf_tac. Qed.

Lemma set_log_wf lg rf :
  raft_wf rf → le_Term <$> lg.[0] = Some rf.(snapshotTerm) → raft_wf (rf <| log := lg |>).
Proof. intros [] ?. wf_tac. Qed.

Lemma last_entry rf :
  raft_wf rf →
  returns (gidx rf.(log) (glen rf.(log) - 1)) (λ e, rf.(log).[glen rf.(log) - 1] = Some e).
Proof. intros Hwf%wf_log_nonempty. apply gidx_returns. lia. Qed.

Lemma decideVote_wf now term args rf :
  raft_wf rf → returns (decideVote now term args rf) (λ r, raft_wf r.1).
Proof.
  intros Hwf. unfold decideVote. eapply returns_bind; [by apply last_entry|].
  intros e _. simpl. case_if; apply returns_Ret; simpl; [|done].
  destruct Hwf. wf_tac.
Qed.

Lemma RequestVote_wf now args rf :
  raft_wf rf → returns (RequestVote now args rf) (λ r, raft_wf r.1).
Proof.
  intros Hwf. unfold RequestVote. case_if; [by apply returns_Ret|].
  by apply decideVote_wf, observeTerm_wf.
Qed.

Lemma findXIndex_returns rf xTerm xIndex n :
  Z.of_nat n ≤ glen rf.(log) → returns (findXIndex rf xTerm xIndex n) (λ _, True).
Proof.
  induction n as [|n IH]; intros Hn; simpl; [by apply returns_Ret|].
  eapply returns_bind; [apply gidx_returns; lia|]. intros e _.
  case_if; [apply IH; lia|by apply returns_Ret].
Qed.

(** Absolute index [i] is at position [i - snapshotIndex] of the slice. *)
Lemma appendLoop_log rf prev entries :
  raft_wf rf → rf.(snapshotIndex) ≤ prev → prev - rf.(snapshotIndex) < glen rf.(log) →
  appendLoop (prev - rf.(snapshotIndex) + 1) entries rf.(log) =
    Ret (merge_log (Z.to_nat (prev - rf.(snapshotIndex) + 1)) entries rf.(log)).
Proof.
  intros Hwf Hprev Hlt. rewrite <-appendLoop_merge by (unfold glen in *; lia).
  f_equal. lia.
Qed.

Lemma merge_log_head n entries (lg : list (LogEntry Cmd)) :
  (0 < n ≤ length lg)%nat → (merge_log n entries lg).[0] = lg.[0].
Proof.
  intros Hn. rewrite <-(zlookup_take _ n) by lia. rewrite merge_log_take by lia.
  by rewrite zlookup_take by lia.
Qed.

Lemma followerCommit_wf args rf :
  raft_wf rf → rf.(snapshotIndex) ≤ args.(PrevLogIndex) → raft_wf (followerCommit args rf).
Proof.
  intros [] Hprev. unfold followerCommit. pose proof (glen_nonneg args.(Entries)).
  repeat case_if; wf_tac.
Qed.

Lemma appendEntriesLog_wf term args rf :
  raft_wf rf → returns (appendEntriesLog term args rf) (λ r, raft_wf r.1).
Proof.
  intros Hwf. unfold appendEntriesLog. case_if; [by apply returns_Ret|].
  case_if; [by apply returns_Ret|].
  eapply returns_bind; [apply gidx_returns; lia|]. intros e He. simpl. case_if.
  - eapply returns_bind; [apply findXIndex_returns; lia|]. intros. by apply returns_Ret.
  - rewrite appendLoop_log by (done || lia). simpl. apply returns_Ret. simpl.
    apply followerCommit_wf; [|case_if; cbn; lia].
    assert (raft_wf (rf <| log := merge_log (Z.to_nat (PrevLogIndex args - snapshotIndex rf + 1))
      (Entries args) (log rf) |>)) as Hwf'; [|case_if; auto using persist_wf].
    apply set_log_wf; [done|]. rewrite merge_log_head by (unfold glen in *; lia).
    apply wf_head, Hwf.
Qed.

Lemma AppendEntries_wf now args rf :
  raft_wf rf → returns (AppendEntries now args rf) (λ r, raft_wf r.1).
Proof.
  intros Hwf. unfold AppendEntries. case_if; [by apply returns_Ret|].
  by apply appendEntriesLog_wf, followerContact_wf, observeTerm_wf.
Qed.

Lemma installSnapshotLog_wf args rf :
  raft_wf rf → rf.(state) = Follower → rf.(snapshotIndex) < args.(LastIncludedIndex) →
  returns (installSnapshotLog args rf) raft_wf.
Proof.
  intros [] Hst Hlt. unfold installSnapshotLog.
  eapply returns_bind with (P := λ _, True).
  { case_if; [|by apply returns_Ret]. rewrite gslice_from_Ret by lia. by apply returns_Ret. }
  intros rest _. apply returns_Ret. unfold raiseApplied, raiseCommit.
  repeat case_if; wf_tac; cbn in *; lia || congruence.
Qed.

Lemma InstallSnapshot_wf now args rf :
  raft_wf rf → returns (InstallSnapshot now args rf) (λ r, raft_wf r.1.1).
Proof.
  intros Hwf. unfold InstallSnapshot. case_if; [by apply returns_Ret|].
  assert (raft_wf (followerContact now (observeTerm (is_Term args) rf))) as Hwf'
    by by apply followerContact_wf, observeTerm_wf.
  case_if; [by apply returns_Ret|].
  eapply returns_bind; [apply installSnapshotLog_wf; [done|done|lia]|].
  intros rf' ?. by apply returns_Ret.
Qed.

Lemma snapshotPeer_returns rf i nm :
  0 ≤ i < rf.(npeers) → glen nm.1 = rf.(npeers) → glen nm.2 = rf.(npeers) →
  returns (snapshotPeer rf nm i) (λ nm', glen nm'.1 = rf.(npeers) ∧ glen nm'.2 = rf.(npeers)).
Proof.
  destruct nm as [ni mi]. simpl. intros Hi Hni Hmi.
  eapply returns_bind with (P := λ ni', glen ni' = npeers rf).
  { case_if; [by apply returns_Ret|].
    eapply returns_bind; [apply gidx_returns; lia|]. intros x _.
    case_if; [|by apply returns_Ret]. rewrite gset_idx_Ret by lia.
    apply returns_Ret. by rewrite glen_insert. }
  intros ni' Hni'. eapply returns_bind; [apply gidx_returns; lia|]. intros x _.
  eapply returns_bind with (P := λ mi', glen mi' = npeers rf).
  { case_if; [|by apply returns_Ret]. rewrite gset_idx_Ret by lia.
    apply returns_Ret. by rewrite glen_insert. }
  intros mi' Hmi'. by apply returns_Ret.
Qed.

Lemma snapshotLeader_wf rf : raft_wf rf → returns (snapshotLeader rf) raft_wf.
Proof.
  intros Hwf. unfold snapshotLeader. case_if; [|by apply returns_Ret].
  apply bool_decide_eq_true in E. destruct (wf_leader _ Hwf E) as [Hn Hm].
  eapply returns_bind.
  { apply foldM_returns with
      (I := λ nm, glen nm.1 = rf.(npeers) ∧ glen nm.2 = rf.(npeers)); [done|].
    intros nm i [? ?] Hi%elem_of_range. by apply snapshotPeer_returns. }
  intros nm [? ?]. apply returns_Ret. destruct Hwf. wf_tac.
Qed.

Lemma Snapshot_wf index data rf : raft_wf rf → returns (Snapshot index data rf) raft_wf.
Proof.
  intros Hwf. unfold Snapshot. case_if; [by apply returns_Ret|].
  case_if; [by apply returns_Ret|].
  eapply returns_bind; [apply gidx_returns; lia|]. intros e He.
  rewrite gslice_from_Ret by lia. simpl.
  eapply returns_bind with (P := raft_wf);
    [|intros rf' ?; by apply returns_Ret, persistWithSnapshot_wf].
  apply snapshotLeader_wf. destruct Hwf. unfold raiseApplied, raiseCommit.
  repeat case_if; wf_tac; cbn in *; lia || auto.
Qed.

Lemma Start_wf command rf : raft_wf rf → raft_wf (Start command rf).1.
Proof.
  intros Hwf. unfold Start. case_if; [|done]. simpl. apply persist_wf, set_log_wf; [done|].
  rewrite zlookup_app_l by (apply wf_log_nonempty in Hwf; lia). apply wf_head, Hwf.
Qed.

Lemma startElection_wf now rf :
  raft_wf rf → returns (startElection now rf) (λ r, raft_wf r.1.1).
Proof.
  intros Hwf. unfold startElection.
  eapply returns_bind; [apply (last_entry rf Hwf)|]. intros e _.
  apply returns_Ret. destruct Hwf. wf_tac.
Qed.

Lemma becomeLeader_wf rf : raft_wf rf → returns (becomeLeader rf) raft_wf.
Proof.
  intros [Hme ? ? ? ? ?]. unfold becomeLeader. rewrite gset_idx_Ret by glen_lia. simpl.
  apply returns_Ret. wf_tac. autorewrite with golen. lia.
Qed.

Lemma onVoteReply_wf args reply v w rf :
  raft_wf rf → returns (onVoteReply args reply v w rf) (λ r, raft_wf r.1.1).
Proof.
  intros Hwf. unfold onVoteReply. repeat case_if; try by apply returns_Ret.
  - apply returns_Ret. by apply stepDown_wf.
  - eapply returns_bind; [by apply becomeLeader_wf|]. intros. by apply returns_Ret.
Qed.

Lemma heartbeatMsg_returns hb srv rf :
  raft_wf rf → 0 ≤ srv < rf.(npeers) → returns (heartbeatMsg hb srv rf) (λ _, True).
Proof.
  intros Hwf Hsrv. unfold heartbeatMsg. case_if; [by apply returns_Ret|].
  apply orb_false_iff in E as [El _]. apply negb_false_iff, bool_decide_eq_true in El.
  destruct (wf_leader _ Hwf El) as [Hn Hm].
  eapply returns_bind; [apply gidx_returns; lia|]. intros next _.
  case_if; [by apply returns_Ret|].
  eapply returns_bind with (P := λ _, True).
  { case_if; [|by apply returns_Ret].
    eapply returns_bind; [apply gidx_returns; lia|]. intros. by apply returns_Ret. }
  intros t _. eapply returns_bind with (P := λ _, True).
  { case_if; [|by apply returns_Ret]. rewrite gslice_from_Ret by lia. by apply returns_Ret. }
  intros es _. by apply returns_Ret.
Qed.

Lemma set_leader_arrays_wf ni mi rf :
  raft_wf rf → glen ni = rf.(npeers) → glen mi = rf.(npeers) →
  raft_wf (rf <| matchIndex := mi |> <| nextIndex := ni |>).
Proof. intros [] ? ?. wf_tac. Qed.

Lemma onInstallSnapshotReply_wf srv args reply rf :
  raft_wf rf → 0 ≤ srv < rf.(npeers) → returns (onInstallSnapshotReply srv args reply rf) raft_wf.
Proof.
  intros Hwf Hsrv. unfold onInstallSnapshotReply. case_if; [|by apply returns_Ret].
  apply andb_true_iff in E as [El _]. apply bool_decide_eq_true in El.
  destruct (wf_leader _ Hwf El) as [Hn Hm].
  case_if; [by apply returns_Ret, stepDown_wf|].
  rewrite !gset_idx_Ret by lia. simpl.
  apply returns_Ret, set_leader_arrays_wf; [done|by autorewrite with golen..].
Qed.

Lemma set_nextIndex_wf ni rf :
  raft_wf rf → (rf.(state) = Leader → glen ni = rf.(npeers)) → raft_wf (rf <| nextIndex := ni |>).
Proof. intros [? ? ? ? ? Hl] ?. wf_tac. split; [auto|by apply Hl]. Qed.

Lemma onAppendEntriesReply_wf srv args reply rf :
  raft_wf rf → 0 ≤ srv < rf.(npeers) → returns (onAppendEntriesReply srv args reply rf) raft_wf.
Proof.
  intros Hwf Hsrv. unfold onAppendEntriesReply. case_if; [|by apply returns_Ret].
  apply andb_true_iff in E as [El _]. apply bool_decide_eq_true in El.
  destruct (wf_leader _ Hwf El) as [Hn Hm].
  case_if.
  - eapply returns_bind; [apply gidx_returns; lia|]. intros m _.
    case_if; [|by apply returns_Ret]. rewrite !gset_idx_Ret by lia. simpl.
    apply returns_Ret, set_leader_arrays_wf; [done|by autorewrite with golen..].
  - case_if; [by apply returns_Ret, stepDown_wf|].
    eapply returns_bind; [apply gset_idx_returns; lia|]. intros ni Hni.
    simpl in Hni. eapply returns_bind with (P := λ ni', glen ni' = rf.(npeers)).
    { case_if; [|by apply returns_Ret; rewrite Hni].
      eapply returns_mono; [apply gset_idx_returns; lia|]. simpl. intros ni' ->. lia. }
    intros ni' ?. apply returns_Ret, set_nextIndex_wf; done.
Qed.

Lemma applyLoop_wf fuel rf : raft_wf rf → returns (applyLoop fuel rf) (λ r, raft_wf r.1).
Proof.
  revert rf. induction fuel as [|fuel IH]; intros rf Hwf; simpl; [by apply returns_Ret|].
  case_if; [|by apply returns_Ret].
  eapply returns_bind with (P := λ _, True).
  { case_if; [|by apply returns_Ret].
    eapply returns_bind; [apply gidx_returns; lia|]. intros. by apply returns_Ret. }
  intros msgs _. eapply returns_bind; [apply IH; destruct Hwf; wf_tac|].
  intros r ?. by apply returns_Ret.
Qed.

Lemma countMatch_returns rf n :
  glen rf.(matchIndex) = rf.(npeers) → returns (countMatch rf n) (λ _, True).
Proof.
  intros Hm. apply foldM_returns; [done|]. intros c i _ Hi%elem_of_range.
  case_if; [by apply returns_Ret|].
  eapply returns_bind; [apply gidx_returns; lia|]. intros. by apply returns_Ret.
Qed.

Lemma commitScan_wf fuel n rf :
  raft_wf rf → rf.(state) = Leader → returns (commitScan fuel n rf) raft_wf.
Proof.
  intros Hwf Hl. revert n. induction fuel as [|fuel IH]; intros n; simpl; [by apply returns_Ret|].
  case_if; [by apply returns_Ret|]. case_if; [apply IH|].
  eapply returns_bind; [apply gidx_returns; lia|]. intros e _. case_if; [apply IH|].
  eapply returns_bind; [apply countMatch_returns, (wf_leader _ Hwf Hl)|]. intros c _.
  case_if; [|apply IH]. apply returns_Ret. destruct Hwf. wf_tac.
Qed.

Lemma exec_wf op rf :
  raft_wf rf → op_srv_ok op rf.(npeers) → returns (exec op rf) raft_wf.
Proof.
  intros Hwf Hsrv. destruct op; simpl in *.
  - by apply returns_fmap, RequestVote_wf.
  - by apply returns_fmap, AppendEntries_wf.
  - by apply returns_fmap, InstallSnapshot_wf.
  - by apply returns_Ret, Start_wf.
  - by apply Snapshot_wf.
  - by apply returns_fmap, startElection_wf.
  - by apply returns_fmap, onVoteReply_wf.
  - apply returns_fmap. eapply returns_mono; [by apply heartbeatMsg_returns|]. done.
  - by apply onInstallSnapshotReply_wf.
  - by apply onAppendEntriesReply_wf.
  - unfold updateCommitIndex. case_if; [|by apply returns_Ret].
    apply commitScan_wf; [done|by apply bool_decide_eq_true in E].
  - by apply returns_fmap, applyLoop_wf.
  - apply returns_Ret. destruct Hwf. wf_tac.
Qed.
End wf_steps.

(** ** Every step leaves the disk in agreement with memory *)

Section durable_steps.
Context {Cmd : Type} `{GobCodec Z, GobCodec (list (LogEntry Cmd))}.
Implicit Types (rf : Raft Cmd) (op : RaftOp Cmd).

(** Updates of volatile fields only. *)
Ltac volatile_tac :=
  eapply durable_same; [|eassumption]; by repeat (unfold raiseCommit, raiseApplied; case_if).

Lemma stepDown_durable t rf : durable (stepDown t rf).
Proof. apply durable_persist. Qed.

Lemma observeTerm_durable t rf : durable rf → durable (observeTerm t rf).
Proof. intros. unfold observeTerm. case_if; auto using stepDown_durable. Qed.

Lemma followerContact_durable now rf : durable rf → durable (followerContact now rf).
Proof. apply durable_same. done. Qed.

Lemma decideVote_durable now term args rf r :
  durable rf → decideVote now term args rf = Ret r → durable r.1.
Proof. unfold decideVote. intros Hd Hr. go_cases Hr; subst r; simpl; auto with golab. Qed.

Lemma RequestVote_durable now args rf r :
  durable rf → RequestVote now args rf = Ret r → durable r.1.
Proof.
  unfold RequestVote. intros Hd Hr. go_cases Hr; [by subst|].
  eauto using decideVote_durable, observeTerm_durable.
Qed.

Lemma followerCommit_durable args rf : durable rf → durable (followerCommit args rf).
Proof. apply durable_same. unfold followerCommit. by repeat case_if. Qed.

Lemma appendEntriesLog_durable term args rf r :
  durable rf → appendEntriesLog term args rf = Ret r → durable r.1.
Proof.
  unfold appendEntriesLog. intros Hd Hr. go_cases Hr; subst r; try done; simpl.
  - apply followerCommit_durable, durable_persist.
  - apply followerCommit_durable.
    assert (Entries args = []) as Hnil by (apply nil_length_inv; unfold glen in *; lia).
    rewrite Hnil in Ha0. simpl in Ha0. go_inv Ha0. subst. by eapply durable_same.
Qed.

Lemma AppendEntries_durable now args rf r :
  durable rf → AppendEntries now args rf = Ret r → durable r.1.
Proof.
  unfold AppendEntries. intros Hd Hr. go_cases Hr; [by subst|].
  eauto using appendEntriesLog_durable, observeTerm_durable, followerContact_durable.
Qed.

Lemma InstallSnapshot_durable now args rf r :
  durable rf → InstallSnapshot now args rf = Ret r → durable r.1.1.
Proof.
  unfold InstallSnapshot. intros Hd Hr. go_cases Hr; subst r; simpl;
    auto using observeTerm_durable, followerContact_durable.
  unfold installSnapshotLog in *. go_inv Ha. subst. apply durable_persistWithSnapshot.
Qed.

Lemma Snapshot_durable index data rf rf' :
  durable rf → Snapshot index data rf = Ret rf' → durable rf'.
Proof.
  unfold Snapshot. intros Hd Hr. go_cases Hr; subst; auto using durable_persistWithSnapshot.
Qed.

Lemma startElection_durable now rf r : startElection now rf = Ret r → durable r.1.1.
Proof.
  unfold startElection. intros Hr. go_inv Hr. subst. simpl.
  eapply durable_same; [|apply durable_persist]. done.
Qed.

Lemma onVoteReply_durable args reply v w rf r :
  durable rf → onVoteReply args reply v w rf = Ret r → durable r.1.1.
Proof.
  unfold onVoteReply. intros Hd Hr. go_cases Hr; subst r; simpl; auto using stepDown_durable.
  match goal with Hb : becomeLeader _ = _ |- _ => rewrite (becomeLeader_frame _ _ Hb) end.
  by eapply durable_same.
Qed.

Lemma exec_durable op rf rf' : durable rf → exec op rf = Ret rf' → durable rf'.
Proof.
  intros Hd. destruct op; simpl; intros Hr; go_inv Hr; subst;
    eauto using RequestVote_durable, AppendEntries_durable, InstallSnapshot_durable,
      Snapshot_durable, startElection_durable, onVoteReply_durable.
  - unfold Start. case_if; simpl; auto with golab.
  - unfold onInstallSnapshotReply in Hr. go_cases Hr; subst; auto using stepDown_durable.
  - unfold onAppendEntriesReply in Hr. go_cases Hr; subst; auto using stepDown_durable.
  - unfold updateCommitIndex in Hr. go_cases Hr; [|by subst].
    rewrite (commitScan_frame _ _ _ _ Hr). by eapply durable_same.
  - apply applyLoop_frame in Ha. rewrite Ha. by eapply durable_same.
Qed.

(** A restart reads back what [encodeState] wrote. *)
Context `{!GobLaws Z, !GobLaws (list (LogEntry Cmd))}.

Lemma readPersist_encodeState rf rf0 :
  readPersist (encodeState rf) rf0 =
    rf0 <| currentTerm := rf.(currentTerm) |> <| votedFor := rf.(votedFor) |>
        <| log := rf.(log) |> <| snapshotIndex := rf.(snapshotIndex) |>
        <| snapshotTerm := rf.(snapshotTerm) |> <| lastApplied := rf.(snapshotIndex) |>
        <| commitIndex := rf.(snapshotIndex) |>.
Proof.
  unfold readPersist. case_if.
  { exfalso. assert (encodeState rf = []) as Hn.
    { apply nil_length_inv. unfold glen in *. lia. }
    apply app_eq_nil in Hn as [Hn _]. by apply Encode_nonempty in Hn. }
  unfold encodeState, decodeCore. rewrite !Decode_Encode. rewrite Decode_Encode_nil. done.
Qed.
End durable_steps.
