(* ===== verification/RaftSpec.v ===== *)
(** * What the Raft handlers compute

    Absolute log indices: [entry_at rf i] is the entry of index [i], which the
    code keeps at position [i - snapshotIndex] of the slice (position 0 is the
    snapshot's own placeholder). *)

From S2P Require Import Prelude Gob Persister Raft RaftNode.
From Stdlib Require Import Strings.Byte.

Definition entry_at {Cmd} (rf : Raft Cmd) (i : Z) : option (LogEntry Cmd) :=
  rf.(log).[i - rf.(snapshotIndex)].

Definition term_at {Cmd} (rf : Raft Cmd) (i : Z) : option Z := le_Term <$> entry_at rf i.

Section entries.
Context {Cmd : Type}.
Implicit Types rf : Raft Cmd.

Lemma entry_at_Some rf i e : entry_at rf i = Some e → rf.(snapshotIndex) ≤ i ≤ lastLogIndex rf.
Proof. unfold entry_at, lastLogIndex. intros ?%zlookup_lt_Some. lia. Qed.

Lemma entry_at_is_Some rf i :
  rf.(snapshotIndex) ≤ i ≤ lastLogIndex rf → ∃ e, entry_at rf i = Some e.
Proof. unfold entry_at, lastLogIndex. intros. apply zlookup_is_Some. lia. Qed.

Lemma entry_at_None rf i :
  entry_at rf i = None ↔ i < rf.(snapshotIndex) ∨ lastLogIndex rf < i.
Proof. unfold entry_at, lastLogIndex. rewrite zlookup_None. lia. Qed.
End entries.

(** ** A peer's life: steps and crashes *)

Inductive NodeEvent {Cmd : Type} :=
  | Step (op : RaftOp Cmd)
  | Restart (now : Z).
Arguments NodeEvent : clear implicits.

Section life.
Context {Cmd : Type} `{GobLaws Z, GobLaws (list (LogEntry Cmd))}.
Implicit Types (rf : Raft Cmd) (op : RaftOp Cmd) (ev : NodeEvent Cmd).

(** A crash loses everything but the disk, and [Make] starts from it. *)
Definition restart (now : Z) rf : Raft Cmd :=
  Make rf.(npeers) rf.(me) (Checkpoint rf.(persister)) now.

Definition live ev rf : go (Raft Cmd) :=
  match ev with
  | Step op => exec op rf
  | Restart now => Ret (restart now rf)
  end.

Definition run (evs : list (NodeEvent Cmd)) rf : go (Raft Cmd) :=
  foldM (λ rf ev, live ev rf) rf evs.

Definition event_ok (n : Z) ev : Prop :=
  match ev with Step op => op_srv_ok op n | Restart _ => True end.

Lemma restart_eq now rf :
  durable rf →
  restart now rf = {|
    npeers := rf.(npeers); me := rf.(me); dead := false; persister := rf.(persister);
    currentTerm := rf.(currentTerm); votedFor := rf.(votedFor); log := rf.(log);
    commitIndex := rf.(snapshotIndex); lastApplied := rf.(snapshotIndex);
    nextIndex := []; matchIndex := []; state := Follower; lastContact := now;
    snapshotIndex := rf.(snapshotIndex); snapshotTerm := rf.(snapshotTerm)
  |}.
Proof.
  intros [Hd|[Hd Hc]]; unfold restart, Make; rewrite Checkpoint_eq, Hd.
  - by rewrite readPersist_encodeState.
  - unfold core in Hc. injection Hc as <- <- <- <- <-. done.
Qed.

Lemma restart_wf now rf : raft_wf rf → durable rf → raft_wf (restart now rf).
Proof. intros [] Hd. rewrite restart_eq by done. constructor; cbn; done || lia. Qed.

Lemma restart_durable now rf : durable rf → durable (restart now rf).
Proof. intros Hd. rewrite restart_eq by done. by eapply durable_same. Qed.

Lemma restart_vote_le now rf : durable rf → vote_le rf (restart now rf).
Proof. intros Hd. rewrite restart_eq by done. constructor; cbn; done || lia. Qed.

Lemma live_ok ev rf :
  raft_wf rf → durable rf → event_ok rf.(npeers) ev →
  returns (live ev rf) (λ rf', raft_wf rf' ∧ durable rf' ∧ vote_le rf rf').
Proof.
  intros Hwf Hd Hev. destruct ev as [op|now]; simpl.
  - destruct (exec_wf op rf Hwf Hev) as (rf' & Hr & Hwf'). exists rf'.
    split_and!; eauto using exec_durable, exec_vote_le.
  - apply returns_Ret. auto using restart_wf, restart_durable, restart_vote_le.
Qed.

Lemma run_ok evs rf :
  raft_wf rf → durable rf → Forall (event_ok rf.(npeers)) evs →
  returns (run evs rf) (λ rf', raft_wf rf' ∧ durable rf' ∧ vote_le rf rf').
Proof.
  unfold run. revert rf. induction evs as [|ev evs IH]; intros rf Hwf Hd Hev; simpl.
  { by apply returns_Ret. }
  inversion Hev; subst. eapply returns_bind; [by apply live_ok|].
  intros rf' (Hwf' & Hd' & Hle). rewrite <-(vl_npeers _ _ Hle) in *.
  eapply returns_mono; [by apply IH|]. intros rf'' (? & ? & ?). split_and!; [done..|]. by etransitivity.
Qed.

(** The first boot, with an empty disk. *)
Definition boot (n i now : Z) : Raft Cmd := Make n i MakePersister now.

Lemma boot_eq n i now :
  boot n i now = {|
    npeers := n; me := i; dead := false; persister := MakePersister;
    currentTerm := 0; votedFor := -1; log := [mkEntry 0 None];
    commitIndex := 0; lastApplied := 0; nextIndex := []; matchIndex := [];
    state := Follower; lastContact := now; snapshotIndex := 0; snapshotTerm := 0
  |}.
Proof. done. Qed.

Lemma boot_wf n i now : 0 ≤ i < n → raft_wf (boot n i now).
Proof. intros. rewrite boot_eq. constructor; cbn; done || lia. Qed.

Lemma boot_durable n i now : durable (boot n i now).
Proof. by right. Qed.
End life.

(** ** Properties of a peer's life *)

Section life_props.
Context {Cmd : Type} `{GobLaws Z, GobLaws (list (LogEntry Cmd))}.
Implicit Types (rf : Raft Cmd).

(** C21. Whatever messages, replies, timeouts, client calls and crashes a
    peer sees from its first boot, no handler panics, and the state stays
    well-formed. *)
Theorem raft_run_safe n i now (evs : list (NodeEvent Cmd)) :
  0 ≤ i < n → Forall (event_ok n) evs → returns (run evs (boot n i now)) raft_wf.
Proof.
  intros Hi Hevs. eapply returns_mono; [apply run_ok; auto using boot_wf, boot_durable|].
  by intros rf (Hwf & _ & _).
Qed.

(** C20. Crash recovery: at any point of a peer's life a crash followed by
    [Make] gets back the term, the vote, the log and the snapshot position
    that were in memory, and the snapshot on disk. *)
Theorem raft_recovers n i now (evs : list (NodeEvent Cmd)) now' :
  0 ≤ i < n → Forall (event_ok n) evs →
  returns (run evs (boot n i now)) (λ rf,
    core (restart now' rf) = core rf ∧
    ReadSnapshot (restart now' rf).(persister) = ReadSnapshot rf.(persister)).
Proof.
  intros Hi Hevs. eapply returns_mono; [apply run_ok; auto using boot_wf, boot_durable|].
  intros rf (_ & Hd & _). by rewrite restart_eq.
Qed.

Lemma RequestVote_granted now args rf rf' reply :
  RequestVote now args rf = Ret (rf', reply) → reply.(VoteGranted) = true →
  rf'.(currentTerm) = args.(rv_Term) ∧ rf'.(votedFor) = args.(CandidateId) ∧
  (rf.(currentTerm) < args.(rv_Term) ∨
   rf.(currentTerm) = args.(rv_Term) ∧
   (rf.(votedFor) = -1 ∨ rf.(votedFor) = args.(CandidateId))).
Proof.
  unfold RequestVote, decideVote, observeTerm, stepDown. intros Hr Hg.
  go_cases Hr; simplify_eq; cbn in *; try done; split_and!; lia.
Qed.

(** One vote per term, across crashes: if a peer grants its vote to one
    candidate and, any number of steps and restarts later, grants a vote in
    the same term, it is to the same candidate. *)
Theorem one_vote_per_term now1 now2 args1 args2 rf rf1 rf2 rf3 evs rep1 rep2 :
  raft_wf rf → durable rf → Forall (event_ok rf.(npeers)) evs →
  RequestVote now1 args1 rf = Ret (rf1, rep1) → rep1.(VoteGranted) = true →
  run evs rf1 = Ret rf2 →
  RequestVote now2 args2 rf2 = Ret (rf3, rep2) → rep2.(VoteGranted) = true →
  args1.(rv_Term) = args2.(rv_Term) → args1.(CandidateId) ≠ -1 →
  args2.(CandidateId) = args1.(CandidateId).
Proof.
  intros Hwf Hd Hevs Hr1 Hg1 Hrun Hr2 Hg2 Hterm Hne.
  assert (raft_wf rf1) as Hwf1.
  { destruct (RequestVote_wf now1 args1 rf Hwf) as (r & Hr & ?).
    rewrite Hr in Hr1. by injection Hr1 as ->. }
  pose proof (RequestVote_durable _ _ _ _ Hd Hr1) as Hd1.
  pose proof (RequestVote_vote_le _ _ _ _ Hr1) as Hle1. simpl in *.
  rewrite <-(vl_npeers _ _ Hle1) in Hevs.
  destruct (run_ok evs rf1 Hwf1 Hd1 Hevs) as (rf2' & Hrun' & _ & _ & Hle).
  rewrite Hrun in Hrun'. injection Hrun' as <-.
  apply RequestVote_granted in Hr1 as (Ht1 & Hv1 & _); [|done].
  apply RequestVote_granted in Hr2 as (_ & _ & Hc2); [|done].
  pose proof (vl_term _ _ Hle). pose proof (vl_vote _ _ Hle). lia.
Qed.

(** The election restriction: [RequestVote] grants a vote exactly when
    the request's term is not stale, no other candidate has this term's
    vote, and the candidate's log is at least as up to date; a refusal
    changes nothing but the term. *)
Theorem RequestVote_spec now args rf :
  raft_wf rf →
  returns (RequestVote now args rf) (λ r,
    let '(rf', reply) := r in
    let free := rf.(currentTerm) < args.(rv_Term) ∨ rf.(votedFor) = -1 ∨
                rf.(votedFor) = args.(CandidateId) in
    let upToDate := ∀ t, term_at rf (lastLogIndex rf) = Some t →
      t < args.(LastLogTerm) ∨
      t = args.(LastLogTerm) ∧ lastLogIndex rf ≤ args.(LastLogIndex) in
    reply.(rvr_Term) = rf.(currentTerm) ∧
    (reply.(VoteGranted) = true ↔ rf.(currentTerm) ≤ args.(rv_Term) ∧ free ∧ upToDate) ∧
    rf'.(log) = rf.(log) ∧ rf'.(commitIndex) = rf.(commitIndex) ∧
    rf'.(currentTerm) = Z.max rf.(currentTerm) args.(rv_Term) ∧
    (reply.(VoteGranted) = true → rf'.(votedFor) = args.(CandidateId) ∧
                                  rf'.(state) = Follower ∧ rf'.(lastContact) = now)).
Proof.
  intros Hwf. destruct (last_entry rf Hwf) as (e & He & He').
  assert (term_at rf (lastLogIndex rf) = Some e.(le_Term)) as Hlast.
  { unfold term_at, entry_at, lastLogIndex. simpl in He'.
    replace (_ - _) with (glen rf.(log) - 1) by lia. by rewrite He'. }
  unfold RequestVote. case_if.
  { apply returns_Ret. split_and!; try done; try lia. split; [done|]. intros [? _]. lia. }
  unfold decideVote, observeTerm, stepDown. rewrite Hlast.
  case_if; cbn; rewrite He; cbn; unfold lastLogIndex in *; cbn; case_if;
    apply returns_Ret; cbn; split_and!; try done; try lia; split; try done; intros.
  all: match goal with
  | |- _ ∧ _ => split_and!; [lia|lia|intros ? [= <-]; lia]
  | Hu : _ ∧ _ ∧ _ |- _ => destruct Hu as (? & ? & Hu); specialize (Hu _ eq_refl); lia
  end.
Qed.
End life_props.
