(* ===== verification/RaftLog.v ===== *)
(** * Log replication, commitment, application and compaction

    Functional specifications of [AppendEntries] and of the leader's use of
    its replies, of [updateCommitIndex], [applyCommitted], [Snapshot] and
    [InstallSnapshot] of [raft1/raft.go]. *)

From S2P Require Import Prelude Gob Persister Raft RaftNode RaftSpec.
From Stdlib Require Import Strings.Byte.

Section append.
Context {Cmd : Type} `{GobCodec Z, GobCodec (list (LogEntry Cmd))}.
Implicit Types (rf : Raft Cmd) (args : AppendEntriesArgs Cmd).

(** The fields a handler of a current message finds after the term check. *)
Lemma observed_fields now t rf :
  let rf1 := followerContact now (observeTerm t rf) in
  rf1.(log) = rf.(log) ∧ rf1.(snapshotIndex) = rf.(snapshotIndex) ∧
  rf1.(commitIndex) = rf.(commitIndex) ∧ rf1.(lastApplied) = rf.(lastApplied) ∧
  rf1.(snapshotTerm) = rf.(snapshotTerm) ∧ rf1.(state) = Follower ∧
  rf1.(currentTerm) = Z.max rf.(currentTerm) t.
Proof.
  unfold followerContact, observeTerm, stepDown. case_if; cbn; split_and!; try done; lia.
Qed.

(** [min(LeaderCommit, index of last new entry)] when it is news. *)
Definition new_commit args (commit : Z) : Z :=
  if decide (commit < args.(LeaderCommit))
  then Z.min args.(LeaderCommit) (args.(PrevLogIndex) + glen args.(Entries)) else commit.

Lemma followerCommit_eq args rf :
  followerCommit args rf = rf <| commitIndex := new_commit args rf.(commitIndex) |>.
Proof.
  unfold followerCommit, new_commit. destruct rf. repeat case_if; cbn in *; try lia; try done;
    unfold upd, upd_commitIndex; cbn; f_equal; lia.
Qed.

Definition append_ok args rf : Prop :=
  rf.(snapshotIndex) ≤ args.(PrevLogIndex) ∧
  term_at rf args.(PrevLogIndex) = Some args.(PrevLogTerm).

(** The follower's log after accepting [args]. *)
Definition accepted_log args rf : list (LogEntry Cmd) :=
  merge_log (Z.to_nat (args.(PrevLogIndex) - rf.(snapshotIndex) + 1)) args.(Entries) rf.(log).

Lemma appendEntriesLog_spec term args rf :
  raft_wf rf →
  returns (appendEntriesLog term args rf) (λ r,
    r.2.(aer_Term) = term ∧
    (r.2.(Success) = true ↔ append_ok args rf) ∧
    (r.2.(Success) = false → r.1 = rf) ∧
    (r.2.(Success) = true →
       r.1.(log) = accepted_log args rf ∧ r.1.(snapshotIndex) = rf.(snapshotIndex) ∧
       r.1.(commitIndex) = new_commit args rf.(commitIndex) ∧
       r.1.(state) = rf.(state) ∧ r.1.(currentTerm) = rf.(currentTerm))).
Proof.
  intros Hwf. unfold appendEntriesLog, append_ok, term_at, entry_at. case_if.
  { apply returns_Ret. simpl. split_and!; try done. split; [done|lia]. }
  case_if.
  { apply returns_Ret. simpl. split_and!; try done. split; [done|].
    intros [_ He]. rewrite (proj2 (zlookup_None _ _)) in He by lia. done. }
  eapply returns_bind; [apply gidx_returns; lia|]. intros e He. simpl in He. rewrite He. simpl.
  case_if.
  - eapply returns_bind; [apply findXIndex_returns; lia|]. intros x _. apply returns_Ret. simpl.
    split_and!; try done. split; [done|]. intros [_ [=]]. lia.
  - rewrite appendLoop_log by (done || lia). simpl. apply returns_Ret. simpl.
    rewrite followerCommit_eq. case_if; cbn; (split_and!; try done);
      (split; [intros _; split; [lia|f_equal; lia]|done]).
Qed.

Lemma AppendEntries_result now args rf :
  raft_wf rf →
  returns (AppendEntries now args rf) (λ r,
    let '(rf', reply) := r in
    reply.(aer_Term) = rf.(currentTerm) ∧
    (reply.(Success) = true ↔ rf.(currentTerm) ≤ args.(ae_Term) ∧ append_ok args rf) ∧
    (reply.(Success) = false →
       rf'.(log) = rf.(log) ∧ rf'.(commitIndex) = rf.(commitIndex)) ∧
    (reply.(Success) = true →
       rf'.(log) = accepted_log args rf ∧ rf'.(snapshotIndex) = rf.(snapshotIndex) ∧
       rf'.(commitIndex) = new_commit args rf.(commitIndex) ∧
       rf'.(currentTerm) = args.(ae_Term) ∧ rf'.(state) = Follower)).
Proof.
  intros Hwf. unfold AppendEntries. case_if.
  { apply returns_Ret. cbn. split_and!; try done. split; [done|lia]. }
  destruct (observed_fields now args.(ae_Term) rf) as (Hl & Hs & Hc & _ & _ & Hst & Ht).
  eapply returns_mono; [by apply appendEntriesLog_spec, followerContact_wf, observeTerm_wf|].
  intros [rf' reply]. cbn [fst snd]. unfold append_ok, accepted_log, term_at, entry_at.
  rewrite Hl, Hs, Hc, Hst, Ht. intros (Hterm & Hok & Hno & Hyes). split_and!; [done|..].
  - rewrite Hok. split; [intros; split; [lia|done]|tauto].
  - intros ->%Hno. done.
  - intros Hsuc. apply Hyes in Hsuc as (-> & -> & -> & -> & ->). split_and!; try done. lia.
Qed.

(** C14. [AppendEntries], every branch: it succeeds exactly when the message
    is not stale and the entry before the new ones is present with the
    expected term; a refusal leaves log and commit index alone; on success
    the log becomes the merge of the Raft paper and the commit index the
    minimum of the leader's and the last new entry's. *)
Theorem AppendEntries_spec now args rf :
  raft_wf rf →
  returns (AppendEntries now args rf) (λ r,
    let '(rf', reply) := r in
    reply.(aer_Term) = rf.(currentTerm) ∧
    (reply.(Success) = true ↔ rf.(currentTerm) ≤ args.(ae_Term) ∧ append_ok args rf) ∧
    (reply.(Success) = false →
       rf'.(log) = rf.(log) ∧ rf'.(commitIndex) = rf.(commitIndex)) ∧
    (reply.(Success) = true →
       rf'.(log) = accepted_log args rf ∧ rf'.(snapshotIndex) = rf.(snapshotIndex) ∧
       rf'.(commitIndex) = new_commit args rf.(commitIndex) ∧
       rf'.(currentTerm) = args.(ae_Term) ∧ rf'.(state) = Follower)).
Proof. apply AppendEntries_result. Qed.

Lemma accepted_log_prefix args rf i :
  append_ok args rf → i ≤ args.(PrevLogIndex) - rf.(snapshotIndex) →
  (accepted_log args rf).[i] = rf.(log).[i].
Proof.
  unfold append_ok, term_at, entry_at. intros [Hle Ht] Hi.
  destruct (zlookup _ _) as [e|] eqn:He in Ht; [|done]. apply zlookup_lt_Some in He.
  unfold accepted_log.
  rewrite <-(zlookup_take _ (Z.to_nat (args.(PrevLogIndex) - rf.(snapshotIndex) + 1))) by lia.
  rewrite merge_log_take by (unfold glen in *; lia). by rewrite zlookup_take by lia.
Qed.

Lemma accepted_log_new args rf (k : nat) e :
  append_ok args rf → args.(Entries) !! k = Some e →
  le_Term <$> (accepted_log args rf).[args.(PrevLogIndex) - rf.(snapshotIndex) + 1 + Z.of_nat k]
    = Some e.(le_Term).
Proof.
  unfold append_ok, term_at, entry_at. intros [Hle Ht] Hk.
  destruct (zlookup _ _) as [e'|] eqn:He in Ht; [|done]. apply zlookup_lt_Some in He.
  rewrite <-(merge_log_terms (Z.to_nat (PrevLogIndex args - snapshotIndex rf + 1))
    args.(Entries) rf.(log) k e) by (unfold glen in *; lia || done).
  unfold accepted_log, zlookup. case_if; [lia|].
  by replace (Z.to_nat (_ - _ + 1 + Z.of_nat k))
    with (Z.to_nat (PrevLogIndex args - snapshotIndex rf + 1) + k)%nat by lia.
Qed.

Lemma accepted_log_source args rf (k : nat) e e' :
  append_ok args rf → args.(Entries) !! k = Some e →
  (accepted_log args rf).[args.(PrevLogIndex) - rf.(snapshotIndex) + 1 + Z.of_nat k] = Some e' →
  rf.(log).[args.(PrevLogIndex) - rf.(snapshotIndex) + 1 + Z.of_nat k] = Some e' ∨ e' = e.
Proof.
  unfold append_ok, term_at, entry_at. intros [Hle Ht] Hk.
  destruct (zlookup _ _) as [e0|] eqn:He in Ht; [|done]. apply zlookup_lt_Some in He.
  unfold accepted_log, zlookup. case_if; [lia|].
  replace (Z.to_nat (_ - _ + 1 + Z.of_nat k))
    with (Z.to_nat (PrevLogIndex args - snapshotIndex rf + 1) + k)%nat by lia.
  apply merge_log_source; [unfold glen in *; lia|done].
Qed.

(** After an accepted [AppendEntries] the follower agrees with the
    leader: everything up to [PrevLogIndex] is untouched, and if equal
    (index, term) pairs name equal entries between the follower's log and
    the message (Raft's Log Matching), the new entries are in place. *)
Theorem AppendEntries_replicates now args rf rf' reply :
  raft_wf rf → AppendEntries now args rf = Ret (rf', reply) → reply.(Success) = true →
  (∀ (k : nat) e e', args.(Entries) !! k = Some e →
     entry_at rf (args.(PrevLogIndex) + 1 + Z.of_nat k) = Some e' →
     e.(le_Term) = e'.(le_Term) → e = e') →
  (∀ i, i ≤ args.(PrevLogIndex) → entry_at rf' i = entry_at rf i) ∧
  (∀ (k : nat) e, args.(Entries) !! k = Some e →
     entry_at rf' (args.(PrevLogIndex) + 1 + Z.of_nat k) = Some e).
Proof.
  intros Hwf Hr Hsuc Hmatch.
  destruct (AppendEntries_result now args rf Hwf) as ([? ?] & Hr' & _ & Hok & _ & Hyes).
  rewrite Hr in Hr'. injection Hr' as <- <-.
  apply proj1 in Hok as Hok'. destruct (Hok' Hsuc) as [_ Hap]. clear Hok Hok'.
  destruct (Hyes Hsuc) as (Hlog & Hsi & _). unfold entry_at. rewrite Hlog, Hsi. split.
  { intros i Hi. apply accepted_log_prefix; [done|lia]. }
  intros k e Hk. pose proof (accepted_log_new args rf k e Hap Hk) as Hterm.
  replace (_ + 1 + Z.of_nat k - _)
    with (args.(PrevLogIndex) - rf.(snapshotIndex) + 1 + Z.of_nat k) by lia.
  destruct (zlookup (accepted_log args rf) _) as [e'|] eqn:He' in Hterm; [|done].
  rewrite He'. f_equal. injection Hterm as Hterm.
  destruct (accepted_log_source args rf k e e' Hap Hk He') as [Hold| ->]; [|done].
  symmetry. eapply Hmatch; [done| |done]. unfold entry_at. rewrite <-Hold. f_equal. lia.
Qed.
End append.

(** ** Conflict hints and the leader's back-off *)

Section backoff.
Context {Cmd : Type} `{GobCodec Z, GobCodec (list (LogEntry Cmd))}.
Implicit Types (rf : Raft Cmd) (args : AppendEntriesArgs Cmd).

Definition term_pos rf (p : Z) : option Z := le_Term <$> rf.(log).[p].

Lemma findXIndex_spec rf t prev n :
  Z.of_nat n ≤ glen rf.(log) →
  returns (findXIndex rf t prev n) (λ x,
    (x = prev ∧ ∀ p, 0 ≤ p < Z.of_nat n → term_pos rf p = Some t) ∨
    (∃ m, x = rf.(snapshotIndex) + m + 1 ∧ 0 ≤ m < Z.of_nat n ∧ term_pos rf m ≠ Some t ∧
          ∀ p, m < p < Z.of_nat n → term_pos rf p = Some t)).
Proof.
  induction n as [|n IH]; intros Hn; simpl.
  { apply returns_Ret. left. split; [done|lia]. }
  eapply returns_bind; [apply gidx_returns; lia|]. intros e He. simpl in He. case_if.
  - eapply returns_mono; [apply IH; lia|].
    assert (term_pos rf (Z.of_nat n) = Some t) by (unfold term_pos; rewrite He; simpl; congruence).
    intros x [[-> Hall]|(m & -> & Hm & Hne & Hall)]; [left|right; exists m]; split_and!;
      try done; try lia.
    all: intros p Hp; destruct (decide (p = Z.of_nat n)) as [->|]; [done|apply Hall; lia].
  - apply returns_Ret. right. exists (Z.of_nat n). split_and!; try done; try lia.
    unfold term_pos. rewrite He. simpl. congruence.
Qed.

(** Is [x] the first index of the run of term-[t] entries that ends at
    [prev]? [hint_ok] is what the code computes: if the run reaches back to
    the start of the slice, the scan falls through and the hint is [prev]. *)
Definition hint_ok rf (prev t x : Z) : Prop :=
  (x = prev ∧ ∀ i, rf.(snapshotIndex) ≤ i ≤ prev → term_at rf i = Some t) ∨
  (rf.(snapshotIndex) < x ≤ prev ∧ term_at rf (x - 1) ≠ Some t ∧
   ∀ i, x ≤ i ≤ prev → term_at rf i = Some t).

Lemma appendEntriesLog_hint term args rf :
  raft_wf rf →
  returns (appendEntriesLog term args rf) (λ r, r.2.(Success) = false →
    r.2.(XLen) = lastLogIndex rf + 1 ∧
    match term_at rf args.(PrevLogIndex) with
    | None => r.2.(XTerm) = -1
    | Some t => r.2.(XTerm) = t ∧ t ≠ args.(PrevLogTerm) ∧
                hint_ok rf args.(PrevLogIndex) t r.2.(XIndex)
    end).
Proof.
  intros Hwf. unfold appendEntriesLog, term_at, entry_at, lastLogIndex. case_if.
  { apply returns_Ret. rewrite (proj2 (zlookup_None _ _)) by lia. simpl. split; [lia|done]. }
  case_if.
  { apply returns_Ret. rewrite (proj2 (zlookup_None _ _)) by lia. simpl. split; [lia|done]. }
  eapply returns_bind; [apply gidx_returns; lia|]. intros e He. simpl in He. rewrite He.
  case_if; [|eapply returns_bind with (P := λ _, True);
    [rewrite appendLoop_log by (done || lia); by apply returns_Ret|];
    intros l _; apply returns_Ret; done].
  eapply returns_bind; [apply findXIndex_spec; lia|]. intros x Hx. apply returns_Ret. simpl.
  intros _. split_and!; [lia|done|lia|]. rewrite Z2Nat.id in Hx by lia.
  assert (∀ i, term_at rf i = term_pos rf (i - rf.(snapshotIndex))) as Hpos by done.
  assert (term_at rf args.(PrevLogIndex) = Some e.(le_Term)) as Hprev
    by (unfold term_at, entry_at; by rewrite He).
  destruct Hx as [[-> Hall]|(m & -> & Hm & Hne & Hall)].
  - left. split; [done|]. intros i Hi. destruct (decide (i = PrevLogIndex args)) as [->|]; [done|].
    rewrite Hpos. apply Hall. lia.
  - right. split_and!; try lia.
    + rewrite Hpos. by replace (_ - _) with m by lia.
    + intros i Hi. destruct (decide (i = PrevLogIndex args)) as [->|]; [done|].
      rewrite Hpos. apply Hall. lia.
Qed.

Lemma AppendEntries_hint now args rf :
  raft_wf rf → rf.(currentTerm) ≤ args.(ae_Term) →
  returns (AppendEntries now args rf) (λ r, r.2.(Success) = false →
    r.2.(XLen) = lastLogIndex rf + 1 ∧
    match term_at rf args.(PrevLogIndex) with
    | None => r.2.(XTerm) = -1
    | Some t => r.2.(XTerm) = t ∧ t ≠ args.(PrevLogTerm) ∧
                hint_ok rf args.(PrevLogIndex) t r.2.(XIndex)
    end).
Proof.
  intros Hwf Ht. unfold AppendEntries. case_if; [lia|].
  destruct (observed_fields now args.(ae_Term) rf) as (Hl & Hs & _).
  eapply returns_mono; [by apply appendEntriesLog_hint, followerContact_wf, observeTerm_wf|].
  intros r. cbv beta. unfold hint_ok, lastLogIndex, term_at, entry_at. by rewrite Hl, Hs.
Qed.

Lemma onAppendEntriesReply_backoff srv args reply rf :
  raft_wf rf → rf.(state) = Leader → 0 ≤ srv < rf.(npeers) →
  rf.(currentTerm) = args.(ae_Term) → reply.(Success) = false →
  reply.(aer_Term) ≤ rf.(currentTerm) →
  returns (onAppendEntriesReply srv args reply rf) (λ rf',
    rf'.(nextIndex).[srv] = Some (Z.max 1 (if reply.(XTerm) =? -1 then reply.(XLen)
                                           else reply.(XIndex)))).
Proof.
  intros Hwf Hl Hsrv Ht Hs Hr. unfold onAppendEntriesReply. rewrite Hs.
  rewrite bool_decide_eq_true_2, (proj2 (Z.eqb_eq _ _) Ht) by done. simpl.
  destruct (wf_leader _ Hwf Hl) as [Hn _]. case_if; [lia|].
  set (next := if XTerm reply =? -1 then _ else _).
  rewrite gset_idx_Ret by lia. simpl. case_if.
  - rewrite gset_idx_Ret by glen_lia. simpl. apply returns_Ret. cbn.
    rewrite zlookup_insert by glen_lia. rewrite decide_True by done. f_equal. lia.
  - simpl. apply returns_Ret. cbn. rewrite zlookup_insert by lia.
    rewrite decide_True by done. f_equal. lia.
Qed.

(** Back-off makes progress: when a follower refuses a leader's current
    [AppendEntries] for [nextIndex = PrevLogIndex + 1], the leader's new
    [nextIndex] for it is strictly smaller, or, when the follower's snapshot
    already covers [PrevLogIndex], it is the end of the follower's log. *)
Theorem backoff_progress now srv args rfF rfF' reply rfL :
  raft_wf rfF → raft_wf rfL → rfL.(state) = Leader → 0 ≤ srv < rfL.(npeers) →
  rfL.(currentTerm) = args.(ae_Term) → 1 ≤ args.(PrevLogIndex) →
  Forall (λ e, 0 ≤ e.(le_Term)) rfF.(log) →
  rfF.(currentTerm) ≤ args.(ae_Term) →
  AppendEntries now args rfF = Ret (rfF', reply) → reply.(Success) = false →
  returns (onAppendEntriesReply srv args reply rfL) (λ rfL',
    ∃ next, rfL'.(nextIndex).[srv] = Some next ∧ 1 ≤ next ∧
      if decide (rfF.(snapshotIndex) ≤ args.(PrevLogIndex))
      then next < args.(PrevLogIndex) + 1
      else next = lastLogIndex rfF + 1).
Proof.
  intros HwfF HwfL Hl Hsrv Ht Hprev Hpos HtF Hr Hs.
  destruct (AppendEntries_result now args rfF HwfF) as ([? ?] & Hr' & HrT & _).
  rewrite Hr in Hr'. injection Hr' as <- <-.
  destruct (AppendEntries_hint now args rfF HwfF HtF) as ([? ?] & Hr' & Hh).
  rewrite Hr in Hr'. injection Hr' as <- <-. specialize (Hh Hs) as [Hlen Hh]. simpl in *.
  eapply returns_mono; [apply onAppendEntriesReply_backoff; done || lia|].
  intros rfL' Hnext. simpl in Hnext. eexists. split; [done|]. split; [lia|].
  assert (0 < glen rfF.(log) ∧ 0 ≤ rfF.(snapshotIndex)) as [? ?]
    by (split; [by apply wf_log_nonempty|apply HwfF]).
  destruct (term_at rfF (PrevLogIndex args)) as [t|] eqn:Hterm.
  - destruct Hh as (-> & _ & Hh). unfold term_at in Hterm.
    destruct (entry_at rfF _) as [e|] eqn:He in Hterm; [|done].
    assert (0 ≤ e.(le_Term)) as Het.
    { eapply (proj1 (Forall_forall _ _) Hpos), zlookup_elem_of. by eexists. }
    apply entry_at_Some in He. injection Hterm as <-.
    rewrite decide_True by lia.
    assert (reply.(XIndex) ≤ PrevLogIndex args) by (destruct Hh as [[-> _]|[? _]]; lia).
    case_if; lia.
  - rewrite Hh. simpl. rewrite Hlen. unfold term_at in Hterm. apply fmap_None in Hterm.
    apply entry_at_None in Hterm. case_decide; unfold lastLogIndex in *; lia.
Qed.
End backoff.

(** ** The leader's commit rule *)

Section commit.
Context {Cmd : Type} `{GobCodec Z, GobCodec (list (LogEntry Cmd))}.
Implicit Types (rf : Raft Cmd).

(** Peers known to store index [n], the leader included. *)
Definition stores rf (n i : Z) : bool :=
  negb (i =? rf.(me)) && match rf.(matchIndex).[i] with Some mi => n <=? mi | None => false end.
Definition replicas rf (n : Z) : Z := 1 + countb (stores rf n) (range rf.(npeers)).

(** Raft's commit rule: an entry of the current term stored on a majority. *)
Definition committable rf (n : Z) : Prop :=
  term_at rf n = Some rf.(currentTerm) ∧ rf.(npeers) / 2 < replicas rf n.

Lemma countMatch_fold rf n c (l : list Z) :
  glen rf.(matchIndex) = rf.(npeers) → (∀ i, i ∈ l → 0 ≤ i < rf.(npeers)) →
  foldM (λ count i,
    if i =? rf.(me) then Ret count
    else mi ← gidx rf.(matchIndex) i;
         Ret (if n <=? mi then count + 1 else count)) c l = Ret (c + countb (stores rf n) l).
Proof.
  intros Hm. revert c. induction l as [|i l IH]; intros c Hl; simpl.
  { rewrite countb_nil. f_equal. lia. }
  rewrite countb_cons. unfold stores at 1.
  assert (0 ≤ i < npeers rf) as Hi by (apply Hl; left).
  assert (∀ j, j ∈ l → 0 ≤ j < npeers rf) as Hl' by (intros; apply Hl; by right).
  destruct (i =? me rf); simpl.
  { rewrite IH by done. f_equal. }
  destruct (zlookup_is_Some rf.(matchIndex) i) as [mi Hmi]; [lia|].
  rewrite gidx_zlookup, Hmi. simpl. rewrite IH by done.
  case_if; f_equal; lia.
Qed.

Lemma countMatch_eq rf n :
  glen rf.(matchIndex) = rf.(npeers) → countMatch rf n = Ret (replicas rf n).
Proof.
  intros Hm. unfold countMatch. rewrite countMatch_fold; [done|done|].
  intros i. by rewrite elem_of_range.
Qed.

Lemma commitScan_spec rf fuel n :
  raft_wf rf → rf.(state) = Leader → fuel = Z.to_nat (n - rf.(commitIndex)) →
  (∀ m, n < m → ¬ committable rf m) →
  returns (commitScan fuel n rf) (λ rf', ∃ c,
    rf' = rf <| commitIndex := c |> ∧ rf.(commitIndex) ≤ c ∧
    (rf.(commitIndex) < c → committable rf c) ∧ ∀ m, c < m → ¬ committable rf m).
Proof.
  intros Hwf Hl. revert n.
  assert (∀ c, c = rf.(commitIndex) → rf <| commitIndex := c |> = rf) as Hid
    by (intros c ->; by destruct rf).
  induction fuel as [|fuel IH]; intros n Hf Habove; simpl.
  { apply returns_Ret. exists rf.(commitIndex). rewrite Hid by done.
    split_and!; [done|lia|lia|]. intros m Hm. apply Habove. lia. }
  case_if; [lia|].
  assert (¬ committable rf n → returns (commitScan fuel (n - 1) rf) (λ rf', ∃ c,
    rf' = rf <| commitIndex := c |> ∧ rf.(commitIndex) ≤ c ∧
    (rf.(commitIndex) < c → committable rf c) ∧ ∀ m, c < m → ¬ committable rf m)) as Hnext.
  { intros Hn. apply IH; [lia|]. intros m Hm.
    destruct (decide (m = n)) as [->|]; [done|]. apply Habove. lia. }
  case_if.
  { apply Hnext. intros [Ht _]. unfold term_at, entry_at in Ht.
    rewrite (proj2 (zlookup_None _ _)) in Ht by lia. done. }
  eapply returns_bind; [apply gidx_returns; lia|]. intros e He. simpl in He. case_if.
  { apply Hnext. intros [Ht _]. unfold term_at, entry_at in Ht. rewrite He in Ht.
    simpl in Ht. injection Ht as Ht. lia. }
  rewrite countMatch_eq by apply (wf_leader _ Hwf Hl). simpl. case_if.
  - apply returns_Ret. exists n. split_and!; [done|lia| |done]. intros _. split; [|done].
    unfold term_at, entry_at. rewrite He. simpl. f_equal. lia.
  - apply Hnext. intros [_ ?]. lia.
Qed.

Lemma committable_le_last rf m : committable rf m → m ≤ lastLogIndex rf.
Proof.
  intros [Ht _]. unfold term_at in Ht. destruct (entry_at rf m) eqn:He; [|done].
  apply entry_at_Some in He. lia.
Qed.

(** [updateCommitIndex] moves a leader's commit index to the largest
    committable index, or leaves it where it is; it changes nothing else,
    and never moves it back. *)
Theorem updateCommitIndex_spec rf :
  raft_wf rf → rf.(state) = Leader →
  returns (updateCommitIndex rf) (λ rf', ∃ c,
    rf' = rf <| commitIndex := c |> ∧ rf.(commitIndex) ≤ c ∧
    (rf.(commitIndex) < c → committable rf c) ∧ ∀ m, c < m → ¬ committable rf m).
Proof.
  intros Hwf Hl. unfold updateCommitIndex. rewrite bool_decide_eq_true_2 by done.
  apply commitScan_spec; [done..|]. intros m Hm Hc. apply committable_le_last in Hc. lia.
Qed.
End commit.

(** ** Application *)

Section apply.
Context {Cmd : Type} `{GobCodec Z, GobCodec (list (LogEntry Cmd))}.
Implicit Types (rf : Raft Cmd).

Definition commandMsg (i : Z) (e : LogEntry Cmd) : ApplyMsg Cmd :=
  mkApplyMsg true e.(le_Command) i false [] 0 0.

Lemma applyLoop_spec rf fuel :
  rf.(commitIndex) ≤ lastLogIndex rf → rf.(snapshotIndex) ≤ rf.(lastApplied) →
  rf.(lastApplied) ≤ rf.(commitIndex) → fuel = Z.to_nat (rf.(commitIndex) - rf.(lastApplied)) →
  returns (applyLoop fuel rf) (λ r,
    r.1 = rf <| lastApplied := rf.(commitIndex) |> ∧
    Forall2 (λ i m, ∃ e, entry_at rf i = Some e ∧ m = commandMsg i e)
      (seqZ (rf.(lastApplied) + 1) (rf.(commitIndex) - rf.(lastApplied))) r.2).
Proof.
  revert rf. induction fuel as [|fuel IH]; intros rf Hlast Hsnap Hle Hf; cbn [applyLoop].
  { apply returns_Ret. simpl. assert (lastApplied rf = commitIndex rf) as E by lia.
    rewrite <-E, Z.sub_diag. split; [by destruct rf|constructor]. }
  case_if; [|lia]. cbv zeta. set (rf1 := rf <| lastApplied := _ |>).
  destruct (entry_at_is_Some rf (rf.(lastApplied) + 1)) as [e He]; [lia|].
  assert (gidx rf1.(log) (rf1.(lastApplied) - rf1.(snapshotIndex)) = Ret e) as Hg
    by by apply gidx_Ret.
  pose proof (entry_at_Some _ _ _ He) as Hbounds. unfold lastLogIndex in Hbounds.
  rewrite (proj2 (andb_true_iff _ _)) by (unfold rf1; cbn; lia). rewrite Hg.
  destruct (IH rf1) as (r & Hr & Hr1 & Hr2); [unfold rf1; cbn; lia || done..|].
  cbn [mbind go_bind]. rewrite Hr. apply returns_Ret. split; [by rewrite Hr1|].
  cbn [snd app].
  rewrite (seqZ_cons _ (commitIndex rf - lastApplied rf)) by lia. constructor.
  { exists e. split; [exact He|done]. }
  revert Hr2. cbn. rewrite <-Z.add_1_r.
  by replace (Z.pred (commitIndex rf - lastApplied rf))
    with (commitIndex rf - (lastApplied rf + 1)) by lia.
Qed.

(** [applyCommitted] delivers exactly the committed and unapplied
    entries, each once and in index order, and marks them applied. *)
Theorem applyCommitted_spec rf :
  raft_wf rf → rf.(lastApplied) ≤ rf.(commitIndex) ≤ lastLogIndex rf →
  returns (applyCommitted rf) (λ r,
    r.1 = rf <| lastApplied := rf.(commitIndex) |> ∧
    Forall2 (λ i m, ∃ e, entry_at rf i = Some e ∧ m = commandMsg i e)
      (seqZ (rf.(lastApplied) + 1) (rf.(commitIndex) - rf.(lastApplied))) r.2).
Proof. intros Hwf [? ?]. apply applyLoop_spec; try lia. apply Hwf. Qed.
End apply.
