(* ===== verification/RaftSnapshot.v ===== *)
(** * Log compaction and the monotonicity of commitment

    [Snapshot] and [InstallSnapshot] of [raft1/raft.go] in absolute log
    indices, and the two places where the code moves a follower's applied or
    committed position backwards. *)

From S2P Require Import Prelude Gob Persister Raft RaftNode RaftSpec RaftLog.
From Stdlib Require Import Strings.Byte.

Section compaction.
Context {Cmd : Type} `{GobCodec Z, GobCodec (list (LogEntry Cmd))}.
Implicit Types (rf : Raft Cmd).

Lemma raiseCommit_eq i rf : raiseCommit i rf = rf <| commitIndex := Z.max rf.(commitIndex) i |>.
Proof.
  unfold raiseCommit. case_if.
  - by rewrite Z.max_r by lia.
  - rewrite Z.max_l by lia. by destruct rf.
Qed.

Lemma raiseApplied_eq i rf : raiseApplied i rf = rf <| lastApplied := Z.max rf.(lastApplied) i |>.
Proof.
  unfold raiseApplied. case_if.
  - by rewrite Z.max_r by lia.
  - rewrite Z.max_l by lia. by destruct rf.
Qed.

(** Dropping the entries up to [index] keeps the later ones in place. *)
Lemma entry_at_drop rf rf' index e :
  rf.(snapshotIndex) ≤ index → rf'.(snapshotIndex) = index →
  rf'.(log) = e :: drop (Z.to_nat (index + 1 - rf.(snapshotIndex))) rf.(log) →
  ∀ i, index < i → entry_at rf' i = entry_at rf i.
Proof.
  intros Hle Hs Hl i Hi. unfold entry_at. rewrite Hs, Hl.
  rewrite zlookup_cons_pos by lia. rewrite zlookup_drop by lia. f_equal. lia.
Qed.

Lemma entry_at_head rf e rest : rf.(log) = e :: rest → entry_at rf rf.(snapshotIndex) = Some e.
Proof. unfold entry_at. intros ->. by rewrite Z.sub_diag. Qed.

Lemma raise_idx (l : list Z) (i b : Z) :
  0 ≤ i < glen l →
  returns (x ← gidx l i; if x <? b then gset_idx l i b else Ret l)
    (λ l', glen l' = glen l ∧ ∀ j, l'.[j] = if decide (j = i) then Z.max b <$> l.[j] else l.[j]).
Proof.
  intros Hi. eapply returns_bind; [by apply gidx_returns|]. intros x Hx. simpl in Hx. case_if.
  - rewrite gset_idx_Ret by done. apply returns_Ret. split; [apply glen_insert|].
    intros j. rewrite zlookup_insert by done. repeat case_decide; subst; try done.
    rewrite Hx. simpl. f_equal. lia.
  - apply returns_Ret. split; [done|]. intros j. case_decide; [|done]. subst.
    rewrite Hx. simpl. f_equal. lia.
Qed.

Lemma snapshotPeer_spec rf i nm :
  0 ≤ i < rf.(npeers) → glen nm.1 = rf.(npeers) → glen nm.2 = rf.(npeers) →
  returns (snapshotPeer rf nm i) (λ nm',
    (glen nm'.1 = rf.(npeers) ∧ glen nm'.2 = rf.(npeers)) ∧
    ∀ j, nm'.1.[j] = (if decide (j = i ∧ j ≠ rf.(me)) then Z.max (rf.(snapshotIndex) + 1) <$> nm.1.[j]
                      else nm.1.[j]) ∧
         nm'.2.[j] = (if decide (j = i) then Z.max rf.(snapshotIndex) <$> nm.2.[j] else nm.2.[j])).
Proof.
  destruct nm as [ni mi]. simpl. intros Hi Hni Hmi.
  eapply returns_bind with (P := λ ni', glen ni' = npeers rf ∧ ∀ j, ni'.[j] =
    if decide (j = i ∧ j ≠ rf.(me)) then Z.max (rf.(snapshotIndex) + 1) <$> ni.[j] else ni.[j]).
  { case_if.
    - apply returns_Ret. split; [done|]. intros j. rewrite decide_False; [done|lia].
    - eapply returns_mono; [apply raise_idx; lia|]. intros ni' [Hl Hj].
      split; [lia|]. intros j. rewrite Hj. repeat case_decide; done || lia. }
  intros ni' [Hni' Hj]. eapply returns_bind; [apply gidx_returns; lia|]. intros x Hx.
  eapply returns_bind with (P := λ mi', glen mi' = npeers rf ∧ ∀ j, mi'.[j] =
    if decide (j = i) then Z.max rf.(snapshotIndex) <$> mi.[j] else mi.[j]).
  { destruct (raise_idx mi i rf.(snapshotIndex)) as (mi' & Hr & Hl & Hmj); [lia|].
    apply gidx_Ret in Hx. rewrite Hx in Hr. simpl in Hr. exists mi'. split; [done|].
    split; [lia|done]. }
  intros mi' [? Hmj]. apply returns_Ret. simpl. split; [lia|]. intros j. by rewrite Hj, Hmj.
Qed.

Lemma snapshotPeer_fold rf l nm :
  (∀ i, i ∈ l → 0 ≤ i < rf.(npeers)) → glen nm.1 = rf.(npeers) → glen nm.2 = rf.(npeers) →
  returns (foldM (snapshotPeer rf) nm l) (λ nm',
    ∀ j, nm'.1.[j] = (if decide (j ∈ l ∧ j ≠ rf.(me)) then Z.max (rf.(snapshotIndex) + 1) <$> nm.1.[j]
                      else nm.1.[j]) ∧
         nm'.2.[j] = (if decide (j ∈ l) then Z.max rf.(snapshotIndex) <$> nm.2.[j] else nm.2.[j])).
Proof.
  revert nm. induction l as [|i l IH]; intros nm Hl Hn Hm; cbn [foldM].
  { apply returns_Ret. intros j. rewrite !decide_False by set_solver. done. }
  eapply returns_bind; [apply snapshotPeer_spec; [apply Hl; left|done..]|].
  intros nm' [[? ?] Hj]. eapply returns_mono; [apply IH; [set_solver|done..]|].
  intros nm'' Hj'' j. destruct (Hj'' j) as [-> ->], (Hj j) as [-> ->].
  assert (∀ (b : Z) (o : option Z), Z.max b <$> (Z.max b <$> o) = Z.max b <$> o) as Hidem.
  { intros b [x|]; simpl; [by rewrite Z.max_assoc, Z.max_id|done]. }
  assert (j ∈ i :: l ↔ j = i ∨ j ∈ l) as Hin by apply elem_of_cons.
  split; repeat case_decide; rewrite ?Hidem; done || (exfalso; tauto).
Qed.

(** A leader's view of its peers after compaction up to [index]. *)
Definition leader_view rf rf' (index : Z) : Prop :=
  if decide (rf.(state) = Leader) then
    ∀ j, rf'.(nextIndex).[j] = (if decide (j = rf.(me)) then rf.(nextIndex).[j]
                                else Z.max (index + 1) <$> rf.(nextIndex).[j]) ∧
         rf'.(matchIndex).[j] = Z.max index <$> rf.(matchIndex).[j]
  else rf'.(nextIndex) = rf.(nextIndex) ∧ rf'.(matchIndex) = rf.(matchIndex).

Lemma snapshotLeader_spec rf :
  raft_wf rf → returns (snapshotLeader rf) (λ rf', leader_view rf rf' rf.(snapshotIndex)).
Proof.
  intros Hwf. unfold snapshotLeader, leader_view. case_if.
  - apply bool_decide_eq_true in E. destruct (wf_leader _ Hwf E) as [Hn Hm].
    eapply returns_bind; [apply snapshotPeer_fold; [by intros i ?%elem_of_range|done..]|].
    intros nm Hnm. apply returns_Ret. rewrite decide_True by done. cbn.
    intros j. destruct (Hnm j) as [-> ->].
    assert (j ∉ range (npeers rf) → rf.(nextIndex).[j] = None ∧ rf.(matchIndex).[j] = None) as Hout.
    { rewrite elem_of_range. intros. rewrite !zlookup_None. lia. }
    destruct (decide (j ∈ range (npeers rf))) as [Hin|Hin].
    + split; repeat case_decide; done || (exfalso; tauto).
    + apply Hout in Hin as [En Em]. cbn. rewrite En, Em. split; by repeat case_decide.
  - apply bool_decide_eq_false in E. apply returns_Ret. by rewrite decide_False.
Qed.

(** The fields [snapshotLeader] leaves alone. *)
Definition same_but_view rf rf' : Prop :=
  (core rf', rf'.(me), rf'.(state), rf'.(commitIndex), rf'.(lastApplied), rf'.(persister)) =
  (core rf, rf.(me), rf.(state), rf.(commitIndex), rf.(lastApplied), rf.(persister)).

Lemma snapshotLeader_same rf rf' : snapshotLeader rf = Ret rf' → same_but_view rf rf'.
Proof. intros Hr. by rewrite (snapshotLeader_frame _ _ Hr). Qed.

(** The state [Snapshot] leaves when it accepts. *)
Record compacted rf rf' (index : Z) (data : bytes) : Prop := {
  cp_index : rf'.(snapshotIndex) = index;
  cp_term : term_at rf index = Some rf'.(snapshotTerm);
  cp_last : lastLogIndex rf' = lastLogIndex rf;
  cp_head : term_at rf' index = term_at rf index;
  cp_entries : ∀ i, index < i → entry_at rf' i = entry_at rf i;
  cp_commit : rf'.(commitIndex) = Z.max rf.(commitIndex) index;
  cp_applied : rf'.(lastApplied) = Z.max rf.(lastApplied) index;
  cp_vote : (rf'.(currentTerm), rf'.(votedFor), rf'.(state)) =
            (rf.(currentTerm), rf.(votedFor), rf.(state));
  cp_disk : ReadRaftState rf'.(persister) = encodeState rf' ∧
            ReadSnapshot rf'.(persister) = data;
  cp_leader : leader_view rf rf' index;
}.

(** The part of [Snapshot] between the bounds checks and [snapshotLeader]. *)
Definition snapshotLog index rf : go (Raft Cmd) :=
  e ← gidx rf.(log) (index - rf.(snapshotIndex));
  rest ← gslice_from rf.(log) (index - rf.(snapshotIndex) + 1);
  let rf := rf <| snapshotTerm := e.(le_Term) |> <| snapshotIndex := index |> in
  let rf := rf <| log := mkEntry rf.(snapshotTerm) None :: rest |> in
  Ret (raiseApplied index (raiseCommit index rf)).

Lemma Snapshot_split index data rf :
  Snapshot index data rf =
    if decide (rf.(snapshotIndex) < index ≤ lastLogIndex rf) then
      rf1 ← snapshotLog index rf; rf2 ← snapshotLeader rf1; Ret (persistWithSnapshot data rf2)
    else Ret rf.
Proof.
  unfold Snapshot, snapshotLog, lastLogIndex. case_if; [by rewrite decide_False by lia|].
  case_if; [by rewrite decide_False by lia|]. rewrite decide_True by lia.
  destruct (gidx _ _); [|done..]. simpl. by destruct (gslice_from _ _).
Qed.

Lemma snapshotLog_spec index rf :
  rf.(snapshotIndex) < index ≤ lastLogIndex rf →
  returns (snapshotLog index rf) (λ rf1, ∃ e, entry_at rf index = Some e ∧
    rf1 = rf <| snapshotTerm := e.(le_Term) |> <| snapshotIndex := index |>
      <| log := mkEntry e.(le_Term) None :: drop (Z.to_nat (index + 1 - rf.(snapshotIndex))) rf.(log) |>
      <| commitIndex := Z.max rf.(commitIndex) index |>
      <| lastApplied := Z.max rf.(lastApplied) index |>).
Proof.
  unfold lastLogIndex. intros Hi. unfold snapshotLog.
  eapply returns_bind; [apply gidx_returns; lia|]. intros e He. simpl in He.
  rewrite gslice_from_Ret by lia. simpl. apply returns_Ret. exists e. split; [done|].
  rewrite raiseCommit_eq, raiseApplied_eq.
  by replace (index - snapshotIndex rf + 1) with (index + 1 - snapshotIndex rf) by lia.
Qed.

Lemma compacted_intro rf rf' index data e :
  raft_wf rf → rf.(snapshotIndex) < index ≤ lastLogIndex rf → entry_at rf index = Some e →
  rf'.(snapshotIndex) = index → rf'.(snapshotTerm) = e.(le_Term) →
  rf'.(log) = mkEntry e.(le_Term) None :: drop (Z.to_nat (index + 1 - rf.(snapshotIndex))) rf.(log) →
  rf'.(commitIndex) = Z.max rf.(commitIndex) index →
  rf'.(lastApplied) = Z.max rf.(lastApplied) index →
  (rf'.(currentTerm), rf'.(votedFor), rf'.(state)) =
    (rf.(currentTerm), rf.(votedFor), rf.(state)) →
  ReadRaftState rf'.(persister) = encodeState rf' ∧ ReadSnapshot rf'.(persister) = data →
  leader_view rf rf' index → compacted rf rf' index data.
Proof.
  intros Hwf Hi He Hs Ht Hl Hc Ha Hv Hd Hview. constructor; try done.
  - unfold term_at. by rewrite He, Ht.
  - unfold lastLogIndex in *. rewrite Hs, Hl, glen_cons. unfold glen in *.
    rewrite length_drop. pose proof (wf_snap _ Hwf). lia.
  - unfold term_at at 1. rewrite <-Hs at 1. rewrite (entry_at_head _ _ _ Hl).
    unfold term_at. by rewrite He.
  - eapply entry_at_drop; [|done|done]. lia.
Qed.

(** The fields of the state [Snapshot] leaves. *)
Lemma Snapshot_result index data rf :
  raft_wf rf →
  returns (Snapshot index data rf) (λ rf',
    if decide (rf.(snapshotIndex) < index ≤ lastLogIndex rf) then
      ∃ e, entry_at rf index = Some e ∧
        rf'.(snapshotIndex) = index ∧ rf'.(snapshotTerm) = e.(le_Term) ∧
        rf'.(log) = mkEntry e.(le_Term) None :: drop (Z.to_nat (index + 1 - rf.(snapshotIndex))) rf.(log) ∧
        rf'.(commitIndex) = Z.max rf.(commitIndex) index ∧
        rf'.(lastApplied) = Z.max rf.(lastApplied) index ∧
        (rf'.(currentTerm), rf'.(votedFor), rf'.(state)) =
          (rf.(currentTerm), rf.(votedFor), rf.(state)) ∧
        (ReadRaftState rf'.(persister) = encodeState rf' ∧ ReadSnapshot rf'.(persister) = data) ∧
        leader_view rf rf' index
    else rf' = rf).
Proof.
  intros Hwf. rewrite Snapshot_split. case_decide as Hi; [|by apply returns_Ret].
  destruct (snapshotLog_spec index rf Hi) as (rf1 & -> & e & He & Hrf1). simpl.
  assert (raft_wf rf1) as Hwf1.
  { rewrite Hrf1. destruct Hwf. constructor; cbn; done || lia. }
  destruct (snapshotLeader_spec rf1 Hwf1) as (rf2 & Hr2 & Hview). rewrite Hr2.
  apply snapshotLeader_same in Hr2. apply returns_Ret.
  assert (rf1.(snapshotIndex) = index) as Hs1 by by rewrite Hrf1. rewrite Hs1 in Hview.
  assert (leader_view rf rf2 index) as Hview'.
  { revert Hview. rewrite Hrf1. unfold leader_view. by cbn. }
  unfold same_but_view, core in Hr2. injection Hr2 as Et Ev El Es Est _ Ers Ec Ea _.
  exists e. cbn. rewrite Es, Est, El, Ec, Ea, Et, Ev, Ers, Hrf1. cbn. split_and!; try done;
    by rewrite ?ReadRaftState_Save, ?ReadSnapshot_Save.
Qed.

(** [Snapshot]: a snapshot at an index of the log above the current one
    discards the entries up to it and nothing else, raises the commit and
    applied positions to at least that index, moves a leader's view of every
    peer past it, and saves state and snapshot together; any other index
    leaves the peer as it is. *)
Theorem Snapshot_spec index data rf :
  raft_wf rf →
  returns (Snapshot index data rf) (λ rf',
    if decide (rf.(snapshotIndex) < index ≤ lastLogIndex rf)
    then compacted rf rf' index data else rf' = rf).
Proof.
  intros Hwf. eapply returns_mono; [by apply Snapshot_result|]. intros rf'. case_decide; [|done].
  intros (e & He & Es & Est & El & Ec & Ea & Ev & Hd & Hview).
  by eapply (compacted_intro _ _ _ _ e).
Qed.
End compaction.

Section install.
Context {Cmd : Type} `{GobCodec Z, GobCodec (list (LogEntry Cmd))}.
Implicit Types (rf : Raft Cmd).

Lemma installSnapshotLog_spec args rf :
  raft_wf rf → rf.(snapshotIndex) < args.(LastIncludedIndex) →
  returns (installSnapshotLog args rf) (λ rf',
    rf'.(snapshotIndex) = args.(LastIncludedIndex) ∧
    rf'.(snapshotTerm) = args.(LastIncludedTerm) ∧
    rf'.(log) = mkEntry args.(LastIncludedTerm) None ::
      drop (Z.to_nat (args.(LastIncludedIndex) + 1 - rf.(snapshotIndex))) rf.(log) ∧
    rf'.(commitIndex) = Z.max rf.(commitIndex) args.(LastIncludedIndex) ∧
    rf'.(lastApplied) = Z.max rf.(lastApplied) args.(LastIncludedIndex) ∧
    rf'.(state) = rf.(state) ∧ rf'.(currentTerm) = rf.(currentTerm) ∧
    ReadRaftState rf'.(persister) = encodeState rf' ∧
    ReadSnapshot rf'.(persister) = args.(Data)).
Proof.
  intros Hwf Hlt. pose proof (wf_snap _ Hwf). unfold installSnapshotLog.
  set (rest := drop (Z.to_nat (LastIncludedIndex args + 1 - snapshotIndex rf)) (log rf)).
  eapply returns_bind with (P := λ l, l = rest).
  { case_if; [rewrite gslice_from_Ret by lia; by apply returns_Ret|].
    apply returns_Ret. symmetry. apply nil_length_inv. unfold rest. rewrite length_drop.
    unfold glen in *. lia. }
  intros l ->. apply returns_Ret. rewrite raiseCommit_eq, raiseApplied_eq. cbn.
  rewrite ReadRaftState_Save, ReadSnapshot_Save. done.
Qed.

(** C25. [InstallSnapshot]: a current message with a newer snapshot replaces
    the entries it covers, keeps every entry after it, never moves commit or
    applied positions back, saves state and snapshot together and hands the
    service that one snapshot; any other message delivers nothing and leaves
    the log, its positions and the stored snapshot alone. *)
Theorem InstallSnapshot_spec now args rf :
  raft_wf rf →
  returns (InstallSnapshot now args rf) (λ r,
    let '(rf', reply, msgs) := r in
    reply.(isr_Term) = rf.(currentTerm) ∧
    rf'.(currentTerm) = Z.max rf.(currentTerm) args.(is_Term) ∧
    if decide (rf.(currentTerm) ≤ args.(is_Term) ∧
               rf.(snapshotIndex) < args.(LastIncludedIndex))
    then
      msgs = [snapshotMsg args] ∧ rf'.(state) = Follower ∧
      term_at rf' args.(LastIncludedIndex) = Some args.(LastIncludedTerm) ∧
      rf'.(snapshotIndex) = args.(LastIncludedIndex) ∧
      (∀ i, args.(LastIncludedIndex) < i → entry_at rf' i = entry_at rf i) ∧
      rf'.(commitIndex) = Z.max rf.(commitIndex) args.(LastIncludedIndex) ∧
      rf'.(lastApplied) = Z.max rf.(lastApplied) args.(LastIncludedIndex) ∧
      ReadRaftState rf'.(persister) = encodeState rf' ∧
      ReadSnapshot rf'.(persister) = args.(Data)
    else
      msgs = [] ∧ rf'.(log) = rf.(log) ∧ rf'.(snapshotIndex) = rf.(snapshotIndex) ∧
      rf'.(commitIndex) = rf.(commitIndex) ∧ rf'.(lastApplied) = rf.(lastApplied) ∧
      ReadSnapshot rf'.(persister) = ReadSnapshot rf.(persister)).
Proof.
  intros Hwf. unfold InstallSnapshot. case_if.
  { apply returns_Ret. rewrite decide_False by lia. split_and!; done || lia. }
  destruct (observed_fields now args.(is_Term) rf) as (Hl & Hs & Hc & Ha & _ & Hst & Ht).
  assert (raft_wf (followerContact now (observeTerm args.(is_Term) rf))) as Hwf1
    by by apply followerContact_wf, observeTerm_wf.
  assert (ReadSnapshot (followerContact now (observeTerm args.(is_Term) rf)).(persister) =
    ReadSnapshot rf.(persister)) as Hsn.
  { unfold followerContact, observeTerm, stepDown. case_if; cbn; [|done].
    by rewrite ReadSnapshot_Save. }
  set (rf1 := followerContact _ _) in *. case_if.
  { apply returns_Ret. rewrite decide_False by lia. split_and!; done || lia. }
  eapply returns_bind; [apply installSnapshotLog_spec; [done|lia]|].
  intros rf' (Hs' & Hst' & Hl' & Hc' & Ha' & Hf & Ht' & Hd1 & Hd2). apply returns_Ret.
  rewrite decide_True by lia. split; [done|]. split; [lia|]. rewrite <-Ha, <-Hc.
  split_and!; try done; try congruence.
  - unfold term_at. rewrite <-Hs'. by rewrite (entry_at_head _ _ _ Hl').
  - intros i Hi. erewrite (entry_at_drop rf1 rf' args.(LastIncludedIndex)); [|lia|exact Hs'|exact Hl'|done].
    unfold entry_at. by rewrite Hl, Hs.
Qed.

(** The applied position and the service can part: a current
    [InstallSnapshot] whose snapshot lies strictly between the peer's own
    snapshot and its applied position is still delivered to the service,
    and the peer then continues after its old applied position. *)
Theorem InstallSnapshot_behind_applied now args rf :
  raft_wf rf → rf.(currentTerm) ≤ args.(is_Term) →
  rf.(snapshotIndex) < args.(LastIncludedIndex) < rf.(lastApplied) →
  returns (InstallSnapshot now args rf) (λ r,
    r.2 = [snapshotMsg args] ∧ r.1.1.(lastApplied) = rf.(lastApplied) ∧
    am_SnapshotIndex (snapshotMsg (Cmd := Cmd) args) < r.1.1.(lastApplied)).
Proof.
  intros Hwf Ht Hi. unfold InstallSnapshot. case_if; [lia|].
  destruct (observed_fields now args.(is_Term) rf) as (_ & Hs & _ & Ha & _).
  assert (raft_wf (followerContact now (observeTerm args.(is_Term) rf))) as Hwf1
    by by apply followerContact_wf, observeTerm_wf.
  case_if; [lia|].
  eapply returns_bind; [apply installSnapshotLog_spec; [done|lia]|].
  intros rf' (_ & _ & _ & _ & Ha' & _). apply returns_Ret. cbn. rewrite Ha', Ha.
  split_and!; [done|lia|lia].
Qed.

(** When an accepted [AppendEntries] moves a follower's commit index
    backwards: exactly when the leader's commit index is news and the last
    new entry lies before what the follower has already committed. *)
Theorem AppendEntries_commit_regress now (args : AppendEntriesArgs Cmd) rf rf' reply :
  raft_wf rf → AppendEntries now args rf = Ret (rf', reply) → reply.(Success) = true →
  rf'.(commitIndex) < rf.(commitIndex) ↔
    rf.(commitIndex) < args.(LeaderCommit) ∧
    args.(PrevLogIndex) + glen args.(Entries) < rf.(commitIndex).
Proof.
  intros Hwf Hr Hsuc.
  destruct (AppendEntries_result now args rf Hwf) as ([? ?] & Hr' & _ & _ & _ & Hyes).
  rewrite Hr in Hr'. injection Hr' as <- <-. destruct (Hyes Hsuc) as (_ & _ & -> & _).
  unfold new_commit. case_decide; lia.
Qed.
End install.
