(* ===== verification/RaftCluster.v ===== *)
(** * A cluster of Raft peers over an unreliable network

    The peers of [Raft.v], the goroutines that wait for replies, and the
    packets in flight, as one transition system. A packet is never removed
    from the network: it may be delivered late, any number of times, or never,
    which covers the drops, delays and reorderings of [labrpc/labrpc.go]. A
    crash loses everything of a peer but its disk, and may also hit between
    the two [persist] calls of one handler. [cexec] is total on events: one
    that is not enabled leaves the cluster as it is, and only an
    out-of-range access of a handler gives [Panic]. *)

From S2P Require Import Prelude Gob Persister Raft RaftNode RaftSpec.
From Stdlib Require Import Strings.Byte.

(** The variables [votes] and [electionWon] of one [startElection], and the
    servers whose goroutine has not seen a reply yet. *)
Record Election := mkElection {
  el_votes : Z;
  el_won : Z;
  el_waiting : list Z;
}.

Inductive Packet {Cmd : Type} :=
  | RVReq (dst : Z) (args : RequestVoteArgs)
  | RVRep (src : Z) (args : RequestVoteArgs) (reply : RequestVoteReply)
  | AEReq (dst : Z) (args : AppendEntriesArgs Cmd)
  | AERep (src : Z) (args : AppendEntriesArgs Cmd) (reply : AppendEntriesReply)
  | ISReq (dst : Z) (args : InstallSnapshotArgs)
  | ISRep (src : Z) (args : InstallSnapshotArgs) (reply : InstallSnapshotReply).
Arguments Packet : clear implicits.

Record Cluster {Cmd : Type} := mkCluster {
  nodes : gmap Z (Raft Cmd);
  elections : gmap (Z * Z) Election;
  heartbeats : list (Z * HeartbeatCtx);
  net : list (Packet Cmd);
}.
Arguments Cluster : clear implicits.
Arguments mkCluster {Cmd}.

#[export] Instance upd_nodes {Cmd} : Upd (@nodes Cmd) := λ g c,
  mkCluster (g c.(nodes)) c.(elections) c.(heartbeats) c.(net).
#[export] Instance upd_elections {Cmd} : Upd (@elections Cmd) := λ g c,
  mkCluster c.(nodes) (g c.(elections)) c.(heartbeats) c.(net).
#[export] Instance upd_heartbeats {Cmd} : Upd (@heartbeats Cmd) := λ g c,
  mkCluster c.(nodes) c.(elections) (g c.(heartbeats)) c.(net).
#[export] Instance upd_net {Cmd} : Upd (@net Cmd) := λ g c,
  mkCluster c.(nodes) c.(elections) c.(heartbeats) (g c.(net)).

Inductive ClusterEvent {Cmd : Type} :=
  | EvDeliver (k : nat) (now : Z)
  | EvTimeout (i now : Z)
  | EvHeartbeat (i : Z)
  | EvHeartbeatSend (k : nat) (srv : Z)
  | EvUpdateCommit (i : Z)
  | EvApply (i : Z)
  | EvStart (i : Z) (command : option Cmd)
  | EvSnapshot (i index : Z) (data : bytes)
  | EvKill (i : Z)
  | EvCrash (i now : Z)
  | EvCrashInHandler (i term now : Z).
Arguments ClusterEvent : clear implicits.

Section cluster.
Context {Cmd : Type} `{GobCodec Z, GobCodec (list (LogEntry Cmd))}.
Implicit Types (c : Cluster Cmd) (rf : Raft Cmd).

Definition set_node (i : Z) rf c : Cluster Cmd := c <| nodes := <[i := rf]> c.(nodes) |>.
Definition send (ps : list (Packet Cmd)) c : Cluster Cmd := c <| net := ps ++ c.(net) |>.

Definition on_node {A} c (i : Z) (f : Raft Cmd → go A) (k : A → Cluster Cmd) : go (Cluster Cmd) :=
  match c.(nodes) !! i with
  | None => Ret c
  | Some rf => k <$> f rf
  end.

(** A reply reaches its goroutine of [startElection]. *)
Definition deliverVote (src : Z) (args : RequestVoteArgs) (reply : RequestVoteReply) c :
    go (Cluster Cmd) :=
  let key := (args.(CandidateId), args.(rv_Term)) in
  match c.(elections) !! key with
  | None => Ret c
  | Some el =>
    if bool_decide (src ∈ el.(el_waiting)) then
      on_node c args.(CandidateId) (onVoteReply args reply el.(el_votes) el.(el_won))
        (λ r, set_node args.(CandidateId) r.1.1 c
              <| elections := <[key := mkElection r.1.2 r.2
                                 (filter (λ s, s ≠ src) el.(el_waiting))]> c.(elections) |>)
    else Ret c
  end.

Definition deliver (now : Z) (p : Packet Cmd) c : go (Cluster Cmd) :=
  match p with
  | RVReq dst args => on_node c dst (RequestVote now args)
      (λ r, send [RVRep dst args r.2] (set_node dst r.1 c))
  | RVRep src args reply => deliverVote src args reply c
  | AEReq dst args => on_node c dst (AppendEntries now args)
      (λ r, send [AERep dst args r.2] (set_node dst r.1 c))
  | AERep src args reply => on_node c args.(ae_LeaderId) (onAppendEntriesReply src args reply)
      (λ rf, set_node args.(ae_LeaderId) rf c)
  | ISReq dst args => on_node c dst (InstallSnapshot now args)
      (λ r, send [ISRep dst args r.1.2] (set_node dst r.1.1 c))
  | ISRep src args reply => on_node c args.(is_LeaderId) (onInstallSnapshotReply src args reply)
      (λ rf, set_node args.(is_LeaderId) rf c)
  end.

Definition hb_packet (srv : Z) (m : HeartbeatMsg Cmd) : Packet Cmd :=
  match m with
  | SendInstallSnapshot args => ISReq srv args
  | SendAppendEntries args => AEReq srv args
  end.

(** [ticker] starts an election after a test made in an earlier critical
    section, whose result may be stale by now: it may happen at any time. *)
Definition timeout (i now : Z) c : go (Cluster Cmd) :=
  on_node c i (startElection now)
    (λ r, send ((λ s, RVReq s r.1.2) <$> r.2)
      (set_node i r.1.1 c
       <| elections := <[(i, r.1.2.(rv_Term)) := mkElection 1 0 r.2]> c.(elections) |>)).

(** A crash forgets the goroutines of the peer. *)
Definition crash (i : Z) rf c : Cluster Cmd :=
  set_node i rf c
    <| elections := filter (λ kv, kv.1.1 ≠ i) c.(elections) |>
    <| heartbeats := filter (λ h, h.1 ≠ i) c.(heartbeats) |>.

Definition cexec (ev : ClusterEvent Cmd) c : go (Cluster Cmd) :=
  match ev with
  | EvDeliver k now =>
      match c.(net) !! k with Some p => deliver now p c | None => Ret c end
  | EvTimeout i now => timeout i now c
  | EvHeartbeat i => on_node c i (λ rf, Ret (sendHeartbeats rf))
      (λ hb, match hb with
             | Some hb => c <| heartbeats := (i, hb) :: c.(heartbeats) |>
             | None => c
             end)
  | EvHeartbeatSend k srv =>
      match c.(heartbeats) !! k with
      | None => Ret c
      | Some (i, hb) =>
        if bool_decide (srv ∈ hb.(hb_servers)) then
          on_node c i (heartbeatMsg hb srv)
            (λ m, match m with Some m => send [hb_packet srv m] c | None => c end)
        else Ret c
      end
  | EvUpdateCommit i => on_node c i updateCommitIndex (λ rf, set_node i rf c)
  | EvApply i => on_node c i applyCommitted (λ r, set_node i r.1 c)
  | EvStart i command => on_node c i (λ rf, Ret (Start command rf)) (λ r, set_node i r.1 c)
  | EvSnapshot i index data => on_node c i (Snapshot index data) (λ rf, set_node i rf c)
  | EvKill i => on_node c i (λ rf, Ret (Kill rf)) (λ rf, set_node i rf c)
  | EvCrash i now => on_node c i (λ rf, Ret (restart now rf)) (λ rf, crash i rf c)
  | EvCrashInHandler i term now =>
      on_node c i (λ rf, Ret (restart now (observeTerm term rf))) (λ rf, crash i rf c)
  end.

Definition crun (evs : list (ClusterEvent Cmd)) c : go (Cluster Cmd) :=
  foldM (λ c ev, cexec ev c) c evs.

Definition cluster_boot (n now : Z) : Cluster Cmd :=
  mkCluster (list_to_map ((λ i, (i, boot n i now)) <$> range n)) ∅ [] [].

(** Peer [i] is leader of term [t]. *)
Definition leads c (i t : Z) : Prop :=
  ∃ rf, c.(nodes) !! i = Some rf ∧ rf.(state) = Leader ∧ rf.(currentTerm) = t.
End cluster.

(** ** Election safety *)

Section election.
Context {Cmd : Type} `{GobLaws Z, GobLaws (list (LogEntry Cmd))}.
Implicit Types (c : Cluster Cmd) (rf : Raft Cmd).

(** What a critical section other than the end of an election keeps. *)
Record step_ok rf rf' : Prop := {
  so_wf : raft_wf rf';
  so_durable : durable rf';
  so_vote : vote_le rf rf';
  so_leader : rf'.(state) = Leader → rf.(state) = Leader ∧ rf'.(currentTerm) = rf.(currentTerm);
}.

Definition keeps_leader rf rf' : Prop :=
  rf'.(state) = Leader → rf.(state) = Leader ∧ rf'.(currentTerm) = rf.(currentTerm).

Lemma stepDown_keeps t rf : keeps_leader rf (stepDown t rf).
Proof. done. Qed.

Lemma observeTerm_keeps t rf : keeps_leader rf (observeTerm t rf).
Proof. unfold observeTerm. case_if; [apply stepDown_keeps|done]. Qed.

Lemma keeps_trans r1 r2 r3 : keeps_leader r1 r2 → keeps_leader r2 r3 → keeps_leader r1 r3.
Proof.
  unfold keeps_leader. intros H12 H23 Hl. destruct (H23 Hl) as [Hl2 E]. destruct (H12 Hl2). split; [done|lia].
Qed.

Lemma keeps_follower rf rf' : rf'.(state) = Follower → keeps_leader rf rf'.
Proof. intros E. unfold keeps_leader. by rewrite E. Qed.

Lemma installSnapshotLog_state args rf rf' :
  installSnapshotLog args rf = Ret rf' → rf'.(state) = rf.(state).
Proof.
  unfold installSnapshotLog. intros Hr. go_inv Hr. subst.
  unfold raiseApplied, raiseCommit. by repeat case_if.
Qed.

Lemma InstallSnapshot_keeps now args rf r :
  InstallSnapshot now args rf = Ret r → keeps_leader rf r.1.1.
Proof.
  unfold InstallSnapshot. intros Hr. go_cases Hr; subst; try done. simpl.
  apply keeps_follower. apply installSnapshotLog_state in Ha. by rewrite Ha.
Qed.

Lemma Snapshot_keeps index data rf rf' : Snapshot index data rf = Ret rf' → keeps_leader rf rf'.
Proof.
  unfold Snapshot. intros Hr. go_cases Hr; subst; try done.
  match goal with Ha : snapshotLeader _ = _ |- _ => rewrite (snapshotLeader_frame _ _ Ha) end.
  unfold raiseApplied, raiseCommit, keeps_leader; repeat case_if; done.
Qed.

Lemma startElection_result now rf r :
  startElection now rf = Ret r →
  r.1.1.(state) = Candidate ∧ r.1.1.(votedFor) = rf.(me) ∧
  r.1.1.(currentTerm) = rf.(currentTerm) + 1 ∧
  r.1.2.(CandidateId) = rf.(me) ∧ r.1.2.(rv_Term) = rf.(currentTerm) + 1 ∧
  r.2 = filter (λ i, i ≠ rf.(me)) (range rf.(npeers)).
Proof. unfold startElection. intros Hr. go_inv Hr. subst r. split_and!; reflexivity. Qed.

Lemma exec_keeps_leader op rf rf' :
  exec op rf = Ret rf' → (∀ a r v w, op ≠ OpVoteReply a r v w) → keeps_leader rf rf'.
Proof.
  intros Hr Hop. destruct op; simpl in Hr; go_inv Hr; subst.
  - unfold RequestVote, decideVote in Ha. go_cases Ha; subst; simpl; try done;
      apply observeTerm_keeps.
  - unfold AppendEntries, appendEntriesLog in Ha. go_cases Ha; subst; try done; simpl.
    all: unfold followerCommit, keeps_leader; repeat case_if; done.
  - by eapply InstallSnapshot_keeps.
  - unfold Start. by case_if.
  - by eapply Snapshot_keeps.
  - apply startElection_result in Ha as [Hst _]. unfold keeps_leader. simpl. congruence.
  - by destruct (Hop args reply votes won).
  - done.
  - unfold onInstallSnapshotReply in Hr. go_cases Hr; subst; done.
  - unfold onAppendEntriesReply in Hr. go_cases Hr; subst; done.
  - unfold updateCommitIndex in Hr. go_cases Hr; [|by subst].
    by rewrite (commitScan_frame _ _ _ _ Hr).
  - apply applyLoop_frame in Ha. by rewrite Ha.
  - done.
Qed.

Lemma exec_step_ok op rf :
  raft_wf rf → durable rf → op_srv_ok op rf.(npeers) →
  (∀ a r v w, op ≠ OpVoteReply a r v w) → returns (exec op rf) (step_ok rf).
Proof.
  intros Hwf Hd Hsrv Hop. destruct (exec_wf op rf Hwf Hsrv) as (rf' & Hr & Hwf').
  exists rf'. split; [done|]. constructor; eauto using exec_durable, exec_vote_le.
  by eapply exec_keeps_leader.
Qed.

(** The election invariant, over the history [V] of all votes ever cast:
    triples of voter, term and candidate. *)
Definition history := list (Z * Z * Z).
Implicit Types V : history.

Definition majority (n : Z) V (t cand : Z) (voters : list Z) : Prop :=
  NoDup voters ∧ ∀ v, v ∈ voters → 0 ≤ v < n ∧ (v, t, cand) ∈ V.

Record node_inv (n i : Z) rf : Prop := {
  ni_me : rf.(me) = i;
  ni_npeers : rf.(npeers) = n;
  ni_wf : raft_wf rf;
  ni_durable : durable rf;
}.

Definition vote_cast c (n : Z) (vote : Z * Z * Z) : Prop :=
  let '(v, t, cand) := vote in
  0 ≤ cand < n ∧ ∃ rf, c.(nodes) !! v = Some rf ∧ t ≤ rf.(currentTerm) ∧
    (t = rf.(currentTerm) → rf.(votedFor) = cand).

Definition packet_inv (n : Z) V (p : Packet Cmd) : Prop :=
  match p with
  | RVReq _ args => 0 ≤ args.(CandidateId) < n
  | RVRep src args reply => 0 ≤ src < n ∧ (reply.(VoteGranted) = true →
      (src, args.(rv_Term), args.(CandidateId)) ∈ V)
  | AERep src _ _ | ISRep src _ _ => 0 ≤ src < n
  | _ => True
  end.

Definition election_inv (n : Z) V (key : Z * Z) (el : Election) : Prop :=
  ∃ voters, majority n V key.2 key.1 voters ∧ glen voters = el.(el_votes) ∧
    NoDup el.(el_waiting) ∧ ∀ v, v ∈ el.(el_waiting) → v ∉ voters.

Record cluster_inv (n : Z) V c : Prop := {
  ci_nodes : ∀ i rf, c.(nodes) !! i = Some rf → node_inv n i rf;
  ci_votes : ∀ v, v ∈ V → vote_cast c n v;
  ci_once : ∀ v t a b, (v, t, a) ∈ V → (v, t, b) ∈ V → a = b;
  ci_net : ∀ p, p ∈ c.(net) → packet_inv n V p;
  ci_heartbeats : ∀ i hb srv, (i, hb) ∈ c.(heartbeats) → srv ∈ hb.(hb_servers) → 0 ≤ srv < n;
  ci_elections : ∀ key el, c.(elections) !! key = Some el → election_inv n V key el;
  ci_leaders : ∀ i t, leads c i t → ∃ voters, majority n V t i voters ∧ n / 2 < glen voters;
}.

Lemma majority_mono n V V' t cand voters :
  V ⊆ V' → majority n V t cand voters → majority n V' t cand voters.
Proof. intros HV [? Hv]. split; [done|]. intros v [? ?]%Hv. auto. Qed.

Lemma packet_inv_mono n V V' p : V ⊆ V' → packet_inv n V p → packet_inv n V' p.
Proof. intros HV. destruct p; simpl; try done. intros [? ?]. auto. Qed.

Lemma election_inv_mono n V V' key el :
  V ⊆ V' → election_inv n V key el → election_inv n V' key el.
Proof. intros HV (vs & ? & ?). exists vs. split; [by eapply majority_mono|done]. Qed.

(** Two majorities for the same term share a voter. *)
Lemma quorums_intersect n (l1 l2 : list Z) :
  0 ≤ n → NoDup l1 → NoDup l2 → (∀ v, v ∈ l1 → 0 ≤ v < n) → (∀ v, v ∈ l2 → 0 ≤ v < n) →
  n / 2 < glen l1 → n / 2 < glen l2 → ∃ v, v ∈ l1 ∧ v ∈ l2.
Proof.
  intros Hn Hn1 Hn2 Hl1 Hl2 H1' H2'.
  destruct (decide (Exists (λ v, v ∈ l2) l1)) as [He|He].
  { apply list.Exists_exists in He. naive_solver. }
  assert (NoDup (l1 ++ l2)) as Hnd.
  { apply NoDup_app. split_and!; [done| |done]. intros v Hv Hv2. apply He, list.Exists_exists.
    by exists v. }
  assert (l1 ++ l2 ⊆ range n) as Hsub.
  { intros v [Hv|Hv]%elem_of_app; apply elem_of_range; auto. }
  pose proof (submseteq_length _ _ (NoDup_submseteq _ _ Hnd Hsub)) as Hlen.
  rewrite length_app in Hlen. unfold range in Hlen. rewrite length_seqZ in Hlen.
  pose proof (Z.div_mod n 2 ltac:(lia)). pose proof (Z.mod_pos_bound n 2 ltac:(lia)).
  unfold glen in *. lia.
Qed.

(** *** Elementary updates *)

Lemma inv_set_node n V c i rf rf' :
  cluster_inv n V c → c.(nodes) !! i = Some rf →
  raft_wf rf' → durable rf' → vote_le rf rf' →
  (rf'.(state) = Leader → rf.(state) = Leader ∧ rf'.(currentTerm) = rf.(currentTerm) ∨
     ∃ voters, majority n V rf'.(currentTerm) i voters ∧ n / 2 < glen voters) →
  cluster_inv n V (set_node i rf' c).
Proof.
  intros [Hn Hv Ho Hnet Hhb Hel Hl] Hi Hwf Hd [Hme Hnp Ht Hvote] Hlead. constructor; try done.
  - intros j r. cbn. intros [[<- <-]|[? Hj]]%lookup_insert_Some; [|auto].
    destruct (Hn _ _ Hi). constructor; [congruence..|done|done].
  - intros [[v t] cand] Hin. destruct (Hv _ Hin) as (Hc & r & Hr & Hle & Heq).
    split; [done|]. cbn. destruct (decide (v = i)) as [->|].
    + rewrite lookup_insert_eq. simplify_eq. exists rf'. split_and!; [done|lia|].
      intros ->. rewrite Hvote; [apply Heq; lia|lia|]. rewrite Heq by lia. lia.
    + rewrite lookup_insert_ne by done. by exists r.
  - intros j t (r & Hr & Hst & Htm). revert Hr. cbn.
    intros [[<- <-]|[? Hj]]%lookup_insert_Some; [|apply Hl; by exists r].
    destruct (Hlead Hst) as [[? ?]|?]; [|by subst]. apply Hl. exists rf. split_and!; [done..|lia].
Qed.

Lemma inv_step n V c i rf rf' :
  cluster_inv n V c → c.(nodes) !! i = Some rf → step_ok rf rf' →
  cluster_inv n V (set_node i rf' c).
Proof. intros Hinv Hi [? ? ? Hl]. eapply inv_set_node; eauto. Qed.

Lemma inv_send n V c ps :
  cluster_inv n V c → (∀ p, p ∈ ps → packet_inv n V p) → cluster_inv n V (send ps c).
Proof. intros [] Hps. constructor; try done. cbn. intros p [?|?]%elem_of_app; auto. Qed.

Lemma inv_record n V c v rf :
  cluster_inv n V c → c.(nodes) !! v = Some rf → 0 ≤ rf.(votedFor) < n →
  cluster_inv n ((v, rf.(currentTerm), rf.(votedFor)) :: V) c.
Proof.
  intros [Hn Hv Ho Hnet Hhb Hel Hl] Hi Hc.
  assert (V ⊆ (v, rf.(currentTerm), rf.(votedFor)) :: V) as Hsub by set_solver.
  assert (∀ cand, (v, rf.(currentTerm), cand) ∈ V → cand = rf.(votedFor)) as Hsame.
  { intros cand Hin. destruct (Hv _ Hin) as (_ & r & Hr & _ & Heq). simplify_eq. symmetry. auto. }
  constructor; try done.
  - intros w [->|Hw]%elem_of_cons; [|auto]. split; [done|]. exists rf. split_and!; [done|lia|done].
  - intros w t a b. rewrite !elem_of_cons.
    intros [[= -> -> ->]|Hw1] [Heq|Hw2]; simplify_eq; eauto. symmetry. eauto.
  - intros p Hp. eapply packet_inv_mono; eauto.
  - intros key el Hk. eapply election_inv_mono; eauto.
  - intros i t (vs & ? & ?)%Hl. exists vs. split; [by eapply majority_mono|done].
Qed.

Lemma inv_set_election n V c key el :
  cluster_inv n V c → election_inv n V key el →
  cluster_inv n V (c <| elections := <[key := el]> c.(elections) |>).
Proof.
  intros [] Hel. constructor; try done. cbn.
  intros k e [[<- <-]|[? ?]]%lookup_insert_Some; auto.
Qed.

Lemma inv_crash n V c i rf rf' :
  cluster_inv n V c → c.(nodes) !! i = Some rf → step_ok rf rf' →
  cluster_inv n V (crash i rf' c).
Proof.
  intros Hinv Hi Hok. pose proof (inv_step _ _ _ _ _ _ Hinv Hi Hok) as [].
  constructor; try done; cbn.
  - intros j hb srv [_ ?]%list_elem_of_filter. eauto.
  - intros key el [? _]%map_lookup_filter_Some. auto.
Qed.

Lemma on_node_returns {A} n V c i (f : Raft Cmd → go A) k (Q : Cluster Cmd → Prop) :
  cluster_inv n V c → Q c →
  (∀ rf, c.(nodes) !! i = Some rf → node_inv n i rf → returns (f rf) (λ a, Q (k a))) →
  returns (on_node c i f k) Q.
Proof.
  intros Hinv Hc Hf. unfold on_node. destruct (nodes c !! i) as [rf|] eqn:Hi.
  - apply returns_fmap. apply Hf; [done|]. by eapply ci_nodes.
  - by apply returns_Ret.
Qed.

(** *** Elections *)

Lemma timeout_inv n V c i now :
  cluster_inv n V c →
  returns (timeout i now c) (λ c', ∃ V', V ⊆ V' ∧ cluster_inv n V' c').
Proof.
  intros Hinv. eapply on_node_returns; [done|by exists V|]. intros rf Hi [Hme Hnp Hwf Hd].
  destruct (startElection_wf now rf Hwf) as (r & Hr & Hwf').
  exists r. split; [done|].
  destruct (startElection_result _ _ _ Hr) as (Hst & Hvote & Hterm & Hcand & Hrv & Hsrv).
  pose proof (wf_me _ Hwf) as Hrange. set (rf1 := r.1.1) in *.
  exists ((i, rf1.(currentTerm), rf1.(votedFor)) :: V). split; [set_solver|].
  assert (cluster_inv n ((i, rf1.(currentTerm), rf1.(votedFor)) :: V) (set_node i rf1 c)) as Hinv1.
  { eapply inv_record; [|apply lookup_insert_eq|lia]. eapply inv_set_node;
      eauto using startElection_durable, startElection_vote_le. by rewrite Hst. }
  apply inv_send.
  - apply (inv_set_election _ _ (set_node i rf1 c)); [done|]. exists [i]. cbn. rewrite Hsrv. split_and!; [|done|..].
    + split; [apply NoDup_singleton|]. intros v ->%list_elem_of_singleton.
      split; [lia|]. apply elem_of_cons. left. f_equal; [f_equal|]; lia.
    + apply NoDup_filter, NoDup_range.
    + intros v [? _]%list_elem_of_filter. rewrite list_elem_of_singleton. lia.
  - intros p (s & -> & _)%list_elem_of_fmap. simpl. lia.
Qed.

Lemma onVoteReply_cases args reply v w rf r :
  onVoteReply args reply v w rf = Ret r →
  (r.1.2 = v ∧ keeps_leader rf r.1.1) ∨
  (r.1.2 = v + 1 ∧ reply.(VoteGranted) = true ∧ rf.(currentTerm) = args.(rv_Term) ∧
   r.1.1.(currentTerm) = rf.(currentTerm) ∧
   (keeps_leader rf r.1.1 ∨ rf.(npeers) / 2 < v + 1)).
Proof.
  unfold onVoteReply. intros Hr. go_cases Hr; subst; simpl; try (left; done).
  - apply andb_true_iff in Heqb as [_ Ht%Z.eqb_eq].
    match goal with Hb : becomeLeader _ = _ |- _ => rewrite (becomeLeader_frame _ _ Hb) end.
    right. split_and!; [done..|]. right. lia.
  - apply andb_true_iff in Heqb as [_ Ht%Z.eqb_eq]. right. split_and!; [done..|by left].
Qed.

Lemma election_inv_skip n V key el w s :
  election_inv n V key el →
  election_inv n V key (mkElection el.(el_votes) w (filter (λ x, x ≠ s) el.(el_waiting))).
Proof.
  intros (vs & Hm & Hlen & Hnd & Hw). exists vs. cbn. split_and!; [done..|by apply NoDup_filter|].
  intros v [_ ?]%list_elem_of_filter. auto.
Qed.

Lemma election_inv_vote n V key el w s :
  election_inv n V key el → s ∈ el.(el_waiting) → 0 ≤ s < n → (s, key.2, key.1) ∈ V →
  election_inv n V key (mkElection (el.(el_votes) + 1) w (filter (λ x, x ≠ s) el.(el_waiting))).
Proof.
  intros (vs & [Hndv Hm] & Hlen & Hnd & Hw) Hs Hsn HV. exists (s :: vs). cbn.
  split_and!; [| |by apply NoDup_filter|].
  - split; [constructor; auto|]. intros v [->|?]%elem_of_cons; auto.
  - rewrite glen_cons. lia.
  - intros v [? ?]%list_elem_of_filter. rewrite elem_of_cons. intros [?|?]; [done|]. by eapply Hw.
Qed.

Lemma deliverVote_inv n V c src args reply :
  cluster_inv n V c → packet_inv n V (RVRep src args reply) →
  returns (deliverVote src args reply c) (λ c', cluster_inv n V c').
Proof.
  intros Hinv [Hsrc Hgrant]. unfold deliverVote.
  set (key := (CandidateId args, rv_Term args)).
  destruct (elections c !! key) as [el|] eqn:Hel; [|by apply returns_Ret].
  pose proof (ci_elections _ _ _ Hinv _ _ Hel) as Hok.
  case_if; [|by apply returns_Ret]. apply bool_decide_eq_true in E.
  eapply on_node_returns; [done..|]. intros rf Hi [Hme Hnp Hwf Hd].
  destruct (onVoteReply_wf args reply el.(el_votes) el.(el_won) rf Hwf) as (r & Hr & Hwf').
  exists r. split; [done|].
  assert (election_inv n V key
    (mkElection r.1.2 r.2 (filter (λ s, s ≠ src) (el_waiting el))) ∧
    (keeps_leader rf r.1.1 ∨ r.1.1.(currentTerm) = args.(rv_Term) ∧ n / 2 < r.1.2))
    as [Hok' Hlead].
  { apply onVoteReply_cases in Hr as [[-> ?]|(-> & Hg & Ht & Ht' & Hl)].
    - split; [by apply election_inv_skip|by left].
    - split; [apply election_inv_vote; auto|]. rewrite Ht', Ht, <-Hnp. tauto. }
  eapply inv_set_node; [by apply inv_set_election|exact Hi|done| | |];
    eauto using onVoteReply_durable, onVoteReply_vote_le.
  intros Hst. destruct Hlead as [Hk|[Ht Hlen]]; [left; auto|right].
  destruct Hok' as (vs & Hm & Hvs & _). exists vs. cbn in *. rewrite Ht, Hvs. done.
Qed.

(** *** Every event preserves the invariant *)

(** A critical section [f], whose effect on the peer is that of [op]. *)
Lemma on_node_step {A} n V c i op (f : Raft Cmd → go A) (g : A → Raft Cmd) k (Q : Cluster Cmd → Prop) :
  cluster_inv n V c → (∀ rf, exec op rf = g <$> f rf) → op_srv_ok op n →
  (∀ a r v w, op ≠ OpVoteReply a r v w) → Q c →
  (∀ rf a, c.(nodes) !! i = Some rf → f rf = Ret a → step_ok rf (g a) →
     cluster_inv n V (set_node i (g a) c) → Q (k a)) →
  returns (on_node c i f k) Q.
Proof.
  intros Hinv Hop Hsrv Hne Hc HQ. eapply on_node_returns; [done..|].
  intros rf Hi [Hme Hnp Hwf Hd].
  destruct (exec_step_ok op rf) as (rf' & Hr & Hok); [done..|by rewrite Hnp|done|].
  rewrite Hop in Hr. go_inv Hr. subst rf'.
  match goal with Ha : f rf = Ret ?a |- _ => exists a; split; [done|]; eapply HQ; eauto end.
  by eapply inv_step.
Qed.

Lemma returns_self n V c :
  cluster_inv n V c → ∃ V', V ⊆ V' ∧ cluster_inv n V' c.
Proof. intros. by exists V. Qed.
Hint Resolve returns_self : core.

Lemma fmap_id_go {A} (m : go A) : m = id <$> m.
Proof. by destruct m. Qed.

Lemma deliver_inv n V c now p :
  cluster_inv n V c → packet_inv n V p →
  returns (deliver now p c) (λ c', ∃ V', V ⊆ V' ∧ cluster_inv n V' c').
Proof.
  intros Hinv Hp.
  assert (∀ i rf, c.(nodes) !! i = Some rf → 0 ≤ i < n) as Hrange.
  { intros i rf [<- <- Hwf _]%(ci_nodes _ _ _ Hinv). apply Hwf. }
  destruct p as [dst args|src args reply|dst args|src args reply|dst args|src args reply]; simpl.
  - eapply on_node_step with (g := fst) (op := OpRequestVote now args); [done..|by eauto|].
    intros rf [rf' reply] Hi Hr Hok Hinv'. simpl in *.
    destruct (VoteGranted reply) eqn:Hg.
    + pose proof (RequestVote_granted _ _ _ _ _ Hr Hg) as (Ht & Hv & _).
      exists ((dst, rf'.(currentTerm), rf'.(votedFor)) :: V). split; [set_solver|].
      apply inv_send; [eapply inv_record; [done|apply lookup_insert_eq|lia]|].
      intros q ->%list_elem_of_singleton. split; [by eapply Hrange|].
      intros _. rewrite Ht, Hv. left.
    + exists V. split; [done|]. apply inv_send; [done|].
      intros q ->%list_elem_of_singleton. split; [by eapply Hrange|congruence].
  - eapply returns_mono; [by apply deliverVote_inv|]. eauto.
  - eapply on_node_step with (g := fst) (op := OpAppendEntries now args); [done..|by eauto|].
    intros rf [rf' reply] Hi Hr Hok Hinv'. exists V. split; [done|]. apply inv_send; [done|].
    intros q ->%list_elem_of_singleton. by eapply Hrange.
  - eapply on_node_step with (g := id) (op := OpAppendEntriesReply src args reply);
      [done|intros; apply fmap_id_go|done..|by eauto|]. eauto.
  - eapply on_node_step with (g := fst ∘ fst) (op := OpInstallSnapshot now args);
      [done..|by eauto|].
    intros rf [[rf' reply] ms] Hi Hr Hok Hinv'. exists V. split; [done|]. apply inv_send; [done|].
    intros q ->%list_elem_of_singleton. by eapply Hrange.
  - eapply on_node_step with (g := id) (op := OpInstallSnapshotReply src args reply);
      [done|intros; apply fmap_id_go|done..|by eauto|]. eauto.
Qed.

Lemma restart_ok now rf : raft_wf rf → durable rf → step_ok rf (restart now rf).
Proof.
  intros Hwf Hd. constructor;
    [by apply restart_wf|by apply restart_durable|by apply restart_vote_le|].
  by rewrite restart_eq.
Qed.

Lemma restart_observe_ok now t rf :
  raft_wf rf → durable rf → step_ok rf (restart now (observeTerm t rf)).
Proof.
  intros Hwf Hd.
  destruct (restart_ok now (observeTerm t rf)) as [? ? ? Hl];
    [by apply observeTerm_wf|by apply observeTerm_durable|].
  constructor; [done..|etransitivity; [apply observeTerm_vote_le|done]|].
  eapply keeps_trans; [apply observeTerm_keeps|done].
Qed.

Lemma cexec_inv n V c ev :
  cluster_inv n V c → returns (cexec ev c) (λ c', ∃ V', V ⊆ V' ∧ cluster_inv n V' c').
Proof.
  intros Hinv. destruct ev; simpl.
  - destruct (net c !! k) as [p|] eqn:Hk; [|by apply returns_Ret; eauto].
    apply deliver_inv; [done|]. eapply ci_net; [done|]. by eapply list_elem_of_lookup_2.
  - by apply timeout_inv.
  - eapply on_node_returns; [done|by eauto|]. intros rf Hi [Hme Hnp _ _]. apply returns_Ret.
    unfold sendHeartbeats. case_if; [|by eauto]. exists V. split; [done|].
    destruct Hinv. constructor; try done. cbn.
    intros j hb srv [[= -> ->]|?]%elem_of_cons Hs; [|by eauto].
    cbn in Hs. apply list_elem_of_filter in Hs as [_ ?%elem_of_range]. by rewrite <-Hnp.
  - destruct (heartbeats c !! k) as [[i hb]|] eqn:Hk; [|by apply returns_Ret; eauto].
    case_if; [|by apply returns_Ret; eauto]. apply bool_decide_eq_true in E.
    eapply on_node_returns; [done|by eauto|]. intros rf Hi [_ Hnp Hwf _].
    eapply returns_mono; [apply heartbeatMsg_returns; [done|]|].
    { rewrite Hnp. eapply ci_heartbeats; eauto using list_elem_of_lookup_2. }
    intros [m|] _; [|by eauto]. exists V. split; [done|]. apply inv_send; [done|].
    intros q ->%list_elem_of_singleton. by destruct m.
  - eapply on_node_step with (g := id) (op := OpUpdateCommit);
      [done|intros; apply fmap_id_go|done..|by eauto|]. eauto.
  - eapply on_node_step with (g := fst) (op := OpApply); [done..|by eauto|]. eauto.
  - eapply on_node_step with (g := fst) (op := OpStart command); [done..|by eauto|]. eauto.
  - eapply on_node_step with (g := id) (op := OpSnapshot index data);
      [done|intros; apply fmap_id_go|done..|by eauto|]. eauto.
  - eapply on_node_step with (g := id) (op := OpKill); [done..|by eauto|]. eauto.
  - eapply on_node_returns; [done|by eauto|]. intros rf Hi [_ _ Hwf Hd]. apply returns_Ret.
    exists V. split; [done|]. eapply inv_crash; [done..|]. by apply restart_ok.
  - eapply on_node_returns; [done|by eauto|]. intros rf Hi [_ _ Hwf Hd]. apply returns_Ret.
    exists V. split; [done|]. eapply inv_crash; [done..|]. by apply restart_observe_ok.
Qed.

Lemma crun_inv n V c evs :
  cluster_inv n V c → returns (crun evs c) (λ c', ∃ V', V ⊆ V' ∧ cluster_inv n V' c').
Proof.
  unfold crun. revert V c. induction evs as [|ev evs IH]; intros V c Hinv; simpl.
  { apply returns_Ret. by eauto. }
  eapply returns_bind; [by apply cexec_inv|]. intros c' (V' & HV & Hinv').
  eapply returns_mono; [by eapply IH|]. intros c'' (V'' & HV' & Hinv''). exists V''.
  split; [by etrans|done].
Qed.

Lemma cluster_boot_lookup n now i rf :
  (cluster_boot n now).(nodes) !! i = Some rf → 0 ≤ i < n ∧ rf = boot n i now.
Proof.
  cbn. intros Hi%elem_of_list_to_map_2. apply list_elem_of_fmap in Hi as (j & [= -> ->] & Hj).
  by apply elem_of_range in Hj.
Qed.

Lemma cluster_boot_inv n now : cluster_inv n [] (cluster_boot n now).
Proof.
  constructor; try (intros; set_solver).
  - intros i rf [? ->]%cluster_boot_lookup. constructor; auto using boot_wf, boot_durable.
  - intros i t (rf & Hi & Hst & _). apply cluster_boot_lookup in Hi as [_ ->]. done.
Qed.

Lemma crun_boot_inv n now evs :
  returns (crun evs (cluster_boot n now)) (λ c, ∃ V, cluster_inv n V c).
Proof.
  eapply returns_mono; [apply crun_inv, cluster_boot_inv|]. intros c (V & _ & ?). by exists V.
Qed.

(** C5. Election safety: in any execution of a cluster of [n] peers, with
    crashes, restarts and an arbitrarily bad network, a term has at most one
    leader, also at different moments of the execution. *)
Theorem election_safety n now evs1 evs2 c1 c2 i j t :
  0 ≤ n →
  crun evs1 (cluster_boot n now) = Ret c1 → crun evs2 c1 = Ret c2 →
  leads c1 i t → leads c2 j t → i = j.
Proof.
  intros Hn H1' H2' Hl1 Hl2.
  destruct (crun_boot_inv n now evs1) as (c1' & Hr1 & V1 & Hinv1).
  rewrite H1' in Hr1. injection Hr1 as <-.
  destruct (crun_inv n V1 c1 evs2 Hinv1) as (c2' & Hr2 & V2 & HV & Hinv2).
  rewrite H2' in Hr2. injection Hr2 as <-.
  destruct (ci_leaders _ _ _ Hinv1 _ _ Hl1) as (l1 & Hm1 & Hq1).
  apply (majority_mono _ _ V2) in Hm1; [|done].
  destruct (ci_leaders _ _ _ Hinv2 _ _ Hl2) as (l2 & Hm2 & Hq2).
  destruct Hm1 as [Hnd1 Hm1], Hm2 as [Hnd2 Hm2].
  destruct (quorums_intersect n l1 l2) as (v & Hv1 & Hv2); [naive_solver..|].
  eapply (ci_once _ _ _ Hinv2 v t); [by apply Hm1|by apply Hm2].
Qed.

(** C15. No execution of a cluster reaches a panic: every event of every
    run from the first boot completes, and every peer is well-formed and
    has its state on disk after it. *)
Theorem cluster_no_panic n now evs :
  returns (crun evs (cluster_boot n now)) (λ c,
    ∀ i rf, c.(nodes) !! i = Some rf → raft_wf rf ∧ durable rf ∧ rf.(me) = i).
Proof.
  eapply returns_mono; [apply crun_boot_inv|]. intros c (V & Hinv) i rf Hi.
  by destruct (ci_nodes _ _ _ Hinv _ _ Hi).
Qed.
End election.
