(* ===== verification/RaftMatching.v ===== *)
(** * Log matching

    The logs of a cluster against the logs of its leaders. A ghost map [G]
    holds, for every term that has had a leader, who it was and the longest
    log it had in that term; it is not part of the program and exists only in
    proofs. A log is [matched] when every entry is where the leader of the
    entry's term had it, together with everything before it: two matched logs
    that agree on the term of an entry agree up to that entry (Raft's Log
    Matching). The file shows that [appendLoop] keeps logs matched. *)

From S2P Require Import Prelude Gob Persister Raft RaftNode RaftSpec RaftLog RaftCluster.
From Stdlib Require Import Strings.Byte.

(** ** Agreement up to an index *)

Section agree.
Context {A : Type}.
Implicit Types (l : list A) (k : Z).

Definition agree k l l' : Prop := ∀ i, i ≤ k → l.[i] = l'.[i].

Lemma agree_refl k l : agree k l l.
Proof. done. Qed.

Lemma agree_sym k l l' : agree k l l' → agree k l' l.
Proof. intros Hag i Hi. symmetry. auto. Qed.

Lemma agree_trans k l1 l2 l3 : agree k l1 l2 → agree k l2 l3 → agree k l1 l3.
Proof. intros H1 H2 i Hi. rewrite H1 by done. auto. Qed.

Lemma agree_mono k k' l l' : k' ≤ k → agree k l l' → agree k' l l'.
Proof. intros Hk Hag i Hi. apply Hag. lia. Qed.

Lemma agree_prefix k l l' : l `prefix_of` l' → k < glen l → agree k l l'.
Proof.
  intros [x ->] Hk i Hi. symmetry. destruct (decide (i < 0)).
  - rewrite !(proj2 (zlookup_None _ _)) by lia. done.
  - by rewrite zlookup_app_l by lia.
Qed.

Lemma agree_take k (m : nat) l : k < Z.of_nat m → agree k (take m l) l.
Proof. intros Hk i Hi. apply zlookup_take. lia. Qed.

Lemma zlookup_prefix l l' i x : l `prefix_of` l' → l.[i] = Some x → l'.[i] = Some x.
Proof.
  intros Hp Hx. pose proof (zlookup_lt_Some _ _ _ Hx) as [_ Hi].
  by rewrite <-(agree_prefix i l l' Hp Hi i).
Qed.

Lemma zlookup_snoc l x i y :
  (l ++ [x]).[i] = Some y → (i = glen l ∧ y = x) ∨ (i < glen l ∧ l.[i] = Some y).
Proof.
  intros Hy. pose proof (zlookup_lt_Some _ _ _ Hy) as Hb. rewrite glen_app in Hb.
  change (glen [x]) with 1 in Hb. destruct (decide (i = glen l)) as [->|].
  - left. rewrite zlookup_app_r, Z.sub_diag in Hy by lia. by injection Hy as <-.
  - right. rewrite zlookup_app_l in Hy by lia. split; [lia|done].
Qed.

Lemma zlookup_last l x : (l ++ [x]).[glen l] = Some x.
Proof. by rewrite zlookup_app_r, Z.sub_diag by lia. Qed.
End agree.

(** ** Ghost leader logs *)

Abbreviation Ghost Cmd := (gmap Z (Z * list (LogEntry Cmd))).

Section matching.
Context {Cmd : Type}.
Implicit Types (l L F : list (LogEntry Cmd)) (e : LogEntry Cmd) (t i k : Z).

Implicit Types G : Ghost Cmd.

(** Terms never lose their leader, and a leader's log only grows. *)
Definition ghost_le G G' : Prop :=
  ∀ t q L, G !! t = Some (q, L) → ∃ L', G' !! t = Some (q, L') ∧ L `prefix_of` L'.

#[export] Instance ghost_le_preorder : PreOrder ghost_le.
Proof.
  split.
  - intros G t q L HL. by exists L.
  - intros G1 G2 G3 H12 H23 t q L HL. destruct (H12 _ _ _ HL) as (L2 & HL2 & Hp2).
    destruct (H23 _ _ _ HL2) as (L3 & HL3 & Hp3). exists L3. split; [done|by etrans].
Qed.

Lemma ghost_le_insert_new G t q L : G !! t = None → ghost_le G (<[t := (q, L)]> G).
Proof.
  intros HG t' q' L' HL'. exists L'. rewrite lookup_insert_ne by congruence. done.
Qed.

Lemma ghost_le_grow G t q L L' :
  G !! t = Some (q, L) → L `prefix_of` L' → ghost_le G (<[t := (q, L')]> G).
Proof.
  intros HG Hp t0 q0 L0 HL0. destruct (decide (t0 = t)) as [->|].
  - exists L'. rewrite lookup_insert_eq. simplify_eq. done.
  - exists L0. by rewrite lookup_insert_ne.
Qed.

(** [l] has the log of the leader of [t] up to [k]. *)
Definition contains G l t k : Prop :=
  ∃ q L, G !! t = Some (q, L) ∧ k < glen L ∧ agree k l L.

Lemma contains_ghost G G' l t k : ghost_le G G' → contains G l t k → contains G' l t k.
Proof.
  intros HG (q & L & HL & Hk & Hag). destruct (HG _ _ _ HL) as (L' & HL' & Hp).
  exists q, L'. pose proof (prefix_length _ _ Hp). split_and!; [done|unfold glen in *; lia|].
  eapply agree_trans; [done|by apply agree_prefix].
Qed.

Lemma contains_agree G l l' t k : agree k l l' → contains G l t k → contains G l' t k.
Proof.
  intros Hag (q & L & HL & Hk & Hag'). exists q, L. split_and!; [done..|].
  eapply agree_trans; [by apply agree_sym|done].
Qed.

Lemma contains_same G l l' t k : contains G l t k → contains G l' t k → agree k l l'.
Proof.
  intros (q & L & HL & _ & Hag) (q' & L' & HL' & _ & Hag'). rewrite HL in HL'.
  injection HL' as <- <-. eapply agree_trans; [done|by apply agree_sym].
Qed.

Definition matched G l : Prop := ∀ i e, 1 ≤ i → l.[i] = Some e →
  1 ≤ e.(le_Term) ∧ contains G l e.(le_Term) i.

Record log_ok G l : Prop := {
  lo_head : l.[0] = Some (mkEntry 0 None);
  lo_sorted : ∀ i j e e', i ≤ j → l.[i] = Some e → l.[j] = Some e' → e.(le_Term) ≤ e'.(le_Term);
  lo_matched : matched G l;
}.

(** Every entry of [l] has a term of at most [t]. *)
Definition terms_le t l : Prop := ∀ i e, l.[i] = Some e → e.(le_Term) ≤ t.

Lemma log_ok_ghost G G' l : ghost_le G G' → log_ok G l → log_ok G' l.
Proof.
  intros HG [Hh Hs Hm]. constructor; [done..|]. intros i e Hi He.
  destruct (Hm i e Hi He). split; [done|by eapply contains_ghost].
Qed.

Lemma log_ok_take G l (m : nat) : (0 < m)%nat → log_ok G l → log_ok G (take m l).
Proof.
  intros Hpos [Hh Hs Hm].
  assert (∀ i e, (take m l).[i] = Some e → l.[i] = Some e ∧ i < Z.of_nat m) as Htake.
  { intros i e He. pose proof (zlookup_lt_Some _ _ _ He) as [_ Hb].
    assert (glen (take m l) ≤ Z.of_nat m) by (unfold glen; rewrite length_take; lia).
    rewrite zlookup_take in He by lia. split; [done|lia]. }
  constructor.
  - by rewrite zlookup_take by lia.
  - intros i j e e' Hij [He _]%Htake [He' _]%Htake. eauto.
  - intros i e Hi [He Hb]%Htake. destruct (Hm i e Hi He). split; [done|].
    eapply contains_agree; [|done]. by apply agree_sym, agree_take.
Qed.

(** Log Matching: same index and term, same prefix. *)
Lemma matched_agree G l l' i e e' :
  log_ok G l → log_ok G l' → l.[i] = Some e → l'.[i] = Some e' →
  e.(le_Term) = e'.(le_Term) → agree i l l'.
Proof.
  intros [Hh _ Hm] [Hh' _ Hm'] He He' Ht. pose proof (zlookup_lt_Some _ _ _ He) as [Hi _].
  destruct (decide (i = 0)) as [->|].
  - intros j Hj. destruct (decide (j = 0)) as [->|]; [congruence|].
    rewrite !(proj2 (zlookup_None _ _)) by lia. done.
  - destruct (Hm i e) as [_ (q & L & HL & _ & Hag)]; [lia|done|].
    destruct (Hm' i e') as [_ (q' & L' & HL' & _ & Hag')]; [lia|done|].
    rewrite <-Ht, HL in HL'. injection HL' as <- <-.
    eapply agree_trans; [done|by apply agree_sym].
Qed.

(** More generally, the later entry may be anywhere after [i]. *)
Lemma matched_agree_le G l l' i j e e' :
  log_ok G l → log_ok G l' → l.[i] = Some e → l'.[j] = Some e' → i ≤ j →
  e.(le_Term) = e'.(le_Term) → agree i l l'.
Proof.
  intros [Hh _ Hm] [Hh' _ Hm'] He He' Hij Ht. pose proof (zlookup_lt_Some _ _ _ He) as [Hi _].
  destruct (decide (i = 0)) as [->|].
  - intros k Hk. destruct (decide (k = 0)) as [->|]; [congruence|].
    rewrite !(proj2 (zlookup_None _ _)) by lia. done.
  - destruct (Hm i e) as [_ (q & L & HL & _ & Hag)]; [lia|done|].
    destruct (Hm' j e') as [_ (q' & L' & HL' & _ & Hag')]; [lia|done|].
    rewrite <-Ht, HL in HL'. injection HL' as <- <-.
    eapply agree_trans; [done|apply agree_sym; by eapply agree_mono].
Qed.

(** A leader appends an entry of its own term. *)
Lemma log_ok_snoc G t q L (c : option Cmd) :
  G !! t = Some (q, L) → 1 ≤ t → terms_le t L → log_ok G L →
  log_ok (<[t := (q, L ++ [mkEntry t c])]> G) (L ++ [mkEntry t c]).
Proof.
  intros HG Ht Hle Hok.
  assert (ghost_le G (<[t := (q, L ++ [mkEntry t c])]> G)) as Hgle
    by (eapply ghost_le_grow; [done|by eexists]).
  destruct Hok as [Hh Hs Hm]. pose proof (zlookup_lt_Some _ _ _ Hh) as Hb. constructor.
  - by rewrite zlookup_app_l by lia.
  - intros i j e e' Hij He He'. apply zlookup_snoc in He' as [[-> ->]|[Hj He']].
    + apply zlookup_snoc in He as [[-> ->]|[_ He]]; [done|by eapply Hle].
    + apply zlookup_snoc in He as [[-> ->]|[_ He]]; [lia|by eapply Hs].
  - intros i e Hi He. apply zlookup_snoc in He as [[-> ->]|[Hj He]]; cbn [le_Term].
    + split; [done|]. exists q, (L ++ [mkEntry t c]). rewrite lookup_insert_eq.
      split_and!; [done| |apply agree_refl]. rewrite glen_app, glen_cons, glen_nil. lia.
    + destruct (Hm i e Hi He) as [? Hc]. split; [done|]. eapply contains_ghost; [done|].
      eapply contains_agree; [|done]. by apply agree_prefix; [eexists|].
Qed.

Lemma terms_le_snoc t L (c : option Cmd) : terms_le t L → terms_le t (L ++ [mkEntry t c]).
Proof. intros Hle i e He. apply zlookup_snoc in He as [[_ ->]|[_ He]]; [done|by eapply Hle]. Qed.
End matching.

(** ** Accepting entries of a leader *)

Section accept.
Context {Cmd : Type}.
Implicit Types (l L F entries : list (LogEntry Cmd)) (e : LogEntry Cmd) (G : Ghost Cmd).

(** [entries] is the part of [L] that follows position [p]. *)
Definition slice_of (p : Z) entries L : Prop :=
  ∀ k e, entries !! k = Some e → L.[p + 1 + Z.of_nat k] = Some e.

Lemma zlookup_nat l (k : nat) : l.[Z.of_nat k] = l !! k.
Proof. unfold zlookup. case_if; [lia|]. by rewrite Nat2Z.id. Qed.

Lemma agree_len_full lg entries :
  (∀ k e, entries !! k = Some e → ∃ e', lg !! k = Some e' ∧ e'.(le_Term) = e.(le_Term)) →
  agree_len lg entries = length entries.
Proof.
  revert lg. induction entries as [|e entries IH]; intros lg Hall; [apply agree_len_nil_r|].
  destruct (Hall 0%nat e eq_refl) as (e' & He' & Ht). destruct lg as [|x lg]; [done|].
  injection He' as ->. cbn [agree_len]. rewrite Ht, Z.eqb_refl. cbn [length]. f_equal. apply IH.
  intros k y Hy. exact (Hall (S k) y Hy).
Qed.

Section merge_leader.
Context G (p : nat) entries F L.
Context (HF : log_ok G F) (HL : log_ok G L) (Hslice : slice_of (Z.of_nat p) entries L).
Context (Hprev : agree (Z.of_nat p) F L) (HlF : (p < length F)%nat) (HlL : (p < length L)%nat).

(** Every merged position agrees with the leader. *)
Lemma merge_agree_old k e :
  entries !! k = Some e → le_Term <$> F !! (S p + k)%nat = Some e.(le_Term) →
  agree (Z.of_nat (S p + k)) F L.
Proof.
  intros Hk Ht. apply Hslice in Hk as HLk. rewrite <-zlookup_nat in Ht.
  destruct (F.[Z.of_nat (S p + k)]) as [e'|] eqn:He'; [|done]. injection Ht as Ht.
  eapply matched_agree; [done..| |exact Ht]. rewrite <-HLk. f_equal. lia.
Qed.

(** The result is the old log, or the leader's up to the last new entry. *)
Lemma merge_cases :
  (merge_log (S p) entries F = F ∧ agree (Z.of_nat p + glen entries) F L) ∨
  merge_log (S p) entries F = take (S p + length entries) L.
Proof.
  assert (∀ k e, entries !! k = Some e → (k < agree_len (drop (S p) F) entries)%nat →
    agree (Z.of_nat (S p + k)) F L) as Hold.
  { intros k e Hk Hj. eapply merge_agree_old; [done|].
    pose proof (merge_log_terms (S p) entries F k e HlF Hk) as Ht. revert Ht. unfold merge_log.
    case_decide; [done|]. rewrite lookup_app_l, lookup_take_lt; [done|lia|].
    rewrite length_take. pose proof (agree_len_le (drop (S p) F) entries) as [Hl _].
    rewrite length_drop in Hl. lia. }
  pose proof (agree_len_le (drop (S p) F) entries) as [Hl Hle]. rewrite length_drop in Hl.
  set (j := agree_len (drop (S p) F) entries) in *.
  assert (agree (Z.of_nat p + Z.of_nat j) F L) as Hj.
  { destruct (decide (j = 0%nat)) as [E|]; [rewrite E, Z.add_0_r; apply Hprev|].
    destruct (lookup_lt_is_Some_2 entries (j - 1)) as [e He]; [lia|].
    eapply agree_mono; [|apply (Hold (j - 1)%nat e He)]; lia. }
  unfold merge_log. fold j. case_decide as Hfull.
  { left. split; [done|]. unfold glen. by rewrite <-Hfull. }
  right. apply list_eq_zlookup. intros i Hi.
  destruct (decide (i < Z.of_nat (S p + j))) as [Hlt|Hge].
  - rewrite zlookup_app_l by (unfold glen; rewrite length_take; lia).
    rewrite !zlookup_take by lia. apply Hj. lia.
  - rewrite zlookup_app_r by (unfold glen; rewrite length_take; lia).
    assert (glen (take (S p + j) F) = Z.of_nat (S p + j)) as ->
      by (unfold glen; rewrite length_take; lia).
    rewrite zlookup_drop by lia.
    replace (Z.of_nat j + (i - Z.of_nat (S p + j))) with (i - Z.of_nat (S p)) by lia.
    destruct (decide (i < Z.of_nat (S p + length entries))) as [Hin|Hout].
    + rewrite zlookup_take by lia.
      destruct (lookup_lt_is_Some_2 entries (Z.to_nat (i - Z.of_nat (S p)))) as [e He]; [lia|].
      assert (entries.[i - Z.of_nat (S p)] = Some e) as ->.
      { unfold zlookup. case_if; [lia|done]. }
      apply Hslice in He. rewrite <-He. f_equal. lia.
    + rewrite !(proj2 (zlookup_None _ _)); [done|right..].
      * unfold glen. rewrite length_take. lia.
      * unfold glen. lia.
Qed.

Lemma merge_agree : agree (Z.of_nat p + glen entries) (merge_log (S p) entries F) L.
Proof.
  destruct merge_cases as [[-> Hag]| ->]; [done|]. apply agree_take. unfold glen. lia.
Qed.

Lemma merge_log_ok : log_ok G (merge_log (S p) entries F).
Proof. destruct merge_cases as [[-> _]| ->]; [done|]. apply log_ok_take; [lia|done]. Qed.

Lemma merge_terms_le t : terms_le t F → terms_le t L → terms_le t (merge_log (S p) entries F).
Proof.
  intros HtF HtL. destruct merge_cases as [[-> _]| ->]; [done|]. intros i e He.
  apply (HtL i). rewrite <-He. symmetry. apply zlookup_take.
  apply zlookup_lt_Some in He. unfold glen in He. rewrite length_take in He. lia.
Qed.

(** What the follower already shares with the leader stays. *)
Lemma merge_keeps k e : L.[k] = Some e → agree k F L → agree k (merge_log (S p) entries F) L.
Proof.
  intros Hk Hag. destruct (decide (k < Z.of_nat (S p + length entries))) as [Hlt|Hge].
  { eapply agree_mono; [|apply merge_agree]. unfold glen. lia. }
  assert (merge_log (S p) entries F = F) as ->; [|done].
  unfold merge_log. rewrite decide_True; [done|]. apply agree_len_full. intros i x Hx.
  pose proof (lookup_lt_Some _ _ _ Hx) as Hi. apply Hslice in Hx.
  rewrite lookup_drop. rewrite <-zlookup_nat. exists x. split; [|done].
  rewrite Hag by lia. rewrite <-Hx. f_equal. lia.
Qed.
End merge_leader.

(** A message whose first entry is new: the leader's log is taken over, also by
    a log [F] that differs from it before the entry. *)
Section fresh_entries.
Context G (p : nat) entries F L.
Context (HL : log_ok G L) (Hslice : slice_of (Z.of_nat p) entries L).
Context (Hne : entries ≠ []) (Hfresh : agree_len (drop (S p) F) entries = 0%nat).

Lemma fresh_merge : (p < length F)%nat → drop (S p) (merge_log (S p) entries F) = entries.
Proof using Hne Hfresh.
  intros HpF. unfold merge_log. rewrite Hfresh. case_decide as Hd.
  { destruct Hne. by apply nil_length_inv. }
  rewrite Nat.add_0_r, drop_0. apply drop_app_length'. rewrite length_take. lia.
Qed.

Lemma fresh_drop : drop (S p) (take (S p + length entries) L) = entries.
Proof using Hslice.
  clear Hfresh. rewrite <-take_drop_commute. apply list_eq. intros k.
  destruct (decide (k < length entries)%nat) as [Hlt|Hge].
  - rewrite lookup_take_lt by done. rewrite lookup_drop.
    destruct (lookup_lt_is_Some_2 _ _ Hlt) as [e He]. rewrite He. apply Hslice in He.
    rewrite <-He, <-zlookup_nat. f_equal. lia.
  - rewrite lookup_take_ge by lia. symmetry. apply lookup_ge_None. lia.
Qed.

Lemma fresh_keeps k e :
  L.[k] = Some e → agree k F L → agree k (take (S p + length entries) L) L.
Proof.
  intros Hk Hag. apply agree_take. destruct (decide (k < Z.of_nat (S p))) as [|Hge]; [lia|]. exfalso.
  destruct entries as [|x xs] eqn:Hent; [done|].
  assert (L.[Z.of_nat p + 1] = Some x) as Hx by (rewrite <-(Hslice 0%nat x eq_refl); f_equal; lia).
  rewrite <-(Hag (Z.of_nat p + 1)) in Hx by lia.
  replace (Z.of_nat p + 1) with (Z.of_nat (S p)) in Hx by lia. rewrite zlookup_nat in Hx.
  rewrite (drop_S _ _ _ Hx) in Hfresh. cbn in Hfresh. by rewrite Z.eqb_refl in Hfresh.
Qed.
End fresh_entries.

(** Entries that were there already show that both logs agree before them. *)
Lemma known_entries_agree G p entries F L :
  log_ok G F → log_ok G L → slice_of (Z.of_nat p) entries L →
  agree_len (drop (S p) F) entries ≠ 0%nat → agree (Z.of_nat p) F L.
Proof.
  intros HF HL Hslice Hlen. destruct (drop (S p) F) as [|y ys] eqn:Hd; [done|].
  destruct entries as [|x xs]; [done|]. cbn in Hlen. destruct (Z.eqb_spec y.(le_Term) x.(le_Term)) as [E|]; [|done].
  assert (F !! S p = Some y) as Hy.
  { rewrite <-(Nat.add_0_r (S p)), <-lookup_drop, Hd. done. }
  rewrite <-zlookup_nat in Hy.
  assert (L.[Z.of_nat (S p)] = Some x) as Hx by (rewrite <-(Hslice 0%nat x eq_refl); f_equal; lia).
  eapply agree_mono; [|eapply (matched_agree G F L); [done..|exact Hy|exact Hx|done]]. lia.
Qed.
End accept.
