(* ===== verification/RaftSafety.v ===== *)
(** * State machine safety: the invariant

    What makes committed entries permanent. The proof has ghost state that is
    not part of the program: [G], the leader logs of [RaftMatching.v]; [A], who
    acknowledged which index in which term; and for every peer its [virtual]
    log [F], the entries it would hold if none had been compacted. [F] decides
    elections and is always matched. The peer's own log is the end of [F] after
    [snapshotIndex]; what its snapshot covers is [settled] (chosen for good),
    but need not be what [F] has there: [InstallSnapshot] keeps the entries
    after the snapshot without comparing the one at its index.

    A server has [acked] index [k] in term [t] if it was the leader of [t] with
    that much log or has answered the leader so; an index of a term [t] is
    [chosen] once a majority has acked it, and it can no longer be once a
    majority has moved past [t] without acking it ([nochoose]). The invariant
    says of every log, message and vote that may lead to a later leader that it
    contains the leader's log of [t] up to [k], or that [t] and [k] will not be
    chosen. The facts about a peer, a packet, an election, a captured heartbeat
    and a leader log are separate predicates, and [ext] is what a step of the
    cluster may change without invalidating the ones it does not touch. *)

From S2P Require Import Prelude Gob Persister Raft RaftNode RaftSpec RaftLog RaftCluster RaftMatching.
From Stdlib Require Import Strings.Byte.

(** Server, term and index of an acknowledgement. *)
Abbreviation Acks := (list (Z * Z * Z)).

Section safety.
Context {Cmd : Type} `{GobLaws Z, GobLaws (list (LogEntry Cmd))}.
Implicit Types (c : Cluster Cmd) (rf : Raft Cmd) (A : Acks) (G : Ghost Cmd).
Implicit Types (l L F : list (LogEntry Cmd)) (t k : Z).

(** ** The virtual log and a candidate's claims *)

Record virtual rf F : Prop := {
  vi_log : drop 1 rf.(log) = drop (S (Z.to_nat rf.(snapshotIndex))) F;
  vi_len : 0 ≤ rf.(snapshotIndex) < glen F;
  vi_pos : 0 < glen rf.(log);
}.

Definition last_term rf : option Z := le_Term <$> rf.(log).[glen rf.(log) - 1].

(** What the peer would write into a vote request. *)
Definition claims rf : option Z * Z := (last_term rf, lastLogIndex rf).

(** ** Acknowledgements and quorums *)

Definition acked A G (q t k : Z) : Prop :=
  (∃ k', (q, t, k') ∈ A ∧ k ≤ k') ∨ (∃ L, G !! t = Some (q, L) ∧ k < glen L).

Definition quorum (n : Z) (Q : list Z) : Prop :=
  NoDup Q ∧ (∀ v, v ∈ Q → 0 ≤ v < n) ∧ n / 2 < glen Q.

Definition at_least c (v t : Z) : Prop := ∃ rf, c.(nodes) !! v = Some rf ∧ t ≤ rf.(currentTerm).

(** The entry the leader of [t] has at [k] is of term [u]. *)
Definition term_in G t k u : Prop := ∃ q L e, G !! t = Some (q, L) ∧ L.[k] = Some e ∧ e.(le_Term) = u.
Definition at_term G t k : Prop := term_in G t k t.

Definition chosen (n : Z) A G t k : Prop :=
  at_term G t k ∧ ∃ Q, quorum n Q ∧ ∀ v, v ∈ Q → acked A G v t k.

Definition nochoose (n : Z) c A G t k : Prop :=
  ∃ Q, quorum n Q ∧ ∀ v, v ∈ Q → at_least c v (t + 1) ∧ ¬ acked A G v t k.

(** [l] is no obstacle to choosing [k] in [t]. *)
Definition safe (n : Z) c A G l t k : Prop := contains G l t k ∨ nochoose n c A G t k.

(** Everything up to [k] of a log [l] of term [T] is chosen. *)
Definition committed_to (n : Z) A G l (T k : Z) : Prop :=
  k ≤ 0 ∨ ∃ t k', chosen n A G t k' ∧ k ≤ k' ∧ t ≤ T ∧ contains G l t k.

(** What a snapshot up to [si] covers is chosen, and [st], which is meant to be
    the term of its last entry, is the term of a chosen entry at or after it. *)
Definition settled (n : Z) A G (T si st : Z) : Prop :=
  (si = 0 ∧ st = 0) ∨
  ∃ t k s, chosen n A G t k ∧ t ≤ T ∧ si ≤ s ≤ k ∧ term_in G t s st.

(** The peer has everything up to [k], in its snapshot or in its log. *)
Definition within (n : Z) A G rf F k : Prop :=
  k ≤ rf.(snapshotIndex) ∨ committed_to n A G F rf.(currentTerm) k.

(** [(t, k)] is not after [(lt, li)] in the order of the election rule. *)
Definition not_after t k (lt li : Z) : Prop := t < lt ∨ t = lt ∧ k ≤ li.

(** [v] has voted in [t], or moved on, for a candidate with last index [li]
    and last term [lt]: whatever it acked before [t] is not after that. *)
Definition ballot (n : Z) c A G (v t lt li : Z) : Prop :=
  0 ≤ v < n ∧ at_least c v t ∧
  ∀ t0 k, t0 < t → at_term G t0 k → acked A G v t0 k → nochoose n c A G t0 k ∨ not_after t0 k lt li.

(** ** The invariant *)

Record node_safe (n : Z) c A G (i : Z) rf F : Prop := {
  ns_virtual : virtual rf F;
  ns_snap : rf.(snapshotIndex) = 0 ∨ 2 ≤ rf.(snapshotIndex);
  ns_settled : settled n A G rf.(currentTerm) rf.(snapshotIndex) rf.(snapshotTerm);
  ns_prefix : committed_to n A G F rf.(currentTerm) rf.(snapshotIndex) ∨ rf.(snapshotIndex) + 1 < glen F;
  ns_log : log_ok G F;
  ns_terms : terms_le rf.(currentTerm) F ∧ 0 ≤ rf.(currentTerm);
  ns_leader : rf.(state) = Leader → G !! rf.(currentTerm) = Some (i, F);
  ns_candidate : rf.(state) = Candidate →
    1 ≤ rf.(currentTerm) ∧ terms_le (rf.(currentTerm) - 1) F ∧
    ∀ L, G !! rf.(currentTerm) ≠ Some (i, L);
  ns_acked : ∀ t k, acked A G i t k →
    t ≤ rf.(currentTerm) ∧ (at_term G t k → safe n c A G F t k);
  ns_match : rf.(state) = Leader → ∀ srv m,
    rf.(matchIndex).[srv] = Some m → 1 ≤ m → srv ≠ i →
    acked A G srv rf.(currentTerm) m ∨ committed_to n A G F rf.(currentTerm) m;
  ns_commit : within n A G rf F rf.(commitIndex);
  ns_applied : within n A G rf F rf.(lastApplied);
}.

Record ghost_safe (n : Z) (V : history) c A G t (q : Z) L : Prop := {
  gs_log : log_ok G L;
  gs_terms : terms_le t L ∧ 1 ≤ t;
  gs_elected : ∃ voters, majority n V t q voters ∧ n / 2 < glen voters;
  gs_term : at_least c q t;
  gs_safe : ∀ t0 k, t0 < t → at_term G t0 k → safe n c A G L t0 k;
}.

(** The new entries follow the one at [PrevLogIndex], and [PrevLogTerm] is the
    term of an entry at or after that one (a leader that compacted its log may
    name a later one); or the message cannot be accepted. *)
Definition aligned (m : AppendEntriesArgs Cmd) L : Prop :=
  (0 ≤ m.(PrevLogIndex) < glen L ∧ slice_of m.(PrevLogIndex) m.(Entries) L ∧
   ∃ s e, m.(PrevLogIndex) ≤ s ∧ L.[s] = Some e ∧ e.(le_Term) = m.(PrevLogTerm)) ∨
  m.(PrevLogIndex) < 0 ∨ (1 ≤ m.(PrevLogIndex) ∧ m.(PrevLogTerm) = 0).

(** What a message of candidate [cand] in term [t] says while the election
    lasts. *)
Definition while_candidate c (cand t : Z) (P : option Z * Z → Prop) : Prop :=
  ∀ rf, c.(nodes) !! cand = Some rf → t ≤ rf.(currentTerm) ∧
    (rf.(state) = Candidate → rf.(currentTerm) = t → P (claims rf)).

(** A snapshot of a leader with log [L] in term [T]. *)
Definition snapshot_of (n : Z) A G L (T idx term : Z) : Prop :=
  idx ≤ 0 ∨ 2 ≤ idx ∧ committed_to n A G L T idx ∧
    ∃ s e, idx ≤ s ∧ L.[s] = Some e ∧ e.(le_Term) = term ∧ committed_to n A G L T s.

Definition packet_safe (n : Z) c A G (p : Packet Cmd) : Prop :=
  match p with
  | RVReq _ args => while_candidate c args.(CandidateId) args.(rv_Term)
      (λ cl, cl = (Some args.(LastLogTerm), args.(LastLogIndex)))
  | RVRep src args reply =>
      while_candidate c args.(CandidateId) args.(rv_Term)
        (λ cl, cl = (Some args.(LastLogTerm), args.(LastLogIndex))) ∧
      (reply.(VoteGranted) = true → ballot n c A G src args.(rv_Term) args.(LastLogTerm) args.(LastLogIndex))
  | AEReq _ m => ∃ q L, G !! m.(ae_Term) = Some (q, L) ∧ aligned m L ∧
      committed_to n A G L m.(ae_Term) m.(LeaderCommit)
  | AERep src m reply => reply.(Success) = true →
      ∃ q L, G !! m.(ae_Term) = Some (q, L) ∧
        (acked A G src m.(ae_Term) (m.(PrevLogIndex) + glen m.(Entries)) ∨
         committed_to n A G L m.(ae_Term) (m.(PrevLogIndex) + glen m.(Entries)))
  | ISReq _ args => ∃ q L, G !! args.(is_Term) = Some (q, L) ∧
      snapshot_of n A G L args.(is_Term) args.(LastIncludedIndex) args.(LastIncludedTerm)
  | ISRep _ args _ => ∃ q L, G !! args.(is_Term) = Some (q, L) ∧
      committed_to n A G L args.(is_Term) args.(LastIncludedIndex)
  end.

Definition heartbeat_safe (n : Z) c A G (i : Z) (hb : HeartbeatCtx) : Prop :=
  (hb.(hb_snapshotIndex) = 0 ∨ 2 ≤ hb.(hb_snapshotIndex)) ∧
  (∀ rf, c.(nodes) !! i = Some rf → hb.(hb_snapshotIndex) ≤ rf.(snapshotIndex)) ∧
  ∃ q L, G !! hb.(hb_currentTerm) = Some (q, L) ∧
    committed_to n A G L hb.(hb_currentTerm) hb.(hb_commitIndex).

Definition election_safe (n : Z) c A G (key : Z * Z) (el : Election) : Prop :=
  while_candidate c key.1 key.2 (λ cl, ∃ lt voters, cl.1 = Some lt ∧
    NoDup voters ∧ glen voters = el.(el_votes) ∧
    (∀ v, v ∈ el.(el_waiting) → v ∉ voters) ∧ ∀ v, v ∈ voters → ballot n c A G v key.2 lt cl.2).

Record safety_inv (n : Z) (V : history) A G c : Prop := {
  si_nodes : ∀ i rf, c.(nodes) !! i = Some rf → ∃ F, node_safe n c A G i rf F;
  si_acks : ∀ q t k, (q, t, k) ∈ A → ∃ q' L, G !! t = Some (q', L) ∧ k < glen L;
  si_ghost : ∀ t q L, G !! t = Some (q, L) → ghost_safe n V c A G t q L;
  si_net : ∀ p, p ∈ c.(net) → packet_safe n c A G p;
  si_heartbeats : ∀ i hb, (i, hb) ∈ c.(heartbeats) → heartbeat_safe n c A G i hb;
  si_elections : ∀ key el, c.(elections) !! key = Some el → election_safe n c A G key el;
}.

(** ** Elementary facts *)

Lemma virtual_length rf F : virtual rf F → lastLogIndex rf = glen F - 1.
Proof.
  intros [Hl Hlen Hpos]. apply (f_equal length) in Hl. rewrite !length_drop in Hl.
  unfold lastLogIndex, glen in *. lia.
Qed.

Lemma virtual_entry rf F k : virtual rf F → rf.(snapshotIndex) < k → entry_at rf k = F.[k].
Proof.
  intros [Hl Hlen Hpos] Hk. unfold entry_at.
  assert ((drop 1 rf.(log)).[k - rf.(snapshotIndex) - 1] = F.[k]) as <-.
  { rewrite Hl, zlookup_drop by lia. f_equal. lia. }
  rewrite zlookup_drop by lia. f_equal. lia.
Qed.

(** Whether an acknowledgement is recorded. *)
Definition ackedb A G (q t k : Z) : bool :=
  existsb (λ a, bool_decide (a.1 = (q, t)) && (k <=? a.2)) A ||
  match G !! t with Some (q', L) => (q' =? q) && (k <? glen L) | None => false end.

Lemma ackedb_spec A G q t k : ackedb A G q t k = true ↔ acked A G q t k.
Proof.
  unfold ackedb, acked. rewrite orb_true_iff, existsb_exists. f_equiv.
  - split.
    + intros ([qt k'] & Hin%list_elem_of_In & [Ha%bool_decide_eq_true Hk%Z.leb_le]%andb_true_iff).
      cbn in Ha, Hk. subst qt. by exists k'.
    + intros (k' & Hin & Hk). exists (q, t, k'). split; [by apply list_elem_of_In|]. cbn.
      rewrite bool_decide_eq_true_2 by done. by apply Z.leb_le.
  - split.
    + destruct (G !! t) as [[q' L]|]; [|done].
      intros [->%Z.eqb_eq ?%Z.ltb_lt]%andb_true_iff. by exists L.
    + intros (L & -> & Hk). rewrite Z.eqb_refl. by apply Z.ltb_lt.
Qed.

#[export] Instance acked_dec A G q t k : Decision (acked A G q t k).
Proof. refine (cast_if (decide (ackedb A G q t k = true))); by rewrite <-ackedb_spec. Defined.

Lemma acked_le A G q t k k' : k' ≤ k → acked A G q t k → acked A G q t k'.
Proof.
  intros Hk [(k0 & Hin & Hle)|(L & HL & Hlt)]; [left|right].
  - exists k0. split; [done|lia].
  - exists L. split; [done|lia].
Qed.

Lemma acked_cons A G q t k q0 t0 k0 :
  acked ((q0, t0, k0) :: A) G q t k → acked A G q t k ∨ q = q0 ∧ t = t0 ∧ k ≤ k0.
Proof.
  intros [(k' & [[= -> -> ->]|Hin]%elem_of_cons & Hk)|?]; [by right|left; left; by exists k'|left; by right].
Qed.

Lemma acked_bound n V A G c q t k :
  safety_inv n V A G c → acked A G q t k → ∃ q' L, G !! t = Some (q', L) ∧ k < glen L.
Proof.
  intros Hinv [(k' & Hin & Hle)|(L & HL & Hlt)]; [|by eauto].
  destruct (si_acks _ _ _ _ _ Hinv _ _ _ Hin) as (q' & L & HL & Hlt). exists q', L. split; [done|lia].
Qed.

Lemma chosen_nochoose n c A G t k : 0 ≤ n → chosen n A G t k → nochoose n c A G t k → False.
Proof.
  intros Hn (_ & Q & (Hnd & Hr & Hq) & Hack) (Q' & (Hnd' & Hr' & Hq') & Hno).
  destruct (quorums_intersect n Q Q') as (v & Hv & Hv'); [done..|].
  destruct (Hno v Hv') as [_ []]. auto.
Qed.

Lemma term_in_bounds n V A G c t k u : safety_inv n V A G c → term_in G t k u → 0 ≤ k ∧ u ≤ t ∧ (1 ≤ k → 1 ≤ u).
Proof.
  intros Hinv (q & L & e & HL & He & <-).
  destruct (si_ghost _ _ _ _ _ Hinv _ _ _ HL) as [Hok [Hle _] _ _ _].
  pose proof (zlookup_lt_Some _ _ _ He). split; [lia|]. split; [by eapply Hle|].
  intros Hk. by destruct (lo_matched _ _ Hok k e).
Qed.

Lemma at_term_pos n V A G c t k : safety_inv n V A G c → at_term G t k → 1 ≤ t ∧ 1 ≤ k.
Proof.
  intros Hinv (q & L & e & HL & He & Ht). destruct (si_ghost _ _ _ _ _ Hinv _ _ _ HL) as [Hok [_ Hpos] _ _ _].
  split; [done|]. pose proof (zlookup_lt_Some _ _ _ He). destruct (decide (k = 0)) as [->|]; [|lia].
  rewrite (lo_head _ _ Hok) in He. injection He as <-. cbn in Ht. lia.
Qed.

Lemma contains_entry G l t k : contains G l t k → 0 ≤ k → ∃ e, l.[k] = Some e.
Proof.
  intros (q & L & HL & Hk & Hag) Hk0. destruct (zlookup_is_Some L k) as [e He]; [lia|].
  exists e. by rewrite Hag.
Qed.

Lemma contains_length G l t k : contains G l t k → 0 ≤ k → k < glen l.
Proof. intros Hc Hk. destruct (contains_entry _ _ _ _ Hc Hk) as [e He%zlookup_lt_Some]. lia. Qed.

Lemma contains_le G l t k k' : k' ≤ k → contains G l t k → contains G l t k'.
Proof.
  intros Hk (q & L & HL & Hlt & Hag). exists q, L. split_and!; [done|lia|by eapply agree_mono].
Qed.

Lemma contains_own G t q L k : G !! t = Some (q, L) → k < glen L → contains G L t k.
Proof. intros HL Hk. exists q, L. split_and!; [done..|apply agree_refl]. Qed.

Lemma contains_grow G l l' t k : l `prefix_of` l' → contains G l t k → contains G l' t k.
Proof.
  intros Hp Hc. destruct (decide (k < glen l)) as [Hlt|Hge].
  { eapply contains_agree; [|done]. by apply agree_prefix. }
  destruct (decide (0 ≤ k)) as [Hk|Hk].
  - pose proof (contains_length _ _ _ _ Hc Hk). lia.
  - destruct Hc as (q & L & HL & Hlt & _). exists q, L. split_and!; [done..|]. intros i Hi.
    rewrite !(proj2 (zlookup_None _ _)) by lia. done.
Qed.

Lemma contains_take G l t k (m : nat) : k < Z.of_nat m → contains G l t k → contains G (take m l) t k.
Proof. intros Hk. apply contains_agree, agree_sym. by apply agree_take. Qed.

(** An entry a log shares with a leader has the same term there. *)
Lemma contains_term G l t k s e u :
  contains G l t k → s ≤ k → l.[s] = Some e → e.(le_Term) = u → term_in G t s u.
Proof. intros (q & L & HL & _ & Hag) Hs He Hu. exists q, L, e. by rewrite <-Hag. Qed.

Lemma term_in_contains G l t k s u :
  contains G l t k → s ≤ k → term_in G t s u → ∃ e, l.[s] = Some e ∧ e.(le_Term) = u.
Proof.
  intros (q & L & HL & _ & Hag) Hs (q' & L' & e & HL' & He & Hu). rewrite HL in HL'.
  injection HL' as <- <-. exists e. by rewrite Hag.
Qed.

Lemma committed_to_le n A G l T T' k k' :
  k' ≤ k → T ≤ T' → committed_to n A G l T k → committed_to n A G l T' k'.
Proof.
  intros Hk HT [?|(t & k0 & Hch & Hle & Ht & Hc)]; [left; lia|right].
  exists t, k0. split_and!; [done|lia|lia|by eapply contains_le].
Qed.

Lemma committed_to_grow n A G l l' T k :
  l `prefix_of` l' → committed_to n A G l T k → committed_to n A G l' T k.
Proof.
  intros Hp [?|(t & k0 & Hch & Hle & Ht & Hc)]; [by left|right].
  exists t, k0. split_and!; [done..|]. by eapply contains_grow.
Qed.

Lemma committed_to_agree n A G l l' T k : agree k l l' → committed_to n A G l T k → committed_to n A G l' T k.
Proof.
  intros Hag [?|(t & k0 & Hch & Hle & Ht & Hc)]; [by left|right].
  exists t, k0. split_and!; [done..|by eapply contains_agree].
Qed.

Lemma committed_to_length n A G l T k : committed_to n A G l T k → 0 < k → k < glen l.
Proof. intros [?|(t & k0 & _ & _ & _ & Hc)] Hk; [lia|]. eapply contains_length; [done|lia]. Qed.

Lemma settled_le n A G T T' si st : T ≤ T' → settled n A G T si st → settled n A G T' si st.
Proof.
  intros HT [?|(t & k & s & Hch & Ht & Hs & Hin)]; [by left|right]. exists t, k, s. split_and!; done || lia.
Qed.

Lemma within_le n A G rf rf' F k k' :
  k' ≤ Z.max k rf'.(snapshotIndex) → rf.(snapshotIndex) ≤ rf'.(snapshotIndex) →
  rf.(currentTerm) ≤ rf'.(currentTerm) → within n A G rf F k → within n A G rf' F k'.
Proof.
  intros Hk Hs Ht Hw. destruct (decide (k' ≤ rf'.(snapshotIndex))); [by left|].
  destruct Hw as [?|Hw]; [lia|right]. eapply committed_to_le; [..|exact Hw]; lia.
Qed.

Lemma aligned_grow m L L' : L `prefix_of` L' → aligned m L → aligned m L'.
Proof.
  intros Hp [(Hb & Hs & s & e & Hle & He & Ht)|?]; [left|by right].
  pose proof (prefix_length _ _ Hp). split; [unfold glen in *; lia|]. split.
  - intros i x Hx%Hs. by eapply zlookup_prefix.
  - exists s, e. split_and!; [done|by eapply zlookup_prefix|done].
Qed.

Lemma snapshot_of_grow n A G L L' T idx term :
  L `prefix_of` L' → snapshot_of n A G L T idx term → snapshot_of n A G L' T idx term.
Proof.
  intros Hp [?|(Hi & Hc & s & e & Hle & He & Ht & Hs)]; [by left|right]. split_and!; [done|by eapply committed_to_grow|].
  exists s, e. split_and!; [done|by eapply zlookup_prefix|done|by eapply committed_to_grow].
Qed.

(** ** What a step may change *)

(** A peer's term and snapshot grow; if it is a candidate afterwards, the
    election is new or it was a candidate with the same claims before. *)
Definition node_le rf rf' : Prop :=
  rf.(currentTerm) ≤ rf'.(currentTerm) ∧ rf.(snapshotIndex) ≤ rf'.(snapshotIndex) ∧
  (rf'.(state) = Candidate → rf.(currentTerm) < rf'.(currentTerm) ∨
     rf.(state) = Candidate ∧ claims rf' = claims rf).

Lemma node_le_refl rf : node_le rf rf.
Proof. split; [lia|]. split; [lia|auto]. Qed.

Record ext c A G c' A' G' : Prop := {
  ex_ghost : ghost_le G G';
  ex_acks : A ⊆ A';
  ex_fwd : ∀ v rf, c.(nodes) !! v = Some rf → ∃ rf', c'.(nodes) !! v = Some rf' ∧ node_le rf rf';
  ex_bwd : ∀ v rf', c'.(nodes) !! v = Some rf' → ∃ rf, c.(nodes) !! v = Some rf ∧ node_le rf rf';
  (* only a peer still in the term acks in it *)
  ex_acked : ∀ v t k, acked A' G' v t k → acked A G v t k ∨ ¬ at_least c' v (t + 1);
  (* a new entry is acked by its leader alone *)
  ex_at : ∀ t k, at_term G' t k → at_term G t k ∨
    ∃ q, ¬ at_least c' q (t + 1) ∧ ∀ v, acked A' G' v t k → v = q;
}.

Section ghost_frame.
Context (n : Z) A A' G G' (HG : ghost_le G G') (HA : A ⊆ A').

Lemma acked_mono q t k : acked A G q t k → acked A' G' q t k.
Proof using HG HA.
  intros [(k' & Hin & Hk)|(L & HL & Hk)]; [left|right].
  - exists k'. split; [by apply HA|done].
  - destruct (HG _ _ _ HL) as (L' & HL' & Hp%prefix_length).
    exists L'. split; [done|]. unfold glen in *. lia.
Qed.

Lemma term_in_mono t k u : term_in G t k u → term_in G' t k u.
Proof using HG.
  intros (q & L & e & HL & He & Ht). destruct (HG _ _ _ HL) as (L' & HL' & Hp).
  exists q, L', e. split_and!; [done|by eapply zlookup_prefix|done].
Qed.

Lemma chosen_mono t k : chosen n A G t k → chosen n A' G' t k.
Proof using HG HA.
  intros (Hat & Q & HQ & Hack). split; [by apply term_in_mono|]. exists Q. split; [done|].
  intros v Hv. by apply acked_mono, Hack.
Qed.

Lemma committed_to_mono l T k : committed_to n A G l T k → committed_to n A' G' l T k.
Proof using HG HA.
  intros [?|(t & k0 & Hch & Hle & Ht & Hc)]; [by left|right]. exists t, k0.
  split_and!; [by apply chosen_mono|done..|by eapply contains_ghost].
Qed.

Lemma settled_mono T si st : settled n A G T si st → settled n A' G' T si st.
Proof using HG HA.
  intros [?|(t & k & s & Hch & Ht & Hs & Hin)]; [by left|right]. exists t, k, s.
  split_and!; [by apply chosen_mono|done|lia|lia|by apply term_in_mono].
Qed.

Lemma within_mono rf F k : within n A G rf F k → within n A' G' rf F k.
Proof using HG HA. intros [?|?]; [by left|right]. by apply committed_to_mono. Qed.

Lemma snapshot_of_mono L T idx term : snapshot_of n A G L T idx term → snapshot_of n A' G' L T idx term.
Proof using HG HA.
  intros [?|(Hi & Hc & s & e & Hle & He & Ht & Hs)]; [by left|right].
  split_and!; [done|by apply committed_to_mono|].
  exists s, e. split_and!; [done..|by apply committed_to_mono].
Qed.

(** The log of a term's leader may have grown. *)
Lemma leader_log_mono t q L (P P' : list (LogEntry Cmd) → Prop) :
  G !! t = Some (q, L) → P L → (∀ L', L `prefix_of` L' → P L → P' L') →
  ∃ q' L', G' !! t = Some (q', L') ∧ P' L'.
Proof using HG.
  intros HL HP HPP. destruct (HG _ _ _ HL) as (L' & HL' & Hp). exists q, L'. auto.
Qed.
End ghost_frame.

Section frame.
Context (n : Z) (V V' : history) c A G c' A' G'.
Context (Hinv : safety_inv n V A G c) (Hext : ext c A G c' A' G') (HV : V ⊆ V').

Let HG : ghost_le G G' := ex_ghost _ _ _ _ _ _ Hext.
Let HA : A ⊆ A' := ex_acks _ _ _ _ _ _ Hext.
Let Hacked := acked_mono A A' G G' HG HA.
Let Hcommitted := committed_to_mono n A A' G G' HG HA.
Let Hsettled := settled_mono n A A' G G' HG HA.
Let Hwithin := within_mono n A A' G G' HG HA.
Let Hsnapshot := snapshot_of_mono n A A' G G' HG HA.

Lemma at_least_ext v t : at_least c v t → at_least c' v t.
Proof.
  intros (rf & Hv & Ht). destruct (ex_fwd _ _ _ _ _ _ Hext _ _ Hv) as (rf' & Hv' & Hle & _).
  exists rf'. split; [done|lia].
Qed.

(** An index acked before the step is of the same term after it. *)
Lemma at_term_acked v t k : acked A G v t k → at_term G' t k → at_term G t k.
Proof.
  intros Hack (q' & L' & e & HL' & He & Ht).
  destruct (acked_bound _ _ _ _ _ _ _ _ Hinv Hack) as (q & L & HL & Hk).
  destruct (HG _ _ _ HL) as (L2 & HL2 & Hp). rewrite HL' in HL2.
  injection HL2 as <- <-. exists q', L, e. split_and!; [done| |done].
  pose proof (zlookup_lt_Some _ _ _ He). rewrite <-He. by apply (agree_prefix k); [..|lia].
Qed.

Lemma nochoose_ext t k : nochoose n c A G t k → nochoose n c' A' G' t k.
Proof.
  intros (Q & HQ & Hno). exists Q. split; [done|]. intros v Hv. destruct (Hno v Hv) as [Hat Hna].
  apply at_least_ext in Hat. split; [done|]. intros [?|?]%(ex_acked _ _ _ _ _ _ Hext); done.
Qed.

Lemma safe_ext l t k : safe n c A G l t k → safe n c' A' G' l t k.
Proof. intros [?|?]; [left|right; by apply nochoose_ext]. by eapply contains_ghost. Qed.

Lemma ballot_ext v t lt li : ballot n c A G v t lt li → ballot n c' A' G' v t lt li.
Proof.
  intros (Hr & Hat & Hall). split; [done|]. split; [by apply at_least_ext|].
  intros t0 k Ht Hat' Hack. apply (ex_acked _ _ _ _ _ _ Hext) in Hack as [Hack|Hno].
  - destruct (Hall t0 k) as [?|?]; [done|by eapply at_term_acked|done|left; by apply nochoose_ext|by right].
  - destruct Hno. apply at_least_ext in Hat as (rf & Hv & Hle). exists rf. split; [done|lia].
Qed.

Lemma while_candidate_ext cand t (P P' : option Z * Z → Prop) :
  (∀ cl, P cl → P' cl) → while_candidate c cand t P → while_candidate c' cand t P'.
Proof.
  intros HP Hw rf' Hrf'. destruct (ex_bwd _ _ _ _ _ _ Hext _ _ Hrf') as (rf & Hrf & Hle & _ & Hc).
  destruct (Hw rf Hrf) as [Ht Hp]. split; [lia|]. intros Hst HT.
  destruct (Hc Hst) as [?|(Hst' & ->)]; [lia|]. apply HP, Hp; [done|lia].
Qed.

Lemma packet_safe_ext p : packet_safe n c A G p → packet_safe n c' A' G' p.
Proof.
  destruct p as [dst args|src args reply|dst m|src m reply|dst a|src a r]; simpl.
  - by apply while_candidate_ext.
  - intros [Hw Hb]. split; [by eapply while_candidate_ext; [|exact Hw]|]. intros Hg. by apply ballot_ext, Hb.
  - intros (q & L & HL & Ha & Hc). destruct (HG _ _ _ HL) as (L' & HL' & Hp).
    exists q, L'. split_and!; [done|by eapply aligned_grow|].
    eapply committed_to_grow; [done|by apply Hcommitted].
  - intros Hs Hr. destruct (Hs Hr) as (q & L & HL & Hk). destruct (HG _ _ _ HL) as (L' & HL' & Hp).
    exists q, L'. split; [done|]. destruct Hk as [?|?]; [left; by apply Hacked|right].
    eapply committed_to_grow; [done|by apply Hcommitted].
  - intros (q & L & HL & Hs). destruct (HG _ _ _ HL) as (L' & HL' & Hp). exists q, L'. split; [done|].
    eapply snapshot_of_grow; [done|by apply Hsnapshot].
  - intros (q & L & HL & Hs). destruct (HG _ _ _ HL) as (L' & HL' & Hp). exists q, L'. split; [done|].
    eapply committed_to_grow; [done|by apply Hcommitted].
Qed.

Lemma heartbeat_safe_ext i hb : heartbeat_safe n c A G i hb → heartbeat_safe n c' A' G' i hb.
Proof.
  intros (Hs & Hle & q & L & HL & Hc). destruct (HG _ _ _ HL) as (L' & HL' & Hp).
  split; [done|]. split.
  - intros rf' Hrf'. destruct (ex_bwd _ _ _ _ _ _ Hext _ _ Hrf') as (rf & Hrf & _ & Hsi & _).
    specialize (Hle rf Hrf). lia.
  - exists q, L'. split; [done|]. eapply committed_to_grow; [done|by apply Hcommitted].
Qed.

Lemma election_safe_ext key el : election_safe n c A G key el → election_safe n c' A' G' key el.
Proof.
  apply while_candidate_ext. intros cl (lt & vs & Hcl & Hnd & Hlen & Hw & Hb). exists lt, vs.
  split_and!; [done..|]. intros v Hv. by apply ballot_ext, Hb.
Qed.

Lemma ghost_safe_ext t q L :
  cluster_inv n V' c' → ghost_safe n V c A G t q L → ghost_safe n V' c' A' G' t q L.
Proof.
  intros Hci [Hok Hle (vs & Hm & Hvs) Hat Hsafe]. apply (majority_mono _ _ V') in Hm; [|done].
  constructor; [|done|by exists vs|by apply at_least_ext|].
  { by eapply log_ok_ghost. }
  intros t0 k Ht Hat'. destruct (ex_at _ _ _ _ _ _ Hext _ _ Hat') as [?|(q0 & Hq0 & Hall)].
  { by apply safe_ext, Hsafe. }
  right. destruct Hm as [Hnd Hm]. exists vs. split; [split_and!; [done|naive_solver|done]|].
  intros v Hv. destruct (Hm v Hv) as [Hr HvV].
  assert (at_least c' v (t0 + 1)) as Hpast.
  { destruct (ci_votes _ _ _ Hci _ HvV) as (_ & rf & Hrf & Hle' & _). exists rf. split; [done|lia]. }
  split; [done|]. intros Hack. apply Hall in Hack as ->. done.
Qed.

Lemma node_safe_ext i rf F :
  (∀ t k, acked A' G' i t k → acked A G i t k) →
  (rf.(state) ≠ Follower → ∀ L,
     G' !! rf.(currentTerm) = Some (i, L) ↔ G !! rf.(currentTerm) = Some (i, L)) →
  node_safe n c A G i rf F → node_safe n c' A' G' i rf F.
Proof.
  intros Hacks Hghost [Hvi Hs Hset Hpre Hlog Ht Hl Hc Hack Hm Hcom Hap]. constructor; try done.
  - by apply Hsettled.
  - destruct Hpre; [left|by right]. by apply Hcommitted.
  - by eapply log_ok_ghost.
  - intros Hst. apply Hghost; [by rewrite Hst|auto].
  - intros Hst. destruct (Hc Hst) as (? & ? & Hno). split_and!; [done..|].
    intros L HL. apply Hghost in HL; [by eapply Hno|by rewrite Hst].
  - intros t k Hk%Hacks. destruct (Hack t k Hk) as [? Hsafe]. split; [done|]. intros Hat.
    apply safe_ext, Hsafe. by eapply at_term_acked.
  - intros Hst srv m Hsrv Hm1 Hne.
    destruct (Hm Hst srv m Hsrv Hm1 Hne); [left; by apply Hacked|right; by apply Hcommitted].
  - by apply Hwithin.
  - by apply Hwithin.
Qed.

(** The invariant after a step, from what the step changed. *)
Lemma safety_step :
  cluster_inv n V' c' →
  (∀ i rf', c'.(nodes) !! i = Some rf' → c.(nodes) !! i = Some rf' ∧
     (∀ t k, acked A' G' i t k → acked A G i t k) ∧
     (rf'.(state) ≠ Follower → ∀ L,
        G' !! rf'.(currentTerm) = Some (i, L) ↔ G !! rf'.(currentTerm) = Some (i, L)) ∨
     ∃ F, node_safe n c' A' G' i rf' F) →
  (∀ q t k, (q, t, k) ∈ A' → (q, t, k) ∈ A ∨ ∃ q' L, G' !! t = Some (q', L) ∧ k < glen L) →
  (∀ t q L, G' !! t = Some (q, L) → G !! t = Some (q, L) ∨ ghost_safe n V' c' A' G' t q L) →
  (∀ p, p ∈ c'.(net) → p ∈ c.(net) ∨ packet_safe n c' A' G' p) →
  (∀ i hb, (i, hb) ∈ c'.(heartbeats) → (i, hb) ∈ c.(heartbeats) ∨ heartbeat_safe n c' A' G' i hb) →
  (∀ key el, c'.(elections) !! key = Some el →
     c.(elections) !! key = Some el ∨ election_safe n c' A' G' key el) →
  safety_inv n V' A' G' c'.
Proof.
  intros Hci Hn Hacks Hg Hnet Hhb Hel. constructor.
  - intros i rf' Hi. destruct (Hn i rf' Hi) as [(Hold & Hack & Hst)|?]; [|done].
    destruct (si_nodes _ _ _ _ _ Hinv _ _ Hold) as [F HF]. exists F. by apply node_safe_ext.
  - intros q t k Hin. destruct (Hacks q t k Hin) as [Hold|?]; [|done].
    destruct (si_acks _ _ _ _ _ Hinv _ _ _ Hold) as (q' & L & HL & Hk).
    destruct (HG _ _ _ HL) as (L' & HL' & Hp%prefix_length). exists q', L'. split; [done|].
    unfold glen in *. lia.
  - intros t q L HL. destruct (Hg _ _ _ HL) as [?|?]; [|done].
    apply ghost_safe_ext; [done|]. by apply (si_ghost _ _ _ _ _ Hinv).
  - intros p Hp. destruct (Hnet p Hp) as [?|?]; [|done].
    apply packet_safe_ext. by apply (si_net _ _ _ _ _ Hinv).
  - intros i hb Hi. destruct (Hhb i hb Hi) as [?|?]; [|done].
    apply heartbeat_safe_ext. by apply (si_heartbeats _ _ _ _ _ Hinv i).
  - intros key el Hk. destruct (Hel key el Hk) as [?|?]; [|done].
    apply election_safe_ext. by apply (si_elections _ _ _ _ _ Hinv).
Qed.
End frame.
End safety.

#[global] Arguments claims : simpl never.
