(* ===== verification/RaftSteps.v ===== *)
(** * State machine safety: the steps

    Every event of a cluster preserves the invariant of [RaftSafety.v]. Most
    critical sections are [quiet]: they leave log and snapshot alone and make
    no new candidate or leader. The others are the start and the end of an
    election, a granted vote, an entry appended by the leader or accepted by a
    follower, and a snapshot taken or installed. This file has the quiet ones
    and the lemmas that reduce a step to what it changed. *)

From S2P Require Import Prelude Gob Persister Raft RaftNode RaftSpec RaftLog RaftCluster RaftMatching RaftSafety.
From Stdlib Require Import Strings.Byte.

Section steps.
Context {Cmd : Type} `{GobLaws Z, GobLaws (list (LogEntry Cmd))}.
Implicit Types (c : Cluster Cmd) (rf : Raft Cmd) (A : Acks) (G : Ghost Cmd).
Implicit Types (l L F : list (LogEntry Cmd)) (t k : Z).

(** ** Quiet critical sections *)

Record quiet rf rf' : Prop := {
  q_log : rf'.(log) = rf.(log);
  q_snap : rf'.(snapshotIndex) = rf.(snapshotIndex);
  q_snap_term : rf'.(snapshotTerm) = rf.(snapshotTerm);
  q_term : rf.(currentTerm) ≤ rf'.(currentTerm);
  q_leader : rf'.(state) = Leader → rf.(state) = Leader ∧ rf'.(currentTerm) = rf.(currentTerm);
  q_candidate : rf'.(state) = Candidate → rf.(state) = Candidate ∧ rf'.(currentTerm) = rf.(currentTerm);
}.

#[export] Instance quiet_preorder : PreOrder quiet.
Proof.
  split.
  - intros rf. constructor; try done; lia.
  - intros r1 r2 r3 [Hl Hs Hst Ht Hlead Hc] [Hl' Hs' Hst' Ht' Hlead' Hc'].
    constructor; [congruence..|lia| |].
    + intros E. destruct (Hlead' E) as [E2 ?]. destruct (Hlead E2). split; [done|lia].
    + intros E. destruct (Hc' E) as [E2 ?]. destruct (Hc E2). split; [done|lia].
Qed.

(** ... and that also commit and apply nothing new, and learn nothing of others. *)
Record idle rf rf' : Prop := {
  i_quiet : quiet rf rf';
  i_commit : rf'.(commitIndex) ≤ Z.max rf.(commitIndex) rf.(snapshotIndex);
  i_applied : rf'.(lastApplied) ≤
    Z.max (Z.max rf.(lastApplied) rf.(commitIndex)) rf.(snapshotIndex);
  i_match : rf'.(state) = Leader → rf'.(matchIndex) = rf.(matchIndex);
}.

#[export] Instance idle_preorder : PreOrder idle.
Proof.
  split.
  - intros rf. constructor; [done|lia|lia|done].
  - intros r1 r2 r3 [Hq Hc Ha Hm] [Hq' Hc' Ha' Hm']. pose proof (q_snap _ _ Hq).
    constructor; [by etransitivity|lia|lia|].
    intros Hst. rewrite Hm' by done. apply Hm. by apply (q_leader _ _ Hq').
Qed.

Lemma idle_follower rf rf' :
  rf'.(state) = Follower → rf'.(log) = rf.(log) → rf'.(snapshotIndex) = rf.(snapshotIndex) →
  rf'.(snapshotTerm) = rf.(snapshotTerm) → rf.(currentTerm) ≤ rf'.(currentTerm) →
  rf'.(commitIndex) = rf.(commitIndex) → rf'.(lastApplied) = rf.(lastApplied) → idle rf rf'.
Proof. intros Hst ? ? ? ? ? ?. constructor; [constructor; try done|lia|lia|]; by rewrite Hst. Qed.

Lemma quiet_same rf rf' :
  rf'.(state) = rf.(state) → rf'.(log) = rf.(log) → rf'.(snapshotIndex) = rf.(snapshotIndex) →
  rf'.(snapshotTerm) = rf.(snapshotTerm) → rf'.(currentTerm) = rf.(currentTerm) → quiet rf rf'.
Proof. intros Hst ? ? ? ?. constructor; try done; [lia|by rewrite Hst..]. Qed.

Lemma idle_same rf rf' :
  rf'.(state) = rf.(state) → rf'.(log) = rf.(log) → rf'.(snapshotIndex) = rf.(snapshotIndex) →
  rf'.(snapshotTerm) = rf.(snapshotTerm) → rf'.(currentTerm) = rf.(currentTerm) →
  rf'.(commitIndex) = rf.(commitIndex) → rf'.(lastApplied) = rf.(lastApplied) →
  rf'.(matchIndex) = rf.(matchIndex) → idle rf rf'.
Proof. intros. constructor; [by apply quiet_same|lia|lia|done]. Qed.

Lemma stepDown_idle t rf : rf.(currentTerm) < t → idle rf (stepDown t rf).
Proof. intros Ht. apply idle_follower; try done. unfold stepDown. cbn. lia. Qed.

Lemma observeTerm_idle t rf : idle rf (observeTerm t rf).
Proof. unfold observeTerm. case_if; [by apply stepDown_idle|done]. Qed.

Lemma followerContact_idle now rf : idle rf (followerContact now rf).
Proof. by apply idle_follower. Qed.

Lemma observed_idle now t rf : idle rf (followerContact now (observeTerm t rf)).
Proof. etransitivity; [apply observeTerm_idle|apply followerContact_idle]. Qed.

Lemma decideVote_idle now term args rf r : decideVote now term args rf = Ret r → idle rf r.1.
Proof. unfold decideVote. intros Hr. go_cases Hr; subst; [|done]. by apply idle_follower. Qed.

Lemma RequestVote_idle now args rf r : RequestVote now args rf = Ret r → idle rf r.1.
Proof.
  unfold RequestVote. intros Hr. case_match; [go_inv Hr; by subst|].
  etransitivity; [apply observeTerm_idle|by eapply decideVote_idle].
Qed.

Lemma AppendEntries_fail_idle now args rf r :
  AppendEntries now args rf = Ret r → r.2.(Success) = false → idle rf r.1.
Proof.
  unfold AppendEntries. intros Hr Hs. case_match; [go_inv Hr; by subst|].
  etransitivity; [apply (observed_idle now args.(ae_Term))|].
  unfold appendEntriesLog in Hr. go_cases Hr; subst; try discriminate Hs; reflexivity.
Qed.

(** A reply to a vote request ends the election or is quiet. *)
Lemma onVoteReply_elected args reply v w rf r :
  onVoteReply args reply v w rf = Ret r →
  (idle rf r.1.1 ∧ (r.1.2 = v ∨ r.1.2 = v + 1 ∧ reply.(VoteGranted) = true)) ∨
  (rf.(state) = Candidate ∧ rf.(currentTerm) = args.(rv_Term) ∧ reply.(VoteGranted) = true ∧
   r.1.2 = v + 1 ∧ rf.(npeers) / 2 < v + 1 ∧ becomeLeader rf = Ret r.1.1).
Proof.
  unfold onVoteReply. intros Hr. go_cases Hr; subst; try (left; split; [done|by auto]).
  - left. split; [|by left]. apply stepDown_idle. by apply Z.ltb_lt.
  - apply andb_true_iff in Heqb as [Hst%bool_decide_eq_true Ht%Z.eqb_eq].
    apply andb_true_iff in Heqb2 as [Hq%Z.ltb_lt _]. right. split_and!; done.
Qed.

Lemma updateCommitIndex_quiet rf rf' : updateCommitIndex rf = Ret rf' → quiet rf rf'.
Proof.
  unfold updateCommitIndex. intros Hr. case_match; [|go_inv Hr; by subst].
  rewrite (commitScan_frame _ _ _ _ Hr). by apply quiet_same.
Qed.

Lemma applyLoop_applied fuel rf r :
  applyLoop fuel rf = Ret r → r.1.(lastApplied) ≤ Z.max rf.(lastApplied) rf.(commitIndex).
Proof.
  revert rf r. induction fuel as [|fuel IH]; intros rf r Hr; simpl in Hr.
  { injection Hr as <-. cbn. lia. }
  destruct (lastApplied rf <? commitIndex rf) eqn:E; [|injection Hr as <-; cbn; lia].
  go_inv Hr. subst r.
  match goal with Hl : applyLoop _ _ = _ |- _ => apply IH in Hl; cbn in * end. lia.
Qed.

Lemma applyCommitted_idle rf r : applyCommitted rf = Ret r → idle rf r.1.
Proof.
  intros Hr. pose proof (applyLoop_applied _ _ _ Hr) as Hle. revert Hle.
  rewrite (applyLoop_frame _ _ _ Hr). intros Hle.
  constructor; [by apply quiet_same|cbn; lia|lia|done].
Qed.

Lemma restart_idle now rf : durable rf → idle rf (restart now rf).
Proof.
  intros Hd. rewrite restart_eq by done. constructor; [constructor; try done; cbn; lia|cbn; lia..|done].
Qed.

(** ** The invariant of a peer after a quiet step *)

Lemma quiet_claims rf rf' : quiet rf rf' → claims rf' = claims rf.
Proof. intros Hq. unfold claims, last_term, lastLogIndex. by rewrite (q_log _ _ Hq), (q_snap _ _ Hq). Qed.

Lemma quiet_node_le rf rf' : quiet rf rf' → node_le rf rf'.
Proof.
  intros Hq. pose proof (quiet_claims _ _ Hq). destruct Hq as [Hl Hs Hd Ht Hlead Hc].
  split; [done|]. split; [lia|]. intros Hst. right. by destruct (Hc Hst).
Qed.

Lemma node_safe_quiet n c A G i rf rf' F :
  node_safe n c A G i rf F → quiet rf rf' →
  within n A G rf' F rf'.(commitIndex) → within n A G rf' F rf'.(lastApplied) →
  (rf'.(state) = Leader → ∀ srv m, rf'.(matchIndex).[srv] = Some m → 1 ≤ m → srv ≠ i →
     acked A G srv rf.(currentTerm) m ∨ committed_to n A G F rf.(currentTerm) m) →
  node_safe n c A G i rf' F.
Proof.
  intros [[Hvl Hvn Hvp] Hs Hset Hpre Hlog [Ht Ht0] Hl Hc Hack Hm Hcom Hap] [Ql Qs Qst Qt Qlead Qcand]
    Hcom' Hap' Hm'.
  constructor; try done.
  - constructor; by rewrite ?Ql, ?Qs.
  - by rewrite Qs.
  - rewrite Qs, Qst. by eapply settled_le.
  - rewrite Qs. destruct Hpre; [left|by right]. by eapply committed_to_le; [reflexivity|exact Qt|].
  - split; [|lia]. intros j e He. specialize (Ht j e He). lia.
  - intros Hst. destruct (Qlead Hst) as [? ->]. auto.
  - intros Hst. destruct (Qcand Hst) as [? ->]. auto.
  - intros t k Hk. destruct (Hack t k Hk). split; [lia|done].
  - intros Hst srv m. destruct (Qlead Hst) as [_ ->]. by apply Hm'.
Qed.

Lemma within_max n A G rf F k k' : within n A G rf F k → within n A G rf F k' → within n A G rf F (Z.max k k').
Proof. intros ? ?. by destruct (Z.max_spec_le k k') as [[_ ->]|[_ ->]]. Qed.

Lemma node_safe_idle n c A G i rf rf' F :
  node_safe n c A G i rf F → idle rf rf' → node_safe n c A G i rf' F.
Proof.
  intros Hsafe [Hq Hc Ha Hm].
  pose proof (ns_commit _ _ _ _ _ _ _ Hsafe) as Hcom. pose proof (ns_applied _ _ _ _ _ _ _ Hsafe) as Happ.
  pose proof (q_snap _ _ Hq) as Es. pose proof (q_term _ _ Hq).
  eapply node_safe_quiet; [done|done|..].
  - eapply within_le; [| | |exact Hcom]; lia.
  - eapply within_le; [| | |by eapply within_max; [exact Happ|exact Hcom]]; lia.
  - intros Hst srv m. rewrite Hm by done. apply (ns_match _ _ _ _ _ _ _ Hsafe).
    by apply (q_leader _ _ Hq).
Qed.

(** ** One peer moves, packets are sent *)

(** The peer may have acked indices in its new term. *)
Lemma ext_node c c' A As G i rf rf' :
  c.(nodes) !! i = Some rf → c'.(nodes) = <[i := rf']> c.(nodes) → node_le rf rf' →
  (∀ q t k, (q, t, k) ∈ As → q = i ∧ t = rf'.(currentTerm)) →
  ext c A G c' (As ++ A) G ∧
  ∀ v t k, acked (As ++ A) G v t k → acked A G v t k ∨
    v = i ∧ t = rf'.(currentTerm) ∧ ∃ k', (i, t, k') ∈ As ∧ k ≤ k'.
Proof.
  intros Hi Hn Hle HAs.
  assert (∀ v t k, acked (As ++ A) G v t k → acked A G v t k ∨
    v = i ∧ t = rf'.(currentTerm) ∧ ∃ k', (i, t, k') ∈ As ∧ k ≤ k') as Hack.
  { intros v t k [(k' & [Hin|Hin]%elem_of_app & Hk)|?].
    - destruct (HAs _ _ _ Hin) as [-> ->]. right. split_and!; [done..|]. by exists k'.
    - left; left. by exists k'.
    - left; by right. }
  split; [|done]. constructor.
  - done.
  - intros a Ha. apply elem_of_app. by right.
  - intros v r Hr. rewrite Hn. destruct (decide (v = i)) as [->|].
    + rewrite lookup_insert_eq. exists rf'. split; [done|]. by simplify_eq.
    + rewrite lookup_insert_ne by done. exists r. split; [done|apply node_le_refl].
  - intros v r. rewrite Hn. intros [[<- <-]|[? Hr]]%lookup_insert_Some; [by eauto|].
    exists r. split; [done|apply node_le_refl].
  - intros v t k [?|(-> & -> & _)]%Hack; [by left|right].
    intros (r & Hr & Ht). rewrite Hn, lookup_insert_eq in Hr. injection Hr as <-. lia.
  - by left.
Qed.

Lemma ext_refl c A G : ext c A G c A G.
Proof.
  constructor; try done; try (by left); intros v rf Hv; exists rf; (split; [done|apply node_le_refl]).
Qed.

(** Nothing happens but that votes were recorded. *)
Lemma safety_same n V V' A G c :
  safety_inv n V A G c → cluster_inv n V' c → V ⊆ V' → safety_inv n V' A G c.
Proof.
  intros Hinv Hci HV. eapply (safety_step n V V' c A G c A G); auto using ext_refl.
Qed.

Lemma on_node_inv {B} c i (f : Raft Cmd → go B) kont c' :
  on_node c i f kont = Ret c' →
  c' = c ∨ ∃ rf a, c.(nodes) !! i = Some rf ∧ f rf = Ret a ∧ c' = kont a.
Proof.
  unfold on_node. destruct (nodes c !! i) as [rf|]; intros Hr; go_inv Hr; [|by left]. right.
  by exists rf, a.
Qed.

(** The step lemma for one peer, when no leader log changes. *)
Lemma step_node n V V' c c' A As G i rf rf' ps :
  safety_inv n V A G c → cluster_inv n V' c' → V ⊆ V' →
  c.(nodes) !! i = Some rf → c'.(nodes) = <[i := rf']> c.(nodes) → c'.(net) = ps ++ c.(net) →
  node_le rf rf' →
  (∀ q t k, (q, t, k) ∈ As → q = i ∧ t = rf'.(currentTerm) ∧ ∃ q' L, G !! t = Some (q', L) ∧ k < glen L) →
  (ext c A G c' (As ++ A) G → (∀ j r, j ≠ i → c.(nodes) !! j = Some r → c'.(nodes) !! j = Some r) →
   (∀ t k, acked (As ++ A) G i t k → acked A G i t k ∨
      t = rf'.(currentTerm) ∧ ∃ k', (i, t, k') ∈ As ∧ k ≤ k') →
     (∃ F, node_safe n c' (As ++ A) G i rf' F) ∧
     (∀ p, p ∈ ps → packet_safe n c' (As ++ A) G p) ∧
     (∀ j hb, (j, hb) ∈ c'.(heartbeats) → (j, hb) ∈ c.(heartbeats) ∨
        heartbeat_safe n c' (As ++ A) G j hb) ∧
     (∀ key el, c'.(elections) !! key = Some el →
        c.(elections) !! key = Some el ∨ election_safe n c' (As ++ A) G key el)) →
  safety_inv n V' (As ++ A) G c'.
Proof.
  intros Hinv Hci HV Hi Hn Hnet Hle HAs Hnew.
  destruct (ext_node c c' A As G i rf rf') as [Hext Hack]; [done..|naive_solver|].
  destruct Hnew as (Hnode & Hp & Hhb & Hel); [done| | |].
  { intros j r Hj Hr. rewrite Hn. by rewrite lookup_insert_ne. }
  { intros t k [?|(_ & ? & ?)]%Hack; auto. }
  eapply (safety_step n V V' c A G c' (As ++ A) G); try done.
  - intros j r. rewrite Hn. intros [[<- <-]|[Hj Hr]]%lookup_insert_Some; [by right|left].
    split_and!; [done| |done]. intros t k [?|[? _]]%Hack; [done|by subst].
  - intros q t k [Hin|?]%elem_of_app; [right|by left]. by apply HAs in Hin as (_ & _ & ?).
  - by left.
  - intros p. rewrite Hnet, elem_of_app. intros [?|?]; auto.
Qed.

(** ... when it acks nothing. *)
Lemma step_node_noack n V V' c c' A G i rf rf' ps :
  safety_inv n V A G c → cluster_inv n V' c' → V ⊆ V' →
  c.(nodes) !! i = Some rf → c'.(nodes) = <[i := rf']> c.(nodes) → c'.(net) = ps ++ c.(net) →
  node_le rf rf' →
  (∀ F, ext c A G c' A G → (∀ j r, j ≠ i → c.(nodes) !! j = Some r → c'.(nodes) !! j = Some r) →
     node_safe n c A G i rf F → node_safe n c' A G i rf F →
     (∃ F', node_safe n c' A G i rf' F') ∧
     (∀ p, p ∈ ps → packet_safe n c' A G p) ∧
     (∀ j hb, (j, hb) ∈ c'.(heartbeats) → (j, hb) ∈ c.(heartbeats) ∨ heartbeat_safe n c' A G j hb) ∧
     (∀ key el, c'.(elections) !! key = Some el →
        c.(elections) !! key = Some el ∨ election_safe n c' A G key el)) →
  safety_inv n V' A G c'.
Proof.
  intros Hinv Hci HV Hi Hn Hnet Hle Hnew. apply (step_node n V V' c c' A [] G i rf rf' ps); try done.
  { by intros q t k ?%not_elem_of_nil. }
  intros Hext Hoth _. destruct (si_nodes _ _ _ _ _ Hinv _ _ Hi) as [F HF].
  apply (Hnew F); [done..|]. by apply (node_safe_ext n V c A G c' A G Hinv Hext).
Qed.

(** ... for an idle section. *)
Lemma step_idle n V V' c c' A G i rf rf' ps :
  safety_inv n V A G c → cluster_inv n V' c' → V ⊆ V' →
  c.(nodes) !! i = Some rf → c'.(nodes) = <[i := rf']> c.(nodes) → c'.(net) = ps ++ c.(net) →
  (∀ h, h ∈ c'.(heartbeats) → h ∈ c.(heartbeats)) →
  (∀ key el, c'.(elections) !! key = Some el → c.(elections) !! key = Some el) →
  idle rf rf' →
  (∀ F, ext c A G c' A G → (∀ j r, j ≠ i → c.(nodes) !! j = Some r → c'.(nodes) !! j = Some r) →
     node_safe n c A G i rf F → ∀ p, p ∈ ps → packet_safe n c' A G p) →
  safety_inv n V' A G c'.
Proof.
  intros Hinv Hci HV Hi Hn Hnet Hhb Hel Hidle Hpk.
  eapply step_node_noack; [done..|apply quiet_node_le, Hidle|].
  intros F Hext Hoth HF HF'. split; [exists F; by eapply node_safe_idle|].
  split; [by eapply Hpk|auto].
Qed.

(** Both, for a peer that sends nothing. *)
Lemma step_node_local n V V' c c' A G i rf rf' :
  safety_inv n V A G c → cluster_inv n V' c' → V ⊆ V' →
  c.(nodes) !! i = Some rf → c'.(nodes) = <[i := rf']> c.(nodes) → c'.(net) = c.(net) →
  node_le rf rf' →
  (∀ F, ext c A G c' A G → node_safe n c' A G i rf F → (∃ F', node_safe n c' A G i rf' F') ∧
     (∀ j hb, (j, hb) ∈ c'.(heartbeats) → (j, hb) ∈ c.(heartbeats) ∨ heartbeat_safe n c' A G j hb) ∧
     (∀ key el, c'.(elections) !! key = Some el →
        c.(elections) !! key = Some el ∨ election_safe n c' A G key el)) →
  safety_inv n V' A G c'.
Proof.
  intros Hinv Hci HV Hi Hn Hnet Hle Hnew. eapply (step_node_noack n V V' c c' A G i rf rf' []); try done.
  intros F Hext _ _ HF. destruct (Hnew F) as (? & ? & ?); [done..|].
  split_and!; [done|by intros p ?%not_elem_of_nil|done..].
Qed.

Lemma step_idle_local n V V' c c' A G i rf rf' :
  safety_inv n V A G c → cluster_inv n V' c' → V ⊆ V' →
  c.(nodes) !! i = Some rf → c'.(nodes) = <[i := rf']> c.(nodes) → c'.(net) = c.(net) →
  (∀ h, h ∈ c'.(heartbeats) → h ∈ c.(heartbeats)) →
  (∀ key el, c'.(elections) !! key = Some el → c.(elections) !! key = Some el) →
  idle rf rf' → safety_inv n V' A G c'.
Proof.
  intros Hinv Hci HV Hi Hn Hnet Hhb Hel Hidle. eapply (step_idle n V V' c c' A G i rf rf' []); try done.
  by intros F _ _ _ p ?%not_elem_of_nil.
Qed.

(** What is chosen in an earlier term is in the log of every later leader. *)
Lemma chosen_leader n V c A G t k t' q L :
  0 ≤ n → safety_inv n V A G c → chosen n A G t k → G !! t' = Some (q, L) → t ≤ t' →
  contains G L t k.
Proof.
  intros Hn Hinv Hch HL Ht. destruct (decide (t = t')) as [->|Hne].
  - destruct Hch as ((q' & L' & e & HL' & He & _) & _). rewrite HL in HL'. injection HL' as <- <-.
    apply zlookup_lt_Some in He. by eapply contains_own; [|lia].
  - destruct (gs_safe _ _ _ _ _ _ _ _ (si_ghost _ _ _ _ _ Hinv _ _ _ HL) t k) as [?|Hno];
      [lia|apply Hch|done|]. by destruct (chosen_nochoose n c A G t k).
Qed.

(** Two logs that are committed up to [k] agree up to [k]. *)
Lemma committed_agree n V c A G l l' t t' k k1 k2 :
  0 ≤ n → safety_inv n V A G c → chosen n A G t k1 → chosen n A G t' k2 →
  k ≤ k1 → k ≤ k2 → contains G l t k → contains G l' t' k → agree k l l'.
Proof.
  intros Hn Hinv. revert l l' t t' k1 k2.
  assert (∀ l l' t t' k1, t ≤ t' → chosen n A G t k1 → k ≤ k1 → contains G l t k →
    contains G l' t' k → agree k l l') as Hle.
  { intros l l' t t' k1 Ht Hch Hk Hc (q & L & HL & _ & Hag).
    eapply contains_same; [exact Hc|]. eapply contains_agree; [by apply agree_sym|].
    eapply contains_le; [exact Hk|]. by eapply chosen_leader. }
  intros l l' t t' k1 k2 Hch1 Hch2 Hk1 Hk2 Hc1 Hc2. destruct (decide (t ≤ t')); [by eapply Hle|].
  apply agree_sym. eapply (Hle l' l t' t); try done. lia.
Qed.

(** The log of a later leader has everything that is settled. *)
Lemma settled_leader n V c A G T si st q L :
  0 ≤ n → safety_inv n V A G c → settled n A G T si st → G !! T = Some (q, L) →
  ∃ s e, si ≤ s ∧ L.[s] = Some e ∧ e.(le_Term) = st ∧ committed_to n A G L T s.
Proof.
  intros Hn Hinv Hset HL.
  destruct (si_ghost _ _ _ _ _ Hinv _ _ _ HL) as [[Hhead _ _] _ _ _ _].
  destruct Hset as [[-> ->]|(t & k & s & Hch & Ht & Hs & Hin)].
  { exists 0, (mkEntry 0 None). split_and!; [done..|by left]. }
  assert (contains G L t k) as Hc by by eapply chosen_leader.
  destruct (term_in_contains _ _ _ _ _ _ Hc (proj2 Hs) Hin) as (e & He & Het).
  exists s, e. split_and!; [lia|done..|]. right. exists t, k. split_and!; [done|lia|done|].
  eapply contains_le; [|done]. lia.
Qed.

Lemma settled_committed n V c A G T si st q L :
  0 ≤ n → safety_inv n V A G c → settled n A G T si st → G !! T = Some (q, L) →
  committed_to n A G L T si.
Proof.
  intros Hn Hinv Hset HL.
  destruct (settled_leader n V c A G T si st q L) as (s & e & Hle & _ & _ & Hc); [done..|].
  by eapply committed_to_le; [exact Hle|reflexivity|].
Qed.

(** A leader has everything it committed or applied in its log. *)
Lemma leader_within n V c A G i rf F k :
  0 ≤ n → safety_inv n V A G c → node_safe n c A G i rf F → rf.(state) = Leader →
  within n A G rf F k → committed_to n A G F rf.(currentTerm) k.
Proof.
  intros Hn Hinv HF Hst [Hle|?]; [|done].
  eapply committed_to_le; [exact Hle|reflexivity|].
  eapply settled_committed; [done..|apply HF|by apply HF].
Qed.
End steps.

(** ** The log of a leader changes *)

Section leader_steps.
Context {Cmd : Type} `{GobLaws Z, GobLaws (list (LogEntry Cmd))}.
Context (n : Z) (V V' : history) (c c' : Cluster Cmd) (A : Acks) (G : Ghost Cmd).
Context (i : Z) (rf rf' : Raft Cmd) (L' : list (LogEntry Cmd)).
Let t := rf.(currentTerm).
Let G' : Ghost Cmd := <[t := (i, L')]> G.
Context (Hi : c.(nodes) !! i = Some rf) (Hnodes : c'.(nodes) = <[i := rf']> c.(nodes)).
Context (Hnet : c'.(net) = c.(net)) (Hst : rf'.(state) = Leader) (Ht : rf'.(currentTerm) = t).
Context (Hsnap : rf'.(snapshotIndex) = rf.(snapshotIndex)).
Context (Hown : ∀ q L, G !! t = Some (q, L) → q = i ∧ L `prefix_of` L').

Lemma leader_ghost_le : ghost_le G G'.
Proof using Hown.
  destruct (G !! t) as [[q L]|] eqn:HL; [|by apply ghost_le_insert_new].
  destruct (Hown _ _ eq_refl) as [-> ?]. by eapply ghost_le_grow.
Qed.

Lemma leader_acked v t0 k : acked A G' v t0 k → acked A G v t0 k ∨ v = i ∧ t0 = t.
Proof using .
  intros [?|(L & HL & Hk)]; [left; by left|].
  apply lookup_insert_Some in HL as [[<- [= <- <-]]|[_ HL]]; [by right|left; right; by exists L].
Qed.

(** A new entry of term [t] has not been acked. *)
Lemma leader_ext :
  (∀ k e, L'.[k] = Some e → e.(le_Term) = t → at_term G t k ∨ ∀ v, ¬ acked A G v t k) →
  ext c A G c' A G'.
Proof using Hi Hnodes Hst Ht Hown Hsnap.
  intros Hnew.
  assert (¬ at_least c' i (t + 1)) as Hnot.
  { intros (r & Hr & Hle). rewrite Hnodes, lookup_insert_eq in Hr. injection Hr as <-. lia. }
  assert (node_le rf rf') as Hle by (split; [unfold t in *; lia|split; [lia|by rewrite Hst]]).
  constructor; [apply leader_ghost_le|done|..].
  - intros v r Hr. rewrite Hnodes. destruct (decide (v = i)) as [->|].
    + exists rf'. rewrite lookup_insert_eq. split; [done|]. by simplify_eq.
    + exists r. rewrite lookup_insert_ne by done. split; [done|apply node_le_refl].
  - intros v r. rewrite Hnodes. intros [[<- <-]|[_ Hr]]%lookup_insert_Some; [by exists rf|].
    exists r. split; [done|apply node_le_refl].
  - intros v t0 k [?|[-> ->]]%leader_acked; [by left|by right].
  - intros t0 k (q & L & e & HL & He & Het).
    apply lookup_insert_Some in HL as [[<- [= <- <-]]|[_ HL]]; [|left; by exists q, L, e].
    destruct (Hnew _ _ He Het) as [?|Hno]; [by left|right]. exists i. split; [done|].
    intros v [Hk|[? _]]%leader_acked; [|done]. by destruct (Hno v).
Qed.

Lemma leader_step :
  safety_inv n V A G c → cluster_inv n V' c' → V ⊆ V' → ext c A G c' A G' →
  c'.(heartbeats) = c.(heartbeats) → (∃ F, node_safe n c' A G' i rf' F) →
  ghost_safe n V' c' A G' t i L' →
  (∀ key el, c'.(elections) !! key = Some el →
     c.(elections) !! key = Some el ∨ election_safe n c' A G' key el) →
  safety_inv n V' A G' c'.
Proof using Hi Hnodes Hnet Hst Ht Hown Hsnap.
  intros Hinv Hci HV Hext Hhb Hnode Hghost Hel.
  eapply (safety_step n V V' c A G c' A G'); [done..| | | | | |done].
  - intros j r. rewrite Hnodes. intros [[<- <-]|[Hj Hr]]%lookup_insert_Some; [by right|left].
    split_and!; [done| |].
    + intros t0 k [?|[? _]]%leader_acked; [done|congruence].
    + intros _ L. unfold G'. rewrite lookup_insert_Some. split.
      * intros [[_ [= ? _]]|[_ ?]]; [congruence|done].
      * intros HL. right. split; [|done]. intros E. rewrite <-E in HL. by destruct (Hown _ _ HL).
  - by left.
  - intros t0 q L [[<- [= <- <-]]|[_ ?]]%lookup_insert_Some; [by right|by left].
  - rewrite Hnet. by left.
  - rewrite Hhb. by left.
Qed.
End leader_steps.
