(* ===== verification/RaftElect.v ===== *)
(** * State machine safety: elections

    A vote is granted only to a candidate whose claimed last entry is not
    before the voter's, and so not before anything the voter acked. What a
    majority of such votes grants a new leader is that its log contains
    everything chosen before its term. A candidate whose log ends with its
    snapshot may claim a later term than that of its last entry; then the
    entry it claims is chosen, and no majority votes for it. The file proves
    that a timeout, a vote request and a vote reply preserve the invariant of
    [RaftSafety.v]. *)

From S2P Require Import Prelude Gob Persister Raft RaftNode RaftSpec RaftLog RaftCluster RaftMatching RaftSafety RaftSteps.
From Stdlib Require Import Strings.Byte.

Section vote.
Context {Cmd : Type} `{GobLaws Z, GobLaws (list (LogEntry Cmd))}.
Implicit Types (c : Cluster Cmd) (rf : Raft Cmd) (A : Acks) (G : Ghost Cmd).
Implicit Types (l L F : list (LogEntry Cmd)) (t k : Z).

(** ** Claims *)

Lemma last_term_exact rf F :
  virtual rf F → 1 < glen rf.(log) → last_term rf = le_Term <$> F.[glen F - 1].
Proof.
  intros Hvi Hlen. pose proof (virtual_length _ _ Hvi) as Hl.
  rewrite <-Hl, <-(virtual_entry rf F) by (done || unfold lastLogIndex; lia).
  unfold last_term, entry_at, lastLogIndex. do 2 f_equal. lia.
Qed.

Lemma last_term_snapshot rf F :
  raft_wf rf → virtual rf F → ¬ 1 < glen rf.(log) →
  last_term rf = Some rf.(snapshotTerm) ∧ rf.(snapshotIndex) = glen F - 1.
Proof.
  intros Hwf Hvi Hlen. pose proof (virtual_length _ _ Hvi) as Hl. pose proof (wf_log_nonempty _ Hwf).
  assert (glen rf.(log) = 1) as E by lia. unfold lastLogIndex in Hl. split; [|lia].
  unfold last_term. rewrite E. apply Hwf.
Qed.

Lemma last_term_is_Some rf : raft_wf rf → ∃ lt, last_term rf = Some lt.
Proof.
  intros Hwf. destruct (zlookup_is_Some rf.(log) (glen rf.(log) - 1)) as [e He].
  { pose proof (wf_log_nonempty _ Hwf). lia. }
  exists e.(le_Term). unfold last_term. by rewrite He.
Qed.

(** The term a snapshot claims is not before that of the entry at its index. *)
Lemma settled_ge n V c A G F T T' si st e :
  0 ≤ n → safety_inv n V A G c → log_ok G F → settled n A G T si st → committed_to n A G F T' si →
  F.[si] = Some e → e.(le_Term) ≤ st.
Proof.
  intros Hn Hinv HF [[-> ->]|(t & k & s & Hch & _ & Hs & q & L & x & HL & Hx & <-)] Hcom He.
  { rewrite (lo_head _ _ HF) in He. by injection He as <-. }
  destruct (si_ghost _ _ _ _ _ Hinv _ _ _ HL) as [HLok _ _ _ _].
  pose proof (zlookup_lt_Some _ _ _ He). assert (L.[si] = Some e) as HLe.
  { destruct Hcom as [?|(t1 & k1 & Hch1 & Hk1 & _ & Hc1)].
    - assert (si = 0) as -> by lia. rewrite (lo_head _ _ HLok). by rewrite (lo_head _ _ HF) in He.
    - rewrite <-He. symmetry. eapply (committed_agree n V c A G F L t1 t si k1 k); try done; [lia|].
      eapply (contains_le _ _ _ k); [lia|]. by eapply chosen_leader. }
  by eapply (lo_sorted _ _ HLok si s); [lia|..].
Qed.

(** A peer claims nothing that is before an entry it shares with a leader. *)
Lemma claims_not_after n V c A G i rf F t0 k lt :
  0 ≤ n → safety_inv n V A G c → raft_wf rf → node_safe n c A G i rf F →
  at_term G t0 k → contains G F t0 k → last_term rf = Some lt → not_after t0 k lt (lastLogIndex rf).
Proof.
  intros Hn Hinv Hwf [Hvi _ Hset Hpre Hok _ _ _ _ _ _ _] Hat Hc Hlt.
  destruct (term_in_contains _ _ _ _ _ _ Hc (Z.le_refl _) Hat) as (e & He & Ht).
  pose proof (zlookup_lt_Some _ _ _ He). rewrite (virtual_length _ _ Hvi).
  destruct (zlookup_is_Some F (glen F - 1)) as [e' He']; [lia|].
  assert (t0 ≤ e'.(le_Term)) as Hle.
  { rewrite <-Ht. eapply (lo_sorted _ _ Hok k); [|done..]. lia. }
  assert (e'.(le_Term) ≤ lt); [|unfold not_after; lia].
  destruct (decide (1 < glen rf.(log))) as [Hlen|Hlen].
  - rewrite (last_term_exact _ _ Hvi Hlen), He' in Hlt. injection Hlt as <-. done.
  - destruct (last_term_snapshot _ _ Hwf Hvi Hlen) as [E Hsi]. rewrite E in Hlt. injection Hlt as <-.
    destruct Hpre as [Hpre|?]; [|lia]. rewrite <-Hsi in He'. by eapply settled_ge.
Qed.

(** ** Ballots *)

Lemma not_after_trans t k lt li lt' li' :
  not_after t k lt li → lt < lt' ∨ lt = lt' ∧ li ≤ li' → not_after t k lt' li'.
Proof. unfold not_after. lia. Qed.

Lemma ballot_new n c A G c' A' v t lt li :
  ext c A G c' A' G → 0 ≤ v < n → at_least c' v t →
  (∀ t0 k, t0 < t → at_term G t0 k → acked A G v t0 k → nochoose n c A G t0 k ∨ not_after t0 k lt li) →
  ballot n c' A' G v t lt li.
Proof.
  intros Hext Hv Hat Hall. split; [done|]. split; [done|]. intros t0 k Ht Hat' Hack.
  apply (ex_acked _ _ _ _ _ _ Hext) in Hack as [Hack|Hno].
  - destruct (Hall _ _ Ht Hat' Hack); [left; by eapply nochoose_ext|by right].
  - destruct Hno. destruct Hat as (rf & Hr & ?). exists rf. split; [done|lia].
Qed.

(** A peer that votes for a candidate no less up to date. *)
Lemma ballot_node n V c A G c' A' i rf F t lt lt' li' :
  0 ≤ n → safety_inv n V A G c → raft_wf rf → 0 ≤ i < n → node_safe n c A G i rf F →
  ext c A G c' A' G → at_least c' i t → last_term rf = Some lt →
  lt < lt' ∨ lt = lt' ∧ lastLogIndex rf ≤ li' → ballot n c' A' G i t lt' li'.
Proof.
  intros Hn Hinv Hwf Hi HF Hext Hat Hlt Hup. eapply ballot_new; [done..|].
  intros t0 k _ Hat0 Hack. destruct (ns_acked _ _ _ _ _ _ _ HF _ _ Hack) as [_ Hsafe].
  destruct (Hsafe Hat0) as [Hc|?]; [right|by left].
  eapply not_after_trans; [|exact Hup]. by eapply claims_not_after.
Qed.

(** What a majority of ballots says. *)
Lemma ballots_claims n c A G voters t lt li t0 k :
  NoDup voters → n / 2 < glen voters → (∀ v, v ∈ voters → ballot n c A G v t lt li) →
  t0 < t → at_term G t0 k → nochoose n c A G t0 k ∨ not_after t0 k lt li.
Proof.
  intros Hnd Hlen Hb Ht Hat. destruct (decide (Exists (λ v, acked A G v t0 k) voters)) as [He|He].
  - apply list.Exists_exists in He as (v & Hv & Hack). destruct (Hb v Hv) as (_ & _ & Hall). auto.
  - left. exists voters. split.
    + split_and!; [done| |done]. intros v Hv. by destruct (Hb v Hv).
    + intros v Hv. destruct (Hb v Hv) as (_ & (rf & Hr & Hle) & _). split.
      * exists rf. split; [done|lia].
      * intros Hack. apply He, list.Exists_exists. by exists v.
Qed.

(** A log contains what is not after its last entry. *)
Lemma up_to_date_safe n V c A G F e t0 k :
  safety_inv n V A G c → log_ok G F → F.[glen F - 1] = Some e → at_term G t0 k →
  not_after t0 k e.(le_Term) (glen F - 1) → safe n c A G F t0 k.
Proof.
  intros Hinv HF He Hat Hna. destruct (at_term_pos _ _ _ _ _ _ _ Hinv Hat) as [Ht Hk].
  pose proof (zlookup_lt_Some _ _ _ He) as Hb.
  assert (1 ≤ glen F - 1) as Hpos.
  { destruct (decide (glen F - 1 = 0)) as [E|]; [|lia].
    rewrite E, (lo_head _ _ HF) in He. injection He as <-. unfold not_after in Hna. cbn in Hna. lia. }
  destruct (lo_matched _ _ HF _ _ Hpos He) as (_ & q & L & HL & Hlen & Hag).
  assert (∀ k', k' ≤ glen F - 1 → contains G L t0 k' → contains G F t0 k') as Hto.
  { intros k' Hle. apply contains_agree, agree_sym. by eapply agree_mono. }
  destruct Hna as [Hlt|[-> Hle]]; [|left; apply Hto; [done|eapply contains_own; [done|lia]]].
  destruct (si_ghost _ _ _ _ _ Hinv _ _ _ HL) as [HLok _ _ _ Hsafe].
  destruct (Hsafe t0 k Hlt Hat) as [Hc|?]; [left|by right]. apply Hto; [|done].
  destruct (decide (k ≤ glen F - 1)); [done|exfalso].
  destruct (term_in_contains _ _ _ _ _ _ Hc (Z.le_refl _) Hat) as (e0 & He0 & Ht0).
  rewrite Hag in He by done. pose proof (lo_sorted _ _ HLok (glen F - 1) k _ _ ltac:(lia) He He0). lia.
Qed.

(** The log of a candidate with a majority contains what may be chosen. *)
Lemma elected_log n V c A G i rf F voters lt :
  0 ≤ n → safety_inv n V A G c → raft_wf rf → node_safe n c A G i rf F →
  G !! rf.(currentTerm) = None → last_term rf = Some lt → NoDup voters → n / 2 < glen voters →
  (∀ v, v ∈ voters → ballot n c A G v rf.(currentTerm) lt (lastLogIndex rf)) →
  ∀ t0 k, t0 < rf.(currentTerm) → at_term G t0 k → safe n c A G F t0 k.
Proof.
  intros Hn Hinv Hwf HF HG Hlt Hnd Hlen Hb.
  pose proof (ballots_claims n c A G voters rf.(currentTerm) lt (lastLogIndex rf)) as Hcl.
  destruct HF as [Hvi _ Hset Hpre Hok _ _ _ _ _ _ _]. rewrite (virtual_length _ _ Hvi) in *.
  destruct (zlookup_is_Some F (glen F - 1)) as [e He]; [destruct Hvi; lia|].
  enough (lt = e.(le_Term)) as ->.
  { intros t0 k Ht Hat. destruct (Hcl t0 k) as [?|Hna]; [done..|by right|]. by eapply up_to_date_safe. }
  destruct (decide (1 < glen rf.(log))) as [Hl|Hl].
  { rewrite (last_term_exact _ _ Hvi Hl), He in Hlt. by injection Hlt as <-. }
  destruct (last_term_snapshot _ _ Hwf Hvi Hl) as [E Hsi]. rewrite E in Hlt. injection Hlt as <-.
  rewrite <-Hsi in *. destruct Hpre as [Hpre|?]; [|lia].
  destruct Hset as [[Hs0 ->]|(tc & kc & s & Hch & Htc & Hs & Hin)].
  { rewrite Hs0, (lo_head _ _ Hok) in He. by injection He as <-. }
  assert (tc < rf.(currentTerm)) as Hlt.
  { destruct Hin as (q & L & _ & HL & _). destruct (decide (tc = rf.(currentTerm))); [congruence|lia]. }
  assert (s = rf.(snapshotIndex)) as ->.
  { destruct (Hcl tc kc) as [Hno|Hna]; [done..|apply Hch| |].
    - by destruct (chosen_nochoose n c A G tc kc).
    - destruct (term_in_bounds _ _ _ _ _ _ _ _ Hinv Hin). unfold not_after in Hna. lia. }
  destruct Hin as (q & L & x & HL & Hx & <-). f_equal.
  destruct (si_ghost _ _ _ _ _ Hinv _ _ _ HL) as [HLok _ _ _ _]. enough (Some e = Some x) by congruence.
  rewrite <-He, <-Hx. pose proof (zlookup_lt_Some _ _ _ He).
  destruct Hpre as [?|(t1 & k1 & Hch1 & Hk1 & _ & Hc1)].
  - replace (snapshotIndex rf) with 0 by lia. by rewrite (lo_head _ _ Hok), (lo_head _ _ HLok).
  - eapply (committed_agree n V c A G F L t1 tc rf.(snapshotIndex) k1 kc); try done; [lia|].
    apply zlookup_lt_Some in Hx. by eapply contains_own; [|lia].
Qed.

Lemma decideVote_granted now term args rf r :
  raft_wf rf → decideVote now term args rf = Ret r → r.2.(VoteGranted) = true →
  ∃ lt, last_term rf = Some lt ∧
    (lt < args.(LastLogTerm) ∨ lt = args.(LastLogTerm) ∧ lastLogIndex rf ≤ args.(LastLogIndex)).
Proof.
  intros Hwf. unfold decideVote. intros Hr Hg. go_inv Hr. apply gidx_Ret in Ha.
  unfold last_term. rewrite Ha. case_match eqn:Hb; go_inv Hr; subst r; [|done].
  eexists. split; [done|]. apply andb_true_iff in Hb as [_ Hb]. apply orb_true_iff in Hb as [Hb|Hb]; lia.
Qed.

Lemma RequestVote_up_to_date now args rf r :
  raft_wf rf → RequestVote now args rf = Ret r → r.2.(VoteGranted) = true →
  ∃ lt, last_term rf = Some lt ∧
    (lt < args.(LastLogTerm) ∨ lt = args.(LastLogTerm) ∧ lastLogIndex rf ≤ args.(LastLogIndex)).
Proof.
  unfold RequestVote. intros Hwf Hr Hg. case_match; [go_inv Hr; by subst r|].
  apply decideVote_granted in Hr as (lt & Hlt & Hup); [|by apply observeTerm_wf|done].
  pose proof (quiet_claims _ _ (i_quiet _ _ (observeTerm_idle args.(rv_Term) rf))) as E.
  unfold claims in E. injection E as E1 E2. exists lt. by rewrite <-E1, <-E2.
Qed.
End vote.

(** ** Steps *)

Section elect_steps.
Context {Cmd : Type} `{GobLaws Z, GobLaws (list (LogEntry Cmd))}.
Implicit Types (rf : Raft Cmd) (F : list (LogEntry Cmd)).
Context (n : Z) (V V' : history) (c c' : Cluster Cmd) (A : Acks) (G : Ghost Cmd).
Context (Hn : 0 ≤ n) (Hinv : safety_inv n V A G c) (Hci : cluster_inv n V c).
Context (Hci' : cluster_inv n V' c') (HV : V ⊆ V').

Lemma node_range i rf : c.(nodes) !! i = Some rf → 0 ≤ i < n.
Proof using Hci. intros Hi. destruct (ci_nodes _ _ _ Hci _ _ Hi) as [Hme Hnp Hwf _]. rewrite <-Hme, <-Hnp. apply Hwf. Qed.

Lemma vote_request_safe now dst args :
  RVReq dst args ∈ c.(net) → deliver now (RVReq dst args) c = Ret c' → safety_inv n V' A G c'.
Proof using Hn Hinv Hci Hci' HV.
  intros Hin Hr. apply on_node_inv in Hr as [->|(rf & r & Hi & Hr & ->)].
  { by eapply safety_same. }
  pose proof (RequestVote_idle _ _ _ _ Hr) as Hidle.
  destruct (ci_nodes _ _ _ Hci _ _ Hi) as [_ _ Hwf _].
  eapply (step_idle n V V' c _ A G dst rf r.1 [RVRep dst args r.2]); try done.
  intros F Hext _ HF p ->%list_elem_of_singleton. split.
  { eapply while_candidate_ext; [done| |by apply (si_net _ _ _ _ _ Hinv _ Hin)]. done. }
  intros Hg. destruct (RequestVote_up_to_date now args rf r) as (lt & Hlt & Hup); [done..|].
  destruct r as [rf' reply]. pose proof (RequestVote_granted _ _ _ _ _ Hr Hg) as (Ht' & _ & _).
  eapply ballot_node; try done; [by eapply node_range|].
  exists rf'. cbn. rewrite lookup_insert_eq. split; [done|lia].
Qed.

(** *** A timeout *)

Lemma startElection_fields now rf r :
  startElection now rf = Ret r →
  r.1.1.(log) = rf.(log) ∧ r.1.1.(snapshotIndex) = rf.(snapshotIndex) ∧
  r.1.1.(snapshotTerm) = rf.(snapshotTerm) ∧ r.1.1.(commitIndex) = rf.(commitIndex) ∧
  r.1.1.(lastApplied) = rf.(lastApplied) ∧
  claims rf = (Some r.1.2.(LastLogTerm), r.1.2.(LastLogIndex)).
Proof.
  unfold startElection. intros Hr. go_inv Hr. subst r. apply gidx_Ret in Ha. cbn in Ha.
  cbn [fst snd]. split_and!; try done. unfold claims, last_term. by rewrite Ha.
Qed.

Lemma node_safe_campaign d i rf rf' F :
  node_safe n d A G i rf F → (∀ L, G !! (rf.(currentTerm) + 1) ≠ Some (i, L)) →
  rf'.(state) = Candidate → rf'.(currentTerm) = rf.(currentTerm) + 1 →
  rf'.(log) = rf.(log) → rf'.(snapshotIndex) = rf.(snapshotIndex) →
  rf'.(snapshotTerm) = rf.(snapshotTerm) →
  rf'.(commitIndex) = rf.(commitIndex) → rf'.(lastApplied) = rf.(lastApplied) →
  node_safe n d A G i rf' F.
Proof using .
  intros [[Hvl Hvn Hvp] Hs Hset Hpre Hlog [Ht Ht0] _ _ Hack _ Hcom Hap] Hno Est Et El Es Esn Ec Ea.
  assert (rf.(currentTerm) ≤ rf'.(currentTerm)) as Hle by lia.
  constructor; rewrite ?Est, ?Es, ?Esn; try done.
  - constructor; by rewrite ?El, ?Es.
  - by eapply settled_le.
  - destruct Hpre; [left|by right]. by eapply committed_to_le; [reflexivity|exact Hle|].
  - split; [|lia]. intros j e He. specialize (Ht j e He). lia.
  - intros _. rewrite Et. split_and!; [lia| |done]. by replace (_ + 1 - 1) with rf.(currentTerm) by lia.
  - intros t k Hk. destruct (Hack t k Hk). split; [lia|done].
  - eapply within_le; [| | |exact Hcom]; lia.
  - eapply within_le; [| | |exact Hap]; lia.
Qed.

Lemma timeout_safe i now : timeout i now c = Ret c' → safety_inv n V' A G c'.
Proof using Hn Hinv Hci Hci' HV.
  intros Hr. apply on_node_inv in Hr as [->|(rf & r & Hi & Hr & ->)].
  { by eapply safety_same. }
  destruct (ci_nodes _ _ _ Hci _ _ Hi) as [Hme Hnp Hwf _].
  destruct (startElection_result _ _ _ Hr) as (Hst & _ & Ht & Hcand & Hrt & Hsrv).
  destruct (startElection_fields _ _ _ Hr) as (El & Es & Esn & Ec & Ea & Ecl).
  assert (claims r.1.1 = claims rf) as Ecl'.
  { unfold claims, last_term, lastLogIndex. by rewrite El, Es. }
  eapply (step_node_noack n V V' c _ A G i rf r.1.1 ((λ s, RVReq s r.1.2) <$> r.2)); try done.
  { split; [lia|]. split; [lia|]. left. lia. }
  intros F Hext _ HF HF'. split_and!.
  - exists F. eapply node_safe_campaign; try done.
    intros L HL. destruct (gs_term _ _ _ _ _ _ _ _ (si_ghost _ _ _ _ _ Hinv _ _ _ HL)) as (x & Hx & ?).
    rewrite Hi in Hx. injection Hx as <-. lia.
  - intros p (s & -> & _)%list_elem_of_fmap rfc. cbn. rewrite Hcand, Hme, lookup_insert_eq.
    intros [= <-]. split; [lia|]. intros _ _. by rewrite Ecl', Ecl.
  - by left.
  - intros key el. cbn. intros [[<- <-]|[_ ?]]%lookup_insert_Some; [right|by left].
    intros rfc. cbn. rewrite lookup_insert_eq. intros [= <-]. split; [lia|]. intros _ _.
    exists r.1.2.(LastLogTerm), [i]. rewrite Ecl', Ecl. split; [done|].
    split; [apply NoDup_singleton|]. split; [done|]. split.
    + intros v. cbn. rewrite Hsrv. intros [? _]%list_elem_of_filter. rewrite list_elem_of_singleton. lia.
    + intros v ->%list_elem_of_singleton. injection Ecl as Elt Eidx. cbn.
      eapply ballot_node; try done; [by eapply node_range| |right; by rewrite Eidx].
      exists r.1.1. cbn. rewrite lookup_insert_eq. split; [done|lia].
Qed.

(** *** A vote reply *)

(** The election after a reply was counted. *)
Lemma election_safe_count d key el src v w lt li :
  election_safe n d A G key el → src ∈ el.(el_waiting) →
  (v = el.(el_votes) ∨ v = el.(el_votes) + 1 ∧ ballot n d A G src key.2 lt li ∧
     while_candidate d key.1 key.2 (λ cl, cl = (Some lt, li))) →
  election_safe n d A G key (mkElection v w (filter (λ s, s ≠ src) el.(el_waiting))).
Proof using .
  intros Hel Hsrc Hv rf Hrf. destruct (Hel rf Hrf) as [Ht Hvs]. split; [done|].
  intros Hst HT. destruct (Hvs Hst HT) as (lt0 & vs & Hlt & Hnd & Hlen & Hw & Hb). exists lt0. cbn.
  destruct Hv as [->|(-> & Hnew & Hcand)].
  - exists vs. split_and!; [done..| |done]. intros x [_ ?]%list_elem_of_filter. auto.
  - exists (src :: vs). split_and!; [done|..].
    + constructor; auto.
    + rewrite glen_cons. lia.
    + intros x [? ?]%list_elem_of_filter. apply not_elem_of_cons. auto.
    + destruct (Hcand rf Hrf) as [_ E]. specialize (E Hst HT). rewrite E in Hlt, Hb |- *.
      injection Hlt as <-. intros x [->|?]%elem_of_cons; auto.
Qed.

Lemma becomeLeader_match rf rf' srv m :
  becomeLeader rf = Ret rf' → 0 ≤ rf.(me) < rf.(npeers) → rf'.(matchIndex).[srv] = Some m →
  srv = rf.(me) ∨ m = rf.(snapshotIndex).
Proof using .
  unfold becomeLeader. intros Hr Hme. rewrite gset_idx_Ret in Hr by glen_lia. simpl in Hr.
  go_inv Hr. subst rf'.
  cbn. rewrite zlookup_insert by glen_lia. case_decide as E; [by left|].
  intros Hs. right. unfold zlookup in Hs. case_match; [done|]. by apply lookup_replicate in Hs as [-> _].
Qed.

(** The term has no leader yet. *)
Lemma elected_fresh i rf rf' :
  c.(nodes) !! i = Some rf → rf.(state) = Candidate →
  c'.(nodes) !! i = Some rf' → rf'.(state) = Leader → rf'.(currentTerm) = rf.(currentTerm) →
  G !! rf.(currentTerm) = None.
Proof using Hn Hinv Hci' HV.
  intros Hi Hst Hi' Hst' Ht.
  destruct (G !! rf.(currentTerm)) as [[q L]|] eqn:HL; [|done]. exfalso.
  destruct (si_ghost _ _ _ _ _ Hinv _ _ _ HL) as [_ _ (vs & Hm & Hvs) _ _].
  apply (majority_mono _ _ V') in Hm as [Hnd Hm]; [|done].
  destruct (ci_leaders _ _ _ Hci' i rf.(currentTerm)) as (vs' & [Hnd' Hm'] & Hvs'); [by exists rf'|].
  destruct (quorums_intersect n vs vs') as (v & Hv & Hv'); [naive_solver..|].
  destruct (Hm v Hv) as [_ Hin], (Hm' v Hv') as [_ Hin'].
  assert (q = i) as -> by (by eapply (ci_once _ _ _ Hci')).
  destruct (si_nodes _ _ _ _ _ Hinv _ _ Hi) as [F HF].
  apply (ns_candidate _ _ _ _ _ _ _ HF) in Hst as (_ & _ & Hno). by eapply Hno.
Qed.

(** The invariant of the new leader, in a state [d] that has its log. *)
Lemma node_safe_elected i rf rf' F :
  let t := rf.(currentTerm) in let G' := <[t := (i, F)]> G in
  raft_wf rf → rf.(me) = i → node_safe n c A G i rf F → rf.(state) = Candidate →
  becomeLeader rf = Ret rf' → G !! t = None → ext c A G c' A G' →
  (∀ t0 k, at_term G' t0 k → t0 ≠ t ∧ at_term G t0 k) →
  committed_to n A G F t rf.(snapshotIndex) → node_safe n c' A G' i rf' F.
Proof using Hinv.
  intros t G' Hwf Hme HF Hst Hbl Hnone Hext Hat Hsi.
  pose proof (λ srv m, becomeLeader_match rf rf' srv m Hbl (wf_me _ Hwf)) as Hmatch.
  rewrite (becomeLeader_frame _ _ Hbl) in Hmatch |- *.
  pose proof (ex_ghost _ _ _ _ _ _ Hext) as HG.
  destruct HF as [[Hvl Hvn Hvp] Hs Hset Hpre Hlog [Ht Ht0] _ _ Hack _ Hcom Hap]. constructor; try done; cbn.
  - by eapply (settled_mono n A A G G').
  - left. by eapply (committed_to_mono n A A G G').
  - by eapply log_ok_ghost.
  - intros _. apply lookup_insert_eq.
  - intros t0 k Hk. apply (leader_acked A G i rf F) in Hk as [Hk|[_ ->]].
    + destruct (Hack _ _ Hk) as [? Hsafe]. split; [done|]. intros [_ ?]%Hat.
      eapply safe_ext; [exact Hext|auto].
    + split; [done|]. by intros [? _]%Hat.
  - intros _ srv m Hm _ Hne. right. destruct (Hmatch srv m Hm) as [?|E]; [congruence|].
    rewrite E. by apply (committed_to_mono n A A G G').
  - by apply (within_mono n A A G G').
  - by apply (within_mono n A A G G').
Qed.

(** The new leader takes its place. *)
Lemma elected_safe i rf rf' voters lt :
  c.(nodes) !! i = Some rf → rf.(state) = Candidate → becomeLeader rf = Ret rf' →
  c'.(nodes) = <[i := rf']> c.(nodes) → c'.(net) = c.(net) → c'.(heartbeats) = c.(heartbeats) →
  (∀ key el, c'.(elections) !! key = Some el →
     c.(elections) !! key = Some el ∨ key = (i, rf.(currentTerm))) →
  last_term rf = Some lt → NoDup voters → n / 2 < glen voters →
  (∀ v, v ∈ voters → ballot n c A G v rf.(currentTerm) lt (lastLogIndex rf)) →
  ∃ G', ghost_le G G' ∧ safety_inv n V' A G' c'.
Proof using Hn Hinv Hci Hci' HV.
  intros Hi Hst Hbl Hnodes Hnet Hhb Helec Hlt Hnd Hlen Hbal.
  destruct (si_nodes _ _ _ _ _ Hinv _ _ Hi) as [F HF].
  destruct (ci_nodes _ _ _ Hci _ _ Hi) as [Hme Hnp Hwf _].
  assert (c'.(nodes) !! i = Some rf') as Hi' by (by rewrite Hnodes, lookup_insert_eq).
  assert (rf'.(state) = Leader ∧ rf'.(currentTerm) = rf.(currentTerm) ∧
    rf'.(snapshotIndex) = rf.(snapshotIndex)) as (Est & Et & Es) by (by rewrite (becomeLeader_frame _ _ Hbl)).
  assert (G !! rf.(currentTerm) = None) as Hnone by by eapply (elected_fresh i rf rf').
  pose proof (elected_log n V c A G i rf F voters lt Hn Hinv Hwf HF Hnone Hlt Hnd Hlen Hbal) as Hsafe.
  set (t := rf.(currentTerm)) in *. exists (<[t := (i, F)]> G). set (G' := <[t := (i, F)]> G).
  assert (∀ q L, G !! t = Some (q, L) → q = i ∧ L `prefix_of` F) as Hown by congruence.
  destruct (ns_candidate _ _ _ _ _ _ _ HF Hst) as (Hpos & Hterms & _).
  assert (ext c A G c' A G') as Hext.
  { eapply leader_ext; [done..|]. intros k e He Het. specialize (Hterms _ _ He). lia. }
  assert (∀ t0 k, at_term G' t0 k → t0 ≠ t ∧ at_term G t0 k) as Hat.
  { intros t0 k (q & L & e & HL & He & Het). apply lookup_insert_Some in HL as [[<- [= <- <-]]|[Hne HL]].
    - specialize (Hterms _ _ He). lia.
    - split; [done|]. by exists q, L, e. }
  assert (committed_to n A G F t rf.(snapshotIndex)) as Hcom.
  { destruct (ns_settled _ _ _ _ _ _ _ HF) as [[-> _]|(tc & kc & s & Hch & Htc & Hs & Hin)]; [by left|].
    right. exists tc, kc. split_and!; [done|lia|done|].
    destruct (Hsafe tc kc) as [Hc|Hno]; [|apply Hch| |by destruct (chosen_nochoose n c A G tc kc)].
    - destruct Hin as (q & L & _ & HL & _). destruct (decide (tc = t)); [congruence|lia].
    - eapply contains_le; [|done]. lia. }
  split; [by eapply leader_ghost_le|].
  eapply (leader_step n V V' c c' A G i rf rf' F); try done.
  - exists F. by eapply (node_safe_elected i rf rf' F).
  - constructor.
    + eapply log_ok_ghost; [by eapply leader_ghost_le|apply HF].
    + split; [apply HF|done].
    + destruct (ci_leaders _ _ _ Hci' i t) as (vs & ? & ?); [by exists rf'|by exists vs].
    + exists rf'. split; [done|lia].
    + intros t0 k Hlt0 [_ Hat0]%Hat. eapply safe_ext; [done|auto].
  - intros key el Hkey. destruct (Helec _ _ Hkey) as [?| ->]; [by left|right].
    intros r Hr. cbn in Hr. rewrite Hi' in Hr. injection Hr as <-. split; [cbn; lia|].
    by rewrite Est.
Qed.

Lemma vote_reply_safe src args reply :
  RVRep src args reply ∈ c.(net) → deliverVote src args reply c = Ret c' →
  ∃ G', ghost_le G G' ∧ safety_inv n V' A G' c'.
Proof using Hn Hinv Hci Hci' HV.
  intros Hin. unfold deliverVote. set (key := (CandidateId args, rv_Term args)).
  assert (safety_inv n V' A G c → ∃ G', ghost_le G G' ∧ safety_inv n V' A G' c) as Hsame by (by exists G).
  pose proof (si_net _ _ _ _ _ Hinv _ Hin) as Hpk. cbn in Hpk. destruct Hpk as [Hcand Hbal].
  destruct (elections c !! key) as [el|] eqn:Hel;
    [case_match; [|intros [= <-]; by eapply Hsame, safety_same]|
     intros [= <-]; by eapply Hsame, safety_same].
  intros Hr. apply on_node_inv in Hr as [->|(rf & r & Hi & Hr & Hc')].
  { by eapply Hsame, safety_same. }
  rename select (bool_decide _ = true) into Hsrc. apply bool_decide_eq_true in Hsrc.
  pose proof (si_elections _ _ _ _ _ Hinv _ _ Hel) as Hels.
  assert (c'.(nodes) = <[args.(CandidateId) := r.1.1]> c.(nodes) ∧ c'.(net) = c.(net) ∧
    c'.(heartbeats) = c.(heartbeats) ∧ c'.(elections) = <[key := mkElection r.1.2 r.2
      (filter (λ s, s ≠ src) el.(el_waiting))]> c.(elections)) as (En & Enet & Eh & Ee) by (by subst c').
  clear Hc'. destruct (onVoteReply_elected _ _ _ _ _ _ Hr) as [[Hidle Hv]|(Hst & Ht & Hg & Hv & Hq & Hbl)].
  - exists G. split; [done|]. eapply (step_node_local n V V' c c' A G _ rf r.1.1); try done.
    { apply quiet_node_le, Hidle. }
    intros F Hext HF. split_and!.
    + exists F. by eapply node_safe_idle.
    + rewrite Eh. by left.
    + rewrite Ee. intros k0 el0 [[<- <-]|[_ ?]]%lookup_insert_Some; [right|by left].
      eapply (election_safe_count c' key el src _ _ args.(LastLogTerm) args.(LastLogIndex));
        [by eapply election_safe_ext|done|].
      destruct Hv as [->|[-> Hg]]; [by left|right]. split_and!; [done|by eapply ballot_ext, Hbal|].
      eapply while_candidate_ext; [exact Hext| |exact Hcand]. done.
  - destruct (Hels rf Hi) as [_ Hvs].
    destruct (Hvs Hst Ht) as (lt & vs & Hlt & Hnd & Hlen & Hw & Hb).
    destruct (Hcand rf Hi) as [_ E]. specialize (E Hst Ht). destruct (ci_nodes _ _ _ Hci _ _ Hi) as [_ Hnp _ _].
    eapply (elected_safe args.(CandidateId) rf r.1.1 (src :: vs) lt); try done.
    + rewrite Ee. intros k0 el0 [[<- _]|[_ ?]]%lookup_insert_Some; [right|by left].
      unfold key. by rewrite Ht.
    + constructor; auto.
    + rewrite glen_cons. rewrite <-Hnp, Hlen, Z.add_comm. exact Hq.
    + assert (lastLogIndex rf = args.(LastLogIndex)) as -> by (unfold claims in E; congruence).
      rewrite E in Hlt, Hb. injection Hlt as <-. rewrite Ht. intros x [->|Hx]%elem_of_cons; [by apply Hbal|].
      by apply Hb.
Qed.
End elect_steps.
