(* ===== verification/RaftReplicate.v ===== *)
(** * State machine safety: replication

    A follower that accepts the entries of a leader takes over the leader's
    log as far as the message reaches and keeps what both already share; an
    index a leader commits is acked by a majority in the leader's own term, or
    lies before something chosen. The file proves that the events of
    replication ([AppendEntries] and its reply, heartbeats,
    [updateCommitIndex], [Start]) preserve the invariant of [RaftSafety.v]. *)

From S2P Require Import Prelude Gob Persister Raft RaftNode RaftSpec RaftLog RaftCluster RaftMatching RaftSafety RaftSteps.
From Stdlib Require Import Strings.Byte.

(** ** Accepted entries in the virtual log *)

Section accept_log.
Context {Cmd : Type} `{GobLaws Z, GobLaws (list (LogEntry Cmd))}.
Implicit Types (c : Cluster Cmd) (rf : Raft Cmd) (A : Acks) (G : Ghost Cmd).
Implicit Types (l L F : list (LogEntry Cmd)) (t k : Z).

Lemma slice_bound (p : Z) entries L :
  slice_of p entries L → p < glen L → p + glen entries < glen L.
Proof.
  intros Hs Hp. destruct entries as [|e es _] using rev_ind.
  { rewrite glen_nil. lia. }
  specialize (Hs (length es) e). rewrite lookup_app_r, Nat.sub_diag in Hs by lia.
  specialize (Hs eq_refl). apply zlookup_lt_Some in Hs. rewrite glen_app, glen_cons, glen_nil.
  unfold glen at 1. lia.
Qed.

(** Merging into the peer's log is merging into its virtual log. *)
Lemma merge_virtual (s p : nat) es l F :
  drop 1 l = drop (S s) F → (s ≤ p < length F)%nat → (0 < length l)%nat →
  drop 1 (merge_log (p - s + 1) es l) = drop (S s) (merge_log (S p) es F).
Proof.
  intros Hd Hp Hl.
  assert (drop (p - s + 1) l = drop (S p) F) as E.
  { rewrite Nat.add_comm, <-drop_drop, Hd, drop_drop. f_equal. lia. }
  assert (length (drop 1 l) = length (drop (S s) F)) as El by by rewrite Hd.
  rewrite !length_drop in El.
  unfold merge_log. rewrite E. case_decide; [done|].
  set (j := agree_len _ es). rewrite !drop_app_le by (rewrite length_take; lia). f_equal.
  rewrite !skipn_firstn_comm, Hd. f_equal. lia.
Qed.
End accept_log.

(** ** The invariant of a follower that accepted a message *)

Section accept_node.
Context {Cmd : Type} `{GobLaws Z, GobLaws (list (LogEntry Cmd))}.
Implicit Types (l F : list (LogEntry Cmd)) (t k : Z).
Context (n : Z) (V : history) (c : Cluster Cmd) (A : Acks) (G : Ghost Cmd).
Context (i : Z) (rf : Raft Cmd) (F : list (LogEntry Cmd)) (m : AppendEntriesArgs Cmd).
Context (q : Z) (L : list (LogEntry Cmd)).
Context (Hn : 0 ≤ n) (Hinv : safety_inv n V A G c) (Hwf : raft_wf rf) (HF : node_safe n c A G i rf F).
Context (HL : G !! m.(ae_Term) = Some (q, L)) (Hle : rf.(currentTerm) ≤ m.(ae_Term)).

(** The message does not refer to an index before the log. *)
Lemma append_ok_aligned :
  append_ok m rf → aligned m L →
  rf.(snapshotIndex) ≤ m.(PrevLogIndex) < glen F ∧ m.(PrevLogIndex) < glen L ∧
  slice_of m.(PrevLogIndex) m.(Entries) L ∧
  (rf.(snapshotIndex) < m.(PrevLogIndex) → agree m.(PrevLogIndex) F L).
Proof using Hinv Hwf HF HL.
  intros [Hsi Hterm] Ha. destruct HF as [Hvi _ Hset _ Hok _ _ _ _ _ _ _].
  destruct (si_ghost _ _ _ _ _ Hinv _ _ _ HL) as [HLok _ _ _ _].
  unfold term_at in Hterm. destruct (entry_at rf m.(PrevLogIndex)) as [e|] eqn:He; [|done].
  injection Hterm as Het. pose proof (entry_at_Some _ _ _ He) as Hb.
  rewrite (virtual_length _ _ Hvi) in Hb. pose proof (wf_snap _ Hwf).
  destruct Ha as [(Hb' & Hsl & s & e' & Hs & He' & Het')|[?|[Hpos Hz]]]; [|lia|exfalso].
  - split_and!; [lia..|done|]. intros Hlt. rewrite (virtual_entry _ _ _ Hvi Hlt) in He.
    eapply (matched_agree_le G F L _ s); [done..|congruence].
  - destruct (decide (rf.(snapshotIndex) < m.(PrevLogIndex))) as [Hlt|Hge].
    + rewrite (virtual_entry _ _ _ Hvi Hlt) in He. destruct (lo_matched _ _ Hok _ _ Hpos He). lia.
    + assert (m.(PrevLogIndex) = rf.(snapshotIndex)) as E by lia. rewrite E in He.
      unfold entry_at in He. rewrite Z.sub_diag in He. pose proof (wf_head _ Hwf) as Hh.
      rewrite He in Hh. injection Hh as Hh.
      destruct Hset as [[? _]|(t & k & s & _ & _ & Hs & Hin)]; [lia|].
      destruct (term_in_bounds _ _ _ _ _ _ _ _ Hinv Hin) as (_ & _ & Hst). lia.
Qed.

(** What the accepted message makes of the virtual log. *)
Record takes_over (F' : list (LogEntry Cmd)) : Prop := {
  to_ok : log_ok G F';
  to_terms : ∀ t, terms_le t F → terms_le t L → terms_le t F';
  to_agree : agree (m.(PrevLogIndex) + glen m.(Entries)) F' L;
  to_keeps : ∀ k e, L.[k] = Some e → agree k F L → agree k F' L;
}.

Lemma takes_over_merge :
  rf.(snapshotIndex) ≤ m.(PrevLogIndex) < glen F → m.(PrevLogIndex) < glen L →
  slice_of m.(PrevLogIndex) m.(Entries) L → agree m.(PrevLogIndex) F L →
  ∃ F', takes_over F' ∧ drop 1 (accepted_log m rf) = drop (S (Z.to_nat rf.(snapshotIndex))) F'.
Proof using Hinv Hwf HF HL.
  intros Hb HbL Hsl Hag. destruct HF as [[Hvl Hvn Hvp] _ _ _ Hok _ _ _ _ _ _ _].
  destruct (si_ghost _ _ _ _ _ Hinv _ _ _ HL) as [HLok _ _ _ _]. pose proof (wf_snap _ Hwf).
  set (p := Z.to_nat m.(PrevLogIndex)). assert (Z.of_nat p = m.(PrevLogIndex)) as Ep by lia.
  exists (merge_log (S p) m.(Entries) F). rewrite <-Ep in Hsl, Hag. unfold glen in *.
  assert ((p < length F)%nat ∧ (p < length L)%nat) as [HlF HlL] by lia. split; [constructor|].
  - by eapply merge_log_ok.
  - intros t. by eapply merge_terms_le.
  - rewrite <-Ep. by eapply merge_agree.
  - intros k e. by eapply merge_keeps.
  - unfold accepted_log. rewrite <-(merge_virtual _ _ _ rf.(log)) by (done || lia). do 2 f_equal. lia.
Qed.

Lemma takes_over_fresh :
  m.(PrevLogIndex) = rf.(snapshotIndex) → m.(PrevLogIndex) < glen L → m.(Entries) ≠ [] →
  agree_len (drop (S (Z.to_nat m.(PrevLogIndex))) F) m.(Entries) = 0%nat →
  slice_of m.(PrevLogIndex) m.(Entries) L →
  ∃ F', takes_over F' ∧ drop 1 (accepted_log m rf) = drop (S (Z.to_nat rf.(snapshotIndex))) F'.
Proof using Hinv Hwf HF HL.
  intros Hp HbL Hne Hj Hsl. destruct HF as [[Hvl Hvn Hvp] _ _ _ Hok _ _ _ _ _ _ _].
  destruct (si_ghost _ _ _ _ _ Hinv _ _ _ HL) as [HLok _ _ _ _]. pose proof (wf_snap _ Hwf).
  set (p := Z.to_nat m.(PrevLogIndex)) in *. assert (Z.of_nat p = m.(PrevLogIndex)) as Ep by lia.
  pose proof (slice_bound _ _ _ Hsl HbL) as Hb. rewrite <-Ep in Hsl.
  exists (take (S p + length m.(Entries)) L). unfold glen in *. split; [constructor|].
  - apply log_ok_take; [lia|done].
  - intros t _ Ht j e He. apply (Ht j). rewrite <-He. symmetry. apply zlookup_take.
    apply zlookup_lt_Some in He. unfold glen in He. rewrite length_take in He. lia.
  - apply agree_take. unfold glen. lia.
  - intros k e Hk Hag. by eapply fresh_keeps.
  - rewrite <-Hp. fold p. rewrite fresh_drop by done. unfold accepted_log.
    replace (Z.to_nat (_ - _ + 1)) with 1%nat by lia. apply fresh_merge; [done| |lia].
    rewrite Hvl, <-Hp. done.
Qed.

(** Either nothing is new, or the log takes over the leader's. *)
Lemma accept_cases :
  append_ok m rf → aligned m L →
  (m.(PrevLogIndex) + glen m.(Entries) = rf.(snapshotIndex) ∧ accepted_log m rf = rf.(log)) ∨
  rf.(snapshotIndex) < m.(PrevLogIndex) + glen m.(Entries) < glen L ∧
  ∃ F', takes_over F' ∧ drop 1 (accepted_log m rf) = drop (S (Z.to_nat rf.(snapshotIndex))) F'.
Proof using Hinv Hwf HF HL.
  intros Hok Ha. destruct (append_ok_aligned Hok Ha) as (Hb & HbL & Hsl & Hag).
  pose proof (slice_bound _ _ _ Hsl HbL) as Hlen. pose proof (wf_snap _ Hwf).
  assert (0 ≤ glen m.(Entries)) by (unfold glen; lia).
  destruct (decide (rf.(snapshotIndex) < m.(PrevLogIndex))) as [Hlt|Hge].
  { right. split; [lia|]. apply takes_over_merge; auto. }
  assert (m.(PrevLogIndex) = rf.(snapshotIndex)) as E by lia.
  destruct (decide (m.(Entries) = [])) as [Hnil|Hne].
  { left. rewrite Hnil, glen_nil. unfold accepted_log. rewrite Hnil, merge_log_nil. split; [lia|done]. }
  right. assert (0 < glen m.(Entries)).
  { destruct m.(Entries); [done|]. rewrite glen_cons. unfold glen. lia. }
  split; [lia|].
  destruct (decide (agree_len (drop (S (Z.to_nat m.(PrevLogIndex))) F) m.(Entries) = 0%nat)) as [Hj|Hj].
  - by apply takes_over_fresh.
  - apply takes_over_merge; try done. rewrite <-(Z2Nat.id m.(PrevLogIndex)) by lia.
    destruct (si_ghost _ _ _ _ _ Hinv _ _ _ HL) as [HLok _ _ _ _].
    eapply known_entries_agree; [apply HF|done| |done]. by rewrite Z2Nat.id by lia.
Qed.

(** What the follower has of a leader log survives. *)
Lemma takes_over_contains F' t k :
  takes_over F' → 0 ≤ k → contains G F t k → (t ≠ m.(ae_Term) → contains G L t k) → contains G F' t k.
Proof using HL.
  intros HF' Hk HcF HcL.
  assert (contains G L t k) as HcL'.
  { destruct (decide (t = m.(ae_Term))) as [->|]; [|auto]. destruct HcF as (q' & L' & HL' & Hlen & _).
    rewrite HL in HL'. injection HL' as <- <-. by eapply contains_own. }
  destruct (contains_entry _ _ _ _ HcL' Hk) as [e He].
  eapply contains_agree; [|exact HcL']. apply agree_sym. eapply to_keeps; [done..|].
  by eapply contains_same.
Qed.

Lemma takes_over_committed F' k :
  takes_over F' → committed_to n A G F rf.(currentTerm) k → committed_to n A G F' m.(ae_Term) k.
Proof using Hn Hinv HL Hle.
  intros HF' [?|(t & k1 & Hch & Hk1 & Ht & Hc)]; [by left|]. destruct (decide (k ≤ 0)); [by left|right].
  exists t, k1. split_and!; [done..|lia|]. eapply takes_over_contains; [done|lia|done|]. intros _.
  eapply contains_le; [exact Hk1|]. eapply chosen_leader; [done..|lia].
Qed.

Lemma node_safe_accept c' A' rf' F' :
  ext c A G c' A' G → takes_over F' →
  rf.(snapshotIndex) < m.(PrevLogIndex) + glen m.(Entries) < glen L →
  committed_to n A G L m.(ae_Term) m.(LeaderCommit) →
  (∀ t k, acked A' G i t k → acked A G i t k ∨
     t = m.(ae_Term) ∧ k ≤ m.(PrevLogIndex) + glen m.(Entries)) →
  0 < glen rf'.(log) → drop 1 rf'.(log) = drop (S (Z.to_nat rf.(snapshotIndex))) F' →
  rf'.(snapshotIndex) = rf.(snapshotIndex) → rf'.(snapshotTerm) = rf.(snapshotTerm) →
  rf'.(commitIndex) = new_commit m rf.(commitIndex) → rf'.(lastApplied) = rf.(lastApplied) →
  rf'.(currentTerm) = m.(ae_Term) → rf'.(state) = Follower →
  node_safe n c' A' G i rf' F'.
Proof using Hn Hinv HF HL Hle.
  intros Hext HF' Hb Hcom Hacks Hlen El Es Esn Ec Ea Et Est.
  pose proof (λ k, takes_over_committed F' k HF') as Htc.
  pose proof (λ t k, takes_over_contains F' t k HF') as Hto.
  destruct HF as [Hvi Hs Hset Hpre Hok [Hterms Ht0] _ _ Hack _ Hcom0 Hap]. destruct HF' as [Hok' Hter Hag Hkeep].
  destruct (si_ghost _ _ _ _ _ Hinv _ _ _ HL) as [HLok [HLt _] _ _ HLsafe].
  pose proof (ex_acks _ _ _ _ _ _ Hext) as HA.
  assert (∀ k, committed_to n A G F' m.(ae_Term) k → committed_to n A' G F' m.(ae_Term) k) as Hmono.
  { intros k. by apply (committed_to_mono n A A' G G). }
  assert (rf.(snapshotIndex) + 1 < glen F') as HlF.
  { destruct (zlookup_is_Some L (m.(PrevLogIndex) + glen m.(Entries))) as [x Hx]; [lia|].
    rewrite <-Hag in Hx by lia. apply zlookup_lt_Some in Hx. lia. }
  assert (∀ k, within n A G rf F k → within n A' G rf' F' k) as Hwithin.
  { intros k [?|Hk]; [left; lia|right]. rewrite Et. auto. }
  constructor; rewrite ?Es, ?Esn, ?Et, ?Est; try done.
  - constructor; rewrite ?Es; try done. lia.
  - eapply (settled_mono n A A' G G); [done..|]. by eapply settled_le.
  - by right.
  - split; [|lia]. apply Hter; [|done]. intros j e He. specialize (Hterms j e He). lia.
  - intros t k [Hk|[-> Hk]]%Hacks.
    + destruct (Hack _ _ Hk) as [? Hsafe]. split; [lia|]. intros Hat. eapply safe_ext; [done|].
      destruct (at_term_pos _ _ _ _ _ _ _ Hinv Hat) as [_ ?].
      destruct (Hsafe Hat) as [Hc|?]; [|by right]. destruct (decide (t = m.(ae_Term))) as [->|Hne].
      * left. apply Hto; [lia|done..].
      * destruct (HLsafe t k) as [?|?]; [lia|done| |by right]. left. by apply Hto; [lia|..].
    + split; [lia|]. intros _. left. exists q, L. split_and!; [done|lia|]. by eapply agree_mono.
  - rewrite Ec. unfold new_commit. case_decide; [right|by apply Hwithin].
    rewrite Et. apply Hmono. eapply committed_to_agree; [|by eapply committed_to_le; [|reflexivity|exact Hcom]; lia].
    apply agree_sym. eapply agree_mono; [|exact Hag]. lia.
  - rewrite Ea. by apply Hwithin.
Qed.
End accept_node.

(** ** Steps *)

Section replicate_steps.
Context {Cmd : Type} `{GobLaws Z, GobLaws (list (LogEntry Cmd))}.
Implicit Types (rf : Raft Cmd) (F : list (LogEntry Cmd)).
Context (n : Z) (V V' : history) (c c' : Cluster Cmd) (A : Acks) (G : Ghost Cmd).
Context (Hn : 0 ≤ n) (Hinv : safety_inv n V A G c) (Hci : cluster_inv n V c).
Context (Hci' : cluster_inv n V' c') (HV : V ⊆ V').

Lemma AppendEntries_frame now m rf r :
  AppendEntries now m rf = Ret r →
  r.1.(lastApplied) = rf.(lastApplied) ∧ r.1.(snapshotTerm) = rf.(snapshotTerm).
Proof using .
  unfold AppendEntries. intros Hr. case_match; [go_inv Hr; by subst|].
  destruct (observed_fields now m.(ae_Term) rf) as (_ & _ & _ & Ha & Hs & _). rewrite <-Ha, <-Hs.
  unfold appendEntriesLog in Hr. go_cases Hr; subst; try done; cbn [fst];
    by rewrite followerCommit_eq.
Qed.

Lemma accepted_log_pos m rf : raft_wf rf → append_ok m rf → 0 < glen (accepted_log m rf).
Proof using .
  intros Hwf [Hs Ht]. unfold accepted_log.
  assert (Z.to_nat (m.(PrevLogIndex) - rf.(snapshotIndex) + 1) ≤ length rf.(log))%nat as Hle.
  { unfold term_at in Ht. destruct (entry_at rf _) as [e|] eqn:He; [|done].
    apply entry_at_Some in He. unfold lastLogIndex, glen in He. lia. }
  pose proof (merge_log_length _ m.(Entries) _ Hle). unfold glen. lia.
Qed.

Lemma append_safe now dst m :
  AEReq dst m ∈ c.(net) → deliver now (AEReq dst m) c = Ret c' →
  ∃ A', A ⊆ A' ∧ safety_inv n V' A' G c'.
Proof using Hn Hinv Hci Hci' HV.
  intros Hin Hr. assert (safety_inv n V' A G c' → ∃ A', A ⊆ A' ∧ safety_inv n V' A' G c') as Hsame by (by exists A).
  apply on_node_inv in Hr as [->|(rf & r & Hi & Hr & ->)].
  { by eapply Hsame, safety_same. }
  destruct (ci_nodes _ _ _ Hci _ _ Hi) as [Hme Hnp Hwf _].
  destruct (Success r.2) eqn:Hsuc.
  2: { apply Hsame. eapply (step_idle n V V' c _ A G dst rf r.1 [AERep dst m r.2]); try done.
    - by eapply AppendEntries_fail_idle.
    - intros F _ _ _ p ->%list_elem_of_singleton. cbn. congruence. }
  destruct (si_net _ _ _ _ _ Hinv _ Hin) as (q & L & HL & Ha & Hcom).
  destruct (si_nodes _ _ _ _ _ Hinv _ _ Hi) as [F HF].
  destruct (AppendEntries_result now m rf Hwf) as ([rf' reply] & Hr' & _ & Hok & _ & Hyes).
  pose proof (Ret_det _ _ _ Hr Hr') as ->. cbn [fst snd] in *.
  destruct (proj1 Hok Hsuc) as [Hle Hap]. destruct (Hyes Hsuc) as (El & Es & Ec & Et & Est).
  destruct (AppendEntries_frame _ _ _ _ Hr) as [Ea Esn]. cbn in Ea, Esn.
  destruct (accept_cases n V c A G dst rf F m q L Hinv Hwf HF HL Hap Ha) as [[Hold Elog]|(Hb & F' & HF' & Hvl)].
  - apply Hsame. assert (idle rf rf') as Hidle.
    { constructor; [constructor; try (by rewrite Est)|..].
      - by rewrite El.
      - done.
      - done.
      - by rewrite Et.
      - rewrite Ec. unfold new_commit. case_decide; lia.
      - lia.
      - by rewrite Est. }
    eapply (step_idle n V V' c _ A G dst rf rf' [AERep dst m reply]); try done.
    intros F0 _ _ _ p ->%list_elem_of_singleton _. exists q, L. split; [done|right]. rewrite Hold.
    eapply settled_committed; [done..| |done]. eapply settled_le; [exact Hle|apply HF].
  - exists ([(dst, m.(ae_Term), m.(PrevLogIndex) + glen m.(Entries))] ++ A).
    split; [intros a ?; apply elem_of_app; by right|].
    eapply (step_node n V V' c _ A _ G dst rf rf' [AERep dst m reply]); try done.
    { split; [lia|]. split; [lia|]. by rewrite Est. }
    { intros q0 t0 k0 [= -> -> ->]%list_elem_of_singleton. split_and!; [done..|].
      exists q, L. split; [done|lia]. }
    intros Hext _ Hacks. split_and!; [exists F'| |by left..].
    + eapply (node_safe_accept n V c A G dst rf F m q L); try done.
      * intros t k [?|(_ & k' & [= E1 ->]%list_elem_of_singleton & ?)]%Hacks; [by left|by right].
      * rewrite El. by apply accepted_log_pos.
      * by rewrite El.
    + intros p ->%list_elem_of_singleton _. exists q, L. split; [done|left; left].
      exists (m.(PrevLogIndex) + glen m.(Entries)). split; [by left|lia].
Qed.

Lemma onAppendEntriesReply_cases srv m reply rf rf' :
  onAppendEntriesReply srv m reply rf = Ret rf' →
  idle rf rf' ∨
  reply.(Success) = true ∧ rf.(currentTerm) = m.(ae_Term) ∧ rf.(state) = Leader ∧ quiet rf rf' ∧
  rf'.(commitIndex) = rf.(commitIndex) ∧ rf'.(lastApplied) = rf.(lastApplied) ∧
  ∀ s k, rf'.(matchIndex).[s] = Some k → rf.(matchIndex).[s] = Some k ∨
    s = srv ∧ k = m.(PrevLogIndex) + glen m.(Entries).
Proof using .
  unfold onAppendEntriesReply. intros Hr. case_match eqn:Hb; [|go_inv Hr; subst; by left].
  apply andb_true_iff in Hb as [Hst%bool_decide_eq_true Ht%Z.eqb_eq].
  case_match eqn:Hs.
  - go_inv Hr. apply gidx_Ret in Ha. case_match; [|go_inv Hr; subst; by left].
    go_inv Hr. subst rf'. right. split_and!; try done. cbn. intros s k Hk.
    apply zlookup_lt_Some in Ha as Hb. rewrite gset_idx_Ret in Ha0 by done.
    injection Ha0 as <-. rewrite zlookup_insert in Hk by done.
    case_decide; [right|by left]. split; [done|congruence].
  - left. case_match eqn:Hlt; go_inv Hr; subst rf'.
    + apply stepDown_idle. lia.
    + by apply idle_same.
Qed.

(** A leader learns the position of a follower. *)
Lemma match_safe d i rf rf' srv k0 :
  cluster_inv n V' d →
  c.(nodes) !! i = Some rf → d.(nodes) = <[i := rf']> c.(nodes) → d.(net) = c.(net) →
  d.(heartbeats) = c.(heartbeats) → d.(elections) = c.(elections) →
  quiet rf rf' → rf.(state) = Leader →
  rf'.(commitIndex) = rf.(commitIndex) → rf'.(lastApplied) = rf.(lastApplied) →
  (∀ s k, rf'.(matchIndex).[s] = Some k → rf.(matchIndex).[s] = Some k ∨ s = srv ∧ k = k0) →
  (∃ q L, G !! rf.(currentTerm) = Some (q, L) ∧
     (acked A G srv rf.(currentTerm) k0 ∨ committed_to n A G L rf.(currentTerm) k0)) →
  safety_inv n V' A G d.
Proof using Hinv HV.
  intros Hd Hi Hn' Hnet Hhb Hel Hq Hst Ec Ea Hm (q & L & HL & Hk).
  eapply (step_node_local n V V' c d A G i rf rf'); try done; [by apply quiet_node_le|].
  intros F Hext HF. split_and!; [exists F|rewrite Hhb; by left|rewrite Hel; by left].
  pose proof (q_snap _ _ Hq). pose proof (q_term _ _ Hq).
  eapply node_safe_quiet; [exact HF|done|..].
  - eapply within_le; [| | |apply HF]; lia.
  - eapply within_le; [| | |exact (ns_applied _ _ _ _ _ _ _ HF)]; lia.
  - intros Hst' s k Hk' H1' Hne. destruct (Hm _ _ Hk') as [?|[-> ->]].
    + by eapply (ns_match _ _ _ _ _ _ _ HF).
    + rewrite (ns_leader _ _ _ _ _ _ _ HF Hst) in HL. by injection HL as _ <-.
Qed.

Lemma append_reply_safe now src m reply :
  AERep src m reply ∈ c.(net) → deliver now (AERep src m reply) c = Ret c' → safety_inv n V' A G c'.
Proof using Hinv Hci Hci' HV.
  intros Hin Hr. apply on_node_inv in Hr as [->|(rf & rf' & Hi & Hr & ->)].
  { by eapply safety_same. }
  destruct (onAppendEntriesReply_cases _ _ _ _ _ Hr) as [Hidle|(Hs & Ht & Hst & Hq & Ec & Ea & Hm)].
  { by eapply (step_idle_local n V V' c _ A G _ rf rf'). }
  eapply match_safe; try done. rewrite Ht. by apply (si_net _ _ _ _ _ Hinv _ Hin).
Qed.

(** *** Heartbeats *)

Lemma heartbeat_safe_step i : cexec (EvHeartbeat i) c = Ret c' → safety_inv n V' A G c'.
Proof using Hn Hinv Hci Hci' HV.
  intros Hr. apply on_node_inv in Hr as [->|(rf & hb & Hi & Hr & ->)].
  { by eapply safety_same. }
  injection Hr as <-. unfold sendHeartbeats in *. destruct (bool_decide _) eqn:Hst;
    [apply bool_decide_eq_true in Hst|by eapply safety_same].
  eapply (step_node_noack n V V' c _ A G i rf rf []); try done.
  { cbn. by rewrite insert_id. } { apply node_le_refl. }
  intros F Hext _ HF HF'. split_and!; [by exists F|by intros p ?%not_elem_of_nil| |by left].
  intros j hb. cbn. intros [[= -> ->]|?]%elem_of_cons; [right|by left].
  split; [apply HF|]. split; [cbn; rewrite Hi; by intros r [= <-]|].
  exists i, F. split; [by apply HF|]. cbn. eapply leader_within; [done..|apply HF].
Qed.

(** The packet a goroutine of [sendHeartbeats] sends. *)
Lemma heartbeatMsg_term hb srv rf msg :
  heartbeatMsg hb srv rf = Ret (Some msg) → rf.(state) = Leader ∧ rf.(currentTerm) = hb.(hb_currentTerm).
Proof using .
  unfold heartbeatMsg. intros Hr. case_match eqn:Hb; [by go_inv Hr|].
  by apply orb_false_iff in Hb as [Hst%negb_false_iff%bool_decide_eq_true Ht%negb_false_iff%Z.eqb_eq].
Qed.

(** The entries after [p] in the peer's log are those of the virtual log. *)
Lemma virtual_slice rf F p :
  virtual rf F → rf.(snapshotIndex) ≤ p → slice_of p (drop (Z.to_nat (p - rf.(snapshotIndex) + 1)) rf.(log)) F.
Proof using .
  intros Hvi Hp k e Hk. rewrite lookup_drop, <-zlookup_nat in Hk.
  rewrite <-(virtual_entry _ _ _ Hvi) by lia. unfold entry_at. rewrite <-Hk. f_equal. lia.
Qed.

(** What the leader sends for [p = next - 1] when it has an entry there. *)
Lemma aligned_log i rf F p (m : AppendEntriesArgs Cmd) :
  raft_wf rf → node_safe n c A G i rf F → rf.(state) = Leader → 0 ≤ p - rf.(snapshotIndex) < glen rf.(log) →
  m.(PrevLogIndex) = p → le_Term <$> rf.(log).[p - rf.(snapshotIndex)] = Some m.(PrevLogTerm) →
  slice_of p m.(Entries) F → aligned m F.
Proof using Hn Hinv.
  intros Hwf HF Hst Hb <- Ht Hsl. left. pose proof (ns_virtual _ _ _ _ _ _ _ HF) as Hvi.
  pose proof (virtual_length _ _ Hvi) as Hlen. unfold lastLogIndex in Hlen.
  pose proof (wf_snap _ Hwf). split; [lia|]. split; [done|].
  destruct (decide (rf.(snapshotIndex) < m.(PrevLogIndex))) as [Hlt|Hge].
  - change (rf.(log).[_]) with (entry_at rf m.(PrevLogIndex)) in Ht.
    rewrite (virtual_entry _ _ _ Hvi Hlt) in Ht. exists m.(PrevLogIndex).
    destruct (F.[_]) as [e|]; [|done]. injection Ht as <-. exists e. split_and!; [lia|done..].
  - assert (m.(PrevLogIndex) = rf.(snapshotIndex)) as E by lia. rewrite E, Z.sub_diag, (wf_head _ Hwf) in Ht.
    injection Ht as <-. destruct (settled_leader n V c A G rf.(currentTerm) rf.(snapshotIndex)
      rf.(snapshotTerm) i F) as (s & e & Hs & He & Het & _); [done..|apply HF|by apply HF|].
    exists s, e. split_and!; [lia|done..].
Qed.

Lemma heartbeatMsg_packet i hb srv rf F msg :
  raft_wf rf → node_safe n c A G i rf F →
  hb.(hb_snapshotIndex) = 0 ∨ 2 ≤ hb.(hb_snapshotIndex) → hb.(hb_snapshotIndex) ≤ rf.(snapshotIndex) →
  heartbeatMsg hb srv rf = Ret (Some msg) →
  match msg with
  | SendInstallSnapshot a => a.(is_Term) = hb.(hb_currentTerm) ∧
      snapshot_of n A G F hb.(hb_currentTerm) a.(LastIncludedIndex) a.(LastIncludedTerm)
  | SendAppendEntries m => m.(ae_Term) = hb.(hb_currentTerm) ∧ m.(LeaderCommit) = hb.(hb_commitIndex) ∧ aligned m F
  end.
Proof using Hn Hinv.
  intros Hwf HF Hhb Hle Hr. destruct (heartbeatMsg_term _ _ _ _ Hr) as [Hst Ht].
  unfold heartbeatMsg in Hr. rewrite bool_decide_eq_true_2, (proj2 (Z.eqb_eq _ _) Ht) in Hr by done.
  cbn [negb orb] in Hr. go_inv Hr. pose proof (ns_virtual _ _ _ _ _ _ _ HF) as Hvi.
  pose proof (wf_snap _ Hwf) as Hsi0. pose proof (wf_log_nonempty _ Hwf) as Hlog. case_match.
  - injection Hr as <-. cbn. split; [done|]. destruct Hhb as [->|Hhb]; [by left|right].
    destruct (settled_leader n V c A G rf.(currentTerm) rf.(snapshotIndex) rf.(snapshotTerm) i F)
      as (s & e & Hs & He & Het & Hcs); [done..|apply HF|by apply HF|].
    rewrite <-Ht. split_and!; [done|by eapply committed_to_le; [|reflexivity|exact Hcs]; lia|].
    exists s, e. split_and!; [lia|done..].
  - go_inv Hr. subst msg. cbn. split_and!; [done..|]. set (p := a - 1) in *.
    set (si := rf.(snapshotIndex)) in *.
    destruct ((0 <=? p - si) && (p - si <? glen rf.(log))) eqn:Hb.
    + apply andb_true_iff in Hb as [? ?]. eapply (aligned_log i rf F p); try done; cbn; [lia|..].
      * go_inv Ha0. apply gidx_Ret in Ha2. fold si. by rewrite Ha2, <-Ha0.
      * case_match; [|injection Ha1 as <-; intros k e Hk; by rewrite lookup_nil in Hk].
        rewrite gslice_from_Ret in Ha1 by lia. injection Ha1 as <-.
        replace (a - si) with (p - si + 1) by lia. apply virtual_slice; [done|]. unfold si in *. lia.
    + injection Ha0 as <-. apply andb_false_iff in Hb. unfold aligned. cbn. fold p.
      destruct (decide (p < 0)); [by right; left|]. destruct (decide (1 ≤ p)); [by right; right|left].
      assert (p = 0) as Ep by lia. rewrite Ep. pose proof (zlookup_lt_Some _ _ _ (lo_head _ _ (ns_log _ _ _ _ _ _ _ HF))).
      split; [lia|]. split; [|exists 0, (mkEntry 0 None); split_and!; [done|apply HF|done]].
      assert (2 ≤ si) by (destruct (ns_snap _ _ _ _ _ _ _ HF); unfold si in *; lia).
      rewrite (proj2 (andb_false_iff (0 <=? a - si) _)) in Ha1 by (left; apply Z.leb_gt; unfold p in *; lia). injection Ha1 as <-.
      intros k e Hk. by rewrite lookup_nil in Hk.
Qed.

Lemma heartbeat_send_safe k srv : cexec (EvHeartbeatSend k srv) c = Ret c' → safety_inv n V' A G c'.
Proof using Hn Hinv Hci Hci' HV.
  cbn. intros Hr. destruct (heartbeats c !! k) as [[i hb]|] eqn:Hk;
    [case_match|]; [|injection Hr as <-; by eapply safety_same..].
  apply on_node_inv in Hr as [->|(rf & om & Hi & Hr & ->)]; [by eapply safety_same|].
  destruct om as [msg|]; [|by eapply safety_same].
  destruct (ci_nodes _ _ _ Hci _ _ Hi) as [_ _ Hwf _].
  apply list_elem_of_lookup_2, (si_heartbeats _ _ _ _ _ Hinv) in Hk as (Hs & Hle & q & L & HL & Hcom).
  destruct (heartbeatMsg_term _ _ _ _ Hr) as [Hst Ht].
  eapply (step_node_noack n V V' c _ A G i rf rf [hb_packet srv msg]); try done.
  { cbn. by rewrite insert_id. } { apply node_le_refl. }
  intros F Hext _ HF HF'. split_and!; [by exists F| |by left..].
  intros p ->%list_elem_of_singleton.
  assert (L = F) as ->.
  { rewrite <-Ht, (ns_leader _ _ _ _ _ _ _ HF Hst) in HL. by injection HL as _ <-. }
  pose proof (heartbeatMsg_packet i hb srv rf F msg Hwf HF Hs (Hle rf Hi) Hr) as Hmsg.
  destruct msg as [a|m]; cbn.
  - destruct Hmsg as [-> ?]. by exists q, F.
  - destruct Hmsg as (-> & -> & ?). by exists q, F.
Qed.

(** *** The commit rule *)

Lemma updateCommitIndex_cases rf rf' :
  raft_wf rf → updateCommitIndex rf = Ret rf' →
  rf' = rf ∨ ∃ k, rf.(state) = Leader ∧ rf' = rf <| commitIndex := k |> ∧
    rf.(commitIndex) < k ∧ committable rf k.
Proof using .
  unfold updateCommitIndex. intros Hwf Hr. case_match eqn:Hst; [|injection Hr as <-; by left].
  apply bool_decide_eq_true in Hst.
  destruct (commitScan_spec rf (Z.to_nat (lastLogIndex rf - rf.(commitIndex))) (lastLogIndex rf))
    as (r & Hr' & k & -> & Hle & Hc & _); [done..| |].
  { intros m Hm Hc. apply committable_le_last in Hc. lia. }
  rewrite Hr in Hr'. injection Hr' as ->. destruct (decide (rf.(commitIndex) < k)); [right; exists k; auto|].
  left. assert (k = rf.(commitIndex)) as -> by lia. by destruct rf.
Qed.

(** A committable index is chosen, or lies before one that is. *)
Lemma committable_committed i rf F k :
  c.(nodes) !! i = Some rf → node_safe n c A G i rf F → rf.(state) = Leader →
  rf.(snapshotIndex) < k → committable rf k → committed_to n A G F rf.(currentTerm) k.
Proof using Hn Hinv Hci.
  intros Hi HF Hst Hk [Ht Hq]. destruct (ci_nodes _ _ _ Hci _ _ Hi) as [Hme Hnp Hwf _].
  pose proof (ns_leader _ _ _ _ _ _ _ HF Hst) as HL. pose proof (wf_snap _ Hwf).
  unfold term_at in Ht. rewrite (virtual_entry _ _ _ (ns_virtual _ _ _ _ _ _ _ HF) Hk) in Ht.
  destruct (F.[k]) as [e|] eqn:He; [|done]. injection Ht as Ht. pose proof (zlookup_lt_Some _ _ _ He) as Hb.
  set (Q := i :: filter (λ j, stores rf k j = true) (range n)).
  destruct (decide (Forall (λ v, acked A G v rf.(currentTerm) k) Q)) as [Hall|Hsome].
  - right. exists rf.(currentTerm), k. split_and!; [|done..|by eapply contains_own; [|lia]].
    split; [by exists i, F, e|]. exists Q. split; [|by apply Forall_forall]. split_and!.
    + constructor; [|by apply NoDup_filter, NoDup_range].
      intros [Hsto _]%list_elem_of_filter. unfold stores in Hsto. by rewrite <-Hme, Z.eqb_refl in Hsto.
    + intros v [->|[_ Hv]%list_elem_of_filter]%elem_of_cons; [|by apply elem_of_range].
      rewrite <-Hnp, <-Hme. apply Hwf.
    + unfold replicas, countb in Hq. rewrite Hnp in Hq. unfold Q. by rewrite glen_cons.
  - apply not_Forall_Exists, list.Exists_exists in Hsome as (v & Hv & Hno); [|apply _].
    unfold Q in Hv. apply elem_of_cons in Hv as [->|[Hsto Hv]%list_elem_of_filter].
    { destruct Hno. right. exists F. split; [done|lia]. }
    unfold stores in Hsto. apply andb_true_iff in Hsto as [Hne Hm].
    destruct (rf.(matchIndex).[v]) as [m|] eqn:Hmv; [|done].
    apply negb_true_iff, Z.eqb_neq in Hne.
    destruct (ns_match _ _ _ _ _ _ _ HF Hst v m) as [Hack|Hcom]; [done|lia|congruence| |].
    + destruct Hno. eapply acked_le; [|exact Hack]. lia.
    + eapply committed_to_le; [|reflexivity|exact Hcom]. lia.
Qed.

Lemma update_commit_safe i : cexec (EvUpdateCommit i) c = Ret c' → safety_inv n V' A G c'.
Proof using Hn Hinv Hci Hci' HV.
  intros Hr. apply on_node_inv in Hr as [->|(rf & rf' & Hi & Hr & ->)].
  { by eapply safety_same. }
  destruct (ci_nodes _ _ _ Hci _ _ Hi) as [_ _ Hwf _].
  destruct (updateCommitIndex_cases _ _ Hwf Hr) as [->|(k & Hst & -> & Hlt & Hc)].
  { by eapply (step_idle_local n V V' c _ A G i rf rf). }
  assert (quiet rf (rf <| commitIndex := k |>)) as Hq by by apply quiet_same.
  eapply (step_node_noack n V V' c _ A G i rf _ []); try done; [by apply quiet_node_le|].
  intros F Hext _ HF HF'. split_and!; [exists F|by intros p ?%not_elem_of_nil|by left..].
  pose proof (wf_commit _ Hwf). eapply node_safe_quiet; [done..| |apply HF'|apply HF'].
  right. apply (committable_committed i rf F k); [done..|lia|done].
Qed.

(** *** A client command *)

Lemma virtual_snoc rf rf' F e :
  virtual rf F → rf'.(log) = rf.(log) ++ [e] → rf'.(snapshotIndex) = rf.(snapshotIndex) →
  virtual rf' (F ++ [e]).
Proof using .
  intros [Hvl Hvn Hvp] El Es. constructor; rewrite ?El, ?Es.
  - unfold glen in *. rewrite !drop_app_le by lia. by rewrite Hvl.
  - unfold glen in *. rewrite length_app. lia.
  - unfold glen in *. rewrite length_app. lia.
Qed.

(** The leader after it appended an entry, when its ghost log has it too. *)
Lemma node_safe_start d i rf rf' F command :
  let t := rf.(currentTerm) in let L' := F ++ [mkEntry t command] in let G' := <[t := (i, L')]> G in
  node_safe n c A G i rf F → rf.(state) = Leader → ext c A G d A G' → log_ok G' L' →
  (∀ t0 k, t0 ≠ t → at_term G' t0 k → at_term G t0 k) →
  rf'.(log) = rf.(log) ++ [mkEntry t command] → rf'.(currentTerm) = t → rf'.(state) = Leader →
  rf'.(snapshotIndex) = rf.(snapshotIndex) → rf'.(snapshotTerm) = rf.(snapshotTerm) →
  rf'.(commitIndex) = rf.(commitIndex) → rf'.(lastApplied) = rf.(lastApplied) →
  rf'.(matchIndex) = rf.(matchIndex) → node_safe n d A G' i rf' L'.
Proof using .
  intros t L' G' [Hvi Hs Hset Hpre Hlog [Ht Ht0] Hl _ Hack Hm Hcom Hap] Hst Hext Hok' Hat'
    El Et Est Es Esn Ec Ea Em.
  pose proof (ex_ghost _ _ _ _ _ _ Hext) as HG. assert (F `prefix_of` L') as Hp by by eexists.
  assert (∀ k, committed_to n A G F t k → committed_to n A G' L' t k) as Hmono.
  { intros k Hk. eapply committed_to_grow; [exact Hp|]. by eapply (committed_to_mono n A A G G'). }
  assert (∀ k, within n A G rf F k → within n A G' rf' L' k) as Hwithin.
  { intros k [?|?]; [left; lia|right]. rewrite Et. by apply Hmono. }
  constructor; rewrite ?Est, ?Et, ?Es, ?Esn, ?Ec, ?Ea, ?Em; try done.
  - by eapply virtual_snoc.
  - by eapply (settled_mono n A A G G').
  - destruct Hpre; [left; by apply Hmono|right]. apply prefix_length in Hp. unfold glen in *. lia.
  - split; [by apply terms_le_snoc|done].
  - intros _. apply lookup_insert_eq.
  - intros t0 k Hk. destruct (decide (t0 = t)) as [->|Hne].
    + split; [done|]. intros (q & L & e & HL0 & He & _). left.
      pose proof HL0 as HL1. unfold G' in HL0. rewrite lookup_insert_eq in HL0.
      injection HL0 as <- <-. apply zlookup_lt_Some in He. by eapply contains_own; [|lia].
    + apply (leader_acked A G i rf L') in Hk as [Hk|[_ ?]]; [|done].
      destruct (Hack _ _ Hk) as [? Hsafe]. split; [done|]. intros Hat%Hat'; [|done].
      destruct (Hsafe Hat) as [Hc|?]; [left|right; by eapply nochoose_ext].
      eapply contains_ghost; [done|]. by eapply contains_grow.
  - intros _ srv m Hm1 Hge Hne. destruct (Hm Hst srv m Hm1 Hge Hne); [left|right; by apply Hmono].
    by eapply (acked_mono A A G G').
  - by apply Hwithin.
  - by apply Hwithin.
Qed.

(** A leader [i] of [t] appends an entry. *)
Lemma leader_append_safe d i rf rf' command :
  let t := rf.(currentTerm) in
  cluster_inv n V' d → c.(nodes) !! i = Some rf → rf.(state) = Leader →
  d.(nodes) = <[i := rf']> c.(nodes) → d.(net) = c.(net) → d.(heartbeats) = c.(heartbeats) →
  d.(elections) = c.(elections) →
  rf'.(log) = rf.(log) ++ [mkEntry t command] → rf'.(currentTerm) = t → rf'.(state) = Leader →
  rf'.(snapshotIndex) = rf.(snapshotIndex) → rf'.(snapshotTerm) = rf.(snapshotTerm) →
  rf'.(commitIndex) = rf.(commitIndex) → rf'.(lastApplied) = rf.(lastApplied) →
  rf'.(matchIndex) = rf.(matchIndex) →
  ∃ G', ghost_le G G' ∧ safety_inv n V' A G' d.
Proof using Hinv HV.
  intros t Hd Hi Hst Hnodes Hnet Hhb Hel El Et Est Es Esn Ec Ea Em.
  destruct (si_nodes _ _ _ _ _ Hinv _ _ Hi) as [F HF]. set (L' := F ++ [mkEntry t command]).
  set (G' := <[t := (i, L')]> G). exists G'.
  pose proof (ns_leader _ _ _ _ _ _ _ HF Hst) as HL. fold t in HL.
  pose proof (si_ghost _ _ _ _ _ Hinv _ _ _ HL) as [Hok [Hterms Hpos] Hm Hat Hsafe].
  assert (F `prefix_of` L') as Hpre by by eexists.
  assert (∀ q L, G !! t = Some (q, L) → q = i ∧ L `prefix_of` L') as Hown
    by (rewrite HL; by intros q L [= <- <-]).
  assert (∀ k e, L'.[k] = Some e → le_Term e = t →
    at_term G t k ∨ ∀ v, ¬ acked A G v t k) as Hnew.
  { intros k e He Het. apply zlookup_snoc in He as [[-> _]|[_ He]]; [right|left; by exists i, F, e].
    intros v Hk. destruct (acked_bound _ _ _ _ _ _ _ _ Hinv Hk) as (q & L & HL0 & Hb).
    rewrite HL in HL0. injection HL0 as <- <-. lia. }
  assert (ext c A G d A G') as Hext by by eapply leader_ext.
  assert (∀ t0 k, t0 ≠ t → at_term G' t0 k → at_term G t0 k) as Hat'.
  { intros t0 k Hne (q & L & e & HL0 & He). exists q, L, e.
    unfold G' in HL0. by rewrite lookup_insert_ne in HL0. }
  assert (log_ok G' L') as Hok' by by apply log_ok_snoc.
  split; [by eapply leader_ghost_le|].
  eapply (leader_step n V V' c d A G i rf rf' L'); try done; [| |rewrite Hel; by left].
  - exists L'. by eapply (node_safe_start d i rf rf' F command).
  - constructor; [done|..].
    + split; [by apply terms_le_snoc|done].
    + destruct Hm as (vs & ? & ?). exists vs. split; [by eapply majority_mono|done].
    + by eapply at_least_ext.
    + intros t0 k Hlt Hat0%Hat'; [|lia]. destruct (Hsafe t0 k Hlt Hat0) as [Hc|?].
      * left. eapply contains_ghost; [by eapply ex_ghost|]. by eapply contains_grow.
      * right. by eapply nochoose_ext.
Qed.

Lemma start_safe i command :
  cexec (EvStart i command) c = Ret c' → ∃ G', ghost_le G G' ∧ safety_inv n V' A G' c'.
Proof using Hinv Hci Hci' HV.
  intros Hr. apply on_node_inv in Hr as [->|(rf & r & Hi & Hr & Hc')].
  { exists G. split; [done|]. by eapply safety_same. }
  injection Hr as <-. unfold Start in Hc'. destruct (bool_decide _) eqn:Hst; cbn [fst] in Hc'.
  - apply bool_decide_eq_true in Hst.
    by eapply (leader_append_safe c' i rf _ command Hci' Hi Hst); subst c'.
  - exists G. split; [done|]. subst c'. by eapply (step_idle_local n V V' c _ A G i rf rf).
Qed.
End replicate_steps.
