(* ===== verification/RaftCompact.v ===== *)
(** * State machine safety: snapshots

    A service hands its peer a snapshot of what it applied, which is chosen;
    the peer forgets those entries, and its virtual log stays what it was. A
    leader sends its snapshot to a follower whose next entry it has
    forgotten; the follower keeps the entries after the snapshot if it has
    any, and otherwise its virtual log becomes the leader's up to there. The
    file proves that [Snapshot], [InstallSnapshot] and its reply preserve the
    invariant of [RaftSafety.v], for services that snapshot only what they
    applied, and never exactly the first index: a leader that compacted its
    log to index 1 may still replicate the placeholder it keeps there. *)

From S2P Require Import Prelude Gob Persister Raft RaftNode RaftSpec RaftLog RaftSnapshot RaftCluster RaftMatching RaftSafety RaftSteps RaftReplicate.
From Stdlib Require Import Strings.Byte.

Section compact.
Context {Cmd : Type} `{GobLaws Z, GobLaws (list (LogEntry Cmd))}.
Implicit Types (rf : Raft Cmd) (F L : list (LogEntry Cmd)) (k : Z).

Lemma virtual_drop rf F index :
  virtual rf F → rf.(snapshotIndex) ≤ index →
  drop (Z.to_nat (index + 1 - rf.(snapshotIndex))) rf.(log) = drop (S (Z.to_nat index)) F.
Proof.
  intros [Hvl Hvn _] Hle.
  replace (Z.to_nat (index + 1 - rf.(snapshotIndex)))
    with (1 + (Z.to_nat index - Z.to_nat rf.(snapshotIndex)))%nat by lia.
  rewrite <-drop_drop, Hvl, drop_drop. f_equal. lia.
Qed.

Lemma last_term_at rf : last_term rf = term_at rf (lastLogIndex rf).
Proof. unfold last_term, term_at, entry_at, lastLogIndex. do 2 f_equal. lia. Qed.

(** Compaction changes nothing of what the peer would claim. *)
Lemma compacted_claims rf rf' index data :
  index ≤ lastLogIndex rf → compacted rf rf' index data → claims rf' = claims rf.
Proof.
  intros Hle [_ _ Hlast Hhead Hent _ _ _ _ _]. unfold claims. rewrite !last_term_at, Hlast. f_equal.
  destruct (decide (lastLogIndex rf = index)) as [->|]; [done|].
  unfold term_at. rewrite Hent by lia. done.
Qed.

(** ** A snapshot of the service *)

(** The peer after it compacted its log up to a chosen [index]. *)
Lemma node_safe_compact n c A G i rf rf' F index e :
  node_safe n c A G i rf F → committed_to n A G F rf.(currentTerm) index →
  2 ≤ index → rf.(snapshotIndex) < index → index ≤ lastLogIndex rf → entry_at rf index = Some e →
  rf'.(snapshotIndex) = index → rf'.(snapshotTerm) = e.(le_Term) →
  rf'.(log) = mkEntry e.(le_Term) None :: drop (Z.to_nat (index + 1 - rf.(snapshotIndex))) rf.(log) →
  rf'.(commitIndex) = Z.max rf.(commitIndex) index →
  rf'.(lastApplied) = Z.max rf.(lastApplied) index →
  rf'.(currentTerm) = rf.(currentTerm) → rf'.(state) = rf.(state) → leader_view rf rf' index →
  node_safe n c A G i rf' F.
Proof.
  intros [Hvi Hs Hset Hpre Hok Ht Hl Hc Hack Hm Hcom Hap] Hidx H2' Hlt Hle He Es Esn El Ec Ea Et Est Hview.
  assert (∀ k, within n A G rf F k → within n A G rf' F (Z.max k index)) as Hwithin.
  { intros k Hk. eapply within_le; [| | |exact Hk]; lia. }
  rewrite (virtual_length _ _ Hvi) in Hle. constructor; rewrite ?Es, ?Esn, ?Et, ?Est, ?Ec, ?Ea; auto; try done.
  - constructor; rewrite ?Es, ?El.
    + cbn [drop]. apply virtual_drop; [done|lia].
    + lia.
    + rewrite glen_cons. unfold glen. lia.
  - destruct Hidx as [?|(t & k & Hch & Hk & Htt & Hct)]; [lia|right]. exists t, k, index.
    split_and!; [done..|]. rewrite (virtual_entry _ _ _ Hvi Hlt) in He. by eapply contains_term.
  - intros Hst srv m Hm' Hge Hne. unfold leader_view in Hview. rewrite decide_True in Hview by done.
    destruct (Hview srv) as [_ Hv]. rewrite Hm' in Hv.
    destruct (rf.(matchIndex).[srv]) as [m0|] eqn:Hm0; [|done]. injection Hv as ->.
    destruct (decide (index ≤ m0)); [|right; by rewrite Z.max_l by lia].
    rewrite Z.max_r by lia. apply Hm; [done..|lia|done].
Qed.

Context (n : Z) (V V' : history) (c c' : Cluster Cmd) (A : Acks) (G : Ghost Cmd).
Context (Hn : 0 ≤ n) (Hinv : safety_inv n V A G c) (Hci : cluster_inv n V c).
Context (Hci' : cluster_inv n V' c') (HV : V ⊆ V').

Lemma snapshot_safe i index data :
  (∀ rf, c.(nodes) !! i = Some rf → index ≠ 1 ∧ index ≤ rf.(lastApplied)) →
  cexec (EvSnapshot i index data) c = Ret c' → safety_inv n V' A G c'.
Proof using Hinv Hci Hci' HV.
  intros Hserv Hr. apply on_node_inv in Hr as [->|(rf & rf' & Hi & Hr & ->)].
  { by eapply safety_same. }
  destruct (ci_nodes _ _ _ Hci _ _ Hi) as [_ _ Hwf _]. destruct (Hserv rf Hi) as [Hne Happ]. pose proof (wf_snap _ Hwf).
  destruct (Snapshot_result index data rf Hwf) as (r & Hr' & Hres).
  pose proof (Ret_det _ _ _ Hr Hr') as <-. case_decide as Hidx.
  2: { subst rf'. by eapply (step_idle_local n V V' c _ A G i rf rf). }
  destruct Hres as (e & He & Es & Esn & El & Ec & Ea & Ev & Hd & Hview).
  assert (compacted rf rf' index data) as Hcomp by (by eapply compacted_intro).
  injection Ev as Et _ Est.
  eapply (step_node_local n V V' c _ A G i rf rf'); try done.
  { split; [lia|]. split; [lia|]. rewrite Est. intros ?. right. split; [done|].
    eapply compacted_claims; [apply Hidx|exact Hcomp]. }
  intros F Hext HF. split_and!; [exists F|by left..].
  apply (node_safe_compact _ _ _ _ _ rf rf' F index e); try done; [|lia..].
  destruct (ns_applied _ _ _ _ _ _ _ HF) as [?|Hcom]; [lia|].
  by eapply committed_to_le; [exact Happ|reflexivity|].
Qed.

(** ** Installing a snapshot *)

Lemma InstallSnapshot_cases now a rf r :
  raft_wf rf → InstallSnapshot now a rf = Ret r →
  idle rf r.1.1 ∨
  rf.(currentTerm) ≤ a.(is_Term) ∧ rf.(snapshotIndex) < a.(LastIncludedIndex) ∧
  r.1.1.(state) = Follower ∧ r.1.1.(currentTerm) = a.(is_Term) ∧
  r.1.1.(snapshotIndex) = a.(LastIncludedIndex) ∧ r.1.1.(snapshotTerm) = a.(LastIncludedTerm) ∧
  r.1.1.(log) = mkEntry a.(LastIncludedTerm) None ::
    drop (Z.to_nat (a.(LastIncludedIndex) + 1 - rf.(snapshotIndex))) rf.(log) ∧
  r.1.1.(commitIndex) = Z.max rf.(commitIndex) a.(LastIncludedIndex) ∧
  r.1.1.(lastApplied) = Z.max rf.(lastApplied) a.(LastIncludedIndex).
Proof using .
  intros Hwf. unfold InstallSnapshot. destruct (is_Term a <? rf.(currentTerm)) eqn:Ht.
  { intros [= <-]. by left. }
  destruct (observed_fields now a.(is_Term) rf) as (Hl & Hs & Hc & Ha & _ & Hst & Ht').
  pose proof (observed_idle now a.(is_Term) rf) as Hidle.
  assert (raft_wf (followerContact now (observeTerm a.(is_Term) rf))) as Hwf1
    by by apply followerContact_wf, observeTerm_wf.
  set (rf1 := followerContact _ _) in *. case_match; [intros [= <-]; by left|].
  destruct (installSnapshotLog_spec a rf1) as (rf' & -> & Hres); [done|lia|].
  intros [= <-]. right. cbn. rewrite Hl, Hs, Hc, Ha, Hst, Ht' in Hres.
  destruct Hres as (-> & -> & -> & -> & -> & -> & -> & _). split_and!; done || lia.
Qed.

(** The virtual log after the peer installed a snapshot of [L] up to [idx]. *)
Definition installed F L idx : list (LogEntry Cmd) :=
  if decide (idx + 1 < glen F) then F else take (S (Z.to_nat idx)) L.

Lemma installed_drop F L idx :
  0 ≤ idx → drop (S (Z.to_nat idx)) (installed F L idx) = drop (S (Z.to_nat idx)) F.
Proof using .
  intros Hidx. unfold installed. case_decide; [done|]. unfold glen in *.
  rewrite !drop_ge; [done|lia|rewrite length_take; lia].
Qed.

(** What both logs have of a leader log stays. *)
Lemma installed_contains F L idx t k :
  0 ≤ k → contains G F t k → (idx + 1 < glen F ∨ contains G L t k) → contains G (installed F L idx) t k.
Proof using .
  intros Hk HcF HcL. unfold installed. case_decide as Hd; [done|]. destruct HcL as [?|HcL]; [lia|].
  pose proof (contains_length _ _ _ _ HcF Hk). apply contains_take; [lia|done].
Qed.

Lemma node_safe_install d i rf rf' F a q L :
  node_safe n c A G i rf F → ext c A G d A G → G !! a.(is_Term) = Some (q, L) →
  snapshot_of n A G L a.(is_Term) a.(LastIncludedIndex) a.(LastIncludedTerm) →
  rf.(currentTerm) ≤ a.(is_Term) → 0 ≤ rf.(snapshotIndex) < a.(LastIncludedIndex) →
  rf'.(state) = Follower → rf'.(currentTerm) = a.(is_Term) →
  rf'.(snapshotIndex) = a.(LastIncludedIndex) → rf'.(snapshotTerm) = a.(LastIncludedTerm) →
  rf'.(log) = mkEntry a.(LastIncludedTerm) None ::
    drop (Z.to_nat (a.(LastIncludedIndex) + 1 - rf.(snapshotIndex))) rf.(log) →
  rf'.(commitIndex) = Z.max rf.(commitIndex) a.(LastIncludedIndex) →
  rf'.(lastApplied) = Z.max rf.(lastApplied) a.(LastIncludedIndex) →
  node_safe n d A G i rf' (installed F L a.(LastIncludedIndex)).
Proof using Hn Hinv.
  intros HF Hext HL Hsn Hle Hsi Est Et Es Esn El Ec Ea. set (idx := a.(LastIncludedIndex)) in *.
  destruct Hsn as [?|(H2' & Hcom & s & e & Hs & He & Het & Hcs)]; [lia|].
  destruct (si_ghost _ _ _ _ _ Hinv _ _ _ HL) as [HLok [HLt _] _ _ HLsafe].
  destruct HF as [Hvi _ _ _ Hok [Hterms Ht0] _ _ Hack _ Hcm Hap].
  pose proof (committed_to_length _ _ _ _ _ _ Hcom ltac:(lia)) as HlenL.
  assert (∀ t k, 1 ≤ k → t ≤ a.(is_Term) → at_term G t k → contains G F t k →
    safe n c A G (installed F L idx) t k) as Hsafe.
  { intros t k Hk Ht Hat Hc. destruct (decide (t = a.(is_Term))) as [->|Hne].
    - left. apply installed_contains; [lia|done|right]. destruct Hc as (q' & L' & HL' & Hlen & _).
      rewrite HL in HL'. injection HL' as <- <-. by eapply contains_own.
    - destruct (HLsafe t k) as [HcL|?]; [lia|done|left|by right].
      apply installed_contains; [lia|done|by right]. }
  assert (∀ k, within n A G rf F k → within n A G rf' (installed F L idx) (Z.max k idx)) as Hwithin.
  { intros k Hk. destruct (decide (k ≤ idx)); [left; lia|]. rewrite Z.max_l by lia.
    destruct Hk as [?|[?|(t & k1 & Hch & Hk1 & Ht & Hc)]]; [lia..|right; right].
    exists t, k1. split_and!; [done..|lia|]. apply installed_contains; [lia|done|left].
    apply contains_length in Hc; lia. }
  constructor; rewrite ?Es, ?Esn, ?Et, ?Est, ?Ec, ?Ea; auto; try done.
  - constructor; rewrite ?Es, ?El.
    + rewrite installed_drop by lia. cbn [drop]. apply virtual_drop; [done|lia].
    + unfold installed. case_decide; [lia|]. unfold glen in *. rewrite length_take. lia.
    + rewrite glen_cons. unfold glen. lia.
  - destruct Hcs as [?|(t & k & Hch & Hk & Htt & Hct)]; [lia|right]. exists t, k, s.
    split_and!; [done..|]. by eapply contains_term.
  - unfold installed. case_decide; [by right|left].
    eapply committed_to_agree; [|exact Hcom]. apply agree_sym, agree_take. lia.
  - unfold installed. case_decide; [done|]. apply log_ok_take; [lia|done].
  - split; [|lia]. unfold installed. case_decide; intros j x Hx.
    + specialize (Hterms j x Hx). lia.
    + apply (HLt j). rewrite <-Hx. symmetry. apply zlookup_take.
      apply zlookup_lt_Some in Hx. unfold glen in Hx. rewrite length_take in Hx. lia.
  - intros t k Hk. destruct (Hack _ _ Hk) as [? Hs']. split; [lia|]. intros Hat.
    destruct (at_term_pos _ _ _ _ _ _ _ Hinv Hat). eapply safe_ext; [done|].
    destruct (Hs' Hat) as [?|?]; [apply Hsafe; [done|lia|done..]|by right].
Qed.

Lemma install_safe now dst a :
  ISReq dst a ∈ c.(net) → deliver now (ISReq dst a) c = Ret c' → safety_inv n V' A G c'.
Proof using Hn Hinv Hci Hci' HV.
  intros Hin Hr. apply on_node_inv in Hr as [->|(rf & r & Hi & Hr & ->)].
  { by eapply safety_same. }
  destruct (si_net _ _ _ _ _ Hinv _ Hin) as (q & L & HL & Hsn).
  destruct (ci_nodes _ _ _ Hci _ _ Hi) as [_ _ Hwf _]. pose proof (wf_snap _ Hwf).
  assert (∀ p, p ∈ [ISRep dst a r.1.2] → ∀ d, packet_safe n d A G p) as Hpk.
  { intros p ->%list_elem_of_singleton d. exists q, L. split; [done|].
    by destruct Hsn as [?|(_ & ? & _)]; [left|]. }
  destruct (InstallSnapshot_cases _ _ _ _ Hwf Hr)
    as [Hidle|(Hle & Hsi & Est & Et & Es & Esn & El & Ec & Ea)].
  { eapply (step_idle n V V' c _ A G dst rf r.1.1); try done. auto. }
  eapply (step_node_noack n V V' c _ A G dst rf r.1.1); try done.
  { split; [lia|]. split; [lia|]. by rewrite Est. }
  intros F Hext _ HF HF'. split_and!; [|auto|by left..].
  exists (installed F L a.(LastIncludedIndex)).
  eapply (node_safe_install _ dst rf); try done.
Qed.

Lemma onInstallSnapshotReply_cases srv a reply rf rf' :
  onInstallSnapshotReply srv a reply rf = Ret rf' →
  idle rf rf' ∨
  rf.(currentTerm) = a.(is_Term) ∧ rf.(state) = Leader ∧ quiet rf rf' ∧
  rf'.(commitIndex) = rf.(commitIndex) ∧ rf'.(lastApplied) = rf.(lastApplied) ∧
  ∀ s k, rf'.(matchIndex).[s] = Some k → rf.(matchIndex).[s] = Some k ∨
    s = srv ∧ k = a.(LastIncludedIndex).
Proof using .
  unfold onInstallSnapshotReply. intros Hr. case_match eqn:Hb; [|go_inv Hr; subst; by left].
  apply andb_true_iff in Hb as [Hst%bool_decide_eq_true Ht%Z.eqb_eq].
  case_match; go_inv Hr; subst rf'.
  - left. apply stepDown_idle. lia.
  - right. split_and!; try done. cbn. intros s k Hk. unfold gset_idx in Ha. go_cases Ha. subst a0.
    rewrite zlookup_insert in Hk by lia. case_decide; [right|by left]. split; [done|congruence].
Qed.

Lemma install_reply_safe now src a reply :
  ISRep src a reply ∈ c.(net) → deliver now (ISRep src a reply) c = Ret c' → safety_inv n V' A G c'.
Proof using Hinv Hci Hci' HV.
  intros Hin Hr. apply on_node_inv in Hr as [->|(rf & rf' & Hi & Hr & ->)].
  { by eapply safety_same. }
  destruct (onInstallSnapshotReply_cases _ _ _ _ _ Hr) as [Hidle|(Ht & Hst & Hq & Ec & Ea & Hm)].
  { by eapply (step_idle_local n V V' c _ A G _ rf rf'). }
  eapply match_safe; try done. rewrite Ht.
  destruct (si_net _ _ _ _ _ Hinv _ Hin) as (q & L & HL & Hcom). exists q, L. auto.
Qed.
End compact.
