(* ===== verification/RaftAgreement.v ===== *)
(** * State machine safety: the theorems

    Every event of a cluster preserves the invariant of [RaftSafety.v], as long
    as the services above the peers snapshot only what they have applied, and
    not exactly index 1. It then holds in every reachable state, and Raft's
    three agreement properties follow for executions with compaction and
    snapshots in flight: Log Matching, Leader Completeness and State Machine
    Safety. *)

From S2P Require Import Prelude Gob Persister Raft RaftNode RaftSpec RaftLog RaftCluster RaftMatching RaftSafety RaftSteps RaftElect RaftReplicate RaftCompact.
From Stdlib Require Import Strings.Byte.

Section agreement.
Context {Cmd : Type} `{GobLaws Z, GobLaws (list (LogEntry Cmd))}.
Implicit Types (c : Cluster Cmd) (rf : Raft Cmd) (A : Acks) (G : Ghost Cmd).
Implicit Types (l L F : list (LogEntry Cmd)) (t k : Z).

(** [P] of every event of a run and the state it happens in. *)
Fixpoint along (P : ClusterEvent Cmd → Cluster Cmd → Prop) (evs : list (ClusterEvent Cmd)) c : Prop :=
  match evs with
  | [] => True
  | ev :: evs => P ev c ∧ match cexec ev c with Ret c' => along P evs c' | _ => True end
  end.

(** A service calls [Snapshot] for an index it has applied. *)
Definition applied_snapshot (ev : ClusterEvent Cmd) c : Prop :=
  match ev with
  | EvSnapshot i index _ =>
      match c.(nodes) !! i with Some rf => index ≤ rf.(lastApplied) | None => True end
  | _ => True
  end.

(** ... and never for index 1. *)
Definition service_ok (ev : ClusterEvent Cmd) c : Prop :=
  applied_snapshot ev c ∧ match ev with EvSnapshot _ index _ => index ≠ 1 | _ => True end.
Definition services_ok := along service_ok.

(** The service above the peers takes no snapshot. *)
Definition no_snapshot (ev : ClusterEvent Cmd) : Prop :=
  match ev with EvSnapshot _ _ _ => False | _ => True end.

Lemma no_snapshot_ok evs c : Forall no_snapshot evs → services_ok evs c.
Proof.
  intros Hevs. revert c. induction Hevs as [|ev evs Hev _ IH]; intros c; [done|].
  split; [by destruct ev|]. by destruct (cexec ev c); try apply IH.
Qed.

(** ** Every event *)

Lemma crash_safe n V V' c A G i rf rf' :
  safety_inv n V A G c → cluster_inv n V' (crash i rf' c) → V ⊆ V' →
  c.(nodes) !! i = Some rf → idle rf rf' → safety_inv n V' A G (crash i rf' c).
Proof.
  intros Hinv Hci HV Hi Hidle. eapply (step_idle_local n V V' c _ A G i rf rf'); try done.
  - intros h. cbn. by intros [_ ?]%list_elem_of_filter.
  - intros key el. cbn. by intros [? _]%map_lookup_filter_Some.
Qed.

(** The ghost state after a step. *)
Definition grown (n : Z) (V : history) A G c : Prop :=
  ∃ A' G', A ⊆ A' ∧ ghost_le G G' ∧ safety_inv n V A' G' c.

Lemma grown_same n V A G c : safety_inv n V A G c → grown n V A G c.
Proof. by exists A, G. Qed.
Hint Resolve grown_same : core.

Lemma deliver_safe n V V' c c' A G now p :
  0 ≤ n → safety_inv n V A G c → cluster_inv n V c → cluster_inv n V' c' → V ⊆ V' →
  p ∈ c.(net) → deliver now p c = Ret c' → grown n V' A G c'.
Proof.
  intros Hn Hinv Hci Hci' HV Hin Hr. destruct p as [dst args|src args reply|dst m|src m reply|dst a|src a r].
  - by eapply grown_same, vote_request_safe.
  - destruct (vote_reply_safe n V V' c c' A G Hn Hinv Hci Hci' HV src args reply) as (G' & ? & ?); [done..|].
    by exists A, G'.
  - destruct (append_safe n V V' c c' A G Hn Hinv Hci Hci' HV now dst m) as (A' & ? & ?); [done..|].
    by exists A', G.
  - by eapply grown_same, append_reply_safe.
  - by eapply grown_same, install_safe.
  - by eapply grown_same, install_reply_safe.
Qed.

Lemma cexec_safe n V V' c c' A G ev :
  0 ≤ n → service_ok ev c → safety_inv n V A G c → cluster_inv n V c →
  cluster_inv n V' c' → V ⊆ V' → cexec ev c = Ret c' → grown n V' A G c'.
Proof.
  intros Hn Hev Hinv Hci Hci' HV Hr.
  destruct ev as [k now|i now|i|k srv|i|i|i command|i index data|i|i now|i term now].
  - cbn in Hr. destruct (net c !! k) as [p|] eqn:Hk; [|injection Hr as <-; by eapply grown_same, safety_same].
    eapply deliver_safe; try done. by eapply list_elem_of_lookup_2.
  - by eapply grown_same, timeout_safe.
  - by eapply grown_same, heartbeat_safe_step.
  - by eapply grown_same, heartbeat_send_safe.
  - by eapply grown_same, update_commit_safe.
  - apply on_node_inv in Hr as [->|(rf & r & Hi & Hr & ->)]; [by eapply grown_same, safety_same|].
    eapply grown_same, (step_idle_local n V V' c _ A G i rf r.1); try done. by apply applyCommitted_idle.
  - destruct (start_safe n V V' c c' A G Hinv Hci Hci' HV i command Hr) as (G' & ? & ?). by exists A, G'.
  - eapply grown_same, (snapshot_safe n V V'); try done. intros rf Hi.
    destruct Hev as [Happ ?]. cbn in Happ. by rewrite Hi in Happ.
  - apply on_node_inv in Hr as [->|(rf & r & Hi & [= <-] & ->)]; [by eapply grown_same, safety_same|].
    eapply grown_same, (step_idle_local n V V' c _ A G i rf (Kill rf)); try done. by apply idle_same.
  - apply on_node_inv in Hr as [->|(rf & r & Hi & [= <-] & ->)]; [by eapply grown_same, safety_same|].
    destruct (ci_nodes _ _ _ Hci _ _ Hi) as [_ _ _ Hd].
    eapply grown_same, crash_safe; try done. by apply restart_idle.
  - apply on_node_inv in Hr as [->|(rf & r & Hi & [= <-] & ->)]; [by eapply grown_same, safety_same|].
    destruct (ci_nodes _ _ _ Hci _ _ Hi) as [_ _ _ Hd].
    eapply grown_same, crash_safe; try done. etransitivity; [apply (observeTerm_idle term)|].
    by apply restart_idle, observeTerm_durable.
Qed.

(** ** Reachable states *)

Definition safe_state (n : Z) A G c : Prop := ∃ V, cluster_inv n V c ∧ safety_inv n V A G c.

Lemma crun_safe n c c' A G evs :
  0 ≤ n → services_ok evs c → safe_state n A G c → crun evs c = Ret c' →
  ∃ A' G', A ⊆ A' ∧ ghost_le G G' ∧ safe_state n A' G' c'.
Proof.
  unfold crun. revert c A G. induction evs as [|ev evs IH]; intros c A G Hn Hevs Hs Hr; cbn in Hr.
  { injection Hr as <-. by exists A, G. }
  destruct Hevs as [Hev Hevs]. apply bind_Ret_inv in Hr as (c1 & Hr1 & Hr).
  destruct Hs as (V & Hci & Hinv). destruct (cexec_inv n V c ev Hci) as (c1' & Hr1' & V1 & HV & Hci1).
  rewrite Hr1 in Hr1', Hevs. injection Hr1' as <-.
  destruct (cexec_safe n V V1 c c1 A G ev) as (A1 & G1 & HA1 & HG1 & Hinv1); [done..|].
  destruct (IH c1 A1 G1) as (A' & G' & HA' & HG' & Hs'); [done..|by exists V1|done|].
  exists A', G'. split; [by etransitivity|]. split; [by etransitivity|done].
Qed.

Lemma boot_entry j (e : LogEntry Cmd) : [mkEntry 0 None].[j] = Some e → j = 0 ∧ e = mkEntry 0 None.
Proof.
  intros He. assert (0 ≤ j < 1) as Hb by exact (zlookup_lt_Some _ _ _ He).
  assert (j = 0) as -> by lia. by injection He as <-.
Qed.

Lemma boot_safe n now : safe_state n [] ∅ (cluster_boot n now).
Proof.
  exists []. split; [apply cluster_boot_inv|].
  assert (∀ q t k, ¬ acked [] (∅ : Ghost Cmd) q t k) as Hno.
  { intros q t k [(k' & []%not_elem_of_nil & _)|(L & HL & _)]. by rewrite lookup_empty in HL. }
  constructor; try (cbn; set_solver).
  intros i rf [Hi ->]%cluster_boot_lookup. rewrite boot_eq. exists [mkEntry 0 None].
  constructor; cbn; try done; try (by left); try (by left; left).
  - constructor; [done| |].
    + intros a b e e' _ [_ ->]%boot_entry [_ ->]%boot_entry. done.
    + intros a e Ha [-> _]%boot_entry. lia.
  - split; [|done]. by intros j e [_ ->]%boot_entry.
  - by intros t k ?%Hno.
Qed.

Lemma reachable_safe n now evs c :
  0 ≤ n → services_ok evs (cluster_boot n now) → crun evs (cluster_boot n now) = Ret c →
  ∃ A G, safe_state n A G c.
Proof.
  intros Hn Hevs Hr.
  destruct (crun_safe n _ c [] ∅ evs Hn Hevs (boot_safe n now) Hr) as (A & G & _ & _ & ?). eauto.
Qed.

(** The two states of a run, with what the first one's facts mean in the second. *)
Lemma crun_boot_safe n now evs1 evs2 c1 c2 :
  0 ≤ n → services_ok evs1 (cluster_boot n now) → services_ok evs2 c1 →
  crun evs1 (cluster_boot n now) = Ret c1 → crun evs2 c1 = Ret c2 →
  ∃ A1 G1 A2 G2, safe_state n A1 G1 c1 ∧ safe_state n A2 G2 c2 ∧ A1 ⊆ A2 ∧ ghost_le G1 G2.
Proof.
  intros Hn He1 He2 Hr1 Hr2. destruct (reachable_safe n now evs1 c1) as (A1 & G1 & Hs1); [done..|].
  destruct (crun_safe n c1 c2 A1 G1 evs2 Hn He2 Hs1 Hr2) as (A2 & G2 & HA & HG & Hs2).
  by exists A1, G1, A2, G2.
Qed.

(** ** The theorems *)

Lemma applyLoop_msgs fuel rf r m :
  applyLoop fuel rf = Ret r → m ∈ r.2 →
  ∃ k e, m = commandMsg k e ∧ entry_at rf k = Some e ∧ rf.(lastApplied) < k ≤ rf.(commitIndex).
Proof.
  revert rf r. induction fuel as [|fuel IH]; intros rf r Hr Hm; cbn [applyLoop] in Hr.
  { injection Hr as <-. by apply not_elem_of_nil in Hm. }
  destruct (lastApplied rf <? commitIndex rf) eqn:Hlt;
    [apply Z.ltb_lt in Hlt|injection Hr as <-; by apply not_elem_of_nil in Hm].
  go_inv Hr. subst r. apply elem_of_app in Hm as [Hm|Hm].
  - destruct (_ && _); go_inv Ha; subst a; [|by apply not_elem_of_nil in Hm].
    match goal with Hg : gidx _ _ = _ |- _ => apply gidx_Ret in Hg; rename Hg into He end.
    apply list_elem_of_singleton in Hm as ->. exists (rf.(lastApplied) + 1). eexists.
    split; [done|]. split; [exact He|lia].
  - match goal with Hg : applyLoop _ _ = _ |- _ => destruct (IH _ _ Hg Hm) as (k & e & -> & He & Hk) end.
    exists k, e. split; [done|]. split; [exact He|]. cbn in Hk. lia.
Qed.

(** Past its snapshot, what a peer committed is chosen. *)
Lemma committed_entry_to n c A G i rf F k :
  node_safe n c A G i rf F → rf.(snapshotIndex) < k ≤ rf.(commitIndex) →
  entry_at rf k = F.[k] ∧ committed_to n A G F rf.(currentTerm) k.
Proof.
  intros HF [Hlt Hle]. split; [apply virtual_entry; [apply HF|done]|].
  destruct (ns_commit _ _ _ _ _ _ _ HF) as [?|Hc]; [lia|].
  by eapply committed_to_le; [exact Hle|reflexivity|].
Qed.

(** C3. Log Matching: in any state that a cluster reaches while its services
    snapshot only what they have applied and never exactly index 1
    ([services_ok]), if two logs have an entry of the same term at an index, they
    have the same entries up to that index, as far as neither peer has compacted
    them. *)
Theorem log_matching n now evs c i j rfi rfj k ei ej :
  0 ≤ n → services_ok evs (cluster_boot n now) → crun evs (cluster_boot n now) = Ret c →
  c.(nodes) !! i = Some rfi → c.(nodes) !! j = Some rfj →
  entry_at rfi k = Some ei → entry_at rfj k = Some ej → ei.(le_Term) = ej.(le_Term) →
  ∀ k', rfi.(snapshotIndex) < k' → rfj.(snapshotIndex) < k' → k' ≤ k →
    entry_at rfi k' = entry_at rfj k'.
Proof.
  intros Hn Hevs Hr Hi Hj He He' Ht k' Hsi Hsj Hk.
  destruct (reachable_safe n now evs c) as (A & G & V & _ & Hinv); [done..|].
  destruct (si_nodes _ _ _ _ _ Hinv _ _ Hi) as [F [Hvi _ _ _ Hok _ _ _ _ _ _ _]].
  destruct (si_nodes _ _ _ _ _ Hinv _ _ Hj) as [F' [Hvi' _ _ _ Hok' _ _ _ _ _ _ _]].
  rewrite (virtual_entry _ _ _ Hvi) in He by lia. rewrite (virtual_entry _ _ _ Hvi') in He' by lia.
  rewrite (virtual_entry _ _ _ Hvi), (virtual_entry _ _ _ Hvi') by lia.
  by eapply (matched_agree G F F' k).
Qed.

(** C2. Leader Completeness: an entry of a peer at or below its commit index
    is in the log of every peer that, at that moment or any later one, leads
    a term at least as high as that peer's, or covered by that leader's
    snapshot, if the services snapshot only what they have applied and never
    exactly index 1 ([services_ok]). *)
Theorem leader_completeness n now evs1 evs2 c1 c2 i j rfi rfj k e :
  0 ≤ n → services_ok evs1 (cluster_boot n now) → services_ok evs2 c1 →
  crun evs1 (cluster_boot n now) = Ret c1 → crun evs2 c1 = Ret c2 →
  c1.(nodes) !! i = Some rfi → c2.(nodes) !! j = Some rfj →
  entry_at rfi k = Some e → rfi.(snapshotIndex) < k ≤ rfi.(commitIndex) →
  rfj.(state) = Leader → rfi.(currentTerm) ≤ rfj.(currentTerm) →
  k ≤ rfj.(snapshotIndex) ∨ entry_at rfj k = Some e.
Proof.
  intros Hn He1 He2 Hr1 Hr2 Hi Hj He Hk Hst Ht.
  destruct (decide (k ≤ rfj.(snapshotIndex))) as [|Hkj]; [by left|right].
  destruct (crun_boot_safe n now evs1 evs2 c1 c2 Hn He1 He2 Hr1 Hr2)
    as (A1 & G1 & A2 & G2 & (V1 & Hci1 & Hinv1) & (V2 & _ & Hinv2) & HA & HG).
  destruct (si_nodes _ _ _ _ _ Hinv1 _ _ Hi) as [F HF]. destruct (si_nodes _ _ _ _ _ Hinv2 _ _ Hj) as [F' HF'].
  destruct (committed_entry_to _ _ _ _ _ _ _ _ HF Hk) as [E Hcom].
  rewrite (virtual_entry _ _ _ (ns_virtual _ _ _ _ _ _ _ HF')) by lia. rewrite E in He. rewrite <-He.
  destruct Hcom as [?|(t & k0 & Hch & Hle & Htt & Hc)].
  { destruct (ci_nodes _ _ _ Hci1 _ _ Hi) as [_ _ [_ _ ? _ _ _] _]. lia. }
  apply (chosen_mono n A1 A2 G1 G2 HG HA) in Hch. apply (contains_ghost G1 G2) in Hc; [|done].
  symmetry. eapply (contains_same G2 _ _ t k); [exact Hc| |done].
  eapply contains_le; [exact Hle|]. 
  eapply (chosen_leader n V2 c2 A2 G2 t k0 rfj.(currentTerm) j F'); [done..|by apply HF'|lia].
Qed.

(** C1. State Machine Safety: the messages that two peers hand to their services
    with [applyCommitted] for the same index, at any two moments of an execution
    with message loss, duplication, reordering, crashes, log compaction and
    snapshots sent to followers, are the same, if the services snapshot only what
    they have applied and never exactly index 1 ([services_ok]; without the latter
    it is false, see [placeholder_replicated]). The snapshots that are delivered
    are not compared. *)
Theorem state_machine_safety n now evs1 evs2 c1 c2 i j rfi rfj ri rj mi mj :
  0 ≤ n → services_ok evs1 (cluster_boot n now) → services_ok evs2 c1 →
  crun evs1 (cluster_boot n now) = Ret c1 → crun evs2 c1 = Ret c2 →
  c1.(nodes) !! i = Some rfi → c2.(nodes) !! j = Some rfj →
  applyCommitted rfi = Ret ri → applyCommitted rfj = Ret rj → mi ∈ ri.2 → mj ∈ rj.2 →
  mi.(CommandIndex) = mj.(CommandIndex) → mi = mj.
Proof.
  intros Hn He1 He2 Hr1 Hr2 Hi Hj Hai Haj Hmi Hmj Hidx.
  destruct (crun_boot_safe n now evs1 evs2 c1 c2 Hn He1 He2 Hr1 Hr2)
    as (A1 & G1 & A2 & G2 & (V1 & Hci1 & Hinv1) & (V2 & Hci2 & Hinv2) & HA & HG).
  destruct (si_nodes _ _ _ _ _ Hinv1 _ _ Hi) as [F HF]. destruct (si_nodes _ _ _ _ _ Hinv2 _ _ Hj) as [F' HF'].
  destruct (ci_nodes _ _ _ Hci1 _ _ Hi) as [_ _ [_ _ ? _ ? _] _].
  destruct (ci_nodes _ _ _ Hci2 _ _ Hj) as [_ _ [_ _ ? _ ? _] _].
  destruct (applyLoop_msgs _ _ _ _ Hai Hmi) as (k & e & -> & He & Hk).
  destruct (applyLoop_msgs _ _ _ _ Haj Hmj) as (k' & e' & -> & He' & Hk').
  cbn in Hidx. subst k'. f_equal.
  destruct (committed_entry_to _ _ _ _ _ _ _ k HF) as [E [?|(t & k1 & Hch & Hle & _ & Hc)]]; [lia..|].
  destruct (committed_entry_to _ _ _ _ _ _ _ k HF') as [E' [?|(t' & k2 & Hch' & Hle' & _ & Hc')]]; [lia..|].
  assert (Some e = Some e') as [= <-]; [|done]. rewrite <-He, <-He', E, E'.
  eapply (committed_agree n V2 c2 A2 G2 _ _ t t' k k1 k2); try done; [by eapply chosen_mono|].
  by eapply contains_ghost.
Qed.
End agreement.

(** ** Why index 1 is excluded *)

Section placeholder.
Context {Cmd : Type} `{GobLaws Z, GobLaws (list (LogEntry Cmd))}.

(** Three peers elect peer 0, which commits [cmd] with peer 1. *)
Definition commit_first (cmd : Cmd) : list (ClusterEvent Cmd) :=
  [EvTimeout 0 1; EvDeliver 0 2; EvDeliver 0 3; EvStart 0 (Some cmd);
   EvHeartbeat 0; EvHeartbeatSend 0 1; EvDeliver 0 4; EvDeliver 0 5; EvUpdateCommit 0].

(** It applies the command, starts a heartbeat, and its service takes a
    snapshot. The next heartbeat finds that peer 2 has nothing; then the
    goroutine of the first one sends its message to peer 2. *)
Definition replicate_placeholder : list (ClusterEvent Cmd) :=
  [EvApply 0; EvHeartbeat 0; EvSnapshot 0 1 [Byte.x07];
   EvHeartbeat 0; EvHeartbeatSend 0 2; EvDeliver 0 6; EvDeliver 0 7;
   EvHeartbeatSend 1 2; EvDeliver 0 8].

(** C40. A leader that compacted its log to index 1 can replicate the
    placeholder it keeps there: an execution in which services snapshot only
    what they have applied, and two peers hand different commands to their
    services for index 1. *)
Theorem placeholder_replicated (cmd : Cmd) :
  ∃ evs1 evs2 c1 c2 rfi rfj ri rj,
    along applied_snapshot (evs1 ++ evs2) (cluster_boot 3 0) ∧
    crun evs1 (cluster_boot 3 0) = Ret c1 ∧ crun evs2 c1 = Ret c2 ∧
    c1.(nodes) !! 0 = Some rfi ∧ c2.(nodes) !! 2 = Some rfj ∧
    applyCommitted rfi = Ret ri ∧ applyCommitted rfj = Ret rj ∧
    ri.2 = [commandMsg 1 (mkEntry 1 (Some cmd))] ∧ rj.2 = [commandMsg 1 (mkEntry 1 None)].
Proof.
  pose (c1 := result (crun (commit_first cmd) (cluster_boot 3 0)) (cluster_boot 3 0)).
  pose (c2 := result (crun replicate_placeholder c1) c1).
  pose (rfi := default (boot 3 0 0) (c1.(nodes) !! 0)). pose (rfj := default (boot 3 2 0) (c2.(nodes) !! 2)).
  pose (ri := result (applyCommitted rfi) (rfi, [])). pose (rj := result (applyCommitted rfj) (rfj, [])).
  exists (commit_first cmd), replicate_placeholder, c1, c2, rfi, rfj, ri, rj.
  split; [vm_compute; intuition congruence|].
  split; [apply result_Ret; vm_compute; reflexivity|].
  split; [apply result_Ret; vm_compute; reflexivity|].
  split; [vm_compute; reflexivity|]. split; [vm_compute; reflexivity|].
  split; [apply result_Ret; vm_compute; reflexivity|].
  split; [apply result_Ret; vm_compute; reflexivity|].
  split; vm_compute; reflexivity.
Qed.
End placeholder.
