(* ===== verification/RaftWitness.v ===== *)
(** * The Raft theorems at concrete peers

    Peers, messages and runs on which the hypotheses of the theorems of
    [RaftSpec.v], [RaftLog.v], [RaftSnapshot.v], [RaftCluster.v] and
    [RaftAgreement.v] hold: a cluster of three that elects peer 0, commits a
    command and elects peer 1, a voter that crashes between two
    requests, a follower with a conflicting log, a leader that commits. The
    commands are integers, written to disk with [countable_codec]. *)

From S2P Require Import Prelude Gob Persister Raft RaftNode RaftSpec RaftLog RaftSnapshot RaftCluster RaftMatching RaftAgreement.
From Stdlib Require Import Strings.Byte.

#[local] Instance Z_codec : GobCodec Z := countable_codec Z.
#[local] Instance Z_laws : GobLaws Z := countable_codec_laws Z.
#[local] Instance log_codec : GobCodec (list (LogEntry Z)) := countable_codec (list (LogEntry Z)).
#[local] Instance log_laws : GobLaws (list (LogEntry Z)) := countable_codec_laws (list (LogEntry Z)).

(** Well-formedness of a concrete peer. *)
Ltac concrete_wf := constructor; vm_compute; intuition congruence.

(** ** Peers *)

Definition entry (t c : Z) : LogEntry Z := mkEntry t (Some c).

Definition peer (i t v : Z) (lg : list (LogEntry Z)) (commit applied : Z) : Raft Z :=
  mkRaft 3 i false MakePersister t v lg commit applied [] [] Follower 0 0 0.

(** The leader of term 2, whose two entries of term 2 peer 1 has. *)
Definition leader2 : Raft Z :=
  mkRaft 3 0 false MakePersister 2 0
    [mkEntry 0 None; entry 1 10; entry 2 20; entry 2 30] 0 0 [4; 4; 4] [3; 3; 0] Leader 0 0 0.

(** A follower whose entry 2 conflicts with the leader's. *)
Definition follower1 : Raft Z :=
  peer 1 1 (-1) [mkEntry 0 None; entry 1 10; entry 1 11] 1 0.

Definition append_at1 : AppendEntriesArgs Z := mkAEArgs 2 0 1 1 [entry 2 20; entry 2 30] 2.
Definition append_at2 : AppendEntriesArgs Z := mkAEArgs 2 0 2 2 [entry 2 30] 2.

Lemma leader2_wf : raft_wf leader2.
Proof. concrete_wf. Qed.
Lemma follower1_wf : raft_wf follower1.
Proof. concrete_wf. Qed.

(** ** A peer's life *)

Definition life : list (NodeEvent Z) :=
  [Step (OpElection 5); Step (OpVoteReply (mkRVArgs 1 0 0 0) (mkRVReply 1 true) 1 0);
   Step (OpStart (Some 42)); Step (OpSnapshot 1 [Byte.x07]); Restart 9;
   Step (OpAppendEntries 11 (mkAEArgs 2 1 1 1 [entry 2 50] 2)); Step OpApply].

Lemma raft_run_safe_witness : returns (run life (boot 3 0 0)) raft_wf.
Proof. apply (raft_run_safe 3 0 0 life); [lia|repeat constructor]. Defined.

Lemma raft_recovers_witness :
  returns (run life (boot 3 0 0)) (λ rf,
    core (restart 99 rf) = core rf ∧
    ReadSnapshot (restart 99 rf).(persister) = ReadSnapshot rf.(persister)).
Proof. apply (raft_recovers 3 0 0 life 99); [lia|repeat constructor]. Defined.

(** Peer 1 votes for peer 2, crashes, refuses peer 0 and is asked again. *)
Definition between : list (NodeEvent Z) := [Restart 7; Step (OpRequestVote 8 (mkRVArgs 1 0 0 0))].
Definition voted1 := result (RequestVote 1 (mkRVArgs 1 2 0 0) (boot (Cmd := Z) 3 1 0)) (boot 3 1 0, mkRVReply 0 false).
Definition reborn := result (run between voted1.1) voted1.1.
Definition voted2 := result (RequestVote 9 (mkRVArgs 1 2 0 0) reborn) voted1.

Lemma voter_run :
  RequestVote 1 (mkRVArgs 1 2 0 0) (boot (Cmd := Z) 3 1 0) = Ret (voted1.1, voted1.2) ∧
  run between voted1.1 = Ret reborn ∧
  RequestVote 9 (mkRVArgs 1 2 0 0) reborn = Ret (voted2.1, voted2.2).
Proof. split_and!; rewrite <-?surjective_pairing; apply result_Ret; vm_compute; reflexivity. Qed.

Lemma one_vote_per_term_witness :
  (∃ rf1 rep1, RequestVote 1 (mkRVArgs 1 2 0 0) (boot (Cmd := Z) 3 1 0) = Ret (rf1, rep1) ∧
     rep1.(VoteGranted) = true) ∧ 2 = 2.
Proof.
  destruct voter_run as (H1 & H2 & H3).
  assert (voted1.2.(VoteGranted) = true) as Hg1 by (vm_compute; reflexivity).
  assert (voted2.2.(VoteGranted) = true) as Hg2 by (vm_compute; reflexivity).
  split; [exact (ex_intro _ _ (ex_intro _ _ (conj H1 Hg1)))|].
  refine (one_vote_per_term 1 9 (mkRVArgs 1 2 0 0) (mkRVArgs 1 2 0 0) (boot 3 1 0) _ _ _
            between _ _ (boot_wf 3 1 0 _) (boot_durable 3 1 0) _ H1 Hg1 H2 H3 Hg2 eq_refl _);
    [lia|repeat constructor|discriminate].
Defined.

Lemma RequestVote_spec_witness :
  returns (RequestVote 5 (mkRVArgs 2 0 3 2) follower1) (λ r,
    r.2.(VoteGranted) = true ∧ r.1.(votedFor) = 0 ∧ r.1.(log) = follower1.(log)).
Proof.
  eapply returns_mono; [exact (RequestVote_spec 5 (mkRVArgs 2 0 3 2) follower1 follower1_wf)|].
  intros [rf' reply] (_ & Hiff & Hlog & _ & _ & Hv). cbn.
  assert (reply.(VoteGranted) = true) as Hg.
  { apply Hiff. split; [by vm_compute|]. split; [left; by vm_compute|].
    intros t Ht. left. vm_compute in Ht. injection Ht as <-. by vm_compute. }
  split; [done|]. split; [by apply Hv|done].
Defined.

(** ** Log replication *)

Lemma AppendEntries_spec_witness :
  returns (AppendEntries 5 append_at1 follower1) (λ r,
    r.2.(Success) = true ∧ r.1.(log) = leader2.(log) ∧ r.1.(commitIndex) = 2) ∧
  returns (AppendEntries 5 append_at2 follower1) (λ r,
    r.2.(Success) = false ∧ r.1.(log) = follower1.(log)).
Proof.
  split; (eapply returns_mono; [exact (AppendEntries_spec 5 _ follower1 follower1_wf)|]);
    intros [rf' reply] (_ & Hiff & Hf & Hs); cbn.
  - assert (reply.(Success) = true) as Hg by (apply Hiff; split; [done|by vm_compute]).
    destruct (Hs Hg) as (-> & _ & -> & _). done.
  - assert (reply.(Success) = false) as Hg.
    { apply not_true_is_false. intros E%Hiff. destruct E as [_ E]. vm_compute in E.
      intuition congruence. }
    split; [done|by apply Hf].
Defined.

(** The conflicting entry 2 is of another term, so equal pairs name equal
    entries. *)
Lemma AppendEntries_replicates_witness :
  ∃ rf' reply, AppendEntries 5 append_at1 follower1 = Ret (rf', reply) ∧
    entry_at rf' 1 = Some (entry 1 10) ∧ entry_at rf' 3 = Some (entry 2 30).
Proof.
  destruct (AppendEntries 5 append_at1 follower1) as [[rf' reply]| |] eqn:E;
    [|vm_compute in E; discriminate..].
  exists rf', reply. split; [done|].
  assert (reply.(Success) = true) as Hs by (vm_compute in E; by injection E as <- <-).
  destruct (AppendEntries_replicates 5 append_at1 follower1 rf' reply follower1_wf E Hs) as [H1 H2].
  { intros [|[|k]] e e' [= <-] He'; vm_compute in He'; [|discriminate].
    injection He' as <-. discriminate. }
  split; [by rewrite H1|]. exact (H2 1%nat _ eq_refl).
Defined.

Lemma backoff_progress_witness :
  ∃ rfF' reply, AppendEntries 5 append_at2 follower1 = Ret (rfF', reply) ∧
    returns (onAppendEntriesReply 1 append_at2 reply leader2) (λ rfL',
      ∃ next, rfL'.(nextIndex).[1] = Some next ∧ 1 ≤ next < 3).
Proof.
  destruct (AppendEntries 5 append_at2 follower1) as [[rfF' reply]| |] eqn:E;
    [|vm_compute in E; discriminate..].
  exists rfF', reply. split; [done|].
  assert (reply.(Success) = false) as Hs by (vm_compute in E; by injection E as <- <-).
  eapply returns_mono.
  { refine (backoff_progress 5 1 append_at2 follower1 rfF' reply leader2
      follower1_wf leader2_wf eq_refl _ eq_refl _ _ _ E Hs); vm_compute; try (split; congruence).
    - discriminate.
    - repeat constructor; discriminate.
    - discriminate. }
  intros rfL' (next & Hn & H1 & H2). exists next. split; [done|]. vm_compute in H1, H2 |- *. done.
Defined.

Lemma updateCommitIndex_spec_witness :
  returns (updateCommitIndex leader2) (λ rf', ∃ c,
    rf'.(commitIndex) = c ∧ (0 < c → committable leader2 c)).
Proof.
  eapply returns_mono; [exact (updateCommitIndex_spec leader2 leader2_wf eq_refl)|].
  intros rf' (c & -> & Hle & Hc & _). exists c. done.
Defined.

Lemma applyCommitted_spec_witness :
  returns (applyCommitted follower1) (λ r,
    r.1.(lastApplied) = 1 ∧ glen r.2 = 1).
Proof.
  eapply returns_mono; [apply (applyCommitted_spec follower1 follower1_wf); vm_compute; intuition congruence|].
  intros [rf' ms] [-> H2]. split; [done|]. apply Forall2_length in H2. unfold glen. simpl in *. by rewrite <-H2.
Defined.

(** ** Snapshots *)

Definition install (lii : Z) : InstallSnapshotArgs := mkISArgs 2 0 lii 2 [Byte.x01].

(** A peer that has applied both of its entries. *)
Definition applied2 : Raft Z :=
  peer 1 1 (-1) [mkEntry 0 None; entry 1 10; entry 1 11] 2 2.
Lemma applied2_wf : raft_wf applied2.
Proof. concrete_wf. Qed.

Lemma Snapshot_spec_witness :
  returns (Snapshot 1 [Byte.x01] applied2) (λ rf', compacted applied2 rf' 1 [Byte.x01]) ∧
  returns (Snapshot 5 [Byte.x01] applied2) (λ rf', rf' = applied2).
Proof.
  split; (eapply returns_mono; [exact (Snapshot_spec _ [Byte.x01] applied2 applied2_wf)|]);
    intros rf' Hr; cbv beta in Hr.
  - rewrite decide_True in Hr by (vm_compute; intuition congruence). exact Hr.
  - rewrite decide_False in Hr by (vm_compute; intuition congruence). exact Hr.
Defined.

Lemma InstallSnapshot_spec_witness :
  returns (InstallSnapshot 5 (install 1) follower1) (λ r,
    r.2 = [snapshotMsg (install 1)] ∧ r.1.1.(snapshotIndex) = 1 ∧
    entry_at r.1.1 2 = entry_at follower1 2) ∧
  returns (InstallSnapshot 5 (install 0) follower1) (λ r, r.2 = []).
Proof.
  split; (eapply returns_mono; [exact (InstallSnapshot_spec 5 _ follower1 follower1_wf)|]);
    intros [[rf' reply] ms] (_ & _ & Hr).
  - rewrite decide_True in Hr by (vm_compute; intuition congruence).
    destruct Hr as (-> & _ & _ & Hs & He & _). split; [done|]. split; [done|]. by apply He.
  - rewrite decide_False in Hr by (vm_compute; intuition congruence). by destruct Hr as (-> & _).
Defined.

Lemma InstallSnapshot_behind_applied_witness :
  returns (InstallSnapshot 5 (install 1) applied2) (λ r,
    r.2 = [snapshotMsg (install 1)] ∧ r.1.1.(lastApplied) = 2).
Proof.
  eapply returns_mono.
  { apply (InstallSnapshot_behind_applied 5 (install 1) applied2 applied2_wf);
      vm_compute; intuition congruence. }
  intros [[rf' reply] ms] (-> & Ha & _). split; [done|exact Ha].
Defined.

(** A leader that knows of more commits than it sends entries. *)
Definition append_short : AppendEntriesArgs Z := mkAEArgs 2 0 0 0 [entry 1 10] 5.

Lemma AppendEntries_commit_regress_witness :
  ∃ rf' reply, AppendEntries 5 append_short applied2 = Ret (rf', reply) ∧
    rf'.(commitIndex) < applied2.(commitIndex).
Proof.
  destruct (AppendEntries 5 append_short applied2) as [[rf' reply]| |] eqn:E;
    [|vm_compute in E; discriminate..].
  exists rf', reply. split; [done|].
  assert (reply.(Success) = true) as Hs by (vm_compute in E; by injection E as <- <-).
  apply (AppendEntries_commit_regress 5 append_short applied2 rf' reply applied2_wf E Hs).
  by vm_compute.
Defined.

(** ** The cluster *)

(** Peer 0 times out, peer 1 votes for it, the reply arrives. *)
Definition elect0 : list (ClusterEvent Z) := [EvTimeout 0 1; EvDeliver 0 2; EvDeliver 0 3].
(** Peer 2 crashes and tries to be elected in the same term. *)
Definition elect2 : list (ClusterEvent Z) := [EvCrash 2 4; EvTimeout 2 5; EvDeliver 0 6; EvDeliver 0 7].

Lemma cluster_no_panic_witness :
  returns (crun (elect0 ++ elect2) (cluster_boot 3 0)) (λ c,
    ∀ i rf, c.(nodes) !! i = Some rf → raft_wf rf ∧ durable rf ∧ rf.(me) = i).
Proof. exact (cluster_no_panic 3 0 (elect0 ++ elect2)). Defined.

Definition c_elected : Cluster Z := result (crun elect0 (cluster_boot 3 0)) (cluster_boot 3 0).
Definition c_later : Cluster Z := result (crun elect2 c_elected) c_elected.

Lemma elected :
  crun elect0 (cluster_boot 3 0) = Ret c_elected ∧ crun elect2 c_elected = Ret c_later ∧
  leads c_elected 0 1.
Proof.
  split; [apply result_Ret; vm_compute; reflexivity|].
  split; [apply result_Ret; vm_compute; reflexivity|].
  destruct (c_elected.(nodes) !! 0) as [rf|] eqn:E; vm_compute in E; [|discriminate].
  exists rf. injection E as <-. split; [vm_compute; reflexivity|done].
Qed.

Lemma election_safety_witness : ∃ c1 c2,
  crun elect0 (cluster_boot 3 0) = Ret c1 ∧ crun elect2 c1 = Ret c2 ∧ leads c1 0 1 ∧
  ∀ j, leads c2 j 1 → 0 = j.
Proof.
  destruct elected as (H1 & H2 & Hl). exists c_elected, c_later.
  split; [done|]. split; [done|]. split; [done|]. intros j Hj.
  refine (election_safety 3 0 elect0 elect2 c_elected c_later 0 j 1 _ H1 H2 Hl Hj). lia.
Defined.

(** ** Agreement *)

Definition beat (srv : Z) : list (ClusterEvent Z) :=
  [EvHeartbeat 0; EvHeartbeatSend 0 srv; EvDeliver 0 5; EvDeliver 0 6].

(** Peer 0 commits two commands with peer 1, compacts its log up to both,
    and commits a third. *)
Definition commit0 : list (ClusterEvent Z) :=
  elect0 ++ [EvStart 0 (Some 41); EvStart 0 (Some 42)] ++ beat 1 ++
  [EvUpdateCommit 0; EvApply 0; EvSnapshot 0 2 [Byte.x07]; EvStart 0 (Some 43)] ++ beat 1 ++
  [EvUpdateCommit 0].
(** Peer 2 has nothing of this; it refuses a heartbeat, gets the snapshot and
    then the third entry. *)
Definition install2 : list (ClusterEvent Z) := beat 2 ++ beat 2 ++ beat 2.
(** Peer 0 crashes, and peer 1 elects peer 2. *)
Definition elect_installed : list (ClusterEvent Z) :=
  [EvCrash 0 20; EvTimeout 2 21; EvDeliver 1 22; EvDeliver 0 23].

Definition c_commit : Cluster Z := result (crun commit0 (cluster_boot 3 0)) (cluster_boot 3 0).
Definition c_new : Cluster Z := result (crun (install2 ++ elect_installed) c_commit) c_commit.

Lemma committed_runs :
  crun commit0 (cluster_boot 3 0) = Ret c_commit ∧
  crun (install2 ++ elect_installed) c_commit = Ret c_new.
Proof. split; apply result_Ret; vm_compute; reflexivity. Qed.

Definition node (c : Cluster Z) (i : Z) : Raft Z := default (boot 3 i 0) (c.(nodes) !! i).

Lemma node_lookup (c : Cluster Z) i :
  match c.(nodes) !! i with Some _ => true | None => false end = true →
  c.(nodes) !! i = Some (node c i).
Proof. unfold node. by destruct (nodes c !! i). Qed.

Lemma committed_nodes :
  c_commit.(nodes) !! 0 = Some (node c_commit 0) ∧ c_commit.(nodes) !! 1 = Some (node c_commit 1) ∧
  c_new.(nodes) !! 2 = Some (node c_new 2).
Proof. split_and!; apply node_lookup; vm_compute; reflexivity. Qed.

Lemma services_runs :
  services_ok commit0 (cluster_boot 3 0) ∧ services_ok (install2 ++ elect_installed) c_commit.
Proof. split; vm_compute; intuition congruence. Qed.

(** Peer 0 has compacted its log, peer 1 has not. *)
Lemma log_matching_witness :
  (node c_commit 0).(snapshotIndex) = 2 ∧ (node c_commit 1).(snapshotIndex) = 0 ∧
  entry_at (node c_commit 0) 3 = entry_at (node c_commit 1) 3.
Proof.
  destruct committed_runs as [H1 _], committed_nodes as (N0 & N1 & _), services_runs as [S1 _].
  assert (entry_at (node c_commit 0) 3 = Some (entry 1 43)) as E0 by (vm_compute; reflexivity).
  assert (entry_at (node c_commit 1) 3 = Some (entry 1 43)) as E1 by (vm_compute; reflexivity).
  split; [vm_compute; reflexivity|]. split; [vm_compute; reflexivity|].
  refine (log_matching 3 0 _ c_commit 0 1 _ _ 3 _ _ _ S1 H1 N0 N1 E0 E1 eq_refl 3 _ _ _);
    [lia|apply Z.ltb_lt; vm_compute; reflexivity..|lia].
Defined.

(** The new leader has a snapshot it was sent. *)
Lemma leader_completeness_witness :
  (node c_new 2).(state) = Leader ∧ (node c_new 2).(currentTerm) = 2 ∧
  (node c_new 2).(snapshotIndex) = 2 ∧ entry_at (node c_new 2) 3 = Some (entry 1 43).
Proof.
  destruct committed_runs as [H1 H2], committed_nodes as (N0 & _ & N2), services_runs as [S1 S2].
  assert (entry_at (node c_commit 0) 3 = Some (entry 1 43)) as E0 by (vm_compute; reflexivity).
  assert ((node c_new 2).(state) = Leader) as Hst by (vm_compute; reflexivity).
  assert ((node c_new 2).(snapshotIndex) = 2) as Hs by (vm_compute; reflexivity).
  split; [exact Hst|]. split; [vm_compute; reflexivity|]. split; [exact Hs|].
  destruct (leader_completeness 3 0 _ _ c_commit c_new 0 2 _ _ 3 _ ltac:(lia) S1 S2 H1 H2 N0 N2 E0)
    as [Hle|He].
  - split; [apply Z.ltb_lt|apply Z.leb_le]; vm_compute; reflexivity.
  - exact Hst.
  - apply Z.leb_le; vm_compute; reflexivity.
  - rewrite Hs in Hle. lia.
  - exact He.
Defined.

Definition applied (rf : Raft Z) : Raft Z * list (ApplyMsg Z) := result (applyCommitted rf) (rf, []).

Lemma applied_runs :
  applyCommitted (node c_commit 0) = Ret (applied (node c_commit 0)) ∧
  applyCommitted (node c_new 2) = Ret (applied (node c_new 2)).
Proof. split; apply result_Ret; vm_compute; reflexivity. Qed.

Lemma state_machine_safety_witness :
  glen (applied (node c_commit 0)).2 = 1 ∧
  ∀ m, m ∈ (applied (node c_commit 0)).2 → m = commandMsg 3 (entry 1 43).
Proof.
  destruct committed_runs as [H1 H2], committed_nodes as (N0 & _ & N2), services_runs as [S1 S2].
  destruct applied_runs as [A0 A2].
  split; [vm_compute; reflexivity|]. intros m Hm.
  assert ((applied (node c_new 2)).2 = [commandMsg 3 (entry 1 43)]) as E2 by (vm_compute; reflexivity).
  assert ((CommandIndex <$> (applied (node c_commit 0)).2) = [3]) as E0 by (vm_compute; reflexivity).
  refine (state_machine_safety 3 0 _ _ c_commit c_new 0 2 _ _ _ _ m _ _ S1 S2 H1 H2 N0 N2 A0 A2 Hm _ _).
  - lia.
  - rewrite E2. by apply list_elem_of_singleton.
  - apply (list_elem_of_fmap_2 CommandIndex) in Hm. rewrite E0 in Hm.
    by apply list_elem_of_singleton in Hm.
Defined.
