(* ===== verification/KvServer.v ===== *)
(** * The key/value server and its clerk

    [kvsrv1/server.go], [kvsrv1/client.go], [kvsrv1/rpc/rpc.go] and the
    sequential specification the tests check histories against,
    [models1/kv.go]. The server's map holds pointers to entries that only the
    server's handlers dereference, under its lock, so it is a map of entries
    here. A clerk's loop is a function of the outcomes of its calls. *)

From S2P Require Import Prelude.

(** ** [rpc.go] *)

Abbreviation Err := string.
Definition OK : Err := "OK".
Definition ErrNoKey : Err := "ErrNoKey".
Definition ErrVersion : Err := "ErrVersion".
Definition ErrMaybe : Err := "ErrMaybe".

(** [Tversion] is a [uint64]; incrementing wraps. *)
Definition u64 (z : Z) : Z := z mod 2 ^ 64.

Record PutArgs := mkPutArgs { put_Key : string; put_Value : string; put_Version : Z }.
Record PutReply := mkPutReply { pr_Err : Err }.
Record GetArgs := mkGetArgs { get_Key : string }.
Record GetReply := mkGetReply { gr_Value : string; gr_Version : Z; gr_Err : Err }.

(** ** [server.go] *)

Record KVEntry := mkKVEntry { Value : string; Version : Z }.

Abbreviation KVServer := (gmap string KVEntry).

Definition MakeKVServer : KVServer := ∅.

Module Server.
Definition Get (args : GetArgs) (kv : KVServer) : GetReply :=
  match kv !! args.(get_Key) with
  | None => mkGetReply "" 0 ErrNoKey
  | Some entry => mkGetReply entry.(Value) entry.(Version) OK
  end.

Definition Put (args : PutArgs) (kv : KVServer) : KVServer * PutReply :=
  match kv !! args.(put_Key) with
  | None =>
    if args.(put_Version) =? 0 then
      (<[args.(put_Key) := mkKVEntry args.(put_Value) 1]> kv, mkPutReply OK)
    else (kv, mkPutReply ErrNoKey)
  | Some entry =>
    if negb (args.(put_Version) =? entry.(Version)) then (kv, mkPutReply ErrVersion)
    else (<[args.(put_Key) := mkKVEntry args.(put_Value) (u64 (entry.(Version) + 1))]> kv,
          mkPutReply OK)
  end.
End Server.

(** ** [client.go]

    [calls] are the results of successive [clnt.Call]s: whether it succeeded,
    and the reply if so. [None]: the clerk is still retrying. *)

Module Clerk.
Fixpoint Get (calls : list (bool * GetReply)) : option (string * Z * Err) :=
  match calls with
  | [] => None
  | (ok, reply) :: calls =>
    if ok then Some (reply.(gr_Value), reply.(gr_Version), reply.(gr_Err)) else Get calls
  end.

(** One iteration of [Put]'s loop. *)
Definition put_iter (first ok : bool) (reply : PutReply) : option Err :=
  if ok then
    if bool_decide (reply.(pr_Err) = ErrVersion) then
      if first then Some ErrVersion else Some ErrMaybe
    else Some reply.(pr_Err)
  else None.

Fixpoint put_loop (first : bool) (calls : list (bool * PutReply)) : option Err :=
  match calls with
  | [] => None
  | (ok, reply) :: calls =>
    match put_iter first ok reply with
    | Some err => Some err
    | None => put_loop false calls
    end
  end.

Definition Put (calls : list (bool * PutReply)) : option Err := put_loop true calls.
End Clerk.

#[export] Instance KVEntry_eq_dec : EqDecision KVEntry.
Proof. solve_decision. Defined.

(** ** [models1/kv.go]: the sequential specification of one key *)

Record KvInput := mkKvInput { in_Op : Z; in_Key : string; in_Value : string; in_Version : Z }.
Record KvOutput := mkKvOutput { out_Value : string; out_Version : Z; out_Err : Err }.
Record KvState := mkKvState { st_Value : string; st_Version : Z }.

#[export] Instance KvOutput_eq_dec : EqDecision KvOutput.
Proof. solve_decision. Defined.
#[export] Instance KvState_eq_dec : EqDecision KvState.
Proof. solve_decision. Defined.

Module KvModel.
Definition Init : KvState := mkKvState "" 0.

(** The state is an [interface{}]: a [KvState], or the string of the invalid
    case. *)
Definition Step (st : KvState) (inp : KvInput) (out : KvOutput) : bool * (KvState + string) :=
  if inp.(in_Op) =? 0 then (bool_decide (out.(out_Value) = st.(st_Value)), inl st)
  else if inp.(in_Op) =? 1 then
    if st.(st_Version) =? inp.(in_Version) then
      (bool_decide (out.(out_Err) = "OK") || bool_decide (out.(out_Err) = "ErrMaybe"),
       inl (mkKvState inp.(in_Value) (u64 (st.(st_Version) + 1))))
    else
      (bool_decide (out.(out_Err) = "ErrVersion") || bool_decide (out.(out_Err) = "ErrMaybe"), inl st)
  else (false, inr "<invalid>").

Record Operation := mkOperation {
  op_Input : KvInput; op_Output : KvOutput; op_Call : Z; op_Return : Z; op_ClientId : Z;
}.

(** [Partition]: the operations of each key, keys in ascending order. *)
Definition group (history : list Operation) : gmap string (list Operation) :=
  foldl (λ m v, let key := v.(op_Input).(in_Key) in
                <[key := default [] (m !! key) ++ [v]]> m) ∅ history.
Definition Partition (history : list Operation) : list (list Operation) :=
  let m := group history in
  let keys := merge_sort String.le (map_to_list m).*1 in
  (λ k, default [] (m !! k)) <$> keys.

(** A sequence of operations on one key that the model accepts. *)
Definition accept (st : KvState) (ops : list (KvInput * KvOutput)) : option KvState :=
  foldl (λ st io, st ← st;
    match Step st io.1 io.2 with (true, inl st') => Some st' | _ => None end) (Some st) ops.
End KvModel.
