(* ===== verification/KvLin.v ===== *)
(** * Linearizability of the key/value service

    Clerks and server over a network that may lose requests and replies:
    every atomic interleaving of calls, with the server's execution of a call
    as the only step that touches the data. The trace of a run marks where
    each operation takes effect; the theorem is that these points order the
    operations into a history of the sequential model [KvModel]. *)

From S2P Require Import Prelude KvServer.

(** ** The system *)

Inductive ClerkOp :=
  | OpGet (key : string)
  | OpPut (key value : string) (version : Z).

#[export] Instance ClerkOp_eq_dec : EqDecision ClerkOp.
Proof. solve_decision. Defined.

(** A clerk inside [Get] or [Put]: its operation, the variable [first], and
    whether its operation already took effect at the server (for the trace). *)
Record Pending := mkPending { p_op : ClerkOp; p_first : bool; p_lin : bool }.

Record Sys := mkSys { s_srv : KVServer; s_clerks : gmap Z Pending }.

(** One call of clerk [c]: the request reaches the server or not, and then
    the reply reaches the clerk or not. *)
Inductive SysEvent :=
  | Invoke (c : Z) (op : ClerkOp)
  | Call (c : Z) (executed replied : bool).

Inductive TraceItem :=
  | TInv (c : Z) (op : ClerkOp)
  | TLin (c : Z) (op : ClerkOp) (out : KvOutput)
  | TRet (c : Z) (out : KvOutput).

Definition put_out (err : Err) : KvOutput := mkKvOutput "" 0 err.

Definition call_get (c : Z) (key : string) (ok : bool) (s : Sys) : Sys * list TraceItem :=
  let reply := Server.Get (mkGetArgs key) s.(s_srv) in
  match Clerk.Get [(ok, reply)] with
  | None => (s, [])
  | Some (v, ver, err) =>
    let out := mkKvOutput v ver err in
    (mkSys s.(s_srv) (delete c s.(s_clerks)), [TLin c (OpGet key) out; TRet c out])
  end.

Definition call_put (c : Z) (p : Pending) (args : PutArgs) (executed replied : bool) (s : Sys) :
    Sys * list TraceItem :=
  let '(srv, reply) := if executed then Server.Put args s.(s_srv) else (s.(s_srv), mkPutReply "") in
  let ok := executed && replied in
  let effect := executed && bool_decide (reply.(pr_Err) = OK) in
  let res := Clerk.put_iter p.(p_first) ok reply in
  let lin := match effect, res with
             | true, Some err => [TLin c p.(p_op) (put_out err)]
             | true, None => [TLin c p.(p_op) (put_out ErrMaybe)]
             | false, Some err => if p.(p_lin) then [] else [TLin c p.(p_op) (put_out err)]
             | false, None => []
             end in
  match res with
  | Some err => (mkSys srv (delete c s.(s_clerks)), lin ++ [TRet c (put_out err)])
  | None => (mkSys srv (<[c := mkPending p.(p_op) false (p.(p_lin) || effect)]> s.(s_clerks)), lin)
  end.

Definition sys_step (ev : SysEvent) (s : Sys) : Sys * list TraceItem :=
  match ev with
  | Invoke c op =>
    match s.(s_clerks) !! c with
    | Some _ => (s, [])
    | None => (mkSys s.(s_srv) (<[c := mkPending op true false]> s.(s_clerks)), [TInv c op])
    end
  | Call c executed replied =>
    match s.(s_clerks) !! c with
    | None => (s, [])
    | Some p =>
      match p.(p_op) with
      | OpGet key => call_get c key (executed && replied) s
      | OpPut key value version => call_put c p (mkPutArgs key value version) executed replied s
      end
    end
  end.

Fixpoint sys_run (evs : list SysEvent) (s : Sys) : Sys * list TraceItem :=
  match evs with
  | [] => (s, [])
  | ev :: evs =>
    let '(s, tr) := sys_step ev s in
    let '(s, tr') := sys_run evs s in (s, tr ++ tr')
  end.

Definition sys_init : Sys := mkSys MakeKVServer ∅.

(** ** Linearizability of a trace *)

(** What one clerk does: invoke, take effect, return the result of the effect. *)
Inductive ClientState := Idle | Called (op : ClerkOp) | Lined (out : KvOutput).

Definition view_step (c : Z) (st : ClientState) (it : TraceItem) : option ClientState :=
  match it with
  | TInv c' op => if decide (c' = c) then
      match st with Idle => Some (Called op) | _ => None end else Some st
  | TLin c' op out => if decide (c' = c) then
      match st with Called op' => if decide (op' = op) then Some (Lined out) else None | _ => None end
      else Some st
  | TRet c' out => if decide (c' = c) then
      match st with Lined out' => if decide (out' = out) then Some Idle else None | _ => None end
      else Some st
  end.

Definition view (c : Z) (tr : list TraceItem) : option ClientState :=
  foldl (λ st it, st ← st; view_step c st it) (Some Idle) tr.

(** The operation as the tests log it for the checker. *)
Definition to_input (op : ClerkOp) : KvInput :=
  match op with
  | OpGet key => mkKvInput 0 key "" 0
  | OpPut key value version => mkKvInput 1 key value version
  end.

Definition key_event (key : string) (it : TraceItem) : option (KvInput * KvOutput) :=
  match it with
  | TLin _ op out => if decide ((to_input op).(in_Key) = key) then Some (to_input op, out) else None
  | _ => None
  end.

(** The operations on [key], in the order of their effects. *)
Definition key_history (key : string) (tr : list TraceItem) : list (KvInput * KvOutput) :=
  omap (key_event key) tr.

(** Each clerk's operation takes effect once, between its call and its return
    and with the result it returns; and the effects on each key are a legal
    sequential history. *)
Definition linearizable (tr : list TraceItem) : Prop :=
  (∀ c, is_Some (view c tr)) ∧
  ∀ key, is_Some (KvModel.accept KvModel.Init (key_history key tr)).

Definition no_missing_put (tr : list TraceItem) : Prop :=
  ∀ c key value version out,
    TLin c (OpPut key value version) out ∈ tr → out.(out_Err) ≠ ErrNoKey.

(** ** The invariant *)

(** A missing key is the model's initial state. *)
Definition abs (kv : KVServer) (key : string) : KvState :=
  match kv !! key with None => KvModel.Init | Some e => mkKvState e.(Value) e.(Version) end.

Definition clerk_state (p : option Pending) : ClientState :=
  match p with
  | None => Idle
  | Some p => if p.(p_lin) then Lined (put_out ErrMaybe) else Called p.(p_op)
  end.

(** The key's version is past the one the operation asks for. *)
Definition superseded (kv : KVServer) (op : ClerkOp) : Prop :=
  match op with
  | OpGet _ => False
  | OpPut key _ version => ∃ e, kv !! key = Some e ∧ version < e.(Version)
  end.

Record sys_inv (n : Z) (s : Sys) (tr : list TraceItem) : Prop := {
  si_history : ∀ key, KvModel.accept KvModel.Init (key_history key tr) = Some (abs s.(s_srv) key);
  si_view : ∀ c, view c tr = Some (clerk_state (s.(s_clerks) !! c));
  si_lin : ∀ c p, s.(s_clerks) !! c = Some p → p.(p_lin) = true →
    p.(p_first) = false ∧ superseded s.(s_srv) p.(p_op);
  si_version : ∀ key e, s.(s_srv) !! key = Some e → 1 ≤ e.(Version) ≤ n;
}.

Lemma view_app c tr tr' :
  view c (tr ++ tr') = foldl (λ st it, st ← st; view_step c st it) (view c tr) tr'.
Proof. unfold view. by rewrite foldl_app. Qed.

Lemma accept_app st l l' :
  KvModel.accept st (l ++ l') = st' ← KvModel.accept st l; KvModel.accept st' l'.
Proof.
  unfold KvModel.accept. rewrite foldl_app. destruct (foldl _ _ l) as [st'|]; [done|].
  simpl. by induction l'.
Qed.

(** The server's handlers are steps of the model. *)
Lemma Get_refines kv key :
  let reply := Server.Get (mkGetArgs key) kv in
  KvModel.Step (abs kv key) (to_input (OpGet key))
    (mkKvOutput reply.(gr_Value) reply.(gr_Version) reply.(gr_Err)) = (true, inl (abs kv key)).
Proof.
  unfold Server.Get, abs, KvModel.Step. cbn -[bool_decide].
  destruct (kv !! key); cbn -[bool_decide]; by rewrite bool_decide_eq_true_2.
Qed.

Lemma Put_refines kv key value version kv' reply out :
  Server.Put (mkPutArgs key value version) kv = (kv', reply) → reply.(pr_Err) ≠ ErrNoKey →
  out = reply.(pr_Err) ∨ out = ErrMaybe →
  KvModel.Step (abs kv key) (to_input (OpPut key value version)) (put_out out) =
    (true, inl (abs kv' key)) ∧
  ∀ key', key' ≠ key → abs kv' key' = abs kv key'.
Proof.
  unfold Server.Put, KvModel.Step, abs. cbn. intros Hput Hne Hout.
  destruct (kv !! key) as [e|] eqn:Hk; cbn.
  - rewrite (Z.eqb_sym version) in Hput.
    destruct (Version e =? version) eqn:Hv; simplify_eq/=.
    + rewrite lookup_insert_eq. split; [|intros; by rewrite lookup_insert_ne].
      f_equal. by destruct Hout as [->| ->].
    + split; [|done]. rewrite Hk. f_equal. by destruct Hout as [->| ->].
  - destruct (Z.eqb_spec version 0) as [->|]; simplify_eq/=.
    rewrite lookup_insert_eq. split; [|intros; by rewrite lookup_insert_ne].
    f_equal. by destruct Hout as [->| ->].
Qed.

(** A put that succeeds supersedes itself; a superseded put has no effect. *)
Lemma Put_supersedes n kv args kv' :
  (∀ key e, kv !! key = Some e → 1 ≤ e.(Version) ≤ n) → n + 1 < 2 ^ 64 →
  Server.Put args kv = (kv', mkPutReply OK) →
  superseded kv' (OpPut args.(put_Key) args.(put_Value) args.(put_Version)).
Proof.
  unfold Server.Put. intros Hver Hn. destruct (kv !! put_Key args) as [e|] eqn:Hk.
  - pose proof (Hver _ _ Hk). case_if; [done|]. apply negb_false_iff, Z.eqb_eq in E.
    intros [= <-]. simpl. eexists. split; [apply lookup_insert_eq|]. simpl.
    unfold u64. rewrite Z.mod_small by lia. lia.
  - case_if; [|done]. intros [= <-]. eexists. split; [apply lookup_insert_eq|]. simpl. lia.
Qed.

Lemma Put_superseded kv key value version :
  superseded kv (OpPut key value version) →
  Server.Put (mkPutArgs key value version) kv = (kv, mkPutReply ErrVersion).
Proof.
  intros (e & Hk & Hv). unfold Server.Put. cbn. rewrite Hk.
  case_if; [done|]. apply negb_false_iff, Z.eqb_eq in E. lia.
Qed.

Lemma Put_versions n kv args kv' reply :
  (∀ key e, kv !! key = Some e → 1 ≤ e.(Version) ≤ n) → 0 ≤ n → n + 1 < 2 ^ 64 →
  Server.Put args kv = (kv', reply) →
  (∀ key e, kv' !! key = Some e → 1 ≤ e.(Version) ≤ n + 1) ∧
  (∀ op, superseded kv op → superseded kv' op).
Proof.
  unfold Server.Put. intros Hver Hn0 Hn Hput.
  assert (∀ key e, kv !! key = Some e → 1 ≤ e.(Version) ≤ n + 1) as Hver'.
  { intros key e He. pose proof (Hver key e He). lia. }
  destruct (kv !! put_Key args) as [e|] eqn:Hk.
  - pose proof (Hver _ _ Hk).
    destruct (Z.eqb_spec (put_Version args) (Version e)); simplify_eq/=; [|done].
    assert (u64 (Version e + 1) = Version e + 1) as Hu by (apply Z.mod_small; lia).
    split.
    + intros key e' [[<- <-]|[? ?]]%lookup_insert_Some; [simpl; lia|by eapply Hver'].
    + intros [?|key v ver]; [done|]. intros (e' & Hk' & Hlt).
      destruct (decide (key = put_Key args)) as [->|]; simplify_eq.
      * eexists. rewrite lookup_insert_eq. split; [done|]. simpl. lia.
      * eexists. by rewrite lookup_insert_ne.
  - destruct (Z.eqb_spec (put_Version args) 0); simplify_eq/=; [|done].
    split.
    + intros key e' [[<- <-]|[? ?]]%lookup_insert_Some; [simpl; lia|by eapply Hver'].
    + intros [?|key v ver]; [done|]. intros (e' & Hk' & Hlt).
      exists e'. rewrite lookup_insert_ne; [done|congruence].
Qed.

(** ** Every event preserves the invariant *)

Definition item_client (it : TraceItem) : Z :=
  match it with TInv c _ | TLin c _ _ | TRet c _ => c end.

Lemma view_other c items st :
  (∀ it, it ∈ items → item_client it ≠ c) →
  foldl (λ st it, st ← st; view_step c st it) st items = st.
Proof.
  revert st. induction items as [|it items IH]; intros st Hc; simpl; [done|].
  rewrite IH by set_solver. assert (item_client it ≠ c) by (apply Hc; left).
  destruct st as [st|]; [|done]. destruct it; simpl in *; by rewrite decide_False.
Qed.

(** Extending a run by items of clerk [c], which becomes [p]. *)
Lemma sys_inv_extend n n' s tr srv c p items :
  sys_inv n s tr → n ≤ n' →
  (∀ it, it ∈ items → item_client it = c) →
  foldl (λ st it, st ← st; view_step c st it) (Some (clerk_state (s.(s_clerks) !! c))) items =
    Some (clerk_state p) →
  (∀ key, KvModel.accept (abs s.(s_srv) key) (key_history key items) = Some (abs srv key)) →
  (∀ q, p = Some q → q.(p_lin) = true → q.(p_first) = false ∧ superseded srv q.(p_op)) →
  (∀ op, superseded s.(s_srv) op → superseded srv op) →
  (∀ key e, srv !! key = Some e → 1 ≤ e.(Version) ≤ n') →
  sys_inv n' (mkSys srv (partial_alter (λ _, p) c s.(s_clerks))) (tr ++ items).
Proof.
  intros [Hh Hv Hl Hver] Hn Hc Hview Hacc Hp Hsup Hver'. constructor; cbn.
  - intros key. unfold key_history. rewrite omap_app, accept_app.
    fold (key_history key tr). rewrite Hh. apply Hacc.
  - intros c'. rewrite view_app, Hv. destruct (decide (c' = c)) as [->|Hne].
    + by rewrite lookup_partial_alter_eq.
    + rewrite lookup_partial_alter_ne by done. apply view_other.
      intros it ->%Hc. done.
  - intros c' q. destruct (decide (c' = c)) as [->|Hne].
    + rewrite lookup_partial_alter_eq. auto.
    + rewrite lookup_partial_alter_ne by done. intros Hq Hlin.
      destruct (Hl _ _ Hq Hlin). auto.
  - done.
Qed.

Lemma sys_inv_mono n n' s tr : sys_inv n s tr → n ≤ n' → sys_inv n' s (tr ++ []).
Proof.
  intros [Hh Hv Hl Hver] Hn. rewrite app_nil_r. constructor; try done.
  intros key e He. pose proof (Hver key e He). lia.
Qed.

Lemma accept_one st io st' :
  KvModel.Step st io.1 io.2 = (true, inl st') → KvModel.accept st [io] = Some st'.
Proof. intros Hs. unfold KvModel.accept. simpl. by rewrite Hs. Qed.

Lemma accept_lin_other key c op out :
  (to_input op).(in_Key) ≠ key → key_history key [TLin c op out] = [].
Proof. intros. unfold key_history. simpl. by rewrite decide_False. Qed.

Lemma accept_lin_self key c op out :
  (to_input op).(in_Key) = key → key_history key [TLin c op out] = [(to_input op, out)].
Proof. intros. unfold key_history. simpl. by rewrite decide_True. Qed.

Lemma key_history_lin_ret key c op out out' :
  key_history key [TLin c op out; TRet c out'] = key_history key [TLin c op out].
Proof. unfold key_history. simpl. by destruct (decide _). Qed.

Lemma accept_lin kv srv c op out key :
  KvModel.Step (abs kv (to_input op).(in_Key)) (to_input op) out =
    (true, inl (abs srv (to_input op).(in_Key))) →
  (∀ key', key' ≠ (to_input op).(in_Key) → abs srv key' = abs kv key') →
  KvModel.accept (abs kv key) (key_history key [TLin c op out]) = Some (abs srv key).
Proof.
  intros Hs Ho. destruct (decide ((to_input op).(in_Key) = key)) as [<-|].
  - rewrite accept_lin_self by done. by apply accept_one.
  - rewrite accept_lin_other by done. simpl. by rewrite Ho.
Qed.

Lemma Put_refused kv args kv' reply :
  Server.Put args kv = (kv', reply) → reply.(pr_Err) ≠ OK → kv' = kv.
Proof.
  unfold Server.Put. destruct (kv !! _); case_if; intros; by simplify_eq/=.
Qed.

Lemma call_get_inv n s tr c key ok s' tr' p :
  sys_inv n s tr → s.(s_clerks) !! c = Some p → p.(p_op) = OpGet key →
  call_get c key ok s = (s', tr') → sys_inv n s' (tr ++ tr').
Proof.
  intros Hinv Hc Hop. unfold call_get. destruct ok; cbn [Clerk.Get]; intros [= <- <-].
  - assert (p.(p_lin) = false) as Hlin.
    { destruct (p_lin p) eqn:E; [|done]. destruct (si_lin _ _ _ Hinv _ _ Hc E) as [_ Hs].
      by rewrite Hop in Hs. }
    eapply (sys_inv_extend n n s tr _ c None); try done.
    + intros it. rewrite !elem_of_cons. intros [->|[->|?%not_elem_of_nil]]; done.
    + rewrite Hc. simpl. rewrite Hlin, Hop. repeat (rewrite decide_True by done; simpl). done.
    + intros k. rewrite key_history_lin_ret. apply accept_lin; [apply Get_refines|done].
    + apply Hinv.
  - by eapply sys_inv_mono.
Qed.

Lemma insert_as_alter (m : gmap Z Pending) c p : <[c := p]> m = partial_alter (λ _, Some p) c m.
Proof. done. Qed.
Lemma delete_as_alter (m : gmap Z Pending) c : delete c m = partial_alter (λ _, None) c m.
Proof. done. Qed.

(** The clerk keeps waiting, and nothing new took effect. *)
Lemma sys_inv_wait n n' s tr c p :
  sys_inv n s tr → n ≤ n' → s.(s_clerks) !! c = Some p →
  sys_inv n' (mkSys s.(s_srv) (<[c := mkPending p.(p_op) false p.(p_lin)]> s.(s_clerks))) (tr ++ []).
Proof.
  intros Hinv Hn Hc. rewrite insert_as_alter. eapply sys_inv_extend; try done.
  - by intros it ?%not_elem_of_nil.
  - by rewrite Hc.
  - intros q [= <-]. simpl. intros Hl. split; [done|]. by eapply si_lin.
  - intros key e He. pose proof (si_version _ _ _ Hinv _ _ He). lia.
Qed.

(** An operation that already took effect: the retry is refused. *)
Lemma call_put_done n s tr c p key value version executed replied s' tr' :
  sys_inv n s tr → s.(s_clerks) !! c = Some p → p.(p_op) = OpPut key value version →
  p.(p_lin) = true →
  call_put c p (mkPutArgs key value version) executed replied s = (s', tr') →
  sys_inv n s' (tr ++ tr').
Proof.
  intros Hinv Hc Hop Hlin. destruct (si_lin _ _ _ Hinv _ _ Hc Hlin) as [Hfirst Hsup].
  rewrite Hop in Hsup. unfold call_put. rewrite Hlin, Hfirst, (Put_superseded _ _ _ _ Hsup).
  destruct executed, replied; cbn; intros [= <- <-]; rewrite <-?Hlin.
  2-4: by eapply sys_inv_wait.
  rewrite delete_as_alter. eapply sys_inv_extend; try done.
  - by intros it ->%list_elem_of_singleton.
  - rewrite Hc. cbn. rewrite Hlin. cbn. by repeat (rewrite decide_True by done; cbn).
  - apply Hinv.
Qed.

(** The operation takes effect at this call, or is answered by it. *)
Lemma call_put_lin n s tr c p key value version srv' reply (err : Err) (ret : bool) :
  sys_inv n s tr → 0 ≤ n → n + 1 < 2 ^ 64 →
  s.(s_clerks) !! c = Some p → p.(p_op) = OpPut key value version → p.(p_lin) = false →
  Server.Put (mkPutArgs key value version) s.(s_srv) = (srv', reply) →
  reply.(pr_Err) ≠ ErrNoKey → err = reply.(pr_Err) ∨ err = ErrMaybe →
  (ret = false → reply.(pr_Err) = OK ∧ err = ErrMaybe) →
  sys_inv (n + 1)
    (mkSys srv' (partial_alter (λ _, if ret then None else Some (mkPending p.(p_op) false true)) c
                   s.(s_clerks)))
    (tr ++ (TLin c p.(p_op) (put_out err) :: if ret then [TRet c (put_out err)] else [])).
Proof.
  intros Hinv Hn0 Hn Hc Hop Hlin Hput Hne Herr Hret.
  destruct (Put_versions n _ _ _ _ (si_version _ _ _ Hinv) Hn0 Hn Hput) as [Hver Hsup].
  eapply sys_inv_extend; try done; [lia|..].
  - destruct ret; intros it; rewrite ?elem_of_cons, ?elem_of_nil; naive_solver.
  - rewrite Hc. cbn. rewrite Hlin, Hop. cbn. rewrite !decide_True by done.
    destruct ret; cbn.
    + by rewrite !decide_True by done.
    + by destruct Hret as [_ ->].
  - intros k. destruct (Put_refines _ _ _ _ _ _ _ Hput Hne Herr) as [Hstep Hother].
    rewrite Hop. destruct ret; rewrite ?key_history_lin_ret; by apply accept_lin.
  - intros q Hq _. destruct ret; [done|]. injection Hq as <-. cbn. split; [done|].
    rewrite Hop. destruct Hret as [Hok _]; [done|]. destruct reply as [e]. simpl in Hok. subst e.
    by apply (Put_supersedes _ _ _ _ (si_version _ _ _ Hinv) Hn Hput).
Qed.

Lemma call_put_inv n s tr c p key value version executed replied s' tr' :
  sys_inv n s tr → 0 ≤ n → n + 1 < 2 ^ 64 →
  s.(s_clerks) !! c = Some p → p.(p_op) = OpPut key value version →
  call_put c p (mkPutArgs key value version) executed replied s = (s', tr') →
  no_missing_put tr' → sys_inv (n + 1) s' (tr ++ tr').
Proof.
  intros Hinv Hn0 Hn Hc Hop Hcall Hmiss.
  assert (n ≤ n + 1) as Hle by lia.
  destruct (p_lin p) eqn:Hlin.
  { assert (sys_inv n s' (tr ++ tr')) as Hinv' by by eapply call_put_done.
    rewrite <-(app_nil_r (tr ++ tr')). by eapply sys_inv_mono. }
  pose proof (sys_inv_wait n (n + 1) s tr c p Hinv Hle Hc) as Hwait. rewrite Hlin in Hwait.
  unfold call_put in Hcall. destruct executed.
  2: { cbn in Hcall. simplify_eq. by rewrite Hlin. }
  destruct (Server.Put _ _) as [srv' reply] eqn:Hput.
  assert (∀ err ret, err = reply.(pr_Err) ∨ err = ErrMaybe → reply.(pr_Err) ≠ ErrNoKey →
    (ret = false → reply.(pr_Err) = OK ∧ err = ErrMaybe) → _) as Hlem
    by (intros err ret He Hne Hret; exact (call_put_lin n s tr c p key value version srv' reply err ret
          Hinv Hn0 Hn Hc Hop Hlin Hput Hne He Hret)).
  rewrite Hlin in Hcall. destruct reply as [e]. cbn -[bool_decide] in *.
  destruct (bool_decide (e = OK)) eqn:Hok.
  - apply bool_decide_eq_true in Hok as ->. destruct replied; cbn in Hcall; simplify_eq.
    + rewrite (bool_decide_eq_false_2 (OK = ErrVersion)) in Hcall by done. simplify_eq.
      by apply (Hlem OK true); [left| |].
    + by apply (Hlem ErrMaybe false); [right| |].
  - apply bool_decide_eq_false in Hok.
    apply Put_refused in Hput as ->; [|done]. destruct replied; cbn -[bool_decide] in Hcall.
    2: { by simplify_eq. }
    assert (∃ err, s' = mkSys (s_srv s) (delete c (s_clerks s)) ∧
      tr' = [TLin c (p_op p) (put_out err); TRet c (put_out err)] ∧
      (err = e ∨ e = ErrVersion ∧ err = ErrMaybe)) as (err & -> & -> & Herr).
    { destruct (bool_decide (e = ErrVersion)) eqn:He.
      - apply bool_decide_eq_true in He as ->. destruct (p_first p); simplify_eq/=; naive_solver.
      - simplify_eq/=. naive_solver. }
    apply (Hlem err true); [naive_solver| |done].
    destruct Herr as [->|[-> _]]; [|done]. rewrite Hop in Hmiss.
    eapply (Hmiss c key value version (put_out e)). left.
Qed.

Lemma sys_step_inv n s tr ev s' tr' :
  sys_inv n s tr → 0 ≤ n → n + 1 < 2 ^ 64 → sys_step ev s = (s', tr') → no_missing_put tr' →
  sys_inv (n + 1) s' (tr ++ tr').
Proof.
  intros Hinv Hn0 Hn Hstep Hmiss. destruct ev as [c op|c executed replied]; simpl in Hstep;
    destruct (s_clerks s !! c) as [p|] eqn:Hc.
  - simplify_eq. eapply sys_inv_mono; [done|lia].
  - simplify_eq. rewrite insert_as_alter. eapply sys_inv_extend; try done; [lia|..].
    + by intros it ->%list_elem_of_singleton.
    + rewrite Hc. simpl. by rewrite decide_True.
    + by intros q [= <-].
    + intros key e He. pose proof (si_version _ _ _ Hinv _ _ He). lia.
  - destruct (p_op p) as [key|key value version] eqn:Hop.
    + rewrite <-(app_nil_r (tr ++ tr')). apply (sys_inv_mono n); [|lia]. by eapply call_get_inv.
    + by eapply call_put_inv.
  - simplify_eq. eapply sys_inv_mono; [done|lia].
Qed.

Lemma sys_run_inv evs n s tr s' tr' :
  sys_inv n s tr → 0 ≤ n → n + Z.of_nat (length evs) < 2 ^ 64 →
  sys_run evs s = (s', tr') → no_missing_put tr' →
  sys_inv (n + Z.of_nat (length evs)) s' (tr ++ tr').
Proof.
  revert n s tr tr'. induction evs as [|ev evs IH];
    intros n s tr tr' Hinv Hn0 Hn; cbn [sys_run].
  { intros [= <- <-] _. rewrite app_nil_r. cbn. by rewrite Z.add_0_r. }
  destruct (sys_step ev s) as [s1 tr1] eqn:Hs1. destruct (sys_run evs s1) as [s2 tr2] eqn:Hs2.
  intros [= <- <-] Hmiss. cbn [length] in *. rewrite app_assoc.
  assert (sys_inv (n + 1) s1 (tr ++ tr1)) as Hinv1.
  { eapply sys_step_inv; eauto; [lia|]. intros ? ? ? ? ? Hin. eapply Hmiss, elem_of_app. eauto. }
  replace (n + Z.of_nat (S (length evs))) with (n + 1 + Z.of_nat (length evs)) by lia.
  eapply IH; [done|lia|lia|done|]. intros ? ? ? ? ? Hin. eapply Hmiss, elem_of_app. eauto.
Qed.

Lemma sys_init_inv : sys_inv 0 sys_init [].
Proof. by constructor. Qed.

(** C6. Linearizability: however the network loses requests and replies and
    the clerks' calls interleave, every [Get] and [Put] takes effect exactly
    once between its call and its return, with the result it returns, and the
    effects on each key form a history the sequential model accepts, for runs
    too short to wrap a version and without a put of a nonzero version to a
    missing key, which the server and the model answer differently. *)
Theorem kv_linearizable evs s tr :
  sys_run evs sys_init = (s, tr) → Z.of_nat (length evs) < 2 ^ 64 → no_missing_put tr →
  linearizable tr.
Proof.
  intros Hrun Hlen Hmiss.
  destruct (sys_run_inv evs 0 sys_init [] s tr) as [Hh Hv _ _]; [apply sys_init_inv|done..|].
  split; [intros c; by rewrite Hv|intros key; by rewrite Hh].
Qed.

(** ** The clerk's contract, from the server's side *)

(** One call of [Put] as the server and the network see it, between which
    other clerks' puts are executed. *)
Record Attempt := mkAttempt { at_others : list PutArgs; at_executed : bool; at_replied : bool }.

Definition do_puts (puts : list PutArgs) (kv : KVServer) : KVServer :=
  foldl (λ kv args, (Server.Put args kv).1) kv puts.

(** The outcome the clerk's loop sees, how often its own put took effect, and
    the data after the call. *)
Definition attempt (args : PutArgs) (at_ : Attempt) (kv : KVServer) :
    (bool * PutReply) * nat * KVServer :=
  let kv := do_puts at_.(at_others) kv in
  let '(kv, reply) := if at_.(at_executed) then Server.Put args kv else (kv, mkPutReply "") in
  let effect := if at_.(at_executed) && bool_decide (reply.(pr_Err) = OK) then 1%nat else 0%nat in
  ((at_.(at_executed) && at_.(at_replied), reply), effect, kv).

Fixpoint attempts_run (args : PutArgs) (ats : list Attempt) (kv : KVServer) :
    list (bool * PutReply) * nat * KVServer :=
  match ats with
  | [] => ([], 0%nat, kv)
  | at_ :: ats =>
    let '(call, m, kv) := attempt args at_ kv in
    let '(calls, m', kv) := attempts_run args ats kv in
    (call :: calls, (m + m')%nat, kv)
  end.

(** The clerk stops at its first successful call. *)
Definition answered (at_ : Attempt) : bool := at_.(at_executed) && at_.(at_replied).
Fixpoint one_reply (ats : list Attempt) : bool :=
  match ats with
  | [] => false
  | at_ :: ats => if answered at_ then bool_decide (ats = []) else one_reply ats
  end.

Definition puts_of (ats : list Attempt) : Z :=
  foldr (λ at_ n, glen at_.(at_others) + 1 + n) 0 ats.

Definition versions_le (n : Z) (kv : KVServer) : Prop :=
  ∀ key e, kv !! key = Some e → 1 ≤ e.(Version) ≤ n.

Definition superseded_by (kv : KVServer) (args : PutArgs) : Prop :=
  superseded kv (OpPut args.(put_Key) args.(put_Value) args.(put_Version)).

Lemma puts_of_nonneg ats : 0 ≤ puts_of ats.
Proof.
  induction ats as [|a ats IH]; simpl; [lia|]. pose proof (glen_nonneg a.(at_others)).
  unfold puts_of in *. lia.
Qed.

Lemma puts_of_cons a ats : puts_of (a :: ats) = glen a.(at_others) + 1 + puts_of ats.
Proof. done. Qed.

Lemma do_puts_versions puts n kv :
  versions_le n kv → 0 ≤ n → n + glen puts < 2 ^ 64 →
  versions_le (n + glen puts) (do_puts puts kv) ∧
  ∀ op, superseded kv op → superseded (do_puts puts kv) op.
Proof.
  revert n kv. induction puts as [|args puts IH]; intros n kv Hver Hn0 Hn.
  { rewrite glen_nil, Z.add_0_r. done. }
  rewrite glen_cons in *. pose proof (glen_nonneg puts).
  unfold do_puts. cbn [foldl]. destruct (Server.Put args kv) as [kv1 reply] eqn:Hput.
  destruct (Put_versions n _ _ _ _ Hver Hn0 ltac:(lia) Hput) as [Hver1 Hsup1].
  destruct (IH (n + 1) kv1 Hver1) as [Hver2 Hsup2]; [lia..|]. cbn [fst].
  replace (n + (1 + glen puts)) with (n + 1 + glen puts) by lia. auto.
Qed.

(** What the clerk may conclude from the error it returns, when its own put
    took effect [m] times. *)
Definition put_verdict (first : bool) (err : Err) (m : nat) : Prop :=
  (err = OK ∧ m = 1%nat) ∨ (err = ErrVersion ∧ first = true ∧ m = 0%nat) ∨
  (err = ErrNoKey ∧ m = 0%nat) ∨ (err = ErrMaybe ∧ first = false ∧ (m ≤ 1)%nat).

Lemma Put_answer first reply kv args kv' :
  Server.Put args kv = (kv', reply) →
  ∃ err, Clerk.put_iter first true reply = Some err ∧
    put_verdict first err (if bool_decide (reply.(pr_Err) = OK) then 1 else 0).
Proof.
  unfold Server.Put. destruct (kv !! _); case_if; intros; simplify_eq/=;
    destruct first; eexists; (split; [done|]); unfold put_verdict; eauto 10.
Qed.

(** One call: refused once superseded; otherwise lost without effect, lost
    after its effect, or answered. *)
Lemma attempt_superseded args at_ n kv call m kv' :
  versions_le n kv → 0 ≤ n → n + glen at_.(at_others) + 1 < 2 ^ 64 →
  superseded_by kv args → attempt args at_ kv = (call, m, kv') →
  m = 0%nat ∧ versions_le (n + glen at_.(at_others) + 1) kv' ∧ superseded_by kv' args ∧
  call.1 = answered at_ ∧ (answered at_ = true → pr_Err call.2 = ErrVersion).
Proof.
  intros Hver Hn0 Hn Hsup. pose proof (glen_nonneg at_.(at_others)).
  destruct (do_puts_versions at_.(at_others) n kv Hver) as [Hver1 Hsup1]; [lia..|].
  destruct args as [key value version]. apply (Hsup1 (OpPut key value version)) in Hsup.
  unfold attempt, answered.
  assert (versions_le (n + glen at_.(at_others) + 1) (do_puts at_.(at_others) kv)) as Hver2.
  { intros k e Hk. pose proof (Hver1 k e Hk). lia. }
  rewrite (Put_superseded _ _ _ _ Hsup). destruct (at_executed at_); intros; simplify_eq/=;
    rewrite ?bool_decide_eq_false_2 by done; done.
Qed.

Lemma attempt_cases first args at_ n kv call m kv' :
  versions_le n kv → 0 ≤ n → n + glen at_.(at_others) + 1 < 2 ^ 64 →
  attempt args at_ kv = (call, m, kv') →
  call.1 = answered at_ ∧ versions_le (n + glen at_.(at_others) + 1) kv' ∧
  (if answered at_ then ∃ err, Clerk.put_iter first true call.2 = Some err ∧ put_verdict first err m
   else m = 0%nat ∨ (m = 1%nat ∧ superseded_by kv' args)).
Proof.
  intros Hver Hn0 Hn. pose proof (glen_nonneg at_.(at_others)).
  destruct (do_puts_versions at_.(at_others) n kv Hver) as [Hver1 _]; [lia..|].
  unfold attempt, answered. destruct (at_executed at_); cbn -[bool_decide].
  2: { intros [= <- <- <-]. split_and!; [done| |by left].
       intros k e Hk. pose proof (Hver1 k e Hk). lia. }
  destruct (Server.Put args _) as [kv1 reply] eqn:Hput. intros [= <- <- <-].
  destruct (Put_versions (n + glen at_.(at_others)) _ _ _ _ Hver1 ltac:(lia) Hn Hput) as [Hver2 _].
  split_and!; [done|done|]. destruct (at_replied at_).
  - by eapply Put_answer.
  - case_bool_decide as Hok; [right|by left]. split; [done|]. destruct reply as [e].
    simpl in Hok. subst e. by eapply Put_supersedes in Hput.
Qed.

Lemma attempts_superseded args ats n kv calls m kv' :
  versions_le n kv → 0 ≤ n → n + puts_of ats < 2 ^ 64 → one_reply ats = true →
  superseded_by kv args → attempts_run args ats kv = (calls, m, kv') →
  m = 0%nat ∧ Clerk.put_loop false calls = Some ErrMaybe.
Proof.
  revert n kv calls m. induction ats as [|a ats IH]; intros n kv calls m Hver Hn0 Hn; [done|].
  rewrite puts_of_cons in Hn. pose proof (puts_of_nonneg ats). pose proof (glen_nonneg a.(at_others)).
  cbn [one_reply attempts_run]. intros Hone Hsup.
  destruct (attempt args a kv) as [[[ok reply] m1] kv1] eqn:Ha.
  destruct (attempt_superseded args a n _ _ _ _ Hver Hn0 ltac:(lia) Hsup Ha)
    as (-> & Hver1 & Hsup1 & Hok & Herr). cbn in Hok, Herr. subst ok.
  destruct (attempts_run args ats kv1) as [[calls' m'] kv''] eqn:Hrun'. intros [= <- <- <-].
  destruct (answered a); cbn.
  - apply bool_decide_eq_true in Hone as ->. simplify_eq/=.
    destruct reply as [e]. rewrite Herr by done. done.
  - destruct reply as [e]. apply (IH _ _ _ _ Hver1); [lia|lia|done|done|done].
Qed.

Lemma attempts_verdict args ats first n kv calls m kv' :
  versions_le n kv → 0 ≤ n → n + puts_of ats < 2 ^ 64 → one_reply ats = true →
  attempts_run args ats kv = (calls, m, kv') →
  ∃ err, Clerk.put_loop first calls = Some err ∧
    (put_verdict first err m ∨ put_verdict false err m).
Proof.
  revert first n kv calls m.
  induction ats as [|a ats IH]; intros first n kv calls m Hver Hn0 Hn; [done|].
  rewrite puts_of_cons in Hn. pose proof (puts_of_nonneg ats). pose proof (glen_nonneg a.(at_others)).
  cbn [one_reply attempts_run]. intros Hone.
  destruct (attempt args a kv) as [[[ok reply] m1] kv1] eqn:Ha.
  destruct (attempt_cases first args a n _ _ _ _ Hver Hn0 ltac:(lia) Ha) as (Hok & Hver1 & Hcase).
  cbn in Hok. subst ok.
  destruct (attempts_run args ats kv1) as [[calls' m'] kv''] eqn:Hrun'. intros [= <- <- <-].
  destruct (answered a); cbn [snd] in Hcase.
  - apply bool_decide_eq_true in Hone as ->. simplify_eq/=. destruct Hcase as (err & -> & Hv).
    exists err. rewrite Nat.add_0_r. auto.
  - cbn [Clerk.put_loop Clerk.put_iter]. destruct Hcase as [->|[-> Hsup]].
    + destruct (IH false (n + glen a.(at_others) + 1) _ _ _ Hver1 ltac:(lia) ltac:(lia) Hone Hrun') as (err & -> & Hv).
      exists err. split; [done|]. right. tauto.
    + destruct (attempts_superseded args ats (n + glen a.(at_others) + 1) _ _ _ _ Hver1 ltac:(lia) ltac:(lia)
        Hone Hsup Hrun')
        as [-> ->]. exists ErrMaybe. split; [done|]. right. right. right. right. auto.
Qed.

(** C26. What [Clerk.Put] tells its caller is true: with any calls lost before
    or after the server executed them and other clerks' puts in between, the
    clerk returns once a call is answered, its put took effect at most once,
    exactly once if it returns [OK], and not at all if it returns [ErrVersion]
    or [ErrNoKey]. *)
Theorem clerk_put_contract args ats n kv calls m kv' :
  versions_le n kv → 0 ≤ n → n + puts_of ats < 2 ^ 64 → one_reply ats = true →
  attempts_run args ats kv = (calls, m, kv') →
  ∃ err, Clerk.Put calls = Some err ∧ (m ≤ 1)%nat ∧
    (err = OK → m = 1%nat) ∧ (err = ErrVersion ∨ err = ErrNoKey → m = 0%nat) ∧
    (err = OK ∨ err = ErrVersion ∨ err = ErrNoKey ∨ err = ErrMaybe).
Proof.
  intros Hver Hn0 Hn Hone Hrun.
  destruct (attempts_verdict args ats true n kv calls m kv') as (err & Hput & Hv); [done..|].
  exists err. split; [done|]. unfold put_verdict in Hv.
  assert (OK ≠ ErrVersion ∧ OK ≠ ErrNoKey ∧ OK ≠ ErrMaybe ∧ ErrVersion ≠ ErrMaybe ∧
    ErrNoKey ≠ ErrMaybe) by done.
  destruct Hv as [Hv|Hv]; destruct Hv as [[-> ->]|[[-> [? ->]]|[[-> ->]|[-> [? ?]]]]];
    split_and!; try lia; try tauto; naive_solver congruence.
Qed.
