(* ===== verification/Lock.v ===== *)
(** * The lock and its test: [kvsrv1/lock/]

    [lock.go] is a skeleton whose [Acquire] and [Release] do nothing, so the
    lock the test expects is an interface. [oneClient] of [lock_test.go] is
    modelled over the server and its clerk, on a network that may lose requests
    and replies: clients enter a critical section that the lock should guard,
    write their number under the key "l0" and clear it again. *)

From S2P Require Import Prelude KvServer.

(** ** Locks *)

(** The locks of all names: [acquire] is the moment at which [Acquire] of
    client [me] returns, if it can at this moment. *)
Class Locks (LS : Type) := {
  acquire : string → Z → LS → option LS;
  release : string → Z → LS → LS;
}.

(** What the test expects: a lock has at most one holder, and locks of different
    names are independent. *)
Class LockLaws (LS : Type) `{Locks LS} := {
  holder : LS → string → option Z;
  acquire_law nm me ls ls' : acquire nm me ls = Some ls' →
    holder ls nm = None ∧ holder ls' nm = Some me ∧ ∀ nm', nm' ≠ nm → holder ls' nm' = holder ls nm';
  release_law nm me ls : holder ls nm = Some me →
    holder (release nm me ls) nm = None ∧ ∀ nm', nm' ≠ nm → holder (release nm me ls) nm' = holder ls nm';
}.

(** [lock.go]'s: a [Lock] has a clerk and no state. *)
Definition skeleton_locks : Locks unit := {| acquire _ _ ls := Some ls; release _ _ ls := ls |}.

(** ** [oneClient] *)

(** Where a client is: in one of the four calls before its loop; in the put that
    creates the key; at its [select]; in [lk1.Acquire]; in the get; in the put of
    its number with version [ver]; in the put that clears it; in [lk1.Release].
    [first] is the variable of [Clerk.Put], [i] the loop's. *)
Inductive LockPhase :=
  | LkAcquire1 | LkAcquire2 | LkRelease1 | LkRelease2
  | LkInit (first : bool)
  | LkSelect (i : Z)
  | LkAcquire (i : Z)
  | LkGet (i : Z)
  | LkWrite (i ver : Z) (first : bool)
  | LkClear (i ver : Z) (first : bool)
  | LkRelease (i : Z)
  | LkReturned (i : Z).

Record LockSys {LS : Type} := mkLockSys { lk_kv : KVServer; lk_locks : LS; lk_clients : list LockPhase }.
Arguments LockSys : clear implicits.
Arguments mkLockSys {LS}.

(** A step of client [me]: whether a call it makes is executed, and whether the
    reply arrives; at the [select], whether the test's signal is there. *)
Inductive LockEvent := LkStep (me : Z) (executed replied : bool).

Section lock.
Context {LS : Type} `{Locks LS} (name1 name2 : string).
Implicit Types (s : LockSys LS) (kv : KVServer).

Definition l0 : string := "l0".
Definition Itoa (z : Z) : string := pretty z.

(** One call of [Clerk.Put(l0, value, ver)]; the result if the put returns. *)
Definition lk_put (value : string) (ver : Z) (first executed replied : bool) kv : option Err * KVServer :=
  let '(kv, reply) := if executed then Server.Put (mkPutArgs l0 value ver) kv else (kv, mkPutReply "") in
  (Clerk.put_iter first (executed && replied) reply, kv).

Definition put_ok (err : Err) : bool := bool_decide (err = OK) || bool_decide (err = ErrMaybe).

(** The client's next phase, the data and the locks. *)
Definition lk_client (me : Z) (executed replied : bool) (ph : LockPhase) kv (ls : LS) :
    go (LockPhase * KVServer * LS) :=
  let wait (nm : string) (next : LockPhase) :=
    match acquire nm me ls with Some ls => Ret (next, kv, ls) | None => Ret (ph, kv, ls) end in
  match ph with
  | LkAcquire1 => wait name1 LkAcquire2
  | LkAcquire2 => wait name2 LkRelease1
  | LkRelease1 => Ret (LkRelease2, kv, release name1 me ls)
  | LkRelease2 => Ret (LkInit true, kv, release name2 me ls)
  | LkInit first =>
    let '(err, kv) := lk_put "" 0 first executed replied kv in
    Ret (match err with Some _ => LkSelect 1 | None => LkInit false end, kv, ls)
  | LkSelect i => if executed then Ret (LkReturned i, kv, ls) else Ret (LkAcquire i, kv, ls)
  | LkAcquire i => wait name1 (LkGet i)
  | LkGet i =>
    if executed && replied then
      let reply := Server.Get (mkGetArgs l0) kv in
      if bool_decide (reply.(gr_Err) = OK) then
        if negb (bool_decide (reply.(gr_Value) = "")) then Fatal
        else Ret (LkWrite i reply.(gr_Version) true, kv, ls)
      else Fatal
    else Ret (ph, kv, ls)
  | LkWrite i ver first =>
    let '(err, kv) := lk_put (Itoa me) ver first executed replied kv in
    match err with
    | None => Ret (LkWrite i ver false, kv, ls)
    | Some err => if put_ok err then Ret (LkClear i (u64 (ver + 1)) true, kv, ls) else Fatal
    end
  | LkClear i ver first =>
    let '(err, kv) := lk_put "" ver first executed replied kv in
    match err with
    | None => Ret (LkClear i ver false, kv, ls)
    | Some err => if put_ok err then Ret (LkRelease i, kv, ls) else Fatal
    end
  | LkRelease i => Ret (LkSelect (i + 1), kv, release name1 me ls)
  | LkReturned i => Ret (ph, kv, ls)
  end.

Definition lock_step s (ev : LockEvent) : go (LockSys LS) :=
  let '(LkStep me executed replied) := ev in
  match s.(lk_clients).[me] with
  | None => Ret s
  | Some ph =>
    r ← lk_client me executed replied ph s.(lk_kv) s.(lk_locks);
    let '(ph, kv, ls) := r in
    Ret (mkLockSys kv ls (<[Z.to_nat me := ph]> s.(lk_clients)))
  end.

Definition lock_start (n : Z) (ls : LS) : LockSys LS :=
  mkLockSys MakeKVServer ls (replicate (Z.to_nat n) LkAcquire1).
Definition lock_run (n : Z) (ls : LS) (evs : list LockEvent) : go (LockSys LS) :=
  foldM lock_step (lock_start n ls) evs.

(** ** The data while critical sections do not overlap *)

(** Inside the critical section, with the data it may have left at each point. *)
Definition critical (ph : LockPhase) : bool :=
  match ph with LkGet _ | LkWrite _ _ _ | LkClear _ _ _ | LkRelease _ => true | _ => false end.

Definition entry_is kv (value : string) (ver : Z) : Prop := kv !! l0 = Some (mkKVEntry value ver).

Definition phase_data kv (me : Z) (ph : LockPhase) : Prop :=
  match ph with
  | LkAcquire1 | LkAcquire2 | LkRelease1 | LkRelease2 | LkInit _ => True
  | LkSelect _ | LkAcquire _ | LkReturned _ => is_Some (kv !! l0)
  | LkGet _ | LkRelease _ => ∃ ver, entry_is kv "" ver
  | LkWrite _ ver first => entry_is kv "" ver ∨ (first = false ∧ entry_is kv (Itoa me) (ver + 1))
  | LkClear _ ver first => entry_is kv (Itoa me) ver ∨ (first = false ∧ entry_is kv "" (ver + 1))
  end.

Definition exclusive (cls : list LockPhase) : Prop :=
  ∀ i j p q, cls.[i] = Some p → cls.[j] = Some q → critical p = true → critical q = true → i = j.

Record lock_inv (m : Z) s : Prop := {
  li_version : ∀ e, s.(lk_kv) !! l0 = Some e → 1 ≤ e.(Version) ≤ m;
  li_clear : ∀ e, s.(lk_kv) !! l0 = Some e → e.(Value) = "" ∨ ∃ i p, s.(lk_clients).[i] = Some p ∧ critical p = true;
  li_data : ∀ me ph, s.(lk_clients).[me] = Some ph → phase_data s.(lk_kv) me ph;
}.

Lemma lk_put_same value ver first executed replied kv x :
  entry_is kv x ver → ver + 1 < 2 ^ 64 → 0 ≤ ver →
  lk_put value ver first executed replied kv =
    if executed then (if replied then Some OK else None, <[l0 := mkKVEntry value (ver + 1)]> kv) else (None, kv).
Proof.
  unfold entry_is, lk_put. intros He Hb Hv. destruct executed; [|done]. unfold Server.Put. cbn [put_Key put_Version put_Value].
  rewrite He. cbn [Version]. rewrite Z.eqb_refl. unfold u64. rewrite Z.mod_small by lia. by destruct replied.
Qed.

Lemma lk_put_other value ver first executed replied kv x v :
  entry_is kv x v → ver ≠ v →
  lk_put value ver first executed replied kv =
    (if executed && replied then Some (if first then ErrVersion else ErrMaybe) else None, kv).
Proof.
  unfold entry_is, lk_put. intros He Hne. destruct executed; [|done]. unfold Server.Put. cbn [put_Key put_Version put_Value].
  rewrite He. cbn [Version]. apply Z.eqb_neq in Hne. rewrite Hne. by destruct replied, first.
Qed.

(** Client [me] changes its phase, and perhaps the data. *)
Lemma lock_inv_set m m' s me ph ph' kv' ls' :
  lock_inv m s → s.(lk_clients).[me] = Some ph →
  (∀ e, kv' !! l0 = Some e → 1 ≤ e.(Version) ≤ m') →
  (is_Some (s.(lk_kv) !! l0) → is_Some (kv' !! l0)) →
  phase_data kv' me ph' →
  (kv' !! l0 = s.(lk_kv) !! l0 ∨ ∀ j p, j ≠ me → s.(lk_clients).[j] = Some p → critical p = false) →
  (critical ph' = true ∨ (kv' !! l0 = s.(lk_kv) !! l0 ∧ critical ph = false) ∨ ∀ e, kv' !! l0 = Some e → e.(Value) = "") →
  lock_inv m' (mkLockSys kv' ls' (<[Z.to_nat me := ph']> s.(lk_clients))).
Proof.
  intros [Hv Hcl Hd] Hme Hv' Hsome Hph Hoth Hclear. pose proof (zlookup_lt_Some _ _ _ Hme) as Hb.
  constructor; cbn [lk_kv lk_clients].
  - done.
  - intros e He. destruct Hclear as [Hc|[[Heq Hc]|Hc]].
    + right. exists me, ph'. by rewrite zlookup_insert, decide_True by done.
    + rewrite Heq in He. destruct (Hcl e He) as [?|(i & p & Hi & Hp)]; [by left|right]. exists i, p.
      rewrite zlookup_insert, decide_False; [done| |done]. intros ->. congruence.
    + left. by apply Hc.
  - intros j p. rewrite zlookup_insert by done. case_decide as Hj; [intros [= <-]; by subst|]. intros Hp.
    specialize (Hd j p Hp). destruct Hoth as [Heq|Hno].
    + unfold phase_data, entry_is in *. by rewrite Heq.
    + specialize (Hno j p ltac:(done) Hp). by destruct p; cbn in *; auto.
Qed.

Definition alone s (me : Z) : Prop := ∀ j p, j ≠ me → s.(lk_clients).[j] = Some p → critical p = false.

Lemma exclusive_alone s me ph :
  exclusive s.(lk_clients) → s.(lk_clients).[me] = Some ph → critical ph = true → alone s me.
Proof.
  intros Hex Hme Hc j p Hj Hp. destruct (critical p) eqn:E; [|done]. destruct Hj. by eapply Hex.
Qed.

Lemma entry_insert kv value ver : entry_is (<[l0 := mkKVEntry value ver]> kv) value ver.
Proof. apply lookup_insert_eq. Qed.

Lemma entry_inj kv x v x' v' : entry_is kv x v → entry_is kv x' v' → x = x' ∧ v = v'.
Proof. unfold entry_is. intros -> [= -> ->]. done. Qed.

(** A put in the critical section, from a state with [x] at version [ver] or,
    after an execution whose reply was lost, with [value] at the next one. *)
Lemma critical_put m s me ph value x ver first executed replied err kv' :
  lock_inv m s → m + 1 < 2 ^ 64 → s.(lk_clients).[me] = Some ph → critical ph = true → alone s me →
  entry_is s.(lk_kv) x ver ∨ (first = false ∧ entry_is s.(lk_kv) value (ver + 1)) →
  lk_put value ver first executed replied s.(lk_kv) = (err, kv') →
  (∀ e, kv' !! l0 = Some e → 1 ≤ e.(Version) ≤ m + 1) ∧ is_Some (kv' !! l0) ∧
  match err with
  | Some err => put_ok err = true ∧ entry_is kv' value (ver + 1)
  | None => entry_is kv' x ver ∨ entry_is kv' value (ver + 1)
  end.
Proof.
  intros Hinv Hm Hme Hc Hal He Hput. destruct He as [He|[-> He]]; pose proof (li_version _ _ Hinv _ He) as Hv; cbn in Hv.
  - rewrite (lk_put_same _ _ _ _ _ _ _ He) in Hput by lia. destruct executed.
    + injection Hput as <- <-. split; [intros e; rewrite lookup_insert_eq; intros [= <-]; cbn; lia|].
      split; [rewrite lookup_insert_eq; by eexists|]. destruct replied; [split; [done|]|right]; apply entry_insert.
    + injection Hput as <- <-. split; [intros e He'; rewrite He in He'; injection He' as <-; cbn; lia|].
      split; [by eexists|by left].
  - rewrite (lk_put_other _ _ _ _ _ _ _ _ He) in Hput by lia. injection Hput as <- <-.
    split; [intros e He'; rewrite He in He'; injection He' as <-; cbn; lia|]. split; [by eexists|].
    destruct (executed && replied); [by split|by right].
Qed.

(** Only the holder of [lock1] is in the critical section. *)
Definition enters_alone s (me : Z) (ph' : LockPhase) : Prop := critical ph' = true → alone s me.

(** A step of a client that does not overlap another's critical section. *)
Lemma lk_client_data m s me ph executed replied :
  lock_inv m s → 0 ≤ m → m + 1 < 2 ^ 64 → s.(lk_clients).[me] = Some ph → enters_alone s me ph →
  returns (lk_client me executed replied ph s.(lk_kv) s.(lk_locks)) (λ r,
    enters_alone s me r.1.1 → lock_inv (m + 1) (mkLockSys r.1.2 r.2 (<[Z.to_nat me := r.1.1]> s.(lk_clients)))).
Proof.
  intros Hinv Hm0 Hm Hme Hal. pose proof (li_data _ _ Hinv _ _ Hme) as Hd.
  assert (∀ e, s.(lk_kv) !! l0 = Some e → 1 ≤ e.(Version) ≤ m + 1) as Hver
    by (intros e He; pose proof (li_version _ _ Hinv e He); lia).
  assert (∀ ph' ls', critical ph = false → critical ph' = false → phase_data s.(lk_kv) me ph' →
    enters_alone s me ph' → lock_inv (m + 1) (mkLockSys s.(lk_kv) ls' (<[Z.to_nat me := ph']> s.(lk_clients)))) as Hout.
  { intros ph' ls' Hc Hc' Hph _. eapply lock_inv_set; try done; [by left|]. right; left. done. }
  assert (∀ nm next, critical ph = false → critical next = false → phase_data s.(lk_kv) me next →
    returns (match acquire nm me s.(lk_locks) with
             | Some ls => Ret (next, s.(lk_kv), ls) | None => Ret (ph, s.(lk_kv), s.(lk_locks)) end) (λ r,
      enters_alone s me r.1.1 → lock_inv (m + 1) (mkLockSys r.1.2 r.2 (<[Z.to_nat me := r.1.1]> s.(lk_clients))))) as Hwait.
  { intros nm next Hc Hc' Hph. destruct (acquire _ _ _); apply returns_Ret; cbn; by apply Hout. }
  destruct ph as [| | | |first|i|i|i|i ver first|i ver first|i|i]; cbn [lk_client].
  - by apply Hwait.
  - by apply Hwait.
  - apply returns_Ret. by apply Hout.
  - apply returns_Ret. by apply Hout.
  - destruct (s.(lk_kv) !! l0) as [[x v]|] eqn:He.
    + pose proof (li_version _ _ Hinv _ He) as Hv. cbn in Hv. rewrite (lk_put_other _ _ _ _ _ _ _ _ He) by lia.
      apply returns_Ret. cbn. destruct (executed && replied); apply Hout; try done. cbn. rewrite He. by eexists.
    + unfold lk_put, Server.Put. cbn [put_Key put_Version put_Value]. rewrite He. destruct executed; [|apply returns_Ret; by apply Hout].
      cbn [Z.eqb]. apply returns_Ret. cbn [fst snd]. intros _.
      assert (∀ j p, j ≠ me → s.(lk_clients).[j] = Some p → critical p = false) as Hno.
      { intros j p _ Hp. pose proof (li_data _ _ Hinv _ _ Hp) as Hdp. unfold phase_data, entry_is in Hdp. rewrite He in Hdp.
        destruct p; cbn; try done; naive_solver. }
      eapply lock_inv_set; [done|done| |by rewrite lookup_insert_eq| |by right|].
      * intros e. rewrite lookup_insert_eq. intros [= <-]. cbn. lia.
      * destruct replied; [eexists; apply lookup_insert_eq|done].
      * right; right. intros e. rewrite lookup_insert_eq. by intros [= <-].
  - destruct executed; apply returns_Ret; by apply Hout.
  - destruct (acquire _ _ _); apply returns_Ret; cbn [fst snd]; [intros Hen|by apply Hout].
    eapply lock_inv_set; try done; [|by left|by left]. destruct Hd as [[x v] He]. cbn.
    destruct (li_clear _ _ Hinv _ He) as [Hx|(j & p & Hp & Hcp)]; [exists v; cbn in Hx; by subst x|].
    destruct (decide (j = me)) as [->|Hne]; [rewrite Hme in Hp; by injection Hp as <-|]. specialize (Hen eq_refl j p Hne Hp). congruence.
  - destruct Hd as [ver He]. unfold Server.Get. cbn [get_Key]. rewrite He. cbn [gr_Err gr_Value gr_Version Value Version].
    rewrite !bool_decide_true by done. cbn [negb].
    destruct (executed && replied); apply returns_Ret; cbn [fst snd]; intros Hen;
      (eapply lock_inv_set; try done; [|by left|by left]); [by left|by exists ver].
  - assert (ver + 1 < 2 ^ 64 ∧ 0 ≤ ver) as [Hv1 Hv0]
      by (destruct Hd as [He|[_ He]]; pose proof (li_version _ _ Hinv _ He) as Hv; cbn in Hv; lia).
    destruct (lk_put _ _ _ _ _ _) as [err kv'] eqn:Hput.
    destruct (critical_put m s me _ _ _ _ _ _ _ _ _ Hinv Hm Hme eq_refl (Hal eq_refl) Hd Hput) as (Hver' & Hsome & Hres).
    destruct err as [err|].
    + destruct Hres as [-> He]. apply returns_Ret. cbn [fst snd]. intros Hen.
      eapply lock_inv_set; try done; [|right; by apply Hal|by left]. left. unfold u64. by rewrite Z.mod_small by lia.
    + apply returns_Ret. cbn [fst snd]. intros Hen. eapply lock_inv_set; try done; [|right; by apply Hal|by left].
      destruct Hres as [?|?]; [by left|by right].
  - destruct (lk_put _ _ _ _ _ _) as [err kv'] eqn:Hput.
    destruct (critical_put m s me _ _ _ _ _ _ _ _ _ Hinv Hm Hme eq_refl (Hal eq_refl) Hd Hput) as (Hver' & Hsome & Hres).
    destruct err as [err|].
    + destruct Hres as [-> He]. apply returns_Ret. cbn [fst snd]. intros Hen.
      eapply lock_inv_set; try done; [|right; by apply Hal|by left]. by eexists.
    + apply returns_Ret. cbn [fst snd]. intros Hen. eapply lock_inv_set; try done; [|right; by apply Hal|by left].
      destruct Hres as [?|?]; [by left|by right].
  - apply returns_Ret. cbn [fst snd]. intros Hen. destruct Hd as [ver He].
    eapply lock_inv_set; try done; [by eexists|by left|]. right; right. intros e He'. rewrite He in He'. by injection He' as <-.
  - apply returns_Ret. by apply Hout.
Qed.

Lemma lock_start_inv n ls : lock_inv 0 (lock_start n ls).
Proof.
  constructor; cbn; try done. intros me ph. unfold zlookup. case_match; [done|]. by intros [-> _]%lookup_replicate.
Qed.

(** [TestOneClientReliable] and [TestOneClientUnreliable] raise no alarm
    whatever the lock does, even for the skeleton: a client alone never finds
    the key taken and its puts succeed or may have succeeded, with any calls
    lost before or after the server executes them. *)
Theorem one_lock_client_passes ls evs :
  glen evs < 2 ^ 63 →
  returns (lock_run 1 ls evs) (λ s, lock_inv (glen evs) s ∧ glen s.(lk_clients) = 1).
Proof.
  intros Hlen. assert (∀ evs m s, lock_inv m s → 0 ≤ m → m + glen evs < 2 ^ 63 → glen s.(lk_clients) = 1 →
    returns (foldM lock_step s evs) (λ s, lock_inv (m + glen evs) s ∧ glen s.(lk_clients) = 1)) as Hgen.
  { clear. induction evs as [|[me executed replied] evs IH]; intros m s Hinv Hm0 Hm Hl; cbn [foldM].
    { apply returns_Ret. by rewrite glen_nil, Z.add_0_r. }
    rewrite glen_cons in *. pose proof (glen_nonneg evs).
    apply (returns_bind _ _ (λ s, lock_inv (m + 1) s ∧ glen s.(lk_clients) = 1)).
    - cbn [lock_step]. destruct (s.(lk_clients).[me]) as [ph|] eqn:Hme.
      + assert (alone s me) as Hal.
        { intros j p Hne Hp%zlookup_lt_Some. apply zlookup_lt_Some in Hme. lia. }
        destruct (lk_client_data m s me ph executed replied Hinv Hm0 ltac:(lia) Hme (λ _, Hal))
          as ([[ph' kv'] ls'] & -> & Hn). apply returns_Ret. split; [exact (Hn (λ _, Hal))|]. cbn. by rewrite glen_insert.
      + apply returns_Ret. split; [|done]. destruct Hinv as [Hv ? ?]. constructor; try done.
        intros e He. specialize (Hv e He). lia.
    - intros s' [Hinv' Hl']. replace (m + (1 + glen evs)) with (m + 1 + glen evs) by lia. apply IH; [done|lia..|done]. }
  apply (Hgen evs 0); [apply lock_start_inv|lia|lia|]. cbn. by rewrite glen_replicate.
Qed.

(** ** Clients with a lock that excludes *)

Section excluded.
Context `{!LockLaws LS}.

Definition holds1 (ph : LockPhase) : bool := match ph with LkAcquire2 | LkRelease1 => true | _ => critical ph end.
Definition holds2 (ph : LockPhase) : bool := match ph with LkRelease1 | LkRelease2 => true | _ => false end.

Record locks_inv s : Prop := {
  ki_held1 : ∀ me ph, s.(lk_clients).[me] = Some ph → holds1 ph = true → holder s.(lk_locks) name1 = Some me;
  ki_held2 : ∀ me ph, s.(lk_clients).[me] = Some ph → holds2 ph = true →
    holder s.(lk_locks) name2 = Some me ∧ name1 ≠ name2;
}.

Lemma locks_exclusive s : locks_inv s → exclusive s.(lk_clients).
Proof.
  intros [H1 _] i j p q Hi Hj Hp Hq.
  assert (holder s.(lk_locks) name1 = Some i) by (eapply H1; [done|by destruct p]).
  assert (holder s.(lk_locks) name1 = Some j) by (eapply H1; [done|by destruct q]). congruence.
Qed.

(** Client [me] changes its phase, and its locks with it. *)
Lemma locks_inv_set s me ph' kv' ls' :
  locks_inv s → 0 ≤ me < glen s.(lk_clients) →
  (holds1 ph' = true → holder ls' name1 = Some me) →
  (holds2 ph' = true → holder ls' name2 = Some me ∧ name1 ≠ name2) →
  (∀ j, j ≠ me → holder s.(lk_locks) name1 = Some j → holder ls' name1 = Some j) →
  (∀ j, j ≠ me → name1 ≠ name2 → holder s.(lk_locks) name2 = Some j → holder ls' name2 = Some j) →
  locks_inv (mkLockSys kv' ls' (<[Z.to_nat me := ph']> s.(lk_clients))).
Proof.
  intros [H1 H2] Hme Hp1 Hp2 Ho1 Ho2. split; cbn [lk_clients lk_locks]; intros j p; rewrite zlookup_insert by done;
    case_decide as Hj; [intros [= <-]; by subst| |intros [= <-]; by subst|]; intros Hp Hh.
  - apply Ho1; [congruence|]. by eapply H1.
  - destruct (H2 j p Hp Hh). split; [|done]. apply Ho2; [congruence|done|done].
Qed.

Lemma lk_client_locks s me ph executed replied ph' kv' ls' :
  locks_inv s → s.(lk_clients).[me] = Some ph →
  lk_client me executed replied ph s.(lk_kv) s.(lk_locks) = Ret (ph', kv', ls') →
  locks_inv (mkLockSys kv' ls' (<[Z.to_nat me := ph']> s.(lk_clients))).
Proof.
  intros Hinv Hme Hstep. pose proof (zlookup_lt_Some _ _ _ Hme) as Hb.
  pose proof (ki_held1 _ Hinv _ _ Hme) as H1. pose proof (ki_held2 _ Hinv _ _ Hme) as H2.
  assert (∀ ph' kv', (holds1 ph' = true → holds1 ph = true) → (holds2 ph' = true → holds2 ph = true) →
    locks_inv (mkLockSys kv' s.(lk_locks) (<[Z.to_nat me := ph']> s.(lk_clients)))) as Hsame.
  { intros ph0 kv0 Hk1 Hk2. apply locks_inv_set; try done; auto. }
  assert (∀ nm next, (nm = name1 ∧ holds2 next = false) ∨ (nm = name2 ∧ ph = LkAcquire2 ∧ next = LkRelease1) →
    match acquire nm me s.(lk_locks) with
    | Some ls => Ret (next, s.(lk_kv), ls) | None => Ret (ph, s.(lk_kv), s.(lk_locks)) end = Ret (ph', kv', ls') →
    locks_inv (mkLockSys kv' ls' (<[Z.to_nat me := ph']> s.(lk_clients)))) as Hwait.
  { intros nm next Hnm. destruct (acquire nm me _) as [ls1|] eqn:Hacq; intros [= <- <- <-]; [|by apply Hsame].
    destruct (acquire_law _ _ _ _ Hacq) as (Hfree & Hheld & Hrest). destruct Hnm as [[-> Hn2]|(-> & Hph & ->)].
    - apply locks_inv_set; try done; [congruence| |].
      + intros j _ Hj. congruence.
      + intros j _ Hne Hj. by rewrite Hrest.
    - rewrite Hph in H1. specialize (H1 eq_refl). assert (name1 ≠ name2) as Hne by congruence.
      apply locks_inv_set; try done.
      + intros _. by rewrite Hrest.
      + intros j _ Hj. by rewrite Hrest.
      + intros j _ _ Hj. congruence. }
  assert (∀ nm next, Ret (next, s.(lk_kv), release nm me s.(lk_locks)) = Ret (ph', kv', ls') →
    (nm = name1 ∧ holds1 ph = true ∧ holds1 next = false ∧ (holds2 next = true → holds2 ph = true)) ∨
    (nm = name2 ∧ holds2 ph = true ∧ holds1 next = false ∧ holds2 next = false) →
    locks_inv (mkLockSys kv' ls' (<[Z.to_nat me := ph']> s.(lk_clients)))) as Hrel.
  { intros nm next [= <- <- <-] [(-> & Hh & Hn1 & Hn2)|(-> & Hh & Hn1 & Hn2)].
    - destruct (release_law _ _ _ (H1 Hh)) as [Hfree Hrest]. specialize (H1 Hh). apply locks_inv_set; try done; [congruence| | |].
      + intros Hn. destruct (H2 (Hn2 Hn)) as [? ?]. split; [|done]. by rewrite Hrest.
      + intros j Hne Hj. congruence.
      + intros j _ Hne Hj. by rewrite Hrest.
    - destruct (H2 Hh) as [Hheld Hne]. destruct (release_law _ _ _ Hheld) as [Hfree Hrest].
      apply locks_inv_set; try done; [congruence|congruence| |].
      + intros j _ Hj. by rewrite Hrest.
      + intros j Hj _ Hj2. congruence. }
  destruct ph as [| | | |first|i|i|i|i ver first|i ver first|i|i]; cbn [lk_client] in Hstep.
  - eapply Hwait; [|exact Hstep]. by left.
  - eapply Hwait; [|exact Hstep]. by right.
  - eapply Hrel; [exact Hstep|]. by left.
  - eapply Hrel; [exact Hstep|]. by right.
  - destruct (lk_put _ _ _ _ _ _) as [err kv1]. injection Hstep as <- <- <-. by destruct err; apply Hsame.
  - destruct executed; injection Hstep as <- <- <-; by apply Hsame.
  - eapply Hwait; [|exact Hstep]. by left.
  - repeat (case_match; try done); injection Hstep as <- <- <-; by apply Hsame.
  - destruct (lk_put _ _ _ _ _ _) as [[err|] kv1]; [destruct (put_ok err); [|done]|]; injection Hstep as <- <- <-;
      by apply Hsame.
  - destruct (lk_put _ _ _ _ _ _) as [[err|] kv1]; [destruct (put_ok err); [|done]|]; injection Hstep as <- <- <-;
      by apply Hsame.
  - eapply Hrel; [exact Hstep|]. by left.
  - injection Hstep as <- <- <-. by apply Hsame.
Qed.

(** C9. [runClients] with a lock that excludes: for any number of clients, any
    interleaving and any lost calls, no client finds another's number under the
    key, no put fails, at most one client is in its critical section, and while
    none is the key holds the empty string. *)
Theorem lock_test_passes n ls evs :
  (∀ nm, holder ls nm = None) → glen evs < 2 ^ 63 →
  returns (lock_run n ls evs) (λ s,
    exclusive s.(lk_clients) ∧
    ((∀ i p, s.(lk_clients).[i] = Some p → critical p = false) →
     ∀ e, s.(lk_kv) !! l0 = Some e → e.(Value) = "")).
Proof.
  intros Hfree Hlen. assert (∀ evs m s, lock_inv m s → locks_inv s → 0 ≤ m → m + glen evs < 2 ^ 63 →
    returns (foldM lock_step s evs) (λ s, lock_inv (m + glen evs) s ∧ locks_inv s)) as Hgen.
  { clear. induction evs as [|[me executed replied] evs IH]; intros m s Hinv Hlk Hm0 Hm; cbn [foldM].
    { apply returns_Ret. by rewrite glen_nil, Z.add_0_r. }
    rewrite glen_cons in *. pose proof (glen_nonneg evs).
    apply (returns_bind _ _ (λ s, lock_inv (m + 1) s ∧ locks_inv s)).
    - cbn [lock_step]. destruct (s.(lk_clients).[me]) as [ph|] eqn:Hme.
      + destruct (lk_client_data m s me ph executed replied Hinv Hm0 ltac:(lia) Hme) as ([[ph' kv'] ls'] & Hs & Hn).
        { intros Hc. eapply exclusive_alone; [by apply locks_exclusive|done|done]. }
        pose proof (lk_client_locks _ _ _ _ _ _ _ _ Hlk Hme Hs) as Hlk'. rewrite Hs. apply returns_Ret.
        split; [|done]. apply Hn. cbn. intros Hc j p Hne Hp. destruct (critical p) eqn:Hcp; [|done]. exfalso. apply Hne.
        pose proof (zlookup_lt_Some _ _ _ Hme).
        apply (locks_exclusive _ Hlk' j me p ph'); cbn [lk_clients]; [| |done|done].
        -- by rewrite zlookup_insert, decide_False by congruence.
        -- by rewrite zlookup_insert, decide_True by done.
      + apply returns_Ret. split; [|done]. destruct Hinv as [Hv ? ?]. constructor; try done.
        intros e He. specialize (Hv e He). lia.
    - intros s' [Hinv' Hlk']. replace (m + (1 + glen evs)) with (m + 1 + glen evs) by lia. by apply IH; [..|lia|lia]. }
  eapply returns_mono; [apply (Hgen evs 0 (lock_start n ls)); [apply lock_start_inv| |lia|lia]|].
  - split; cbn; intros me ph; unfold zlookup; (case_match; [done|]); by intros [-> _]%lookup_replicate.
  - intros s [Hinv Hlk]. split; [by apply locks_exclusive|]. intros Hno e He.
    destruct (li_clear _ _ Hinv e He) as [?|(i & p & Hp & Hc)]; [done|]. specialize (Hno i p Hp). congruence.
Qed.
End excluded.
End lock.

(** ** The skeleton *)

(** Both clients pass the empty [Acquire]; client 0 writes its number, and
    client 1 reads it. No call is lost. *)
Definition skeleton_race : list LockEvent :=
  let step me := LkStep me true true in let wait me := LkStep me false false in
  [step 0; step 0; step 0; step 0; step 0; step 1; step 1; step 1; step 1; step 1;
   wait 0; wait 1; step 0; step 1; step 0; step 0; step 1].

(** With [lock.go] as it is the test of many clients fails even on a
    reliable network: "two clients acquired lock". *)
Theorem skeleton_lock_fails name1 name2 :
  lock_run (H := skeleton_locks) name1 name2 2 tt skeleton_race = Fatal ∧
  Forall (λ '(LkStep _ executed replied), executed = replied) skeleton_race.
Proof. split; [vm_compute; reflexivity|]. repeat constructor. Qed.
