(* ===== verification/LockWitness.v ===== *)
(** * The lock test at concrete runs

    A lock that excludes: the map of the holders. Two clients, the second of
    which waits for the first; and one client alone with the skeleton. *)

From S2P Require Import Prelude KvServer Lock.

#[local] Instance holder_map : Locks (gmap string Z) := {|
  acquire nm me ls := match ls !! nm with None => Some (<[nm := me]> ls) | Some _ => None end;
  release nm _ ls := delete nm ls;
|}.
#[local] Instance holder_map_laws : LockLaws (gmap string Z).
Proof.
  refine {| holder ls nm := ls !! nm |}.
  - intros nm me ls ls'. cbn. destruct (ls !! nm) eqn:E; [done|]. intros [= <-]. split; [done|].
    split; [apply lookup_insert_eq|]. intros nm' Hne. by apply lookup_insert_ne.
  - intros nm me ls _. split; [apply lookup_delete_eq|]. intros nm' Hne. by apply lookup_delete_ne.
Defined.

Definition step (me : Z) : LockEvent := LkStep me true true.
Definition lost (me : Z) : LockEvent := LkStep me true false.
Definition go_on (me : Z) : LockEvent := LkStep me false false.

(** Client 0 is inside when client 1 tries to enter; the reply to its first put
    is lost; then client 1 enters. *)
Definition taken_turns : list LockEvent :=
  [step 0; step 0; step 0; step 0; step 0; step 1; step 1; step 1; step 1; step 1;
   go_on 0; go_on 1; step 0; step 1; step 0; lost 0; step 1; step 0; step 0; step 0; step 1; step 1].

Definition turns_end : LockSys (gmap string Z) := result (lock_run "a" "b" 2 ∅ taken_turns) (lock_start 0 ∅).

Lemma lock_test_passes_witness :
  turns_end.(lk_clients) = [LkSelect 2; LkWrite 1 3 true] ∧ exclusive turns_end.(lk_clients).
Proof.
  split; [vm_compute; reflexivity|].
  destruct (lock_test_passes "a" "b" 2 (∅ : gmap string Z) taken_turns) as (s & Hs & Hex & _).
  - intros nm. reflexivity.
  - reflexivity.
  - unfold turns_end. rewrite Hs. exact Hex.
Defined.

(** Alone, with the skeleton; the first write is executed twice. *)
Definition alone_run : list LockEvent :=
  [step 0; step 0; step 0; step 0; lost 0; step 0; go_on 0; step 0; step 0; lost 0; lost 0; step 0; step 0; step 0; step 0].

Definition alone_end : LockSys unit :=
  result (lock_run (H := skeleton_locks) "a" "b" 1 tt alone_run) (lock_start 0 tt).

Lemma one_lock_client_passes_witness :
  alone_end.(lk_clients) = [LkReturned 2] ∧ lock_inv (glen alone_run) alone_end.
Proof.
  split; [vm_compute; reflexivity|].
  destruct (one_lock_client_passes (H := skeleton_locks) "a" "b" tt alone_run) as (s & Hs & Hinv & _).
  - reflexivity.
  - unfold alone_end. rewrite Hs. exact Hinv.
Defined.
