(* ===== verification/KvLog.v ===== *)
(** * What the tests log for the linearizability checker

    [kvtest1/porcupine.go]'s [Test.Get] and [Test.Put] around the system of
    clerks and server of [KvLin.v]: a client reads the clock, calls its clerk,
    reads the clock again and appends the operation to the shared log, and any
    of these steps may interleave with those of other clients. The theorem is
    that the log of a finished run is linearizable in the checker's sense. *)

From S2P Require Import Prelude KvServer KvLin.

Import KvModel.

(** ** Linearizable histories, as the checker defines them *)

(** [a] returned before [b] was called. *)
Definition precedes (a b : Operation) : Prop := a.(op_Return) < b.(op_Call).

(** The sequential model accepts the operations in this order. *)
Definition legal (h : list Operation) : Prop :=
  is_Some (accept Init ((λ o, (o.(op_Input), o.(op_Output))) <$> h)).

(** No operation comes before one that preceded it. *)
Definition in_order (h : list Operation) : Prop := StronglySorted (λ a b, ¬ precedes b a) h.

(** For each part of the history there is a legal order of its operations that
    keeps the order in time. *)
Definition lin_history (history : list Operation) : Prop :=
  Forall (λ part, ∃ h, h ≡ₚ part ∧ in_order h ∧ legal h) (Partition history).

(** ** Clients that log *)

(** Where a client is in [Test.Get] or [Test.Put]. *)
Inductive LogPhase :=
  | LStarted (start : Z) (op : ClerkOp)
  | LCalling (start : Z) (op : ClerkOp)
  | LReturned (start : Z) (op : ClerkOp) (out : KvOutput)
  | LEnded (start end_ : Z) (op : ClerkOp) (out : KvOutput).

(** [l_trace] is a ghost: the trace of the system of clerks. *)
Record LogSys := mkLogSys {
  l_sys : Sys; l_now : Z; l_phase : gmap Z LogPhase; l_oplog : list Operation; l_trace : list TraceItem;
}.

Inductive LogEvent :=
  | EvTick (d : nat)
  | EvStart (c : Z) (op : ClerkOp)
  | EvInvoke (c : Z)
  | EvCall (c : Z) (executed replied : bool)
  | EvEnd (c : Z)
  | EvAppend (c : Z).

(** The [porcupine.Operation] that is appended. *)
Definition logged (c start end_ : Z) (op : ClerkOp) (out : KvOutput) : Operation :=
  mkOperation (to_input op) out start end_ c.

Definition returned_out (items : list TraceItem) : option KvOutput :=
  head (omap (λ it, match it with TRet _ out => Some out | _ => None end) items).

(** The phase of client [c] becomes [ph]. *)
Definition set_phase (c : Z) (ph : LogPhase) (s : LogSys) : LogSys :=
  mkLogSys s.(l_sys) s.(l_now) (<[c := ph]> s.(l_phase)) s.(l_oplog) s.(l_trace).

Definition log_step (s : LogSys) (ev : LogEvent) : LogSys :=
  match ev with
  | EvTick d => mkLogSys s.(l_sys) (s.(l_now) + Z.of_nat d) s.(l_phase) s.(l_oplog) s.(l_trace)
  | EvStart c op =>
    match s.(l_phase) !! c with
    | None => set_phase c (LStarted s.(l_now) op) s
    | Some _ => s
    end
  | EvInvoke c =>
    match s.(l_phase) !! c with
    | Some (LStarted start op) =>
      let '(sys, items) := sys_step (Invoke c op) s.(l_sys) in
      set_phase c (LCalling start op) (mkLogSys sys s.(l_now) s.(l_phase) s.(l_oplog) (s.(l_trace) ++ items))
    | _ => s
    end
  | EvCall c executed replied =>
    match s.(l_phase) !! c with
    | Some (LCalling start op) =>
      let '(sys, items) := sys_step (Call c executed replied) s.(l_sys) in
      let s := mkLogSys sys s.(l_now) s.(l_phase) s.(l_oplog) (s.(l_trace) ++ items) in
      match returned_out items with
      | Some out => set_phase c (LReturned start op out) s
      | None => s
      end
    | _ => s
    end
  | EvEnd c =>
    match s.(l_phase) !! c with
    | Some (LReturned start op out) => set_phase c (LEnded start s.(l_now) op out) s
    | _ => s
    end
  | EvAppend c =>
    match s.(l_phase) !! c with
    | Some (LEnded start end_ op out) =>
      mkLogSys s.(l_sys) s.(l_now) (delete c s.(l_phase)) (s.(l_oplog) ++ [logged c start end_ op out]) s.(l_trace)
    | _ => s
    end
  end.

Definition log_init (now : Z) : LogSys := mkLogSys sys_init now ∅ [] [].
Definition log_run (now : Z) (evs : list LogEvent) : LogSys := foldl log_step (log_init now) evs.

(** ** The invariant

    A ghost record of every effect, in order, with the time at which it
    happened; [lr_final] is the logged operation once there is one. [own] says
    which record belongs to a client that has not logged its operation yet. *)

Record LinRec := mkLinRec {
  lr_client : Z; lr_op : ClerkOp; lr_out : KvOutput; lr_time : Z; lr_final : option Operation;
}.

(** The effects of a trace. *)
Definition effects (tr : list TraceItem) : list (ClerkOp * KvOutput) :=
  omap (λ it, match it with TLin _ op out => Some (op, out) | _ => None end) tr.

Definition rec_final (r : LinRec) : Prop :=
  ∀ o, r.(lr_final) = Some o →
    o.(op_Input) = to_input r.(lr_op) ∧ o.(op_Output) = r.(lr_out) ∧
    o.(op_Call) ≤ r.(lr_time) ≤ o.(op_Return).

(** What is known of client [c] with phase [ph], if its operation took effect
    as record [r], or has not yet. *)
Definition phase_ok (s : LogSys) (c : Z) (ph : option LogPhase) (r : option LinRec) : Prop :=
  match ph with
  | None => s.(l_sys).(s_clerks) !! c = None ∧ r = None
  | Some (LStarted start op) => s.(l_sys).(s_clerks) !! c = None ∧ r = None ∧ start ≤ s.(l_now)
  | Some (LCalling start op) => start ≤ s.(l_now) ∧
      ∃ p, s.(l_sys).(s_clerks) !! c = Some p ∧ p.(p_op) = op ∧
        if p.(p_lin)
        then ∃ t, r = Some (mkLinRec c op (put_out ErrMaybe) t None) ∧ start ≤ t
        else r = None
  | Some (LReturned start op out) => s.(l_sys).(s_clerks) !! c = None ∧
      ∃ t, r = Some (mkLinRec c op out t None) ∧ start ≤ t
  | Some (LEnded start end_ op out) => s.(l_sys).(s_clerks) !! c = None ∧
      ∃ t, r = Some (mkLinRec c op out t None) ∧ start ≤ t ≤ end_
  end.

Record log_inv (n : Z) (s : LogSys) (lin : list LinRec) (own : gmap Z nat) : Prop := {
  gi_sys : sys_inv n s.(l_sys) s.(l_trace);
  gi_effects : effects s.(l_trace) = (λ r, (r.(lr_op), r.(lr_out))) <$> lin;
  gi_sorted : StronglySorted Z.le (lr_time <$> lin);
  gi_past : Forall (λ r, r.(lr_time) ≤ s.(l_now)) lin;
  gi_final : Forall rec_final lin;
  gi_log : s.(l_oplog) ≡ₚ omap lr_final lin;
  gi_phase : ∀ c, phase_ok s c (s.(l_phase) !! c) (i ← own !! c; lin !! i);
  gi_own : ∀ c i, own !! c = Some i → ∃ r, lin !! i = Some r ∧ r.(lr_client) = c ∧ r.(lr_final) = None;
  gi_pending : ∀ i r, lin !! i = Some r → r.(lr_final) = None → own !! r.(lr_client) = Some i;
}.

(** ** Calls of the clerk *)

Lemma effects_app tr tr' : effects (tr ++ tr') = effects tr ++ effects tr'.
Proof. unfold effects. by rewrite omap_app. Qed.

(** The four things a call can do, seen from the clerk: nothing, its effect,
    its effect and its return, its return after an effect at an earlier call. *)
Lemma sys_call_cases s c executed replied p s' items :
  s.(s_clerks) !! c = Some p → sys_step (Call c executed replied) s = (s', items) →
  (∀ c', c' ≠ c → s'.(s_clerks) !! c' = s.(s_clerks) !! c') ∧
  ((∃ q, items = [] ∧ s'.(s_clerks) !! c = Some q ∧ q.(p_op) = p.(p_op) ∧ q.(p_lin) = p.(p_lin)) ∨
   (∃ q, items = [TLin c p.(p_op) (put_out ErrMaybe)] ∧
      s'.(s_clerks) !! c = Some q ∧ q.(p_op) = p.(p_op) ∧ q.(p_lin) = true) ∨
   (∃ out, items = [TLin c p.(p_op) out; TRet c out] ∧ s'.(s_clerks) !! c = None) ∨
   (∃ out, items = [TRet c out] ∧ p.(p_lin) = true ∧ s'.(s_clerks) !! c = None)).
Proof.
  intros Hc. cbn [sys_step]. rewrite Hc. destruct (p_op p) as [key|key value version] eqn:Hop.
  - unfold call_get. destruct (executed && replied); cbn [Clerk.Get]; intros [= <- <-]; cbn.
    + split; [intros; by apply lookup_delete_ne|]. right; right; left.
      eexists. split; [done|]. apply lookup_delete_eq.
    + split; [done|]. left. by exists p.
  - unfold call_put. destruct (if executed then _ else _) as [srv reply].
    destruct (Clerk.put_iter _ _ _) as [err|] eqn:Hiter;
      destruct (executed && bool_decide (pr_Err reply = OK)) eqn:Heff; rewrite ?Hop.
    + intros [= <- <-]. cbn [s_clerks]. split; [intros; by apply lookup_delete_ne|]. right; right; left.
      eexists. split; [done|]. apply lookup_delete_eq.
    + destruct (p_lin p) eqn:Hlin; intros [= <- <-]; cbn [s_clerks];
        (split; [intros; by apply lookup_delete_ne|]).
      * right; right; right. eexists. split; [done|]. split; [done|]. apply lookup_delete_eq.
      * right; right; left. eexists. split; [done|]. apply lookup_delete_eq.
    + intros [= <- <-]. cbn [s_clerks]. split; [intros; by apply lookup_insert_ne|]. right; left.
      eexists. split; [done|]. split; [apply lookup_insert_eq|]. split; [done|]. by apply orb_true_r.
    + intros [= <- <-]. cbn [s_clerks]. split; [intros; by apply lookup_insert_ne|]. left.
      eexists. split; [done|]. split; [apply lookup_insert_eq|]. split; [done|]. by apply orb_false_r.
Qed.

(** What the clerk's view allows: an effect only before any effect, and a late
    return only of [ErrMaybe]. *)
Lemma view_lin n s tr c p items s' n' :
  sys_inv n s tr → s.(s_clerks) !! c = Some p → sys_inv n' s' (tr ++ items) →
  (∀ out l, items = TLin c p.(p_op) out :: l → p.(p_lin) = false) ∧
  (∀ out, items = [TRet c out] → p.(p_lin) = true → out = put_out ErrMaybe).
Proof.
  intros Hinv Hc Hinv'. pose proof (si_view _ _ _ Hinv' c) as Hv.
  rewrite view_app, (si_view _ _ _ Hinv c), Hc in Hv. cbn [clerk_state] in Hv. split.
  - intros out l ->. destruct (p_lin p); [|done]. cbn in Hv. rewrite decide_True in Hv by done.
    exfalso. clear -Hv. assert (∀ l, foldl (λ st it, st ← st; view_step c st it) None l = None) as Hn
      by (intros l'; by induction l'). by rewrite Hn in Hv.
  - intros out -> Hlin. rewrite Hlin in Hv. cbn in Hv. rewrite decide_True in Hv by done.
    by case_decide.
Qed.

(** ** Steps preserve the invariant *)

Lemma phase_ok_mono s s' c ph r :
  s'.(l_sys).(s_clerks) !! c = s.(l_sys).(s_clerks) !! c → s.(l_now) ≤ s'.(l_now) →
  phase_ok s c ph r → phase_ok s' c ph r.
Proof.
  intros Hc Hnow. destruct ph as [[start op|start op|start op out|start end_ op out]|]; cbn; rewrite Hc; try done.
  - intros (? & ? & ?). split_and!; [done|done|lia].
  - intros (? & ?). split; [lia|done].
Qed.

(** The record of client [c], if it has one. *)
Definition rec_of (lin : list LinRec) (own : gmap Z nat) (c : Z) : option LinRec := i ← own !! c; lin !! i.

(** A step of client [c] that keeps the log: its effect is recorded if it
    happens, and its phase changes. *)
Lemma log_inv_step n n' s s' lin own c ph (add : option (ClerkOp * KvOutput)) :
  log_inv n s lin own → sys_inv n' s'.(l_sys) s'.(l_trace) →
  effects s'.(l_trace) = effects s.(l_trace) ++ option_list add →
  s'.(l_now) = s.(l_now) → s'.(l_oplog) = s.(l_oplog) → s'.(l_phase) = <[c := ph]> s.(l_phase) →
  (∀ c', c' ≠ c → s'.(l_sys).(s_clerks) !! c' = s.(l_sys).(s_clerks) !! c') →
  (is_Some add → own !! c = None) →
  phase_ok s' c (Some ph) (match add with
    | Some (op, out) => Some (mkLinRec c op out s.(l_now) None) | None => rec_of lin own c end) →
  ∃ lin' own', log_inv n' s' lin' own'.
Proof.
  intros Hinv Hsys Heff Hnow Hlog Hph Hoth Hown Hok. destruct Hinv as [_ He Hsort Hpast Hfin Hl Hphase Ho Hp].
  destruct add as [[op out]|]; cbn [option_list] in Heff.
  - specialize (Hown ltac:(by eexists)). set (r := mkLinRec c op out s.(l_now) None).
    assert (∀ c', c' ≠ c → rec_of (lin ++ [r]) (<[c := length lin]> own) c' = rec_of lin own c') as Hrec.
    { intros c' Hne. unfold rec_of. rewrite lookup_insert_ne by done. destruct (own !! c') as [i|] eqn:Hi; [|done]. cbn.
      destruct (Ho _ _ Hi) as (r' & Hr' & _). rewrite lookup_app_l; [done|]. by eapply lookup_lt_Some. }
    exists (lin ++ [r]), (<[c := length lin]> own). constructor.
    + done.
    + rewrite Heff, He, fmap_app. done.
    + rewrite fmap_app. apply StronglySorted_app_2; [|done|by repeat constructor].
      intros x y (r' & -> & Hr')%list_elem_of_fmap ->%list_elem_of_singleton.
      rewrite Forall_forall in Hpast. by apply Hpast.
    + rewrite Hnow. apply Forall_app. split; [done|]. by repeat constructor.
    + apply Forall_app. split; [done|]. by repeat constructor.
    + rewrite Hlog, omap_app. cbn. by rewrite app_nil_r.
    + intros c'. rewrite Hph. destruct (decide (c' = c)) as [->|Hne].
      * rewrite !lookup_insert_eq. cbn. by rewrite list_lookup_middle.
      * rewrite (lookup_insert_ne s.(l_phase)) by done.
        change (phase_ok s' c' (s.(l_phase) !! c') (rec_of (lin ++ [r]) (<[c := length lin]> own) c')).
        rewrite Hrec by done. eapply phase_ok_mono; [by apply Hoth|lia|apply Hphase].
    + intros c' i. destruct (decide (c' = c)) as [->|Hne].
      * rewrite lookup_insert_eq. intros [= <-]. exists r. by rewrite list_lookup_middle.
      * rewrite lookup_insert_ne by done. intros Hi. destruct (Ho _ _ Hi) as (r' & Hr' & ?).
        exists r'. split; [|done]. by apply lookup_app_l_Some.
    + intros i r' Hi Hf. apply lookup_app_Some in Hi as [Hi|[Hge Hi]].
      * pose proof (Hp _ _ Hi Hf) as Hc. rewrite lookup_insert_ne; [done|]. intros Heq. rewrite <-Heq in Hc. congruence.
      * destruct (i - length lin)%nat as [|k] eqn:Hk; [|done]. injection Hi as <-. cbn.
        rewrite lookup_insert_eq. f_equal. lia.
  - rewrite app_nil_r in Heff. exists lin, own. constructor; rewrite ?Heff, ?Hnow, ?Hlog; try done.
    intros c'. rewrite Hph. destruct (decide (c' = c)) as [->|Hne].
    + by rewrite lookup_insert_eq.
    + rewrite lookup_insert_ne by done. eapply phase_ok_mono; [by apply Hoth|lia|apply Hphase].
Qed.

Lemma rec_of_None n s lin own c : log_inv n s lin own → rec_of lin own c = None → own !! c = None.
Proof.
  intros Hinv. unfold rec_of. destruct (own !! c) as [i|] eqn:Hi; [|done]. cbn.
  destruct (gi_own _ _ _ _ Hinv _ _ Hi) as (r & Hr & _). by rewrite Hr.
Qed.

Lemma log_inv_mono n n' s lin own : log_inv n s lin own → n ≤ n' → log_inv n' s lin own.
Proof.
  intros [Hs ? ? ? ? ? ? ? ?] Hn. constructor; try done. destruct Hs as [? ? ? Hv]. constructor; try done.
  intros key e He. pose proof (Hv key e He). lia.
Qed.

Lemma tick_inv n s lin own d : log_inv n s lin own → log_inv n (log_step s (EvTick d)) lin own.
Proof.
  intros [? ? ? Hpast ? ? Hph ? ?]. constructor; try done.
  - eapply Forall_impl; [exact Hpast|]. cbn. lia.
  - intros c. apply (phase_ok_mono s); [done|cbn; lia|]. exact (Hph c).
Qed.

Lemma start_inv n s lin own c op :
  log_inv n s lin own → ∃ lin' own', log_inv n (log_step s (EvStart c op)) lin' own'.
Proof.
  intros Hinv. cbn [log_step]. destruct (l_phase s !! c) eqn:Hph; [by exists lin, own|].
  pose proof (gi_phase _ _ _ _ Hinv c) as Hok. rewrite Hph in Hok. destruct Hok as [Hc Hr].
  eapply (log_inv_step n n s _ lin own c _ None Hinv); try apply (gi_sys _ _ _ _ Hinv);
    rewrite ?app_nil_r; try done; by intros [].
Qed.

Lemma invoke_inv n s lin own c :
  log_inv n s lin own → 0 ≤ n → n + 1 < 2 ^ 64 →
  ∃ lin' own', log_inv (n + 1) (log_step s (EvInvoke c)) lin' own'.
Proof.
  intros Hinv Hn0 Hn. assert (∃ lin' own', log_inv (n + 1) s lin' own') as Hsame
    by (exists lin, own; eapply log_inv_mono; [done|lia]).
  cbn [log_step]. destruct (l_phase s !! c) as [[start op|?|?|?]|] eqn:Hph; try done.
  pose proof (gi_phase _ _ _ _ Hinv c) as Hok. rewrite Hph in Hok. destruct Hok as (Hc & Hr & Hle).
  destruct (sys_step (Invoke c op) (l_sys s)) as [sys items] eqn:Hstep.
  assert (sys_inv (n + 1) sys (l_trace s ++ items)) as Hsys.
  { apply (sys_step_inv n (l_sys s) _ _ _ _ (gi_sys _ _ _ _ Hinv) Hn0 Hn Hstep).
    cbn in Hstep. rewrite Hc in Hstep. injection Hstep as _ <-. intros ? ? ? ? ? ?%list_elem_of_singleton. done. }
  cbn in Hstep. rewrite Hc in Hstep. injection Hstep as <- <-.
  eapply (log_inv_step n (n + 1) s _ lin own c _ None Hinv); cbn [set_phase l_sys l_trace l_now l_phase l_oplog]; try done.
  - by rewrite effects_app, !app_nil_r.
  - intros c' Hne. cbn. by apply lookup_insert_ne.
  - cbn [phase_ok set_phase l_sys l_now s_clerks]. split; [done|]. eexists. split; [apply lookup_insert_eq|]. by split.
Qed.

Lemma call_inv n s lin own c executed replied :
  log_inv n s lin own → 0 ≤ n → n + 1 < 2 ^ 64 →
  no_missing_put (log_step s (EvCall c executed replied)).(l_trace) →
  ∃ lin' own', log_inv (n + 1) (log_step s (EvCall c executed replied)) lin' own'.
Proof.
  intros Hinv Hn0 Hn. assert (∃ lin' own', log_inv (n + 1) s lin' own') as Hsame
    by (exists lin, own; eapply log_inv_mono; [done|lia]).
  cbn [log_step]. destruct (l_phase s !! c) as [[?|start op|?|?]|] eqn:Hph; try done. intros Hmiss.
  pose proof (gi_phase _ _ _ _ Hinv c) as Hok. rewrite Hph in Hok. destruct Hok as (Hle & p & Hc & Hop & Hr).
  destruct (sys_step _ (l_sys s)) as [sys items] eqn:Hstep.
  assert (sys_inv (n + 1) sys (l_trace s ++ items)) as Hsys.
  { apply (sys_step_inv n (l_sys s) _ _ _ _ (gi_sys _ _ _ _ Hinv) Hn0 Hn Hstep).
    intros c0 k v ver o Hin. apply (Hmiss c0 k v ver o). destruct (returned_out items); cbn [set_phase l_trace];
      apply elem_of_app; by right. }
  destruct (view_lin _ _ _ _ _ _ _ _ (gi_sys _ _ _ _ Hinv) Hc Hsys) as [Hlin Hret].
  destruct (sys_call_cases _ _ _ _ _ _ _ Hc Hstep) as [Hoth Hcases]. rewrite <-Hop in *.
  destruct Hcases as [(q & -> & Hq & Hqop & Hql)|[(q & -> & Hq & Hqop & Hql)|[(out & -> & Hq)|(out & -> & Hpl & Hq)]]].
  - eapply (log_inv_step n (n + 1) s _ lin own c (LCalling start (p_op p)) None Hinv); cbn; try done.
    + by rewrite !app_nil_r.
    + by rewrite insert_id.
    + split; [done|]. exists q. rewrite Hql. by rewrite Hqop.
  - rewrite (Hlin _ _ eq_refl) in Hr.
    eapply (log_inv_step n (n + 1) s _ lin own c (LCalling start (p_op p)) (Some (p_op p, put_out ErrMaybe)) Hinv);
      cbn; try done.
    + by rewrite effects_app.
    + by rewrite insert_id.
    + intros _. by eapply rec_of_None.
    + split; [done|]. exists q. rewrite Hql, Hqop. split_and!; [done|done|]. by eexists.
  - rewrite (Hlin _ _ eq_refl) in Hr.
    eapply (log_inv_step n (n + 1) s _ lin own c (LReturned start (p_op p) out) (Some (p_op p, out)) Hinv);
      cbn; try done.
    + by rewrite effects_app.
    + intros _. by eapply rec_of_None.
    + split; [done|]. by eexists.
  - rewrite Hpl in Hr. destruct Hr as (t & Hr & Ht).
    eapply (log_inv_step n (n + 1) s _ lin own c (LReturned start (p_op p) out) None Hinv); cbn; try done.
    + rewrite effects_app. done.
    + split; [done|]. exists t. split; [|done]. rewrite (Hret _ eq_refl Hpl). exact Hr.
Qed.

Lemma end_inv n s lin own c :
  log_inv n s lin own → ∃ lin' own', log_inv n (log_step s (EvEnd c)) lin' own'.
Proof.
  intros Hinv. cbn [log_step]. destruct (l_phase s !! c) as [[?|?|start op out|?]|] eqn:Hph; try by exists lin, own.
  pose proof (gi_phase _ _ _ _ Hinv c) as Hok. rewrite Hph in Hok. destruct Hok as (Hc & t & Hr & Ht).
  eapply (log_inv_step n n s _ lin own c _ None Hinv); try done.
  - apply (gi_sys _ _ _ _ Hinv).
  - by rewrite app_nil_r.
  - split; [done|]. exists t. split; [exact Hr|]. split; [done|]. cbn.
    change (rec_of lin own c = Some (mkLinRec c op out t None)) in Hr.
    unfold rec_of in Hr. destruct (own !! c) as [i|]; [|done]. cbn in Hr.
    pose proof (gi_past _ _ _ _ Hinv) as Hpast. rewrite Forall_lookup in Hpast. exact (Hpast _ _ Hr).
Qed.

Lemma append_inv n s lin own c :
  log_inv n s lin own → ∃ lin' own', log_inv n (log_step s (EvAppend c)) lin' own'.
Proof.
  intros Hinv. cbn [log_step]. destruct (l_phase s !! c) as [[?|?|?|start end_ op out]|] eqn:Hph; try by exists lin, own.
  pose proof (gi_phase _ _ _ _ Hinv c) as Hok. rewrite Hph in Hok. destruct Hok as (Hc & t & Hr & Ht).
  destruct Hinv as [Hs He Hsort Hpast Hfin Hl Hphase Ho Hp].
  destruct (own !! c) as [i|] eqn:Hi; [|done]. cbn in Hr. set (o := logged c start end_ op out).
  set (r' := mkLinRec c op out t (Some o)).
  pose proof (lookup_lt_Some _ _ _ Hr) as Hlt. pose proof (take_drop_middle _ _ _ Hr) as Hsplit.
  assert (<[i := r']> lin = take i lin ++ r' :: drop (S i) lin) as Hins
    by (apply insert_take_drop; exact Hlt).
  assert (∀ B (f : LinRec → B), f r' = f (mkLinRec c op out t None) → f <$> <[i := r']> lin = f <$> lin) as Hmap.
  { intros B f Hf. rewrite list_fmap_insert, Hf. apply list_insert_id. by rewrite list_lookup_fmap, Hr. }
  assert (∀ P : LinRec → Prop, Forall P lin → P r' → Forall P (<[i := r']> lin)) as Hall
    by (intros P ? ?; by apply Forall_insert).
  exists (<[i := r']> lin), (delete c own). constructor; cbn [l_sys l_trace l_now l_oplog l_phase].
  - done.
  - by rewrite Hmap.
  - by rewrite Hmap.
  - apply Hall; [done|]. rewrite Forall_lookup in Hpast. exact (Hpast _ _ Hr).
  - apply Hall; [done|]. intros o' [= <-]. done.
  - rewrite Hl, Hins. rewrite <-Hsplit at 1. rewrite !omap_app. cbn.
    rewrite <-app_assoc. apply Permutation_app_head. symmetry. apply Permutation_cons_append.
  - intros c'. destruct (decide (c' = c)) as [->|Hne].
    + rewrite !lookup_delete_eq. done.
    + rewrite !lookup_delete_ne by done. specialize (Hphase c').
      destruct (own !! c') as [j|] eqn:Hj; [|exact Hphase]. cbn in Hphase |- *.
      rewrite list_lookup_insert_ne; [exact Hphase|]. intros ->.
      destruct (Ho _ _ Hj) as (r1 & Hr1 & Hc1 & _). rewrite Hr in Hr1. injection Hr1 as <-. by apply Hne.
  - intros c' j Hj. apply lookup_delete_Some in Hj as [Hne Hj]. destruct (Ho _ _ Hj) as (r1 & Hr1 & Hc1 & Hf).
    exists r1. rewrite list_lookup_insert_ne; [done|]. intros ->. rewrite Hr in Hr1. injection Hr1 as <-. by apply Hne.
  - intros j r1 Hj Hf. destruct (decide (i = j)) as [<-|Hne].
    + rewrite list_lookup_insert_eq in Hj by done. by injection Hj as <-.
    + rewrite list_lookup_insert_ne in Hj by done. pose proof (Hp _ _ Hj Hf) as Ho1.
      rewrite lookup_delete_ne; [done|]. intros Heq. rewrite <-Heq in Ho1. congruence.
Qed.

Lemma log_step_inv n s lin own ev :
  log_inv n s lin own → 0 ≤ n → n + 1 < 2 ^ 64 → no_missing_put (log_step s ev).(l_trace) →
  ∃ lin' own', log_inv (n + 1) (log_step s ev) lin' own'.
Proof.
  intros Hinv Hn0 Hn Hmiss.
  assert (∀ s', (∃ lin' own', log_inv n s' lin' own') → ∃ lin' own', log_inv (n + 1) s' lin' own') as Hmono
    by (intros s' (l & o & ?); exists l, o; eapply log_inv_mono; [done|lia]).
  destruct ev.
  - apply Hmono. exists lin, own. by apply tick_inv.
  - apply Hmono. by eapply start_inv.
  - by eapply invoke_inv.
  - by eapply call_inv.
  - apply Hmono. by eapply end_inv.
  - apply Hmono. by eapply append_inv.
Qed.

(** ** Runs *)

Lemma log_step_trace s ev : l_trace s `prefix_of` l_trace (log_step s ev).
Proof.
  destruct ev as [d|c op|c|c executed replied|c|c]; cbn [log_step]; try done; destruct (l_phase s !! c) as [[]|]; try done.
  - destruct (sys_step _ _) as [sys items]. cbn. by apply prefix_app_r.
  - destruct (sys_step _ _) as [sys items]. destruct (returned_out items); cbn; by apply prefix_app_r.
Qed.

Lemma log_steps_trace evs s : l_trace s `prefix_of` l_trace (foldl log_step s evs).
Proof.
  revert s. induction evs as [|ev evs IH]; intros s; [done|]. cbn [foldl].
  transitivity (l_trace (log_step s ev)); [apply log_step_trace|apply IH].
Qed.

Lemma no_missing_prefix tr tr' : tr `prefix_of` tr' → no_missing_put tr' → no_missing_put tr.
Proof. intros [l ->] Hm c k v ver o Hin. apply (Hm c k v ver o), elem_of_app. by left. Qed.

Lemma log_steps_inv evs n s lin own :
  log_inv n s lin own → 0 ≤ n → n + glen evs < 2 ^ 64 → no_missing_put (foldl log_step s evs).(l_trace) →
  ∃ lin' own', log_inv (n + glen evs) (foldl log_step s evs) lin' own'.
Proof.
  revert n s lin own. induction evs as [|ev evs IH]; intros n s lin own Hinv Hn0 Hn Hmiss; cbn [foldl] in *.
  { exists lin, own. by rewrite glen_nil, Z.add_0_r. }
  rewrite glen_cons in *. pose proof (glen_nonneg evs).
  destruct (log_step_inv n s lin own ev Hinv Hn0) as (lin1 & own1 & Hinv1); [lia| |].
  { eapply no_missing_prefix, Hmiss. apply log_steps_trace. }
  replace (n + (1 + glen evs)) with (n + 1 + glen evs) by lia. apply (IH _ _ lin1 own1); [done|lia|lia|done].
Qed.

Lemma log_init_inv now : log_inv 0 (log_init now) [] ∅.
Proof. constructor; try done; (apply sys_init_inv || constructor). Qed.

(** ** The finished log *)

Definition op_Key (o : Operation) : string := o.(op_Input).(in_Key).

Lemma group_app l l' : group (l ++ l') = foldl (λ m v, <[op_Key v := default [] (m !! op_Key v) ++ [v]]> m) (group l) l'.
Proof. unfold group. by rewrite foldl_app. Qed.

Lemma group_lookup l k : default [] (group l !! k) = filter (λ o, op_Key o = k) l.
Proof.
  induction l as [|o l IH] using rev_ind; [done|].
  rewrite group_app, filter_app. cbn [foldl]. rewrite lookup_insert, filter_cons, filter_nil. case_decide as Hk.
  - subst k. cbn. by rewrite IH.
  - by rewrite app_nil_r.
Qed.

(** It is enough to order the whole history once. *)
Lemma lin_history_intro history h :
  h ≡ₚ history → in_order h → (∀ k, legal (filter (λ o, op_Key o = k) h)) → lin_history history.
Proof.
  intros Hp Ho Hlegal. unfold lin_history, Partition. apply Forall_forall. intros part.
  intros (k & -> & Hk)%list_elem_of_fmap. clear Hk. exists (filter (λ o, op_Key o = k) h). split; [|split; [|done]].
  - rewrite group_lookup. by rewrite Hp.
  - unfold in_order in *. clear -Ho. induction Ho as [|o h _ IH Hall]; [constructor|].
    rewrite filter_cons. case_decide; [|done]. constructor; [done|].
    rewrite Forall_forall in *. intros o' [_ Ho']%list_elem_of_filter. by apply Hall.
Qed.

Lemma key_history_effects k tr :
  key_history k tr = (λ e, (to_input e.1, e.2)) <$> filter (λ e, (to_input e.1).(in_Key) = k) (effects tr).
Proof.
  unfold key_history, effects. induction tr as [|[c op|c op out|c out] tr IH]; cbn; try done.
  case_decide; cbn; by rewrite IH.
Qed.

(** The operations of a list of finished records. *)
Lemma finals_spec lin :
  Forall rec_final lin → Forall (λ r, is_Some r.(lr_final)) lin → StronglySorted Z.le (lr_time <$> lin) →
  let ops := omap lr_final lin in
  in_order ops ∧
  ∀ k, (λ o, (o.(op_Input), o.(op_Output))) <$> filter (λ o, op_Key o = k) ops =
    (λ e, (to_input e.1, e.2)) <$> filter (λ e, (to_input e.1).(in_Key) = k) ((λ r, (r.(lr_op), r.(lr_out))) <$> lin).
Proof.
  induction lin as [|r lin IH]; intros Hfin Hsome Hsort; cbn; [by split; [constructor|]|].
  apply Forall_cons in Hfin as [Hr Hfin]. apply Forall_cons in Hsome as [[o Ho] Hsome]. rewrite Ho.
  apply StronglySorted_inv in Hsort as [Hsort Hle]. destruct (IH Hfin Hsome Hsort) as [Hord Hops].
  destruct (Hr o Ho) as (Hin & Hout & Hcall & Hret). split.
  - constructor; [done|]. apply Forall_forall. intros o' (r' & Hr' & Ho')%list_elem_of_omap.
    rewrite Forall_forall in Hfin. rewrite List.Forall_forall in Hle. destruct (Hfin r' Hr' o' Ho') as (_ & _ & _ & Hret').
    specialize (Hle (lr_time r') ltac:(by apply list_elem_of_In, list_elem_of_fmap_2)). unfold precedes. lia.
  - intros k. assert (op_Key o = in_Key (to_input (lr_op r))) as Hk by (unfold op_Key; by rewrite Hin).
    rewrite !filter_cons. cbn [fst]. repeat case_decide; try congruence; [|apply Hops].
    rewrite !fmap_cons, Hops. cbn. by rewrite Hin, Hout.
Qed.

(** The log of a run in which no client is left in [Get] or [Put] is
    linearizable. *)
Lemma log_linearizable now evs :
  let s := log_run now evs in
  glen evs < 2 ^ 64 → no_missing_put s.(l_trace) → s.(l_phase) = ∅ → lin_history s.(l_oplog).
Proof.
  intros s Hlen Hmiss Hph.
  destruct (log_steps_inv evs 0 (log_init now) [] ∅ (log_init_inv now)) as (lin & own & Hinv); [lia|lia|done|].
  change (foldl log_step (log_init now) evs) with s in Hinv. destruct Hinv as [Hs He Hsort Hpast Hfin Hl Hphase Ho Hp].
  assert (own = ∅) as ->.
  { apply map_eq. intros c. rewrite lookup_empty. destruct (own !! c) as [i|] eqn:Hi; [|done].
    destruct (Ho _ _ Hi) as (r & Hr & _). specialize (Hphase c). rewrite Hph, lookup_empty, Hi in Hphase. cbn in Hphase.
    destruct Hphase. congruence. }
  assert (Forall (λ r, is_Some r.(lr_final)) lin) as Hsome.
  { apply Forall_lookup. intros i r Hr. destruct (lr_final r) as [o|] eqn:Hf; [by eexists|].
    specialize (Hp _ _ Hr Hf). by rewrite lookup_empty in Hp. }
  destruct (finals_spec lin Hfin Hsome Hsort) as [Hord Hops].
  apply (lin_history_intro _ (omap lr_final lin)); [done|done|].
  intros k. unfold legal. rewrite Hops, <-He, <-key_history_effects, (si_history _ _ _ Hs). by eexists.
Qed.
