(* ===== verification/KvTest.v ===== *)
(** * The key/value test harness: [kvtest1/kvtest.go] and [kvtest1/porcupine.go]

    The clients of the tests over the clerk interface [IKVClerk], the log of
    operations they keep for the linearizability checker, and the checks of
    the final values. A [ts.Fatalf] is [Fatal]; a client loop that runs until
    it is told to stop takes its number of iterations as fuel. *)

From S2P Require Import Prelude KvServer.

(** ** Interfaces *)

(** [IKVClerk], and the clock its callers read: a clerk is a state that
    answers calls. *)
Class IKVClerk (CK : Type) := {
  ck_Get : string → CK → (string * Z * Err) * CK;
  ck_Put : string → string → Z → CK → Err * CK;
  ck_now : CK → Z;
}.

(** [encoding/json] for one type of values. *)
Class Json (A : Type) := {
  Marshal : A → option string;
  Unmarshal : string → option A;
}.

Record ClntRes := mkClntRes { Nok : Z; Nmaybe : Z }.
Record EntryV := mkEntryV { ev_Id : Z; ev_V : Z }.
Record EntryN := mkEntryN { en_Id : Z; en_N : Z }.

(** The clerk, the operation log and the operation counter of a test. *)
Record World {CK : Type} := mkWorld {
  w_ck : CK; w_oplog : list KvModel.Operation; w_ops : Z;
}.
Arguments World : clear implicits.
Arguments mkWorld {CK}.

Section kvtest.
Context {CK : Type} `{IKVClerk CK}.
Implicit Types w : World CK.

(** ** [porcupine.go]: operations that log themselves *)

Definition Append (op : KvModel.Operation) (l : list KvModel.Operation) := l ++ [op].

(** The function [Get] and the method [Test.Get]. *)
Definition Get (key : string) (cli : Z) w : (string * Z * Err) * World CK :=
  let start := ck_now w.(w_ck) in
  let '(val, ver, err, ck) := ck_Get key w.(w_ck) in
  let end_ := ck_now ck in
  ((val, ver, err),
   mkWorld ck (Append (KvModel.mkOperation (mkKvInput 0 key "" 0) (mkKvOutput val ver err)
                         start end_ cli) w.(w_oplog)) (w.(w_ops) + 1)).

(** [inc]: the function [Put] counts the operation, the method does not. *)
Definition Put_ (inc : Z) (key value : string) (version cli : Z) w : Err * World CK :=
  let start := ck_now w.(w_ck) in
  let '(err, ck) := ck_Put key value version w.(w_ck) in
  let end_ := ck_now ck in
  (err,
   mkWorld ck (Append (KvModel.mkOperation (mkKvInput 1 key value version) (mkKvOutput "" 0 err)
                         start end_ cli) w.(w_oplog)) (w.(w_ops) + inc)).
Definition Put := Put_ 1.
Definition TestPut := Put_ 0.

(** ** [kvtest.go]: clients *)

(** [PutAtLeastOnce]; [Some] once the loop breaks. *)
Fixpoint PutAtLeastOnce (fuel : nat) (key value : string) (ver me : Z) w :
    go (option Z * World CK) :=
  match fuel with
  | O => Ret (None, w)
  | S fuel =>
    let '(err, w) := TestPut key value ver me w in
    if bool_decide (err = OK) then Ret (Some (u64 (ver + 1)), w)
    else if bool_decide (err = ErrMaybe) || bool_decide (err = ErrVersion)
    then PutAtLeastOnce fuel key value (u64 (ver + 1)) me w
    else if negb (ver =? 0) then Fatal
    else PutAtLeastOnce fuel key value ver me w
  end.

Definition CheckGet (key value : string) (version : Z) w : go (World CK) :=
  let '(val, ver, err, w) := Get key 0 w in
  if negb (bool_decide (err = OK)) then Fatal
  else if negb (bool_decide (val = value)) || negb (ver =? version) then Fatal
  else Ret w.

Definition GetJson {A} `{Json A} (key : string) (me : Z) w : go (A * Z * World CK) :=
  let '(val, ver, err, w) := Get key me w in
  if bool_decide (err = OK) then
    match Unmarshal val with None => Fatal | Some v => Ret (v, ver, w) end
  else Fatal.

Definition PutJson {A} `{Json A} (key : string) (v : A) (ver me : Z) w : go (Err * World CK) :=
  match Marshal v with
  | None => Fatal
  | Some b => Ret (Put key b ver me w)
  end.

(** The code puts version 0 whatever [ver] is. *)
Fixpoint PutAtLeastOnceJson {A} `{Json A} (fuel : nat) (key : string) (value : A) (ver me : Z) w :
    go (option Z * World CK) :=
  match fuel with
  | O => Ret (None, w)
  | S fuel =>
    '(err, w) ← PutJson key value 0 me w;
    if negb (bool_decide (err = ErrMaybe)) then Ret (Some ver, w)
    else PutAtLeastOnceJson fuel key value (u64 (ver + 1)) me w
  end.

(** One iteration of [OnePut]: what it returns, or the version to retry. *)
Definition OnePut_iter `{Json EntryV} (me : Z) (key : string) (ver : Z) w :
    go ((Z * bool + Z) * World CK) :=
  '(err, w) ← PutJson key (mkEntryV me ver) ver me w;
  if negb (bool_decide (err = OK) || bool_decide (err = ErrVersion) || bool_decide (err = ErrMaybe))
  then Fatal
  else
    '(e, ver0, w) ← GetJson (A := EntryV) key me w;
    if bool_decide (err = OK) && (ver0 =? u64 (ver + 1)) &&
       negb (e.(ev_Id) =? me) && negb (e.(ev_V) =? ver)
    then Fatal
    else if bool_decide (err = OK) || bool_decide (err = ErrMaybe)
    then Ret (inl (ver0, bool_decide (err = OK)), w)
    else Ret (inr ver0, w).

Fixpoint OnePut `{Json EntryV} (fuel : nat) (me : Z) (key : string) (ver : Z) w :
    go (option (Z * bool) * World CK) :=
  match fuel with
  | O => Ret (None, w)
  | S fuel =>
    '(r, w) ← OnePut_iter me key ver w;
    match r with
    | inl res => Ret (Some res, w)
    | inr ver => OnePut fuel me key ver w
    end
  end.

(** [OneClientPut]: rounds of [OnePut] before the done signal, on keys
    chosen by the random numbers [picks], with the last version per key. *)
Fixpoint OneClientPut `{Json EntryV} (picks : list Z) (fuel : nat) (randomkeys : bool) (cli : Z)
    (ka : list string) (verm : gmap string Z) (res : ClntRes) w :
    go (option ClntRes * World CK) :=
  match picks with
  | [] => Ret (Some res, w)
  | r :: picks =>
    k ← gidx ka (if randomkeys then r mod glen ka else 0);
    '(o, w) ← OnePut fuel cli k (default 0 (verm !! k)) w;
    match (o : option (Z * bool)) with
    | None => Ret (None, w)
    | Some (ver, ok) =>
      OneClientPut picks fuel randomkeys cli ka (<[k := ver]> verm)
        (if ok then mkClntRes (res.(Nok) + 1) res.(Nmaybe)
         else mkClntRes res.(Nok) (res.(Nmaybe) + 1)) w
    end
  end.

(** [OneClientAppend]'s inner loop: append [(me, i)] to the list at "k". *)
Fixpoint append_entry `{Json (list EntryN)} (fuel : nat) (me i : Z) (res : ClntRes) w :
    go (option ClntRes * World CK) :=
  match fuel with
  | O => Ret (None, w)
  | S fuel =>
    '(es, ver, w) ← GetJson (A := list EntryN) "k" me w;
    '(err, w) ← PutJson "k" (es ++ [mkEntryN me i]) ver me w;
    if bool_decide (err = OK) then Ret (Some (mkClntRes (res.(Nok) + 1) res.(Nmaybe)), w)
    else if bool_decide (err = ErrMaybe)
    then Ret (Some (mkClntRes res.(Nok) (res.(Nmaybe) + 1)), w)
    else append_entry fuel me i res w
  end.

(** [n] rounds of [OneClientAppend] before the done signal. *)
Fixpoint OneClientAppend `{Json (list EntryN)} (n fuel : nat) (me i : Z) (res : ClntRes) w :
    go (option ClntRes * World CK) :=
  match n with
  | O => Ret (Some res, w)
  | S n =>
    '(r, w) ← append_entry fuel me i res w;
    match r with
    | None => Ret (None, w)
    | Some res => OneClientAppend n fuel me (i + 1) res w
    end
  end.
End kvtest.

(** ** Checks *)

Definition CheckPutConcurrent (rs : list ClntRes) (res : ClntRes) (ver0 : Z) (reliable : bool) :
    go ClntRes :=
  let res := foldl (λ res r, mkClntRes (res.(Nok) + r.(Nok)) (res.(Nmaybe) + r.(Nmaybe))) res rs in
  if reliable then if negb (ver0 =? u64 res.(Nok)) then Fatal else Ret res
  else if u64 (res.(Nok) + res.(Nmaybe)) <? ver0 then Fatal else Ret res.

(** Go's zero value for an absent key of a [map[int]int]. *)
Definition mget (m : gmap Z Z) (k : Z) : Z := default 0 (m !! k).

Definition CheckAppends_entry (st : gmap Z Z * gmap Z Z) (e : EntryN) : go (gmap Z Z * gmap Z Z) :=
  let '(expect, skipped) := st in
  let x := mget expect e.(en_Id) in
  if e.(en_N) <? x then Fatal
  else if x =? e.(en_N) then Ret (<[e.(en_Id) := x + 1]> expect, skipped)
  else Ret (<[e.(en_Id) := e.(en_N) + 1]> expect,
            <[e.(en_Id) := mget skipped e.(en_Id) + (e.(en_N) - x)]> skipped).

Definition CheckAppends_client (skipped : gmap Z Z) (rs : list ClntRes) (cn : Z * Z) : go unit :=
  let '(c, n) := cn in
  r ← gidx rs c;
  if r.(Nmaybe) <? mget skipped c then Fatal
  else if r.(Nok) + r.(Nmaybe) <? n then Fatal
  else Ret tt.

Definition CheckAppends (es : list EntryN) (nclnt : Z) (rs : list ClntRes) (ver : Z) : go unit :=
  let zero := foldl (λ m i, <[i := 0]> m) ∅ (range nclnt) in
  '(expect, skipped) ← foldM CheckAppends_entry (zero, zero) es;
  if negb (glen es + 1 =? ver) then Fatal
  else foldM (λ _ cn, CheckAppends_client skipped rs cn) tt (map_to_list expect).

(** ** Workloads *)

(** [SpreadPutsSize]: one unlogged put of each random value [va], then a get
    of each. *)
Definition SpreadPuts `{IKVClerk CK} (kvs : list (string * string)) (w : World CK) : go (World CK) :=
  let w := foldl (λ w kv, mkWorld (ck_Put kv.1 kv.2 0 w.(w_ck)).2 w.(w_oplog) w.(w_ops)) w kvs in
  foldM (λ w kv, CheckGet kv.1 kv.2 1 w) w kvs.

Definition MakeKeys (n : Z) : list string := (λ i : Z, "k" +:+ pretty i) <$> range n.

(** [Partitioner]'s split, from the coin tosses [a]. *)
Definition split_by (a : list Z) : list (list Z) :=
  (λ i : Z, filter (λ j, a.[j] = Some i) (range (glen a))) <$> [0; 1].

(** ** What [CheckAppends] accepts *)

(** The counters a client appended, in order. *)
Definition counters (c : Z) (es : list EntryN) : list Z :=
  en_N <$> filter (λ e, e.(en_Id) = c) es.

(** Strictly ascending, starting at [x] or above. *)
Fixpoint ascending (x : Z) (l : list Z) : Prop :=
  match l with [] => True | n :: l => x ≤ n ∧ ascending (n + 1) l end.

(** One past the last counter. *)
Definition next_from (x : Z) (l : list Z) : Z := foldl (λ _ n, n + 1) x l.

Lemma counters_cons c e es :
  counters c (e :: es) = if decide (e.(en_Id) = c) then e.(en_N) :: counters c es else counters c es.
Proof. unfold counters. rewrite filter_cons. by case_decide. Qed.

Lemma mget_insert m k v c : mget (<[k := v]> m) c = if decide (k = c) then v else mget m c.
Proof. unfold mget. rewrite lookup_insert. by case_decide. Qed.

Definition spec_entries (es : list EntryN) (st st' : gmap Z Z * gmap Z Z) : Prop :=
  (∀ c, mget st'.1 c = next_from (mget st.1 c) (counters c es)) ∧
  (∀ c, mget st'.2 c = mget st.2 c + (mget st'.1 c - mget st.1 c - glen (counters c es))) ∧
  (∀ c, is_Some (st'.1 !! c) ↔ is_Some (st.1 !! c) ∨ c ∈ en_Id <$> es).

Lemma CheckAppends_entry_spec st e :
  mget st.1 e.(en_Id) ≤ e.(en_N) → returns (CheckAppends_entry st e) (spec_entries [e] st).
Proof.
  destruct st as [expect skipped]. unfold CheckAppends_entry. cbn [fst]. intros Hle.
  case_if; [lia|].
  assert (∀ c, counters c [e] = if decide (e.(en_Id) = c) then [e.(en_N)] else []) as Hc
    by (intros; by rewrite counters_cons).
  assert (∀ (m : gmap Z Z) v c, is_Some (<[e.(en_Id) := v]> m !! c) ↔
    is_Some (m !! c) ∨ c ∈ en_Id <$> [e]) as Hdom.
  { intros m v c. rewrite lookup_insert_is_Some. simpl. rewrite list_elem_of_singleton.
    destruct (decide (en_Id e = c)); naive_solver. }
  case_if; apply returns_Ret; (split; [|split]); cbn [fst snd]; intros c;
    rewrite ?Hc, ?mget_insert; try apply Hdom.
  all: case_decide; subst; simpl; rewrite ?glen_cons, ?glen_nil; lia.
Qed.

Lemma next_from_app x l l' : next_from x (l ++ l') = next_from (next_from x l) l'.
Proof. unfold next_from. by rewrite foldl_app. Qed.

Lemma CheckAppends_entries es st :
  (∀ c, ascending (mget st.1 c) (counters c es)) →
  returns (foldM CheckAppends_entry st es) (spec_entries es st).
Proof.
  revert st. induction es as [|e es IH]; intros st Hasc; cbn [foldM].
  { apply returns_Ret. split; [done|]. split; intros c; simpl.
    - unfold glen. simpl. lia.
    - rewrite elem_of_nil. tauto. }
  pose proof (Hasc e.(en_Id)) as He. rewrite counters_cons, decide_True in He by done.
  destruct He as [He _]. eapply returns_bind; [by apply CheckAppends_entry_spec|].
  intros st1 (Hx & Hs & Hd). eapply returns_mono; [apply IH|].
  - intros c. rewrite Hx, !counters_cons. specialize (Hasc c). rewrite counters_cons in Hasc.
    case_decide; [apply Hasc|done].
  - intros st2 (Hx2 & Hs2 & Hd2). split; [|split]; intros c.
    + rewrite Hx2, Hx, !counters_cons. case_decide; done.
    + specialize (Hs2 c). specialize (Hs c). rewrite counters_cons in Hs |- *.
      case_decide; cbn in Hs; rewrite ?glen_cons, ?glen_nil in *; lia.
    + rewrite Hd2, Hd, !fmap_cons, !elem_of_cons, elem_of_nil. tauto.
Qed.

(** Conversely, only ascending counters pass. *)
Lemma CheckAppends_entries_inv es st st' :
  foldM CheckAppends_entry st es = Ret st' → ∀ c, ascending (mget st.1 c) (counters c es).
Proof.
  revert st. induction es as [|e es IH]; intros st Hr c; [done|]. cbn [foldM] in Hr.
  apply bind_Ret_inv in Hr as (st1 & He & Hr).
  assert (mget st.1 e.(en_Id) ≤ e.(en_N)) as Hle.
  { unfold CheckAppends_entry in He. destruct st as [expect skipped]. simpl. revert He.
    case_if; [done|]. intros _. lia. }
  destruct (CheckAppends_entry_spec st e Hle) as (st1' & He' & Hx & _ & _).
  rewrite He in He'. injection He' as <-. specialize (IH _ Hr c). specialize (Hx c).
  rewrite counters_cons in *. case_decide as Hc; rewrite Hx in IH; simpl in IH; [|done].
  subst c. done.
Qed.

Lemma foldM_unit {A} (f : A → go unit) l :
  foldM (λ _ x, f x) tt l = Ret tt ↔ ∀ x, x ∈ l → f x = Ret tt.
Proof.
  induction l as [|x l IH]; simpl; [set_solver|]. split.
  - intros Hr. apply bind_Ret_inv in Hr as ([] & Hx & Hr). rewrite IH in Hr.
    intros y [->|?]%elem_of_cons; auto.
  - intros Hall. rewrite (Hall x) by left. simpl. apply IH. intros y ?. apply Hall. by right.
Qed.

Definition zeros (n : Z) : gmap Z Z := foldl (λ m i, <[i := 0]> m) ∅ (range n).

Lemma foldl_zeros (l : list Z) (m : gmap Z Z) c :
  foldl (λ m i, <[i := 0]> m) m l !! c = if decide (c ∈ l) then Some 0 else m !! c.
Proof.
  revert m. induction l as [|i l IH]; intros m; cbn [foldl].
  { by rewrite decide_False by apply not_elem_of_nil. }
  rewrite IH, lookup_insert. repeat case_decide; set_solver.
Qed.

Lemma mget_zeros n c : mget (zeros n) c = 0.
Proof. unfold mget, zeros. rewrite foldl_zeros, lookup_empty. by case_decide. Qed.

(** The tests' notion of a good history of appends: for each client the
    counters ascend from 0, the number of counters skipped is explained by
    calls that returned [ErrMaybe], and the last one by calls made. *)
Definition client_ok (es : list EntryN) (rs : list ClntRes) (c : Z) : Prop :=
  ∃ r, rs.[c] = Some r ∧
    next_from 0 (counters c es) - glen (counters c es) ≤ r.(Nmaybe) ∧
    next_from 0 (counters c es) ≤ r.(Nok) + r.(Nmaybe).

Lemma CheckAppends_client_Ret skipped rs c n :
  CheckAppends_client skipped rs (c, n) = Ret tt ↔
  ∃ r, rs.[c] = Some r ∧ mget skipped c ≤ r.(Nmaybe) ∧ n ≤ r.(Nok) + r.(Nmaybe).
Proof.
  unfold CheckAppends_client. rewrite gidx_zlookup. destruct rs.[c] as [r|]; simpl.
  - split.
    + case_if; [done|]. case_if; [done|]. intros _. exists r. split_and!; [done|lia|lia].
    + intros (r' & [= <-] & ? & ?). by repeat (case_if; [lia|]).
  - split; [done|]. by intros (? & ? & _).
Qed.

(** [CheckAppends] accepts exactly the good histories: every client's
    counters ascend, every append is one version, and every client that was
    started or appears has its skipped and total counters accounted for;
    anything else ends the test. *)
Theorem CheckAppends_spec es nclnt rs ver :
  CheckAppends es nclnt rs ver = Ret tt ↔
    (∀ c, ascending 0 (counters c es)) ∧ glen es + 1 = ver ∧
    (∀ c, 0 ≤ c < nclnt ∨ c ∈ en_Id <$> es → client_ok es rs c).
Proof.
  unfold CheckAppends. fold (zeros nclnt). cbv zeta.
  assert (∀ st, spec_entries es (zeros nclnt, zeros nclnt) st →
    foldM (λ _ cn, CheckAppends_client st.2 rs cn) tt (map_to_list st.1) = Ret tt ↔
    (∀ c, 0 ≤ c < nclnt ∨ c ∈ en_Id <$> es → client_ok es rs c)) as Hclients.
  { intros [expect skipped] (Hx & Hs & Hd). rewrite foldM_unit. cbn [fst snd] in *.
    assert (∀ c, is_Some (expect !! c) ↔ 0 ≤ c < nclnt ∨ c ∈ en_Id <$> es) as Hdom.
    { intros c. rewrite Hd. unfold zeros. rewrite foldl_zeros, lookup_empty.
      rewrite <-elem_of_range. case_decide; rewrite ?is_Some_alt; naive_solver. }
    assert (∀ c n, expect !! c = Some n →
      CheckAppends_client skipped rs (c, n) = Ret tt ↔ client_ok es rs c) as Hone.
    { intros c n Hn. rewrite CheckAppends_client_Ret. unfold client_ok.
      assert (n = next_from 0 (counters c es)) as ->.
      { rewrite <-(mget_zeros nclnt c), <-Hx. unfold mget. by rewrite Hn. }
      assert (mget skipped c = next_from 0 (counters c es) - glen (counters c es)) as ->; [|done].
      rewrite Hs, Hx, !mget_zeros. lia. }
    split.
    - intros Hall c [n Hn]%Hdom. apply (Hone _ _ Hn), Hall, elem_of_map_to_list, Hn.
    - intros Hall [c n] Hn%elem_of_map_to_list. apply (Hone _ _ Hn), Hall, Hdom. by eexists. }
  split.
  - intros Hr. apply bind_Ret_inv in Hr as (st & He & Hr).
    pose proof (CheckAppends_entries_inv _ _ _ He) as Hasc. cbn [fst] in Hasc.
    destruct (CheckAppends_entries es (zeros nclnt, zeros nclnt) Hasc) as (st' & He' & Hspec).
    rewrite He in He'. injection He' as <-. destruct st as [expect skipped].
    revert Hr. case_if; [done|]. apply negb_false_iff, Z.eqb_eq in E. intros Hr.
    split; [intros c; by rewrite <-(mget_zeros nclnt c)|]. split; [done|].
    by apply (Hclients (expect, skipped)).
  - intros (Hasc & Hlen & Hall).
    destruct (CheckAppends_entries es (zeros nclnt, zeros nclnt)) as (st & -> & Hspec).
    { intros c. cbn [fst]. by rewrite mget_zeros. }
    destruct st as [expect skipped]. simpl. rewrite (proj2 (Z.eqb_eq _ _) Hlen). simpl.
    by apply (Hclients (expect, skipped)).
Qed.
