(* ===== verification/KvClients.v ===== *)
(** * Spawning clients and waiting for them: [SpawnClientsAndWait]

    [kvtest1/kvtest.go] runs each client in a goroutine of its own, sleeps, sends
    one signal per client on the one channel [done], and then receives each
    client's result on a channel of that client's. All channels are unbuffered.
    A client is a loop around [select]: it takes the signal if the test is
    blocked sending it at that moment, and otherwise goes on with its work. A
    run is any sequence of steps of these goroutines. *)

From S2P Require Import Prelude KvServer KvTest.

(** ** Clients *)

(** An [Fclnt], and the maker of its clerk: [MakeClerk] brings client [me] to
    the first [select]; [at_select] is what the client would return if it is at
    its [select]; [work] is a step of anything else it does, on the world it
    shares with the other clients, and may end the goroutine ([ts.Fatalf]). *)
Class Fclnt (L W : Type) := {
  MakeClerk : Z → W → L * W;
  at_select : L → option ClntRes;
  work : Z → L → W → option L * W;
  DeleteClerk : Z → W → W;
}.

(** A client before its goroutine is started; started; in [fn]; blocked on
    [ca <- v]; about to delete its clerk; finished; ended by a failure. *)
Inductive Client {L : Type} :=
  | CNot | CStart | CRun (l : L) | CSend (v : ClntRes) | CDelete (v : ClntRes) | CGone (v : ClntRes) | CDead.
Arguments Client : clear implicits.

(** The test's goroutine: the loop that starts the clients; asleep; about to
    send the [i]-th signal; blocked sending it; the loop that receives the
    results; returned. *)
Inductive Main :=
  | MSpawn (k : Z) | MSleep | MSignal (i : Z) | MParked (i : Z) | MCollect (j : Z) (rs : list ClntRes)
  | MDone (rs : list ClntRes).

Record Spawn {L W : Type} := mkSpawn { sp_main : Main; sp_clients : list (Client L); sp_world : W }.
Arguments Spawn : clear implicits.
Arguments mkSpawn {L W}.

(** A step: of the test's goroutine, alone or receiving a result; of client
    [c]: to start, to take the signal, to take the default branch of its
    [select], to work on inside it, to delete its clerk. *)
Inductive Label := LMain | LStart (c : Z) | LDone (c : Z) | LDefault (c : Z) | LWork (c : Z) | LDelete (c : Z).

#[export] Instance Label_eq_dec : EqDecision Label.
Proof. solve_decision. Defined.

Section spawn.
Context {L W : Type} `{Fclnt L W}.
Implicit Types (s : Spawn L W) (cls : list (Client L)) (c n : Z).

Definition set_client c (cl : Client L) s : Spawn L W :=
  mkSpawn s.(sp_main) (<[Z.to_nat c := cl]> s.(sp_clients)) s.(sp_world).
Definition set_main (m : Main) s : Spawn L W := mkSpawn m s.(sp_clients) s.(sp_world).

Definition main_step s : option (Spawn L W) :=
  let n := glen s.(sp_clients) in
  match s.(sp_main) with
  | MSpawn k => if k <? n then Some (set_main (MSpawn (k + 1)) (set_client k CStart s)) else Some (set_main MSleep s)
  | MSleep => Some (set_main (MSignal 0) s)
  | MSignal i => if i <? n then Some (set_main (MParked i) s) else Some (set_main (MCollect 0 []) s)
  | MParked _ => None
  | MCollect j rs =>
    if j <? n then
      match s.(sp_clients).[j] with
      | Some (CSend v) => Some (set_main (MCollect (j + 1) (rs ++ [v])) (set_client j (CDelete v) s))
      | _ => None
      end
    else Some (set_main (MDone rs) s)
  | MDone _ => None
  end.

(** [runClient]'s work outside its [select]: the goroutine ends if the work
    fails the test. *)
Definition client_work c (l : L) s : Spawn L W :=
  let '(l, w) := work c l s.(sp_world) in
  set_client c (match l with Some l => CRun l | None => CDead end) (mkSpawn s.(sp_main) s.(sp_clients) w).

(** [None]: the step is not possible. *)
Definition spawn_step s (lb : Label) : option (Spawn L W) :=
  match lb with
  | LMain => main_step s
  | LStart c =>
    match s.(sp_clients).[c] with
    | Some CStart =>
      let '(l, w) := MakeClerk c s.(sp_world) in
      Some (set_client c (CRun l) (mkSpawn s.(sp_main) s.(sp_clients) w))
    | _ => None
    end
  | LDone c =>
    match s.(sp_main), s.(sp_clients).[c] with
    | MParked i, Some (CRun l) =>
      match at_select l with
      | Some v => Some (set_main (MSignal (i + 1)) (set_client c (CSend v) s))
      | None => None
      end
    | _, _ => None
    end
  | LDefault c =>
    match s.(sp_main), s.(sp_clients).[c] with
    | MParked _, _ => None
    | _, Some (CRun l) => match at_select l with Some _ => Some (client_work c l s) | None => None end
    | _, _ => None
    end
  | LWork c =>
    match s.(sp_clients).[c] with
    | Some (CRun l) => match at_select l with Some _ => None | None => Some (client_work c l s) end
    | _ => None
    end
  | LDelete c =>
    match s.(sp_clients).[c] with
    | Some (CDelete v) => Some (set_client c (CGone v) (mkSpawn s.(sp_main) s.(sp_clients) (DeleteClerk c s.(sp_world))))
    | _ => None
    end
  end.

Definition SpawnClientsAndWait n (w : W) : Spawn L W := mkSpawn (MSpawn 0) (replicate (Z.to_nat n) CNot) w.

(** A run; [None] if it contains a step that is not possible. *)
Definition spawn_run n (w : W) (lbs : list Label) : option (Spawn L W) :=
  foldl (λ o lb, s ← o; spawn_step s lb) (Some (SpawnClientsAndWait n w)) lbs.

(** ** The invariant *)

Definition signalled (cl : Client L) : bool :=
  match cl with CSend _ | CDelete _ | CGone _ => true | _ => false end.
Definition result_of (cl : Client L) : option ClntRes :=
  match cl with CSend v | CDelete v | CGone v => Some v | _ => None end.
Definition dead (cl : Client L) : bool := match cl with CDead => true | _ => false end.

(** Running, or ended by a failure. *)
Definition started (cl : Client L) : Prop := match cl with CStart | CRun _ | CDead => True | _ => False end.
Definition unsent (cl : Client L) : Prop := match cl with CStart | CRun _ | CDead | CSend _ => True | _ => False end.

Definition main_ok (m : Main) cls : Prop :=
  match m with
  | MSpawn k => 0 ≤ k ≤ glen cls ∧ ∀ i cl, cls.[i] = Some cl → if i <? k then started cl else cl = CNot
  | MSleep => ∀ i cl, cls.[i] = Some cl → started cl
  | MSignal i => 0 ≤ i ≤ glen cls ∧ countb signalled cls = i ∧ ∀ c cl, cls.[c] = Some cl → unsent cl
  | MParked i => 0 ≤ i < glen cls ∧ countb signalled cls = i ∧ ∀ c cl, cls.[c] = Some cl → unsent cl
  | MCollect j rs => 0 ≤ j ≤ glen cls ∧ glen rs = j ∧
      ∀ c cl, cls.[c] = Some cl →
        if c <? j then ∃ v, rs.[c] = Some v ∧ (cl = CDelete v ∨ cl = CGone v) else ∃ v, cl = CSend v
  | MDone rs => glen rs = glen cls ∧
      ∀ c cl, cls.[c] = Some cl → ∃ v, rs.[c] = Some v ∧ (cl = CDelete v ∨ cl = CGone v)
  end.
Definition spawn_inv s : Prop := main_ok s.(sp_main) s.(sp_clients).

(** ** Every step preserves the invariant *)

Lemma lookup_set c cl s i : 
  0 ≤ c < glen s.(sp_clients) → (set_client c cl s).(sp_clients).[i] = if decide (c = i) then Some cl else s.(sp_clients).[i].
Proof. intros Hc. cbn. by apply zlookup_insert. Qed.

(** A client that is not past its signal and changes to another such state,
    not before it was started. *)
Lemma main_ok_running m cls c cl cl' :
  main_ok m cls → cls.[c] = Some cl → started cl → started cl' →
  main_ok m (<[Z.to_nat c := cl']> cls).
Proof.
  intros Hm Hc Hcl Hcl'. pose proof (zlookup_lt_Some _ _ _ Hc) as Hb.
  assert (∀ i x, (<[Z.to_nat c := cl']> cls).[i] = Some x → i = c ∧ x = cl' ∨ cls.[i] = Some x) as Hlook.
  { intros i x. rewrite zlookup_insert by done. case_decide; [intros [= <-]; left; by subst|by right]. }
  assert (unsent cl') as Hun by by destruct cl'.
  assert (countb signalled (<[Z.to_nat c := cl']> cls) = countb signalled cls) as Hcount.
  { rewrite (countb_insert _ _ _ _ _ Hc). destruct cl, cl'; cbn in *; done || lia. }
  destruct m as [k| |i|i|j rs|rs]; cbn [main_ok] in *; rewrite ?glen_insert, ?Hcount.
  - destruct Hm as [Hk Hm]. split; [done|]. intros i x [[-> ->]|Hi]%Hlook; [|by apply Hm].
    specialize (Hm c cl Hc). case_if; [done|]. by subst.
  - intros i x [[-> ->]|Hi]%Hlook; [done|by eapply Hm].
  - destruct Hm as (? & ? & Hm). split_and!; try done; try lia. intros i' x [[-> ->]|Hi]%Hlook; [done|by eapply Hm].
  - destruct Hm as (? & ? & Hm). split_and!; try done; try lia. intros i' x [[-> ->]|Hi]%Hlook; [done|by eapply Hm].
  - destruct Hm as (_ & _ & Hm). specialize (Hm c cl Hc). case_if_in Hm; destruct Hm as [v Hm]; [|by subst].
    destruct Hm as [_ [-> | ->]]; done.
  - destruct Hm as (_ & Hm). destruct (Hm c cl Hc) as (v & _ & [-> | ->]); done.
Qed.

(** A client that deletes its clerk. *)
Lemma main_ok_delete m cls c v :
  main_ok m cls → cls.[c] = Some (CDelete v) → main_ok m (<[Z.to_nat c := CGone v]> cls).
Proof.
  intros Hm Hc. pose proof (zlookup_lt_Some _ _ _ Hc) as Hb.
  assert (∀ i x, (<[Z.to_nat c := CGone v]> cls).[i] = Some x → i = c ∧ x = CGone v ∨ i ≠ c ∧ cls.[i] = Some x) as Hlook.
  { intros i x. rewrite zlookup_insert by done. case_decide; [intros [= <-]; left; by subst|by right]. }
  destruct m as [k| |i|i|j rs|rs]; cbn [main_ok] in *; rewrite ?glen_insert.
  - destruct Hm as [_ Hm]. specialize (Hm c _ Hc). by case_if_in Hm.
  - by specialize (Hm c _ Hc).
  - destruct Hm as (_ & _ & Hm). by specialize (Hm c _ Hc).
  - destruct Hm as (_ & _ & Hm). by specialize (Hm c _ Hc).
  - destruct Hm as (? & ? & Hm). split_and!; try done; try lia. intros i x [[-> ->]|[Hne Hi]]%Hlook; [|by apply Hm].
    specialize (Hm c _ Hc). case_if_in Hm; destruct Hm as [v' Hm]; [|done].
    destruct Hm as (? & [[= <-]|[=]]). exists v. by split; [|right].
  - destruct Hm as (? & Hm). split; [done|]. intros i x [[-> ->]|[Hne Hi]]%Hlook; [|by apply Hm].
    destruct (Hm c _ Hc) as (v' & ? & [[= <-]|[=]]). exists v. by split; [|right].
Qed.

Lemma main_step_inv s s' : spawn_inv s → main_step s = Some s' → spawn_inv s'.
Proof.
  unfold spawn_inv, main_step. destruct s as [m cls w]. cbn [sp_main sp_clients]. intros Hm.
  destruct m as [k| |i|i|j rs|rs]; cbn [main_ok] in Hm; [..|done].
  - destruct Hm as [Hk Hm]. case_if; intros [= <-]; cbn [set_main set_client sp_main sp_clients main_ok].
    + rewrite glen_insert. split; [lia|]. intros i cl. rewrite zlookup_insert by lia. case_decide as Hi.
      * intros [= <-]. subst. case_if; [done|lia].
      * intros Hcl. specialize (Hm i cl Hcl). case_if_in Hm; case_if; done || lia.
    + intros i cl Hcl. specialize (Hm i cl Hcl). apply zlookup_lt_Some in Hcl. case_if_in Hm; [done|lia].
  - intros [= <-]. cbn [set_main sp_main sp_clients main_ok].
    split_and!; [lia|pose proof (glen_nonneg cls); lia| |intros c cl Hcl; specialize (Hm c cl Hcl); by destruct cl].
    pose proof (countb_bounds signalled cls). destruct (Z.eq_dec (countb signalled cls) 0) as [|Hne]; [done|].
    exfalso. assert (∃ c cl, cls.[c] = Some cl ∧ signalled cl = true) as (c & cl & Hcl & Hs).
    { clear Hm. induction cls as [|cl cls IH]; [done|]. rewrite countb_cons in *. destruct (signalled cl) eqn:Hs.
      - by exists 0, cl.
      - destruct IH as (c & cl' & Hcl & ?); [pose proof (countb_bounds signalled cls); lia|lia|]. exists (c + 1), cl'.
        pose proof (zlookup_lt_Some _ _ _ Hcl). rewrite zlookup_cons_pos by lia. by replace (c + 1 - 1) with c by lia. }
    specialize (Hm c cl Hcl). by destruct cl.
  - destruct Hm as (Hi & Hc & Hm). case_if; intros [= <-]; cbn [set_main sp_main sp_clients main_ok].
    + split_and!; try lia. done.
    + split_and!; try done; try apply glen_nonneg. intros c cl Hcl. pose proof (zlookup_lt_Some _ _ _ Hcl).
      case_if; [lia|]. specialize (Hm c cl Hcl).
      assert (signalled cl = true) as Hs by (eapply countb_full; [|done]; lia).
      destruct cl; try done. by eexists.
  - done.
  - destruct Hm as (Hj & Hrs & Hm). case_if; [|intros [= <-]; cbn [set_main sp_main sp_clients main_ok]].
    + destruct (cls.[j]) as [[]|] eqn:Hcl; try done. intros [= <-]. cbn [set_main set_client sp_main sp_clients main_ok].
      rewrite glen_insert. split; [lia|]. split; [rewrite glen_app, glen_cons, glen_nil; lia|].
      intros c cl. rewrite zlookup_insert by lia. case_decide as Hcj.
      * intros [= <-]. subst c. case_if; [|lia]. exists v. split; [|by left].
        rewrite zlookup_app_r by lia. by replace (j - glen rs) with 0 by lia.
      * intros Hc. specialize (Hm c cl Hc). case_if_in Hm; case_if; try lia; [|done].
        destruct Hm as (v' & Hv' & ?). exists v'. split; [|done]. rewrite zlookup_app_l; [done|lia].
    + split; [lia|]. intros c cl Hcl. specialize (Hm c cl Hcl). apply zlookup_lt_Some in Hcl. case_if_in Hm; [done|lia].
Qed.

Lemma spawn_step_inv s lb s' : spawn_inv s → spawn_step s lb = Some s' → spawn_inv s'.
Proof.
  intros Hinv. destruct lb as [|c|c|c|c|c]; cbn [spawn_step].
  - by apply main_step_inv.
  - destruct (s.(sp_clients).[c]) as [[]|] eqn:Hc; try done. destruct (MakeClerk c (sp_world s)) as [l w].
    intros [= <-]. by eapply (main_ok_running _ _ c CStart).
  - destruct s as [m cls w]. cbn [sp_main sp_clients]. unfold spawn_inv in *. cbn [sp_main sp_clients] in Hinv.
    destruct m as [k| |i|i|j rs|rs]; try done. destruct (cls.[c]) as [[| |l| | | |]|] eqn:Hc; try done.
    destruct (at_select l) as [v|]; [|done]. intros [= <-]. cbn [set_main set_client sp_main sp_clients main_ok].
    destruct Hinv as (Hi & Hcount & Hm). rewrite glen_insert, (countb_insert _ _ _ _ _ Hc). cbn [signalled].
    split_and!; try lia. intros i' cl. rewrite zlookup_insert by (by eapply zlookup_lt_Some).
    case_decide; [by intros [= <-]|apply Hm].
  - intros Hs. assert (∃ l, s.(sp_clients).[c] = Some (CRun l) ∧ s' = client_work c l s) as (l & Hc & ->).
    { destruct (sp_main s); try done; destruct (s.(sp_clients).[c]) as [[| |l| | | |]|]; try done;
        destruct (at_select l); try done; injection Hs as <-; by exists l. }
    unfold client_work. destruct (work c l (sp_world s)) as [l' w'].
    eapply (main_ok_running _ _ c (CRun l)); [done..|]. by destruct l'.
  - destruct (s.(sp_clients).[c]) as [[| |l| | | |]|] eqn:Hc; try done. destruct (at_select l); [done|]. intros [= <-].
    unfold client_work. destruct (work c l (sp_world s)) as [l' w'].
    eapply (main_ok_running _ _ c (CRun l)); [done..|]. by destruct l'.
  - destruct (s.(sp_clients).[c]) as [[| | | |v| |]|] eqn:Hc; try done. intros [= <-]. by apply main_ok_delete.
Qed.

(** ** Runs *)

Lemma spawn_run_app n w lbs lbs' :
  spawn_run n w (lbs ++ lbs') = foldl (λ o lb, s ← o; spawn_step s lb) (spawn_run n w lbs) lbs'.
Proof. unfold spawn_run. by rewrite foldl_app. Qed.

Lemma spawn_run_snoc n w lbs lb s :
  spawn_run n w (lbs ++ [lb]) = Some s ↔ ∃ s0, spawn_run n w lbs = Some s0 ∧ spawn_step s0 lb = Some s.
Proof. rewrite spawn_run_app. cbn [foldl]. apply bind_Some. Qed.

(** A property of runs that holds at the start and that every step keeps. *)
Lemma spawn_run_ind n w (P : list Label → Spawn L W → Prop) :
  P [] (SpawnClientsAndWait n w) →
  (∀ lbs s lb s', spawn_run n w lbs = Some s → P lbs s → spawn_step s lb = Some s' → P (lbs ++ [lb]) s') →
  ∀ lbs s, spawn_run n w lbs = Some s → P lbs s.
Proof.
  intros Hinit Hstep lbs. induction lbs as [|lb lbs IH] using rev_ind; intros s Hrun.
  - injection Hrun as <-. done.
  - apply spawn_run_snoc in Hrun as (s0 & Hrun & Hs). by eapply Hstep; [|apply IH|].
Qed.

(** ** Results *)

(** What a step does to the test's goroutine and to the one client it moves. *)
Inductive moves : Label → Main → Main → Z → Client L → Client L → Prop :=
  | mv_spawn k : moves LMain (MSpawn k) (MSpawn (k + 1)) k CNot CStart
  | mv_collect j rs v : moves LMain (MCollect j rs) (MCollect (j + 1) (rs ++ [v])) j (CSend v) (CDelete v)
  | mv_start m c l : moves (LStart c) m m c CStart (CRun l)
  | mv_done i c l v : at_select l = Some v → moves (LDone c) (MParked i) (MSignal (i + 1)) c (CRun l) (CSend v)
  | mv_work lb m c l l' : lb = LDefault c ∨ lb = LWork c →
      moves lb m m c (CRun l) (match l' with Some l' => CRun l' | None => CDead end)
  | mv_delete m c v : moves (LDelete c) m m c (CDelete v) (CGone v).

(** The steps of the test's goroutine alone. *)
Inductive main_moves (n : Z) : Main → Main → Prop :=
  | mm_spawned k : n ≤ k → main_moves n (MSpawn k) MSleep
  | mm_wake : main_moves n MSleep (MSignal 0)
  | mm_park i : i < n → main_moves n (MSignal i) (MParked i)
  | mm_signalled i : n ≤ i → main_moves n (MSignal i) (MCollect 0 [])
  | mm_done j rs : n ≤ j → main_moves n (MCollect j rs) (MDone rs).

Lemma spawn_step_cases s lb s' :
  spawn_inv s → spawn_step s lb = Some s' →
  (lb = LMain ∧ s'.(sp_clients) = s.(sp_clients) ∧ main_moves (glen s.(sp_clients)) s.(sp_main) s'.(sp_main)) ∨
  (∃ c x x', s.(sp_clients).[c] = Some x ∧ s'.(sp_clients) = <[Z.to_nat c := x']> s.(sp_clients) ∧
     moves lb s.(sp_main) s'.(sp_main) c x x').
Proof.
  destruct s as [m cls w]. unfold spawn_inv. cbn [sp_main sp_clients]. intros Hinv.
  assert (∀ lb c l, lb = LDefault c ∨ lb = LWork c → cls.[c] = Some (CRun l) →
    Some (client_work c l (mkSpawn m cls w)) = Some s' →
    ∃ c x x', cls.[c] = Some x ∧ s'.(sp_clients) = <[Z.to_nat c := x']> cls ∧ moves lb m s'.(sp_main) c x x') as Hwork.
  { intros lb' c l Hlb Hc. unfold client_work. destruct (work c l _) as [l' w']. intros [= <-].
    eexists c, (CRun l), _. split; [done|]. split; [done|]. by constructor. }
  destruct lb as [|c|c|c|c|c]; cbn [spawn_step main_step sp_main sp_clients sp_world].
  - unfold main_step. cbn [sp_main sp_clients]. destruct m as [k| |i|i|j rs|rs]; try done.
    + case_if; intros [= <-]; [right|left; by repeat constructor].
      destruct Hinv as [Hk Hinv]. destruct (zlookup_is_Some cls k) as [x Hx]; [lia|]. specialize (Hinv k x Hx).
      case_if_in Hinv; [lia|]. subst x. eexists k, CNot, _. split; [done|]. split; [done|]. constructor.
    + intros [= <-]. left. by repeat constructor.
    + case_if; intros [= <-]; left; by repeat constructor.
    + case_if; [|intros [= <-]; left; by repeat constructor]. destruct (cls.[j]) as [[]|] eqn:Hj; try done.
      intros [= <-]. right. eexists j, _, _. split; [done|]. split; [done|]. constructor.
  - destruct (cls.[c]) as [[]|] eqn:Hc; try done. destruct (MakeClerk c w). intros [= <-]. right.
    eexists c, _, _. split; [done|]. split; [done|]. constructor.
  - destruct m as [k| |i|i|j rs|rs]; try done. destruct (cls.[c]) as [[| |l| | | |]|] eqn:Hc; try done.
    destruct (at_select l) as [v|] eqn:Hv; [|done]. intros [= <-]. right. eexists c, _, _.
    split; [done|]. split; [done|]. by constructor.
  - intros Hs. right. destruct m as [k| |i|i|j rs|rs]; try done;
      destruct (cls.[c]) as [[| |l| | | |]|] eqn:Hc; try done; destruct (at_select l); try done;
      (eapply (Hwork (LDefault c) c l); [by left|done..]).
  - destruct (cls.[c]) as [[| |l| | | |]|] eqn:Hc; try done. destruct (at_select l); [done|]. intros Hs. right.
    eapply (Hwork (LWork c) c l); [by right|done..].
  - destruct (cls.[c]) as [[| | | |v| |]|] eqn:Hc; try done. intros [= <-]. right. eexists c, _, _.
    split; [done|]. split; [done|]. constructor.
Qed.

Lemma spawn_step_length s lb s' : spawn_inv s → spawn_step s lb = Some s' → glen s'.(sp_clients) = glen s.(sp_clients).
Proof.
  intros Hinv Hs. destruct (spawn_step_cases _ _ _ Hinv Hs) as [(_ & -> & _)|(c & x & x' & _ & -> & _)]; [done|].
  apply glen_insert.
Qed.

Lemma spawn_run_inv n w lbs s :
  0 ≤ n → spawn_run n w lbs = Some s → spawn_inv s ∧ glen s.(sp_clients) = n.
Proof.
  intros Hn. revert lbs s. apply spawn_run_ind.
  - unfold spawn_inv. cbn. rewrite glen_replicate. split; [split; [lia|]|lia]. intros i cl Hcl.
    pose proof (zlookup_lt_Some _ _ _ Hcl). case_if; [lia|]. unfold zlookup in Hcl. case_match; [done|].
    by apply lookup_replicate in Hcl as [-> _].
  - intros lbs s lb s' _ [Hinv Hlen] Hs. split; [by eapply spawn_step_inv|]. by rewrite (spawn_step_length _ _ _ Hinv Hs).
Qed.

(** ** Results *)

(** Client [c] took its signal once in the run, and would then have returned [v]. *)
Definition took_signal n (w : W) (lbs : list Label) c (v : ClntRes) : Prop :=
  ∃ lbs1 lbs2 s l, lbs = lbs1 ++ LDone c :: lbs2 ∧ LDone c ∉ lbs1 ++ lbs2 ∧
    spawn_run n w lbs1 = Some s ∧ s.(sp_clients).[c] = Some (CRun l) ∧ at_select l = Some v.

Lemma took_signal_snoc n w lbs lb c v : lb ≠ LDone c → took_signal n w lbs c v → took_signal n w (lbs ++ [lb]) c v.
Proof.
  intros Hlb (lbs1 & lbs2 & s & l & -> & Hnot & Hrest). exists lbs1, (lbs2 ++ [lb]), s, l.
  split; [by rewrite <-app_assoc|]. split; [|done]. rewrite app_assoc, elem_of_app, list_elem_of_singleton.
  intros [?|?]; by try apply Hlb.
Qed.

Lemma moves_result lb m m' c x x' :
  moves lb m m' c x x' →
  (∃ l v, lb = LDone c ∧ x = CRun l ∧ at_select l = Some v ∧ result_of x' = Some v) ∨
  (result_of x' = result_of x ∧ ∀ d, lb ≠ LDone d).
Proof.
  intros Hm. destruct Hm as [k|j rs v|m c l|i c l v Hv|lb m c l l' Hlb|m c v]; try by right.
  - left. by exists l, v.
  - right. split; [by destruct l'|]. by destruct Hlb as [-> | ->].
Qed.

Lemma spawn_results n w lbs s :
  0 ≤ n → spawn_run n w lbs = Some s → ∀ c cl, s.(sp_clients).[c] = Some cl →
  match result_of cl with Some v => took_signal n w lbs c v | None => LDone c ∉ lbs end.
Proof.
  intros Hn. revert lbs s. apply (spawn_run_ind n w (λ lbs s, ∀ c cl, s.(sp_clients).[c] = Some cl →
    match result_of cl with Some v => took_signal n w lbs c v | None => LDone c ∉ lbs end)).
  - intros c cl. cbn. unfold zlookup. case_match; [done|]. intros [-> _]%lookup_replicate. by apply not_elem_of_nil.
  - intros lbs s lb s' Hrun IH Hs c cl Hcl. destruct (spawn_run_inv _ _ _ _ Hn Hrun) as [Hinv _].
    assert ((∀ d, lb ≠ LDone d) → ∀ cl0, s.(sp_clients).[c] = Some cl0 → result_of cl = result_of cl0 →
      match result_of cl with Some v => took_signal n w (lbs ++ [lb]) c v | None => LDone c ∉ lbs ++ [lb] end) as Hkeep.
    { intros Hlb cl0 Hcl0 ->. specialize (IH c cl0 Hcl0). destruct (result_of cl0) as [v|].
      - by apply took_signal_snoc.
      - rewrite elem_of_app, list_elem_of_singleton. intros [?|Heq]; [done|]. by apply (Hlb c). }
    destruct (spawn_step_cases _ _ _ Hinv Hs) as [(-> & Heq & _)|(d & x & x' & Hd & Heq & Hm)].
    { rewrite Heq in Hcl. by apply (Hkeep ltac:(done) cl). }
    rewrite Heq, zlookup_insert in Hcl by (by eapply zlookup_lt_Some).
    destruct (moves_result _ _ _ _ _ _ Hm) as [(l & v & -> & -> & Hv & Hr)|[Hr Hlb]].
    + case_decide as Hdc.
      * injection Hcl as <-. subst d. rewrite Hr. specialize (IH c (CRun l) Hd). cbn in IH.
        exists lbs, [], s, l. rewrite app_nil_r. done.
      * specialize (IH c cl Hcl). assert (LDone d ≠ LDone c) as Hne by congruence. destruct (result_of cl) as [v'|].
        -- by apply took_signal_snoc.
        -- rewrite elem_of_app, list_elem_of_singleton. intros [?|Heq']; [done|]. congruence.
    + case_decide as Hdc; [|by apply (Hkeep Hlb cl)].
      injection Hcl as <-. subst d. by apply (Hkeep Hlb x).
Qed.

(** When [SpawnClientsAndWait] returns, every client has taken exactly one
    signal, at its [select], and the results are the clients' in the clients'
    order: the [c]-th is what client [c] would return at the point of its work
    at which it took its signal. The clients have sent their results, but a
    client may not have deleted its clerk yet. *)
Theorem spawn_collects n w lbs s rs :
  0 ≤ n → spawn_run n w lbs = Some s → s.(sp_main) = MDone rs →
  glen rs = n ∧
  ∀ c, 0 ≤ c < n → ∃ v, rs.[c] = Some v ∧ took_signal n w lbs c v ∧
    (s.(sp_clients).[c] = Some (CDelete v) ∨ s.(sp_clients).[c] = Some (CGone v)).
Proof.
  intros Hn Hrun Hdone. destruct (spawn_run_inv _ _ _ _ Hn Hrun) as [Hinv Hlen].
  unfold spawn_inv in Hinv. rewrite Hdone in Hinv. destruct Hinv as [Hrs Hcls]. split; [lia|].
  intros c Hc. destruct (zlookup_is_Some s.(sp_clients) c) as [cl Hcl]; [lia|].
  destruct (Hcls c cl Hcl) as (v & Hv & Hst). exists v. pose proof (spawn_results _ _ _ _ Hn Hrun c cl Hcl) as Hr.
  destruct Hst as [-> | ->]; cbn in Hr; auto.
Qed.

(** ** Termination *)

(** How many steps are left, apart from the clients' work. *)
Definition client_weight (cl : Client L) : Z :=
  match cl with CNot | CStart => 3 | CRun _ => 2 | CSend _ | CDelete _ => 1 | CGone _ | CDead => 0 end.
Definition weights cls : Z := foldr (λ cl z, client_weight cl + z) 0 cls.
Definition main_weight n (m : Main) : Z :=
  match m with
  | MSpawn k => 3 * n + 4 - k
  | MSleep => 2 * n + 3
  | MSignal i => 2 * n + 2 - i
  | MParked i => 2 * n + 1 - i
  | MCollect j _ => n + 1 - j
  | MDone _ => 0
  end.
Definition is_work (lb : Label) : bool := match lb with LDefault _ | LWork _ => true | _ => false end.

Lemma weights_insert cls c x x' :
  cls.[c] = Some x → weights (<[Z.to_nat c := x']> cls) = weights cls - client_weight x + client_weight x'.
Proof.
  unfold zlookup. destruct (c <? 0); [done|]. generalize (Z.to_nat c). clear c. intros i Hi.
  revert i Hi. induction cls as [|y cls IH]; intros [|i] Hi; [done..| |].
  - injection Hi as ->. change (client_weight x' + weights cls = client_weight x + weights cls - client_weight x + client_weight x').
    lia.
  - change (client_weight y + weights (<[i := x']> cls) = client_weight y + weights cls - client_weight x + client_weight x').
    rewrite (IH i Hi). lia.
Qed.

Lemma client_weight_nonneg cl : 0 ≤ client_weight cl.
Proof. destruct cl; cbn; lia. Qed.
Lemma weights_nonneg cls : 0 ≤ weights cls.
Proof.
  induction cls as [|cl cls IH]; [done|]. change (0 ≤ client_weight cl + weights cls).
  pose proof (client_weight_nonneg cl). lia.
Qed.
Lemma main_weight_nonneg m cls : main_ok m cls → 0 ≤ main_weight (glen cls) m.
Proof. pose proof (glen_nonneg cls). destruct m; cbn; intros; destruct_and?; lia. Qed.

(** Each step that is not a client's work uses up a unit. *)
Lemma weight_step s lb s' :
  spawn_inv s → spawn_step s lb = Some s' →
  let n := glen s.(sp_clients) in
  main_weight n s'.(sp_main) + weights s'.(sp_clients) + (if is_work lb then 0 else 1) ≤
    main_weight n s.(sp_main) + weights s.(sp_clients).
Proof.
  intros Hinv Hs n. destruct (spawn_step_cases _ _ _ Hinv Hs) as [(-> & -> & Hm)|(c & x & x' & Hc & -> & Hm)].
  - unfold spawn_inv in Hinv. destruct Hm; cbn in *; destruct_and?; lia.
  - rewrite (weights_insert _ _ _ _ Hc).
    destruct Hm as [k|j rs v|m c l|i c l v Hv|lb m c l l' Hlb|m c v]; cbn; try lia.
    destruct Hlb as [-> | ->], l'; cbn; lia.
Qed.

Lemma weight_run n w lbs s :
  0 ≤ n → spawn_run n w lbs = Some s →
  main_weight n s.(sp_main) + weights s.(sp_clients) + glen lbs ≤ 6 * n + 4 + countb is_work lbs.
Proof.
  intros Hn. revert lbs s. apply (spawn_run_ind n w (λ lbs s,
    main_weight n s.(sp_main) + weights s.(sp_clients) + glen lbs ≤ 6 * n + 4 + countb is_work lbs)).
  - change (3 * n + 4 - 0 + weights (replicate (Z.to_nat n) CNot) + 0 ≤ 6 * n + 4 + 0).
    assert (∀ k : nat, weights (replicate k CNot) = 3 * Z.of_nat k) as ->; [|lia].
    induction k as [|k IH]; [done|]. change (3 + weights (replicate k CNot) = 3 * Z.of_nat (S k)). lia.
  - intros lbs s lb s' Hrun IH Hs. destruct (spawn_run_inv _ _ _ _ Hn Hrun) as [Hinv Hlen].
    pose proof (weight_step _ _ _ Hinv Hs) as Hw. rewrite Hlen in Hw. cbn zeta in Hw.
    rewrite glen_app, countb_app, glen_cons, glen_nil, countb_cons, countb_nil. destruct (is_work lb); lia.
Qed.

(** No state before the end is stuck, and none needs a client to go round its
    loop once more. *)
Lemma spawn_progress s :
  spawn_inv s → countb dead s.(sp_clients) = 0 →
  ((∃ rs, s.(sp_main) = MDone rs) ∧ ∀ c cl, s.(sp_clients).[c] = Some cl → ∃ v, cl = CGone v) ∨
  ∃ lb, (∀ c, lb ≠ LDefault c) ∧ is_Some (spawn_step s lb).
Proof.
  destruct s as [m cls w]. unfold spawn_inv. cbn [sp_main sp_clients]. intros Hinv Hdead.
  assert (∀ lb : Label, lb = LMain → ∀ c, lb ≠ LDefault c) as Hmain by (by intros ? ->).
  destruct m as [k| |i|i|j rs|rs].
  - right. exists LMain. split; [by apply Hmain|]. cbn. case_if; by eexists.
  - right. exists LMain. split; [by apply Hmain|]. by eexists.
  - right. exists LMain. split; [by apply Hmain|]. cbn. case_if; by eexists.
  - right. destruct Hinv as (Hi & Hcount & Hun). destruct (countb_lt signalled cls) as (c & cl & Hcl & Hsig); [lia|].
    specialize (Hun c cl Hcl). destruct cl as [| |l|v|v|v|]; try done.
    + exists (LStart c). split; [done|]. cbn. rewrite Hcl. destruct (MakeClerk c w). by eexists.
    + destruct (at_select l) as [v|] eqn:Hv; [exists (LDone c)|exists (LWork c)]; (split; [done|]);
        cbn; rewrite Hcl, Hv; by eexists.
    + pose proof (countb_pos dead _ _ _ Hcl eq_refl). lia.
  - right. exists LMain. split; [by apply Hmain|]. cbn. case_if; [|by eexists].
    destruct Hinv as (Hj & Hrs & Hcls). destruct (zlookup_is_Some cls j) as [cl Hcl]; [lia|].
    specialize (Hcls j cl Hcl). case_if_in Hcls; [lia|]. destruct Hcls as [v ->]. rewrite Hcl. by eexists.
  - destruct Hinv as [Hrs Hcls].
    destruct (decide (countb (λ cl, match cl with CGone _ => true | _ => false end) cls = glen cls)) as [Hall|Hnot].
    + left. split; [by eexists|]. intros c cl Hcl. pose proof (countb_full _ _ _ _ Hall Hcl). destruct cl; try done. by eexists.
    + pose proof (countb_bounds (λ cl, match cl with CGone _ => true | _ => false end) cls).
      destruct (countb_lt (λ cl, match cl with CGone _ => true | _ => false end) cls) as (c & cl & Hcl & Hg); [lia|].
      destruct (Hcls c cl Hcl) as (v & _ & [-> | ->]); [|done]. right. exists (LDelete c). split; [done|].
      cbn. rewrite Hcl. by eexists.
Qed.

(** C10. [SpawnClientsAndWait] ends: a run of [n] clients has at most [6 n + 4]
    steps besides the clients' own work, and as long as no client has failed the
    test it can go on, without any client going round its loop again, until the
    call has returned and every client has deleted its clerk. *)
Theorem spawn_terminates n w lbs s :
  0 ≤ n → spawn_run n w lbs = Some s →
  glen lbs ≤ 6 * n + 4 + countb is_work lbs ∧
  (countb dead s.(sp_clients) = 0 →
   ((∃ rs, s.(sp_main) = MDone rs) ∧ ∀ c cl, s.(sp_clients).[c] = Some cl → ∃ v, cl = CGone v) ∨
   ∃ lb, (∀ c, lb ≠ LDefault c) ∧ is_Some (spawn_step s lb)).
Proof.
  intros Hn Hrun. destruct (spawn_run_inv _ _ _ _ Hn Hrun) as [Hinv Hlen]. split.
  - pose proof (weight_run _ _ _ _ Hn Hrun). pose proof (main_weight_nonneg _ _ Hinv) as Hm. rewrite Hlen in Hm.
    pose proof (weights_nonneg s.(sp_clients)). lia.
  - by apply spawn_progress.
Qed.

(** ** A client that fails the test *)

Lemma dead_stays s lb s' c :
  spawn_inv s → spawn_step s lb = Some s' → s.(sp_clients).[c] = Some CDead → s'.(sp_clients).[c] = Some CDead.
Proof.
  intros Hinv Hs Hc. destruct (spawn_step_cases _ _ _ Hinv Hs) as [(_ & -> & _)|(d & x & x' & Hd & -> & Hm)]; [done|].
  rewrite zlookup_insert by (by eapply zlookup_lt_Some). case_decide; [|done]. subst d. rewrite Hc in Hd.
  injection Hd as <-. by inversion Hm.
Qed.

(** C39. A client that calls [ts.Fatalf] ends only its own goroutine: whatever
    happens next, [SpawnClientsAndWait] never returns, since one of its [n]
    signals finds no receiver, and the test hangs instead of failing. *)
Theorem failed_client_blocks n w lbs s c lbs' s' :
  0 ≤ n → spawn_run n w lbs = Some s → s.(sp_clients).[c] = Some CDead →
  spawn_run n w (lbs ++ lbs') = Some s' → ∀ rs, s'.(sp_main) ≠ MDone rs.
Proof.
  intros Hn Hrun Hc Hrun' rs Hdone.
  assert (s'.(sp_clients).[c] = Some CDead) as Hc'.
  { clear Hdone. revert s' Hrun'. induction lbs' as [|lb lbs' IH] using rev_ind; intros s' Hrun'.
    - rewrite app_nil_r in Hrun'. congruence.
    - rewrite app_assoc in Hrun'. apply spawn_run_snoc in Hrun' as (s0 & Hrun0 & Hs).
      eapply dead_stays; [by eapply spawn_run_inv|done|by apply IH]. }
  destruct (spawn_run_inv _ _ _ _ Hn Hrun') as [Hinv _]. unfold spawn_inv in Hinv. rewrite Hdone in Hinv.
  destruct Hinv as [_ Hcls]. by destruct (Hcls c _ Hc') as (v & _ & [?|?]).
Qed.
End spawn.
