(* ===== verification/KvAppend.v ===== *)
(** * Concurrent appends: [OneClientAppend] against the server

    Many clients append to the list under one key: each gets the list, adds its
    entry and puts the list back under the version it read, through a clerk
    whose calls can be lost before or after the server executes them. The
    steps of all clients interleave: an event is a get, or one attempt of a
    put. When the clients stop, [CheckAppends] accepts the list. No test of the
    repository runs this workload; it starts here from an empty list at version
    1, which is what [CheckAppends] presumes. *)

From S2P Require Import Prelude KvServer KvTest.

(** What decoding gives for an encoded value. *)
Class JsonLaws (A : Type) `{Json A} : Prop := {
  Marshal_total (v : A) : is_Some (Marshal v);
  Unmarshal_Marshal (v : A) b : Marshal v = Some b → Unmarshal b = Some v;
}.

(** Where a client is: at the beginning of the inner loop, or in [Clerk.Put]
    of this value and version, [first] as in [put_loop]. *)
Inductive ClientState := CLoop | CPutting (value : string) (ver : Z) (first : bool).
Record Client := mkClient { cl_i : Z; cl_res : ClntRes; cl_st : ClientState }.

Record ASys := mkASys { as_kv : KVServer; as_clients : list Client }.

(** [AGet me]: the clerk's get is answered. [AAttempt me executed replied]: one
    call of the clerk's put; [executed]: the server runs it. *)
Inductive AEvent := AGet (me : Z) | AAttempt (me : Z) (executed replied : bool).

Section appends.
Context `{JsonLaws (list EntryN)}.

Definition key : string := "k".

Definition client_get (me : Z) (cl : Client) (kv : KVServer) : go Client :=
  match Clerk.Get [(true, Server.Get (mkGetArgs key) kv)] with
  | Some (val, ver, err) =>
    if bool_decide (err = OK) then
      match Unmarshal val with
      | None => Fatal
      | Some es =>
        match Marshal ((es : list EntryN) ++ [mkEntryN me cl.(cl_i)]) with
        | None => Fatal
        | Some b => Ret (mkClient cl.(cl_i) cl.(cl_res) (CPutting b ver true))
        end
      end
    else Fatal
  | None => Ret cl
  end.

(** What the client does with the error of its put. *)
Definition after_put (err : Err) (cl : Client) : Client :=
  let res := cl.(cl_res) in
  if bool_decide (err = OK) then mkClient (cl.(cl_i) + 1) (mkClntRes (res.(Nok) + 1) res.(Nmaybe)) CLoop
  else if bool_decide (err = ErrMaybe)
  then mkClient (cl.(cl_i) + 1) (mkClntRes res.(Nok) (res.(Nmaybe) + 1)) CLoop
  else mkClient cl.(cl_i) res CLoop.

Definition client_attempt (value : string) (ver : Z) (first executed replied : bool) (cl : Client) (kv : KVServer) :
    Client * KVServer :=
  let '(kv, reply) := if executed then Server.Put (mkPutArgs key value ver) kv else (kv, mkPutReply "") in
  (match Clerk.put_iter first (executed && replied) reply with
   | Some err => after_put err cl
   | None => mkClient cl.(cl_i) cl.(cl_res) (CPutting value ver false)
   end, kv).

Definition a_step (s : ASys) (e : AEvent) : go ASys :=
  match e with
  | AGet me =>
    match s.(as_clients).[me] with
    | Some cl =>
      match cl.(cl_st) with
      | CLoop => cl ← client_get me cl s.(as_kv);
                 Ret (mkASys s.(as_kv) (<[Z.to_nat me := cl]> s.(as_clients)))
      | _ => Ret s
      end
    | None => Ret s
    end
  | AAttempt me executed replied =>
    match s.(as_clients).[me] with
    | Some cl =>
      match cl.(cl_st) with
      | CPutting value ver first =>
        let '(cl, kv) := client_attempt value ver first executed replied cl s.(as_kv) in
        Ret (mkASys kv (<[Z.to_nat me := cl]> s.(as_clients)))
      | CLoop => Ret s
      end
    | None => Ret s
    end
  end.

(** The test puts the empty list first, and starts [n] clients. *)
Definition a_start (n : Z) : go ASys :=
  match Marshal ([] : list EntryN) with
  | None => Fatal
  | Some b => Ret (mkASys (Server.Put (mkPutArgs key b 0) MakeKVServer).1
                     (replicate (Z.to_nat n) (mkClient 0 (mkClntRes 0 0) CLoop)))
  end.
Definition a_run (n : Z) (evs : list AEvent) : go ASys := s ← a_start n; foldM a_step s evs.

(** The final check, on what the key holds. *)
Definition a_check (s : ASys) : go unit :=
  match Clerk.Get [(true, Server.Get (mkGetArgs key) s.(as_kv))] with
  | Some (val, ver, err) =>
    if bool_decide (err = OK) then
      match Unmarshal val with
      | None => Fatal
      | Some es => CheckAppends es (glen s.(as_clients)) (cl_res <$> s.(as_clients)) ver
      end
    else Fatal
  | None => Fatal
  end.

(** ** The invariant *)

(** What is in the list of client [me], which has made [ok] puts that
    succeeded out of [i]; [a] is 1 if the entry it is putting is there
    already. *)
Definition entries_ok (es : list EntryN) (me i ok a : Z) : Prop :=
  ascending 0 (counters me es) ∧ next_from 0 (counters me es) ≤ i + a ∧ ok + a ≤ glen (counters me es).

Definition client_inv (es : list EntryN) (ver me : Z) (cl : Client) : Prop :=
  cl.(cl_i) = cl.(cl_res).(Nok) + cl.(cl_res).(Nmaybe) ∧
  match cl.(cl_st) with
  | CLoop => entries_ok es me cl.(cl_i) cl.(cl_res).(Nok) 0
  | CPutting value v first =>
    ∃ a, (a = 0 ∨ a = 1) ∧ entries_ok es me cl.(cl_i) cl.(cl_res).(Nok) a ∧ v ≤ ver ∧
      (first = true → a = 0) ∧
      (v = ver → a = 0 ∧ Marshal (es ++ [mkEntryN me cl.(cl_i)]) = Some value)
  end.

(** [m] bounds the number of puts so far. *)
Record a_inv (m : Z) (s : ASys) (es : list EntryN) : Prop := {
  ai_kv : ∃ b, s.(as_kv) !! key = Some (mkKVEntry b (glen es + 1)) ∧ Unmarshal b = Some es;
  ai_bound : glen es ≤ m;
  ai_ids : ∀ e, e ∈ es → 0 ≤ e.(en_Id) < glen s.(as_clients);
  ai_clients : ∀ me cl, s.(as_clients).[me] = Some cl → client_inv es (glen es + 1) me cl;
}.

Lemma ascending_snoc x l n : ascending x (l ++ [n]) ↔ ascending x l ∧ next_from x l ≤ n.
Proof.
  revert x. induction l as [|y l IH]; intros x; cbn [app ascending]; [change (next_from x []) with x; tauto|].
  rewrite IH. unfold next_from at 2. cbn [foldl]. fold (next_from (y + 1) l). tauto.
Qed.

Lemma counters_snoc c es e :
  counters c (es ++ [e]) = if decide (e.(en_Id) = c) then counters c es ++ [e.(en_N)] else counters c es.
Proof.
  unfold counters. rewrite filter_app, fmap_app, filter_cons. cbn. case_decide; [done|]. by rewrite app_nil_r.
Qed.

Lemma entries_ok_snoc es me i ok : entries_ok es me i ok 0 → entries_ok (es ++ [mkEntryN me i]) me i ok 1.
Proof.
  intros (Ha & Hn & Hg). unfold entries_ok. rewrite counters_snoc, decide_True by done. cbn [en_N].
  rewrite ascending_snoc, next_from_app, glen_app. change (next_from _ [i]) with (i + 1).
  change (glen [i]) with 1. split; [split; [done|lia]|lia].
Qed.

Lemma entries_ok_other es me me' i i' ok a :
  me ≠ me' → entries_ok es me i ok a → entries_ok (es ++ [mkEntryN me' i']) me i ok a.
Proof. intros Hne. unfold entries_ok. by rewrite counters_snoc, decide_False. Qed.

(** Another client's entry. *)
Lemma client_inv_other es ver me me' i' cl :
  me ≠ me' → ver = glen es + 1 → client_inv es ver me cl →
  client_inv (es ++ [mkEntryN me' i']) (ver + 1) me cl.
Proof.
  intros Hne Hver [Hi Hst]. split; [done|]. destruct (cl_st cl) as [|value v first].
  - by apply entries_ok_other.
  - destruct Hst as (a & Ha & He & Hv & Hf & _). exists a. split; [done|]. split; [by apply entries_ok_other|].
    split; [lia|]. split; [done|]. lia.
Qed.

Lemma a_inv_put m s es me cl cl' b :
  a_inv m s es → s.(as_clients).[me] = Some cl →
  Unmarshal b = Some (es ++ [mkEntryN me cl.(cl_i)]) → 
  client_inv (es ++ [mkEntryN me cl.(cl_i)]) (glen es + 2) me cl' →
  a_inv (m + 1) (mkASys (<[key := mkKVEntry b (glen es + 2)]> s.(as_kv)) (<[Z.to_nat me := cl']> s.(as_clients)))
    (es ++ [mkEntryN me cl.(cl_i)]).
Proof.
  intros [_ Hb Hids Hcl] Hme Hu Hinv. pose proof (zlookup_lt_Some _ _ _ Hme) as Hlt.
  assert (glen (es ++ [mkEntryN me cl.(cl_i)]) = glen es + 1) as Hlen by (rewrite glen_app; done).
  constructor; cbn [as_kv as_clients].
  - exists b. rewrite lookup_insert_eq, Hlen. split; [do 2 f_equal; lia|done].
  - lia.
  - intros e [He|He]%elem_of_app; rewrite glen_insert; [by apply Hids|].
    apply list_elem_of_singleton in He as ->. done.
  - intros me' c. rewrite zlookup_insert by done. rewrite Hlen. replace (glen es + 1 + 1) with (glen es + 2) by lia.
    case_decide as E; [intros [= <-]; by subst|]. intros Hc. replace (glen es + 2) with (glen es + 1 + 1) by lia.
    apply client_inv_other; [done|done|]. by apply Hcl.
Qed.

(** A step that leaves the list as it is. *)
Lemma a_inv_client m s es me cl cl' :
  a_inv m s es → s.(as_clients).[me] = Some cl → client_inv es (glen es + 1) me cl' →
  a_inv (m + 1) (mkASys s.(as_kv) (<[Z.to_nat me := cl']> s.(as_clients))) es.
Proof.
  intros [Hkv Hb Hids Hcl] Hme Hinv. pose proof (zlookup_lt_Some _ _ _ Hme). constructor; cbn [as_kv as_clients].
  - done.
  - lia.
  - intros e He. rewrite glen_insert. by apply Hids.
  - intros me' c. rewrite zlookup_insert by done. case_decide; [|apply Hcl]. intros [= <-]. by subst.
Qed.

Lemma a_inv_mono m s es : a_inv m s es → a_inv (m + 1) s es.
Proof. intros [? ? ? ?]. constructor; (done || lia). Qed.

Lemma after_put_inv es ver me cl err a :
  entries_ok es me cl.(cl_i) cl.(cl_res).(Nok) a → a = 0 ∨ a = 1 → cl.(cl_i) = cl.(cl_res).(Nok) + cl.(cl_res).(Nmaybe) →
  (err = OK → a = 1) → (err = ErrVersion → a = 0) → err = OK ∨ err = ErrVersion ∨ err = ErrMaybe →
  client_inv es ver me (after_put err cl).
Proof.
  intros (Hasc & Hn & Hg) Ha Hi Hok Hver Herr. unfold client_inv, after_put, entries_ok.
  assert (OK ≠ ErrVersion ∧ OK ≠ ErrMaybe ∧ ErrVersion ≠ ErrMaybe) as (N1 & N2 & N3) by done.
  destruct Herr as [->|[->| ->]].
  - rewrite bool_decide_true by done. rewrite (Hok eq_refl) in *. cbn. split; [lia|]. split; [done|]. lia.
  - rewrite !bool_decide_false by done. rewrite (Hver eq_refl) in *. cbn. split; [lia|]. split; [done|]. lia.
  - rewrite bool_decide_false, bool_decide_true by done. cbn. split; [lia|]. split; [done|]. lia.
Qed.

Lemma a_step_length s s' e : a_step s e = Ret s' → glen s'.(as_clients) = glen s.(as_clients).
Proof.
  destruct e as [me|me executed replied]; cbn [a_step]; (destruct (s.(as_clients).[me]) as [cl|]; [|by intros [= <-]]);
    (destruct (cl_st cl) as [|value v first]; try by intros [= <-]).
  - intros Hr. go_inv Hr. subst s'. cbn. by rewrite glen_insert.
  - destruct (client_attempt _ _ _ _ _ _ _) as [cl' kv']. intros [= <-]. cbn. by rewrite glen_insert.
Qed.

(** A put of a current version is executed at most once; afterwards, and for a
    version that is not current, the server refuses. *)
Lemma client_attempt_inv m s es me cl value v first executed replied :
  a_inv m s es → m < 2 ^ 63 → s.(as_clients).[me] = Some cl → cl.(cl_st) = CPutting value v first →
  let r := client_attempt value v first executed replied cl s.(as_kv) in
  ∃ es', a_inv (m + 1) (mkASys r.2 (<[Z.to_nat me := r.1]> s.(as_clients))) es'.
Proof.
  intros Hinv Hm Hme Hst. pose proof Hinv as [(b & Hkv & Hb) Hbound _ Hcl].
  pose proof (Hcl me cl Hme) as [Hi Hputting]. rewrite Hst in Hputting.
  destruct Hputting as (a & Ha & He & Hle & Hf & Hcur). pose proof (glen_nonneg es) as Hge.
  unfold client_attempt. destruct executed; [unfold Server.Put; cbn [put_Key put_Version put_Value]; rewrite Hkv; cbn [Version]|].
  - destruct (Z.eqb_spec v (glen es + 1)) as [Hv|Hv]; cbn [negb].
    + destruct (Hcur Hv) as [-> Hmar]. apply Unmarshal_Marshal in Hmar. unfold u64.
      rewrite Z.mod_small by lia. replace (glen es + 1 + 1) with (glen es + 2) by lia.
      exists (es ++ [mkEntryN me cl.(cl_i)]). eapply (a_inv_put m s es me cl); [done..|].
      pose proof (entries_ok_snoc _ _ _ _ He) as He'. cbn [fst andb]. unfold Clerk.put_iter. cbn [pr_Err].
      destruct replied; cbn [fst].
      * rewrite bool_decide_false by done. apply (after_put_inv _ _ _ _ _ 1); [done|by right|done|done|by intros E|by left].
      * split; [done|]. cbn [cl_st cl_i cl_res]. exists 1. split; [by right|]. split; [done|]. split; [lia|].
        split; [done|]. lia.
    + exists es. cbn [snd]. eapply (a_inv_client m s es me cl); [done..|]. cbn [fst andb]. unfold Clerk.put_iter. cbn [pr_Err].
      destruct replied.
      * rewrite bool_decide_true by done. destruct first.
        -- apply (after_put_inv _ _ _ _ _ a); [done..|by intros E|intros _; by apply Hf|tauto].
        -- apply (after_put_inv _ _ _ _ _ a); [done..|by intros E|by intros E|tauto].
      * split; [done|]. cbn [cl_st cl_i cl_res]. exists a. split; [done|]. split; [done|]. split; [lia|]. split; [by intros|]. tauto.
  - exists es. cbn [snd]. eapply (a_inv_client m s es me cl); [done..|]. cbn.
    split; [done|]. cbn. exists a. split; [done|]. split; [done|]. split; [lia|]. split; [by intros|]. tauto.
Qed.

Lemma a_step_inv m s es e :
  a_inv m s es → m < 2 ^ 63 → returns (a_step s e) (λ s', ∃ es', a_inv (m + 1) s' es').
Proof.
  intros Hinv Hm. pose proof Hinv as [(b & Hkv & Hb) Hbound _ Hcl].
  assert (∀ s', s' = s → returns (Ret s') (λ s', ∃ es', a_inv (m + 1) s' es')) as Hsame.
  { intros s' ->. apply returns_Ret. exists es. by apply a_inv_mono. }
  destruct e as [me|me executed replied]; cbn [a_step].
  - destruct (s.(as_clients).[me]) as [cl|] eqn:Hme; [|by apply Hsame].
    destruct (cl_st cl) as [|value v first] eqn:Hst; [|by apply Hsame].
    unfold client_get. cbn [Clerk.Get]. unfold Server.Get. cbn [get_Key]. rewrite Hkv. cbn [gr_Value gr_Version gr_Err Value Version].
    rewrite bool_decide_true by done. rewrite Hb.
    destruct (Marshal_total (es ++ [mkEntryN me cl.(cl_i)])) as [b' Hb']. rewrite Hb'. cbn [mbind go_bind].
    apply returns_Ret. exists es. eapply (a_inv_client m s es me cl); [done..|].
    destruct (Hcl me cl Hme) as [Hi He]. rewrite Hst in He. split; [done|]. cbn [cl_st cl_i cl_res].
    exists 0. split; [by left|]. split; [done|]. split; [lia|]. split; [done|]. intros _. done.
  - destruct (s.(as_clients).[me]) as [cl|] eqn:Hme; [|by apply Hsame].
    destruct (cl_st cl) as [|value v first] eqn:Hst; [by apply Hsame|].
    pose proof (client_attempt_inv m s es me cl value v first executed replied Hinv Hm Hme Hst) as Hr.
    cbn zeta in Hr. destruct (client_attempt _ _ _ _ _ _ _) as [cl' kv']. by apply returns_Ret.
Qed.

Lemma a_start_inv n : returns (a_start n) (λ s, a_inv 0 s [] ∧ glen s.(as_clients) = Z.max 0 n).
Proof.
  unfold a_start. destruct (Marshal_total ([] : list EntryN)) as [b Hb]. rewrite Hb. apply returns_Ret.
  split; [|cbn [as_clients]; rewrite glen_replicate; lia]. constructor; cbn [as_kv as_clients].
  - exists b. split; [by apply lookup_insert_eq|]. by apply Unmarshal_Marshal.
  - done.
  - by intros e ?%elem_of_nil.
  - intros me cl Hcl. unfold zlookup in Hcl. case_match; [done|]. apply lookup_replicate in Hcl as [-> _].
    split; [done|]. cbn. by split; [|split].
Qed.

Lemma a_check_inv m s es :
  a_inv m s es → Forall (λ cl, cl.(cl_st) = CLoop) s.(as_clients) → a_check s = Ret tt.
Proof.
  intros [(b & Hkv & Hb) _ Hids Hcl] Hidle. unfold a_check. cbn [Clerk.Get]. unfold Server.Get. cbn [get_Key].
  rewrite Hkv. cbn [gr_Value gr_Version gr_Err Value Version]. rewrite bool_decide_true by done. rewrite Hb.
  assert (∀ c cl, s.(as_clients).[c] = Some cl → entries_ok es c cl.(cl_i) cl.(cl_res).(Nok) 0 ∧
    cl.(cl_i) = cl.(cl_res).(Nok) + cl.(cl_res).(Nmaybe)) as Hok.
  { intros c cl Hc. destruct (Hcl c cl Hc) as [Hi He]. rewrite Forall_forall in Hidle.
    rewrite (Hidle cl) in He; [done|]. apply zlookup_elem_of. by exists c. }
  apply CheckAppends_spec. split; [|split; [done|]].
  - intros c. destruct (s.(as_clients).[c]) as [cl|] eqn:Hc; [by apply (Hok c cl Hc)|].
    apply zlookup_None in Hc. assert (∀ l, (∀ e, e ∈ l → e.(en_Id) ≠ c) → counters c l = []) as Hnone.
    { induction l as [|e l IH]; intros Hl; [done|]. rewrite counters_cons, decide_False by (apply Hl; left).
      apply IH. intros; apply Hl; by right. }
    rewrite Hnone; [done|]. intros e He%Hids. lia.
  - intros c Hc. assert (0 ≤ c < glen s.(as_clients)) as Hr.
    { destruct Hc as [|Hc]; [done|]. apply list_elem_of_fmap in Hc as (e & -> & He). by apply Hids. }
    destruct (zlookup_is_Some s.(as_clients) c Hr) as [cl Hcl']. destruct (Hok c cl Hcl') as [(_ & Hn & Hg) Hi].
    exists cl.(cl_res). split; [|lia]. unfold zlookup in *. case_match; [done|]. by rewrite list_lookup_fmap, Hcl'.
Qed.

(** The append test raises no false alarm: for any number of clients, any
    interleaving of their gets and of the attempts of their puts, any calls
    lost before or after the server executes them, no step fails, and whenever
    all clients are between two operations, [CheckAppends] accepts what the
    key holds: every client's entries ascend, their number plus one is the
    version, and skipped entries are puts that returned [ErrMaybe]. *)
Theorem append_test_passes n evs :
  glen evs < 2 ^ 63 →
  returns (a_run n evs) (λ s, glen s.(as_clients) = Z.max 0 n ∧
    (Forall (λ cl, cl.(cl_st) = CLoop) s.(as_clients) → a_check s = Ret tt)).
Proof.
  intros Hlen. unfold a_run. eapply returns_bind; [apply a_start_inv|]. intros s [Hs Hn].
  assert (∀ evs m s es, a_inv m s es → m + glen evs < 2 ^ 63 →
    returns (foldM a_step s evs) (λ s', (∃ m' es', a_inv m' s' es') ∧ glen s'.(as_clients) = glen s.(as_clients))) as Hrun.
  { clear s Hs Hn Hlen evs. induction evs as [|e evs IH]; intros m s es Hs Hb; cbn [foldM].
    { apply returns_Ret. split; [by exists m, es|done]. }
    rewrite glen_cons in Hb. pose proof (glen_nonneg evs).
    destruct (a_step_inv m s es e Hs ltac:(lia)) as (s1 & E & es1 & Hs1). rewrite E. cbn [mbind go_bind].
    eapply returns_mono; [apply (IH (m + 1) s1 es1 Hs1); lia|]. intros s' [? ->]. split; [done|].
    by apply (a_step_length _ _ _ E). }
  eapply returns_mono; [apply (Hrun evs 0 s [] Hs); lia|]. intros s' [(m & es & Hinv) Hl].
  split; [lia|]. by apply (a_check_inv m s' es).
Qed.
End appends.
