(* ===== verification/KvAppendWitness.v ===== *)
(** * The append test at a concrete run *)

From S2P Require Import Prelude KvServer KvTest KvAppend.
From Stdlib Require Import Ascii.

(** An encoding of values as binary digits. *)
Fixpoint pos_str (p : positive) : string :=
  match p with
  | xH => ""
  | xO p => String "0" (pos_str p)
  | xI p => String "1" (pos_str p)
  end.
Fixpoint str_pos (s : string) : positive :=
  match s with
  | EmptyString => xH
  | String c s => if bool_decide (c = "1"%char) then xI (str_pos s) else xO (str_pos s)
  end.
Lemma str_pos_str p : str_pos (pos_str p) = p.
Proof. induction p as [p IH|p IH|]; cbn [pos_str str_pos]; [by rewrite bool_decide_true, IH|by rewrite bool_decide_false, IH|done]. Qed.

#[local] Instance EntryN_eq_dec : EqDecision EntryN.
Proof. solve_decision. Defined.
#[local] Instance EntryN_countable : Countable EntryN.
Proof. refine (inj_countable' (λ e, (e.(en_Id), e.(en_N))) (λ p, mkEntryN p.1 p.2) _). by intros []. Defined.
#[local] Instance entries_json : Json (list EntryN) :=
  {| Marshal v := Some (pos_str (encode v)); Unmarshal b := decode (str_pos b) |}.
#[local] Instance entries_laws : JsonLaws (list EntryN).
Proof. split; [by eexists|]. intros v b [= <-]. cbn. by rewrite str_pos_str, decode_encode. Qed.

(** Client 0's first put is executed but the reply is lost, and client 1 gets
    in between; client 0 gives up with [ErrMaybe]; client 1 appends. *)
Definition append_race : list AEvent :=
  [AGet 0; AGet 1; AAttempt 0 true false; AAttempt 1 true true; AGet 1; AAttempt 0 true true; AAttempt 1 false false;
   AAttempt 1 true true].

Lemma append_test_passes_witness :
  ∃ s, a_run 2 append_race = Ret s ∧ a_check s = Ret tt ∧
    (cl_res <$> s.(as_clients)) = [mkClntRes 0 1; mkClntRes 1 0].
Proof.
  destruct (append_test_passes 2 append_race) as (s & Hs & _ & Hc).
  - reflexivity.
  - exists s. split; [exact Hs|].
    assert (s = result (a_run 2 append_race) (mkASys ∅ [])) as E by (by rewrite Hs).
    assert (s.(as_clients) = [mkClient 1 (mkClntRes 0 1) CLoop; mkClient 1 (mkClntRes 1 0) CLoop]) as Ec
      by (rewrite E; vm_compute; reflexivity).
    split; [apply Hc; rewrite Ec; repeat constructor|rewrite Ec; reflexivity].
Defined.
