(* ===== verification/KvPuts.v ===== *)
(** * Concurrent puts: [OneClientPut] against the server

    The test [TestPutConcurrentReliable] of [kvsrv1/kvsrv_test.go]: clients
    race to put under one key, each in rounds of [OnePut], through clerks whose
    calls can be lost before or after the server executes them; then
    [CheckPutConcurrent] compares the version with what the clients counted.
    An event is one attempt of a put, or the get after it. *)

From S2P Require Import Prelude KvServer KvTest KvAppend.

(** Where a client is: between two rounds, with the last version it knows; in
    [Clerk.Put]; after the put, before the get. *)
Inductive PutState :=
  | PIdle (ver : Z)
  | PPutting (ver : Z) (first : bool)
  | PCheck (ver : Z) (err : Err).
Record PutClient := mkPutClient { pc_res : ClntRes; pc_st : PutState }.
Record PutSys := mkPutSys { pu_kv : KVServer; pu_clients : list PutClient }.

Inductive PutEvent := PAttempt (me : Z) (executed replied : bool) | PGet (me : Z).
Definition is_reliable (e : PutEvent) : bool :=
  match e with PAttempt _ executed replied => executed && replied | PGet _ => true end.

Section puts.
Context `{JsonLaws EntryV}.
Definition pkey : string := "k".

(** One call of [Clerk.Put(EntryV{me, ver}, ver)]. *)
Definition put_attempt (me ver : Z) (first executed replied : bool) (kv : KVServer) : go (PutState * KVServer) :=
  match Marshal (mkEntryV me ver) with
  | None => Fatal
  | Some b =>
    let '(kv, reply) := if executed then Server.Put (mkPutArgs pkey b ver) kv else (kv, mkPutReply "") in
    match Clerk.put_iter first (executed && replied) reply with
    | None => Ret (PPutting ver false, kv)
    | Some err =>
      if negb (bool_decide (err = OK) || bool_decide (err = ErrVersion) || bool_decide (err = ErrMaybe))
      then Fatal else Ret (PCheck ver err, kv)
    end
  end.

(** [GetJson], and what follows it in [OnePut] and [OneClientPut]. *)
Definition get_json (kv : KVServer) : go (EntryV * Z) :=
  match Clerk.Get [(true, Server.Get (mkGetArgs pkey) kv)] with
  | Some (val, ver, err) =>
    if bool_decide (err = OK) then
      match Unmarshal val with None => Fatal | Some e => Ret (e, ver) end
    else Fatal
  | None => Fatal
  end.
Definition check_put (me ver : Z) (err : Err) (res : ClntRes) (kv : KVServer) : go PutClient :=
  r ← get_json kv;
  let '(e, ver0) := r in
  if bool_decide (err = OK) && (ver0 =? u64 (ver + 1)) && negb (e.(ev_Id) =? me) && negb (e.(ev_V) =? ver)
  then Fatal
  else if bool_decide (err = OK) then Ret (mkPutClient (mkClntRes (res.(Nok) + 1) res.(Nmaybe)) (PIdle ver0))
  else if bool_decide (err = ErrMaybe)
  then Ret (mkPutClient (mkClntRes res.(Nok) (res.(Nmaybe) + 1)) (PIdle ver0))
  else Ret (mkPutClient res (PPutting ver0 true)).

Definition p_update (me : Z) (cl : PutClient) (kv : KVServer) (s : PutSys) : PutSys :=
  mkPutSys kv (<[Z.to_nat me := cl]> s.(pu_clients)).

Definition put_step (s : PutSys) (e : PutEvent) : go PutSys :=
  match e with
  | PAttempt me executed replied =>
    match s.(pu_clients).[me] with
    | Some cl =>
      let attempt ver first :=
        r ← put_attempt me ver first executed replied s.(pu_kv);
        Ret (p_update me (mkPutClient cl.(pc_res) r.1) r.2 s) in
      match cl.(pc_st) with
      | PIdle ver => attempt ver true
      | PPutting ver first => attempt ver first
      | PCheck _ _ => Ret s
      end
    | None => Ret s
    end
  | PGet me =>
    match s.(pu_clients).[me] with
    | Some cl =>
      match cl.(pc_st) with
      | PCheck ver err => cl ← check_put me ver err cl.(pc_res) s.(pu_kv); Ret (p_update me cl s.(pu_kv) s)
      | _ => Ret s
      end
    | None => Ret s
    end
  end.

Definition put_start (n : Z) : PutSys :=
  mkPutSys MakeKVServer (replicate (Z.to_nat n) (mkPutClient (mkClntRes 0 0) (PIdle 0))).
Definition put_run (n : Z) (evs : list PutEvent) : go PutSys := foldM put_step (put_start n) evs.

(** The end of the test. *)
Definition put_check (reliable : bool) (s : PutSys) : go ClntRes :=
  r ← get_json s.(pu_kv);
  CheckPutConcurrent (pc_res <$> s.(pu_clients)) (mkClntRes 0 0) r.2 reliable.

(** ** The invariant *)

Definition version (kv : KVServer) : Z := match kv !! pkey with Some e => e.(Version) | None => 0 end.

(** [g]: how many puts of the client the server has accepted. *)
Definition client_puts (reliable : bool) (kv : KVServer) (me : Z) (cl : PutClient) (g : Z) : Prop :=
  let ok := cl.(pc_res).(Nok) in let may := cl.(pc_res).(Nmaybe) in let v := version kv in
  0 ≤ ok ∧ 0 ≤ may ∧ (v = 0 → ok + may = 0) ∧ (reliable = true → may = 0) ∧
  match cl.(pc_st) with
  | PIdle ver => 0 ≤ ver ≤ v ∧ ok ≤ g ≤ ok + may
  | PPutting ver first => 0 ≤ ver ≤ v ∧ (reliable = true → first = true) ∧
      ok ≤ g ∧ (first = true ∨ ver = v → g ≤ ok + may) ∧ g ≤ ok + may + 1
  | PCheck ver err => 0 ≤ ver ∧ 1 ≤ v ∧
      ((err = OK ∧ ok + 1 ≤ g ≤ ok + may + 1 ∧ ver + 1 ≤ v ∧
          (v = ver + 1 → ∀ b, kv !! pkey = Some (mkKVEntry b v) → Unmarshal b = Some (mkEntryV me ver))) ∨
       (err = ErrVersion ∧ ok ≤ g ≤ ok + may) ∨
       (err = ErrMaybe ∧ reliable = false ∧ ok ≤ g ≤ ok + may + 1))
  end.

Definition total (l : list Z) : Z := foldr Z.add 0 l.

(** The rounds a client has made. *)
Definition rounds (cl : PutClient) : Z := cl.(pc_res).(Nok) + cl.(pc_res).(Nmaybe).

Record put_inv (reliable : bool) (m : Z) (s : PutSys) (gs : list Z) : Prop := {
  pi_json : ∀ e, s.(pu_kv) !! pkey = Some e → 1 ≤ e.(Version) ∧ is_Some (Unmarshal (A := EntryV) e.(Value));
  pi_bound : version s.(pu_kv) ≤ m;
  pi_rounds : total (rounds <$> s.(pu_clients)) ≤ m;
  pi_len : length gs = length s.(pu_clients);
  pi_total : total gs = version s.(pu_kv);
  pi_puts : ∀ me cl, s.(pu_clients).[me] = Some cl → ∃ g, gs.[me] = Some g ∧ client_puts reliable s.(pu_kv) me cl g;
}.

Lemma total_insert gs (i : nat) g g' : gs !! i = Some g → total (<[i := g']> gs) = total gs - g + g'.
Proof.
  revert i. induction gs as [|x gs IH]; intros [|i] Hi; [done..| |].
  - injection Hi as ->. change (total (g' :: gs) = total (g :: gs) - g + g'). unfold total. cbn. lia.
  - change (total (x :: <[i := g']> gs) = total (x :: gs) - g + g').
    change (total (x :: <[i := g']> gs)) with (x + total (<[i := g']> gs)). rewrite (IH i Hi).
    change (total (x :: gs)) with (x + total gs). lia.
Qed.

Lemma rounds_insert cls (me m : Z) cl cl' :
  cls.[me] = Some cl → rounds cl' ≤ rounds cl + 1 → total (rounds <$> cls) ≤ m →
  total (rounds <$> <[Z.to_nat me := cl']> cls) ≤ m + 1.
Proof.
  intros Hme Hr Ht. rewrite list_fmap_insert. rewrite (total_insert _ _ (rounds cl)); [lia|].
  unfold zlookup in Hme. case_match; [done|]. by rewrite list_lookup_fmap, Hme.
Qed.

Lemma version_nonneg reliable m s gs : put_inv reliable m s gs → 0 ≤ version s.(pu_kv).
Proof.
  intros [Hj _ _ _ _ _]. unfold version. destruct (s.(pu_kv) !! pkey) as [e|]; [|done]. destruct (Hj e eq_refl). lia.
Qed.

(** A step of client [me] that leaves the server as it is. *)
Lemma put_inv_client reliable m s gs me cl cl' g :
  put_inv reliable m s gs → s.(pu_clients).[me] = Some cl → gs.[me] = Some g →
  rounds cl' ≤ rounds cl + 1 → client_puts reliable s.(pu_kv) me cl' g →
  put_inv reliable (m + 1) (p_update me cl' s.(pu_kv) s) gs.
Proof.
  intros [Hj Hb Hrd Hl Ht Hp] Hme Hg Hr1 Hcl. pose proof (zlookup_lt_Some _ _ _ Hme). constructor; cbn [p_update pu_kv pu_clients].
  - done.
  - lia.
  - by apply rounds_insert with cl.
  - by rewrite length_insert.
  - done.
  - intros i c. rewrite zlookup_insert by done. case_decide; [|apply Hp]. intros [= <-]. subst. by exists g.
Qed.

Lemma client_puts_grow reliable kv kv' me cl g :
  version kv' = version kv + 1 → 0 ≤ version kv →
  client_puts reliable kv me cl g → client_puts reliable kv' me cl g.
Proof.
  intros Hv Hv0 (Hok & Hmay & Hz & Hr & Hst). unfold client_puts. rewrite Hv.
  split; [done|]. split; [done|]. split; [lia|]. split; [done|]. destruct (pc_st cl) as [ver|ver first|ver err].
  - lia.
  - destruct Hst as (Hver & Hfirst & Hg & Hcur & Hg1). split; [lia|]. split; [done|]. split; [done|].
    split; [|done]. intros [Hf|?]; [|lia]. apply Hcur. by left.
  - destruct Hst as (Hver & Hv1 & Hcase). split; [done|]. split; [lia|].
    destruct Hcase as [(He & Hg & Hle & _)|[Hcase|Hcase]]; [left|right; by left|right; by right].
    split; [done|]. split; [done|]. split; lia.
Qed.

(** A put that the server accepts. *)
Lemma put_inv_accept reliable m s gs me cl cl' g b :
  put_inv reliable m s gs → s.(pu_clients).[me] = Some cl → gs.[me] = Some g →
  is_Some (Unmarshal (A := EntryV) b) → rounds cl' ≤ rounds cl + 1 →
  let kv' := <[pkey := mkKVEntry b (version s.(pu_kv) + 1)]> s.(pu_kv) in
  client_puts reliable kv' me cl' (g + 1) →
  put_inv reliable (m + 1) (p_update me cl' kv' s) (<[Z.to_nat me := g + 1]> gs).
Proof.
  intros Hinv Hme Hg Hb Hr1 kv' Hcl. pose proof (version_nonneg _ _ _ _ Hinv) as Hv0. destruct Hinv as [Hj Hbd Hrd Hl Ht Hp].
  pose proof (zlookup_lt_Some _ _ _ Hme) as Hi. pose proof (zlookup_lt_Some _ _ _ Hg).
  assert (version kv' = version s.(pu_kv) + 1) as Hv by (unfold version at 1, kv'; by rewrite lookup_insert_eq).
  constructor; cbn [p_update pu_kv pu_clients].
  - intros e. unfold kv'. rewrite lookup_insert_eq. intros [= <-]. cbn. split; [lia|done].
  - lia.
  - by apply rounds_insert with cl.
  - by rewrite !length_insert.
  - unfold zlookup in Hg. case_match; [done|]. rewrite (total_insert _ _ g) by done. lia.
  - intros i c. rewrite !zlookup_insert by done. case_decide; [intros [= <-]; subst; by exists (g + 1)|].
    intros Hc. destruct (Hp i c Hc) as (g' & Hg' & Hc'). exists g'. split; [done|].
    by eapply client_puts_grow.
Qed.

Lemma server_put b ver kv :
  0 ≤ ver ≤ version kv → version kv < 2 ^ 63 →
  Server.Put (mkPutArgs pkey b ver) kv =
  if decide (ver = version kv) then (<[pkey := mkKVEntry b (version kv + 1)]> kv, mkPutReply OK)
  else if decide (is_Some (kv !! pkey)) then (kv, mkPutReply ErrVersion) else (kv, mkPutReply ErrNoKey).
Proof.
  intros Hver Hb. unfold Server.Put, version in *. cbn [put_Key put_Value put_Version].
  destruct (kv !! pkey) as [e|].
  - destruct (Z.eqb_spec ver e.(Version)) as [->|Hne]; cbn [negb].
    + rewrite decide_True by done. unfold u64. by rewrite Z.mod_small by lia.
    + rewrite decide_False by done. by rewrite decide_True by (by eexists).
  - assert (ver = 0) as -> by lia. done.
Qed.

(** A call of the put, executed or not, answered or not. *)
Lemma put_attempt_inv reliable kv me res ver first executed replied g :
  0 ≤ version kv < 2 ^ 63 → (version kv ≠ 0 → is_Some (kv !! pkey)) →
  (reliable = true → executed && replied = true) →
  client_puts reliable kv me (mkPutClient res (PPutting ver first)) g →
  ∃ st kv', put_attempt me ver first executed replied kv = Ret (st, kv') ∧
    ((kv' = kv ∧ client_puts reliable kv me (mkPutClient res st) g) ∨
     (∃ b, kv' = <[pkey := mkKVEntry b (version kv + 1)]> kv ∧ is_Some (Unmarshal (A := EntryV) b) ∧
        client_puts reliable kv' me (mkPutClient res st) (g + 1))).
Proof.
  intros Hv Hkey Hrel (Hok & Hmay & Hz & Hr & Hver & Hfirst & Hg & Hcur & Hg1). cbn [pc_res pc_st] in *.
  unfold put_attempt. destruct (Marshal_total (mkEntryV me ver)) as [b Hb]. rewrite Hb.
  assert (∀ b', version (<[pkey := mkKVEntry b' (version kv + 1)]> kv) = version kv + 1) as Hv'
    by (intros b'; unfold version at 1; by rewrite lookup_insert_eq).
  destruct executed; [rewrite server_put by lia; case_decide as Hcase; [|destruct (decide (ver < version kv)); [|lia]]|].
  - pose proof (Unmarshal_Marshal _ _ Hb) as Hu. destruct replied; cbn [andb].
    + unfold Clerk.put_iter. cbn [pr_Err]. rewrite bool_decide_false by done. rewrite bool_decide_true by done. cbn [orb negb].
      eexists _, _. split; [done|right]. exists b. split; [done|]. split; [by eexists|].
      unfold client_puts. cbn [pc_res pc_st]. rewrite Hv'. split_and!; [lia|lia|lia|done|lia|lia|]. left.
      specialize (Hcur ltac:(by right)). split_and!; [done|lia..|]. intros _ b'. rewrite lookup_insert_eq.
      intros [= <-]. by rewrite Hu.
    + eexists _, _. split; [done|right]. exists b. split; [done|]. split; [by eexists|].
      unfold client_puts. cbn [pc_res pc_st]. rewrite Hv'. specialize (Hcur ltac:(by right)).
      split_and!; try lia; try done; by intros ?%Hrel.
  - rewrite decide_True by (apply Hkey; lia). destruct replied; cbn [andb].
    + unfold Clerk.put_iter. cbn [pr_Err]. rewrite bool_decide_true by done. destruct first.
      * eexists _, _. split; [done|left]. split; [done|]. unfold client_puts. cbn [pc_res pc_st].
        split_and!; try lia; try done. right; left. split; [done|]. specialize (Hcur ltac:(by left)). lia.
      * eexists _, _. split; [done|left]. split; [done|]. unfold client_puts. cbn [pc_res pc_st].
        split_and!; try lia; try done. right; right. split; [done|]. split; [|lia].
        destruct reliable; [by specialize (Hfirst eq_refl)|done].
    + eexists _, _. split; [done|left]. split; [done|]. unfold client_puts. cbn [pc_res pc_st].
      split_and!; try lia; try done; by intros ?%Hrel.
  - eexists _, _. split; [done|left]. split; [done|]. unfold client_puts. cbn [pc_res pc_st].
    split_and!; try lia; try done.
Qed.

Lemma get_json_inv reliable m s gs :
  put_inv reliable m s gs → 1 ≤ version s.(pu_kv) →
  ∃ e b, get_json s.(pu_kv) = Ret (e, version s.(pu_kv)) ∧
    s.(pu_kv) !! pkey = Some (mkKVEntry b (version s.(pu_kv))) ∧ Unmarshal b = Some e.
Proof.
  intros [Hj _ _ _ _ _]. unfold version, get_json. cbn [Clerk.Get]. unfold Server.Get. cbn [get_Key].
  destruct (s.(pu_kv) !! pkey) as [[b v]|]; [|lia]. intros _. destruct (Hj _ eq_refl) as [_ [e He]].
  cbn [gr_Value gr_Version gr_Err Value Version] in *. rewrite bool_decide_true, He by done. by exists e, b.
Qed.

(** The get after a put. *)
Lemma check_put_inv reliable m s gs me cl ver err g :
  put_inv reliable m s gs → m < 2 ^ 63 → cl.(pc_st) = PCheck ver err → client_puts reliable s.(pu_kv) me cl g →
  ∃ cl', check_put me ver err cl.(pc_res) s.(pu_kv) = Ret cl' ∧ client_puts reliable s.(pu_kv) me cl' g ∧
    rounds cl' ≤ rounds cl + 1.
Proof.
  intros Hinv Hm Hst (Hok & Hmay & Hz & Hr & Hcase). rewrite Hst in Hcase. destruct Hcase as (Hver & Hv & Hcase).
  destruct (get_json_inv _ _ _ _ Hinv Hv) as (e & b & Hget & Hb & He). pose proof (pi_bound _ _ _ _ Hinv) as Hbd.
  unfold check_put. rewrite Hget. cbn [mbind go_bind].
  destruct Hcase as [(-> & Hg & Hle & Hmine)|[(-> & Hg)|(-> & Hrel & Hg)]].
  - rewrite bool_decide_true by done. unfold u64. rewrite Z.mod_small by lia.
    assert ((version s.(pu_kv) =? ver + 1) && negb (ev_Id e =? me) && negb (ev_V e =? ver) = false) as Hno.
    { destruct (Z.eqb_spec (version s.(pu_kv)) (ver + 1)) as [Heq|]; [|done].
      pose proof (Hmine Heq b Hb) as Hu. rewrite He in Hu. injection Hu as ->. cbn. by rewrite Z.eqb_refl. }
    cbn [andb]. rewrite Hno. eexists. split; [done|]. unfold client_puts, rounds. cbn [pc_res pc_st Nok Nmaybe].
    split_and!; try lia; done.
  - rewrite !bool_decide_false by done. cbn [andb]. eexists. split; [done|]. unfold client_puts, rounds. cbn [pc_res pc_st].
    split_and!; try lia; done.
  - rewrite bool_decide_false, bool_decide_true by done. cbn [andb]. eexists. split; [done|].
    unfold client_puts, rounds. cbn [pc_res pc_st Nok Nmaybe]. split_and!; try lia. by rewrite Hrel.
Qed.

Lemma put_inv_mono reliable m s gs : put_inv reliable m s gs → put_inv reliable (m + 1) s gs.
Proof. intros [? ? ? ? ? ?]. constructor; (done || lia). Qed.

Lemma put_step_inv reliable m s gs e :
  put_inv reliable m s gs → m < 2 ^ 63 → (reliable = true → is_reliable e = true) →
  returns (put_step s e) (λ s', ∃ gs', put_inv reliable (m + 1) s' gs').
Proof.
  intros Hinv Hm Hrel. pose proof (version_nonneg _ _ _ _ Hinv) as Hv0. pose proof (pi_bound _ _ _ _ Hinv) as Hbd.
  assert (∀ s', s' = s → returns (Ret s') (λ s', ∃ gs', put_inv reliable (m + 1) s' gs')) as Hsame.
  { intros s' ->. apply returns_Ret. exists gs. by apply put_inv_mono. }
  destruct e as [me executed replied|me]; cbn [put_step]; (destruct (s.(pu_clients).[me]) as [cl|] eqn:Hme; [|by apply Hsame]);
    destruct (pi_puts _ _ _ _ Hinv me cl Hme) as (g & Hg & Hcl).
  - assert (∀ ver first, client_puts reliable s.(pu_kv) me (mkPutClient cl.(pc_res) (PPutting ver first)) g →
      returns (r ← put_attempt me ver first executed replied s.(pu_kv);
        Ret (p_update me (mkPutClient cl.(pc_res) r.1) r.2 s)) (λ s', ∃ gs', put_inv reliable (m + 1) s' gs')) as Hatt.
    { intros ver first Hp.
      destruct (put_attempt_inv reliable s.(pu_kv) me cl.(pc_res) ver first executed replied g)
        as (st & kv' & -> & Hcase); [lia| |exact Hrel|done|].
      - intros Hne. destruct (get_json_inv _ _ _ _ Hinv ltac:(lia)) as (? & ? & _ & Hk & _). by eexists.
      - cbn [mbind go_bind fst snd]. apply returns_Ret. destruct Hcase as [[-> Hp']|(b & -> & Hb & Hp')].
        + exists gs. apply (put_inv_client reliable m s gs me cl _ g); [done..|unfold rounds; cbn; lia|done].
        + eexists. apply (put_inv_accept reliable m s gs me cl _ g b); [done..|unfold rounds; cbn; lia|done]. }
    destruct (pc_st cl) as [ver|ver first|ver err] eqn:Hst.
    + apply Hatt. destruct Hcl as (Hok & Hmay & Hz & Hr & Hc). rewrite Hst in Hc. unfold client_puts. cbn [pc_res pc_st].
      split_and!; try lia; done.
    + apply Hatt. destruct cl as [res st]. cbn in Hst. by subst st.
    + by apply Hsame.
  - destruct (pc_st cl) as [ver|ver first|ver err] eqn:Hst; [by apply Hsame..|].
    destruct (check_put_inv reliable m s gs me cl ver err g Hinv Hm Hst Hcl) as (cl' & -> & Hcl' & Hrd).
    cbn [mbind go_bind]. apply returns_Ret. exists gs. by apply (put_inv_client reliable m s gs me cl _ g).
Qed.

Lemma put_start_inv reliable n : put_inv reliable 0 (put_start n) (replicate (Z.to_nat n) 0).
Proof.
  constructor; cbn [put_start pu_kv pu_clients].
  - intros e. unfold MakeKVServer. by rewrite lookup_empty.
  - done.
  - induction (Z.to_nat n) as [|k IH]; [done|]. change (0 + total (rounds <$> replicate k (mkPutClient (mkClntRes 0 0) (PIdle 0))) ≤ 0). lia.
  - by rewrite !length_replicate.
  - unfold version, MakeKVServer. rewrite lookup_empty. induction (Z.to_nat n) as [|k IH]; [done|].
    change (0 + total (replicate k 0) = 0). lia.
  - intros me cl Hcl. exists 0. pose proof (zlookup_lt_Some _ _ _ Hcl) as Hb. rewrite glen_replicate in Hb.
    unfold zlookup in *. case_match; [done|]. apply lookup_replicate in Hcl as [-> _].
    split; [apply lookup_replicate; split; [done|lia]|]. by unfold client_puts.
Qed.

(** What the test adds up. *)
Lemma total_bounds (cls : list PutClient) gs reliable kv :
  length gs = length cls →
  (∀ i cl, cls !! i = Some cl → ∃ me g, gs !! i = Some g ∧ client_puts reliable kv me cl g ∧ ∃ ver, cl.(pc_st) = PIdle ver) →
  let sum := foldl (λ res r, mkClntRes (res.(Nok) + r.(Nok)) (res.(Nmaybe) + r.(Nmaybe))) (mkClntRes 0 0) (pc_res <$> cls) in
  sum.(Nok) ≤ total gs ≤ sum.(Nok) + sum.(Nmaybe) ∧ (reliable = true → sum.(Nmaybe) = 0) ∧ 0 ≤ sum.(Nok) ∧ 0 ≤ sum.(Nmaybe) ∧
  sum.(Nok) + sum.(Nmaybe) = total (rounds <$> cls).
Proof.
  intros Hl Hc. cbn zeta.
  assert (∀ r0, let sum := foldl (λ res r, mkClntRes (res.(Nok) + r.(Nok)) (res.(Nmaybe) + r.(Nmaybe))) r0 (pc_res <$> cls) in
    0 ≤ sum.(Nok) - r0.(Nok) ≤ total gs ∧ total gs ≤ sum.(Nok) - r0.(Nok) + (sum.(Nmaybe) - r0.(Nmaybe)) ∧
    0 ≤ sum.(Nmaybe) - r0.(Nmaybe) ∧ (reliable = true → sum.(Nmaybe) = r0.(Nmaybe)) ∧
    sum.(Nok) + sum.(Nmaybe) = r0.(Nok) + r0.(Nmaybe) + total (rounds <$> cls)) as Hgen.
  { revert gs Hl Hc. induction cls as [|cl cls IH]; intros [|g gs] Hl Hc r0; try done.
    - cbn. split_and!; try lia; done.
    - destruct (Hc 0%nat cl eq_refl) as (me & g' & Hg & (Hok & Hmay & _ & Hr & Hst) & ver & Hidle).
      injection Hg as <-. rewrite Hidle in Hst. rewrite fmap_cons. cbn [foldl].
      change (total (g :: gs)) with (g + total gs).
      destruct (IH gs ltac:(cbn in Hl; lia) ltac:(intros i c Hi; by apply (Hc (S i))) (mkClntRes (r0.(Nok) + cl.(pc_res).(Nok)) (r0.(Nmaybe) + cl.(pc_res).(Nmaybe)))) as (H1 & H2 & H3 & H4 & H5).
      cbn [Nok Nmaybe] in *.
      assert (total (rounds <$> cl :: cls) = cl.(pc_res).(Nok) + cl.(pc_res).(Nmaybe) + total (rounds <$> cls)) as Ht by done.
      rewrite Ht. split_and!; try lia. intros Hrel. rewrite (H4 Hrel), (Hr Hrel). lia. }
  destruct (Hgen (mkClntRes 0 0)) as (H1 & H2 & H3 & H4 & H5). cbn [Nok Nmaybe] in *. split_and!; try lia. done.
Qed.

(** C8. [TestPutConcurrentReliable] raises no false alarm, nor would it on a lossy
    network: for any number of racing clients, any interleaving and any calls
    lost before or after the server executes them, no client fails, and once
    every client is between two rounds and one has made a round,
    [CheckPutConcurrent] passes; if no call was lost, also the check for a
    reliable network, that the version is exactly the number of puts that
    returned [OK]. *)
Theorem put_test_passes n evs reliable :
  glen evs < 2 ^ 63 → (reliable = true → Forall (λ e, is_reliable e = true) evs) →
  returns (put_run n evs) (λ s,
    Forall (λ cl, ∃ ver, cl.(pc_st) = PIdle ver) s.(pu_clients) →
    (∃ cl, cl ∈ s.(pu_clients) ∧ 0 < cl.(pc_res).(Nok) + cl.(pc_res).(Nmaybe)) →
    returns (put_check reliable s) (λ res, reliable = true → res.(Nok) = version s.(pu_kv))).
Proof.
  intros Hlen Hrel.
  assert (∀ evs m s gs, put_inv reliable m s gs → m + glen evs < 2 ^ 63 →
    (reliable = true → Forall (λ e, is_reliable e = true) evs) →
    returns (foldM put_step s evs) (λ s', ∃ m' gs', put_inv reliable m' s' gs' ∧ m' < 2 ^ 63)) as Hrun.
  { clear Hlen Hrel evs. induction evs as [|e evs IH]; intros m s gs Hs Hb Hr; cbn [foldM].
    { apply returns_Ret. exists m, gs. split; [done|]. rewrite glen_nil in Hb. lia. }
    rewrite glen_cons in Hb. pose proof (glen_nonneg evs).
    eapply returns_bind; [apply (put_step_inv reliable m s gs e Hs); [lia|]|].
    - intros Ht. specialize (Hr Ht). by apply Forall_cons in Hr as [? _].
    - intros s1 [gs1 Hs1]. apply (IH (m + 1) s1 gs1 Hs1); [lia|]. intros Ht. specialize (Hr Ht).
      by apply Forall_cons in Hr as [_ ?]. }
  eapply returns_mono; [apply (Hrun evs 0 _ _ (put_start_inv reliable n)); [lia|done]|].
  intros s (m & gs & Hinv & Hm) Hidle (cl & Hin & Hpos). pose proof (version_nonneg _ _ _ _ Hinv) as Hv0.
  pose proof (pi_bound _ _ _ _ Hinv) as Hbd.
  assert (1 ≤ version s.(pu_kv)) as Hv.
  { apply zlookup_elem_of in Hin as [me Hme]. destruct (pi_puts _ _ _ _ Hinv me cl Hme) as (g & _ & _ & _ & Hz & _).
    destruct (Z.eq_dec (version s.(pu_kv)) 0) as [E|]; [specialize (Hz E)|]; lia. }
  destruct (get_json_inv _ _ _ _ Hinv Hv) as (e & b & Hget & _). unfold put_check. rewrite Hget. cbn [mbind go_bind snd].
  destruct (total_bounds s.(pu_clients) gs reliable s.(pu_kv)) as (Hsum & Hr & Hn1 & Hn2 & Hrd); [apply (pi_len _ _ _ _ Hinv)| |].
  - intros i c Hi. assert (s.(pu_clients).[Z.of_nat i] = Some c) as Hz
      by (unfold zlookup; case_if; [lia|by rewrite Nat2Z.id]).
    destruct (pi_puts _ _ _ _ Hinv _ c Hz) as (g & Hg & Hp). exists (Z.of_nat i), g.
    unfold zlookup in Hg. destruct (Z.of_nat i <? 0); [done|]. rewrite Nat2Z.id in Hg. split; [done|]. split; [done|].
    rewrite Forall_forall in Hidle. apply Hidle. by eapply list_elem_of_lookup_2.
  - unfold CheckPutConcurrent. rewrite (pi_total _ _ _ _ Hinv) in Hsum.
    set (sum := foldl _ _ _) in *. destruct reliable.
    + specialize (Hr eq_refl). assert (u64 sum.(Nok) = version s.(pu_kv)) as Hu by (unfold u64; rewrite Z.mod_small; lia).
      rewrite Hu, Z.eqb_refl. apply returns_Ret. lia.
    + pose proof (pi_rounds _ _ _ _ Hinv). unfold u64. rewrite Z.mod_small by lia.
      case_if; [lia|]. by apply returns_Ret.
Qed.
End puts.
