(* ===== verification/KvPutsWitness.v ===== *)
(** * The put test at concrete runs: one with a reliable network, one with lost
    calls *)

From S2P Require Import Prelude KvServer KvTest KvAppend KvAppendWitness KvPuts.

#[local] Instance EntryV_eq_dec : EqDecision EntryV.
Proof. solve_decision. Defined.
#[local] Instance EntryV_countable : Countable EntryV.
Proof. refine (inj_countable' (λ e, (e.(ev_Id), e.(ev_V))) (λ p, mkEntryV p.1 p.2) _). by intros []. Defined.
#[local] Instance entry_json : Json EntryV :=
  {| Marshal v := Some (pos_str (encode v)); Unmarshal b := decode (str_pos b) |}.
#[local] Instance entry_laws : JsonLaws EntryV.
Proof. split; [by eexists|]. intros v b [= <-]. cbn. by rewrite str_pos_str, decode_encode. Qed.

(** Three clients; client 1 loses the first race, client 2 makes no round. *)
Definition reliable_race : list PutEvent :=
  [PAttempt 0 true true; PAttempt 1 true true; PGet 0; PGet 1; PAttempt 1 true true; PGet 1; PAttempt 0 true true; PGet 0;
   PAttempt 0 true true; PGet 0].
(** Client 0's put is executed, but its reply is lost. *)
Definition lossy_race : list PutEvent :=
  [PAttempt 0 true false; PAttempt 1 false false; PAttempt 0 true true; PAttempt 1 true true; PGet 0; PGet 1].

Definition put_end (n : Z) (evs : list PutEvent) : PutSys := result (put_run n evs) (put_start 0).

Lemma put_test_passes_witness :
  returns (put_check true (put_end 3 reliable_race)) (λ res, res.(Nok) = version (put_end 3 reliable_race).(pu_kv)) ∧
  returns (put_check false (put_end 2 lossy_race)) (λ _, True).
Proof.
  split.
  - destruct (put_test_passes 3 reliable_race true) as (s & Hs & Hc).
    + reflexivity.
    + intros _. repeat constructor.
    + assert (put_end 3 reliable_race = s) as Es by (unfold put_end; rewrite Hs; exact eq_refl).
      assert (s.(pu_clients) = [mkPutClient (mkClntRes 2 0) (PIdle 3); mkPutClient (mkClntRes 1 0) (PIdle 2);
        mkPutClient (mkClntRes 0 0) (PIdle 0)]) as Ec by (rewrite <-Es; vm_compute; reflexivity).
      rewrite Es. eapply returns_mono; [apply Hc|].
      * rewrite Ec. repeat constructor; by eexists.
      * rewrite Ec. eexists. split; [left|reflexivity].
      * intros res Hres. exact (Hres eq_refl).
  - destruct (put_test_passes 2 lossy_race false) as (s & Hs & Hc).
    + reflexivity.
    + intros Hf. discriminate Hf.
    + assert (put_end 2 lossy_race = s) as Es by (unfold put_end; rewrite Hs; exact eq_refl).
      assert (s.(pu_clients) = [mkPutClient (mkClntRes 0 1) (PIdle 1); mkPutClient (mkClntRes 0 1) (PIdle 1)]) as Ec
        by (rewrite <-Es; vm_compute; reflexivity).
      rewrite Es. eapply returns_mono; [apply Hc|].
      * rewrite Ec. repeat constructor; by eexists.
      * rewrite Ec. eexists. split; [left|reflexivity].
      * intros res _. exact I.
Defined.
