(* ===== verification/KvClientsWitness.v ===== *)
(** * Spawning clients at concrete runs

    Two clients of [OneClientPut] that race for one key of the server, and two
    clients of the lock test, which the repository's skeleton of the lock lets
    into the critical section together. *)

From S2P Require Import Prelude KvServer Lock KvTest KvAppend KvAppendWitness KvPuts KvClients.

(** ** [OneClientPut] against the server *)

#[local] Instance EntryV_eq_dec : EqDecision EntryV.
Proof. solve_decision. Defined.
#[local] Instance EntryV_countable : Countable EntryV.
Proof. refine (inj_countable' (λ e, (e.(ev_Id), e.(ev_V))) (λ p, mkEntryV p.1 p.2) _). by intros []. Defined.
#[local] Instance entry_json : Json EntryV :=
  {| Marshal v := Some (pos_str (encode v)); Unmarshal b := decode (str_pos b) |}.

(** The next call of a put; the network loses nothing. *)
Definition put_work (me : Z) (l : PutClient) (kv : KVServer) : option PutClient * KVServer :=
  let attempt ver first :=
    match put_attempt me ver first true true kv with
    | Ret (st, kv) => (Some (mkPutClient l.(pc_res) st), kv)
    | _ => (None, kv)
    end in
  match l.(pc_st) with
  | PIdle ver => attempt ver true
  | PPutting ver first => attempt ver first
  | PCheck ver err => match check_put me ver err l.(pc_res) kv with Ret l => (Some l, kv) | _ => (None, kv) end
  end.

#[local] Instance putters : Fclnt PutClient KVServer := {|
  MakeClerk _ kv := (mkPutClient (mkClntRes 0 0) (PIdle 0), kv);
  at_select l := match l.(pc_st) with PIdle _ => Some l.(pc_res) | _ => None end;
  work := put_work;
  DeleteClerk _ kv := kv;
|}.

(** Client 0 puts; client 1's put is refused, and the signal for it comes while
    it tries again; client 0 takes the first signal. *)
Definition race : list Label :=
  [LMain; LMain; LStart 0; LStart 1; LMain; LDefault 0; LDefault 1; LWork 0; LWork 1; LMain; LMain; LDone 0; LWork 1;
   LMain; LWork 1; LDone 1; LMain; LMain; LDelete 0; LMain; LMain].
Definition race_end : Spawn PutClient KVServer := default (SpawnClientsAndWait 0 ∅) (spawn_run 2 MakeKVServer race).

Lemma race_runs : spawn_run 2 MakeKVServer race = Some race_end.
Proof. vm_compute. reflexivity. Qed.

Lemma spawn_collects_witness :
  race_end.(sp_main) = MDone [mkClntRes 1 0; mkClntRes 1 0] ∧
  took_signal 2 MakeKVServer race 1 (mkClntRes 1 0) ∧ race_end.(sp_clients).[1] = Some (CDelete (mkClntRes 1 0)).
Proof.
  assert (race_end.(sp_main) = MDone [mkClntRes 1 0; mkClntRes 1 0]) as Hm by (vm_compute; reflexivity).
  split; [exact Hm|].
  destruct (spawn_collects 2 MakeKVServer race race_end _ ltac:(lia) race_runs Hm) as [_ Hc].
  destruct (Hc 1 ltac:(lia)) as (v & Hv & Ht & _). injection Hv as <-. split; [exact Ht|]. vm_compute. reflexivity.
Defined.

Lemma spawn_terminates_witness :
  glen race ≤ 6 * 2 + 4 + countb is_work race ∧ countb is_work race = 6 ∧
  ∃ lb, (∀ c, lb ≠ LDefault c) ∧ is_Some (spawn_step race_end lb).
Proof.
  destruct (spawn_terminates 2 MakeKVServer race race_end ltac:(lia) race_runs) as [Hl Hp].
  split; [exact Hl|]. split; [vm_compute; reflexivity|].
  destruct Hp as [[_ Hg]|Hp]; [vm_compute; reflexivity| |exact Hp].
  destruct (Hg 1 (CDelete (mkClntRes 1 0))) as [v Hv]; [vm_compute; reflexivity|discriminate Hv].
Defined.

(** ** The lock test with the skeleton of the lock *)

#[local] Instance lockers : Fclnt LockPhase KVServer := {|
  MakeClerk _ kv := (LkAcquire1, kv);
  at_select ph := match ph with LkSelect i => Some (mkClntRes i 0) | _ => None end;
  work me ph kv :=
    let executed := match ph with LkSelect _ => false | _ => true end in
    match lk_client (H := skeleton_locks) "a" "b" me executed true ph kv tt with
    | Ret (ph, kv, _) => (Some ph, kv)
    | _ => (None, kv)
    end;
  DeleteClerk _ kv := kv;
|}.

(** Both are in the critical section; client 1 finds client 0's number and fails
    the test. Client 0 goes on and takes the first signal. *)
Definition overlap : list Label :=
  [LMain; LMain; LMain; LStart 0; LStart 1] ++ replicate 5 (LWork 0) ++ replicate 5 (LWork 1) ++
  [LDefault 0; LDefault 1; LWork 0; LWork 1; LWork 0; LWork 0; LWork 1].
Definition overlap_rest : list Label := [LMain; LMain; LWork 0; LWork 0; LDone 0; LMain].
Definition overlap_end : Spawn LockPhase KVServer :=
  default (SpawnClientsAndWait 0 ∅) (spawn_run 2 MakeKVServer overlap).
Definition overlap_stuck : Spawn LockPhase KVServer :=
  default (SpawnClientsAndWait 0 ∅) (spawn_run 2 MakeKVServer (overlap ++ overlap_rest)).

Lemma failed_client_blocks_witness :
  overlap_end.(sp_clients).[1] = Some CDead ∧ overlap_stuck.(sp_main) = MParked 1 ∧
  ∀ rs, overlap_stuck.(sp_main) ≠ MDone rs.
Proof.
  split; [vm_compute; reflexivity|]. split; [vm_compute; reflexivity|].
  apply (failed_client_blocks 2 MakeKVServer overlap overlap_end 1 overlap_rest overlap_stuck);
    [lia|vm_compute; reflexivity..].
Defined.
