(* ===== verification/KvWitness.v ===== *)
(** * The key/value theorems at concrete runs

    Two clerks race for one key while a reply is lost, so that one put ends
    in [ErrMaybe]; and one [Clerk.Put] whose first reply is lost and whose
    second call another clerk's put overtakes. *)

From S2P Require Import Prelude KvServer KvLin.

(** Clerk 1's put is executed and its reply lost; clerk 2 puts version 1 and
    gets; clerk 1 tries again and gives up with [ErrMaybe]. *)
Definition race : list SysEvent :=
  [Invoke 1 (OpPut "x" "a" 0); Call 1 true false; Invoke 2 (OpPut "x" "b" 1);
   Call 2 false false; Call 2 true true; Call 1 true true; Invoke 2 (OpGet "x"); Call 2 true true].

Lemma race_no_missing : no_missing_put (sys_run race sys_init).2.
Proof.
  intros c key value version out Hin. vm_compute in Hin.
  repeat (apply elem_of_cons in Hin as [Hin|Hin]; [by inversion Hin|]). by apply elem_of_nil in Hin.
Qed.

Lemma kv_linearizable_witness :
  linearizable (sys_run race sys_init).2 ∧
  TRet 1 (put_out ErrMaybe) ∈ (sys_run race sys_init).2 ∧
  TRet 2 (mkKvOutput "b" 2 OK) ∈ (sys_run race sys_init).2.
Proof.
  split; [|vm_compute; split; repeat constructor].
  refine (kv_linearizable race (sys_run race sys_init).1 _ (surjective_pairing _) _ race_no_missing).
  vm_compute; reflexivity.
Defined.

Definition lost_then_late : list Attempt :=
  [mkAttempt [] true false; mkAttempt [mkPutArgs "x" "b" 1] true true].

Definition lost_run := attempts_run (mkPutArgs "x" "a" 0) lost_then_late MakeKVServer.

Lemma clerk_put_contract_witness :
  ∃ err, Clerk.Put lost_run.1.1 = Some err ∧ (lost_run.1.2 ≤ 1)%nat ∧ (err = OK → lost_run.1.2 = 1%nat).
Proof.
  destruct (clerk_put_contract (mkPutArgs "x" "a" 0) lost_then_late 0 MakeKVServer
    lost_run.1.1 lost_run.1.2 lost_run.2) as (err & H1 & H2 & H3 & _).
  - intros k e Hk. unfold MakeKVServer in Hk. by rewrite lookup_empty in Hk.
  - lia.
  - vm_compute; reflexivity.
  - vm_compute; reflexivity.
  - unfold lost_run. by destruct (attempts_run _ _ _) as [[? ?] ?].
  - by exists err.
Defined.
