(* ===== verification/GoStrings.v ===== *)
(** * Strings of Go's standard library

    Go's strings are bytes, in UTF-8 where the code asks for runes: [utf8]'s
    decoding, [strings.FieldsFunc], [strings.TrimSpace], [strings.Split] and
    [base64.URLEncoding], as the code under [src/] uses them. *)

From S2P Require Import Prelude Names.
From Stdlib Require Import Ascii.

(** ** Runes *)

Definition byte_at (s : string) : Z :=
  match s with EmptyString => -1 | String c _ => Z.of_N (N_of_ascii c) end.

Definition RuneError : Z := 65533.

(** How many bytes the encoding that starts with this byte has, and the range
    of the second byte ([utf8]'s table of first bytes); [None] for a byte that
    starts no encoding. *)
Definition first_byte (b : Z) : option (nat * Z * Z) :=
  if b <? 128 then Some (1%nat, 0, 0)
  else if (194 <=? b) && (b <=? 223) then Some (2%nat, 128, 191)
  else if b =? 224 then Some (3%nat, 160, 191)
  else if b =? 237 then Some (3%nat, 128, 159)
  else if (225 <=? b) && (b <=? 239) then Some (3%nat, 128, 191)
  else if b =? 240 then Some (4%nat, 144, 191)
  else if (241 <=? b) && (b <=? 243) then Some (4%nat, 128, 191)
  else if b =? 244 then Some (4%nat, 128, 143)
  else None.

Definition in_bytes (lo hi b : Z) : bool := (lo <=? b) && (b <=? hi).
Definition low6 (b : Z) : Z := Z.land b 63.

(** The first rune of a nonempty string and its width; an invalid encoding is
    [RuneError] with width one. *)
Definition DecodeRune (s : string) : Z * nat :=
  let b0 := byte_at s in
  let b i := byte_at (String.substring i 1 s) in
  match first_byte b0 with
  | Some (1%nat, _, _) => (b0, 1%nat)
  | Some (2%nat, lo, hi) =>
    if in_bytes lo hi (b 1%nat)
    then (Z.lor (Z.shiftl (Z.land b0 31) 6) (low6 (b 1%nat)), 2%nat) else (RuneError, 1%nat)
  | Some (3%nat, lo, hi) =>
    if in_bytes lo hi (b 1%nat) && in_bytes 128 191 (b 2%nat)
    then (Z.lor (Z.lor (Z.shiftl (Z.land b0 15) 12) (Z.shiftl (low6 (b 1%nat)) 6)) (low6 (b 2%nat)), 3%nat)
    else (RuneError, 1%nat)
  | Some (_, lo, hi) =>
    if in_bytes lo hi (b 1%nat) && in_bytes 128 191 (b 2%nat) && in_bytes 128 191 (b 3%nat)
    then (Z.lor (Z.lor (Z.shiftl (Z.land b0 7) 18) (Z.shiftl (low6 (b 1%nat)) 12))
            (Z.lor (Z.shiftl (low6 (b 2%nat)) 6) (low6 (b 3%nat))), 4%nat)
    else (RuneError, 1%nat)
  | None => (RuneError, 1%nat)
  end.

Fixpoint drop_bytes (n : nat) (s : string) : string :=
  match n, s with
  | S n, String _ s => drop_bytes n s
  | _, _ => s
  end.
Fixpoint take_bytes (n : nat) (s : string) : string :=
  match n, s with
  | S n, String c s => String c (take_bytes n s)
  | _, _ => ""
  end.

(** [for i, r := range s]: every rune with the bytes that encode it. A rune has
    at least one byte, so the length of the string is enough fuel. *)
Fixpoint runes_from (fuel : nat) (s : string) : list (Z * string) :=
  match fuel, s with
  | S fuel, String _ _ =>
    let '(r, width) := DecodeRune s in
    (r, take_bytes width s) :: runes_from fuel (drop_bytes width s)
  | _, _ => []
  end.
Definition runes (s : string) : list (Z * string) := runes_from (String.length s) s.

(** [strings.FieldsFunc]: the runes that satisfy [f] separate the fields;
    [cur] is the field begun and not yet ended, if any. *)
Definition flush (cur : string) : list string := if bool_decide (cur = "") then [] else [cur].
Fixpoint fields (f : Z → bool) (cur : string) (rs : list (Z * string)) : list string :=
  match rs with
  | [] => flush cur
  | (r, b) :: rs => if f r then flush cur ++ fields f "" rs else fields f (cur +:+ b) rs
  end.
Definition FieldsFunc (s : string) (f : Z → bool) : list string := fields f "" (runes s).

(** ** Splitting into words *)

Section fields.
Context (f : Z → bool).
Implicit Types (rs word seps : list (Z * string)).

Definition text rs : string := join "" rs.*2.

(** [ws] are the maximal runs of runes that do not satisfy [f]. *)
Inductive Fields : list (Z * string) → list string → Prop :=
  | Fields_end seps : Forall (λ r, f r.1 = true) seps → Fields seps []
  | Fields_last seps word :
      Forall (λ r, f r.1 = true) seps → word ≠ [] → Forall (λ r, f r.1 = false) word →
      Fields (seps ++ word) [text word]
  | Fields_word seps word r rs ws :
      Forall (λ r, f r.1 = true) seps → word ≠ [] → Forall (λ r, f r.1 = false) word →
      f r.1 = true → Fields (r :: rs) ws →
      Fields (seps ++ word ++ r :: rs) (text word :: ws).

Lemma Fields_sep r rs ws : f r.1 = true → Fields rs ws → Fields (r :: rs) ws.
Proof.
  intros Hr Hrs. destruct Hrs.
  - apply Fields_end. by constructor.
  - apply (Fields_last (r :: seps)); auto.
  - apply (Fields_word (r :: seps)); auto.
Qed.

Lemma text_snoc word r b : text (word ++ [(r, b)]) = text word +:+ b.
Proof.
  unfold text. rewrite fmap_app. cbn. induction word as [|[r' b'] word IH]; [done|].
  cbn [fmap list_fmap app]. by rewrite !join_cons, IH, append_assoc.
Qed.

Lemma text_nonempty word : Forall (λ r, r.2 ≠ ""%string) word → text word = ""%string → word = [].
Proof.
  destruct word as [|[r b] word]; [done|]. intros [Hb _]%Forall_cons. unfold text. cbn [fmap list_fmap].
  rewrite join_cons. by destruct b.
Qed.

Lemma fields_run rs : ∀ word,
  Forall (λ r, r.2 ≠ ""%string) (word ++ rs) → Forall (λ r, f r.1 = false) word →
  Fields (word ++ rs) (fields f (text word) rs).
Proof.
  induction rs as [|[r b] rs IH]; intros word Hne Hword; cbn [fields]; unfold flush.
  - rewrite app_nil_r in *. case_bool_decide as Ht.
    + rewrite (text_nonempty _ Hne Ht). by apply Fields_end.
    + apply (Fields_last []); [done| |done]. by intros ->.
  - destruct (f r) eqn:Hr.
    + pose proof Hne as [Hnew [Hb Hrest]%Forall_cons]%Forall_app.
      pose proof (IH [] Hrest ltac:(done)) as HF. cbn in HF.
      case_bool_decide as Ht; cbn [app].
      * rewrite (text_nonempty _ Hnew Ht). by apply Fields_sep.
      * apply (Fields_word []); [done| |done|done|by apply Fields_sep]. by intros ->.
    + rewrite <-text_snoc with (r := r). specialize (IH (word ++ [(r, b)])).
      rewrite <-app_assoc in IH. apply IH; [done|]. apply Forall_app. split; [done|by repeat constructor].
Qed.
End fields.

(** Decoding loses nothing: every byte belongs to exactly one rune. *)
Lemma DecodeRune_width s : (1 ≤ (DecodeRune s).2)%nat.
Proof.
  unfold DecodeRune. destruct (first_byte _) as [[[[|[|[|[|n]]]] lo] hi]|]; cbn; try lia;
    repeat (destruct (in_bytes _ _ _); cbn; try lia).
Qed.

Lemma take_drop_bytes n s : take_bytes n s +:+ drop_bytes n s = s.
Proof.
  revert s. induction n as [|n IH]; intros [|c s]; cbn [take_bytes drop_bytes]; try done.
  apply (f_equal (String c)), IH.
Qed.

Lemma length_drop_bytes n s : String.length (drop_bytes n s) = (String.length s - n)%nat.
Proof. revert s. induction n as [|n IH]; intros [|c s]; cbn; auto with lia. Qed.

Lemma runes_from_text fuel s :
  (String.length s ≤ fuel)%nat →
  text (runes_from fuel s) = s ∧ Forall (λ r, r.2 ≠ ""%string) (runes_from fuel s).
Proof.
  revert s. induction fuel as [|fuel IH]; intros [|c s] Hlen; cbn [String.length] in Hlen; try lia;
    [done..|]. cbn [runes_from].
  pose proof (DecodeRune_width (String c s)) as Hw. destruct (DecodeRune _) as [r width]. cbn [snd] in Hw.
  destruct (IH (drop_bytes width (String c s))) as [Ht Hne].
  { rewrite length_drop_bytes. cbn [String.length]. lia. }
  split.
  - unfold text in *. cbn [fmap list_fmap snd]. by rewrite join_cons, Ht, take_drop_bytes.
  - constructor; [|done]. by destruct width; [lia|].
Qed.

(** [FieldsFunc] loses no letter: the runes of the string, all of it, split
    into the fields and the separators between them. *)
Theorem FieldsFunc_spec s f : text (runes s) = s ∧ Fields f (runes s) (FieldsFunc s f).
Proof.
  unfold runes. destruct (runes_from_text (String.length s) s) as [Ht Hne]; [done|]. split; [done|].
  by apply (fields_run f _ []).
Qed.


(** ** Trimming and splitting *)

Definition newline : string := String (ascii_of_nat 10) EmptyString.

(** [unicode.IsSpace]. *)
Definition IsSpace (r : Z) : bool :=
  in_bytes 9 13 r || (r =? 32) || (r =? 133) || (r =? 160) || (r =? 5760) || in_bytes 8192 8202 r
  || in_bytes 8232 8233 r || (r =? 8239) || (r =? 8287) || (r =? 12288).

Fixpoint trim_left (rs : list (Z * string)) : list (Z * string) :=
  match rs with
  | r :: rest => if IsSpace r.1 then trim_left rest else rs
  | [] => []
  end.

(** [strings.TrimSpace]. *)
Definition TrimSpace (s : string) : string :=
  text (reverse (trim_left (reverse (trim_left (runes s))))).

(** [strings.Split(s, sep)] for a separator of one byte; [cur] is the part
    begun. *)
Fixpoint split_from (sep : ascii) (cur s : string) : list string :=
  match s with
  | EmptyString => [cur]
  | String c s =>
    if bool_decide (c = sep) then cur :: split_from sep "" s else split_from sep (cur +:+ String c "") s
  end.
Definition Split (s : string) (sep : ascii) : list string := split_from sep "" s.

(** Printable characters of ASCII other than the space. *)
Definition plain_char (c : ascii) : bool := in_bytes 33 126 (Z.of_N (N_of_ascii c)).
Fixpoint plain (s : string) : bool :=
  match s with EmptyString => true | String c s => plain_char c && plain s end.

Definition rune_of (c : ascii) : Z * string := (Z.of_N (N_of_ascii c), String c "").
Fixpoint ascii_runes (s : string) : list (Z * string) :=
  match s with EmptyString => [] | String c s => rune_of c :: ascii_runes s end.
Fixpoint is_ascii (s : string) : bool :=
  match s with EmptyString => true | String c s => (Z.of_N (N_of_ascii c) <? 128) && is_ascii s end.

Lemma runes_ascii s : is_ascii s = true → runes s = ascii_runes s.
Proof.
  unfold runes. assert (∀ fuel, (String.length s ≤ fuel)%nat → is_ascii s = true →
    runes_from fuel s = ascii_runes s) as Hgen by (intros fuel; revert s;
    induction fuel as [|fuel IH]; intros [|c s] Hlen; cbn in Hlen; (lia || done || idtac);
    intros [Hc Hs]%andb_true_iff; cbn [runes_from ascii_runes]; unfold DecodeRune, first_byte, byte_at;
    rewrite Hc; cbn [take_bytes drop_bytes]; f_equal; destruct s; apply IH; cbn in *; (lia || done)).
  intros Hs. by apply Hgen.
Qed.

Lemma ascii_runes_app a b : ascii_runes (a +:+ b) = ascii_runes a ++ ascii_runes b.
Proof. induction a as [|c a IH]; [done|]. cbn [ascii_runes app]. by rewrite <-IH. Qed.

Lemma text_ascii_runes s : text (ascii_runes s) = s.
Proof.
  induction s as [|c s IH]; [done|]. unfold text in *. cbn [ascii_runes fmap list_fmap].
  rewrite join_cons, IH. done.
Qed.

Lemma is_ascii_app a b : is_ascii (a +:+ b) = is_ascii a && is_ascii b.
Proof.
  induction a as [|c a IH]; [done|]. cbn [is_ascii]. rewrite <-andb_assoc, <-IH. done.
Qed.

Lemma plain_app a b : plain (a +:+ b) = plain a && plain b.
Proof. induction a as [|c a IH]; [done|]. cbn [plain]. rewrite <-andb_assoc, <-IH. done. Qed.

Lemma plain_ascii s : plain s = true → is_ascii s = true.
Proof.
  induction s as [|c s IH]; [done|]. cbn [plain is_ascii]. unfold plain_char, in_bytes.
  intros [[_ Hc]%andb_true_iff Hs]%andb_true_iff. apply andb_true_iff. split; [lia|auto].
Qed.

Lemma plain_not_space c : plain_char c = true → IsSpace (rune_of c).1 = false.
Proof.
  unfold plain_char, IsSpace, rune_of, in_bytes. cbn [fst]. intros [? ?]%andb_true_iff.
  repeat (apply orb_false_iff; split); lia.
Qed.

(** Only the newline is trimmed from a text that begins and ends with
    printable characters. *)
Lemma TrimSpace_newline s c c' s' :
  is_ascii s = true → s = String c s' → plain_char c = true →
  last (ascii_runes s) = Some (rune_of c') → plain_char c' = true →
  TrimSpace (s +:+ newline) = s.
Proof.
  intros Hs -> Hc Hlast Hc'. unfold TrimSpace.
  rewrite runes_ascii by by rewrite is_ascii_app, Hs. rewrite ascii_runes_app.
  apply last_Some in Hlast as [rs Hrs]. rewrite Hrs.
  assert (trim_left ((rs ++ [rune_of c']) ++ ascii_runes newline) =
    (rs ++ [rune_of c']) ++ ascii_runes newline) as ->.
  { rewrite <-Hrs. cbn [ascii_runes app trim_left]. by rewrite plain_not_space. }
  rewrite !reverse_app, !reverse_singleton. cbn [app].
  assert (trim_left (reverse (ascii_runes newline) ++ rune_of c' :: reverse rs) = rune_of c' :: reverse rs) as ->.
  { change (reverse (ascii_runes newline)) with [rune_of (ascii_of_nat 10)]. cbn [app trim_left].
    by rewrite (plain_not_space c'). }
  rewrite reverse_cons, reverse_involutive, <-Hrs. apply text_ascii_runes.
Qed.

(** *** Lines *)

(** One path per line, as the commands print them. *)
Definition unlines (ls : list string) : string := foldr (λ l s, l +:+ newline +:+ s) "" ls.

Lemma unlines_join ls : ls ≠ [] → unlines ls = join newline ls +:+ newline.
Proof.
  induction ls as [|l [|l' ls] IH]; intros Hne; [done|done|].
  change (unlines (l :: l' :: ls)) with (l +:+ newline +:+ unlines (l' :: ls)).
  rewrite IH by done. change (join newline (l :: l' :: ls)) with (l +:+ newline +:+ join newline (l' :: ls)).
  by rewrite !append_assoc.
Qed.

Lemma split_from_plain l cur s :
  plain l = true → split_from (ascii_of_nat 10) cur (l +:+ s) = split_from (ascii_of_nat 10) (cur +:+ l) s.
Proof.
  revert cur. induction l as [|c l IH]; intros cur Hl; [by rewrite append_nil_r|].
  cbn [plain] in Hl. apply andb_true_iff in Hl as [Hc Hl].
  change (String c l +:+ s) with (String c (l +:+ s)). cbn [split_from].
  rewrite bool_decide_false by (intros ->; done). rewrite IH by done. by rewrite append_assoc.
Qed.

Lemma Split_join ls :
  ls ≠ [] → Forall (λ l, plain l = true) ls → Split (join newline ls) (ascii_of_nat 10) = ls.
Proof.
  unfold Split. induction ls as [|l [|l' ls] IH]; intros Hne Hls; [done|..];
    apply Forall_cons in Hls as [Hl Hls].
  - cbn [join]. rewrite <-(append_nil_r l) at 1. by rewrite split_from_plain.
  - change (join newline (l :: l' :: ls)) with (l +:+ newline +:+ join newline (l' :: ls)).
    rewrite split_from_plain by done. change ("" +:+ l) with l.
    change (newline +:+ ?s) with (String (ascii_of_nat 10) s). cbn [split_from].
    rewrite bool_decide_true by done. f_equal. by apply IH.
Qed.

Lemma plain_ends l :
  plain l = true → l ≠ "" →
  ∃ c s c', l = String c s ∧ plain_char c = true ∧
    last (ascii_runes l) = Some (rune_of c') ∧ plain_char c' = true.
Proof.
  destruct l as [|c l]; [done|]. cbn [plain]. intros [Hc Hl]%andb_true_iff _.
  assert (∃ c', last (ascii_runes (String c l)) = Some (rune_of c') ∧ plain_char c' = true) as (c' & ? & ?).
  { revert c Hc Hl. induction l as [|d l IH]; intros c Hc Hl; [by exists c|].
    cbn [plain] in Hl. apply andb_true_iff in Hl as [Hd Hl]. exact (IH d Hd Hl). }
  by exists c, l, c'.
Qed.

(** The output of a command that prints names, read back. *)
Lemma split_unlines ls :
  ls ≠ [] → Forall (λ l, plain l = true ∧ l ≠ "") ls →
  TrimSpace (unlines ls) ≠ "" ∧ Split (TrimSpace (unlines ls)) (ascii_of_nat 10) = ls.
Proof.
  intros Hne Hls. rewrite unlines_join by done.
  assert (is_ascii (join newline ls) = true ∧ ∃ c s c', join newline ls = String c s ∧
    plain_char c = true ∧ last (ascii_runes (join newline ls)) = Some (rune_of c') ∧
    plain_char c' = true) as (Ha & c & s & c' & Hs & Hc & Hl & Hc').
  { clear -Hne Hls. induction ls as [|l [|l' ls] IH]; [by destruct Hne|..];
      apply Forall_cons in Hls as [[Hl Hnel] Hls];
      destruct (plain_ends l Hl Hnel) as (c & s & c' & Hs & Hc & Hlast & Hc').
    - split; [by apply plain_ascii|]. by exists c, s, c'.
    - change (join newline (l :: l' :: ls)) with (l +:+ newline +:+ join newline (l' :: ls)).
      destruct (IH ltac:(done) Hls) as (Ha & d & s2 & d' & Hd & _ & Hl' & Hd').
      split; [rewrite !is_ascii_app, Ha; by rewrite plain_ascii|].
      exists c, (s +:+ newline +:+ join newline (l' :: ls)), d'. subst l. split; [done|]. split; [done|].
      split; [|done]. by rewrite !ascii_runes_app, !last_app, Hl'. }
  rewrite (TrimSpace_newline _ c c' s) by done. split; [by rewrite Hs|].
  apply Split_join; [done|]. eapply Forall_impl; [exact Hls|]. by intros l [? _].
Qed.

(** ** Base 64 *)

(** [base64.URLEncoding]'s alphabet. *)
Definition b64_char (n : Z) : string :=
  String.substring (Z.to_nat n) 1 "ABCDEFGHIJKLMNOPQRSTUVWXYZabcdefghijklmnopqrstuvwxyz0123456789-_".

(** [base64.URLEncoding.EncodeToString]: three bytes are four characters, and
    the last group is padded. *)
Fixpoint EncodeToString (bs : list Z) : string :=
  match bs with
  | a :: b :: c :: rest =>
    b64_char (Z.shiftr a 2) +:+ b64_char (Z.lor (Z.shiftl (Z.land a 3) 4) (Z.shiftr b 4)) +:+
    b64_char (Z.lor (Z.shiftl (Z.land b 15) 2) (Z.shiftr c 6)) +:+ b64_char (Z.land c 63) +:+
    EncodeToString rest
  | [a; b] =>
    b64_char (Z.shiftr a 2) +:+ b64_char (Z.lor (Z.shiftl (Z.land a 3) 4) (Z.shiftr b 4)) +:+
    b64_char (Z.shiftl (Z.land b 15) 2) +:+ "="
  | [a] => b64_char (Z.shiftr a 2) +:+ b64_char (Z.shiftl (Z.land a 3) 4) +:+ "=="
  | [] => ""
  end.

(** [s[0:n]]. *)
Definition gsubstr (s : string) (n : Z) : go string :=
  if (n <? 0) || (Z.of_nat (String.length s) <? n) then Panic else Ret (take_bytes (Z.to_nat n) s).

Lemma plain_substring k m s : plain s = true → plain (String.substring k m s) = true.
Proof.
  revert k m. induction s as [|c s IH]; intros [|k] [|m] Hs; cbn [String.substring]; try done;
    cbn [plain] in Hs; apply andb_true_iff in Hs as [Hc Hs]; [|by apply IH..].
  cbn [plain]. rewrite Hc. by apply IH.
Qed.

Lemma plain_take n s : plain s = true → plain (take_bytes n s) = true.
Proof.
  revert s. induction n as [|n IH]; intros [|c s]; cbn [take_bytes plain]; try done.
  intros [-> Hs]%andb_true_iff. by apply IH.
Qed.

Lemma length_take_bytes n s :
  (n ≤ String.length s)%nat → String.length (take_bytes n s) = n.
Proof. revert s. induction n as [|n IH]; intros [|c s]; cbn; intros; auto with lia. Qed.

Lemma b64_char_plain n : plain (b64_char n) = true.
Proof. by apply plain_substring. Qed.

Lemma length_substring1 k s : (k < String.length s)%nat → String.length (String.substring k 1 s) = 1%nat.
Proof.
  revert k. induction s as [|c s IH]; intros [|k]; cbn [String.length String.substring]; try lia.
  - by destruct s.
  - intros ?. apply IH. lia.
Qed.

Lemma b64_char_length n : 0 ≤ n < 64 → String.length (b64_char n) = 1%nat.
Proof. intros Hn. apply length_substring1. change (String.length _) with 64%nat. lia. Qed.

Lemma lor_lt_64 x y : 0 ≤ x < 64 → 0 ≤ y < 64 → 0 ≤ Z.lor x y < 64.
Proof.
  intros Hx Hy. split; [by apply Z.lor_nonneg; lia|]. destruct (Z.eqb_spec (Z.lor x y) 0); [lia|].
  assert (0 ≤ Z.lor x y) by (apply Z.lor_nonneg; lia).
  apply (Z.log2_lt_pow2 _ 6); [lia|]. rewrite Z.log2_lor by lia.
  apply Z.max_lub_lt; (destruct (decide (0 < x ∧ 0 < y)); [apply Z.log2_lt_pow2; lia|]).
  all: destruct (decide (x = 0)), (decide (y = 0)); subst; cbn; try lia; apply Z.log2_lt_pow2; lia.
Qed.

Definition is_byte (b : Z) : Prop := 0 ≤ b < 256.

(** The positions in the alphabet: six bits taken from two bytes. *)
Create HintDb b64.
Lemma shiftr_lt_64 a i : is_byte a → 2 ≤ i ≤ 6 → 0 ≤ Z.shiftr a i < 64.
Proof.
  intros Ha Hi. unfold is_byte in Ha. rewrite Z.shiftr_div_pow2 by lia.
  assert (2 ^ 2 ≤ 2 ^ i) as Hp by (apply Z.pow_le_mono_r; lia). change (2 ^ 2) with 4 in Hp.
  split; [apply Z.div_pos; lia|]. apply Z.div_lt_upper_bound; nia.
Qed.
Lemma shiftl2_lt_64 a : is_byte a → 0 ≤ Z.shiftl (Z.land a 3) 4 < 64.
Proof.
  intros Ha. change 3 with (Z.ones 2). rewrite Z.land_ones, Z.shiftl_mul_pow2 by lia.
  pose proof (Z.mod_pos_bound a (2 ^ 2)). lia.
Qed.
Lemma shiftl4_lt_64 a : is_byte a → 0 ≤ Z.shiftl (Z.land a 15) 2 < 64.
Proof.
  intros Ha. change 15 with (Z.ones 4). rewrite Z.land_ones, Z.shiftl_mul_pow2 by lia.
  pose proof (Z.mod_pos_bound a (2 ^ 4)). lia.
Qed.
Lemma land_lt_64 a : 0 ≤ Z.land a 63 < 64.
Proof.
  change 63 with (Z.ones 6). rewrite Z.land_ones by lia. apply Z.mod_pos_bound. lia.
Qed.
#[export] Hint Resolve lor_lt_64 shiftr_lt_64 shiftl2_lt_64 shiftl4_lt_64 land_lt_64 : b64.
#[export] Hint Extern 2 (_ ≤ _ ≤ _) => lia : b64.

Lemma EncodeToString_spec bs :
  Forall is_byte bs →
  plain (EncodeToString bs) = true ∧ (length bs ≤ String.length (EncodeToString bs))%nat.
Proof.
  assert (∀ n bs, (length bs ≤ n)%nat → Forall is_byte bs →
    plain (EncodeToString bs) = true ∧ (length bs ≤ String.length (EncodeToString bs))%nat) as Hgen;
    [|by eapply Hgen].
  clear bs. induction n as [|n IH]; intros [|a [|b [|c bs]]] Hn; cbn [length] in Hn; try lia; try done;
    intros H; decompose_Forall_hyps; cbn [EncodeToString];
    rewrite !plain_app, !b64_char_plain, !append_length, !b64_char_length by auto with b64;
    cbn [length String.length plain andb]; try (split; [done|lia]).
  destruct (IH bs) as [-> ?]; [lia|done|]. split; [done|lia].
Qed.

(** The [RandString] of [mr/util.go] and the [Randstring] of
    [tester1/config.go]; [bs] are the [2*n] bytes that [crand.Read] gives. *)
Definition RandString (n : Z) (bs : list Z) : go string := gsubstr (EncodeToString bs) n.

Lemma RandString_spec n bs :
  0 ≤ n → glen bs = 2 * n → Forall is_byte bs →
  returns (RandString n bs) (λ s, plain s = true ∧ Z.of_nat (String.length s) = n).
Proof.
  intros Hn Hlen Hbs. destruct (EncodeToString_spec bs Hbs) as [Hp Hl]. unfold RandString, gsubstr.
  unfold glen in Hlen. case_if; [apply orb_true_iff in E as [?|?]; lia|]. apply returns_Ret.
  split; [by apply plain_take|]. rewrite length_take_bytes; lia.
Qed.

(** ** [strconv.Atoi]

    An optional sign and decimal digits, within the range of [int]. *)

Definition digit_val (c : ascii) : option Z :=
  let n := Z.of_N (N_of_ascii c) - 48 in if (0 <=? n) && (n <? 10) then Some n else None.

Fixpoint digits_val (s : string) (acc : Z) : option Z :=
  match s with
  | EmptyString => Some acc
  | String c s => n ← digit_val c; digits_val s (acc * 10 + n)
  end.

Definition unsigned (s : string) : option Z :=
  match s with EmptyString => None | _ => digits_val s 0 end.

Definition Atoi (s : string) : option Z :=
  n ← (match s with
       | String "-" s => Z.opp <$> unsigned s
       | String "+" s => unsigned s
       | _ => unsigned s
       end);
  if (- 2 ^ 63 <=? n) && (n <? 2 ^ 63) then Some n else None.

Lemma digit_val_pretty n : (n < 10)%N → digit_val (pretty_N_char n) = Some (Z.of_N n).
Proof.
  intros Hn. assert (n ∈ [0; 1; 2; 3; 4; 5; 6; 7; 8; 9]%N) as Hin.
  { destruct n as [|p]; [left|]. repeat (destruct p as [p|p|]; try lia; try (by repeat (left || right))). }
  repeat (apply elem_of_cons in Hin as [->|Hin]; [done|]). by apply elem_of_nil in Hin.
Qed.

Lemma digits_val_pretty_go x : ∀ s, digits_val (pretty_N_go x s) 0 = digits_val s (Z.of_N x).
Proof.
  induction (N.lt_wf_0 x) as [x _ IH]; intros s. destruct (decide (x = 0)%N) as [->|Hx].
  - by rewrite pretty_N_go_0.
  - rewrite pretty_N_go_step by lia. rewrite IH by (apply N.div_lt; lia). cbn [digits_val].
    pose proof (N.mod_lt x 10 ltac:(lia)) as Hm. rewrite digit_val_pretty by done. cbn [mbind option_bind].
    f_equal. pose proof (N.div_mod x 10 ltac:(lia)). lia.
Qed.

Lemma unsigned_pretty n : unsigned (pretty n) = Some (Z.of_N n).
Proof.
  unfold pretty, pretty_N. case_decide as E; [by subst|]. 
  assert (pretty_N_go n "" ≠ "") as Hne.
  { intros He. pose proof (digits_val_pretty_go n "") as Hd. rewrite He in Hd. injection Hd as Hd. lia. }
  unfold unsigned. destruct (pretty_N_go n "") as [|c s] eqn:Es; [done|]. rewrite <-Es. by rewrite digits_val_pretty_go.
Qed.

Lemma pretty_nonneg_head z c s : 0 ≤ z → pretty z = String c s → is_digit c = true.
Proof. intros Hz Hs. pose proof (pretty_digits z Hz) as Hd. rewrite Hs in Hd. by apply andb_true_iff in Hd as [? _]. Qed.

Lemma Atoi_unsigned c s : is_digit c = true → Atoi (String c s) =
  (n ← unsigned (String c s); if (- 2 ^ 63 <=? n) && (n <? 2 ^ 63) then Some n else None).
Proof.
  intros Hd. unfold Atoi. unfold is_digit in Hd. apply bool_decide_eq_true in Hd.
  repeat (apply elem_of_cons in Hd as [->|Hd]; [done|]). by apply elem_of_nil in Hd.
Qed.

(** [Itoa] and back. *)
Lemma Atoi_pretty (z : Z) : - 2 ^ 63 ≤ z < 2 ^ 63 → Atoi (pretty z) = Some z.
Proof.
  intros Hz. destruct z as [|p|p]; [done| |].
  - pose proof (unsigned_pretty (N.pos p)) as Hu. change (pretty (Z.pos p)) with (pretty (N.pos p)).
    pose proof (pretty_nonneg_head (Z.pos p)) as Hd. change (pretty (Z.pos p)) with (pretty (N.pos p)) in Hd.
    destruct (pretty (N.pos p)) as [|c s] eqn:Es; [done|].
    rewrite Atoi_unsigned by (by apply (Hd c s)). rewrite Hu. cbn [mbind option_bind].
    rewrite (proj2 (Z.leb_le _ _)), (proj2 (Z.ltb_lt _ _)) by lia. done.
  - assert (pretty (Z.neg p) = String "-" (pretty (N.pos p))) as -> by done.
    unfold Atoi. rewrite unsigned_pretty. cbn [fmap option_fmap option_map mbind option_bind].
    change (- Z.of_N (N.pos p)) with (Z.neg p).
    rewrite (proj2 (Z.leb_le _ _)), (proj2 (Z.ltb_lt _ _)) by lia. done.
Qed.
