(* ===== verification/Fnv.v ===== *)
(** * FNV-1a, the hash of [hash/fnv]

    [fnv.New32a], [Write] and [Sum32] of the standard library, which
    [mr/worker.go] and [shardkv1/shardcfg/shardcfg.go] use to spread keys:
    32-bit arithmetic that wraps. *)

From S2P Require Import Prelude.
From Stdlib Require Import Ascii.

(** The bytes of a Go string. *)
Definition string_bytes (s : string) : list Z :=
  (λ c, Z.of_N (N_of_ascii c)) <$> String.list_ascii_of_string s.

Definition fnv_offset : Z := 2166136261.
Definition fnv_prime : Z := 16777619.

Definition fnv_step (h b : Z) : Z := (Z.lxor h b * fnv_prime) mod 2 ^ 32.

Definition fnv32a (s : string) : Z := foldl fnv_step fnv_offset (string_bytes s).

Lemma fnv32a_range s : 0 ≤ fnv32a s < 2 ^ 32.
Proof.
  unfold fnv32a. assert (0 ≤ fnv_offset < 2 ^ 32) as Hh by done. revert Hh.
  generalize fnv_offset as h. induction (string_bytes s) as [|b l IH]; intros h Hh; [done|].
  apply IH. apply Z.mod_pos_bound. done.
Qed.
