(* ===== verification/MrCoordinator.v ===== *)
(** * The MapReduce coordinator: [mr/coordinator.go] and [mr/rpc.go]

    Each RPC handler and the timeout check run under the coordinator's lock,
    so each is one function on its state; [now] is the clock they read, in
    nanoseconds. The string constants of [rpc.go] are enumerations. *)

From S2P Require Import Prelude.

Inductive TaskType := TaskTypeMap | TaskTypeReduce | TaskTypeWait | TaskTypeDone.
Inductive TaskStatus := TaskStatusIdle | TaskStatusInProgress | TaskStatusCompleted.
Inductive Phase := PhaseMap | PhaseReduce.

#[export] Instance TaskType_eq_dec : EqDecision TaskType.
Proof. solve_decision. Defined.
#[export] Instance TaskStatus_eq_dec : EqDecision TaskStatus.
Proof. solve_decision. Defined.
#[export] Instance Phase_eq_dec : EqDecision Phase.
Proof. solve_decision. Defined.

Record Task := mkTask { t_Type : TaskType; t_Id : Z; InputFile : string; NReduce : Z; NMap : Z }.
Record ReportTaskArgs := mkReport { ra_TaskType : TaskType; ra_TaskId : Z }.

Record TaskInfo := mkTaskInfo { Status : TaskStatus; StartTime : Z }.

Record Coordinator := mkCoordinator {
  files : list string;
  nReduce : Z;
  nMap : Z;
  mapTasks : list TaskInfo;
  reduceTasks : list TaskInfo;
  phase : Phase;
  done_ : bool;
}.

#[export] Instance upd_mapTasks : Upd mapTasks := λ g c,
  mkCoordinator c.(files) c.(nReduce) c.(nMap) (g c.(mapTasks)) c.(reduceTasks) c.(phase) c.(done_).
#[export] Instance upd_reduceTasks : Upd reduceTasks := λ g c,
  mkCoordinator c.(files) c.(nReduce) c.(nMap) c.(mapTasks) (g c.(reduceTasks)) c.(phase) c.(done_).
#[export] Instance upd_phase : Upd phase := λ g c,
  mkCoordinator c.(files) c.(nReduce) c.(nMap) c.(mapTasks) c.(reduceTasks) (g c.(phase)) c.(done_).
#[export] Instance upd_done : Upd done_ := λ g c,
  mkCoordinator c.(files) c.(nReduce) c.(nMap) c.(mapTasks) c.(reduceTasks) c.(phase) (g c.(done_)).

(** ** Operations *)

Definition is_status (s : TaskStatus) (t : TaskInfo) : bool := bool_decide (t.(Status) = s).

(** [findIdleTask]: [i] is the index of the first task of [tasks]. *)
Fixpoint findIdle_from (i : Z) (tasks : list TaskInfo) : Z :=
  match tasks with
  | [] => -1
  | task :: tasks => if is_status TaskStatusIdle task then i else findIdle_from (i + 1) tasks
  end.
Definition findIdleTask (tasks : list TaskInfo) : Z := findIdle_from 0 tasks.

(** The status and start time are assigned in place. *)
Definition assign_task (now taskId : Z) (tasks : list TaskInfo) : go (list TaskInfo) :=
  _ ← gidx tasks taskId; gset_idx tasks taskId (mkTaskInfo TaskStatusInProgress now).

Definition in_progress (tasks : list TaskInfo) : bool :=
  existsb (is_status TaskStatusInProgress) tasks.

Definition waitTask : Task := mkTask TaskTypeWait 0 "" 0 0.
Definition doneTask : Task := mkTask TaskTypeDone 0 "" 0 0.

(** The two phases of [GetTask]; the first falls through to the second when
    every map task is completed. *)
Definition getReduceTask (now : Z) (c : Coordinator) : go (Coordinator * Task) :=
  let taskId := findIdleTask c.(reduceTasks) in
  if negb (taskId =? -1) then
    tasks ← assign_task now taskId c.(reduceTasks);
    Ret (c <| reduceTasks := tasks |>, mkTask TaskTypeReduce taskId "" c.(nReduce) c.(nMap))
  else if in_progress c.(reduceTasks) then Ret (c, waitTask)
  else Ret (c <| done_ := true |>, doneTask).

Definition GetTask (now : Z) (c : Coordinator) : go (Coordinator * Task) :=
  if bool_decide (c.(phase) = PhaseMap) then
    let taskId := findIdleTask c.(mapTasks) in
    if negb (taskId =? -1) then
      tasks ← assign_task now taskId c.(mapTasks);
      file ← gidx c.(files) taskId;
      Ret (c <| mapTasks := tasks |>, mkTask TaskTypeMap taskId file c.(nReduce) c.(nMap))
    else if in_progress c.(mapTasks) then Ret (c, waitTask)
    else getReduceTask now (c <| phase := PhaseReduce |>)
  else getReduceTask now c.

Definition complete_task (taskId : Z) (tasks : list TaskInfo) : go (list TaskInfo) :=
  t ← gidx tasks taskId;
  if is_status TaskStatusInProgress t
  then gset_idx tasks taskId (mkTaskInfo TaskStatusCompleted t.(StartTime))
  else Ret tasks.

Definition ReportTask (args : ReportTaskArgs) (c : Coordinator) : go Coordinator :=
  if bool_decide (args.(ra_TaskType) = TaskTypeMap) && bool_decide (c.(phase) = PhaseMap) then
    tasks ← complete_task args.(ra_TaskId) c.(mapTasks); Ret (c <| mapTasks := tasks |>)
  else if bool_decide (args.(ra_TaskType) = TaskTypeReduce) &&
          bool_decide (c.(phase) = PhaseReduce) then
    tasks ← complete_task args.(ra_TaskId) c.(reduceTasks); Ret (c <| reduceTasks := tasks |>)
  else Ret c.

Definition timeout : Z := 10 * 1000000000.

Definition expire (now : Z) (t : TaskInfo) : TaskInfo :=
  if is_status TaskStatusInProgress t && (timeout <? now - t.(StartTime))
  then mkTaskInfo TaskStatusIdle t.(StartTime) else t.

Definition checkTimeout (now : Z) (c : Coordinator) : Coordinator :=
  match c.(phase) with
  | PhaseMap => c <| mapTasks := expire now <$> c.(mapTasks) |>
  | PhaseReduce => c <| reduceTasks := expire now <$> c.(reduceTasks) |>
  end.

Definition Done (c : Coordinator) : bool := c.(done_).

Definition idleTask : TaskInfo := mkTaskInfo TaskStatusIdle 0.

(** [MakeCoordinator], up to starting its goroutines; [make] panics on a
    negative length. *)
Definition MakeCoordinator (files_ : list string) (nReduce_ : Z) : go Coordinator :=
  if nReduce_ <? 0 then Panic else
  Ret {|
    files := files_; nReduce := nReduce_; nMap := glen files_;
    mapTasks := replicate (length files_) idleTask;
    reduceTasks := replicate (Z.to_nat nReduce_) idleTask;
    phase := PhaseMap; done_ := false
  |}.

(** ** Facts *)

Definition completed (tasks : list TaskInfo) : Prop :=
  ∀ i t, tasks.[i] = Some t → t.(Status) = TaskStatusCompleted.

(** The invariant: the phase moves on only when every map task is completed,
    reduce tasks start only then, and [done] means every task is completed. *)
Record coord_inv (c : Coordinator) : Prop := {
  co_files : glen c.(files) = c.(nMap);
  co_map : glen c.(mapTasks) = c.(nMap);
  co_reduce : glen c.(reduceTasks) = c.(nReduce);
  co_phase : c.(phase) = PhaseReduce → completed c.(mapTasks);
  co_idle : c.(phase) = PhaseMap → c.(reduceTasks) = replicate (length c.(reduceTasks)) idleTask;
  co_done : c.(done_) = true → c.(phase) = PhaseReduce ∧ completed c.(reduceTasks);
}.

Lemma findIdle_from_spec i tasks :
  0 ≤ i →
  (findIdle_from i tasks = -1 ∧ ∀ t, t ∈ tasks → t.(Status) ≠ TaskStatusIdle) ∨
  (∃ k t, findIdle_from i tasks = i + k ∧ tasks.[k] = Some t ∧ t.(Status) = TaskStatusIdle).
Proof.
  revert i. induction tasks as [|t tasks IH]; intros i Hi; simpl.
  { left. split; [done|]. by intros t ?%not_elem_of_nil. }
  unfold is_status. case_bool_decide.
  - right. exists 0, t. rewrite Z.add_0_r. done.
  - destruct (IH (i + 1)) as [[-> Hall]|(k & t' & -> & Hk & Ht)]; [lia|left|right].
    + split; [done|]. intros t' [->|?]%elem_of_cons; auto.
    + exists (k + 1), t'. split; [lia|]. split; [|done].
      pose proof (zlookup_lt_Some _ _ _ Hk).
      rewrite zlookup_cons_pos by lia. by replace (k + 1 - 1) with k by lia.
Qed.

Lemma findIdleTask_spec tasks :
  (findIdleTask tasks = -1 ∧ ∀ t, t ∈ tasks → t.(Status) ≠ TaskStatusIdle) ∨
  (∃ t, tasks.[findIdleTask tasks] = Some t ∧ t.(Status) = TaskStatusIdle).
Proof.
  destruct (findIdle_from_spec 0 tasks) as [?|(k & t & Hf & ? & ?)]; [lia|by left|right].
  exists t. unfold findIdleTask. rewrite Hf, Z.add_0_l. done.
Qed.

Lemma in_progress_false tasks :
  in_progress tasks = false ↔ ∀ t, t ∈ tasks → t.(Status) ≠ TaskStatusInProgress.
Proof.
  unfold in_progress, is_status. induction tasks as [|t tasks IH]; simpl; [set_solver|].
  rewrite orb_false_iff, IH, bool_decide_eq_false. set_solver.
Qed.

Lemma all_completed tasks :
  (∀ t, t ∈ tasks → t.(Status) ≠ TaskStatusIdle) →
  (∀ t, t ∈ tasks → t.(Status) ≠ TaskStatusInProgress) → completed tasks.
Proof.
  intros H1 H2 i t Hi. assert (t ∈ tasks) as Ht by (apply zlookup_elem_of; eauto).
  specialize (H1 t Ht). specialize (H2 t Ht). by destruct (Status t).
Qed.

Lemma completed_not_idle tasks t : completed tasks → t ∈ tasks → t.(Status) = TaskStatusCompleted.
Proof. intros Hc [i Hi]%zlookup_elem_of. by eapply Hc. Qed.

(** Task [i] was idle and is now in progress since [now]. *)
Definition assigned (now i : Z) (tasks tasks' : list TaskInfo) : Prop :=
  ∃ t, tasks.[i] = Some t ∧ t.(Status) = TaskStatusIdle ∧
       tasks' = <[Z.to_nat i := mkTaskInfo TaskStatusInProgress now]> tasks.

Lemma assign_task_spec now i tasks t :
  tasks.[i] = Some t → t.(Status) = TaskStatusIdle →
  returns (assign_task now i tasks) (λ tasks', assigned now i tasks tasks' ∧ glen tasks' = glen tasks).
Proof.
  intros Hi Ht. unfold assign_task. rewrite (proj2 (gidx_Ret _ _ _) Hi). simpl.
  pose proof (zlookup_lt_Some _ _ _ Hi). rewrite gset_idx_Ret by done. apply returns_Ret.
  split; [by exists t|]. apply glen_insert.
Qed.

(** What a reply of [GetTask] means. *)
Definition task_given (now : Z) (c c' : Coordinator) (t : Task) : Prop :=
  match t.(t_Type) with
  | TaskTypeMap =>
      c.(phase) = PhaseMap ∧ c'.(phase) = PhaseMap ∧
      assigned now t.(t_Id) c.(mapTasks) c'.(mapTasks) ∧ c'.(reduceTasks) = c.(reduceTasks) ∧
      c.(files).[t.(t_Id)] = Some t.(InputFile) ∧ c'.(done_) = c.(done_)
  | TaskTypeReduce =>
      completed c.(mapTasks) ∧ c'.(phase) = PhaseReduce ∧ c'.(mapTasks) = c.(mapTasks) ∧
      assigned now t.(t_Id) c.(reduceTasks) c'.(reduceTasks) ∧ c'.(done_) = c.(done_)
  | TaskTypeWait =>
      c'.(mapTasks) = c.(mapTasks) ∧ c'.(reduceTasks) = c.(reduceTasks) ∧ c'.(done_) = c.(done_) ∧
      match c'.(phase) with
      | PhaseMap => in_progress c.(mapTasks) = true
      | PhaseReduce => in_progress c.(reduceTasks) = true
      end
  | TaskTypeDone =>
      completed c.(mapTasks) ∧ completed c.(reduceTasks) ∧ c'.(phase) = PhaseReduce ∧
      c'.(mapTasks) = c.(mapTasks) ∧ c'.(reduceTasks) = c.(reduceTasks) ∧ c'.(done_) = true
  end ∧
  (t.(t_Type) = TaskTypeMap ∨ t.(t_Type) = TaskTypeReduce →
     t.(NReduce) = c.(nReduce) ∧ t.(NMap) = c.(nMap)).

Definition same_job (c c' : Coordinator) : Prop :=
  c'.(files) = c.(files) ∧ c'.(nReduce) = c.(nReduce) ∧ c'.(nMap) = c.(nMap).

Lemma getReduceTask_spec now c :
  coord_inv c → completed c.(mapTasks) → c.(phase) = PhaseReduce →
  returns (getReduceTask now c) (λ r,
    coord_inv r.1 ∧ same_job c r.1 ∧ task_given now c r.1 r.2 ∧ r.1.(phase) = PhaseReduce).
Proof.
  intros Hinv Hmap Hph. unfold getReduceTask.
  destruct (findIdleTask_spec c.(reduceTasks)) as [[-> Hni]|(t & Ht & Hst)]; simpl.
  - case_if; apply returns_Ret; simpl.
    + split; [done|]. split; [done|]. split; [|done].
      unfold task_given. simpl. rewrite Hph. split; [done|]. by intros [?|?].
    + pose proof (all_completed _ Hni (proj1 (in_progress_false _) E)) as Hred.
      destruct Hinv. split; [|split; [done|split; [|done]]].
      * constructor; cbn; try done; intros; congruence.
      * unfold task_given. cbn. split; [done|]. by intros [?|?].
  - pose proof (zlookup_lt_Some _ _ _ Ht).
    destruct (Z.eqb_spec (findIdleTask (reduceTasks c)) (-1)); [lia|]. simpl.
    eapply returns_bind; [by eapply assign_task_spec|]. intros tasks [Has Hlen]. apply returns_Ret.
    simpl. assert (c.(done_) = false) as Hdone.
    { destruct (done_ c) eqn:Hd; [|done]. destruct (co_done _ Hinv Hd) as [_ Hc].
      specialize (Hc _ _ Ht). congruence. }
    destruct Hinv. split; [|done]. constructor; cbn; try done; intros; congruence.
Qed.

Lemma GetTask_spec now c :
  coord_inv c →
  returns (GetTask now c) (λ r, coord_inv r.1 ∧ same_job c r.1 ∧ task_given now c r.1 r.2 ∧
    (c.(phase) = PhaseReduce → r.1.(phase) = PhaseReduce)).
Proof.
  intros Hinv. unfold GetTask. case_bool_decide as Hph.
  2: { assert (c.(phase) = PhaseReduce) as Hph' by by destruct (phase c).
       eapply returns_mono; [apply getReduceTask_spec; [done|by apply co_phase|done]|].
       intros r (? & ? & ? & ?). done. }
  destruct (findIdleTask_spec c.(mapTasks)) as [[-> Hni]|(t & Ht & Hst)]; simpl.
  - case_if.
    + apply returns_Ret. simpl. split; [done|]. split; [done|]. split; [|done].
      unfold task_given. simpl. rewrite Hph. split; [done|]. by intros [?|?].
    + pose proof (all_completed _ Hni (proj1 (in_progress_false _) E)) as Hmap.
      assert (coord_inv (c <| phase := PhaseReduce |>)) as Hinv'.
      { destruct Hinv as [? ? ? ? ? Hd]. constructor; cbn; try done.
        intros Hdone%Hd. tauto. }
      eapply returns_mono; [by apply getReduceTask_spec|].
      intros r (? & ? & Hg & ?). split; [done|]. split; [done|]. split; [|done].
      revert Hg. unfold task_given. cbn. destruct (t_Type r.2); [|done..]. by intros [(? & _) _].
  - pose proof (zlookup_lt_Some _ _ _ Ht) as Hlt.
    destruct (Z.eqb_spec (findIdleTask (mapTasks c)) (-1)); [lia|]. simpl.
    eapply returns_bind; [by eapply assign_task_spec|]. intros tasks [Has Hlen].
    destruct Hinv as [Hf Hm Hr Hp Hi Hd].
    eapply returns_bind; [apply gidx_returns; lia|]. intros file Hfile. apply returns_Ret.
    simpl in *. split; [|split; [done|split; [|intros; congruence]]].
    + constructor; cbn; try done; try (intros; congruence). 
    + unfold task_given. cbn. done.
Qed.

Lemma complete_task_spec i tasks :
  0 ≤ i < glen tasks →
  returns (complete_task i tasks) (λ tasks', glen tasks' = glen tasks ∧
    ∃ t, tasks.[i] = Some t ∧
      tasks' = if is_status TaskStatusInProgress t
               then <[Z.to_nat i := mkTaskInfo TaskStatusCompleted t.(StartTime)]> tasks else tasks).
Proof.
  intros Hi. unfold complete_task. eapply returns_bind; [by apply gidx_returns|].
  intros t Ht. simpl in Ht. case_if.
  - rewrite gset_idx_Ret by done. apply returns_Ret. split; [apply glen_insert|].
    exists t. rewrite E. done.
  - apply returns_Ret. split; [done|]. exists t. rewrite E. done.
Qed.

(** The phase a report counts for. *)
Definition phase_of (ty : TaskType) : option Phase :=
  match ty with TaskTypeMap => Some PhaseMap | TaskTypeReduce => Some PhaseReduce | _ => None end.

Definition report_in_range (args : ReportTaskArgs) (c : Coordinator) : Prop :=
  match args.(ra_TaskType) with
  | TaskTypeMap => 0 ≤ args.(ra_TaskId) < c.(nMap)
  | TaskTypeReduce => 0 ≤ args.(ra_TaskId) < c.(nReduce)
  | _ => True
  end.

Lemma complete_completed i tasks t :
  completed tasks → completed (<[Z.to_nat i := mkTaskInfo TaskStatusCompleted t]> tasks).
Proof.
  intros Hc j t' Hj. assert (t' ∈ <[Z.to_nat i:=mkTaskInfo TaskStatusCompleted t]> tasks) as Hin
    by (apply zlookup_elem_of; eauto).
  apply list_elem_of_lookup in Hin as [k Hk].
  apply list_lookup_insert_Some in Hk as [(_ & <- & _)|[_ Hk]]; [done|].
  eapply completed_not_idle; [done|]. by eapply list_elem_of_lookup_2.
Qed.

Lemma ReportTask_spec args c :
  coord_inv c → report_in_range args c →
  returns (ReportTask args c) (λ c', coord_inv c' ∧ same_job c c' ∧
    c'.(phase) = c.(phase) ∧ c'.(done_) = c.(done_) ∧
    (ReportTask args c = Ret c' →
     match args.(ra_TaskType), c.(phase) with
     | TaskTypeMap, PhaseMap => complete_task args.(ra_TaskId) c.(mapTasks) = Ret c'.(mapTasks) ∧
         c'.(reduceTasks) = c.(reduceTasks)
     | TaskTypeReduce, PhaseReduce =>
         complete_task args.(ra_TaskId) c.(reduceTasks) = Ret c'.(reduceTasks) ∧
         c'.(mapTasks) = c.(mapTasks)
     | _, _ => c' = c
     end)).
Proof.
  intros Hinv Hr. unfold ReportTask, report_in_range in *.
  pose proof Hinv as [Hf Hm Hrd Hp Hi Hd].
  destruct (ra_TaskType args) eqn:Hty, (phase c) eqn:Hph; cbn -[complete_task];
    try (apply returns_Ret; done).
  - destruct (complete_task_spec (ra_TaskId args) c.(mapTasks)) as (tasks & Hct & Hlen & t & Ht & Heq);
      [lia|]. rewrite Hct. apply returns_Ret. cbn. split_and!; try done.
    constructor; cbn; try done; rewrite ?Hph; try done.
    congruence.
  - destruct (complete_task_spec (ra_TaskId args) c.(reduceTasks)) as (tasks & Hct & Hlen & t & Ht & Heq);
      [lia|]. rewrite Hct. apply returns_Ret. cbn. split_and!; try done.
    constructor; cbn; try done; rewrite ?Hph; try done.
    { congruence. }
    intros Hdone%Hd. destruct Hdone as [? Hc]. split; [done|]. rewrite Heq.
    case_if; [by apply complete_completed|done].
Qed.

Lemma expire_completed now tasks : completed tasks → expire now <$> tasks = tasks.
Proof.
  intros Hc. rewrite <-(list_fmap_id tasks) at 2. apply list_fmap_ext.
  intros i t Ht%list_elem_of_lookup_2. unfold expire, is_status.
  by rewrite (completed_not_idle _ _ Hc Ht).
Qed.

Lemma checkTimeout_inv now c :
  coord_inv c → coord_inv (checkTimeout now c) ∧ same_job c (checkTimeout now c).
Proof.
  intros [Hf Hm Hrd Hp Hi Hd]. unfold checkTimeout. destruct (phase c) eqn:Hph; (split; [|done]).
  - constructor; cbn; rewrite ?glen_fmap, ?Hph; try done.
  - constructor; cbn; rewrite ?glen_fmap, ?Hph; try done.
    intros Hdone%Hd. destruct Hdone as [? Hc]. split; [done|]. by rewrite expire_completed.
Qed.

Lemma MakeCoordinator_inv files_ nReduce_ c :
  MakeCoordinator files_ nReduce_ = Ret c → coord_inv c ∧ c.(files) = files_ ∧ c.(nReduce) = nReduce_.
Proof.
  unfold MakeCoordinator. case_if; [done|]. intros [= <-]. split; [|done]. constructor; cbn; try done.
  - rewrite glen_replicate. done.
  - rewrite glen_replicate. lia.
  - intros _. by rewrite length_replicate.
Qed.
