(* ===== verification/MrWorker.v ===== *)
(** * The MapReduce worker: [mr/worker.go], and [main/mrsequential.go]

    The directory the workers share is a map from file names to contents.
    [doMap] and [doReduce] are sequences of steps, one for each operation on a
    file: opening it, reading some bytes, creating it, which empties it, and
    writing one value or line at the writer's own offset. Between two steps
    other workers may run, and the worker may crash. [encoding/json] and
    [sort.Sort] belong to the standard library: a codec with its round trip,
    and a sort that may reorder equal keys. Opening a file fails only when it
    is missing, creating and writing never. *)

From S2P Require Import Prelude Names GoStrings Fnv MrCoordinator.

Record KeyValue := mkKV { Key : string; kv_Value : string }.

#[export] Instance KeyValue_eq_dec : EqDecision KeyValue.
Proof. solve_decision. Defined.
#[export] Instance KeyValue_countable : Countable KeyValue.
Proof.
  refine (inj_countable' (λ kv, (kv.(Key), kv.(kv_Value))) (λ p, mkKV p.1 p.2) _).
  by intros [].
Defined.

Abbreviation FS := (gmap string string).

(** ** Files *)

(** A read of up to [n] bytes, at least one, at offset [off]; [""] at the end. *)
Definition read_at (off n : nat) (s : string) : string := String.substring off (Nat.max 1 n) s.

Fixpoint zeros (n : nat) : string :=
  match n with O => "" | S n => String (Ascii.ascii_of_nat 0) (zeros n) end.

(** A write at offset [off]; a gap beyond the end of the file is filled. *)
Definition write_at (off : nat) (b s : string) : string :=
  let s := s +:+ zeros (off - String.length s) in
  String.substring 0 off s +:+ b +:+
    String.substring (off + String.length b) (String.length s - (off + String.length b)) s.

Definition file_content (fs : FS) (name : string) : string := default "" (fs !! name).
Definition write_file (name : string) (off : nat) (b : string) (fs : FS) : FS :=
  <[name := write_at off b (file_content fs name)]> fs.

Lemma write_at_end b s : write_at (String.length s) b s = s +:+ b.
Proof.
  unfold write_at. rewrite Nat.sub_diag. cbn [zeros]. rewrite append_nil_r, substring_all.
  replace (String.length s - (String.length s + String.length b))%nat with O by lia.
  assert (∀ n m, String.substring n 0 m = "") as ->; [|by rewrite append_nil_r].
  intros n m. revert n. induction m as [|c m IH]; intros [|n]; try done. apply IH.
Qed.

Lemma substring_app_drop n m (a b : string) : String.substring (String.length a + n) m (a +:+ b) = String.substring n m b.
Proof. induction a as [|c a IH]; [done|exact IH]. Qed.

Lemma substring_zero m (b : string) : ∃ r, b = String.substring 0 (S m) b +:+ r ∧ (String.substring 0 (S m) b = "" → b = "").
Proof.
  assert (∀ k, ∃ r, b = String.substring 0 k b +:+ r) as Hk.
  { induction b as [|c b IH]; intros [|k]; [by exists ""|by exists ""|by exists (String c b)|].
    destruct (IH k) as [r Hr]. exists r. change (String c b = String c (String.substring 0 k b +:+ r)). by rewrite <-Hr. }
  destruct (Hk (S m)) as [r Hr]. exists r. split; [done|]. by destruct b.
Qed.

(** What has been read is a prefix, and the whole file at the end. *)
Lemma read_at_prefix n (buf r : string) :
  ∃ r', r = read_at (String.length buf) n (buf +:+ r) +:+ r' ∧
    (read_at (String.length buf) n (buf +:+ r) = "" → r = "").
Proof.
  unfold read_at. rewrite <-(Nat.add_0_r (String.length buf)), substring_app_drop.
  destruct (Nat.max 1 n) as [|m] eqn:E; [lia|]. apply substring_zero.
Qed.

(** ** The standard library's part *)

(** [json.Encoder.Encode] and [json.Decoder.Decode] on [KeyValue]; JSON keeps
    a string only if it is valid UTF-8. *)
Class KVJson := {
  kv_enc : KeyValue → option string;
  kv_dec : string → option (KeyValue * string);
}.
Class KVJsonLaws `{KVJson} (valid : KeyValue → Prop) : Prop := {
  kv_enc_valid kv : valid kv → ∃ s, kv_enc kv = Some s ∧ s ≠ ""%string;
  kv_dec_enc kv s rest : valid kv → kv_enc kv = Some s → kv_dec (s +:+ rest) = Some (kv, rest);
  kv_dec_EOF : kv_dec "" = None;
}.

(** [sort.Sort(ByKey(kva))]. *)
Class KVSort := sort_by_key : list KeyValue → list KeyValue.
Class KVSortLaws `{KVSort} : Prop := {
  sort_perm l : sort_by_key l ≡ₚ l;
  sort_sorted l : StronglySorted String.le (Key <$> sort_by_key l);
}.

(** ** Operations *)

Definition ihash (key : string) : Z := Z.land (fnv32a key) (2 ^ 31 - 1).

Definition intermediateName (mapTask reduceTask : Z) : string :=
  "mr-" +:+ pretty mapTask +:+ "-" +:+ pretty reduceTask.
Definition outputName (reduceTask : Z) : string := "mr-out-" +:+ pretty reduceTask.

(** The values of the entries at the front of [kva] that have key [key]. *)
Fixpoint span_key (key : string) (kva : list KeyValue) : list string * list KeyValue :=
  match kva with
  | kv :: rest =>
    if bool_decide (kv.(Key) = key)
    then let '(vs, rest) := span_key key rest in (kv.(kv_Value) :: vs, rest) else ([], kva)
  | [] => ([], [])
  end.

(** The loop over the sorted entries: each run of equal keys with its values.
    [fuel] is the number of entries, which bounds the number of runs. *)
Fixpoint group_runs (fuel : nat) (kva : list KeyValue) : list (string * list string) :=
  match fuel, kva with
  | S fuel, kv :: _ =>
    let '(values, rest) := span_key kv.(Key) kva in
    (kv.(Key), values) :: group_runs fuel rest
  | _, _ => []
  end.

Definition reduce_all (reducef : string → list string → string) (kva : list KeyValue) :
    list (string * string) :=
  (λ kvs, (kvs.1, reducef kvs.1 kvs.2)) <$> group_runs (length kva) kva.

(** [Fprintf(ofile, "%v %v\n", key, output)] for each line. *)

Definition format_line (l : string * string) : string := l.1 +:+ " " +:+ l.2 +:+ newline.
Definition format_lines (ls : list (string * string)) : string :=
  foldr (λ l s, format_line l +:+ s) "" ls.

Section worker.
Context `{KVJson, KVSort}.
Context (mapf : string → string → list KeyValue) (reducef : string → list string → string).

Definition add_to_partition (nreduce : Z) (ps : list (list KeyValue)) (kv : KeyValue) :
    go (list (list KeyValue)) :=
  if nreduce =? 0 then Panic else
  let idx := ihash kv.(Key) mod nreduce in
  p ← gidx ps idx; gset_idx ps idx (p ++ [kv]).

Definition partition_kva (nreduce : Z) (kva : list KeyValue) : go (list (list KeyValue)) :=
  if nreduce <? 0 then Panic
  else foldM (add_to_partition nreduce) (replicate (Z.to_nat nreduce) []) kva.

Definition encode_kva (p : list KeyValue) : go string :=
  foldM (λ s kv, match kv_enc kv with None => Fatal | Some e => Ret (s +:+ e) end) "" p.

(** Decode until an error: [fuel] bounds the number of values by the length. *)
Fixpoint decode_kva (fuel : nat) (s : string) : list KeyValue :=
  match fuel with
  | O => []
  | S fuel =>
    match kv_dec s with
    | None => []
    | Some (kv, rest) => kv :: decode_kva fuel rest
    end
  end.
Definition decode_file (s : string) : list KeyValue := decode_kva (S (String.length s)) s.

(** *** Tasks

    Where a worker is in [doMap]: before it opens the input; what it has read
    of it; before it creates intermediate file [i] of the partitions [ps]; the
    pairs still to write to file [i], and the offset. In [doReduce]: before it
    opens the file of map task [i], with the pairs of the files before; what it
    has read of that file; the lines still to write, and the offset. At the end
    the task has been executed. *)
Inductive WorkerState :=
  | MapOpen (task : Task)
  | MapRead (task : Task) (buf : string)
  | MapFiles (task : Task) (ps : list (list KeyValue)) (i : Z)
  | MapWrite (task : Task) (ps : list (list KeyValue)) (i : Z) (rest : list KeyValue) (off : nat)
  | RedFiles (task : Task) (i : Z) (kva : list KeyValue)
  | RedRead (task : Task) (i : Z) (kva : list KeyValue) (buf : string)
  | RedWrite (task : Task) (ls : list (string * string)) (off : nat)
  | Executed (task : Task).

Definition task_of (ws : WorkerState) : Task :=
  match ws with
  | MapOpen t | MapRead t _ | MapFiles t _ _ | MapWrite t _ _ _ _
  | RedFiles t _ _ | RedRead t _ _ _ | RedWrite t _ _ | Executed t => t
  end.

(** A step of [doMap] or [doReduce]; a read returns up to [n] bytes. *)
Definition doMap (n : nat) (ws : WorkerState) (fs : FS) : go (WorkerState * FS) :=
  match ws with
  | MapOpen task =>
    match fs !! task.(InputFile) with None => Fatal | Some _ => Ret (MapRead task "", fs) end
  | MapRead task buf =>
    let chunk := read_at (String.length buf) n (file_content fs task.(InputFile)) in
    if bool_decide (chunk = "") then
      ps ← partition_kva task.(NReduce) (mapf task.(InputFile) buf); Ret (MapFiles task ps 0, fs)
    else Ret (MapRead task (buf +:+ chunk), fs)
  | MapFiles task ps i =>
    if i <? task.(NReduce) then
      p ← gidx ps i; Ret (MapWrite task ps i p 0, <[intermediateName task.(t_Id) i := ""]> fs)
    else Ret (Executed task, fs)
  | MapWrite task ps i [] _ => Ret (MapFiles task ps (i + 1), fs)
  | MapWrite task ps i (kv :: rest) off =>
    match kv_enc kv with
    | None => Fatal
    | Some e =>
      Ret (MapWrite task ps i rest (off + String.length e), write_file (intermediateName task.(t_Id) i) off e fs)
    end
  | _ => Ret (ws, fs)
  end.

(** A file that cannot be opened is skipped. *)
Definition doReduce (n : nat) (ws : WorkerState) (fs : FS) : go (WorkerState * FS) :=
  match ws with
  | RedFiles task i kva =>
    if i <? task.(NMap) then
      Ret (match fs !! intermediateName i task.(t_Id) with
           | None => RedFiles task (i + 1) kva
           | Some _ => RedRead task i kva ""
           end, fs)
    else Ret (RedWrite task (reduce_all reducef (sort_by_key kva)) 0, <[outputName task.(t_Id) := ""]> fs)
  | RedRead task i kva buf =>
    let chunk := read_at (String.length buf) n (file_content fs (intermediateName i task.(t_Id))) in
    Ret (if bool_decide (chunk = "") then RedFiles task (i + 1) (kva ++ decode_file buf)
         else RedRead task i kva (buf +:+ chunk), fs)
  | RedWrite task [] _ => Ret (Executed task, fs)
  | RedWrite task (l :: ls) off =>
    let line := format_line l in
    Ret (RedWrite task ls (off + String.length line), write_file (outputName task.(t_Id)) off line fs)
  | _ => Ret (ws, fs)
  end.

(** [main/mrsequential.go], the reference: all inputs, one sort, one output. *)
Definition read_inputs (inputs : list string) (fs : FS) : go (list KeyValue) :=
  foldM (λ acc name,
    match fs !! name with
    | None => Fatal
    | Some content => Ret (acc ++ mapf name content)
    end) [] inputs.

Definition mrsequential (inputs : list string) (fs : FS) : go FS :=
  kva ← read_inputs inputs fs;
  Ret (<[outputName 0 := format_lines (reduce_all reducef (sort_by_key kva))]> fs).
End worker.

(** ** Grouping *)

(** The values of a key, in the order of the entries. *)
Definition values_of (key : string) (kva : list KeyValue) : list string :=
  kv_Value <$> filter (λ kv, kv.(Key) = key) kva.

Lemma values_of_app key l l' : values_of key (l ++ l') = values_of key l ++ values_of key l'.
Proof. unfold values_of. by rewrite filter_app, fmap_app. Qed.

Lemma values_of_perm key l l' : l ≡ₚ l' → values_of key l ≡ₚ values_of key l'.
Proof. intros Hp. unfold values_of. by rewrite Hp. Qed.

Lemma values_of_absent key l : key ∉ Key <$> l → values_of key l = [].
Proof.
  intros Hni. unfold values_of. induction l as [|kv l IH]; [done|]. rewrite fmap_cons in Hni.
  apply not_elem_of_cons in Hni as [Hne Hni]. rewrite filter_cons_False by congruence. auto.
Qed.

Lemma span_key_spec key kva values rest :
  StronglySorted String.le (Key <$> kva) → (∀ kv, kv ∈ kva → String.le key kv.(Key)) →
  span_key key kva = (values, rest) →
  values = values_of key kva ∧ (length rest ≤ length kva)%nat ∧
  StronglySorted String.le (Key <$> rest) ∧ key ∉ Key <$> rest ∧
  (∀ k, k ≠ key → values_of k rest = values_of k kva) ∧
  (∀ k, k ∈ Key <$> kva → k = key ∨ k ∈ Key <$> rest) ∧ (∀ k, k ∈ Key <$> rest → k ∈ Key <$> kva).
Proof.
  revert values. induction kva as [|kv kva IH]; intros values Hs Hle; cbn [span_key].
  { intros [= <- <-]. split_and!; try done; set_solver. }
  rewrite fmap_cons in Hs. apply StronglySorted_inv in Hs as [Hs Hall].
  case_bool_decide as Hk.
  - destruct (span_key key kva) as [vs rest'] eqn:Hsp. intros [= <- <-].
    destruct (IH vs) as (-> & Hlen & Hs' & Hni & Hv & Hin & Hin');
      [done|set_solver|done|].
    split_and!; try done; [|simpl; lia|..].
    + unfold values_of. by rewrite filter_cons_True.
    + intros k Hne. rewrite Hv by done. unfold values_of. by rewrite filter_cons_False by congruence.
    + intros k. rewrite fmap_cons, elem_of_cons. intros [->|?]; [by left|auto].
    + intros k ?. rewrite fmap_cons, elem_of_cons. right. auto.
  - intros [= <- <-]. assert (key ∉ Key <$> kv :: kva) as Hni.
    { rewrite fmap_cons, elem_of_cons. intros [->|Hin]; [done|]. apply Hk.
      assert (String.le kv.(Key) key) as Hle1 by (eapply Forall_forall in Hall; eauto).
      assert (String.le key kv.(Key)) as Hle2 by (apply Hle; left).
      by apply (anti_symm String.le). }
    split_and!; try done; [|rewrite fmap_cons; by constructor|auto].
    by rewrite values_of_absent.
Qed.

(** On a sorted list the runs are exactly the keys with all their values. *)
Lemma group_runs_spec fuel kva :
  (length kva ≤ fuel)%nat → StronglySorted String.le (Key <$> kva) →
  NoDup (group_runs fuel kva).*1 ∧
  ∀ k vs, (k, vs) ∈ group_runs fuel kva ↔ k ∈ Key <$> kva ∧ vs = values_of k kva.
Proof.
  revert kva. induction fuel as [|fuel IH]; intros [|kv kva] Hlen Hs; simpl in Hlen; try lia.
  1,2: simpl; split; [constructor|set_solver].
  cbn [group_runs span_key]. rewrite bool_decide_eq_true_2 by done.
  rewrite fmap_cons in Hs. apply StronglySorted_inv in Hs as [Hs Hall].
  destruct (span_key (Key kv) kva) as [values rest] eqn:Hsp.
  assert (∀ kv', kv' ∈ kva → String.le kv.(Key) kv'.(Key)) as Hle.
  { intros kv' Hkv. eapply Forall_forall in Hall; [done|]. by apply list_elem_of_fmap_2. }
  destruct (span_key_spec _ _ _ _ Hs Hle Hsp) as (-> & Hl & Hs' & Hni & Hv & Hin & Hin').
  destruct (IH rest) as [Hnd Hiff]; [lia|done|]. split.
  - rewrite fmap_cons. constructor; [|done]. intros ([k vs] & Heq & [Hk _]%Hiff)%list_elem_of_fmap.
    simpl in Heq. congruence.
  - intros k vs. rewrite elem_of_cons, Hiff, fmap_cons, elem_of_cons.
    assert (∀ k', values_of k' (kv :: kva) =
      if decide (Key kv = k') then kv_Value kv :: values_of k' kva else values_of k' kva) as Hcons.
    { intros k'. unfold values_of. rewrite filter_cons. by case_decide. }
    rewrite Hcons. split.
    + intros [[= -> ->]|[Hk ->]]; [by rewrite decide_True; auto|].
      rewrite decide_False by congruence. rewrite Hv by congruence. auto.
    + intros [Hk ->]. case_decide as Hd; [subst; by left|right].
      destruct Hk as [?|Hk]; [congruence|]. apply Hin in Hk as [?|Hk]; [congruence|].
      split; [done|]. by rewrite Hv by congruence.
Qed.

(** ** File names *)

Lemma intermediateName_inj m i m' i' :
  0 ≤ m → 0 ≤ m' → intermediateName m i = intermediateName m' i' → m = m' ∧ i = i'.
Proof.
  unfold intermediateName. intros Hm Hm' Heq%append_inj.
  apply digits_dash_inj in Heq as [? ?]; [|by apply pretty_digits..].
  split; by apply (inj pretty).
Qed.

Lemma outputName_inj i i' : outputName i = outputName i' → i = i'.
Proof. unfold outputName. intros Heq%append_inj. by apply (inj pretty). Qed.

Lemma intermediate_not_output m i j : 0 ≤ m → intermediateName m i ≠ outputName j.
Proof.
  unfold intermediateName, outputName. intros Hm Heq.
  assert (pretty m +:+ "-" +:+ pretty i = "out-" +:+ pretty j) as Heq'
    by (eapply (append_inj "mr-"); done).
  pose proof (pretty_digits m Hm) as Hd. destruct (pretty m) as [|c s]; [done|].
  cbn in Heq'. injection Heq' as -> _. done.
Qed.

(** ** Map and reduce tasks *)

Definition bucket (nreduce i : Z) (kva : list KeyValue) : list KeyValue :=
  filter (λ kv, ihash kv.(Key) mod nreduce = i) kva.

Lemma values_of_bucket k nreduce i kva :
  values_of k (bucket nreduce i kva) =
    if decide (ihash k mod nreduce = i) then values_of k kva else [].
Proof.
  unfold values_of, bucket. rewrite list_filter_filter. case_decide as Hk.
  - f_equal. apply list_filter_iff. intros kv. split; [tauto|]. intros <-. done.
  - assert (filter (λ kv, Key kv = k ∧ ihash (Key kv) mod nreduce = i) kva = []) as ->; [|done].
    induction kva as [|kv kva IH]; [done|]. rewrite filter_cons_False; [done|].
    intros [<- ?]. done.
Qed.

Section worker_facts.
Context `{KVJsonLaws valid, KVSortLaws}.
Context (mapf : string → string → list KeyValue) (reducef : string → list string → string).

Definition buckets (nreduce : Z) (kva : list KeyValue) (ps : list (list KeyValue)) : Prop :=
  glen ps = nreduce ∧ ∀ i, 0 ≤ i < nreduce → ps.[i] = Some (bucket nreduce i kva).

Lemma add_to_partition_spec nreduce kva ps kv :
  0 < nreduce → buckets nreduce kva ps →
  returns (add_to_partition nreduce ps kv) (buckets nreduce (kva ++ [kv])).
Proof.
  intros Hn [Hlen Hps]. unfold add_to_partition. destruct (Z.eqb_spec nreduce 0); [lia|].
  set (idx := ihash (Key kv) mod nreduce).
  assert (0 ≤ idx < nreduce) as Hidx by (apply Z.mod_pos_bound; lia).
  cbv zeta. rewrite gidx_zlookup, (Hps idx Hidx). cbn [mbind go_bind].
  rewrite gset_idx_Ret by lia. apply returns_Ret. split; [by rewrite glen_insert|].
  intros i Hi. rewrite zlookup_insert by lia. unfold bucket. rewrite filter_app. case_decide as Hd.
  - subst i. do 2 f_equal. by rewrite filter_cons_True.
  - rewrite (filter_cons_False _ kv) by done. rewrite app_nil_r. by apply Hps.
Qed.

Lemma partition_kva_spec nreduce kva :
  0 < nreduce → returns (partition_kva nreduce kva) (buckets nreduce kva).
Proof.
  intros Hn. unfold partition_kva. case_if; [lia|].
  assert (∀ kva0 ps, buckets nreduce kva0 ps →
    returns (foldM (add_to_partition nreduce) ps kva) (buckets nreduce (kva0 ++ kva))) as Hgen.
  { clear E. induction kva as [|kv kva IH]; intros kva0 ps Hps; cbn [foldM].
    { apply returns_Ret. by rewrite app_nil_r. }
    eapply returns_bind; [by apply (add_to_partition_spec nreduce kva0)|]. intros ps' Hps'.
    replace (kva0 ++ kv :: kva) with ((kva0 ++ [kv]) ++ kva) by by rewrite <-app_assoc.
    by apply IH. }
  apply (Hgen []). split; [rewrite glen_replicate; lia|].
  intros i Hi. unfold zlookup. case_if; [lia|]. apply lookup_replicate. split; [done|lia].
Qed.

Lemma encode_kva_spec p :
  Forall valid p →
  ∃ s, encode_kva p = Ret s ∧ decode_file s = p.
Proof.
  intros Hv. unfold encode_kva.
  assert (∀ s0, ∃ s, foldM (λ s kv, match kv_enc kv with None => Fatal | Some e => Ret (s +:+ e) end)
      s0 p = Ret (s0 +:+ s) ∧
    ∀ fuel, (String.length s < fuel)%nat → decode_kva fuel s = p) as Hgen.
  { induction Hv as [|kv p Hkv Hv IH]; intros s0; cbn [foldM].
    - exists "". rewrite append_nil_r. split; [done|]. intros [|fuel] Hf; [done|].
      cbn. by rewrite kv_dec_EOF.
    - destruct (kv_enc_valid kv Hkv) as (e & He & Hne). rewrite He. cbn.
      destruct (IH (s0 +:+ e)) as (s & Hs & Hdec). exists (e +:+ s).
      rewrite Hs, append_assoc. split; [done|]. intros [|fuel]; [lia|].
      rewrite append_length. intros Hf. cbn. rewrite (kv_dec_enc _ _ _ Hkv He).
      rewrite Hdec; [done|]. destruct e; [done|]. cbn in Hf. lia. }
  destruct (Hgen "") as (s & Hs & Hdec). exists s. split; [exact Hs|]. apply Hdec. lia.
Qed.

(** The intermediate file of map task [m] for reduce task [i] holds [p]. *)
Definition holds (fs : FS) (m i : Z) (p : list KeyValue) : Prop :=
  ∃ s, fs !! intermediateName m i = Some s ∧ decode_file s = p.

Lemma encode_kva_snoc p kv s e : encode_kva p = Ret s → kv_enc kv = Some e → encode_kva (p ++ [kv]) = Ret (s +:+ e).
Proof. unfold encode_kva. intros Hp He. rewrite foldM_app, Hp. cbn. by rewrite He. Qed.

(** What reduce task [i] writes when the map tasks produced [kvs]. *)
Definition reduce_lines (nreduce i : Z) (kvs : list (list KeyValue)) : list (string * string) :=
  reduce_all reducef (sort_by_key (bucket nreduce i (concat kvs))).

Lemma bucket_concat nreduce i kvs : bucket nreduce i (concat kvs) = concat (bucket nreduce i <$> kvs).
Proof.
  unfold bucket. induction kvs as [|kva kvs IH]; [done|]. cbn. by rewrite filter_app, IH.
Qed.

(** ** Distributed and sequential output *)

(** The lines do not depend on the order of the values. *)
Definition order_free : Prop := ∀ k vs vs', vs ≡ₚ vs' → reducef k vs = reducef k vs'.

Lemma reduce_all_spec kva :
  order_free →
  NoDup (reduce_all reducef (sort_by_key kva)) ∧
  ∀ k out, (k, out) ∈ reduce_all reducef (sort_by_key kva) ↔
           k ∈ Key <$> kva ∧ out = reducef k (values_of k kva).
Proof.
  intros Hof. pose proof (sort_perm kva) as Hp.
  assert (∀ k, k ∈ Key <$> sort_by_key kva ↔ k ∈ Key <$> kva) as Hkeys by (intros; by rewrite Hp).
  destruct (group_runs_spec (length (sort_by_key kva)) (sort_by_key kva)) as [Hnd Hiff];
    [lia|apply sort_sorted|].
  unfold reduce_all. split.
  - apply (NoDup_fmap_1 fst). rewrite <-list_fmap_compose. done.
  - intros k out. rewrite list_elem_of_fmap. split.
    + intros ([k' vs] & [= -> ->] & [Hk%Hkeys ->]%Hiff). split; [done|].
      apply Hof. by apply values_of_perm.
    + intros [Hk ->]. exists (k, values_of k (sort_by_key kva)). split.
      * cbn. f_equal. apply Hof. symmetry. by apply values_of_perm.
      * apply Hiff. by rewrite Hkeys.
Qed.

Lemma keys_bucket k nreduce i kva :
  k ∈ Key <$> bucket nreduce i kva ↔ k ∈ Key <$> kva ∧ ihash k mod nreduce = i.
Proof.
  unfold bucket. rewrite !list_elem_of_fmap. setoid_rewrite list_elem_of_filter. naive_solver.
Qed.

Lemma NoDup_blocks {A} (f : Z → list A) (g : A → Z) (l : list Z) :
  NoDup l → (∀ i, i ∈ l → NoDup (f i)) → (∀ i x, i ∈ l → x ∈ f i → g x = i) →
  NoDup (concat (f <$> l)).
Proof.
  induction 1 as [|i l Hni Hnd IH]; intros Hf Hg; cbn; [constructor|].
  apply NoDup_app. split_and!; [apply Hf; left| |apply IH; set_solver].
  intros x Hx (y & Hy & Hin)%elem_of_concat. apply list_elem_of_fmap in Hin as (j & -> & Hj).
  assert (g x = i) by (apply Hg; [left|done]). assert (g x = j) by (apply Hg; [by right|done]).
  congruence.
Qed.

Lemma reduce_lines_sequential nreduce kvs :
  0 < nreduce → order_free →
  concat ((λ i, reduce_lines nreduce i kvs) <$> range nreduce) ≡ₚ
    reduce_all reducef (sort_by_key (concat kvs)).
Proof.
  intros Hn Hof. set (all := concat kvs).
  assert (∀ i k out, (k, out) ∈ reduce_lines nreduce i kvs ↔
    (k ∈ Key <$> all ∧ out = reducef k (values_of k all)) ∧ ihash k mod nreduce = i) as Hline.
  { intros i k out. unfold reduce_lines. fold all.
    rewrite (proj2 (reduce_all_spec (bucket nreduce i all) Hof)), keys_bucket, values_of_bucket.
    case_decide; tauto. }
  apply NoDup_Permutation.
  - apply NoDup_blocks with (g := λ l, ihash l.1 mod nreduce); [apply NoDup_range|..].
    + intros i _. by apply reduce_all_spec.
    + intros i [k out] _ [_ ?]%Hline. done.
  - by apply reduce_all_spec.
  - intros [k out]. rewrite (proj2 (reduce_all_spec all Hof)). rewrite elem_of_concat. split.
    + intros (ls & Hin & (i & -> & _)%list_elem_of_fmap). by apply Hline in Hin as [? _].
    + intros Hk. exists (reduce_lines nreduce (ihash k mod nreduce) kvs). split.
      * by apply Hline.
      * apply list_elem_of_fmap. eexists. split; [done|]. apply elem_of_range.
        apply Z.mod_pos_bound. lia.
Qed.
End worker_facts.
