(* ===== verification/MrSystem.v ===== *)
(** * A MapReduce job: coordinator, workers and their files

    Workers ask for tasks, execute them file operation by file operation,
    report them and crash, in any interleaving with each other and with the
    coordinator's timeouts. The theorems: if a task is never given out again
    while the worker that had it lives, then when the coordinator says the job
    is done, the output files hold the lines [mrsequential] writes. Otherwise
    the files, which the code writes in place, may be incomplete:
    [late_worker_truncates] in [MrWitness.v] is an execution of a job that is
    done with an empty output file. *)

From S2P Require Import Prelude Names Fnv MrCoordinator MrWorker.

Record MrState := mkMr { m_coord : Coordinator; m_fs : FS; m_workers : gmap Z WorkerState }.

(** [EvWork w n]: a step of worker [w]; a read returns up to [n] bytes. A call
    whose reply is lost is a crash of the worker after the call. *)
Inductive MrEvent :=
  | EvGetTask (w now : Z)
  | EvWork (w : Z) (n : nat)
  | EvReport (w : Z)
  | EvWorkerCrash (w : Z)
  | EvCheckTimeout (now : Z).

Section job.
Context `{KVJson, KVSort}.
Context (mapf : string → string → list KeyValue) (reducef : string → list string → string).

(** The worker's [switch] on the type of the task. *)
Definition execute (n : nat) (ws : WorkerState) (fs : FS) : go (WorkerState * FS) :=
  match (task_of ws).(t_Type) with
  | TaskTypeMap => doMap mapf n ws fs
  | TaskTypeReduce => doReduce reducef n ws fs
  | _ => Ret (ws, fs)
  end.

Definition mr_step (ev : MrEvent) (s : MrState) : go MrState :=
  match ev with
  | EvGetTask w now =>
    match s.(m_workers) !! w with
    | Some _ => Ret s
    | None =>
      r ← GetTask now s.(m_coord);
      let '(c, t) := r in
      Ret (mkMr c s.(m_fs)
             (match t.(t_Type) with
              | TaskTypeMap => <[w := MapOpen t]> s.(m_workers)
              | TaskTypeReduce => <[w := RedFiles t 0 []]> s.(m_workers)
              | _ => s.(m_workers)
              end))
    end
  | EvWork w n =>
    match s.(m_workers) !! w with
    | None => Ret s
    | Some ws => r ← execute n ws s.(m_fs); Ret (mkMr s.(m_coord) r.2 (<[w := r.1]> s.(m_workers)))
    end
  | EvReport w =>
    match s.(m_workers) !! w with
    | Some (Executed t) =>
      c ← ReportTask (mkReport t.(t_Type) t.(t_Id)) s.(m_coord);
      Ret (mkMr c s.(m_fs) (delete w s.(m_workers)))
    | _ => Ret s
    end
  | EvWorkerCrash w => Ret (mkMr s.(m_coord) s.(m_fs) (delete w s.(m_workers)))
  | EvCheckTimeout now => Ret (mkMr (checkTimeout now s.(m_coord)) s.(m_fs) s.(m_workers))
  end.

Definition mr_run (evs : list MrEvent) (s : MrState) : go MrState :=
  foldM (λ s ev, mr_step ev s) s evs.

Definition mr_init (inputs : list string) (nreduce : Z) (fs : FS) : go MrState :=
  c ← MakeCoordinator inputs nreduce; Ret (mkMr c fs ∅).

(** *** Workers that are given up too early

    A timeout takes the task away from a worker that is still alive. *)
Definition expires (now : Z) (c : Coordinator) (t : Task) : bool :=
  let entry tasks :=
    match tasks.[t.(t_Id)] with
    | Some ti => is_status TaskStatusInProgress ti && (timeout <? now - ti.(StartTime))
    | None => false
    end in
  match c.(phase), t.(t_Type) with
  | PhaseMap, TaskTypeMap => entry c.(mapTasks)
  | PhaseReduce, TaskTypeReduce => entry c.(reduceTasks)
  | _, _ => false
  end.
Definition too_early (ev : MrEvent) (s : MrState) : bool :=
  match ev with
  | EvCheckTimeout now => existsb (λ w, expires now s.(m_coord) (task_of w.2)) (map_to_list s.(m_workers))
  | _ => false
  end.

(** No worker is given up while it lives. *)
Fixpoint timely (evs : list MrEvent) (s : MrState) : bool :=
  match evs with
  | [] => true
  | ev :: evs =>
    negb (too_early ev s) && match mr_step ev s with Ret s => timely evs s | _ => true end
  end.
Definition job_timely (evs : list MrEvent) (job : go MrState) : bool :=
  match job with Ret s => timely evs s | _ => true end.
End job.

(** ** Correctness *)

Section correct.
Context `{KVJsonLaws valid, KVSortLaws}.
Context (mapf : string → string → list KeyValue) (reducef : string → list string → string).
Context (inputs : list string) (nreduce : Z) (fs0 : FS).

(** The job: the inputs exist, are not named like the job's own files, and
    [Map] emits pairs that JSON can carry; [Reduce] ignores the order of the
    values, which the framework does not fix. *)
Record job_ok : Prop := {
  jo_nreduce : 0 < nreduce;
  jo_inputs : ∀ name, name ∈ inputs → is_Some (fs0 !! name);
  jo_names : ∀ name m i, name ∈ inputs → name ≠ intermediateName m i ∧ name ≠ outputName i;
  jo_valid : ∀ name, name ∈ inputs → Forall valid (mapf name (default "" (fs0 !! name)));
  jo_order : order_free reducef;
}.

Definition map_output (name : string) : list KeyValue := mapf name (default "" (fs0 !! name)).
Definition kvs : list (list KeyValue) := map_output <$> inputs.
Definition output (i : Z) : string := format_lines (reduce_lines reducef nreduce i kvs).

Definition mapped (fs : FS) (m : Z) : Prop :=
  ∀ i kva, 0 ≤ i < nreduce → kvs.[m] = Some kva → holds fs m i (bucket nreduce i kva).

Definition reduced (fs : FS) (i : Z) : Prop := fs !! outputName i = Some (output i).

Definition all_done (fs : FS) (Q : FS → Z → Prop) (tasks : list TaskInfo) : Prop :=
  ∀ i t, tasks.[i] = Some t → t.(Status) = TaskStatusCompleted → Q fs i.

(** The task of a live worker is in progress, and is its alone. *)
Definition running (tasks : list TaskInfo) (i : Z) : Prop :=
  ∃ ti, tasks.[i] = Some ti ∧ ti.(Status) = TaskStatusInProgress.
Definition held (c : Coordinator) (t : Task) : Prop :=
  t.(NReduce) = nreduce ∧ t.(NMap) = glen inputs ∧
  match t.(t_Type) with
  | TaskTypeMap => inputs.[t.(t_Id)] = Some t.(InputFile) ∧ running c.(mapTasks) t.(t_Id)
  | TaskTypeReduce => 0 ≤ t.(t_Id) < nreduce ∧ completed c.(mapTasks) ∧ running c.(reduceTasks) t.(t_Id)
  | _ => False
  end.
Definition same_task (t t' : Task) : Prop := t.(t_Type) = t'.(t_Type) ∧ t.(t_Id) = t'.(t_Id).

(** The files a task writes. *)
Definition owned (t : Task) (name : string) : Prop :=
  match t.(t_Type) with
  | TaskTypeMap => ∃ i, name = intermediateName t.(t_Id) i
  | TaskTypeReduce => name = outputName t.(t_Id)
  | _ => False
  end.

(** How far a worker is. *)
Definition map_files (fs : FS) (t : Task) (ps : list (list KeyValue)) (i : Z) : Prop :=
  t.(t_Type) = TaskTypeMap ∧ 0 ≤ i ≤ nreduce ∧ buckets nreduce (map_output t.(InputFile)) ps ∧
  ∀ j, 0 ≤ j < i → holds fs t.(t_Id) j (bucket nreduce j (map_output t.(InputFile))).
Definition red_files (t : Task) (i : Z) (kva : list KeyValue) : Prop :=
  t.(t_Type) = TaskTypeReduce ∧ 0 ≤ i ≤ glen inputs ∧
  kva = concat (bucket nreduce t.(t_Id) <$> take (Z.to_nat i) kvs).

Definition progress (fs : FS) (ws : WorkerState) : Prop :=
  match ws with
  | MapOpen t => t.(t_Type) = TaskTypeMap
  | MapRead t buf => t.(t_Type) = TaskTypeMap ∧ ∃ r, fs0 !! t.(InputFile) = Some (buf +:+ r)
  | MapFiles t ps i => map_files fs t ps i
  | MapWrite t ps i rest off => map_files fs t ps i ∧ i < nreduce ∧ ∃ written s,
      bucket nreduce i (map_output t.(InputFile)) = written ++ rest ∧ encode_kva written = Ret s ∧
      fs !! intermediateName t.(t_Id) i = Some s ∧ off = String.length s
  | RedFiles t i kva => red_files t i kva
  | RedRead t i kva buf => red_files t i kva ∧ i < glen inputs ∧
      ∃ r, fs !! intermediateName i t.(t_Id) = Some (buf +:+ r)
  | RedWrite t ls off => t.(t_Type) = TaskTypeReduce ∧ ∃ written,
      reduce_lines reducef nreduce t.(t_Id) kvs = written ++ ls ∧
      fs !! outputName t.(t_Id) = Some (format_lines written) ∧ off = String.length (format_lines written)
  | Executed t =>
      match t.(t_Type) with
      | TaskTypeMap => mapped fs t.(t_Id)
      | TaskTypeReduce => reduced fs t.(t_Id)
      | _ => False
      end
  end.

Record mr_inv (s : MrState) : Prop := {
  mi_coord : coord_inv s.(m_coord);
  mi_files : s.(m_coord).(files) = inputs;
  mi_nreduce : s.(m_coord).(nReduce) = nreduce;
  mi_inputs : ∀ name, name ∈ inputs → s.(m_fs) !! name = fs0 !! name;
  mi_mapped : all_done s.(m_fs) mapped s.(m_coord).(mapTasks);
  mi_reduced : all_done s.(m_fs) reduced s.(m_coord).(reduceTasks);
  mi_held : ∀ w ws, s.(m_workers) !! w = Some ws → held s.(m_coord) (task_of ws);
  mi_alone : ∀ w w' ws ws', s.(m_workers) !! w = Some ws → s.(m_workers) !! w' = Some ws' →
    same_task (task_of ws) (task_of ws') → w = w';
  mi_progress : ∀ w ws, s.(m_workers) !! w = Some ws → progress s.(m_fs) ws;
}.

Lemma kvs_lookup m name : inputs.[m] = Some name → kvs.[m] = Some (map_output name).
Proof.
  unfold kvs, zlookup. destruct (m <? 0); [done|]. rewrite list_lookup_fmap. by intros ->.
Qed.

Lemma glen_kvs : glen kvs = glen inputs.
Proof. unfold kvs. apply glen_fmap. Qed.

(** *** What a step of a worker leaves alone *)

Lemma holds_same fs fs' m i p : fs' !! intermediateName m i = fs !! intermediateName m i → holds fs m i p → holds fs' m i p.
Proof. unfold holds. by intros ->. Qed.

Lemma map_files_same fs fs' t ps i :
  map_files fs t ps i → (∀ j, 0 ≤ j < i → fs' !! intermediateName t.(t_Id) j = fs !! intermediateName t.(t_Id) j) →
  map_files fs' t ps i.
Proof.
  intros (Ht & Hi & Hb & Hh) Hs. split; [done|]. split; [done|]. split; [done|].
  intros j Hj. eapply holds_same; [by apply Hs|by apply Hh].
Qed.

(** The files that what a worker knows is about. *)
Definition concerns (t : Task) (name : string) : Prop :=
  owned t name ∨ (t.(t_Type) = TaskTypeReduce ∧ ∃ m i, 0 ≤ m ∧ name = intermediateName m i).

Lemma progress_same fs fs' ws :
  progress fs ws → (0 ≤ (task_of ws).(t_Id)) → (∀ name, concerns (task_of ws) name → fs' !! name = fs !! name) → progress fs' ws.
Proof.
  intros Hp Hid Hs. unfold concerns, owned in Hs. destruct ws as [t|t buf|t ps i|t ps i rest off|t i kva|t i kva buf|t ls off|t]; cbn in *.
  - done.
  - done.
  - rewrite (proj1 Hp) in Hs. eapply map_files_same; [done|]. intros j _. apply Hs. left. by eexists.
  - destruct Hp as (Hm & Hlt & wr & s & Hw & He & Hf & Ho). rewrite (proj1 Hm) in Hs. split.
    + eapply map_files_same; [done|]. intros j _. apply Hs. left. by eexists.
    + split; [done|]. exists wr, s. rewrite Hs; [done|]. left. by eexists.
  - done.
  - destruct Hp as ((Ht & Hi & Hk) & Hlt & r & Hf). split; [done|]. split; [done|]. exists r. rewrite Hs; [done|].
    right. split; [done|]. eexists _, _. split; [|done]. lia.
  - destruct Hp as (Ht & wr & Hl & Hf & Ho). rewrite Ht in Hs. split; [done|]. exists wr. rewrite Hs; [done|]. by left.
  - destruct (t_Type t); try done.
    + intros i kva Hi Hk. eapply holds_same; [|by apply Hp]. apply Hs. left. by eexists.
    + unfold reduced in *. rewrite Hs; [done|]. by left.
Qed.

(** *** A step of a task *)

Lemma input_of c t : job_ok → held c t → t.(t_Type) = TaskTypeMap →
  t.(InputFile) ∈ inputs ∧ 0 ≤ t.(t_Id) ∧ kvs.[t.(t_Id)] = Some (map_output t.(InputFile)) ∧
  ∃ content, fs0 !! t.(InputFile) = Some content ∧ map_output t.(InputFile) = mapf t.(InputFile) content ∧
    Forall valid (map_output t.(InputFile)).
Proof.
  intros Hjob (_ & _ & Hty) Ht. rewrite Ht in Hty. destruct Hty as [Hin _].
  assert (InputFile t ∈ inputs) as Hname by (apply zlookup_elem_of; eauto).
  pose proof (zlookup_lt_Some _ _ _ Hin). split; [done|]. split; [lia|]. split; [by apply kvs_lookup|].
  destruct (jo_inputs Hjob _ Hname) as [content Hc]. exists content. unfold map_output. rewrite Hc.
  split; [done|]. split; [done|]. pose proof (jo_valid Hjob _ Hname) as Hv. by rewrite Hc in Hv.
Qed.

(** The result of a step of a worker with task [t]. *)
Definition stepped (t : Task) (fs : FS) (r : WorkerState * FS) : Prop :=
  task_of r.1 = t ∧ progress r.2 r.1 ∧ ∀ name, ¬ owned t name → r.2 !! name = fs !! name.

Lemma doMap_step c n ws fs :
  job_ok → held c (task_of ws) → (task_of ws).(t_Type) = TaskTypeMap →
  (∀ name, name ∈ inputs → fs !! name = fs0 !! name) → progress fs ws →
  returns (doMap mapf n ws fs) (stepped (task_of ws) fs).
Proof.
  intros Hjob Hheld Ht Hin Hp. destruct (input_of c _ Hjob Hheld Ht) as (Hname & Hid & Hk & content & Hc & Hmo & Hv).
  pose proof (proj1 Hheld) as Hnr. pose proof (jo_nreduce Hjob).
  destruct ws as [t|t buf|t ps i|t ps i rest off|t i kva|t i kva buf|t ls off|t]; cbn in Ht, Hheld, Hp, Hid, Hk, Hc, Hmo, Hv, Hnr;
    cbn [doMap task_of] in *.
  - rewrite Hin, Hc by done. apply returns_Ret. split; [done|]. split; [|done]. split; [done|]. by exists content.
  - destruct Hp as [_ [r Hr]]. assert (content = buf +:+ r) as -> by congruence. unfold file_content. rewrite Hin, Hc by done.
    cbn [default from_option id]. destruct (read_at_prefix n buf r) as (r' & Hr' & Hend). case_bool_decide as Hch.
    + rewrite (Hend Hch), append_nil_r in *. rewrite Hnr. eapply returns_bind; [by apply (partition_kva_spec nreduce)|].
      intros ps Hps. apply returns_Ret. split; [done|]. split; [|done]. split; [done|]. split; [lia|]. rewrite Hmo. split; [done|]. lia.
    + apply returns_Ret. split; [done|]. split; [|done]. split; [done|]. exists r'. by rewrite append_assoc, <-Hr'.
  - destruct Hp as (_ & Hi & Hb & Hh). rewrite Hnr. destruct (Z.ltb_spec i nreduce) as [Hlt|Hge].
    + rewrite gidx_zlookup, (proj2 Hb i) by lia. apply returns_Ret. split; [done|]. split.
      * split.
        { apply (map_files_same fs); [by split|]. intros j Hj. apply lookup_insert_ne. intros [_ ?]%intermediateName_inj; lia. }
        split; [done|]. exists [], "". cbn [fst snd task_of]. rewrite lookup_insert_eq. done.
      * intros name Hno. apply lookup_insert_ne. intros <-. apply Hno. unfold owned. rewrite Ht. by eexists.
    + apply returns_Ret. split; [done|]. split; [|done]. cbn [progress fst snd]. rewrite Ht. intros j kva Hj Hkva.
      rewrite Hk in Hkva. injection Hkva as <-. apply Hh. lia.
  - destruct Hp as ((_ & Hi & Hb & Hh) & Hlt & wr & s & Hw & He & Hf & ->).
    assert (Forall valid (bucket nreduce i (map_output (InputFile t)))) as Hvb.
    { apply Forall_forall. intros kv [_ ?]%list_elem_of_filter. by eapply Forall_forall in Hv. }
    destruct rest as [|kv rest].
    + apply returns_Ret. split; [done|]. split; [|done]. split; [done|]. split; [lia|]. split; [done|].
      intros j Hj. destruct (decide (j = i)) as [->|]; [|apply Hh; lia]. exists s. split; [done|].
      rewrite app_nil_r in Hw. destruct (encode_kva_spec _ Hvb) as (s' & Hs' & Hd). rewrite Hw in *. congruence.
    + assert (valid kv) as Hkv by (rewrite Hw in Hvb; apply Forall_app in Hvb as [_ Hvb]; by inversion Hvb).
      destruct (kv_enc_valid kv Hkv) as (e & Hkve & _). rewrite Hkve. apply returns_Ret. unfold write_file, file_content. rewrite Hf.
      cbn [default from_option id]. rewrite write_at_end. split; [done|]. split.
      * split.
        { apply (map_files_same fs); [by split|]. intros j Hj. apply lookup_insert_ne. intros [_ ?]%intermediateName_inj; lia. }
        split; [done|]. exists (wr ++ [kv]), (s +:+ e). cbn [fst snd task_of]. rewrite <-app_assoc, lookup_insert_eq, append_length.
        split; [done|]. split; [by apply encode_kva_snoc|done].
      * intros name Hno. apply lookup_insert_ne. intros <-. apply Hno. unfold owned. rewrite Ht. by eexists.
  - destruct Hp; congruence.
  - destruct Hp as [[]]; congruence.
  - destruct Hp; congruence.
  - apply returns_Ret. split; [done|]. split; [exact Hp|done].
Qed.

Lemma take_snoc (l : list (list KeyValue)) i x :
  l.[i] = Some x → take (Z.to_nat (i + 1)) l = take (Z.to_nat i) l ++ [x].
Proof.
  intros Hx. pose proof (zlookup_lt_Some _ _ _ Hx). replace (Z.to_nat (i + 1)) with (S (Z.to_nat i)) by lia.
  apply take_S_r. unfold zlookup in Hx. by destruct (i <? 0).
Qed.

Lemma format_lines_snoc wr l : format_lines (wr ++ [l]) = format_lines wr +:+ format_line l.
Proof.
  induction wr as [|x wr IH]; [cbn; by rewrite append_nil_r|].
  change (format_line x +:+ format_lines (wr ++ [l]) = (format_line x +:+ format_lines wr) +:+ format_line l).
  by rewrite IH, append_assoc.
Qed.

Lemma doReduce_step c n ws fs :
  job_ok → held c (task_of ws) → (task_of ws).(t_Type) = TaskTypeReduce →
  (∀ m, 0 ≤ m < glen inputs → mapped fs m) → progress fs ws →
  returns (doReduce reducef n ws fs) (stepped (task_of ws) fs).
Proof.
  intros Hjob (_ & Hnm & Hty) Ht Hmap Hp. rewrite Ht in Hty. destruct Hty as (Hid & _ & _).
  assert (∀ i, 0 ≤ i < glen inputs → ∃ kva s, kvs.[i] = Some kva ∧
    fs !! intermediateName i (t_Id (task_of ws)) = Some s ∧ decode_file s = bucket nreduce (t_Id (task_of ws)) kva) as Hread.
  { intros i Hi. destruct (zlookup_is_Some kvs i) as [kva Hk]; [by rewrite glen_kvs|].
    destruct (Hmap i Hi (t_Id (task_of ws)) kva Hid Hk) as (s & Hs & Hd). by exists kva, s. }
  destruct ws as [t|t buf|t ps i|t ps i rest off|t i kva|t i kva buf|t ls off|t]; cbn [task_of progress doReduce] in *.
  - congruence.
  - destruct Hp; congruence.
  - destruct Hp; congruence.
  - destruct Hp as [[]]; congruence.
  - destruct Hp as (_ & Hi & ->). rewrite Hnm. destruct (Z.ltb_spec i (glen inputs)) as [Hlt|Hge].
    + destruct (Hread i) as (kva & s & Hk & Hs & _); [lia|]. rewrite Hs. apply returns_Ret. split; [done|]. split; [|done].
      split; [done|]. split; [done|]. exists s. exact Hs.
    + apply returns_Ret. split; [done|]. split.
      * split; [done|]. exists []. cbn [fst snd task_of]. rewrite lookup_insert_eq. split; [|done].
        unfold reduce_lines. rewrite bucket_concat. replace i with (glen inputs) by lia.
        rewrite <-glen_kvs, firstn_all2; [done|unfold glen; lia].
      * intros name Hno. apply lookup_insert_ne. intros <-. apply Hno. unfold owned. by rewrite Ht.
  - destruct Hp as ((_ & Hi & ->) & Hlt & r & Hf). unfold file_content. rewrite Hf. cbn [default from_option id].
    destruct (read_at_prefix n buf r) as (r' & Hr' & Hend). apply returns_Ret. split; [by case_bool_decide|]. split; [|done].
    cbn [fst snd]. case_bool_decide as Hch.
    + pose proof (Hend Hch) as ->. rewrite append_nil_r in Hf. destruct (Hread i) as (kva & s & Hk & Hs & Hd); [lia|].
      rewrite Hf in Hs. injection Hs as <-. split; [done|]. split; [lia|].
      rewrite (take_snoc _ _ _ Hk), fmap_app, concat_app. cbn [fmap list_fmap concat]. by rewrite app_nil_r, Hd.
    + split; [done|]. split; [done|]. exists r'. by rewrite append_assoc, <-Hr'.
  - destruct Hp as (_ & wr & Hl & Hf & ->). destruct ls as [|l ls]; apply returns_Ret; (split; [done|]).
    + split; [|done]. cbn [fst snd progress]. rewrite Ht. unfold reduced, output. by rewrite Hl, app_nil_r.
    + unfold write_file, file_content. rewrite Hf. cbn [default from_option id]. rewrite write_at_end. split.
      * split; [done|]. exists (wr ++ [l]). cbn [fst snd task_of]. rewrite lookup_insert_eq, <-app_assoc, <-append_length.
        rewrite format_lines_snoc. done.
      * intros name Hno. apply lookup_insert_ne. intros <-. apply Hno. unfold owned. by rewrite Ht.
  - apply returns_Ret. split; [done|]. split; [exact Hp|done].
Qed.

(** *** Steps *)

(** Close a goal about an unchanged field. *)
Ltac by_same := by match goal with E : ?x = _ |- context [?x] => rewrite E end.

Lemma all_done_set fs Q tasks i t :
  all_done fs Q tasks → (t.(Status) = TaskStatusCompleted → Q fs i) → 0 ≤ i →
  all_done fs Q (<[Z.to_nat i := t]> tasks).
Proof.
  intros Hd Ht Hi j t' Hj Hst. destruct (decide (i < glen tasks)) as [Hlt|Hge].
  - rewrite zlookup_insert in Hj by lia. case_decide; [|by eapply Hd].
    subst. injection Hj as <-. auto.
  - rewrite list_insert_ge in Hj by (unfold glen in *; lia). by eapply Hd.
Qed.

Lemma all_done_mono fs fs' (Q : FS → Z → Prop) tasks :
  (∀ i, Q fs i → Q fs' i) → all_done fs Q tasks → all_done fs' Q tasks.
Proof. intros HQ Hd i t Hi Hst. by eapply HQ, Hd. Qed.

Lemma all_done_assigned fs Q now i tasks tasks' :
  all_done fs Q tasks → assigned now i tasks tasks' → all_done fs Q tasks'.
Proof.
  intros Hd (t & Ht & _ & ->). apply zlookup_lt_Some in Ht. by apply all_done_set; [| |lia].
Qed.

Lemma all_done_expire fs Q now tasks : all_done fs Q tasks → all_done fs Q (expire now <$> tasks).
Proof.
  intros Hd i t. unfold zlookup. destruct (i <? 0) eqn:Hi; [done|]. rewrite list_lookup_fmap.
  destruct (tasks !! Z.to_nat i) as [t0|] eqn:Ht0; [|done]. intros [= <-] Hst.
  apply (Hd i t0); [unfold zlookup; by rewrite Hi|]. revert Hst. unfold expire. by case_if.
Qed.

Lemma all_done_report fs Q i tasks tasks' :
  all_done fs Q tasks → Q fs i → complete_task i tasks = Ret tasks' → all_done fs Q tasks'.
Proof.
  intros Hd HQ Hc. unfold complete_task in Hc. go_inv Hc. revert Hc. case_if; intros Hc.
  - apply gidx_Ret, zlookup_lt_Some in Ha. rewrite gset_idx_Ret in Hc by done.
    injection Hc as <-. apply all_done_set; [done|done|lia].
  - by injection Hc as <-.
Qed.

Lemma assigned_not_completed now i tasks tasks' : assigned now i tasks tasks' → ¬ completed tasks.
Proof. intros (t & Ht & Hst & _) Hc. specialize (Hc _ _ Ht). congruence. Qed.

Lemma task_given_completed now c c' t :
  task_given now c c' t → completed c.(mapTasks) → completed c'.(mapTasks).
Proof.
  intros [Hg _] Hc. destruct (t_Type t); destruct_and?; [|by_same..].
  by edestruct assigned_not_completed.
Qed.


Lemma held_id c t : held c t → 0 ≤ t.(t_Id).
Proof.
  intros (_ & _ & Hty). destruct (t_Type t); [|lia|done..]. destruct Hty as [Hin _]. apply zlookup_lt_Some in Hin. lia.
Qed.

Lemma running_not_completed tasks i : running tasks i → ¬ completed tasks.
Proof. intros (ti & Hti & Hst) Hc. specialize (Hc _ _ Hti). congruence. Qed.

(** Workers with different tasks do not touch each other's files. *)
Lemma apart c t t' name : held c t → held c t' → ¬ same_task t t' → concerns t' name → ¬ owned t name.
Proof.
  intros Hh Hh' Hne Hcon Hown. pose proof (held_id _ _ Hh). pose proof (held_id _ _ Hh').
  destruct Hh as (_ & _ & Hty), Hh' as (_ & _ & Hty'). unfold concerns, owned, same_task in *.
  destruct (t_Type t) eqn:Ht; [| |done..].
  - destruct Hown as [i ->]. destruct (t_Type t') eqn:Ht'; [| |done..].
    + destruct Hcon as [[j Heq]|[? _]]; [|done]. apply intermediateName_inj in Heq as [? _]; [|done..]. by apply Hne.
    + by apply (running_not_completed _ _ (proj2 Hty)), Hty'.
  - subst name. destruct (t_Type t') eqn:Ht'; [| |done..].
    + destruct Hcon as [[j Heq]|[? _]]; [|done]. by apply eq_sym, intermediate_not_output in Heq.
    + destruct Hcon as [Heq|(_ & m & i & Hm & Heq)]; [apply outputName_inj in Heq; by apply Hne|].
      by apply eq_sym, intermediate_not_output in Heq.
Qed.

Lemma all_mapped s : mr_inv s → completed s.(m_coord).(mapTasks) → ∀ m, 0 ≤ m < glen inputs → mapped s.(m_fs) m.
Proof.
  intros [Hc Hf _ _ Hm _ _ _ _] Hcomp m Hb. destruct (zlookup_is_Some (mapTasks (m_coord s)) m) as [ti Hti].
  { rewrite (co_map _ Hc), <-(co_files _ Hc), Hf. lia. }
  apply (Hm m ti Hti). by eapply Hcomp.
Qed.

Lemma execute_step s w ws n :
  job_ok → mr_inv s → s.(m_workers) !! w = Some ws →
  returns (execute mapf reducef n ws s.(m_fs)) (stepped (task_of ws) s.(m_fs)).
Proof.
  intros Hjob Hinv Hw. pose proof (mi_held _ Hinv _ _ Hw) as Hheld. pose proof (mi_progress _ Hinv _ _ Hw) as Hp.
  unfold execute. destruct (t_Type (task_of ws)) eqn:Ht.
  - eapply doMap_step; [done|done|done|apply Hinv|done].
  - eapply doReduce_step; [done|done|done| |done]. apply all_mapped; [done|].
    destruct Hheld as (_ & _ & Hty). rewrite Ht in Hty. apply Hty.
  - destruct Hheld as (_ & _ & Hty). by rewrite Ht in Hty.
  - destruct Hheld as (_ & _ & Hty). by rewrite Ht in Hty.
Qed.

(** What a task in progress writes is no completed task's. *)
Lemma stepped_done s w ws r :
  mr_inv s → s.(m_workers) !! w = Some ws → stepped (task_of ws) s.(m_fs) r →
  all_done r.2 mapped s.(m_coord).(mapTasks) ∧ all_done r.2 reduced s.(m_coord).(reduceTasks).
Proof.
  intros Hinv Hw (_ & _ & Hsame). pose proof (mi_held _ Hinv _ _ Hw) as Hh. pose proof (held_id _ _ Hh) as Hid.
  destruct Hh as (_ & _ & Hty). split; intros i ti Hti Hst; pose proof (zlookup_lt_Some _ _ _ Hti).
  - intros j kva Hj Hk. eapply holds_same; [|by eapply (mi_mapped _ Hinv)]. apply Hsame. unfold owned.
    destruct (t_Type (task_of ws)); [| |done..].
    + intros [j' Heq]. apply intermediateName_inj in Heq as [-> _]; [|lia..].
      destruct (proj2 Hty) as (ti' & Hti' & Hst'). congruence.
    + apply intermediate_not_output. lia.
  - unfold reduced. rewrite Hsame; [by eapply (mi_reduced _ Hinv)|]. unfold owned.
    destruct (t_Type (task_of ws)); [| |done..].
    + intros [j Heq]. by apply eq_sym, intermediate_not_output in Heq.
    + intros ->%outputName_inj. destruct Hty as (_ & _ & ti' & Hti' & Hst'). congruence.
Qed.

Lemma work_inv s w n : job_ok → mr_inv s → returns (mr_step mapf reducef (EvWork w n) s) mr_inv.
Proof.
  intros Hjob Hinv. simpl. destruct (m_workers s !! w) as [ws|] eqn:Hw; [|by apply returns_Ret].
  eapply returns_bind; [by apply (execute_step s w)|]. intros [ws' fs'] Hst. apply returns_Ret.
  destruct (stepped_done s w ws _ Hinv Hw Hst) as [Hm' Hr']. destruct Hst as (Htask & Hprog & Hsame).
  pose proof Hinv as [Hc Hf Hn Hin Hm Hr Hh Ha Hp]. cbn [fst snd] in *.
  assert (∀ w' ws0, <[w:=ws']> (m_workers s) !! w' = Some ws0 →
    ∃ ws1, m_workers s !! w' = Some ws1 ∧ task_of ws0 = task_of ws1) as Hold.
  { intros w' ws0 [[<- <-]|[_ ?]]%lookup_insert_Some; [by exists ws|by exists ws0]. }
  constructor; cbn [m_coord m_fs m_workers]; try done.
  - intros name Hname. rewrite Hsame; [by apply Hin|]. unfold owned.
    destruct (t_Type (task_of ws)); [| |by intros []..].
    + intros [i ->]. by destruct (jo_names Hjob _ (t_Id (task_of ws)) i Hname).
    + intros ->. by destruct (jo_names Hjob _ 0 (t_Id (task_of ws)) Hname).
  - intros w' ws0 (ws1 & Hw1 & ->)%Hold. by eapply Hh.
  - intros w1 w2 ws1 ws2 (? & ? & ->)%Hold (? & ? & ->)%Hold. by eapply Ha.
  - intros w' ws0 [[<- <-]|[Hne Hw']]%lookup_insert_Some; [done|].
    eapply progress_same; [by eapply Hp|by eapply held_id, Hh|]. intros name Hcon. apply Hsame.
    eapply apart; [by eapply Hh|by eapply Hh| |done]. intros Hst'. by apply Hne, (Ha w w' ws ws0).
Qed.

(** *** Coordinator steps *)

Lemma running_tasks_insert tasks i j ti : running tasks j → 0 ≤ i → i ≠ j → running (<[Z.to_nat i := ti]> tasks) j.
Proof.
  intros (t & Ht & Hst) Hi Hne. exists t. split; [|done]. destruct (decide (i < glen tasks)).
  - rewrite zlookup_insert by lia. by rewrite decide_False.
  - by rewrite list_insert_ge by (unfold glen in *; lia).
Qed.

(** A task that is given out is nobody's. *)
Lemma held_given now c c' t t' :
  task_given now c c' t → held c t' →
  held c' t' ∧ (t.(t_Type) = TaskTypeMap ∨ t.(t_Type) = TaskTypeReduce → ¬ same_task t t').
Proof.
  intros [Hg _] (Hnr & Hnm & Hty). unfold held, same_task.
  destruct (t_Type t) eqn:Ht; destruct_and?; destruct (t_Type t') eqn:Ht'; try done;
    repeat match goal with E : ?f c' = ?f c |- _ => rewrite E; clear E end;
    try (split; [done|]; by intros [?|?]).
  - destruct Hty as [Hin Hrun]. match goal with E : assigned _ _ _ _ |- _ => destruct E as (t0 & Ht0 & Hi & ->) end.
    assert (t_Id t ≠ t_Id t') as Hne by (intros Heq; destruct Hrun as (? & ? & ?); congruence).
    pose proof (zlookup_lt_Some _ _ _ Ht0). split; [|by intros _ [_ ?]]. split; [done|]. split; [done|]. split; [done|].
    apply running_tasks_insert; [done|lia|done].
  - destruct Hty as (_ & Hcomp & _). by edestruct assigned_not_completed.
  - destruct Hty as [_ Hrun]. by destruct (running_not_completed _ _ Hrun).
  - destruct Hty as (Hid & Hcomp & Hrun). match goal with E : assigned _ _ _ _ |- _ => destruct E as (t0 & Ht0 & Hi & ->) end.
    assert (t_Id t ≠ t_Id t') as Hne by (intros Heq; destruct Hrun as (? & ? & ?); congruence).
    pose proof (zlookup_lt_Some _ _ _ Ht0). split; [|by intros _ [_ ?]]. split; [done|]. split; [done|]. split; [done|]. split; [done|].
    apply running_tasks_insert; [done|lia|done].
Qed.

Lemma assigned_running now i tasks tasks' : assigned now i tasks tasks' → 0 ≤ i < glen tasks ∧ running tasks' i.
Proof.
  intros (t & Ht & _ & ->). pose proof (zlookup_lt_Some _ _ _ Ht) as Hi. split; [done|]. eexists. rewrite zlookup_insert by lia.
  by rewrite decide_True.
Qed.

Lemma held_new now c c' t : coord_inv c → c.(files) = inputs → c.(nReduce) = nreduce → task_given now c c' t →
  t.(t_Type) = TaskTypeMap ∨ t.(t_Type) = TaskTypeReduce → held c' t.
Proof.
  intros Hc Hf Hn [Hg Hjob] Hty. destruct (Hjob Hty) as [E1 E2]. split; [by rewrite E1|]. split.
  { rewrite E2, <-(co_files _ Hc), Hf. done. }
  destruct (t_Type t); [| |by destruct Hty..]; destruct_and?;
    match goal with E : assigned _ _ _ _ |- _ => apply assigned_running in E as [Hi Hrun] end.
  - by rewrite <-Hf.
  - split; [by rewrite <-Hn, <-(co_reduce _ Hc)|]. split; [|done]. by_same.
Qed.

Lemma getTask_inv s w now : mr_inv s → returns (mr_step mapf reducef (EvGetTask w now) s) mr_inv.
Proof.
  intros Hinv. simpl. destruct (m_workers s !! w) as [ws|] eqn:Hw; [by apply returns_Ret|].
  pose proof Hinv as [Hc Hf Hn Hin Hm Hr Hh Ha Hp].
  eapply returns_bind; [by apply GetTask_spec|]. intros [c t] (Hc' & (Hf' & Hn' & Hnm') & Hg & _).
  apply returns_Ret. cbn [fst snd] in *. set (ws' := match t_Type t with TaskTypeMap => _ | _ => _ end).
  assert (∀ w' ws0, ws' !! w' = Some ws0 →
    (w' = w ∧ task_of ws0 = t ∧ (t_Type t = TaskTypeMap ∨ t_Type t = TaskTypeReduce) ∧ progress (m_fs s) ws0) ∨
    (m_workers s !! w' = Some ws0)) as Hnew.
  { intros w' ws0. unfold ws'. destruct (t_Type t) eqn:Ht; [| |by right..];
      intros [[<- <-]|[_ ?]]%lookup_insert_Some; [left|by right|left|by right]; (split; [done|]; split; [done|]; split; [auto|]); cbn.
    - done.
    - unfold red_files. split; [done|]. split; [|done]. pose proof (glen_nonneg inputs). lia. }
  constructor; cbn [m_coord m_fs m_workers]; try done; try congruence.
  - destruct Hg as [Hg _]. destruct (t_Type t); destruct_and?; [by eapply all_done_assigned|by_same..].
  - destruct Hg as [Hg _]. destruct (t_Type t); destruct_and?; [by_same|by eapply all_done_assigned|by_same..].
  - intros w' ws0 [(-> & -> & Hty & _)|Hold]%Hnew; [by apply (held_new now (m_coord s))|].
    apply (held_given now (m_coord s) c t); [done|by eapply Hh].
  - intros w1 w2 ws1 ws2 [(-> & Ht1 & Hty1 & _)|Hold1]%Hnew [(-> & Ht2 & Hty2 & _)|Hold2]%Hnew Hst; [done|..].
    + rewrite Ht1 in Hst. by destruct (proj2 (held_given _ _ _ _ _ Hg (Hh _ _ Hold2)) Hty1).
    + rewrite Ht2 in Hst. destruct Hst. by destruct (proj2 (held_given _ _ _ _ _ Hg (Hh _ _ Hold1)) Hty2).
    + by eapply Ha.
  - intros w' ws0 [(_ & _ & _ & ?)|Hold]%Hnew; [done|by eapply Hp].
Qed.

Lemma complete_task_running i j tasks tasks' :
  complete_task i tasks = Ret tasks' → running tasks j → i ≠ j → running tasks' j.
Proof.
  unfold complete_task. intros Hct Hrun Hne. go_inv Hct. apply gidx_Ret, zlookup_lt_Some in Ha. revert Hct. case_if; intros Hct.
  - rewrite gset_idx_Ret in Hct by done. injection Hct as <-. apply running_tasks_insert; [done|lia|done].
  - by injection Hct as <-.
Qed.

Lemma complete_task_completed i tasks tasks' : complete_task i tasks = Ret tasks' → completed tasks → completed tasks'.
Proof.
  unfold complete_task. intros Hct Hc. go_inv Hct. revert Hct. case_if; intros Hct; [|by injection Hct as <-].
  apply gidx_Ret in Ha. pose proof (Hc _ _ Ha) as Hs. unfold is_status in E. by rewrite Hs in E.
Qed.

Lemma report_inv s w : mr_inv s → returns (mr_step mapf reducef (EvReport w) s) mr_inv.
Proof.
  intros Hinv. simpl. destruct (m_workers s !! w) as [ws|] eqn:Hw; [|by apply returns_Ret].
  destruct ws as [t|t buf|t ps i|t ps i rest off|t i kva|t i kva buf|t ls off|t]; try by apply returns_Ret.
  pose proof Hinv as [Hc Hf Hn Hin Hm Hr Hh Ha Hp]. pose proof (Hh _ _ Hw) as Hok. pose proof (Hp _ _ Hw) as Heff.
  cbn [task_of progress] in Hok, Heff.
  destruct (ReportTask_spec (mkReport t.(t_Type) t.(t_Id)) s.(m_coord) Hc)
    as (c & Hrep & Hc' & (Hf' & Hn' & _) & Hph & _ & Hcase).
  { unfold report_in_range. cbn. destruct Hok as (_ & _ & Hok). destruct (t_Type t); try done.
    - destruct Hok as [Hok _]. apply zlookup_lt_Some in Hok. by rewrite <-(co_files _ Hc), Hf.
    - destruct Hok. by rewrite Hn. }
  rewrite Hrep. apply returns_Ret. specialize (Hcase Hrep). cbn in Hcase.
  assert (∀ w' ws', delete w (m_workers s) !! w' = Some ws' → m_workers s !! w' = Some ws' ∧ ¬ same_task t (task_of ws')) as Hold.
  { intros w' ws' [Hne Hw']%lookup_delete_Some. split; [done|]. intros Hst. by apply Hne, (Ha w w' (Executed t) ws'). }
  assert (all_done s.(m_fs) mapped c.(mapTasks) ∧ all_done s.(m_fs) reduced c.(reduceTasks)) as [Hm' Hr'].
  { destruct (t_Type t), (phase (m_coord s)) eqn:Hpe; try (by subst c); destruct Hcase as [Hct Hsame];
      rewrite Hsame; split; try done; by eapply all_done_report. }
  constructor; cbn [m_coord m_fs m_workers]; try done; try congruence.
  - intros w' ws' [Hw' Hne]%Hold. destruct (Hh _ _ Hw') as (Hnr' & Hnm' & Hty). split; [done|]. split; [done|].
    unfold same_task in Hne.
    destruct (t_Type t) eqn:Ht, (phase (m_coord s)) eqn:Hpe; try (by subst c); destruct Hcase as [Hct Hsame];
      destruct (t_Type (task_of ws')); try done; rewrite ?Hsame; try exact Hty.
    + split; [apply Hty|]. eapply complete_task_running; [done|apply Hty|]. naive_solver.
    + split; [apply Hty|]. split; [|apply Hty]. eapply complete_task_completed; [done|apply Hty].
    + split; [apply Hty|]. split; [apply Hty|]. eapply complete_task_running; [done|apply Hty|]. naive_solver.
  - intros w1 w2 ws1 ws2 [Hw1 _]%Hold [Hw2 _]%Hold. by eapply Ha.
  - intros w' ws' [Hw' _]%Hold. by eapply Hp.
Qed.

Lemma crash_inv s w : mr_inv s → returns (mr_step mapf reducef (EvWorkerCrash w) s) mr_inv.
Proof.
  intros [Hc Hf Hn Hin Hm Hr Hh Ha Hp]. apply returns_Ret. constructor; cbn [m_coord m_fs m_workers]; try done.
  - intros w' ws' [_ ?]%lookup_delete_Some. by eapply Hh.
  - intros w1 w2 ws1 ws2 [_ ?]%lookup_delete_Some [_ ?]%lookup_delete_Some. by eapply Ha.
  - intros w' ws' [_ ?]%lookup_delete_Some. by eapply Hp.
Qed.

Lemma expire_running now tasks i ti :
  tasks.[i] = Some ti → ti.(Status) = TaskStatusInProgress → (timeout <? now - ti.(StartTime)) = false →
  running (expire now <$> tasks) i.
Proof.
  intros Hti Hst Hlt. exists ti. split; [|done]. rewrite zlookup_fmap, Hti. cbn. unfold expire. by rewrite Hlt, andb_false_r.
Qed.

Lemma held_timeout now c t : held c t → expires now c t = false → held (checkTimeout now c) t.
Proof.
  intros (Hnr & Hnm & Hty) Hex. split; [done|]. split; [done|]. unfold expires, checkTimeout, is_status in *.
  destruct (phase c); cbn in *.
  - destruct (t_Type t); try done.
    + split; [apply Hty|]. destruct Hty as (_ & ti & Hti & Hst). rewrite Hti, bool_decide_true in Hex by done.
      by eapply expire_running.
    + destruct Hty as (? & Hc & ?). cbn. rewrite expire_completed by done. done.
  - destruct (t_Type t); try done.
    destruct Hty as (Hi & Hc & ti & Hti & Hst). split; [done|]. split; [done|]. rewrite Hti, bool_decide_true in Hex by done.
    by eapply expire_running.
Qed.

Lemma check_timeout_inv s now : mr_inv s → too_early (EvCheckTimeout now) s = false →
  returns (mr_step mapf reducef (EvCheckTimeout now) s) mr_inv.
Proof.
  intros [Hc Hf Hn Hin Hm Hr Hh Ha Hp] Hearly. apply returns_Ret.
  destruct (checkTimeout_inv now _ Hc) as [Hc' (Hf' & Hn' & _)].
  constructor; cbn [m_coord m_fs m_workers]; try done; try congruence.
  - unfold checkTimeout. destruct (phase _); [by apply all_done_expire|done].
  - unfold checkTimeout. destruct (phase _); [done|by apply all_done_expire].
  - intros w ws Hw. apply held_timeout; [by eapply Hh|]. destruct (expires now (m_coord s) (task_of ws)) eqn:Hex; [|done].
    rewrite <-Hearly. symmetry. apply existsb_exists. exists (w, ws). split; [|done]. by apply list_elem_of_In, elem_of_map_to_list.
Qed.

Lemma mr_step_inv ev s :
  job_ok → mr_inv s → too_early ev s = false → returns (mr_step mapf reducef ev s) mr_inv.
Proof.
  intros Hjob Hinv Hearly. destruct ev as [w now|w n|w|w|now];
    [by apply getTask_inv|by apply work_inv|by apply report_inv|by apply crash_inv|by apply check_timeout_inv].
Qed.

Lemma mr_run_inv evs : ∀ s,
  job_ok → mr_inv s → timely mapf reducef evs s = true → returns (mr_run mapf reducef evs s) mr_inv.
Proof.
  unfold mr_run. induction evs as [|ev evs IH]; intros s Hjob Hinv Ht; cbn [foldM timely] in *; [by apply returns_Ret|].
  apply andb_true_iff in Ht as [Hearly%negb_true_iff Ht].
  destruct (mr_step_inv ev s Hjob Hinv Hearly) as (s' & E & Hinv'). rewrite E in *. by apply IH.
Qed.

Lemma mr_init_inv : job_ok → returns (mr_init inputs nreduce fs0) mr_inv.
Proof.
  intros Hjob. unfold mr_init. pose proof (jo_nreduce Hjob).
  assert (∃ c, MakeCoordinator inputs nreduce = Ret c) as [c Hc].
  { unfold MakeCoordinator. case_if; [lia|]. by eexists. }
  rewrite Hc. apply returns_Ret. destruct (MakeCoordinator_inv _ _ _ Hc) as (Hinv & Hf & Hn).
  unfold MakeCoordinator in Hc. revert Hc. case_if; [lia|]. intros [= <-]. constructor; cbn; try done.
  all: intros i t Hi; assert (t ∈ replicate _ idleTask) as Hin by (apply zlookup_elem_of; eauto);
    apply elem_of_replicate in Hin as [-> _]; done.
Qed.

(** The lines of the sequential program. *)
Definition seq_lines : list (string * string) :=
  reduce_all reducef (sort_by_key (concat kvs)).

Lemma read_inputs_spec :
  (∀ name, name ∈ inputs → is_Some (fs0 !! name)) → read_inputs mapf inputs fs0 = Ret (concat kvs).
Proof.
  intros Hin. unfold read_inputs, kvs.
  assert (∀ acc, foldM (λ acc name,
    match fs0 !! name with
    | None => Fatal
    | Some content => Ret (acc ++ mapf name content)
    end) acc inputs = Ret (acc ++ concat (map_output <$> inputs))) as Hgen; [|apply (Hgen [])].
  induction inputs as [|name l IH]; intros acc; cbn [foldM].
  { by rewrite app_nil_r. }
  destruct (Hin name) as [content Hc]; [left|]. rewrite Hc. cbn [mbind go_bind].
  rewrite IH by set_solver. cbn. unfold map_output at 2. rewrite Hc. cbn. by rewrite <-app_assoc.
Qed.

(** When the job is done, output file [i] holds the lines of reduce task [i]. *)
Definition job_outs : list (list (string * string)) :=
  (λ i, reduce_lines reducef nreduce i kvs) <$> range nreduce.

Lemma done_outputs s :
  0 < nreduce → mr_inv s → Done s.(m_coord) = true →
  glen job_outs = nreduce ∧
  ∀ i ls, job_outs.[i] = Some ls → s.(m_fs) !! outputName i = Some (format_lines ls).
Proof.
  intros Hn Hinv Hdone. destruct (co_done _ (mi_coord _ Hinv) Hdone) as [_ Hcomp].
  unfold job_outs. split; [rewrite glen_fmap; apply glen_range; lia|].
  intros i ls. unfold zlookup. destruct (i <? 0) eqn:Hi; [done|].
  rewrite list_lookup_fmap. unfold range.
  destruct (seqZ 0 nreduce !! Z.to_nat i) as [j|] eqn:Hj; [|done]. intros [= <-].
  apply lookup_seqZ in Hj as [-> Hj]. replace (0 + Z.of_nat (Z.to_nat i)) with i by lia.
  destruct (zlookup_is_Some s.(m_coord).(reduceTasks) i) as [t Ht].
  { rewrite (co_reduce _ (mi_coord _ Hinv)), (mi_nreduce _ Hinv). lia. }
  apply (mi_reduced _ Hinv i t Ht). by eapply Hcomp.
Qed.

(** The state at the end of a timely execution. *)
Lemma job_run evs : job_ok → job_timely mapf reducef evs (mr_init inputs nreduce fs0) = true →
  returns (s ← mr_init inputs nreduce fs0; mr_run mapf reducef evs s) mr_inv.
Proof.
  intros Hjob Ht. destruct (mr_init_inv Hjob) as (s0 & E & Hinv). rewrite E in *. by apply mr_run_inv.
Qed.

(** C11. MapReduce computes what the sequential program computes. Workers read
    and write their files operation by operation, in any interleaving, and may
    crash between any two operations, leaving files half written. In every
    execution in which the coordinator gives up no worker that is still alive
    and holds a task, for a job that [job_ok] describes, no step panics or exits, and once [Done] is true the
    output files of the [nReduce] reduce tasks hold, together, exactly the lines
    [mrsequential] writes, in some order. Without that condition they need not
    ([late_worker_truncates] in [MrWitness.v]). *)
Theorem mapreduce_correct evs :
  job_ok → job_timely mapf reducef evs (mr_init inputs nreduce fs0) = true →
  returns (s ← mr_init inputs nreduce fs0; mr_run mapf reducef evs s) (λ s,
    Done s.(m_coord) = true →
    ∃ (outs : list (list (string * string))) seq fs',
      glen outs = nreduce ∧
      (∀ i ls, outs.[i] = Some ls → s.(m_fs) !! outputName i = Some (format_lines ls)) ∧
      mrsequential mapf reducef inputs fs0 = Ret fs' ∧
      fs' !! outputName 0 = Some (format_lines seq) ∧
      concat outs ≡ₚ seq).
Proof.
  intros Hjob Ht. eapply returns_mono; [by apply job_run|]. intros s Hinv Hdone.
  pose proof (jo_nreduce Hjob).
  exists job_outs, seq_lines, (<[outputName 0 := format_lines seq_lines]> fs0).
  destruct (done_outputs s) as [Hlen Hout]; [done..|]. split_and!; [done|done| |apply lookup_insert_eq|].
  - unfold mrsequential. rewrite read_inputs_spec by apply Hjob. done.
  - apply (reduce_lines_sequential mapf); [done|]. apply Hjob.
Qed.
End correct.
