(* ===== verification/MrLive.v ===== *)
(** * One worker is enough

    However the other workers crashed or stalled, a single worker that keeps
    asking, executing and reporting finishes the job once the tasks the
    others held have timed out. *)

From S2P Require Import Prelude MrCoordinator.

(** One iteration of [Worker]'s loop as the coordinator sees it, after a
    timeout check. *)
Definition solo_round (now : Z) (c : Coordinator) : go Coordinator :=
  r ← GetTask now (checkTimeout now c);
  let '(c, t) := r in
  match t.(t_Type) with
  | TaskTypeMap | TaskTypeReduce => ReportTask (mkReport t.(t_Type) t.(t_Id)) c
  | _ => Ret c
  end.

Fixpoint solo (n : nat) (now : Z) (c : Coordinator) : go Coordinator :=
  match n with
  | O => Ret c
  | S n => c ← solo_round now c; solo n now c
  end.

Definition unfinished (tasks : list TaskInfo) : nat :=
  length (filter (λ t, t.(Status) ≠ TaskStatusCompleted) tasks).
Definition remaining (c : Coordinator) : nat :=
  (unfinished c.(mapTasks) + unfinished c.(reduceTasks))%nat.

(** Every task in progress has timed out at [now]. *)
Definition stale (now : Z) (tasks : list TaskInfo) : Prop :=
  ∀ t, t ∈ tasks → t.(Status) = TaskStatusInProgress → timeout < now - t.(StartTime).

Definition none_running (tasks : list TaskInfo) : Prop := in_progress tasks = false.

Lemma expire_stale now tasks :
  stale now tasks → none_running (expire now <$> tasks) ∧ unfinished (expire now <$> tasks) = unfinished tasks.
Proof.
  unfold none_running, in_progress, unfinished. intros Hs. split.
  - apply in_progress_false. intros t' (t & -> & Ht)%list_elem_of_fmap. unfold expire.
    case_if; [done|]. unfold is_status in E. intros Hip. specialize (Hs t Ht Hip).
    rewrite bool_decide_eq_true_2 in E by done. simpl in E. lia.
  - clear Hs. induction tasks as [|t tasks IH]; [done|]. rewrite fmap_cons, !filter_cons.
    assert (Status (expire now t) ≠ TaskStatusCompleted ↔ Status t ≠ TaskStatusCompleted) as Hiff.
    { unfold expire, is_status. case_if; [|done]. apply andb_true_iff in E as [E _].
      apply bool_decide_eq_true in E. by rewrite E. }
    repeat case_decide; simpl; tauto || lia.
Qed.

Lemma unfinished_insert tasks i t :
  tasks.[i] = Some t → t.(Status) ≠ TaskStatusCompleted →
  ∀ s, S (unfinished (<[Z.to_nat i := mkTaskInfo TaskStatusCompleted s]> tasks)) = unfinished tasks.
Proof.
  unfold zlookup. destruct (i <? 0); [done|]. generalize (Z.to_nat i) as n. clear i. intros n Hn Ht s.
  unfold unfinished. revert n Hn. induction tasks as [|t0 tasks IH]; intros [|n] Hn; [done..| |]; simpl in Hn.
  - injection Hn as ->. cbn [insert list_insert]. rewrite !filter_cons.
    rewrite decide_False by (simpl; tauto). by rewrite decide_True.
  - cbn [insert list_insert]. rewrite !filter_cons. case_decide; simpl; by rewrite <-(IH n Hn).
Qed.

Lemma complete_assigned now i tasks tasks' tasks'' :
  assigned now i tasks tasks' → complete_task i tasks' = Ret tasks'' → none_running tasks →
  S (unfinished tasks'') = unfinished tasks ∧ none_running tasks''.
Proof.
  intros (t & Ht & Hst & ->) Hc Hnone. pose proof (zlookup_lt_Some _ _ _ Ht) as Hlt.
  unfold complete_task in Hc. rewrite gidx_zlookup, zlookup_insert, decide_True in Hc by done.
  cbn in Hc. rewrite gset_idx_Ret in Hc by by rewrite glen_insert. injection Hc as <-.
  rewrite list_insert_insert_eq. split; [apply (unfinished_insert _ _ t Ht); congruence|].
  apply in_progress_false. intros t' Hin. apply list_elem_of_lookup in Hin as [k Hk].
  apply list_lookup_insert_Some in Hk as [(_ & <- & _)|[_ Hk]]; [done|].
  apply (proj1 (in_progress_false _) Hnone). by eapply list_elem_of_lookup_2.
Qed.

Lemma none_running_stale now tasks : none_running tasks → stale now tasks.
Proof. intros Hn t Ht Hip. by destruct (proj1 (in_progress_false _) Hn t Ht). Qed.

Lemma completed_none_running tasks : completed tasks → none_running tasks.
Proof. intros Hc. apply in_progress_false. intros t Ht. by rewrite (completed_not_idle _ _ Hc Ht). Qed.

Lemma idle_none_running n : none_running (replicate n idleTask).
Proof. apply in_progress_false. by intros t [-> _]%elem_of_replicate. Qed.

Definition both (P : list TaskInfo → Prop) (c : Coordinator) : Prop :=
  P c.(mapTasks) ∧ P c.(reduceTasks).

Lemma checkTimeout_quiet now c :
  coord_inv c → both (stale now) c →
  both none_running (checkTimeout now c) ∧ remaining (checkTimeout now c) = remaining c.
Proof.
  intros Hinv [Hm Hr]. unfold checkTimeout, both, remaining. destruct (phase c) eqn:Hp.
  - destruct (expire_stale now _ Hm) as [Hno Hu]. split; [split; [exact Hno|]|].
    + cbn. rewrite (co_idle _ Hinv Hp). apply idle_none_running.
    + exact (f_equal (λ n, (n + _)%nat) Hu).
  - destruct (expire_stale now _ Hr) as [Hno Hu]. split; [split; [|exact Hno]|].
    + apply completed_none_running. exact (co_phase _ Hinv Hp).
    + exact (f_equal (λ n, (_ + n)%nat) Hu).
Qed.

(** A round finishes the job or one more task. *)
Lemma solo_round_progress now c :
  coord_inv c → both (stale now) c →
  returns (solo_round now c) (λ c', coord_inv c' ∧ both (stale now) c' ∧
    (Done c' = true ∨ S (remaining c') = remaining c)).
Proof.
  intros Hinv Hst. destruct (checkTimeout_quiet now c Hinv Hst) as [[Hqm Hqr] <-].
  unfold solo_round. destruct (checkTimeout_inv now c Hinv) as [Hinv1 _].
  set (c1 := checkTimeout now c) in *. clearbody c1.
  eapply returns_bind; [by apply GetTask_spec|]. intros [c2 t] (Hinv2 & (Hf & Hn & Hnm) & [Hg _] & _).
  cbn [fst snd] in *. destruct (t_Type t) eqn:Ht.
  - destruct Hg as (Hp1 & Hp2 & Has & Hred & Hfile & Hd).
    destruct (ReportTask_spec (mkReport TaskTypeMap t.(t_Id)) c2 Hinv2) as (c3 & Hr & Hinv3 & _ & _ & _ & Hcase).
    { unfold report_in_range. cbn. apply zlookup_lt_Some in Hfile. rewrite (co_files _ Hinv1) in Hfile. lia. }
    exists c3. split; [done|]. specialize (Hcase Hr). cbn in Hcase. rewrite Hp2 in Hcase.
    destruct Hcase as [Hct Hsame]. destruct (complete_assigned _ _ _ _ _ Has Hct Hqm) as [Hu Hno].
    rewrite Hred in Hsame. split; [done|]. split.
    + split; [|rewrite Hsame]; by apply none_running_stale.
    + right. unfold remaining. rewrite Hsame. lia.
  - destruct Hg as (Hcomp & Hp2 & Hmap & Has & Hd).
    destruct (ReportTask_spec (mkReport TaskTypeReduce t.(t_Id)) c2 Hinv2) as (c3 & Hr & Hinv3 & _ & _ & _ & Hcase).
    { unfold report_in_range. cbn. destruct Has as (t0 & Ht0 & _). apply zlookup_lt_Some in Ht0.
      rewrite (co_reduce _ Hinv1) in Ht0. lia. }
    exists c3. split; [done|]. specialize (Hcase Hr). cbn in Hcase. rewrite Hp2 in Hcase.
    destruct Hcase as [Hct Hsame]. destruct (complete_assigned _ _ _ _ _ Has Hct Hqr) as [Hu Hno].
    rewrite Hmap in Hsame. split; [done|]. split.
    + split; [rewrite Hsame|]; by apply none_running_stale.
    + right. unfold remaining. rewrite Hsame. lia.
  - destruct Hg as (_ & _ & _ & Hip). unfold none_running in *. destruct (phase c2); congruence.
  - destruct Hg as (_ & _ & _ & Hm & Hr & Hd). apply returns_Ret. split; [done|]. split; [|by left].
    split; [rewrite Hm|rewrite Hr]; by apply none_running_stale.
Qed.

Lemma solo_progress_bound now c :
  coord_inv c → both (stale now) c →
  ∃ n, (n ≤ S (remaining c))%nat ∧ returns (solo n now c) (λ c', Done c' = true).
Proof.
  remember (remaining c) as k eqn:Hk. revert c Hk.
  induction k as [|k IH]; intros c Hk Hinv Hst;
    destruct (solo_round_progress now c Hinv Hst) as (c1 & Hr & Hinv1 & Hst1 & Hcase).
  - exists 1%nat. split; [done|]. simpl. rewrite Hr. apply returns_Ret.
    destruct Hcase as [?|?]; [done|lia].
  - destruct Hcase as [Hd|Hrem].
    + exists 1%nat. split; [lia|]. simpl. rewrite Hr. by apply returns_Ret.
    + destruct (IH c1) as (n & Hn & Hret); [lia|done|done|]. exists (S n). split; [lia|].
      simpl. by rewrite Hr.
Qed.

Lemma solo_progress now c :
  coord_inv c → both (stale now) c → ∃ n c', solo n now c = Ret c' ∧ Done c' = true.
Proof.
  intros Hinv Hst. destruct (solo_progress_bound now c Hinv Hst) as (n & _ & c' & ? & ?). by exists n, c'.
Qed.

(** C23. The job finishes with one worker: from any reachable state in which
    every task still in progress has timed out (more than ten seconds have passed
    since it was given out), a single worker is told [Done] after at most one
    round per unfinished task and one more. *)
Theorem mapreduce_live now c :
  coord_inv c → both (stale now) c →
  ∃ n, (n ≤ S (remaining c))%nat ∧ returns (solo n now c) (λ c', Done c' = true).
Proof. apply solo_progress_bound. Qed.
