(* ===== verification/MrFinish.v ===== *)
(** * A MapReduce job can be finished

    A task's steps end: [doMap] and [doReduce] come to their end when the worker
    goes on. So from every state of a job, when the live workers crash and the
    tasks they held have timed out, one new worker finishes the job, without
    being given up. *)

From S2P Require Import Prelude Names Fnv MrCoordinator MrWorker MrSystem MrLive.

Lemma mr_run_app `{KVJson, KVSort} mapf reducef evs evs' s :
  mr_run mapf reducef (evs ++ evs') s = (s ← mr_run mapf reducef evs s; mr_run mapf reducef evs' s).
Proof. unfold mr_run. apply foldM_app. Qed.

Lemma timely_app `{KVJson, KVSort} mapf reducef evs evs' : ∀ s s',
  mr_run mapf reducef evs s = Ret s' →
  timely mapf reducef (evs ++ evs') s = timely mapf reducef evs s && timely mapf reducef evs' s'.
Proof.
  unfold mr_run. induction evs as [|ev evs IH]; intros s s' Hr; cbn [foldM app timely] in *; [by injection Hr as ->|].
  destruct (mr_step mapf reducef ev s) as [s1| |]; [|done..]. by rewrite (IH s1 s' Hr), andb_assoc.
Qed.

(** ** The steps of a task end *)

Definition stage (ws : WorkerState) : nat :=
  match ws with
  | MapOpen _ => 3
  | MapRead _ _ | RedFiles _ _ _ | RedRead _ _ _ _ => 2
  | MapFiles _ _ _ | MapWrite _ _ _ _ _ | RedWrite _ _ _ => 1
  | Executed _ => 0
  end.
Definition files_left (ws : WorkerState) : nat :=
  match ws with
  | MapFiles t _ i => Z.to_nat (t.(NReduce) - i)
  | MapWrite t _ i _ _ => Z.to_nat (t.(NReduce) - i - 1)
  | RedFiles t i _ => Z.to_nat (t.(NMap) - i)
  | RedRead t i _ _ => Z.to_nat (t.(NMap) - i - 1)
  | _ => 0
  end.
Definition in_file (fs : FS) (ws : WorkerState) : nat :=
  match ws with
  | MapRead t buf => String.length (file_content fs t.(InputFile)) - String.length buf
  | MapWrite _ _ _ rest _ => S (length rest)
  | RedRead t i _ buf => S (String.length (file_content fs (intermediateName i t.(t_Id))) - String.length buf)
  | RedWrite _ ls _ => S (length ls)
  | _ => 0
  end.
Definition smaller (fs' : FS) (ws' : WorkerState) (fs : FS) (ws : WorkerState) : Prop :=
  (stage ws' < stage ws ∨ stage ws' = stage ws ∧
   (files_left ws' < files_left ws ∨ files_left ws' = files_left ws ∧ in_file fs' ws' < in_file fs ws))%nat.

Lemma smaller_ind (P : FS → WorkerState → Prop) :
  (∀ fs ws, (∀ fs' ws', smaller fs' ws' fs ws → P fs' ws') → P fs ws) → ∀ fs ws, P fs ws.
Proof.
  intros Hstep. assert (∀ a b c fs ws, stage ws = a → files_left ws = b → in_file fs ws = c → P fs ws) as Hall;
    [|intros fs ws; by apply (Hall (stage ws) (files_left ws) (in_file fs ws))].
  intros a. induction a as [a IHa] using lt_wf_ind. intros b. induction b as [b IHb] using lt_wf_ind.
  intros c. induction c as [c IHc] using lt_wf_ind. intros fs ws Ha Hb Hc. apply Hstep.
  intros fs' ws' [Hlt|[Heq [Hlt|[Heq' Hlt]]]].
  - eapply IHa; [|done..]. lia.
  - eapply IHb; [|lia|done..]. lia.
  - eapply IHc; [|lia|lia|done]. lia.
Qed.

(** A read that is not at the end of the file gets at least one byte. *)
Lemma read_shrinks n (buf r : string) s : s = buf +:+ r → read_at (String.length buf) n s ≠ "" →
  (String.length s - String.length (buf +:+ read_at (String.length buf) n s) < String.length s - String.length buf)%nat.
Proof.
  intros -> Hne. destruct (read_at_prefix n buf r) as (r' & Hr & _). set (c := read_at _ _ _) in *.
  assert (String.length r = String.length c + String.length r')%nat by by rewrite Hr, append_length.
  rewrite !append_length. destruct c; [done|]. cbn [String.length] in *. lia.
Qed.

Section finish.
Context `{KVJsonLaws valid, KVSortLaws}.
Context (mapf : string → string → list KeyValue) (reducef : string → list string → string).
Context (inputs : list string) (nreduce : Z) (fs0 : FS).
Context (Hjob : job_ok (valid := valid) mapf reducef inputs nreduce fs0).
Notation inv := (mr_inv mapf reducef inputs nreduce fs0).
Notation run := (mr_run mapf reducef).

Lemma execute_smaller s w ws n ws' fs' :
  inv s → s.(m_workers) !! w = Some ws → (∀ t, ws ≠ Executed t) →
  execute mapf reducef n ws s.(m_fs) = Ret (ws', fs') → smaller fs' ws' s.(m_fs) ws.
Proof.
  intros Hinv Hw Hne E. pose proof (mi_held _ _ _ _ _ _ Hinv _ _ Hw) as Hheld. pose proof (mi_progress _ _ _ _ _ _ Hinv _ _ Hw) as Hp.
  pose proof (proj1 Hheld) as Hnr. pose proof (proj1 (proj2 Hheld)) as Hnm.
  unfold execute in E. destruct (t_Type (task_of ws)) eqn:Ht; [| |by destruct Hheld as (_ & _ & Hty); rewrite Ht in Hty..];
    destruct ws as [t|t buf|t ps i|t ps i rest off|t i kva|t i kva buf|t ls off|t]; cbn [task_of progress] in *;
    try (unfold map_files, red_files in Hp; destruct_and?; congruence); try by destruct (Hne t).
  - cbn [doMap] in E. destruct (m_fs s !! InputFile t); [|done]. injection E as <- <-. left. cbn. lia.
  - destruct (input_of mapf reducef inputs nreduce fs0 _ t Hjob Hheld Ht) as (Hname & _). destruct Hp as (_ & r & Hr).
    pose proof (mi_inputs _ _ _ _ _ _ Hinv _ Hname) as Hin. rewrite Hr in Hin. cbn [doMap] in E.
    unfold smaller, in_file, file_content in *. rewrite Hin in *. cbn [default from_option id] in E. case_bool_decide as Hc.
    + apply bind_Ret_inv in E as (x & _ & E). injection E as <- <-. left. cbn. lia.
    + injection E as <- <-. right. split; [done|]. right. split; [done|]. rewrite Hin. cbn [default from_option id]. by eapply read_shrinks.
  - destruct Hp as (_ & Hi & _). cbn [doMap] in E. destruct (Z.ltb_spec i (NReduce t)).
    + apply bind_Ret_inv in E as (x & _ & E). injection E as <- <-. right. split; [done|]. left. cbn. lia.
    + injection E as <- <-. left. cbn. lia.
  - destruct Hp as (_ & Hlt & _). cbn [doMap] in E. destruct rest as [|kv rest].
    + injection E as <- <-. right. split; [done|]. right. cbn. lia.
    + destruct (kv_enc kv); [|done]. injection E as <- <-. right. split; [done|]. right. cbn. lia.
  - destruct Hp as (_ & Hi & _). cbn [doReduce] in E. destruct (Z.ltb_spec i (NMap t)).
    + injection E as <- <-. right. case_match; (split; [done|]); left; cbn; lia.
    + injection E as <- <-. left. cbn. lia.
  - destruct Hp as (_ & Hlt & r & Hf). cbn [doReduce] in E. unfold smaller, in_file, file_content in *. rewrite Hf in *.
    cbn [default from_option id] in E. injection E as <- <-. right. case_bool_decide as Hc; (split; [done|]); right.
    + cbn. lia.
    + split; [done|]. rewrite Hf. cbn [default from_option id]. apply -> Nat.succ_lt_mono. by eapply read_shrinks.
  - cbn [doReduce] in E. destruct ls as [|l ls]; injection E as <- <-.
    + left. cbn. lia.
    + right. split; [done|]. right. cbn. lia.
Qed.

(** *** Executions that continue *)

(** From [s] a timely execution leads to [s'], which is again a state of the
    job. *)
Definition leads (s s' : MrState) : Prop :=
  ∃ evs, timely mapf reducef evs s = true ∧ run evs s = Ret s' ∧ inv s'.

Lemma leads_refl s : inv s → leads s s.
Proof. by exists []. Qed.

Lemma leads_trans s1 s2 s3 : leads s1 s2 → leads s2 s3 → leads s1 s3.
Proof.
  intros (e1 & T1 & R1 & _) (e2 & T2 & R2 & I2). exists (e1 ++ e2). split; [by rewrite (timely_app _ _ _ _ _ _ R1), T1|].
  split; [|done]. by rewrite mr_run_app, R1.
Qed.

Lemma leads_step ev s s' : inv s → too_early ev s = false → mr_step mapf reducef ev s = Ret s' → leads s s'.
Proof.
  intros Hinv Ht E. exists [ev]. cbn [timely]. rewrite Ht, E. split; [done|]. unfold mr_run. cbn [foldM]. rewrite E. split; [done|].
  destruct (mr_step_inv mapf reducef inputs nreduce fs0 ev s Hjob Hinv Ht) as (s1 & E1 & Hinv1). rewrite E in E1. by injection E1 as ->.
Qed.

(** The only worker executes its task. *)
Lemma works w : ∀ fs ws s, s.(m_fs) = fs → s.(m_workers) = {[w := ws]} → inv s →
  ∃ s', leads s s' ∧ inv s' ∧ s'.(m_coord) = s.(m_coord) ∧ s'.(m_workers) = {[w := Executed (task_of ws)]}.
Proof.
  apply (smaller_ind (λ fs ws, ∀ s, s.(m_fs) = fs → s.(m_workers) = {[w := ws]} → inv s → _)).
  intros fs ws IH s Hfs Hws Hinv. assert (s.(m_workers) !! w = Some ws) as Hw by (rewrite Hws; apply lookup_singleton_eq).
  assert ((∀ t, ws ≠ Executed t) ∨ ∃ t, ws = Executed t) as [Hne|[t ->]]; [destruct ws; eauto..| |].
  2: { exists s. split; [by apply leads_refl|]. done. }
  destruct (execute_step mapf reducef inputs nreduce fs0 s w ws 1 Hjob Hinv Hw) as ([ws' fs'] & E & Htask & _).
  cbn [fst] in Htask. pose proof (execute_smaller s w ws 1 ws' fs' Hinv Hw Hne E) as Hsm.
  set (s1 := mkMr s.(m_coord) fs' (<[w := ws']> s.(m_workers))).
  assert (leads s s1) as Hl. { apply (leads_step (EvWork w 1)); [done|done|]. cbn [mr_step]. by rewrite Hw, E. }
  assert (inv s1) as Hinv1 by (by destruct Hl as (? & _ & _ & ?)).
  destruct (IH fs' ws') with (s := s1) as (s2 & Hl2 & Hinv2 & Hc & Hws2); [by rewrite <-Hfs|done| |done|].
  { cbn. by rewrite Hws, insert_singleton_eq. }
  exists s2. split; [by eapply leads_trans|]. split; [done|]. split; [done|]. by rewrite <-Htask.
Qed.

(** A round of a worker that is alone. *)
Lemma solo_leads now s : inv s → s.(m_workers) = ∅ →
  ∃ s', leads s s' ∧ inv s' ∧ s'.(m_workers) = ∅ ∧ solo_round now s.(m_coord) = Ret s'.(m_coord).
Proof.
  intros Hinv Hws. set (s1 := mkMr (checkTimeout now s.(m_coord)) s.(m_fs) s.(m_workers)).
  assert (leads s s1) as Hl1.
  { apply (leads_step (EvCheckTimeout now)); [done| |done]. unfold too_early. by rewrite Hws, map_to_list_empty. }
  assert (inv s1) as Hinv1 by (by destruct Hl1 as (? & _ & _ & ?)).
  destruct (getTask_inv mapf reducef inputs nreduce fs0 s1 0 now Hinv1) as (s2 & E2 & Hinv2).
  assert (leads s1 s2) as Hl2 by (by apply (leads_step (EvGetTask 0 now))).
  cbn [mr_step] in E2. cbn [s1 m_workers m_coord m_fs] in E2. rewrite Hws in E2. cbn in E2.
  unfold solo_round. destruct (GetTask now (checkTimeout now (m_coord s))) as [[c t]| |] eqn:Eg; [|done..].
  cbn [mbind go_bind] in *. injection E2 as E2.
  assert (∀ ws, s2.(m_workers) = {[0 := ws]} → task_of ws = t → s2.(m_coord) = c →
    ∃ s', leads s s' ∧ inv s' ∧ s'.(m_workers) = ∅ ∧ ReportTask (mkReport t.(t_Type) t.(t_Id)) c = Ret s'.(m_coord)) as Hdo.
  { intros ws Hw Ht Hc. destruct (works 0 s2.(m_fs) ws s2) as (s3 & Hl3 & Hinv3 & Hc3 & Hw3); [done..|].
    destruct (report_inv mapf reducef inputs nreduce fs0 s3 0 Hinv3) as (s4 & E4 & Hinv4).
    assert (leads s3 s4) as Hl4 by (by apply (leads_step (EvReport 0))).
    exists s4. split; [eapply leads_trans; [done|]; eapply leads_trans; [done|]; by eapply leads_trans|]. split; [done|].
    cbn [mr_step] in E4. rewrite Hw3, lookup_singleton_eq, Ht, Hc3, Hc in E4.
    destruct (ReportTask _ c) as [c'| |]; [|done..]. injection E4 as <-. cbn. by rewrite delete_singleton_eq. }
  destruct (t_Type t) eqn:Ht.
  - apply (Hdo (MapOpen t)); [|done|]; by rewrite <-E2.
  - apply (Hdo (RedFiles t 0 [])); [|done|]; by rewrite <-E2.
  - exists s2. split; [by eapply leads_trans|]. split; [done|]. by rewrite <-E2.
  - exists s2. split; [by eapply leads_trans|]. split; [done|]. by rewrite <-E2.
Qed.

Lemma solo_finishes n now c : ∀ s, inv s → s.(m_workers) = ∅ → solo n now s.(m_coord) = Ret c →
  ∃ s', leads s s' ∧ s'.(m_coord) = c.
Proof.
  induction n as [|n IH]; intros s Hinv Hw Hs; cbn [solo] in Hs.
  { injection Hs as <-. exists s. split; [by apply leads_refl|done]. }
  destruct (solo_leads now s Hinv Hw) as (s1 & Hl & Hinv1 & Hw1 & Hround).
  rewrite Hround in Hs. cbn [mbind go_bind] in Hs. destruct (IH s1 Hinv1 Hw1 Hs) as (s' & Hl' & Hc).
  exists s'. split; [by eapply leads_trans|done].
Qed.

Lemma stale_eventually tasks : ∃ now, ∀ now', now ≤ now' → stale now' tasks.
Proof.
  induction tasks as [|t tasks [now IH]].
  { exists 0. by intros now' _ t ?%elem_of_nil. }
  exists (now `max` (t.(StartTime) + timeout + 1)). intros now' Hn t' [->|Ht]%elem_of_cons Hip; [lia|].
  by apply (IH now'); [lia|..].
Qed.

Lemma all_crash : ∀ s, inv s → ∃ s', leads s s' ∧ inv s' ∧ s'.(m_coord) = s.(m_coord) ∧ s'.(m_workers) = ∅.
Proof.
  assert (∀ n s, inv s → size s.(m_workers) = n → ∃ s', leads s s' ∧ inv s' ∧ s'.(m_coord) = s.(m_coord) ∧ s'.(m_workers) = ∅) as Hall;
    [|intros s Hs; by apply (Hall (size s.(m_workers)))].
  induction n as [|n IH]; intros s Hinv Hn.
  { exists s. split; [by apply leads_refl|]. split; [done|]. split; [done|]. by apply map_size_empty_iff. }
  destruct (map_choose s.(m_workers)) as (w & ws & Hw); [by intros E; rewrite E, map_size_empty in Hn|].
  set (s1 := mkMr s.(m_coord) s.(m_fs) (delete w s.(m_workers))).
  assert (leads s s1) as Hl by (by apply (leads_step (EvWorkerCrash w))).
  destruct (IH s1) as (s' & Hl' & Hinv' & Hc & Hw').
  - by destruct Hl as (? & _ & _ & ?).
  - cbn. rewrite map_size_delete_Some by done. lia.
  - exists s'. split; [by eapply leads_trans|done].
Qed.

(** Every execution of a job can be continued to its end. *)
Lemma job_finishes s : inv s → ∃ s', leads s s' ∧ Done s'.(m_coord) = true.
Proof.
  intros Hinv. destruct (all_crash s Hinv) as (s1 & Hl & Hinv1 & Hc & Hw).
  destruct (stale_eventually s1.(m_coord).(mapTasks)) as [n1 Hn1].
  destruct (stale_eventually s1.(m_coord).(reduceTasks)) as [n2 Hn2].
  set (now := n1 `max` n2). assert (both (stale now) s1.(m_coord)) as Hst by (split; [apply Hn1|apply Hn2]; lia).
  destruct (solo_progress now s1.(m_coord) (mi_coord _ _ _ _ _ _ Hinv1) Hst) as (n & c & Hs & Hd).
  destruct (solo_finishes n now c s1 Hinv1 Hw Hs) as (s' & Hl' & <-). exists s'. split; [by eapply leads_trans|done].
Qed.
End finish.
