(* ===== verification/MrApps.v ===== *)
(** * The MapReduce applications: [mrapps/]

    [Map] and [Reduce] of the word count ([wc.go]), the inverted index
    ([indexer.go]), the test applications [crash.go] and [nocrash.go] (their
    crashes and delays are events of [MrSystem.v]) and [early_exit.go]. The
    theorems compose them with the framework: what the output files of a job
    hold is stated in terms of the input files only.

    Which code points are letters ([unicode.IsLetter], a table) is a
    parameter. *)

From S2P Require Import Prelude Names GoStrings Fnv MrCoordinator MrWorker MrSystem.

(** ** The applications *)

Section apps.
Context (IsLetter : Z → bool).

Definition words (s : string) : list string := FieldsFunc s (λ r, negb (IsLetter r)).

Definition Itoa (n : nat) : string := pretty n.
Definition sort_Strings (l : list string) : list string := merge_sort String.le l.

(** [wc.go] *)
Definition wc_Map (filename contents : string) : list KeyValue := (λ w, mkKV w "1") <$> words contents.
Definition wc_Reduce (key : string) (values : list string) : string := Itoa (length values).

(** [indexer.go]. [order] puts the keys of the map in the order in which the
    loop iterates over them. *)
Definition indexer_Map (order : gset string → list string) (document value : string) : list KeyValue :=
  let m := foldl (λ m w, {[ w ]} ∪ m) ∅ (words value) in
  (λ w, mkKV w document) <$> order m.
Definition indexer_Reduce (key : string) (values : list string) : string :=
  let values := sort_Strings values in
  Itoa (length values) +:+ " " +:+ join "," values.

(** [crash.go] and [nocrash.go], without [maybeCrash]. *)
Definition crash_Map (filename contents : string) : list KeyValue :=
  [mkKV "a" filename; mkKV "b" (Itoa (String.length filename));
   mkKV "c" (Itoa (String.length contents)); mkKV "d" "xyzzy"].
Definition crash_Reduce (key : string) (values : list string) : string :=
  join " " (sort_Strings values).

(** [nocrash.go], "same as crash.go". *)
Definition nocrash_Map : string → string → list KeyValue := crash_Map.
Definition nocrash_Reduce : string → list string → string := crash_Reduce.

(** [early_exit.go]; some reduce tasks sleep. *)
Definition early_Map (filename contents : string) : list KeyValue := [mkKV filename "1"].
Definition early_Reduce (key : string) (values : list string) : string := Itoa (length values).
End apps.

(** ** The output of a job *)

Section jobs.
Context `{KVJsonLaws valid, KVSortLaws}.
Context (IsLetter : Z → bool).
Context (inputs : list string) (nreduce : Z) (fs0 : FS).

Definition content (name : string) : string := default "" (fs0 !! name).

(** What the framework asks of a job, except what its [Reduce] must satisfy. *)
Definition inputs_ok (mapf : string → string → list KeyValue) : Prop :=
  0 < nreduce ∧ (∀ name, name ∈ inputs → is_Some (fs0 !! name)) ∧
  (∀ name m i, name ∈ inputs → name ≠ intermediateName m i ∧ name ≠ outputName i) ∧
  (∀ name, name ∈ inputs → Forall valid (mapf name (content name))).

(** The lines in the output files [outs] are one for each key, and give the
    result [g] of every key that satisfies [P]. *)
Definition output_is (fs : FS) (P : string → Prop) (g : string → string) : Prop :=
  ∃ outs : list (list (string * string)),
    glen outs = nreduce ∧
    (∀ i ls, outs.[i] = Some ls → fs !! outputName i = Some (format_lines ls)) ∧
    NoDup (concat outs).*1 ∧ ∀ k out, (k, out) ∈ concat outs ↔ P k ∧ out = g k.

Lemma NoDup_keys {B} (l : list (string * B)) (g : string → B) :
  NoDup l → (∀ k v, (k, v) ∈ l → v = g k) → NoDup l.*1.
Proof.
  induction 1 as [|[k v] l Hni Hnd IH]; intros Hg; [constructor|]. rewrite fmap_cons. constructor.
  - intros ([k' v'] & Heq & Hin)%list_elem_of_fmap. cbn in Heq. subst k'. apply Hni.
    rewrite (Hg k v) by left. rewrite <-(Hg k v') by (by right). done.
  - apply IH. intros. apply Hg. by right.
Qed.

Lemma job_output mapf reducef evs :
  inputs_ok mapf → order_free reducef → job_timely mapf reducef evs (mr_init inputs nreduce fs0) = true →
  returns (s ← mr_init inputs nreduce fs0; mr_run mapf reducef evs s) (λ s,
    Done s.(m_coord) = true →
    let all := concat (kvs mapf inputs fs0) in
    output_is s.(m_fs) (λ k, values_of k all ≠ []) (λ k, reducef k (values_of k all))).
Proof.
  intros (Hn & Hin & Hnames & Hv) Hof Ht.
  assert (job_ok (valid := valid) mapf reducef inputs nreduce fs0) as Hjob by (by split).
  eapply returns_mono; [by apply (job_run (valid := valid))|]. intros s Hinv Hdone all.
  exists (job_outs mapf reducef inputs nreduce fs0).
  destruct (done_outputs mapf reducef inputs nreduce fs0 s Hn Hinv Hdone) as [Hlen Hout].
  split; [done|]. split; [done|].
  pose proof (reduce_lines_sequential mapf reducef nreduce (kvs mapf inputs fs0) Hn Hof) as Hperm.
  destruct (reduce_all_spec reducef all Hof) as [Hnd Hiff]. fold all in Hperm.
  assert (∀ k out, (k, out) ∈ concat (job_outs mapf reducef inputs nreduce fs0) ↔
    values_of k all ≠ [] ∧ out = reducef k (values_of k all)) as Hlines.
  { intros k out. unfold job_outs. rewrite Hperm, Hiff. f_equiv. unfold values_of.
    rewrite list_elem_of_fmap. split.
    - intros (kv & -> & Hkv) Hnil%fmap_nil_inv. exact (filter_nil_not_elem_of _ _ _ Hnil eq_refl Hkv).
    - destruct (filter _ all) as [|kv l] eqn:Hf; [done|]. intros _. exists kv.
      assert (kv ∈ filter (λ kv, kv.(Key) = k) all) as [<- Hkv]%list_elem_of_filter
        by (rewrite Hf; left). done. }
  split; [|done]. apply (NoDup_keys _ (λ k, reducef k (values_of k all))); [|by intros k v [_ ?]%Hlines].
  unfold job_outs. by rewrite Hperm.
Qed.

(** ** Word count *)

(** All the words of the input files. *)
Definition all_words : list string := inputs ≫= λ name, words IsLetter (content name).
Definition occurrences (w : string) : nat := length (filter (λ w', w' = w) all_words).

Lemma wc_order_free : order_free wc_Reduce.
Proof. intros k vs vs' Hp. unfold wc_Reduce. by rewrite Hp. Qed.

Lemma wc_kvs : concat (kvs (wc_Map IsLetter) inputs fs0) = (λ w, mkKV w "1") <$> all_words.
Proof.
  unfold kvs, map_output, wc_Map, all_words. induction inputs as [|name l IH]; [done|].
  cbn [fmap list_fmap concat]. rewrite IH, bind_cons, fmap_app. done.
Qed.

Lemma wc_values w : length (values_of w (concat (kvs (wc_Map IsLetter) inputs fs0))) = occurrences w.
Proof.
  rewrite wc_kvs. unfold values_of, occurrences. rewrite length_fmap.
  induction all_words as [|w' l IH]; [done|]. cbn [fmap list_fmap]. rewrite !filter_cons. cbn [Key].
  case_decide; cbn [length]; by rewrite IH.
Qed.

(** C12. The word count, end to end. However the workers crash in the middle of
    their files and interleave, as long as the coordinator gives up no worker
    that is still alive, for inputs as [inputs_ok] asks, no step panics, and when the job is done the output
    files hold together exactly one line for every word of the input files, and
    none for anything else, with the number of times the word occurs in them.
    The words are the maximal runs of letters of the text. *)
Theorem wordcount_correct evs :
  inputs_ok (wc_Map IsLetter) → job_timely (wc_Map IsLetter) wc_Reduce evs (mr_init inputs nreduce fs0) = true →
  (∀ name, Fields (λ r, negb (IsLetter r)) (runes (content name)) (words IsLetter (content name))) ∧
  returns (s ← mr_init inputs nreduce fs0; mr_run (wc_Map IsLetter) wc_Reduce evs s) (λ s,
    Done s.(m_coord) = true →
    output_is s.(m_fs) (λ w, w ∈ all_words) (λ w, pretty (occurrences w))).
Proof.
  intros Hok Ht. split; [intros; by apply FieldsFunc_spec|].
  eapply returns_mono; [apply job_output; [done|apply wc_order_free|done]|].
  intros s Hout Hdone. destruct (Hout Hdone) as (outs & Hlen & Hfiles & Hnd & Hlines).
  exists outs. split; [done|]. split; [done|]. split; [done|]. intros w out. rewrite Hlines.
  unfold wc_Reduce, Itoa. rewrite wc_values. f_equiv.
  assert (values_of w (concat (kvs (wc_Map IsLetter) inputs fs0)) ≠ [] ↔ occurrences w ≠ 0%nat) as ->.
  { rewrite <-wc_values. by destruct (values_of _ _). }
  unfold occurrences. split.
  - intros Hne. destruct (filter _ all_words) as [|w' l] eqn:Hf; [done|].
    assert (w' ∈ filter (λ w', w' = w) all_words) as [-> ?]%list_elem_of_filter by (rewrite Hf; left). done.
  - intros Hin Hnil%nil_length_inv. exact (filter_nil_not_elem_of _ _ _ Hnil eq_refl Hin).
Qed.

(** ** The index *)

(** The input files that contain a word, in the order of the arguments. *)
Definition documents (w : string) : list string :=
  filter (λ name, w ∈ words IsLetter (content name)) inputs.

Lemma sort_Strings_perm l l' : l ≡ₚ l' → sort_Strings l = sort_Strings l'.
Proof.
  intros Hp. apply (StronglySorted_unique String.le); try apply StronglySorted_merge_sort; try apply _.
  unfold sort_Strings. by rewrite !merge_sort_Permutation.
Qed.

Lemma indexer_order_free : order_free indexer_Reduce.
Proof. intros k vs vs' Hp. unfold indexer_Reduce. by rewrite (sort_Strings_perm _ _ Hp). Qed.

Lemma word_set (ws : list string) : ∀ m : gset string,
  foldl (λ m w, {[ w ]} ∪ m) m ws = list_to_set ws ∪ m.
Proof.
  induction ws as [|w ws IH]; intros m; cbn [foldl list_to_set]; [set_solver|]. rewrite IH. set_solver.
Qed.

Lemma values_once w document l :
  NoDup l → values_of w ((λ w, mkKV w document) <$> l) = if decide (w ∈ l) then [document] else [].
Proof.
  induction 1 as [|w' l Hni Hnd IH]; [done|]. unfold values_of in *. cbn [fmap list_fmap].
  destruct (decide (w' = w)) as [->|Hne].
  - rewrite filter_cons_True by done. rewrite decide_True by left.
    by rewrite fmap_cons, IH, decide_False.
  - rewrite filter_cons_False by done. rewrite IH. destruct (decide (w ∈ l)) as [Hin|Hin].
    + by rewrite decide_True by (by right).
    + rewrite decide_False; [done|]. by intros [?|?]%elem_of_cons.
Qed.

Lemma indexer_values order w :
  (∀ m, order m ≡ₚ elements m) →
  values_of w (concat (kvs (indexer_Map IsLetter order) inputs fs0)) = documents w.
Proof.
  intros Horder. unfold kvs, documents. induction inputs as [|name l IH]; [done|].
  cbn [fmap list_fmap concat]. rewrite values_of_app, IH, filter_cons. clear IH.
  unfold map_output at 1, indexer_Map. fold (content name). rewrite word_set, union_empty_r_L.
  rewrite values_once by (rewrite Horder; apply NoDup_elements).
  assert (w ∈ order (list_to_set (words IsLetter (content name))) ↔ w ∈ words IsLetter (content name)) as Hin
    by (by rewrite Horder, elem_of_elements, elem_of_list_to_set).
  destruct (decide (w ∈ words IsLetter (content name))) as [Hw|Hw].
  - by rewrite decide_True by (by apply Hin).
  - by rewrite decide_False by (by rewrite Hin).
Qed.

(** The inverted index, end to end: if no live worker is given up, when the job is done the output files
    hold exactly one line for every word of the input files: in how many files
    it occurs, and which they are, sorted, whatever the order in which Go
    iterates over its maps. *)
Theorem indexer_correct order evs :
  (∀ m, order m ≡ₚ elements m) → inputs_ok (indexer_Map IsLetter order) →
  job_timely (indexer_Map IsLetter order) indexer_Reduce evs (mr_init inputs nreduce fs0) = true →
  returns (s ← mr_init inputs nreduce fs0; mr_run (indexer_Map IsLetter order) indexer_Reduce evs s) (λ s,
    Done s.(m_coord) = true →
    output_is s.(m_fs) (λ w, w ∈ all_words)
      (λ w, pretty (length (documents w)) +:+ " " +:+ join "," (sort_Strings (documents w)))).
Proof.
  intros Horder Hok Ht. eapply returns_mono; [apply job_output; [done|apply indexer_order_free|done]|].
  intros s Hout Hdone. destruct (Hout Hdone) as (outs & Hlen & Hfiles & Hnd & Hlines).
  exists outs. split; [done|]. split; [done|]. split; [done|]. intros w out. rewrite Hlines.
  unfold indexer_Reduce, Itoa. rewrite indexer_values by done.
  assert (length (sort_Strings (documents w)) = length (documents w)) as ->
    by (unfold sort_Strings; by rewrite merge_sort_Permutation).
  f_equiv. unfold documents, all_words. rewrite list_elem_of_bind. split.
  - intros Hne. destruct (filter _ inputs) as [|name l] eqn:Hf; [done|].
    assert (name ∈ filter (λ name, w ∈ words IsLetter (content name)) inputs)
      as [? ?]%list_elem_of_filter by (rewrite Hf; left). by exists name.
  - intros (name & Hw & Hin) Hnil. exact (filter_nil_not_elem_of _ _ _ Hnil Hw Hin).
Qed.

(** ** The test applications *)

Lemma crash_order_free : order_free crash_Reduce.
Proof. intros k vs vs' Hp. unfold crash_Reduce. by rewrite (sort_Strings_perm _ _ Hp). Qed.

Lemma early_order_free : order_free early_Reduce.
Proof. intros k vs vs' Hp. unfold early_Reduce. by rewrite Hp. Qed.

(** The values for each of the four keys. *)
Definition crash_column (k : string) : list string :=
  inputs ≫= λ name, if bool_decide (k = "a") then [name]
    else if bool_decide (k = "b") then [Itoa (String.length name)]
    else if bool_decide (k = "c") then [Itoa (String.length (content name))]
    else if bool_decide (k = "d") then ["xyzzy"] else [].

Lemma crash_values k : values_of k (concat (kvs crash_Map inputs fs0)) = crash_column k.
Proof.
  unfold kvs, crash_column. induction inputs as [|name l IH]; [done|].
  cbn [fmap list_fmap concat]. rewrite values_of_app, IH, bind_cons. f_equal.
  unfold map_output, crash_Map, values_of. fold (content name).
  destruct (decide (k = "a")) as [->|]; [done|]. destruct (decide (k = "b")) as [->|]; [done|].
  destruct (decide (k = "c")) as [->|]; [done|]. destruct (decide (k = "d")) as [->|]; [done|].
  rewrite !filter_cons_False by (cbn; congruence). by rewrite !bool_decide_false by done.
Qed.

(** The application that crashes, and dawdles for less than the timeout, has in
    spite of it the output that does not depend on the schedule. *)
Theorem crash_correct evs :
  inputs_ok crash_Map → job_timely crash_Map crash_Reduce evs (mr_init inputs nreduce fs0) = true →
  returns (s ← mr_init inputs nreduce fs0; mr_run crash_Map crash_Reduce evs s) (λ s,
    Done s.(m_coord) = true →
    output_is s.(m_fs) (λ k, crash_column k ≠ []) (λ k, join " " (sort_Strings (crash_column k)))).
Proof.
  intros Hok Ht. eapply returns_mono; [apply job_output; [done|apply crash_order_free|done]|].
  intros s Hout Hdone. destruct (Hout Hdone) as (outs & Hlen & Hfiles & Hnd & Hlines).
  exists outs. split; [done|]. split; [done|]. split; [done|]. intros k out. rewrite Hlines.
  by rewrite crash_values.
Qed.
End jobs.
