(* ===== verification/MrHarness.v ===== *)
(** * The MapReduce tests: [mr/util.go] and [mr/mr_test.go]

    A test runs the sequential program and a job on the same input files and
    compares their sorted outputs. The commands it starts are [mrsequential]
    and the coordinator and workers of [MrSystem.v]; [find], [sort] and [cmp]
    are not part of the repository and are parameters with their documented
    behaviour. The theorem: the tests pass, in every execution.

    File names are relative to the temporary directory, in which the commands
    run; the test itself runs in its parent [mr/], so that a path [p] of the
    test is the name [../p], and [tmp/n] the name [n]. *)

From S2P Require Import Prelude Names GoStrings Fnv MrCoordinator MrWorker MrSystem MrLive MrFinish MrApps.
From Stdlib Require Import Ascii.

(** ** Paths *)

Fixpoint strip_prefix (p s : string) : option string :=
  match p, s with
  | EmptyString, _ => Some s
  | String c p, String d s => if bool_decide (c = d) then strip_prefix p s else None
  | _, _ => None
  end.

Fixpoint no_slash (s : string) : bool :=
  match s with
  | EmptyString => true
  | String c s => negb (bool_decide (c = "/"%char)) && no_slash s
  end.

(** [filepath.Join] of paths that are already clean. *)
Definition Join (a b : string) : string := a +:+ "/" +:+ b.

Definition key_of (tmp path : string) : string :=
  match strip_prefix (tmp +:+ "/") path with
  | Some name => name
  | None => "../" +:+ path
  end.

(** The files of a directory. *)
Definition listing (tmp : string) (fs : FS) (dir : string) : list string :=
  omap (λ k, name ← strip_prefix (key_of tmp (dir +:+ "/")) k;
             if no_slash name then Some name else None) (elements (dom fs)).

(** The lines of a text; the last one need not be terminated. *)
Fixpoint lines_from (cur s : string) : list string :=
  match s with
  | EmptyString => if bool_decide (cur = "") then [] else [cur]
  | String c s =>
    if bool_decide (c = ascii_of_nat 10) then cur :: lines_from "" s else lines_from (cur +:+ String c "") s
  end.
Definition lines (s : string) : list string := lines_from "" s.

(** ** The commands *)

(** [fnmatch pattern name]; the output of [find dir -type f -name pattern] in
    a directory with these files; the output of [sort] on files with these
    contents; whether [cmp] finds two contents equal. *)
Class Shell := {
  fnmatch : string → string → bool;
  find_cmd : list string → string → string → string;
  sort_cmd : list string → string;
  cmp_cmd : string → string → bool;
}.

(** [find] prints the paths one per line in an order of its own; [sort] prints
    the lines of all files in the order [collate] of the locale, in which
    only equal lines are equivalent. *)
Class ShellLaws `{Shell} (collate : string → string → Prop) : Prop := {
  fnmatch_digit s : fnmatch "mr-out-[0-9]" s = true ↔ ∃ c, is_digit c = true ∧ s = "mr-out-" +:+ String c "";
  find_ok names dir pat : ∃ l, l ≡ₚ filter (λ name, fnmatch pat name = true) names ∧
    find_cmd names dir pat = unlines (Join dir <$> l);
  collate_antisymm : AntiSymm (=) collate;
  sort_ok contents : ∃ ls, sort_cmd contents = unlines ls ∧ ls ≡ₚ contents ≫= lines ∧
    StronglySorted collate ls;
  cmp_ok a b : cmp_cmd a b = true ↔ a = b;
}.

(** ** The harness *)

(** [mkOut]. *)
Definition mkOut (bs : list Z) : go string := s ← RandString 8 bs; Ret ("mr-tmp-" +:+ s).
Definition coordinatorSock (bs : list Z) : go string := s ← RandString 20 bs; Ret ("/tmp/5840-mr-" +:+ s).

Section harness.
Context `{KVJson, KVSort, Shell}.
Context (tmp : string).
Implicit Types (fs : FS) (files : list string) (evs : list MrEvent).

Definition findFiles (dir s : string) fs : list string :=
  let s1 := TrimSpace (find_cmd (listing tmp fs dir) dir s) in
  if bool_decide (s1 = "") then [] else Split s1 (ascii_of_nat 10).

(** [pre] is not used. *)
Definition findFilesPre (dir s pre : string) fs : list string := Join ".." <$> findFiles dir s fs.

Definition open_path fs (path : string) : option string := fs !! key_of tmp path.

(** [main] of [mrsequential.go] and of [mrcoordinator.go] exit with status 1
    when there is no input file, and the test with them. *)
Definition mrsequential_cmd mapf reducef files fs : go FS :=
  if glen files <? 1 then Fatal else mrsequential mapf reducef files fs.

Definition mkCorrectOutput mapf reducef files (out : string) fs : go FS :=
  fs ← mrsequential_cmd mapf reducef files fs;
  let fs := <[key_of tmp (Join tmp out) := ""]> fs in
  match open_path fs (Join tmp "mr-out-0") with
  | None => Fatal
  | Some content =>
    let fs := <[key_of tmp (Join tmp out) := sort_cmd [content]]> fs in
    Ret (delete (key_of tmp (Join tmp "mr-out-0")) fs)
  end.

Definition mergeOutput (out : string) fs : go FS :=
  let files := findFiles tmp "mr-out-[0-9]" fs in
  if glen files <? 1 then Fatal else
  let fs := <[key_of tmp (Join tmp out) := ""]> fs in
  match mapM (open_path fs) files with
  | None => Fatal
  | Some contents => Ret (<[key_of tmp (Join tmp out) := sort_cmd contents]> fs)
  end.

(** [cmp] runs in the temporary directory; a missing file is a difference. *)
Definition runCmp (f1 f2 : string) fs : bool :=
  match fs !! f1, fs !! f2 with
  | Some a, Some b => cmp_cmd a b
  | _, _ => false
  end.

(** [runMRchan]: the coordinator with ten reduce tasks and the workers, whose
    execution is [evs]; it returns once the coordinator is done. *)
Definition nReduce_main : Z := 10.
Definition start_job files fs : go MrState :=
  if glen files <? 1 then Fatal else mr_init files nReduce_main fs.
Definition runMR mapf reducef files evs fs : go (option FS) :=
  s ← start_job files fs;
  s ← mr_run mapf reducef evs s;
  Ret (if Done s.(m_coord) then Some s.(m_fs) else None).

(** The body of the tests that compare a job with the sequential program;
    [None] when the job has not finished within [evs]. *)
Definition compare_test mapf reducef mapf' reducef' (correct all : string) evs fs : go (option bool) :=
  let files := findFilesPre "../main" "pg*txt" ".." fs in
  fs ← mkCorrectOutput mapf reducef files correct fs;
  r ← runMR mapf' reducef' files evs fs;
  match r with
  | None => Ret None
  | Some fs => fs ← mergeOutput all fs; Ret (Some (runCmp all correct fs))
  end.

(** The job that a test starts. *)
Definition compare_job mapf reducef (correct : string) fs : go MrState :=
  let files := findFilesPre "../main" "pg*txt" ".." fs in
  fs ← mkCorrectOutput mapf reducef files correct fs;
  start_job files fs.

Definition TestWc IsLetter evs fs : go (option bool) :=
  compare_test (wc_Map IsLetter) wc_Reduce (wc_Map IsLetter) wc_Reduce
    "mr-wc-correct.txt" "mr-wc-all.txt" evs fs.

(** The sequential program and the workers iterate over maps in orders of
    their own. *)
Definition TestIndexer IsLetter order order' evs fs : go (option bool) :=
  compare_test (indexer_Map IsLetter order) indexer_Reduce (indexer_Map IsLetter order') indexer_Reduce
    "mr-indexer-correct.txt" "mr-indexer-all.txt" evs fs.

Definition TestCrashWorker evs fs : go (option bool) :=
  compare_test nocrash_Map nocrash_Reduce crash_Map crash_Reduce
    "mr-crash-correct.txt" "mr-crash-all.txt" evs fs.

(** The first process to exit, after [evs1], is the coordinator or a worker
    that was told that the job is done; the others run on. *)
Definition TestEarlyExit evs1 evs2 fs : go (option bool) :=
  let files := findFilesPre "../main" "pg*txt" ".." fs in
  s ← start_job files fs;
  s ← mr_run early_Map early_Reduce evs1 s;
  if Done s.(m_coord) then
    fs ← mergeOutput "mr-wc-initial.txt" s.(m_fs);
    s ← mr_run early_Map early_Reduce evs2 (mkMr s.(m_coord) fs s.(m_workers));
    fs ← mergeOutput "mr-wc-final.txt" s.(m_fs);
    Ret (Some (runCmp "mr-wc-initial.txt" "mr-wc-final.txt" fs))
  else Ret None.
End harness.

(** ** Paths, names and lines *)

Lemma strip_prefix_app p s : strip_prefix p (p +:+ s) = Some s.
Proof.
  induction p as [|c p IH]; [done|]. change (String c p +:+ s) with (String c (p +:+ s)).
  cbn [strip_prefix]. by rewrite bool_decide_true.
Qed.

Lemma strip_prefix_Some p s r : strip_prefix p s = Some r → s = p +:+ r.
Proof.
  revert s. induction p as [|c p IH]; intros s; cbn [strip_prefix]; [by intros [= ->]|].
  destruct s as [|d s]; [done|]. case_bool_decide as Hd; [|done]. intros ->%IH. by subst.
Qed.

Lemma key_of_tmp tmp name : key_of tmp (Join tmp name) = name.
Proof. unfold key_of, Join. by rewrite <-append_assoc, strip_prefix_app. Qed.

Lemma elem_of_listing tmp fs dir name :
  name ∈ listing tmp fs dir → is_Some (fs !! (key_of tmp (dir +:+ "/") +:+ name)).
Proof.
  unfold listing. rewrite list_elem_of_omap. intros (k & Hk & Hn).
  destruct (strip_prefix _ k) as [n|] eqn:Hs; [|done]. cbn in Hn. destruct (no_slash n); [|done].
  injection Hn as ->. apply strip_prefix_Some in Hs as <-. by apply elem_of_dom, elem_of_elements.
Qed.

(** The files in the temporary directory itself. *)
Lemma listing_tmp tmp fs :
  listing tmp fs tmp = filter (λ k, no_slash k = true) (elements (dom fs)).
Proof.
  unfold listing. assert (key_of tmp (tmp +:+ "/") = "") as ->.
  { replace (tmp +:+ "/") with (Join tmp "") by done. apply key_of_tmp. }
  cbn [strip_prefix]. induction (elements (dom fs)) as [|k l IH]; [done|]. rewrite filter_cons, <-IH. cbn.
  by destruct (no_slash k).
Qed.

Lemma lines_terminated x y cur : lines_from cur (x +:+ newline +:+ y) = lines_from cur (x +:+ newline) ++ lines y.
Proof.
  revert cur. induction x as [|c x IH]; intros cur; [done|].
  change (String c x +:+ ?s) with (String c (x +:+ s)). cbn [lines_from].
  case_bool_decide; rewrite IH; done.
Qed.

Lemma lines_format ls : lines (format_lines ls) = ls ≫= λ l, lines (format_line l).
Proof.
  induction ls as [|l ls IH]; [done|]. rewrite bind_cons, <-IH. cbn [format_lines foldr].
  unfold format_line at 1 3. rewrite !append_assoc, <-!(append_assoc " "), <-!(append_assoc l.1).
  apply lines_terminated.
Qed.

Lemma outputName_digit i : 0 ≤ i < nReduce_main → ∃ c, is_digit c = true ∧ pretty i = String c "".
Proof.
  unfold nReduce_main. intros Hi.
  assert (i = 0 ∨ i = 1 ∨ i = 2 ∨ i = 3 ∨ i = 4 ∨ i = 5 ∨ i = 6 ∨ i = 7 ∨ i = 8 ∨ i = 9) as Hc by lia.
  destruct_or! Hc; subst; eexists; (split; [|reflexivity]); reflexivity.
Qed.

Lemma digit_cases (P : ascii → Prop) :
  P "0"%char → P "1"%char → P "2"%char → P "3"%char → P "4"%char → P "5"%char → P "6"%char →
  P "7"%char → P "8"%char → P "9"%char → ∀ c, is_digit c = true → P c.
Proof.
  intros ?????????? c. unfold is_digit. rewrite bool_decide_eq_true, !elem_of_cons, elem_of_nil.
  intros Hc. destruct_or! Hc; by subst.
Qed.

Lemma digit_outputName c : is_digit c = true → ∃ i, 0 ≤ i < nReduce_main ∧ String c "" = pretty i.
Proof.
  revert c. unfold nReduce_main. apply digit_cases; [exists 0|exists 1|exists 2|exists 3|exists 4|exists 5|
    exists 6|exists 7|exists 8|exists 9]; (split; [lia|reflexivity]).
Qed.

(** ** The job's files *)

(** The names of the files a job writes. *)
Definition job_name (nreduce : Z) (name : string) : Prop :=
  (∃ m i, 0 ≤ m ∧ name = intermediateName m i) ∨ (∃ i, 0 ≤ i < nreduce ∧ name = outputName i).

Section frame.
Context `{KVJsonLaws valid, KVSortLaws}.
Context (mapf : string → string → list KeyValue) (reducef : string → list string → string).
Context (inputs : list string) (nreduce : Z) (fs0 : FS).
Context (Hjob : job_ok (valid := valid) mapf reducef inputs nreduce fs0).

Definition unchanged (fs fs' : FS) : Prop := ∀ name, ¬ job_name nreduce name → fs' !! name = fs !! name.

Notation inv := (mr_inv mapf reducef inputs nreduce fs0).

Lemma owned_job_name c t name : held inputs nreduce c t → owned t name → job_name nreduce name.
Proof.
  intros Hh Hown. pose proof (held_id _ _ _ _ Hh). destruct Hh as (_ & _ & Hty). unfold owned, job_name in *.
  destruct (t_Type t); [| |done..].
  - destruct Hown as [i ->]. left. by exists t.(t_Id), i.
  - right. exists t.(t_Id). by split; [apply Hty|].
Qed.

Lemma mr_step_frame ev s :
  inv s → too_early ev s = false →
  returns (mr_step mapf reducef ev s) (λ s', inv s' ∧ unchanged s.(m_fs) s'.(m_fs)).
Proof.
  intros Hinv Ht. destruct (mr_step_inv mapf reducef inputs nreduce fs0 ev s Hjob Hinv Ht) as (s' & Hs & Hinv').
  exists s'. split; [done|]. split; [done|]. destruct ev as [w now|w n|w|w|now]; simpl in Hs.
  - destruct (m_workers s !! w); [by injection Hs as <-|].
    destruct (GetTask now (m_coord s)) as [[c t]| |]; [|done..]. by injection Hs as <-.
  - destruct (m_workers s !! w) as [ws|] eqn:Hw; [|by injection Hs as <-].
    destruct (execute_step mapf reducef inputs nreduce fs0 s w ws n Hjob Hinv Hw) as (r & E & _ & _ & Hsame).
    rewrite E in Hs. injection Hs as <-. intros name Hname. apply Hsame. intros Hown. apply Hname.
    eapply owned_job_name; [by eapply (mi_held _ _ _ _ _ _ Hinv)|done].
  - destruct (m_workers s !! w) as [ws|]; [|by injection Hs as <-].
    destruct ws; try by injection Hs as <-. destruct (ReportTask _ _) as [c| |]; [|done..]. by injection Hs as <-.
  - by injection Hs as <-.
  - by injection Hs as <-.
Qed.

(** [Done] stays. *)
Lemma mr_step_done ev s s' :
  inv s → mr_step mapf reducef ev s = Ret s' → Done s.(m_coord) = true → Done s'.(m_coord) = true.
Proof.
  intros Hinv Hs Hd. pose proof (mi_coord _ _ _ _ _ _ Hinv) as Hc.
  destruct ev as [w now|w n|w|w|now]; simpl in Hs.
  - destruct (m_workers s !! w); [by injection Hs as <-|].
    destruct (GetTask_spec now _ Hc) as ([c t] & Hg & _ & _ & [Ht _] & _). rewrite Hg in Hs.
    injection Hs as <-. cbn in *. unfold Done in *. destruct (t_Type t); destruct_and?; congruence.
  - destruct (m_workers s !! w) as [ws|]; [|by injection Hs as <-].
    destruct (execute _ _ _ _ _); [|done..]. by injection Hs as <-.
  - destruct (m_workers s !! w) as [ws|]; [|by injection Hs as <-].
    destruct ws; try by injection Hs as <-. destruct (ReportTask _ _) as [c| |] eqn:Ha; [|done..]. injection Hs as <-.
    cbn. unfold ReportTask in Ha. revert Ha. repeat case_if; intros Ha; go_inv Ha; by subst c.
  - by injection Hs as <-.
  - injection Hs as <-. cbn. unfold checkTimeout. by destruct (phase _).
Qed.

Lemma mr_run_frame evs : ∀ s, inv s → timely mapf reducef evs s = true →
  returns (mr_run mapf reducef evs s) (λ s', inv s' ∧ unchanged s.(m_fs) s'.(m_fs) ∧
    (Done s.(m_coord) = true → Done s'.(m_coord) = true)).
Proof.
  unfold mr_run. induction evs as [|ev evs IH]; intros s Hinv Ht; cbn [foldM timely] in *; [by apply returns_Ret|].
  apply andb_true_iff in Ht as [Hearly%negb_true_iff Ht].
  destruct (mr_step_frame ev s Hinv Hearly) as (s1 & E & Hinv1 & Hun). rewrite E in *.
  eapply returns_mono; [by apply IH|]. intros s' (Hinv' & Hun' & Hd). split; [done|]. split.
  - intros name Hname. by rewrite Hun', Hun.
  - intros Hdone. by apply Hd, (mr_step_done ev s).
Qed.

(** When the job is done, no worker that lives holds a task, and none is given
    up. *)
Lemma done_no_workers s : inv s → Done s.(m_coord) = true → s.(m_workers) = ∅.
Proof.
  intros Hinv Hd. destruct (co_done _ (mi_coord _ _ _ _ _ _ Hinv) Hd) as [Hp Hr].
  pose proof (co_phase _ (mi_coord _ _ _ _ _ _ Hinv) Hp) as Hm.
  apply map_empty. intros w. destruct (m_workers s !! w) as [ws|] eqn:Hw; [|done]. exfalso.
  destruct (mi_held _ _ _ _ _ _ Hinv w ws Hw) as (_ & _ & Hty). destruct (t_Type (task_of ws)); [| |done..].
  - by eapply running_not_completed; [apply Hty|].
  - by eapply running_not_completed; [apply Hty|].
Qed.

Lemma done_timely evs : ∀ s, inv s → Done s.(m_coord) = true → timely mapf reducef evs s = true.
Proof.
  induction evs as [|ev evs IH]; intros s Hinv Hd; cbn [timely]; [done|].
  assert (too_early ev s = false) as Ht.
  { destruct ev; try done. unfold too_early. by rewrite (done_no_workers s Hinv Hd), map_to_list_empty. }
  rewrite Ht. destruct (mr_step_inv mapf reducef inputs nreduce fs0 ev s Hjob Hinv Ht) as (s' & E & Hinv').
  rewrite E. apply IH; [done|]. by apply (mr_step_done ev s).
Qed.

(** A file that is not the job's can appear. *)
Lemma mr_inv_other_file s name content :
  ¬ job_name nreduce name → name ∉ inputs → inv s →
  inv (mkMr s.(m_coord) (<[name := content]> s.(m_fs)) s.(m_workers)).
Proof.
  intros Hname Hni [Hc Hf Hn Hin Hm Hr Hh Ha Hp].
  assert (∀ k, job_name nreduce k → (<[name:=content]> s.(m_fs) : FS) !! k = s.(m_fs) !! k) as Hsame.
  { intros k Hk. apply lookup_insert_ne. by intros ->. }
  constructor; cbn [m_coord m_fs m_workers]; try done.
  - intros n Hn'. rewrite lookup_insert_ne; [auto|]. by intros ->.
  - intros m t Hi Hst i kva Hb Hk. eapply holds_same; [|by eapply Hm]. apply Hsame. left.
    eexists _, _. split; [|done]. apply zlookup_lt_Some in Hk. lia.
  - intros i t Hi Hst. unfold reduced. rewrite Hsame; [by eapply Hr|]. right. exists i. split; [|done].
    apply zlookup_lt_Some in Hi. rewrite (co_reduce _ Hc), Hn in Hi. done.
  - intros w ws Hw. eapply progress_same; [by eapply Hp|by eapply held_id, Hh|].
    intros k [Hown|(_ & m & i & Hmi & ->)]; apply Hsame; [by eapply owned_job_name; [eapply Hh|]|].
    left. by exists m, i.
Qed.
End frame.

(** ** The commands on the job's files *)

Section tests.
Context `{KVJsonLaws valid, KVSortLaws, ShellLaws collate}.
Context (tmp tmp' : string) (Htmp : tmp = "mr-tmp-" +:+ tmp') (Hplain : plain tmp = true).
Implicit Types (fs : FS) (files : list string) (lns : list (string * string)).

Lemma findFiles_spec dir pat fs :
  plain dir = true →
  (∀ name, name ∈ listing tmp fs dir → fnmatch pat name = true → plain name = true) →
  ∃ l, l ≡ₚ filter (λ name, fnmatch pat name = true) (listing tmp fs dir) ∧
    findFiles tmp dir pat fs = Join dir <$> l.
Proof.
  intros Hdir Hnames. destruct (find_ok (listing tmp fs dir) dir pat) as (l & Hl & Hout).
  exists l. split; [done|]. unfold findFiles. rewrite Hout.
  destruct (decide (l = [])) as [->|Hne]; [done|].
  destruct (split_unlines (Join dir <$> l)) as [Hs1 Hs2].
  - by intros ?%fmap_nil_inv.
  - apply Forall_fmap, Forall_forall. intros name Hin. cbn. unfold Join. split; [|by destruct dir].
    rewrite Hl in Hin. apply list_elem_of_filter in Hin as [Hm Hin].
    rewrite !plain_app, Hdir, (Hnames name) by done. done.
  - by rewrite bool_decide_false.
Qed.

Lemma outputName_no_slash i : 0 ≤ i < nReduce_main → no_slash (outputName i) = true.
Proof.
  intros (c & Hc & Hp)%outputName_digit. unfold outputName. rewrite Hp. clear Hp. revert c Hc.
  apply digit_cases; done.
Qed.

Lemma outputName_plain i : 0 ≤ i < nReduce_main → plain (outputName i) = true.
Proof.
  intros (c & Hc & Hp)%outputName_digit. unfold outputName. rewrite Hp. clear Hp. revert c Hc.
  apply digit_cases; done.
Qed.

Lemma matches_outputName name :
  fnmatch "mr-out-[0-9]" name = true ↔ ∃ i, 0 ≤ i < nReduce_main ∧ name = outputName i.
Proof.
  rewrite fnmatch_digit. unfold outputName. split.
  - intros (c & (i & Hi & ->)%digit_outputName & ->). by exists i.
  - intros (i & (c & Hc & ->)%outputName_digit & ->). by exists c.
Qed.

(** With ten reduce tasks the pattern [mr-out-[0-9]] finds all the outputs. *)
Lemma output_files fs :
  (∀ i, 0 ≤ i < nReduce_main → is_Some (fs !! outputName i)) →
  ∃ l, l ≡ₚ outputName <$> range nReduce_main ∧
    findFiles tmp tmp "mr-out-[0-9]" fs = Join tmp <$> l.
Proof.
  intros Hfs. destruct (findFiles_spec tmp "mr-out-[0-9]" fs) as (l & Hl & Hfind); [done|..].
  { intros name _ (i & Hi & ->)%matches_outputName. by apply outputName_plain. }
  exists l. split; [|done]. rewrite Hl, listing_tmp. apply NoDup_Permutation.
  - do 2 apply NoDup_filter. apply NoDup_elements.
  - apply NoDup_fmap; [|apply NoDup_range]. intros i j. apply outputName_inj.
  - intros name. rewrite !list_elem_of_filter, matches_outputName, elem_of_elements, elem_of_dom,
      list_elem_of_fmap. split.
    + intros [(i & Hi & ->) _]. exists i. split; [done|]. by apply elem_of_range.
    + intros (i & -> & Hi%elem_of_range). split; [by exists i|]. split; [by apply outputName_no_slash|auto].
Qed.

(** The sorted lines of an output. *)
Definition merged (content : string) lns : Prop :=
  ∃ ls, content = unlines ls ∧ ls ≡ₚ (lns ≫= λ l, lines (format_line l)) ∧ StronglySorted collate ls.

Lemma merged_unique c c' lns lns' : merged c lns → merged c' lns' → lns ≡ₚ lns' → c = c'.
Proof.
  intros (ls & -> & Hp & Hs) (ls' & -> & Hp' & Hs') Hlns. f_equal.
  pose proof collate_antisymm. apply (StronglySorted_unique collate); [done..|].
  by rewrite Hp, Hp', Hlns.
Qed.

Lemma merged_sort contents (outs : list (list (string * string))) :
  contents ≡ₚ format_lines <$> outs → merged (sort_cmd contents) (concat outs).
Proof.
  intros Hc. destruct (sort_ok contents) as (ls & -> & Hp & Hs). exists ls. split; [done|]. split; [|done].
  rewrite Hp, Hc. clear. induction outs as [|ls' outs IH]; [done|].
  cbn [fmap list_fmap concat]. by rewrite bind_cons, bind_app, lines_format, IH.
Qed.

Lemma glen_range_lookup {A} (l : list A) d : (λ i, default d l.[i]) <$> range (glen l) = l.
Proof.
  apply list_eq_zlookup. intros i Hi. unfold zlookup at 1. case_if; [lia|]. rewrite list_lookup_fmap.
  unfold range. destruct (decide (i < glen l)).
  - rewrite lookup_seqZ_lt by lia. cbn. replace (0 + Z.of_nat (Z.to_nat i)) with i by lia.
    destruct (zlookup_is_Some l i) as [x ->]; [lia|]. done.
  - rewrite lookup_seqZ_ge by lia. symmetry. apply zlookup_None. lia.
Qed.

Lemma mapM_open fs (l : list string) (g : string → string) :
  (∀ name, name ∈ l → fs !! name = Some (g name)) → mapM (open_path tmp fs) (Join tmp <$> l) = Some (g <$> l).
Proof.
  intros Hl. apply mapM_Some_2, Forall2_fmap, Forall2_same_length_lookup. split; [done|].
  intros i x y Hx Hy. rewrite Hx in Hy. injection Hy as <-. unfold open_path. rewrite key_of_tmp.
  apply Hl. by eapply list_elem_of_lookup_2.
Qed.

Lemma mergeOutput_spec out fs (outs : list (list (string * string))) :
  (∀ i, out ≠ outputName i) → glen outs = nReduce_main →
  (∀ i ls, outs.[i] = Some ls → fs !! outputName i = Some (format_lines ls)) →
  returns (mergeOutput tmp out fs) (λ fs', (∀ name, name ≠ out → fs' !! name = fs !! name) ∧
    ∃ content, fs' !! out = Some content ∧ merged content (concat outs)).
Proof.
  intros Hout Hlen Houts. unfold mergeOutput. rewrite key_of_tmp.
  assert (∀ i, 0 ≤ i < nReduce_main →
    (<[out:=""]> fs : FS) !! outputName i = Some (format_lines (default [] outs.[i]))) as Hfs.
  { intros i Hi. rewrite lookup_insert_ne by apply Hout. rewrite <-Hlen in Hi.
    destruct (zlookup_is_Some outs i Hi) as [ls Hls]. rewrite Hls. by apply Houts. }
  destruct (output_files fs) as (l & Hl & ->).
  { intros i Hi. specialize (Hfs i Hi). rewrite lookup_insert_ne in Hfs by apply Hout. by eexists. }
  assert (glen (Join tmp <$> l) = nReduce_main) as Hn.
  { unfold glen. rewrite length_fmap, Hl, length_fmap. apply glen_range. done. }
  rewrite Hn. cbn [Z.ltb]. change (nReduce_main <? 1) with false. cbv iota.
  rewrite (mapM_open _ l (λ name, default "" ((<[out:=""]> fs : FS) !! name))).
  2: { intros name Hin. rewrite Hl in Hin. apply list_elem_of_fmap in Hin as (i & -> & Hi%elem_of_range).
       by rewrite Hfs. }
  apply returns_Ret. split; [intros; by rewrite !lookup_insert_ne|].
  eexists. split; [apply lookup_insert_eq|]. apply merged_sort.
  assert (format_lines <$> outs = (format_lines ∘ λ i, default [] outs.[i]) <$> range nReduce_main) as ->.
  { rewrite list_fmap_compose. f_equal. by rewrite <-Hlen, glen_range_lookup. }
  rewrite Hl, <-list_fmap_compose. erewrite list_fmap_ext; [done|]. intros k i Hk. cbn.
  rewrite Hfs; [done|]. apply elem_of_range. by eapply list_elem_of_lookup_2.
Qed.

Lemma mkCorrectOutput_spec mapf reducef files out fs :
  files ≠ [] → (∀ name, name ∈ files → is_Some (fs !! name)) → out ≠ outputName 0 →
  returns (mkCorrectOutput tmp mapf reducef files out fs) (λ fs',
    (∀ name, name ≠ out → name ≠ outputName 0 → fs' !! name = fs !! name) ∧
    ∃ content, fs' !! out = Some content ∧ merged content (seq_lines mapf reducef files fs)).
Proof.
  intros Hne Hin Hout. unfold mkCorrectOutput, mrsequential_cmd, mrsequential, open_path.
  rewrite !key_of_tmp. change "mr-out-0" with (outputName 0).
  destruct (Z.ltb_spec (glen files) 1) as [Hlt|_].
  { destruct files; [done|]. rewrite glen_cons in Hlt. pose proof (glen_nonneg files). lia. }
  rewrite read_inputs_spec by done. cbn [mbind go_bind].
  rewrite lookup_insert_ne by done. rewrite lookup_insert_eq. apply returns_Ret. split.
  - intros name H1' H2'. by rewrite lookup_delete_ne, !lookup_insert_ne.
  - eexists. rewrite lookup_delete_ne, lookup_insert_eq by done. split; [done|].
    fold (seq_lines mapf reducef files fs).
    pose proof (merged_sort [format_lines (seq_lines mapf reducef files fs)] [seq_lines mapf reducef files fs])
      as Hm. cbn [concat] in Hm. rewrite app_nil_r in Hm. by apply Hm.
Qed.

(** The input files in [main/]: at least one, and names that [find] prints
    without ambiguity. *)
Definition main_ok fs : Prop :=
  (∀ n, n ∈ listing tmp fs "../main" → fnmatch "pg*txt" n = true → plain n = true) ∧
  ∃ n, n ∈ listing tmp fs "../main" ∧ fnmatch "pg*txt" n = true.

Definition test_files fs : list string := findFilesPre tmp "../main" "pg*txt" ".." fs.

Lemma key_of_main : key_of tmp "../main/" = "../../main/".
Proof. by subst tmp. Qed.

Lemma test_files_spec fs :
  main_ok fs →
  test_files fs ≠ [] ∧
  ∀ name, name ∈ test_files fs → is_Some (fs !! name) ∧ ∃ n, name = "../../main/" +:+ n.
Proof.
  intros (Hnames & n0 & Hn0 & Hm0). unfold test_files, findFilesPre.
  destruct (findFiles_spec "../main" "pg*txt" fs) as (l & Hl & ->); [done..|]. split.
  - assert (n0 ∈ l) as Hin by (rewrite Hl; by apply list_elem_of_filter). by destruct l; [apply elem_of_nil in Hin|].
  - intros name (path & -> & (n & -> & Hn)%list_elem_of_fmap)%list_elem_of_fmap.
    rewrite Hl in Hn. apply list_elem_of_filter in Hn as [_ Hn]. apply elem_of_listing in Hn.
    change ("../main" +:+ "/") with "../main/" in Hn. rewrite key_of_main in Hn. split; [exact Hn|].
    by exists n.
Qed.

(** A file that the tests write: neither an input nor the job's. *)
Definition own_name (name : string) : Prop :=
  ∃ c s, name = "mr-" +:+ String c s ∧ is_digit c = false ∧ c ≠ "o"%char ∧ c ≠ "-"%char.

Lemma own_not_output name i : own_name name → name ≠ outputName i.
Proof. intros (c & s & -> & _ & Hc & _) Heq. apply (append_inj "mr-") in Heq. by injection Heq. Qed.

Lemma own_not_job name nreduce : own_name name → ¬ job_name nreduce name.
Proof.
  intros Hown [(m & i & Hm & ->)|(i & _ & ->)]; [|by eapply own_not_output].
  destruct Hown as (c & s & Heq & Hc & _ & Hd). apply (append_inj "mr-") in Heq.
  pose proof (pretty_digits m Hm) as Hp. destruct (pretty m) as [|d p]; injection Heq as <- _; [done|].
  cbn in Hp. by rewrite Hc in Hp.
Qed.

Lemma input_not_job n nreduce : ¬ job_name nreduce ("../../main/" +:+ n).
Proof. by intros [(m & i & _ & Heq)|(i & _ & Heq)]. Qed.

Lemma input_not_own n : ¬ own_name ("../../main/" +:+ n).
Proof. by intros (c & s & Heq & _). Qed.

(** What the input files must be for [Map]: its output fits in JSON. *)
Definition map_valid (mapf : string → string → list KeyValue) fs : Prop :=
  ∀ n content, fs !! ("../../main/" +:+ n) = Some content → Forall valid (mapf ("../../main/" +:+ n) content).

Lemma test_job_ok mapf reducef fs fs1 :
  main_ok fs → map_valid mapf fs → order_free reducef →
  (∀ n, fs1 !! ("../../main/" +:+ n) = fs !! ("../../main/" +:+ n)) →
  job_ok (valid := valid) mapf reducef (test_files fs) nReduce_main fs1.
Proof.
  intros Hmain Hv Hof Hsame. destruct (test_files_spec fs Hmain) as [_ Hin]. split; [done|..|done].
  - intros name (Hs & n & ->)%Hin. by rewrite Hsame.
  - intros name m i (_ & n & ->)%Hin. done.
  - intros name ([content Hs] & n & ->)%Hin. rewrite Hsame, Hs. by apply Hv.
Qed.

Lemma start_job_spec mapf reducef files fs :
  job_ok (valid := valid) mapf reducef files nReduce_main fs → files ≠ [] →
  ∃ s, start_job files fs = Ret s ∧ mr_inv mapf reducef files nReduce_main fs s ∧ s.(m_fs) = fs.
Proof.
  intros Hjob Hne. unfold start_job. destruct (Z.ltb_spec (glen files) 1) as [Hlt|_].
  { destruct files; [done|]. rewrite glen_cons in Hlt. pose proof (glen_nonneg files). lia. }
  destruct (mr_init_inv mapf reducef files nReduce_main fs Hjob) as (s & Hs & Hinv).
  exists s. split; [done|]. split; [done|]. unfold mr_init in Hs. go_inv Hs. by subst s.
Qed.

Lemma mergeOutput_done mapf reducef files fs s out :
  mr_inv mapf reducef files nReduce_main fs s → Done s.(m_coord) = true → own_name out →
  returns (mergeOutput tmp out s.(m_fs)) (λ fs',
    (∀ name, name ≠ out → fs' !! name = s.(m_fs) !! name) ∧
    ∃ content, fs' !! out = Some content ∧
      merged content (concat (job_outs mapf reducef files nReduce_main fs))).
Proof.
  intros Hinv Hdone Hown.
  destruct (done_outputs mapf reducef files nReduce_main fs s) as [Hlen Houts]; [done..|].
  apply mergeOutput_spec; [|done|done]. intros i. by apply own_not_output.
Qed.

(** The outputs of a job and of the sequential program on the same input. *)
Lemma reduce_all_perm reducef kva kva' :
  order_free reducef → kva ≡ₚ kva' →
  reduce_all reducef (sort_by_key kva) ≡ₚ reduce_all reducef (sort_by_key kva').
Proof.
  intros Hof Hp. destruct (reduce_all_spec reducef kva Hof) as [Hnd Hiff].
  destruct (reduce_all_spec reducef kva' Hof) as [Hnd' Hiff'].
  apply NoDup_Permutation; [done..|]. intros [k out]. rewrite Hiff, Hiff'.
  rewrite (Hof k _ _ (values_of_perm k _ _ Hp)). by assert (k ∈ Key <$> kva ↔ k ∈ Key <$> kva') as -> by by rewrite Hp.
Qed.

Lemma kvs_perm mapf mapf' files fs fs1 :
  (∀ name content, mapf name content ≡ₚ mapf' name content) →
  (∀ name, name ∈ files → fs1 !! name = fs !! name) →
  concat (kvs mapf files fs) ≡ₚ concat (kvs mapf' files fs1).
Proof.
  intros Hm Hfs. unfold kvs. induction files as [|name l IH]; [done|]. cbn [fmap list_fmap concat].
  unfold map_output at 1 3. rewrite Hm, (Hfs name) by left. f_equiv. apply IH. intros. apply Hfs. by right.
Qed.

(** ** The tests pass *)

(** In executions that give up no live worker the test never fails, and each of
    them can be continued to one in which the test finishes. *)
Definition passes mapf reducef (job : go MrState) (test : list MrEvent → go (option bool)) : Prop :=
  ∀ evs, job_timely mapf reducef evs job = true →
    (test evs = Ret None ∨ test evs = Ret (Some true)) ∧
    ∃ evs', job_timely mapf reducef (evs ++ evs') job = true ∧ test (evs ++ evs') = Ret (Some true).

Lemma compare_test_run mapf mapf' reducef correct all fs :
  main_ok fs → map_valid mapf' fs → order_free reducef →
  (∀ name content, mapf name content ≡ₚ mapf' name content) →
  own_name correct → own_name all → correct ≠ all →
  ∃ fs1 s0, mr_inv mapf' reducef (test_files fs) nReduce_main fs1 s0 ∧
    job_ok (valid := valid) mapf' reducef (test_files fs) nReduce_main fs1 ∧
    compare_job tmp mapf reducef correct fs = Ret s0 ∧
    ∀ evs, timely mapf' reducef evs s0 = true → ∃ s, mr_run mapf' reducef evs s0 = Ret s ∧
      mr_inv mapf' reducef (test_files fs) nReduce_main fs1 s ∧
      compare_test tmp mapf reducef mapf' reducef correct all evs fs =
        Ret (if Done s.(m_coord) then Some true else None).
Proof.
  intros Hmain Hv Hof Hmaps Hc Ha Hne. destruct (test_files_spec fs Hmain) as [Hnil Hin].
  destruct (mkCorrectOutput_spec mapf reducef (test_files fs) correct fs) as (fs1 & Hmk & Hsame & c & Hcorr & Hcm);
    [done|intros name Hn; by apply Hin|by apply own_not_output|].
  assert (∀ n, fs1 !! ("../../main/" +:+ n) = fs !! ("../../main/" +:+ n)) as Hins.
  { intros n. apply Hsame; [|done]. intros Heq. apply (input_not_own n). by rewrite Heq. }
  pose proof (test_job_ok mapf' reducef fs fs1 Hmain Hv Hof Hins) as Hjob.
  destruct (start_job_spec mapf' reducef (test_files fs) fs1 Hjob Hnil) as (s0 & Hs0 & Hinv0 & Hfs0).
  exists fs1, s0. split; [done|]. split; [done|].
  split; [unfold compare_job; fold (test_files fs); by rewrite Hmk|]. intros evs Ht.
  destruct (mr_run_frame mapf' reducef (test_files fs) nReduce_main fs1 Hjob evs s0 Hinv0 Ht)
    as (s & Hs & Hinv & Hun & _). exists s. split; [done|]. split; [done|].
  unfold compare_test. fold (test_files fs). rewrite Hmk. cbn [mbind go_bind]. unfold runMR.
  rewrite Hs0. cbn [mbind go_bind]. rewrite Hs. cbn [mbind go_bind].
  destruct (Done (m_coord s)) eqn:Hdone; [|done].
  destruct (mergeOutput_done mapf' reducef (test_files fs) fs1 s all Hinv Hdone Ha) as (fs2 & Hm & Hsame2 & c' & Hall & Hcm').
  rewrite Hm. cbn [mbind go_bind]. do 2 f_equal. unfold runCmp.
  rewrite Hall, Hsame2, (Hun correct), Hfs0, Hcorr by (done || by apply own_not_job).
  apply cmp_ok. apply (merged_unique _ _ _ _ Hcm' Hcm). unfold job_outs, seq_lines.
  rewrite reduce_lines_sequential by done. apply reduce_all_perm; [done|]. symmetry.
  apply kvs_perm; [done|]. intros name (_ & n & ->)%Hin. apply Hins.
Qed.

Lemma compare_test_passes mapf mapf' reducef correct all fs :
  main_ok fs → map_valid mapf' fs → order_free reducef →
  (∀ name content, mapf name content ≡ₚ mapf' name content) →
  own_name correct → own_name all → correct ≠ all →
  passes mapf' reducef (compare_job tmp mapf reducef correct fs)
    (λ evs, compare_test tmp mapf reducef mapf' reducef correct all evs fs).
Proof.
  intros Hmain Hv Hof Hmaps Hc Ha Hne evs Ht.
  destruct (compare_test_run mapf mapf' reducef correct all fs) as (fs1 & s0 & Hinv0 & Hjob & Hs0 & Hrun); [done..|].
  rewrite Hs0 in *. cbn [job_timely] in *.
  destruct (Hrun evs Ht) as (s & Hs & Hinv & ->). split; [destruct (Done _); auto|].
  destruct (job_finishes mapf' reducef (test_files fs) nReduce_main fs1 Hjob s Hinv) as (s' & (evs' & Ht' & Hs' & _) & Hd).
  exists evs'. assert (timely mapf' reducef (evs ++ evs') s0 = true) as Ht2 by (by rewrite (timely_app _ _ _ _ _ _ Hs), Ht).
  split; [done|]. destruct (Hrun (evs ++ evs') Ht2) as (s2 & Hs2 & _ & ->).
  rewrite mr_run_app, Hs in Hs2. cbn [mbind go_bind] in Hs2. rewrite Hs' in Hs2. injection Hs2 as <-.
  by rewrite Hd.
Qed.

(** Whatever the processes that outlive the first one do, the outputs it left
    behind do not change. *)
Lemma early_exit_run fs :
  main_ok fs → map_valid early_Map fs →
  ∃ s0, mr_inv early_Map early_Reduce (test_files fs) nReduce_main fs s0 ∧
    job_ok (valid := valid) early_Map early_Reduce (test_files fs) nReduce_main fs ∧
    start_job (test_files fs) fs = Ret s0 ∧
    ∀ evs1, timely early_Map early_Reduce evs1 s0 = true → ∃ s, mr_run early_Map early_Reduce evs1 s0 = Ret s ∧
      mr_inv early_Map early_Reduce (test_files fs) nReduce_main fs s ∧
      ∀ evs2, TestEarlyExit tmp evs1 evs2 fs = Ret (if Done s.(m_coord) then Some true else None).
Proof.
  intros Hmain Hv. destruct (test_files_spec fs Hmain) as [Hnil Hin].
  pose proof (test_job_ok early_Map early_Reduce fs fs Hmain Hv early_order_free (λ _, eq_refl)) as Hjob.
  destruct (start_job_spec early_Map early_Reduce (test_files fs) fs Hjob Hnil) as (s0 & Hs0 & Hinv0 & Hfs0).
  exists s0. split; [done|]. split; [done|]. split; [done|]. intros evs1 Ht.
  destruct (mr_run_frame early_Map early_Reduce (test_files fs) nReduce_main fs Hjob evs1 s0 Hinv0 Ht)
    as (s & Hs & Hinv & _). exists s. split; [done|]. split; [done|]. intros evs2.
  unfold TestEarlyExit. fold (test_files fs). rewrite Hs0. cbn [mbind go_bind]. rewrite Hs. cbn [mbind go_bind].
  destruct (Done (m_coord s)) eqn:Hdone; [|done].
  assert (own_name "mr-wc-initial.txt") as Hi by (by eexists _, _).
  assert (own_name "mr-wc-final.txt") as Hf by (by eexists _, _).
  destruct (mergeOutput_done early_Map early_Reduce (test_files fs) fs s _ Hinv Hdone Hi)
    as (fs1 & -> & Hsame1 & c & Hc & Hcm). cbn [mbind go_bind].
  assert (mr_inv early_Map early_Reduce (test_files fs) nReduce_main fs (mkMr s.(m_coord) fs1 s.(m_workers)))
    as Hinv1.
  { assert (fs1 = <["mr-wc-initial.txt" := c]> s.(m_fs)) as ->.
    { apply map_eq. intros k. destruct (decide (k = "mr-wc-initial.txt")) as [->|Hk].
      - by rewrite lookup_insert_eq.
      - by rewrite lookup_insert_ne, Hsame1. }
    apply mr_inv_other_file; [by apply own_not_job| |done]. intros (_ & n & Hn)%Hin. done. }
  destruct (mr_run_frame early_Map early_Reduce (test_files fs) nReduce_main fs Hjob evs2 _ Hinv1)
    as (s2 & Hs2 & Hinv2 & Hun2 & Hdone2); [by eapply done_timely|]. specialize (Hdone2 Hdone).
  rewrite Hs2. cbn [mbind go_bind].
  destruct (mergeOutput_done early_Map early_Reduce (test_files fs) fs s2 _ Hinv2 Hdone2 Hf)
    as (fs3 & -> & Hsame3 & c' & Hc' & Hcm'). cbn [mbind go_bind]. do 2 f_equal. unfold runCmp.
  rewrite Hc', Hsame3, (Hun2 "mr-wc-initial.txt") by (done || by apply own_not_job). cbn [m_fs].
  rewrite Hc. apply cmp_ok. by apply (merged_unique _ _ _ _ Hcm Hcm').
Qed.

Lemma indexer_maps IsLetter order order' name content :
  (∀ m, order m ≡ₚ elements m) → (∀ m, order' m ≡ₚ elements m) →
  indexer_Map IsLetter order name content ≡ₚ indexer_Map IsLetter order' name content.
Proof. intros Ho Ho'. unfold indexer_Map. by rewrite Ho, Ho'. Qed.

Lemma tests_pass IsLetter order order' fs :
  main_ok fs →
  map_valid (wc_Map IsLetter) fs → map_valid (indexer_Map IsLetter order') fs →
  map_valid crash_Map fs → map_valid early_Map fs →
  (∀ m, order m ≡ₚ elements m) → (∀ m, order' m ≡ₚ elements m) →
  passes (wc_Map IsLetter) wc_Reduce (compare_job tmp (wc_Map IsLetter) wc_Reduce "mr-wc-correct.txt" fs)
    (λ evs, TestWc tmp IsLetter evs fs) ∧
  passes (indexer_Map IsLetter order') indexer_Reduce
    (compare_job tmp (indexer_Map IsLetter order) indexer_Reduce "mr-indexer-correct.txt" fs)
    (λ evs, TestIndexer tmp IsLetter order order' evs fs) ∧
  passes crash_Map crash_Reduce (compare_job tmp nocrash_Map nocrash_Reduce "mr-crash-correct.txt" fs)
    (λ evs, TestCrashWorker tmp evs fs) ∧
  ∀ evs2, passes early_Map early_Reduce (start_job (test_files fs) fs) (λ evs1, TestEarlyExit tmp evs1 evs2 fs).
Proof.
  intros Hmain Hwc Hix Hcr Hea Ho Ho'. split; [|split; [|split]].
  - apply compare_test_passes; try done; [apply wc_order_free|by eexists _, _..].
  - apply compare_test_passes; try done; [apply indexer_order_free| |by eexists _, _..].
    intros. by apply indexer_maps.
  - apply compare_test_passes; try done; [apply crash_order_free|by eexists _, _..].
  - intros evs2 evs1 Ht. destruct (early_exit_run fs Hmain Hea) as (s0 & Hinv0 & Hjob & Hs0 & Hrun).
    rewrite Hs0 in *. cbn [job_timely] in *.
    destruct (Hrun evs1 Ht) as (s & Hs & Hinv & Htest). rewrite Htest. split; [destruct (Done _); auto|].
    destruct (job_finishes _ _ _ _ _ Hjob s Hinv) as (s' & (evs' & Ht' & Hs' & _) & Hd). exists evs'.
    assert (timely early_Map early_Reduce (evs1 ++ evs') s0 = true) as Ht2 by (by rewrite (timely_app _ _ _ _ _ _ Hs), Ht).
    split; [done|]. destruct (Hrun (evs1 ++ evs') Ht2) as (s3 & Hs3 & _ & ->).
    rewrite mr_run_app, Hs in Hs3. cbn [mbind go_bind] in Hs3. rewrite Hs' in Hs3. injection Hs3 as <-.
    by rewrite Hd.
Qed.
End tests.

Lemma mkOut_spec bs :
  glen bs = 16 → Forall is_byte bs →
  returns (mkOut bs) (λ tmp, plain tmp = true ∧ ∃ s, tmp = "mr-tmp-" +:+ s).
Proof.
  intros Hlen Hbs. eapply returns_bind; [by apply (RandString_spec 8)|]. intros s [Hs _].
  apply returns_Ret. split; [by rewrite plain_app, Hs|by exists s].
Qed.

