(* ===== verification/MrObserve.v ===== *)
(** * Applications that observe the workers: [mrapps/mtiming.go],
    [rtiming.go], [jobcount.go]

    Their map and reduce functions leave files in the directory in which the
    workers run, to count how many workers are at work at once, or how often a
    map function was called. The steps of different processes interleave; which
    process is alive is part of the state. *)

From S2P Require Import Prelude Names GoStrings MrCoordinator MrWorker MrApps MrHarness.
From Stdlib Require Import Ascii.

(** The files of the current directory. *)
Definition dir_names (fs : FS) : list string := filter (λ n, no_slash n = true) (elements (dom fs)).

(** ** [nparallel] *)

(** [fmt.Sscanf(name, prefix+"%d", &x)]: spaces, a sign, the longest run of
    digits; what follows is not read. *)
Fixpoint digits_of (s : string) : string :=
  match s with
  | EmptyString => EmptyString
  | String c s => if is_digit c then String c (digits_of s) else EmptyString
  end.
Fixpoint skip_spaces (s : string) : string :=
  match s with
  | String " " s => skip_spaces s
  | _ => s
  end.
Definition scan_int (s : string) : option Z :=
  match skip_spaces s with
  | String "-" s => Atoi ("-" +:+ digits_of s)
  | String "+" s => Atoi ("+" +:+ digits_of s)
  | s => Atoi (digits_of s)
  end.
Definition Sscanf_int (prefix name : string) : option Z := s ← strip_prefix prefix name; scan_int s.

Section nparallel.
Context (phase : string).

Definition prefix : string := "mr-worker-" +:+ phase +:+ "-".
Definition myfilename (pid : Z) : string := prefix +:+ pretty pid.

(** [os.WriteFile]; one name of the loop, with [syscall.Kill(xpid, 0)] the test
    whether a process is alive; [os.Remove], whose error panics. *)
Definition np_write (pid : Z) (fs : FS) : FS := <[myfilename pid := "x"]> fs.
Definition np_alive (alive : gset Z) (name : string) : list Z :=
  match Sscanf_int prefix name with Some xpid => if decide (xpid ∈ alive) then [xpid] else [] | None => [] end.
Definition np_remove (pid : Z) (fs : FS) : go FS :=
  match fs !! myfilename pid with None => Panic | Some _ => Ret (delete (myfilename pid) fs) end.

(** Where a process is in [nparallel]. [Readdirnames] reads the directory entry
    by entry: [got] are the names it has, [may] those it may still be given,
    [owed] those it will be given before it ends: the names that were there when
    the directory was opened and have not been removed. Then the names [rest]
    are tested one by one; [counted] are the processes found alive. *)
Inductive NpStage :=
  NpOutside | NpWritten | NpReading (got : list string) (may owed : gset string)
| NpTesting (rest : list string) (counted : list Z).

(** A name that is created may be read by who is reading; one that is removed
    need not be. *)
Definition np_created (n : string) (st : NpStage) : NpStage :=
  match st with NpReading got may owed => NpReading got ({[n]} ∪ may) owed | _ => st end.
Definition np_removed (n : string) (st : NpStage) : NpStage :=
  match st with NpReading got may owed => NpReading got may (owed ∖ {[n]}) | _ => st end.

(** The directory, the live processes, and what the calls of [nparallel] have
    returned. A process that is not a worker stays outside [nparallel]; the
    number of a process that is gone may be given to a new one. *)
Record PSys := mkPSys { ps_fs : FS; ps_procs : gmap Z NpStage; ps_log : list (Z * Z) }.
Definition ps_alive (s : PSys) : gset Z := dom s.(ps_procs).
Definition set_stage (s : PSys) (pid : Z) (st : NpStage) : PSys :=
  mkPSys s.(ps_fs) (<[pid := st]> s.(ps_procs)) s.(ps_log).
Inductive PEvent :=
  PSpawn (pid : Z) | PCrash (pid : Z) | PWrite (pid : Z) | POpen (pid : Z) | PRead (pid : Z) (n : string)
| PEnd (pid : Z) | PTest (pid : Z) | PRemove (pid : Z).

(** One system call of one process. A directory from which no name is read is
    an error; at most 1000000 names are read. *)
Definition p_step (s : PSys) (e : PEvent) : go PSys :=
  match e with
  | PSpawn pid => match s.(ps_procs) !! pid with Some _ => Ret s | None => Ret (set_stage s pid NpOutside) end
  | PCrash pid => Ret (mkPSys s.(ps_fs) (delete pid s.(ps_procs)) s.(ps_log))
  | PWrite pid =>
      match s.(ps_procs) !! pid with
      | Some NpOutside =>
          let new := match s.(ps_fs) !! myfilename pid with None => np_created (myfilename pid) | Some _ => id end in
          Ret (mkPSys (np_write pid s.(ps_fs)) (<[pid := NpWritten]> (new <$> s.(ps_procs))) s.(ps_log))
      | _ => Ret s
      end
  | POpen pid =>
      match s.(ps_procs) !! pid with
      | Some NpWritten => let names := list_to_set (dir_names s.(ps_fs)) in Ret (set_stage s pid (NpReading [] names names))
      | _ => Ret s
      end
  | PRead pid n =>
      match s.(ps_procs) !! pid with
      | Some (NpReading got may owed) =>
          if decide (n ∈ may ∧ glen got < 1000000)
          then Ret (set_stage s pid (NpReading (got ++ [n]) (may ∖ {[n]}) (owed ∖ {[n]}))) else Ret s
      | _ => Ret s
      end
  | PEnd pid =>
      match s.(ps_procs) !! pid with
      | Some (NpReading got may owed) =>
          if decide (owed = ∅ ∨ 1000000 ≤ glen got)
          then match got with [] => Panic | _ => Ret (set_stage s pid (NpTesting got [])) end else Ret s
      | _ => Ret s
      end
  | PTest pid =>
      match s.(ps_procs) !! pid with
      | Some (NpTesting (n :: rest) counted) =>
          Ret (set_stage s pid (NpTesting rest (counted ++ np_alive (ps_alive s) n)))
      | _ => Ret s
      end
  | PRemove pid =>
      match s.(ps_procs) !! pid with
      | Some (NpTesting [] counted) =>
          fs ← np_remove pid s.(ps_fs);
          Ret (mkPSys fs (<[pid := NpOutside]> (np_removed (myfilename pid) <$> s.(ps_procs)))
                 (s.(ps_log) ++ [(pid, glen counted)]))
      | _ => Ret s
      end
  end.
Definition p_run (evs : list PEvent) (s : PSys) : go PSys := foldM p_step s evs.
End nparallel.

(** The map and reduce functions; [n] is what [nparallel] returned, [ts] the
    formatted time. *)
Definition mtiming_Map (pid : Z) (ts : string) (n : Z) : list KeyValue :=
  [mkKV ("times-" +:+ pretty pid) ts; mkKV ("parallel-" +:+ pretty pid) (pretty n)].
Definition mtiming_Reduce (key : string) (values : list string) : string := join " " (sort_Strings values).
Definition rtiming_Map (filename contents : string) : list KeyValue :=
  (λ k, mkKV k "1") <$> ["a"; "b"; "c"; "d"; "e"; "f"; "g"; "h"; "i"; "j"].
Definition rtiming_Reduce (n : Z) : string := pretty n.

(** ** [jobcount.go]

    [count] is a variable of the process. *)
Definition jobfile (me count : Z) : string := "mr-worker-jobcount-" +:+ pretty me +:+ "-" +:+ pretty count.
Definition jobcount_Map (me : Z) (s : FS * gmap Z Z) : list KeyValue * (FS * gmap Z Z) :=
  let count := default 0 (s.2 !! me) in
  ([mkKV "a" "x"], (<[jobfile me count := "x"]> s.1, <[me := count + 1]> s.2)).
Definition HasPrefix (s p : string) : bool := bool_decide (is_Some (strip_prefix p s)).
Definition jobcount_Reduce (fs : FS) : string :=
  pretty (countb (λ f, HasPrefix f "mr-worker-jobcount") (dir_names fs)).

(** ** [countPattern]

    [FindAllString p s]: the matches of the regular expression. *)
Section count_pattern.
Context (FindAllString : string → string → list string).

Definition countPatternFile (tmp : string) (fs : FS) (f p : string) : go Z :=
  match open_path tmp fs f with
  | None => Fatal
  | Some data => Ret (glen (FindAllString p data))
  end.
Definition countPattern (tmp : string) (fs : FS) (files : list string) (p : string) : go Z :=
  foldM (λ n f, m ← countPatternFile tmp fs f p; Ret (n + m)) 0 files.
End count_pattern.

(** ** Names *)

Lemma digits_of_all s : all_digits s = true → digits_of s = s.
Proof.
  induction s as [|c s IH]; [done|]. cbn. intros [Hc Hs]%andb_true_iff. by rewrite Hc, IH.
Qed.

Lemma scan_int_digits c s : all_digits (String c s) = true → scan_int (String c s) = Atoi (String c s).
Proof.
  intros Hd. rewrite <-(digits_of_all _ Hd) at 2. apply andb_true_iff in Hd as [Hc _].
  unfold is_digit in Hc. apply bool_decide_eq_true in Hc.
  repeat (apply elem_of_cons in Hc as [->|Hc]; [done|]). by apply elem_of_nil in Hc.
Qed.

Lemma scan_int_pretty n : 0 ≤ n < 2 ^ 63 → scan_int (pretty n) = Some n.
Proof.
  intros Hn. pose proof (pretty_digits n ltac:(lia)) as Hd. rewrite <-(Atoi_pretty n) by lia.
  destruct (pretty n) as [|c s] eqn:E; [done|]. by apply scan_int_digits.
Qed.

Lemma no_slash_app a b : no_slash (a +:+ b) = no_slash a && no_slash b.
Proof.
  induction a as [|c a IH]; [done|]. change (String c a +:+ b) with (String c (a +:+ b)).
  cbn [no_slash]. by rewrite IH, andb_assoc.
Qed.

Lemma no_slash_digits s : all_digits s = true → no_slash s = true.
Proof.
  induction s as [|c s IH]; [done|]. cbn [all_digits no_slash]. intros [Hc Hs]%andb_true_iff.
  rewrite (IH Hs), andb_true_r. rewrite bool_decide_false; [done|]. by intros ->.
Qed.

Lemma elem_of_dir_names fs n : n ∈ dir_names fs ↔ is_Some (fs !! n) ∧ no_slash n = true.
Proof. unfold dir_names. rewrite list_elem_of_filter, elem_of_elements, elem_of_dom. tauto. Qed.

Lemma dir_names_NoDup fs : NoDup (dir_names fs).
Proof. apply NoDup_filter, NoDup_elements. Qed.

(** Counting the files that satisfy [f], when they are the images of [l]. *)
Lemma countb_dir_names {A} (f : string → bool) fs (name : A → string) (l : list A) :
  NoDup (name <$> l) →
  (∀ n, is_Some (fs !! n) ∧ no_slash n = true ∧ f n = true ↔ n ∈ name <$> l) →
  countb f (dir_names fs) = glen l.
Proof.
  intros Hnd Hl. unfold countb, glen. f_equal. rewrite <-(length_fmap name l). apply Permutation_length.
  apply NoDup_Permutation; [apply NoDup_filter, dir_names_NoDup|done|].
  intros n. rewrite <-Hl, list_elem_of_filter, elem_of_dir_names. tauto.
Qed.

(** ** How many workers [nparallel] counts *)

Section parallel.
Context (phase : string).
Context (Hphase : no_slash phase = true).

Lemma myfilename_inj pid pid' : myfilename phase pid = myfilename phase pid' → pid = pid'.
Proof. unfold myfilename. intros ?%append_inj. by apply (inj pretty). Qed.

Lemma Sscanf_myfilename pid : 0 ≤ pid < 2 ^ 63 → Sscanf_int (prefix phase) (myfilename phase pid) = Some pid.
Proof. intros Hp. unfold Sscanf_int, myfilename. rewrite strip_prefix_app. by apply scan_int_pretty. Qed.

Lemma myfilename_no_slash pid : 0 ≤ pid → no_slash (myfilename phase pid) = true.
Proof.
  intros Hp. unfold myfilename, prefix. rewrite !no_slash_app, Hphase. apply no_slash_digits. by apply pretty_digits.
Qed.

(** How one step changes the stage of a process that was there before and is
    there after. *)
Inductive moves (s : PSys) (pid : Z) : PEvent → NpStage → NpStage → Prop :=
| mv_same e st : moves s pid e st st
| mv_created q st : s.(ps_procs) !! q = Some NpOutside → s.(ps_fs) !! myfilename phase q = None →
    moves s pid (PWrite q) st (np_created (myfilename phase q) st)
| mv_removed q st : q ≠ pid → moves s pid (PRemove q) st (np_removed (myfilename phase q) st)
| mv_write : moves s pid (PWrite pid) NpOutside NpWritten
| mv_open : let names := list_to_set (dir_names s.(ps_fs)) in moves s pid (POpen pid) NpWritten (NpReading [] names names)
| mv_read n got may owed : n ∈ may →
    moves s pid (PRead pid n) (NpReading got may owed) (NpReading (got ++ [n]) (may ∖ {[n]}) (owed ∖ {[n]}))
| mv_end got may owed : owed = ∅ ∨ 1000000 ≤ glen got → moves s pid (PEnd pid) (NpReading got may owed) (NpTesting got [])
| mv_test n rest counted :
    moves s pid (PTest pid) (NpTesting (n :: rest) counted) (NpTesting rest (counted ++ np_alive phase (ps_alive s) n))
| mv_return counted : moves s pid (PRemove pid) (NpTesting [] counted) NpOutside.

Lemma set_stage_moves s e q st0 st1 pid st' :
  s.(ps_procs) !! q = Some st0 → moves s q e st0 st1 → (set_stage s q st1).(ps_procs) !! pid = Some st' →
  ∃ st, s.(ps_procs) !! pid = Some st ∧ moves s pid e st st'.
Proof.
  intros H1 H2. cbn. destruct (decide (pid = q)) as [->|Hne].
  - rewrite lookup_insert_eq. intros [= <-]. by exists st0.
  - rewrite lookup_insert_ne by done. intros H3. exists st'. split; [done|constructor].
Qed.

Lemma p_step_moves s e s' pid st' :
  p_step phase s e = Ret s' → s'.(ps_procs) !! pid = Some st' →
  (e = PSpawn pid ∧ st' = NpOutside) ∨ ∃ st, s.(ps_procs) !! pid = Some st ∧ moves s pid e st st'.
Proof.
  assert (s.(ps_procs) !! pid = Some st' → ∃ st, s.(ps_procs) !! pid = Some st ∧ moves s pid e st st') as Hsame
    by (intros ?; eexists; split; [done|constructor]).
  intros E H1. destruct e as [q|q|q|q|q n|q|q|q]; cbn [p_step] in E.
  - destruct (s.(ps_procs) !! q) eqn:Hq; injection E as <-; [by right; apply Hsame|]. cbn in H1.
    destruct (decide (pid = q)) as [->|Hne]; [rewrite lookup_insert_eq in H1; left; by injection H1 as <-|].
    rewrite lookup_insert_ne in H1 by done. right. by apply Hsame.
  - injection E as <-. cbn in H1. apply lookup_delete_Some in H1 as [_ H1]. right. by apply Hsame.
  - destruct (s.(ps_procs) !! q) as [[| | |]|] eqn:Hq; injection E as <-; try (by right; apply Hsame).
    cbn in H1. right. destruct (decide (pid = q)) as [->|Hne].
    + rewrite lookup_insert_eq in H1. injection H1 as <-. eexists. split; [done|constructor].
    + rewrite lookup_insert_ne, lookup_fmap, fmap_Some in H1 by done. destruct H1 as (st & H1 & ->).
      exists st. split; [done|]. destruct (s.(ps_fs) !! myfilename phase q) eqn:Hf; by constructor.
  - destruct (s.(ps_procs) !! q) as [[| | |]|] eqn:Hq; injection E as <-; try (by right; apply Hsame).
    right. by apply (set_stage_moves s (POpen q) q _ _ pid st' Hq (mv_open s q)).
  - destruct (s.(ps_procs) !! q) as [[| |got may owed|]|] eqn:Hq; try (injection E as <-; by right; apply Hsame).
    case_decide as Hd; injection E as <-; [|by right; apply Hsame]. right.
    by apply (set_stage_moves s (PRead q n) q _ _ pid st' Hq (mv_read s q n got may owed (proj1 Hd))).
  - destruct (s.(ps_procs) !! q) as [[| |got may owed|]|] eqn:Hq; try (injection E as <-; by right; apply Hsame).
    case_decide as Hd; [|injection E as <-; by right; apply Hsame]. destruct got as [|n got]; [done|injection E as <-].
    right. by apply (set_stage_moves s (PEnd q) q _ _ pid st' Hq (mv_end s q (n :: got) may owed Hd)).
  - destruct (s.(ps_procs) !! q) as [[| | |[|n rest] counted]|] eqn:Hq; injection E as <-; try (by right; apply Hsame).
    right. by apply (set_stage_moves s (PTest q) q _ _ pid st' Hq (mv_test s q n rest counted)).
  - destruct (s.(ps_procs) !! q) as [[| | |[|n rest] counted]|] eqn:Hq; try (injection E as <-; by right; apply Hsame).
    apply bind_Ret_inv in E as (fs & _ & E). injection E as <-. cbn in H1. right.
    destruct (decide (pid = q)) as [->|Hne].
    + rewrite lookup_insert_eq in H1. injection H1 as <-. eexists. split; [done|constructor].
    + rewrite lookup_insert_ne, lookup_fmap, fmap_Some in H1 by done. destruct H1 as (st & H1 & ->).
      exists st. split; [done|]. by constructor.
Qed.

(** A process that is not killed stays. *)
Lemma p_step_stays s e s' pid :
  p_step phase s e = Ret s' → e ≠ PCrash pid → is_Some (s.(ps_procs) !! pid) → is_Some (s'.(ps_procs) !! pid).
Proof.
  intros E Hc Hs.
  assert (∀ q st, is_Some ((set_stage s q st).(ps_procs) !! pid)) as Hset.
  { intros q st. cbn. destruct (decide (pid = q)) as [->|]; [rewrite lookup_insert_eq; by eexists|by rewrite lookup_insert_ne]. }
  assert (∀ (f : NpStage → NpStage) q st, is_Some ((<[q := st]> (f <$> s.(ps_procs))) !! pid)) as Hmap.
  { intros f q st. destruct (decide (pid = q)) as [->|]; [rewrite lookup_insert_eq; by eexists|].
    rewrite lookup_insert_ne, lookup_fmap by done. by apply fmap_is_Some. }
  destruct e as [q|q|q|q|q n|q|q|q]; cbn [p_step] in E; repeat case_match; try discriminate E; try (injection E as <-; done || apply Hset || apply Hmap).
  - injection E as <-. cbn. rewrite lookup_delete_ne; [done|congruence].
  - apply bind_Ret_inv in E as (fs & _ & E). injection E as <-. apply Hmap.
Qed.

(** The directory gains the file that is written and loses the one that is
    removed. *)
Lemma p_step_files s e s' n :
  p_step phase s e = Ret s' →
  (is_Some (s'.(ps_fs) !! n) → is_Some (s.(ps_fs) !! n) ∨ ∃ q, e = PWrite q ∧ n = myfilename phase q ∧ is_Some (s.(ps_procs) !! q)) ∧
  (is_Some (s.(ps_fs) !! n) → (∀ q c, e = PRemove q → s.(ps_procs) !! q = Some (NpTesting [] c) → n ≠ myfilename phase q) → is_Some (s'.(ps_fs) !! n)).
Proof.
  intros E. destruct e as [q|q|q|q|q m|q|q|q]; cbn [p_step] in E;
    repeat case_match; try discriminate E; try (injection E as <-; by split; [left|]).
  - injection E as <-. cbn. unfold np_write. destruct (decide (n = myfilename phase q)) as [->|Hne].
    + rewrite lookup_insert_eq. split; [|by eexists]. right. exists q. split_and!; [done..|by eexists].
    + rewrite lookup_insert_ne by done. split; [by left|done].
  - injection E as <-. cbn. unfold np_write. destruct (decide (n = myfilename phase q)) as [->|Hne].
    + rewrite lookup_insert_eq. split; [|by eexists]. right. exists q. split_and!; [done..|by eexists].
    + rewrite lookup_insert_ne by done. split; [by left|done].
  - apply bind_Ret_inv in E as (fs & Hrm & E). injection E as <-. cbn. unfold np_remove in Hrm. case_match; [|done].
    injection Hrm as <-. split.
    + intros [x Hx]. apply lookup_delete_Some in Hx as [_ Hx]. left. by eexists.
    + intros Hx Hne. rewrite lookup_delete_ne; [done|]. intros Heq. by eapply Hne.
Qed.

(** *** What holds at every moment

    A worker between its write and its removal has its file in the directory
    and, while it reads, has it or will be given it; no other file there looks
    like the file of a worker. *)
Record p_inv (s : PSys) : Prop := {
  pi_pids : ∀ pid, is_Some (s.(ps_procs) !! pid) → 0 ≤ pid < 2 ^ 63;
  pi_in : ∀ pid st, s.(ps_procs) !! pid = Some st → st ≠ NpOutside → is_Some (s.(ps_fs) !! myfilename phase pid);
  pi_only : ∀ n x, is_Some (s.(ps_fs) !! n) → no_slash n = true → Sscanf_int (prefix phase) n = Some x →
    n = myfilename phase x ∧ 0 ≤ x < 2 ^ 63;
  pi_own : ∀ pid got may owed, s.(ps_procs) !! pid = Some (NpReading got may owed) →
    myfilename phase pid ∈ owed ∨ myfilename phase pid ∈ got;
}.

Lemma p_step_total s e : p_inv s → ∃ s', p_step phase s e = Ret s'.
Proof.
  intros [_ Hin _ Hown]. destruct e as [q|q|q|q|q n|q|q|q]; cbn [p_step]; repeat case_match; try (by eexists).
  - exfalso. edestruct Hown as [Ho|Ho]; [done|..]; [|by apply elem_of_nil in Ho].
    destruct o as [Ho2|Hg]; [set_solver|]. pose proof Hg as Hg2. by rewrite glen_nil in Hg2.
  - unfold np_remove. edestruct (Hin q) as [x ->]; [done|done|]. cbn. by eexists.
Qed.

Lemma moves_own s pid e st st' :
  p_inv s → s.(ps_procs) !! pid = Some st → moves s pid e st st' →
  ∀ got may owed, st' = NpReading got may owed → myfilename phase pid ∈ owed ∨ myfilename phase pid ∈ got.
Proof.
  intros [Hp Hin _ Hown] Hst Hm got may owed ->. inversion Hm; subst.
  - by eapply Hown.
  - destruct st; try discriminate. cbn in *. simplify_eq. by eapply Hown.
  - destruct st; try discriminate. cbn in *. simplify_eq. destruct (Hown _ _ _ _ Hst) as [Ho|Ho]; [left|by right].
    apply elem_of_difference. split; [done|]. intros Heq%elem_of_singleton%myfilename_inj. congruence.
  - left. apply elem_of_list_to_set, elem_of_dir_names. split; [by eapply Hin|]. apply myfilename_no_slash, Hp. by eexists.
  - destruct (Hown _ _ _ _ Hst) as [Ho|Ho]; [|right; set_solver].
    destruct (decide (myfilename phase pid = n)) as [->|Hne]; [right; set_solver|left; set_solver].
Qed.

Lemma p_step_inv s e s' :
  p_inv s → (∀ pid, e = PSpawn pid → 0 ≤ pid < 2 ^ 63) → p_step phase s e = Ret s' → p_inv s'.
Proof.
  intros Hinv Hs E. pose proof Hinv as [Hp Hin Honly Hown]. split.
  - intros pid [st Hst]. destruct (p_step_moves _ _ _ _ _ E Hst) as [[-> _]|(st0 & H0 & _)]; [by apply Hs|apply Hp; by eexists].
  - intros pid st Hst Hne. destruct (p_step_moves _ _ _ _ _ E Hst) as [[_ ->]|(st0 & Hst0 & Hm)]; [done|].
    assert (st0 = NpOutside ∨ st0 ≠ NpOutside) as [->|Hne0] by (destruct st0; (by left) || by right).
    + inversion Hm; subst; try (by destruct Hne). cbn [p_step] in E. rewrite Hst0 in E. injection E as <-. cbn. unfold np_write.
      rewrite lookup_insert_eq. by eexists.
    + apply (proj2 (p_step_files _ _ _ (myfilename phase pid) E)); [by eapply Hin|]. intros q c -> Hq <-%myfilename_inj.
      cbn [p_step] in E. rewrite Hq in E. apply bind_Ret_inv in E as (fs & _ & E). injection E as <-. cbn in Hst.
      rewrite lookup_insert_eq in Hst. congruence.
  - intros n x Hn Hns Hx. destruct (proj1 (p_step_files _ _ _ n E) Hn) as [H1|(q & -> & -> & Hq)]; [by eapply Honly|].
    specialize (Hp q Hq). rewrite Sscanf_myfilename in Hx by done. by injection Hx as <-.
  - intros pid got may owed Hst. destruct (p_step_moves _ _ _ _ _ E Hst) as [[_ ?]|(st0 & Hst0 & Hm)]; [done|].
    by eapply moves_own.
Qed.

Lemma p_run_inv evs s :
  p_inv s → (∀ pid, PSpawn pid ∈ evs → 0 ≤ pid < 2 ^ 63) → returns (p_run phase evs s) p_inv.
Proof.
  intros Hs Hp. apply foldM_returns; [done|]. intros s1 e H1 He. destruct (p_step_total s1 e H1) as [s2 E].
  rewrite E. apply returns_Ret. eapply p_step_inv; [done| |done]. intros pid ->. by apply Hp.
Qed.

(** *** One count, from opening the directory to the last test *)
Section one_count.
Context (pid : Z) (s0 : PSys) (names : gset string).
Context (Hinv0 : p_inv s0) (Hst0 : s0.(ps_procs) !! pid = Some (NpReading [] names names)).
Context (ok : PEvent → Prop).
Context (Hok : ∀ e, ok e → e ≠ PCrash pid ∧ e ≠ PRemove pid ∧ ∀ q, e = PSpawn q → 0 ≤ q < 2 ^ 63).

Lemma count_ind (P : list PEvent → PSys → NpStage → Prop) :
  P [] s0 (NpReading [] names names) →
  (∀ mid e s s' st st', p_run phase mid s0 = Ret s → p_run phase (mid ++ [e]) s0 = Ret s' → p_step phase s e = Ret s' →
     p_inv s → p_inv s' → moves s pid e st st' → ok e → P mid s st → P (mid ++ [e]) s' st') →
  ∀ mid s, Forall ok mid → p_run phase mid s0 = Ret s → p_inv s ∧ ∃ st, s.(ps_procs) !! pid = Some st ∧ P mid s st.
Proof.
  intros H0 Hs mid. induction mid as [|e mid IH] using rev_ind; intros s' Hall E.
  - injection E as <-. split; [done|]. by eexists.
  - apply Forall_app in Hall as [Hall [He _]%Forall_cons]. pose proof E as E1. unfold p_run in E1. rewrite foldM_app in E1.
    apply bind_Ret_inv in E1 as (s & E1 & E2). cbn [foldM] in E2. apply bind_Ret_inv in E2 as (s2 & E2 & [= ->]).
    destruct (IH s Hall E1) as (Hi & st & Hst & HP). destruct (Hok e He) as (Hc & _ & Hsp).
    assert (p_inv s') as Hi' by (by eapply p_step_inv). split; [done|].
    destruct (p_step_stays _ _ _ pid E2 Hc ltac:(by eexists)) as [st' Hst']. exists st'. split; [done|].
    destruct (p_step_moves _ _ _ _ _ E2 Hst') as [[-> _]|(st1 & Hst1 & Hm)].
    + cbn [p_step] in E2. rewrite Hst in E2. injection E2 as <-. assert (st' = st) as -> by congruence.
      apply (Hs mid (PSpawn pid) s s st st); try done; [|constructor]. cbn [p_step]. by rewrite Hst.
    + assert (st1 = st) as -> by congruence. by apply (Hs mid e s s' st st').
Qed.

(** Who has its file there all the time will be counted, if fewer than a
    million names are read. *)
Definition will_count (q : Z) (k : Z) (st : NpStage) : Prop :=
  match st with
  | NpReading got _ owed => glen got ≤ k ∧ (myfilename phase q ∈ owed ∨ myfilename phase q ∈ got)
  | NpTesting rest counted => myfilename phase q ∈ rest ∨ q ∈ counted
  | _ => False
  end.

Lemma will_count_moves s e q k st st' :
  p_inv s → is_Some (s.(ps_procs) !! q) → ok e → e ≠ PRemove q → k < 1000000 →
  moves s pid e st st' → will_count q k st → will_count q (k + 1) st'.
Proof.
  intros Hi Hq He Hrm Hk Hm. destruct (Hok e He) as (_ & Hr & _).
  inversion Hm; subst; try done; cbn [will_count].
  - destruct st'; cbn; try done. intros [? ?]. split; [lia|done].
  - destruct st; cbn; try done. intros [? ?]. split; [lia|done].
  - destruct st; cbn; try done. intros [? Ho]. split; [lia|]. destruct Ho as [Ho|Ho]; [left|by right].
    apply elem_of_difference. split; [done|]. intros Heq%elem_of_singleton%myfilename_inj. congruence.
  - intros [Hl Ho]. split; [rewrite glen_app, glen_cons, glen_nil; lia|].
    destruct (decide (myfilename phase q = n)) as [->|Hne]; [right; set_solver|]. destruct Ho as [Ho|Ho]; [left|right]; set_solver.
  - intros [Hl Ho]. destruct H as [->|?]; [|lia]. left. destruct Ho; [set_solver|done].
  - intros [Ho|Ho]; [|right; set_solver]. apply elem_of_cons in Ho as [<-|Ho]; [right|by left].
    apply elem_of_app. right. unfold np_alive. rewrite Sscanf_myfilename by (by apply Hi).
    rewrite decide_True by (by apply elem_of_dom). by left.
Qed.

(** Who is counted had a file there at a moment [k] since the directory was
    opened, and was alive at a moment [k'] after that. *)
Definition saw (mid : list PEvent) (k : nat) (n : string) : Prop :=
  (k ≤ length mid)%nat ∧ ∃ s, p_run phase (take k mid) s0 = Ret s ∧ is_Some (s.(ps_fs) !! n) ∧ no_slash n = true.
Definition found (mid : list PEvent) (q : Z) : Prop :=
  ∃ k k' s, (k ≤ k' ≤ length mid)%nat ∧ saw mid k (myfilename phase q) ∧
    p_run phase (take k' mid) s0 = Ret s ∧ is_Some (s.(ps_procs) !! q).
Definition backed (mid : list PEvent) (st : NpStage) : Prop :=
  match st with
  | NpReading got may _ => ∀ n, n ∈ got ∨ n ∈ may → ∃ k, saw mid k n
  | NpTesting rest counted => (∀ n, n ∈ rest → ∃ k, saw mid k n) ∧ ∀ q, q ∈ counted → found mid q
  | _ => True
  end.

Lemma saw_snoc mid e k n : saw mid k n → saw (mid ++ [e]) k n.
Proof. intros [Hk Hs]. split; [rewrite length_app; lia|]. by rewrite take_app_le. Qed.
Lemma saw_now mid s n : p_run phase mid s0 = Ret s → is_Some (s.(ps_fs) !! n) → no_slash n = true → saw mid (length mid) n.
Proof. intros E Hn Hs. split; [done|]. exists s. by rewrite firstn_all. Qed.
Lemma found_snoc mid e q : found mid q → found (mid ++ [e]) q.
Proof.
  intros (k & k' & s & Hk & Hs & E & Hq). exists k, k', s. rewrite take_app_le by lia.
  split_and!; [lia|rewrite length_app; lia|by apply saw_snoc|done..].
Qed.
Lemma backed_snoc mid e st : backed mid st → backed (mid ++ [e]) st.
Proof.
  destruct st as [| |got may owed|rest counted]; cbn; [done..| |].
  - intros Hb n Hn. destruct (Hb n Hn) as [k ?]. exists k. by apply saw_snoc.
  - intros [Hb Hc]. split; [|intros; by apply found_snoc, Hc]. intros n Hn. destruct (Hb n Hn) as [k ?]. exists k. by apply saw_snoc.
Qed.

(** A name that was seen and scans is the file of a worker. *)
Lemma saw_worker mid k n x :
  Forall ok mid → saw mid k n → Sscanf_int (prefix phase) n = Some x → n = myfilename phase x.
Proof.
  intros Hall (Hk & s & E & Hn & Hs) Hx.
  destruct (count_ind (λ _ _ _, True) I ltac:(done) (take k mid) s) as [Hi _]; [by apply Forall_take|done|].
  by eapply (pi_only s Hi).
Qed.

Lemma backed_moves mid e s s' st st' :
  Forall ok mid → p_run phase mid s0 = Ret s → p_run phase (mid ++ [e]) s0 = Ret s' → p_step phase s e = Ret s' → p_inv s →
  moves s pid e st st' → backed mid st → backed (mid ++ [e]) st'.
Proof.
  intros Hall E E' Estep Hi Hm Hb. pose proof (backed_snoc mid e st Hb) as Hb'. inversion Hm; subst; try done.
  - destruct st as [| |got may owed|]; try done. intros n [Hn|[->%elem_of_singleton|Hn]%elem_of_union]; [apply Hb'; by left| |apply Hb'; by right].
    exists (length (mid ++ [PWrite q])). cbn [p_step] in Estep. rewrite H in Estep. injection Estep as <-.
    eapply saw_now; [done|cbn; unfold np_write; rewrite lookup_insert_eq; by eexists|].
    apply myfilename_no_slash, Hi. by eexists.
  - by destruct st.
  - intros n [?%elem_of_nil|Hn%elem_of_list_to_set%elem_of_dir_names]; [done|]. destruct Hn.
    eexists. by apply saw_snoc, (saw_now mid s).
  - intros n' Hn. apply Hb'. set_solver.
  - split; [|by intros ? ?%elem_of_nil]. intros n Hn. apply Hb'. by left.
  - destruct Hb' as [Hr Hc]. split; [intros; apply Hr; by right|]. intros q [Hq|Hq]%elem_of_app; [by apply Hc|].
    unfold np_alive in Hq. destruct (Sscanf_int (prefix phase) n) as [x|] eqn:Hx; [|by apply elem_of_nil in Hq].
    case_decide as Hal; [|by apply elem_of_nil in Hq]. apply list_elem_of_singleton in Hq as ->.
    destruct (proj1 Hb n ltac:(by left)) as [k Hk]. pose proof (saw_worker mid k n x Hall Hk Hx) as ->.
    apply found_snoc. exists k, (length mid), s. rewrite firstn_all. split_and!; [apply Hk|done|done|done|by apply elem_of_dom].
Qed.

(** Nobody is counted twice, unless a file is written meanwhile. *)
Definition distinct (mid : list PEvent) (st : NpStage) : Prop :=
  match st with
  | NpReading got may _ => NoDup got ∧ (∀ n, n ∈ got → n ∉ may)
  | NpTesting rest counted => NoDup rest ∧ NoDup counted ∧ ∀ q, q ∈ counted → myfilename phase q ∉ rest
  | _ => True
  end.

Lemma distinct_moves mid e s st st' :
  Forall ok mid → (∀ q, e ≠ PWrite q) → moves s pid e st st' → backed mid st → distinct mid st → distinct (mid ++ [e]) st'.
Proof.
  intros Hall He Hm Hb Hd. inversion Hm; subst; try done.
  - by destruct (He q).
  - by destruct st.
  - split; [constructor|by intros ? ?%elem_of_nil].
  - destruct Hd as [Hnd Hn]. split.
    + apply NoDup_app. split_and!; [done| |apply NoDup_singleton]. intros n' Hn' ->%list_elem_of_singleton. by eapply Hn.
    + intros n' [Hn'| ->%list_elem_of_singleton]%elem_of_app; [specialize (Hn n' Hn'); set_solver|set_solver].
  - destruct Hd as [Hnd _]. split_and!; [done|constructor|by intros ? ?%elem_of_nil].
  - destruct Hd as ([Hnr Hnd]%NoDup_cons & Hnc & Hc). split; [done|]. unfold np_alive.
    assert (∀ q, q ∈ counted → myfilename phase q ∉ rest) as Hc' by (intros q Hq ?; apply (Hc q Hq); by right).
    destruct (Sscanf_int (prefix phase) n) as [x|] eqn:Hx; [|by rewrite app_nil_r].
    case_decide; [|by rewrite app_nil_r].
    destruct (proj1 Hb n ltac:(by left)) as [k Hk]. pose proof (saw_worker mid k n x Hall Hk Hx) as ->. split.
    + apply NoDup_app. split_and!; [done| |apply NoDup_singleton]. intros q Hq ->%list_elem_of_singleton.
      apply (Hc x Hq). by left.
    + intros q [Hq| ->%list_elem_of_singleton]%elem_of_app; [by apply Hc'|done].
Qed.
End one_count.
End parallel.

Lemma p_inv_init phase fs : (∀ n, n ∈ dir_names fs → Sscanf_int (prefix phase) n = None) → p_inv phase (mkPSys fs ∅ []).
Proof.
  intros Hfs. split; cbn [ps_fs ps_procs].
  1: intros q; rewrite lookup_empty; by intros [].
  1,3: intros *; by rewrite lookup_empty.
  intros n x Hn Hns Hx. rewrite Hfs in Hx; [done|]. by apply elem_of_dir_names.
Qed.

Section count_end.
Context (phase : string) (Hphase : no_slash phase = true).
Context (pid : Z) (s0 : PSys) (names : gset string) (mid : list PEvent) (s2 : PSys) (c : list Z).
Context (Hinv0 : p_inv phase s0) (Hst0 : s0.(ps_procs) !! pid = Some (NpReading [] names names)).
Context (Hnames : names = list_to_set (dir_names s0.(ps_fs))).
Context (Hsp : ∀ q, PSpawn q ∈ mid → 0 ≤ q < 2 ^ 63) (Hlen : glen mid < 1000000).
Context (Hc : PCrash pid ∉ mid) (Hr : PRemove pid ∉ mid).
Context (Hrun : p_run phase mid s0 = Ret s2) (Hend : s2.(ps_procs) !! pid = Some (NpTesting [] c)).

Let ok (e : PEvent) : Prop := e ∈ mid.
Lemma count_ok e : ok e → e ≠ PCrash pid ∧ e ≠ PRemove pid ∧ ∀ q, e = PSpawn q → 0 ≤ q < 2 ^ 63.
Proof. intros He. split_and!; [intros ->; done..|]. intros q ->. by apply Hsp. Qed.
Lemma count_all_ok : Forall ok mid.
Proof. by apply Forall_forall. Qed.

Lemma count_lower q :
  is_Some (s0.(ps_procs) !! q) → myfilename phase q ∈ names → PCrash q ∉ mid → PRemove q ∉ mid → q ∈ c.
Proof.
  intros Hq Hn Hcq Hrq.
  destruct (count_ind phase Hphase pid s0 names Hinv0 Hst0 ok count_ok
    (λ m s st, is_Some (s.(ps_procs) !! q) ∧ (glen m < 1000000 → will_count phase q (glen m) st))) with mid s2
    as (_ & st & Hst & _ & Hw); [| |apply count_all_ok|done|].
  - split; [done|]. intros _. split; [done|by left].
  - intros m e s s' st st' _ _ Es Hi _ Hm He [Hq1 Hw]. split; [eapply p_step_stays; [done| |done]; intros ->; by apply Hcq|].
    rewrite glen_app, glen_cons, glen_nil. intros Hlm.
    eapply (will_count_moves phase Hphase pid s0 names Hinv0 Hst0 ok count_ok s e q (glen m)); try done; [intros ->; by apply Hrq|lia|apply Hw; lia].
  - rewrite Hend in Hst. injection Hst as <-. by destruct (Hw Hlen) as [?%elem_of_nil|].
Qed.

Lemma count_upper : (∀ q, q ∈ c → found phase s0 mid q) ∧ ((∀ q, PWrite q ∉ mid) → NoDup c).
Proof.
  destruct (count_ind phase Hphase pid s0 names Hinv0 Hst0 ok count_ok
    (λ m s st, Forall ok m ∧ backed phase s0 m st ∧ ((∀ q, PWrite q ∉ mid) → distinct phase m st))) with mid s2
    as (_ & st & Hst & _ & Hb & Hd); [| |apply count_all_ok|done|].
  - split; [constructor|]. split; [|intros _; split; [constructor|by intros ? ?%elem_of_nil]].
    rewrite Hnames. intros n [?%elem_of_nil|[Hn Hs]%elem_of_list_to_set%elem_of_dir_names]; [done|].
    exists 0%nat. by apply (saw_now phase s0 [] s0).
  - intros m e s s' st st' E E' Es Hi _ Hm He (Hall & Hb & Hd). split; [by apply Forall_app_2, Forall_singleton|]. split.
    + by eapply (backed_moves phase Hphase pid s0 names Hinv0 Hst0 ok count_ok).
    + intros Hw. eapply (distinct_moves phase Hphase pid s0 names Hinv0 Hst0 ok count_ok); try done; [|by apply Hd].
      intros q ->. by apply (Hw q).
  - rewrite Hend in Hst. injection Hst as <-. split; [apply Hb|]. intros Hw. apply (Hd Hw).
Qed.
End count_end.

(** C22. [nparallel], for every interleaving of the system calls of workers and
    other processes that start, are killed and reuse the numbers of dead ones:
    no step panics, and for every count from opening the directory to the last
    test of a name, which the counting worker survives:
    - the worker returns the number of the processes it counted, at least 1;
    - every worker that had its file written when the directory was opened and
      was neither killed nor removed it until the end of the count, is counted,
      the counting worker included;
    - every process that is counted had its file in the directory at a moment
      of the scan and was alive at a later moment of the count;
    - no process is counted twice, if no worker writes its file meanwhile.
    Fewer than a million steps are made during the count. *)
Theorem nparallel_bounds phase fs pre mid pid :
  no_slash phase = true → (∀ n, n ∈ dir_names fs → Sscanf_int (prefix phase) n = None) →
  (∀ q, PSpawn q ∈ pre ++ mid → 0 ≤ q < 2 ^ 63) → glen mid < 1000000 → PCrash pid ∉ mid → PRemove pid ∉ mid →
  returns (p_run phase pre (mkPSys fs ∅ [])) (λ s1, s1.(ps_procs) !! pid = Some NpWritten →
  returns (p_step phase s1 (POpen pid)) (λ s0, returns (p_run phase mid s0) (λ s2,
    ∀ c, s2.(ps_procs) !! pid = Some (NpTesting [] c) →
    (∃ s3, p_step phase s2 (PRemove pid) = Ret s3 ∧ s3.(ps_log) = s2.(ps_log) ++ [(pid, glen c)]) ∧ 1 ≤ glen c ∧
    (∀ q st, s1.(ps_procs) !! q = Some st → st ≠ NpOutside → PCrash q ∉ mid → PRemove q ∉ mid → q ∈ c) ∧
    (∀ q, q ∈ c → found phase s0 mid q) ∧
    ((∀ q, PWrite q ∉ mid) → NoDup c)))).
Proof.
  intros Hph Hfs Hsp Hlen Hc Hr.
  eapply returns_mono; [apply p_run_inv; [done|by apply p_inv_init|intros q Hq; apply Hsp, elem_of_app; by left]|].
  intros s1 Hi1 Hpid. destruct (p_step_total phase Hph s1 (POpen pid) Hi1) as [s0 E0].
  assert (p_inv phase s0) as Hi0 by (apply (p_step_inv phase Hph s1 (POpen pid)); [done|by intros ?|done]). rewrite E0. apply returns_Ret.
  assert (∀ q, PSpawn q ∈ mid → 0 ≤ q < 2 ^ 63) as Hsp2 by (intros q Hq; apply Hsp, elem_of_app; by right).
  pose proof E0 as E1. cbn [p_step] in E1. rewrite Hpid in E1. injection E1 as E1.
  destruct (p_run_inv phase Hph mid s0 Hi0 Hsp2) as (s2 & E2 & Hi2). rewrite E2. apply returns_Ret. intros c Hend.
  set (names := list_to_set (dir_names s1.(ps_fs)) : gset string).
  assert (s0.(ps_procs) !! pid = Some (NpReading [] names names)) as Hst0 by (rewrite <-E1; apply lookup_insert_eq).
  assert (names = list_to_set (dir_names s0.(ps_fs))) as Hnames by (by rewrite <-E1).
  assert (∀ q st, s1.(ps_procs) !! q = Some st → st ≠ NpOutside → PCrash q ∉ mid → PRemove q ∉ mid → q ∈ c) as Hlow.
  { intros q st Hq Hne Hcq Hrq. eapply (count_lower phase Hph pid s0 names mid s2 c); try done.
    - rewrite <-E1. cbn. destruct (decide (q = pid)) as [->|]; [rewrite lookup_insert_eq|rewrite lookup_insert_ne by done]; by eexists.
    - apply elem_of_list_to_set, elem_of_dir_names. split; [by eapply (pi_in phase s1 Hi1)|].
      apply myfilename_no_slash; [done|]. apply (pi_pids phase s1 Hi1). by eexists. }
  destruct (count_upper phase Hph pid s0 names mid s2 c) as [Hup Hnd]; [done..|]. split_and!; [|..|done|done|done].
  - destruct (pi_in phase s2 Hi2 pid _ Hend ltac:(done)) as [x Hx]. cbn [p_step]. rewrite Hend. unfold np_remove. rewrite Hx.
    by eexists.
  - assert (pid ∈ c) as Hin by (by eapply Hlow). destruct c; [by apply elem_of_nil in Hin|]. rewrite glen_cons. pose proof (glen_nonneg c). lia.
Qed.

(** ** How often the map function ran *)

Lemma jobfile_inj me me' c c' : 0 ≤ me → 0 ≤ me' → jobfile me c = jobfile me' c' → me = me' ∧ c = c'.
Proof.
  intros H1 H2 Heq%append_inj. apply digits_dash_inj in Heq as [E1 E2]; [|by apply pretty_digits..].
  by apply (inj pretty) in E1, E2.
Qed.

Lemma jobfile_no_slash me c : 0 ≤ me → 0 ≤ c → no_slash (jobfile me c) = true.
Proof.
  intros H1 H2. unfold jobfile. rewrite !no_slash_app.
  rewrite (no_slash_digits (pretty me)), (no_slash_digits (pretty c)) by (by apply pretty_digits). done.
Qed.

(** The files are those of the calls [l]: process and number. *)
Record jobs_inv (s : FS * gmap Z Z) (l : list (Z * Z)) : Prop := {
  ji_nodup : NoDup l;
  ji_range : ∀ me c, (me, c) ∈ l → 0 ≤ me ∧ 0 ≤ c < default 0 (s.2 !! me);
  ji_count : ∀ me, 0 ≤ default 0 (s.2 !! me);
  ji_files : ∀ n, is_Some (s.1 !! n) ∧ no_slash n = true ∧ HasPrefix n "mr-worker-jobcount" = true ↔
    n ∈ (λ x, jobfile x.1 x.2) <$> l;
}.

Lemma jobcount_Map_inv me s l :
  0 ≤ me → jobs_inv s l → jobs_inv (jobcount_Map me s).2 ((me, default 0 (s.2 !! me)) :: l).
Proof.
  intros Hme [Hnd Hr Hc Hf]. unfold jobcount_Map. cbn [snd]. set (count := default 0 (s.2 !! me)) in *.
  assert (∀ m, default 0 (<[me := count + 1]> s.2 !! m) = if decide (m = me) then count + 1 else default 0 (s.2 !! m)) as Hd.
  { intros m. rewrite lookup_insert. repeat case_decide; (done || congruence). }
  pose proof (Hc me) as Hcme. fold count in Hcme. constructor; cbn [fst snd].
  - constructor; [|done]. intros Hin. apply Hr in Hin as [_ Hin]. fold count in Hin. lia.
  - intros m c Hin. rewrite Hd. apply elem_of_cons in Hin as [[= -> ->]|Hin]; [rewrite decide_True by done; lia|].
    destruct (Hr m c Hin) as [? Hlt]. split; [done|]. case_decide; [subst; fold count in Hlt; lia|done].
  - intros m. rewrite Hd. case_decide; [lia|apply Hc].
  - intros n. rewrite fmap_cons, elem_of_cons, <-Hf. cbn [fst snd]. rewrite lookup_insert.
    destruct (decide (jobfile me count = n)) as [<-|Hne]; [|naive_solver].
    split; [by left|]. intros _. split; [by eexists|]. split; [apply jobfile_no_slash; lia|].
    unfold HasPrefix. apply bool_decide_eq_true.
    change (jobfile me count) with ("mr-worker-jobcount" +:+ ("-" +:+ pretty me +:+ "-" +:+ pretty count)).
    rewrite strip_prefix_app. by eexists.
Qed.

(** [jobcount_Reduce] counts the calls of the map function in all processes,
    in any interleaving, those of crashed workers included. *)
Theorem jobcount_exact fs pids :
  (∀ n, n ∈ dir_names fs → HasPrefix n "mr-worker-jobcount" = false) → (∀ me, me ∈ pids → 0 ≤ me) →
  jobcount_Reduce (foldl (λ s me, (jobcount_Map me s).2) (fs, ∅) pids).1 = pretty (glen pids).
Proof.
  intros Hfs Hp.
  assert (∀ s l, jobs_inv s l → ∃ l', jobs_inv (foldl (λ s me, (jobcount_Map me s).2) s pids) l' ∧
    glen l' = glen l + glen pids) as Hrun.
  { clear Hfs. induction pids as [|me pids IH]; intros s l Hs; cbn [foldl].
    - exists l. split; [done|]. rewrite glen_nil. lia.
    - destruct (IH ltac:(intros; apply Hp; by right) _ _ (jobcount_Map_inv me s l (Hp me ltac:(left)) Hs)) as (l' & Hl' & E).
      exists l'. split; [done|]. rewrite E, !glen_cons. lia. }
  destruct (Hrun (fs, ∅) []) as (l & [Hnd Hr _ Hf] & Hlen).
  - constructor; cbn [fst snd]; [constructor|by intros ? ? ?%elem_of_nil|intros me; by rewrite lookup_empty|].
    intros n. cbn. rewrite elem_of_nil. split; [|done]. intros (Hn & Hs & Hx).
    rewrite Hfs in Hx; [done|]. by apply elem_of_dir_names.
  - unfold jobcount_Reduce. f_equal. rewrite glen_nil in Hlen. rewrite (countb_dir_names _ _ (λ x, jobfile x.1 x.2) l).
    + lia.
    + apply NoDup_fmap_2_strong; [|done]. intros [m c] [m' c'] H1%Hr H2%Hr Heq. cbn in Heq.
      apply jobfile_inj in Heq as [-> ->]; [done|lia..].
    + done.
Qed.
