(* ===== verification/MrObserveWitness.v ===== *)
(** * The count of parallel workers at a concrete run

    Three map workers in a directory with an old file of another name. Worker
    300 is about to return when worker 41 opens the directory and removes its
    file before the names are tested; worker 7 has crashed and its number is
    given to a process that is not a worker. Worker 41 counts all three. *)

From S2P Require Import Prelude Names GoStrings MrCoordinator MrWorker MrApps MrHarness MrObserve.

Definition read_all (pid : Z) : list PEvent :=
  [PRead pid "mr-worker-map-300"; PRead pid "mr-worker-map-7"; PRead pid "mr-worker-reduce-5"; PRead pid "mr-worker-map-41";
   PEnd pid].
Definition before_count : list PEvent :=
  [PSpawn 41; PSpawn 7; PWrite 41; PSpawn 300; PWrite 300; PWrite 7; POpen 300] ++ read_all 300 ++
  replicate 4 (PTest 300) ++ [PCrash 7].
Definition during_count : list PEvent := read_all 41 ++ [PRemove 300; PTest 41; PSpawn 7; PTest 41; PTest 41; PTest 41].
Definition np_start : PSys := mkPSys {["mr-worker-reduce-5" := "x"]} ∅ [].

Lemma nparallel_bounds_witness :
  ∃ s1 s0 s2 s3, p_run "map" before_count np_start = Ret s1 ∧ p_step "map" s1 (POpen 41) = Ret s0 ∧
    p_run "map" during_count s0 = Ret s2 ∧ p_step "map" s2 (PRemove 41) = Ret s3 ∧
    s3.(ps_log) = [(300, 3); (41, 3)] ∧ map_to_list s2.(ps_procs) = [(7, NpOutside); (41, NpTesting [] [300; 7; 41]); (300, NpOutside)] ∧
    found "map" s0 during_count 300.
Proof.
  destruct (nparallel_bounds "map" {["mr-worker-reduce-5" := "x"]} before_count during_count 41) as (s1 & E1 & H1).
  - reflexivity.
  - intros n Hin. apply elem_of_dir_names in Hin as [[x Hx%lookup_singleton_Some] _]. destruct Hx as [<- _]. reflexivity.
  - intros q Hin. cbv in Hin.
    repeat (apply elem_of_cons in Hin as [Hin|Hin]; [first [discriminate Hin|injection Hin as ->; split; [discriminate|reflexivity]]|]).
    by apply elem_of_nil in Hin.
  - reflexivity.
  - intros Hin. cbv in Hin. repeat (apply elem_of_cons in Hin as [Hin|Hin]; [discriminate Hin|]). by apply elem_of_nil in Hin.
  - intros Hin. cbv in Hin. repeat (apply elem_of_cons in Hin as [Hin|Hin]; [discriminate Hin|]). by apply elem_of_nil in Hin.
  - assert (s1 = result (p_run "map" before_count np_start) np_start) as Es1 by (unfold np_start; rewrite E1; exact eq_refl).
    destruct H1 as (s0 & E0 & s2 & E2 & H2); [rewrite Es1; vm_compute; reflexivity|].
    assert (s0 = result (p_step "map" s1 (POpen 41)) np_start) as Es0 by (rewrite E0; exact eq_refl).
    assert (s2 = result (p_run "map" during_count s0) np_start) as Es2 by (rewrite E2; exact eq_refl).
    destruct (H2 [300; 7; 41]) as ((s3 & E3 & Hlog) & _ & _ & Hfound & _); [rewrite Es2, Es0, Es1; vm_compute; reflexivity|].
    exists s1, s0, s2, s3. split; [exact E1|]. split; [exact E0|]. split; [exact E2|]. split; [exact E3|]. split.
    + rewrite Hlog, Es2, Es0, Es1. vm_compute. reflexivity.
    + split; [rewrite Es2, Es0, Es1; vm_compute; reflexivity|]. apply Hfound. by left.
Defined.
