(* ===== verification/MrWitness.v ===== *)
(** * The MapReduce theorems at a concrete job

    A word count of two files in two buckets, run by workers of which one crashes
    in the middle of a file, and a job with a worker that is given up while it
    lives, with a concrete codec and sort in place of [encoding/json] and
    [sort.Sort]. *)

From S2P Require Import Prelude Names Fnv MrCoordinator MrWorker MrSystem MrLive GoStrings MrApps MrHarness.
From Stdlib Require Import Ascii.

(** ** A codec and a sort *)

Fixpoint pos_string (p : positive) : string :=
  match p with
  | xH => ";"
  | xO p => String "0"%char (pos_string p)
  | xI p => String "1"%char (pos_string p)
  end.

Fixpoint string_pos (s : string) : option (positive * string) :=
  match s with
  | String ";"%char rest => Some (xH, rest)
  | String "0"%char s => '(p, rest) ← string_pos s; Some (xO p, rest)
  | String "1"%char s => '(p, rest) ← string_pos s; Some (xI p, rest)
  | _ => None
  end.

Lemma string_pos_string p rest : string_pos (pos_string p +:+ rest) = Some (p, rest).
Proof.
  assert (∀ c s, String c s +:+ rest = String c (s +:+ rest)) as Happ by done.
  induction p as [p IH|p IH|]; cbn [pos_string]; rewrite Happ; cbn [string_pos]; by rewrite ?IH.
Qed.

#[local] Instance kv_json : KVJson := {|
  kv_enc kv := Some (pos_string (encode kv));
  kv_dec s := '(p, rest) ← string_pos s; kv ← decode p; Some (kv, rest);
|}.

#[local] Instance kv_json_laws : KVJsonLaws (λ _, True).
Proof.
  split; [|intros kv s rest _ [= <-]|done].
  - intros kv _. eexists. split; [done|]. by destruct (encode kv).
  - cbn. rewrite string_pos_string. cbn. by rewrite decode_encode.
Qed.

Definition key_le (a b : KeyValue) : Prop := String.le a.(Key) b.(Key).
#[local] Instance key_le_dec : RelDecision key_le := λ a b, decide (String.le a.(Key) b.(Key)).
#[local] Instance key_le_trans : Transitive key_le.
Proof. intros a b c. unfold key_le. by etransitivity. Qed.
#[local] Instance key_le_total : Total key_le.
Proof. intros a b. unfold key_le. apply (total String.le). Qed.

#[local] Instance kv_sort : KVSort := merge_sort key_le.
#[local] Instance kv_sort_laws : KVSortLaws.
Proof.
  split; [apply merge_sort_Permutation|]. intros l.
  pose proof (StronglySorted_merge_sort key_le l) as Hs.
  change (merge_sort key_le l) with (sort_by_key l) in Hs.
  induction Hs as [|kv kvs _ IH Hall]; rewrite ?fmap_nil, ?fmap_cons; constructor; [done|].
  by apply Forall_fmap.
Qed.

(** ** The job *)

(** The file is one word; every file also mentions "the". *)
Definition wc_map (name content : string) : list KeyValue := [mkKV content "1"; mkKV "the" "1"].
Definition wc_reduce (_ : string) (values : list string) : string := pretty (length values).

Definition wc_inputs : list string := ["a.txt"; "b.txt"].
Definition wc_fs : FS := {["a.txt" := "cat"; "b.txt" := "dog"]}.

Lemma wc_ok : job_ok wc_map wc_reduce wc_inputs 2 wc_fs (valid := λ _, True).
Proof.
  split.
  - lia.
  - intros name. unfold wc_inputs. rewrite !elem_of_cons, elem_of_nil.
    intros [->|[->|[]]]; eexists; vm_compute; reflexivity.
  - intros name m i. unfold wc_inputs, intermediateName, outputName.
    rewrite !elem_of_cons, elem_of_nil. by intros [->|[->|[]]].
  - intros. by apply Forall_true.
  - intros key vs vs' Hp. unfold wc_reduce. by rewrite Hp.
Qed.

Definition sec : Z := 1000000000.

(** Steps of a worker, more than a task has; and its work on a task. *)
Definition steps (w : Z) (k : nat) : list MrEvent := replicate k (EvWork w 1000).
Definition does (w now : Z) : list MrEvent := EvGetTask w now :: steps w 40 ++ [EvReport w].

(** Worker 2 dies in the middle of the second map task's files, and the task
    times out; the reduce tasks overlap. *)
Definition wc_run : list MrEvent :=
  [EvGetTask 1 0; EvGetTask 2 0; EvWork 2 2; EvWork 2 2] ++ steps 2 3 ++ steps 1 7 ++ steps 2 2 ++ steps 1 40 ++
  [EvReport 1; EvWorkerCrash 2; EvCheckTimeout (20 * sec)] ++ does 1 (20 * sec) ++
  [EvGetTask 1 (21 * sec); EvGetTask 3 (21 * sec)] ++ steps 3 4 ++ steps 1 40 ++ steps 3 40 ++
  [EvReport 3; EvReport 1; EvGetTask 1 (22 * sec)].

Definition wc_go : go MrState :=
  s ← mr_init wc_inputs 2 wc_fs; mr_run wc_map wc_reduce wc_run s.

Lemma wc_done : ∃ s, wc_go = Ret s ∧ Done s.(m_coord) = true.
Proof.
  assert (match wc_go with Ret s => Done s.(m_coord) | _ => false end = true) as H
    by (vm_compute; reflexivity).
  destruct wc_go as [s| |]; try discriminate H. by exists s.
Qed.

Lemma wc_timely : job_timely wc_map wc_reduce wc_run (mr_init wc_inputs 2 wc_fs) = true.
Proof. vm_compute. reflexivity. Qed.

Lemma mapreduce_correct_witness :
  ∃ s fs' seq (outs : list (list (string * string))), wc_go = Ret s ∧ Done s.(m_coord) = true ∧
    mrsequential wc_map wc_reduce wc_inputs wc_fs = Ret fs' ∧
    fs' !! outputName 0 = Some (format_lines seq) ∧
    (∀ i ls, outs.[i] = Some ls → s.(m_fs) !! outputName i = Some (format_lines ls)) ∧
    concat outs ≡ₚ seq.
Proof.
  destruct (mapreduce_correct wc_map wc_reduce wc_inputs 2 wc_fs wc_run wc_ok wc_timely) as (s & Hs & Hd).
  change (wc_go = Ret s) in Hs. destruct wc_done as (s' & Hs' & Hdone). rewrite Hs' in Hs. injection Hs as ->.
  destruct (Hd Hdone) as (outs & seq & fs' & _ & Hout & Hseq & Hfs & Hp).
  exists s, fs', seq, outs. repeat (split; [assumption|]). assumption.
Defined.

(** ** A worker that is given up while it lives

    Worker 2 is slow with reduce task 0: it has read its input when the task
    times out, and worker 1 does the task. When the coordinator is done, worker
    2 creates its output file. *)
Definition late_run : list MrEvent :=
  does 1 0 ++ does 1 0 ++ [EvGetTask 2 0] ++ steps 2 6 ++ does 1 0 ++ [EvCheckTimeout (20 * sec)] ++
  does 1 (20 * sec) ++ [EvGetTask 1 (21 * sec)].

Definition late_result (evs : list MrEvent) : go (bool * option string) :=
  s ← mr_init wc_inputs 2 wc_fs; s ← mr_run wc_map wc_reduce evs s;
  Ret (Done s.(m_coord), s.(m_fs) !! outputName 0).

(** When the job is done the output is right; one step of the late worker later
    it is empty. *)
Lemma late_worker_truncates :
  late_result late_run = Ret (true, Some (format_lines [("the", "2")])) ∧
  late_result (late_run ++ steps 2 1) = Ret (true, Some "") ∧
  job_timely wc_map wc_reduce late_run (mr_init wc_inputs 2 wc_fs) = false.
Proof. split_and!; vm_compute; reflexivity. Qed.

(** ** Word count and index of two texts *)

Definition latin (r : Z) : bool := ((65 <=? r) && (r <=? 90)) || ((97 <=? r) && (r <=? 122)).

Definition text_fs : FS := {["a.txt" := "the cat, the end"; "b.txt" := "...the dog"]}.

Lemma text_ok mapf : inputs_ok wc_inputs 2 text_fs mapf (valid := λ _, True).
Proof.
  split; [lia|]. split; [|split].
  - intros name. unfold wc_inputs. rewrite !elem_of_cons, elem_of_nil.
    intros [->|[->|[]]]; eexists; vm_compute; reflexivity.
  - intros name m i. unfold wc_inputs, intermediateName, outputName.
    rewrite !elem_of_cons, elem_of_nil. by intros [->|[->|[]]].
  - intros. by apply Forall_true.
Qed.

Definition text_go mapf reducef : go MrState :=
  s ← mr_init wc_inputs 2 text_fs; mr_run mapf reducef wc_run s.
Definition finished (m : go MrState) : bool := match m with Ret s => Done s.(m_coord) | _ => false end.

Lemma text_timely :
  job_timely (wc_Map latin) wc_Reduce wc_run (mr_init wc_inputs 2 text_fs) = true ∧
  job_timely (indexer_Map latin elements) indexer_Reduce wc_run (mr_init wc_inputs 2 text_fs) = true.
Proof. split; vm_compute; reflexivity. Qed.

Lemma wordcount_correct_witness :
  ∃ s outs, text_go (wc_Map latin) wc_Reduce = Ret s ∧
    (∀ i ls, outs.[i] = Some ls → s.(m_fs) !! outputName i = Some (format_lines ls)) ∧
    ("the", "3") ∈ concat outs ∧ ("dog", "1") ∈ concat outs ∧ ∀ n, ("a", n) ∉ concat outs.
Proof.
  destruct (wordcount_correct latin wc_inputs 2 text_fs wc_run (text_ok _) (proj1 text_timely)) as (_ & s & Hs & Hout).
  change (text_go (wc_Map latin) wc_Reduce = Ret s) in Hs.
  assert (finished (text_go (wc_Map latin) wc_Reduce) = true) as Hfin by (vm_compute; reflexivity).
  rewrite Hs in Hfin. destruct (Hout Hfin) as (outs & _ & Hfiles & _ & Hlines).
  exists s, outs. split; [exact Hs|]. split; [exact Hfiles|].
  assert (∀ w, w ∈ all_words latin wc_inputs text_fs ↔ w ∈ ["the"; "cat"; "the"; "end"; "the"; "dog"]) as Hwords.
  { intros w. assert (all_words latin wc_inputs text_fs = ["the"; "cat"; "the"; "end"; "the"; "dog"]) as ->
      by (vm_compute; reflexivity). reflexivity. }
  split; [|split].
  - apply Hlines. split; [apply Hwords; left|vm_compute; reflexivity].
  - apply Hlines. split; [apply Hwords; do 5 right; left|vm_compute; reflexivity].
  - intros n [Hin _]%Hlines. apply Hwords, (bool_decide_pack _) in Hin. vm_compute in Hin. exact Hin.
Defined.

Lemma indexer_correct_witness :
  ∃ s outs, text_go (indexer_Map latin elements) indexer_Reduce = Ret s ∧
    (∀ i ls, outs.[i] = Some ls → s.(m_fs) !! outputName i = Some (format_lines ls)) ∧
    ("the", "2 a.txt,b.txt") ∈ concat outs ∧ ("dog", "1 b.txt") ∈ concat outs.
Proof.
  destruct (indexer_correct latin wc_inputs 2 text_fs elements wc_run (λ m, reflexivity _) (text_ok _) (proj2 text_timely))
    as (s & Hs & Hout).
  change (text_go (indexer_Map latin elements) indexer_Reduce = Ret s) in Hs.
  assert (finished (text_go (indexer_Map latin elements) indexer_Reduce) = true) as Hfin by (vm_compute; reflexivity).
  rewrite Hs in Hfin. destruct (Hout Hfin) as (outs & _ & Hfiles & _ & Hlines).
  exists s, outs. split; [exact Hs|]. split; [exact Hfiles|].
  assert (all_words latin wc_inputs text_fs = ["the"; "cat"; "the"; "end"; "the"; "dog"]) as Hwords
    by (vm_compute; reflexivity).
  split; apply Hlines; (split; [rewrite Hwords|vm_compute; reflexivity]).
  - left.
  - do 5 right. left.
Defined.

(** A coordinator whose first map task was given out long ago. *)
Definition late : Coordinator :=
  mkCoordinator wc_inputs 2 2 [mkTaskInfo TaskStatusInProgress 0; mkTaskInfo TaskStatusIdle 0]
    [mkTaskInfo TaskStatusIdle 0; mkTaskInfo TaskStatusIdle 0] PhaseMap false.

Lemma mapreduce_live_witness :
  ∃ n, (n ≤ 5)%nat ∧ returns (solo n (20 * sec) late) (λ c, Done c = true).
Proof.
  refine (mapreduce_live (20 * sec) late _ _).
  - by constructor.
  - split; intros t; cbn; rewrite !elem_of_cons, elem_of_nil; intros [->|[->|[]]]; done.
Defined.

(** ** The tests *)

(** Commands that behave as documented, on the patterns the tests use. *)
Definition is_suffix (suf s : string) : bool :=
  bool_decide (String.substring (String.length s - String.length suf) (String.length suf) s = suf).
Definition sh_match (pat name : string) : bool :=
  if bool_decide (pat = "mr-out-[0-9]") then
    match strip_prefix "mr-out-" name with Some (String c "") => is_digit c | _ => false end
  else match strip_prefix "pg" name with Some s => is_suffix "txt" s | None => false end.

#[local] Instance shell : Shell := {|
  fnmatch := sh_match;
  find_cmd names dir pat := unlines (Join dir <$> filter (λ name, sh_match pat name = true) names);
  sort_cmd contents := unlines (merge_sort String.le (contents ≫= lines));
  cmp_cmd a b := bool_decide (a = b);
|}.

#[local] Instance shell_laws : ShellLaws String.le.
Proof.
  split.
  - intros s. cbn. unfold sh_match. rewrite bool_decide_true by done. split.
    + destruct (strip_prefix "mr-out-" s) as [r|] eqn:Hs; [|done]. apply strip_prefix_Some in Hs.
      destruct r as [|c [|]]; [done| |done]. intros Hc. by exists c.
    + intros (c & Hc & ->). by rewrite strip_prefix_app.
  - intros names dir pat. by eexists.
  - apply _.
  - intros contents. eexists. split; [done|]. split; [apply merge_sort_Permutation|].
    apply StronglySorted_merge_sort; apply _.
  - intros a b. apply bool_decide_eq_true.
Qed.

Definition main_fs : FS :=
  {["../../main/pg-a.txt" := "the cat, the end"; "../../main/pg-b.txt" := "...the dog"]}.
Definition no_bytes : list Z := replicate 16 0.

