(* ===== verification/ShardCfg.v ===== *)
(** * Shard configurations: [shardkv1/shardcfg/shardcfg.go]

    The assignment of the 12 shards to groups, and its rebalancing when groups
    join and leave. [map] iterations whose order matters take the order as a
    list argument; [analyze] sorts, as the code does. [log.Fatalf] and a failed
    check are [Fatal]. *)

From S2P Require Import Prelude Fnv.

Definition NShards : Z := 12.

Definition Key2Shard (key : string) : Z := fnv32a key mod NShards.

Record ShardConfig := mkShardConfig {
  Num : Z;
  Shards : list Z;
  Groups : gmap Z (list string);
}.

#[export] Instance upd_Num : Upd Num := λ f c, mkShardConfig (f c.(Num)) c.(Shards) c.(Groups).
#[export] Instance upd_Shards : Upd Shards := λ f c, mkShardConfig c.(Num) (f c.(Shards)) c.(Groups).
#[export] Instance upd_Groups : Upd Groups := λ f c, mkShardConfig c.(Num) c.(Shards) (f c.(Groups)).

(** A fixed-size array starts with zeros. *)
Definition MakeShardConfig : ShardConfig := mkShardConfig 0 (replicate (Z.to_nat NShards) 0) ∅.

(** The servers of each group are copied into a fresh slice. *)
Definition Copy (cfg : ShardConfig) : ShardConfig :=
  map_fold (λ k srvs c, c <| Groups := <[k := srvs]> c.(Groups) |>)
    (MakeShardConfig <| Num := cfg.(Num) |> <| Shards := cfg.(Shards) |>) cfg.(Groups).

(** [counts[g]] *)
Definition count (shards : list Z) (g : Z) : Z := countb (λ x, x =? g) shards.

Record Analysis := mkAnalysis { an_mg : Z; an_mn : Z; an_lg : Z; an_ln : Z }.

Definition analyze_step (shards : list Z) (a : Analysis) (g : Z) : Analysis :=
  let n := count shards g in
  let a := if n <? a.(an_ln) then mkAnalysis a.(an_mg) a.(an_mn) g n else a in
  if a.(an_mn) <? n then mkAnalysis g n a.(an_lg) a.(an_ln) else a.

Definition sorted_gids (groups : gmap Z (list string)) : list Z :=
  merge_sort Z.le (map_to_list groups).*1.

Definition analyze (c : ShardConfig) : Analysis :=
  foldl (analyze_step c.(Shards)) (mkAnalysis (-1) (-1) (-1) 257) (sorted_gids c.(Groups)).

Definition least (c : ShardConfig) : Z := (analyze c).(an_lg).

(** [range c.Shards] iterates over a copy of the array, so [g] is the value
    before the loop. *)
Definition assign_shard (c : ShardConfig) (sg : Z * Z) : ShardConfig :=
  let '(s, g) := sg in
  match c.(Groups) !! g with
  | None => c <| Shards := <[Z.to_nat s := least c]> c.(Shards) |>
  | Some _ => c
  end.

Definition assign_unassigned (c : ShardConfig) : ShardConfig :=
  foldl assign_shard c (zip (range (glen c.(Shards))) c.(Shards)).

(** Move the first shard of [mg] to [lg]. *)
Fixpoint move_one (mg lg : Z) (shards : list Z) : list Z :=
  match shards with
  | [] => []
  | g :: shards => if g =? mg then lg :: shards else g :: move_one mg lg shards
  end.

(** The balancing loop; [None] if the fuel runs out. *)
Fixpoint balance (fuel : nat) (c : ShardConfig) : option ShardConfig :=
  match fuel with
  | O => None
  | S fuel =>
    let a := analyze c in
    if a.(an_mn) <? a.(an_ln) + 2 then Some c
    else balance fuel (c <| Shards := move_one a.(an_mg) a.(an_lg) c.(Shards) |>)
  end.

Definition balance_fuel : nat := 200.

Definition Rebalance (c : ShardConfig) : option ShardConfig :=
  if Z.of_nat (size c.(Groups)) <? 1
  then Some (c <| Shards := (λ _, 0) <$> c.(Shards) |>)
  else balance balance_fuel (assign_unassigned c).

(** [Join]: the new groups in the order the map is iterated in; a group that
    exists already ends it, with the earlier ones added. *)
Definition shares_server (groups : gmap Z (list string)) (servers : list string) : bool :=
  bool_decide (map_Exists (λ _ xservers, Exists (λ s, s ∈ servers) xservers) groups).

Fixpoint join_groups (servers : list (Z * list string)) (changed : bool) (cfg : ShardConfig) :
    go (bool * bool * ShardConfig) :=
  match servers with
  | [] => Ret (true, changed, cfg)
  | (gid, srvs) :: servers =>
    match cfg.(Groups) !! gid with
    | Some _ => Ret (false, changed, cfg)
    | None =>
      if shares_server cfg.(Groups) srvs then Fatal
      else join_groups servers true (cfg <| Groups := <[gid := srvs]> cfg.(Groups) |>)
    end
  end.

Definition Join (servers : list (Z * list string)) (cfg : ShardConfig) : go (bool * ShardConfig) :=
  r ← join_groups servers false cfg;
  let '(ok, changed, cfg) := r in
  if negb ok then Ret (false, cfg)
  else if negb changed then Fatal
  else Ret (true, cfg <| Num := cfg.(Num) + 1 |>).

Fixpoint leave_groups (gids : list Z) (changed : bool) (cfg : ShardConfig) : bool * bool * ShardConfig :=
  match gids with
  | [] => (true, changed, cfg)
  | gid :: gids =>
    match cfg.(Groups) !! gid with
    | None => (false, changed, cfg)
    | Some _ => leave_groups gids true (cfg <| Groups := delete gid cfg.(Groups) |>)
    end
  end.

Definition Leave (gids : list Z) (cfg : ShardConfig) : go (bool * ShardConfig) :=
  let '(ok, changed, cfg) := leave_groups gids false cfg in
  if negb ok then Ret (false, cfg)
  else if negb changed then Fatal
  else Ret (true, cfg <| Num := cfg.(Num) + 1 |>).

Definition and_rebalance (r : go (bool * ShardConfig)) : go (option (bool * ShardConfig)) :=
  match r with
  | Ret (false, cfg) => Ret (Some (false, cfg))
  | Ret (true, cfg) =>
      Ret (match Rebalance cfg with Some cfg => Some (true, cfg) | None => None end)
  | Panic => Panic
  | Fatal => Fatal
  end.

(** [None]: [Rebalance] did not return within its fuel. *)
Definition JoinBalance (servers : list (Z * list string)) (cfg : ShardConfig) :=
  and_rebalance (Join servers cfg).
Definition LeaveBalance (gids : list Z) (cfg : ShardConfig) := and_rebalance (Leave gids cfg).

Definition GidServers (sh : Z) (cfg : ShardConfig) : go (Z * list string * bool) :=
  gidx cfg.(Shards) sh ≫= λ gid : Z,
  match cfg.(Groups) !! gid with
  | Some srvs => Ret (gid, srvs, true)
  | None => Ret (gid, [], false)
  end.

Definition IsMember (gid : Z) (cfg : ShardConfig) : bool :=
  existsb (λ g, g =? gid) cfg.(Shards).

(** [CheckConfig]; the extremes do not depend on the map's order. *)
Definition extremes (shards : list Z) (gids : list Z) : Z * Z :=
  foldl (λ mm g, let n := count shards g in
                 (if n <? mm.1 then n else mm.1, if mm.2 <? n then n else mm.2)) (257, 0) gids.

Definition CheckConfig (groups : list Z) (cfg : ShardConfig) : go unit :=
  if negb (Z.of_nat (size cfg.(Groups)) =? glen groups) then Fatal
  else if negb (forallb (λ g, bool_decide (is_Some (cfg.(Groups) !! g))) groups) then Fatal
  else if (0 <? glen groups) &&
          negb (forallb (λ g, bool_decide (is_Some (cfg.(Groups) !! g))) cfg.(Shards)) then Fatal
  else let '(min, max) := extremes cfg.(Shards) (map_to_list cfg.(Groups)).*1 in
       if min + 1 <? max then Fatal else Ret tt.

(** ** [analyze] finds a most and a least loaded group *)

Lemma elem_of_sorted_gids groups g : g ∈ sorted_gids groups ↔ is_Some (groups !! g).
Proof.
  unfold sorted_gids. rewrite merge_sort_Permutation. rewrite list_elem_of_fmap. split.
  - intros ([k srvs] & -> & Hin%elem_of_map_to_list). by eexists.
  - intros [srvs Hg]. exists (g, srvs). split; [done|by apply elem_of_map_to_list].
Qed.

Lemma NoDup_sorted_gids groups : NoDup (sorted_gids groups).
Proof. unfold sorted_gids. rewrite merge_sort_Permutation. apply NoDup_fst_map_to_list. Qed.

Lemma count_bounds shards g : 0 ≤ count shards g ≤ glen shards.
Proof. apply countb_bounds. Qed.

(** [a] summarises the groups [gs] looked at so far. *)
Record analyzed (shards gs : list Z) (a : Analysis) : Prop := {
  az_most : (a.(an_mn) = -1 ∧ gs = []) ∨ (a.(an_mg) ∈ gs ∧ a.(an_mn) = count shards a.(an_mg));
  az_least : (a.(an_ln) = 257 ∧ gs = []) ∨ (a.(an_lg) ∈ gs ∧ a.(an_ln) = count shards a.(an_lg));
  az_max : ∀ g, g ∈ gs → count shards g ≤ a.(an_mn);
  az_min : ∀ g, g ∈ gs → a.(an_ln) ≤ count shards g;
}.

Lemma analyze_step_spec shards gs a g :
  glen shards ≤ NShards → analyzed shards gs a → analyzed shards (gs ++ [g]) (analyze_step shards a g).
Proof.
  intros Hlen [Hm Hl Hmax Hmin]. unfold NShards in Hlen. pose proof (count_bounds shards g).
  assert (∀ g', g' ∈ gs ++ [g] ↔ g' ∈ gs ∨ g' = g) as Hin
    by (intros; rewrite elem_of_app, list_elem_of_singleton; done).
  unfold analyze_step. constructor.
  - right. rewrite Hin. repeat case_if; cbn in *; try tauto; (destruct Hm as [[? ->]|[? ?]]; [lia|tauto]).
  - right. rewrite Hin. repeat case_if; cbn in *; try tauto; (destruct Hl as [[? ->]|[? ?]]; [lia|tauto]).
  - intros g' [Hg' | ->]%Hin; [specialize (Hmax g' Hg')|]; repeat case_if; cbn in *; lia.
  - intros g' [Hg' | ->]%Hin; [specialize (Hmin g' Hg')|]; repeat case_if; cbn in *; lia.
Qed.

Lemma analyze_spec c :
  glen c.(Shards) ≤ NShards → analyzed c.(Shards) (sorted_gids c.(Groups)) (analyze c).
Proof.
  intros Hlen. unfold analyze.
  assert (∀ gs gs0 a, analyzed c.(Shards) gs0 a →
    analyzed c.(Shards) (gs0 ++ gs) (foldl (analyze_step c.(Shards)) a gs)) as Hgen.
  { induction gs as [|g gs IH]; intros gs0 a Ha; cbn [foldl]; [by rewrite app_nil_r|].
    replace (gs0 ++ g :: gs) with ((gs0 ++ [g]) ++ gs) by by rewrite <-app_assoc.
    by apply IH, analyze_step_spec. }
  apply (Hgen _ []). constructor; cbn; try (by left); by intros g ?%not_elem_of_nil.
Qed.

Definition has_group (c : ShardConfig) (g : Z) : Prop := is_Some (c.(Groups) !! g).

Lemma analyze_groups c :
  glen c.(Shards) ≤ NShards → c.(Groups) ≠ ∅ →
  let a := analyze c in
  has_group c a.(an_mg) ∧ a.(an_mn) = count c.(Shards) a.(an_mg) ∧
  has_group c a.(an_lg) ∧ a.(an_ln) = count c.(Shards) a.(an_lg) ∧
  ∀ g, has_group c g → a.(an_ln) ≤ count c.(Shards) g ≤ a.(an_mn).
Proof.
  intros Hlen Hne. destruct (analyze_spec c Hlen) as [Hm Hl Hmax Hmin].
  destruct (map_choose _ Hne) as (g0 & srvs & Hg0).
  assert (g0 ∈ sorted_gids c.(Groups)) as Hg0' by (apply elem_of_sorted_gids; by eexists).
  assert (sorted_gids c.(Groups) ≠ []) as Hnil by (intros E; rewrite E in Hg0'; by apply not_elem_of_nil in Hg0').
  unfold has_group. setoid_rewrite <-elem_of_sorted_gids. split_and!; try tauto.
  intros g Hg. split; auto.
Qed.

(** ** Moving one shard *)

Lemma count_cons shards x g : count (x :: shards) g = (if x =? g then 1 else 0) + count shards g.
Proof. unfold count. by rewrite countb_cons. Qed.

Lemma glen_move_one mg lg shards : glen (move_one mg lg shards) = glen shards.
Proof.
  induction shards as [|x shards IH]; [done|]. simpl. case_if; rewrite !glen_cons; lia.
Qed.

Lemma count_move_one mg lg shards g :
  mg ≠ lg → 0 < count shards mg →
  count (move_one mg lg shards) g =
    count shards g + (if decide (g = lg) then 1 else 0) - (if decide (g = mg) then 1 else 0).
Proof.
  intros Hne. induction shards as [|x shards IH]; simpl; [done|].
  rewrite count_cons. intros Hpos. destruct (Z.eqb_spec x mg) as [->|Hx].
  - rewrite !count_cons. repeat case_decide; repeat case_if; lia.
  - rewrite !count_cons, IH by lia. repeat case_decide; repeat case_if; lia.
Qed.

Lemma elem_of_move_one mg lg shards x : x ∈ move_one mg lg shards → x = lg ∨ x ∈ shards.
Proof.
  induction shards as [|y shards IH]; simpl; [set_solver|]. case_if; set_solver.
Qed.

(** ** The sum of squares bounds the number of moves *)

Definition zsum (l : list Z) : Z := foldr Z.add 0 l.
Definition squares (shards gs : list Z) : Z := zsum ((λ g, count shards g * count shards g) <$> gs).

Lemma zsum_change (f f' : Z → Z) (gs : list Z) a b :
  NoDup gs → a ≠ b → a ∈ gs → b ∈ gs → (∀ g, g ≠ a → g ≠ b → f' g = f g) →
  zsum (f' <$> gs) = zsum (f <$> gs) + (f' a - f a) + (f' b - f b).
Proof.
  intros Hnd Hab Ha Hb Hf.
  assert (∀ gs, NoDup gs → zsum (f' <$> gs) = zsum (f <$> gs) +
    (if decide (a ∈ gs) then f' a - f a else 0) + (if decide (b ∈ gs) then f' b - f b else 0)) as Hgen.
  { clear gs Hnd Ha Hb. induction 1 as [|g gs Hni Hnd IH]; [by rewrite !decide_False by set_solver|].
    rewrite !fmap_cons. cbn. unfold zsum in *. rewrite IH.
    destruct (decide (g = a)) as [->|Hga]; [|destruct (decide (g = b)) as [->|Hgb]].
    - rewrite (decide_True (P := a ∈ a :: gs)), (decide_False (P := a ∈ gs)) by (done || left).
      rewrite (decide_ext (b ∈ a :: gs) (b ∈ gs)) by (rewrite elem_of_cons; naive_solver). lia.
    - rewrite (decide_True (P := b ∈ b :: gs)), (decide_False (P := b ∈ gs)) by (done || left).
      rewrite (decide_ext (a ∈ b :: gs) (a ∈ gs)) by (rewrite elem_of_cons; naive_solver). lia.
    - rewrite (decide_ext (a ∈ g :: gs) (a ∈ gs)), (decide_ext (b ∈ g :: gs) (b ∈ gs))
        by (rewrite elem_of_cons; naive_solver).
      rewrite (Hf g) by done. lia. }
  rewrite Hgen by done. rewrite !decide_True by done. done.
Qed.

Lemma squares_move shards gs mg lg :
  NoDup gs → mg ∈ gs → lg ∈ gs → count shards lg + 2 ≤ count shards mg →
  squares (move_one mg lg shards) gs ≤ squares shards gs - 2.
Proof.
  intros Hnd Hm Hl Hlt. assert (mg ≠ lg) as Hne by (intros ->; lia).
  pose proof (count_bounds shards lg) as Hb.
  unfold squares. rewrite (zsum_change (λ g, count shards g * count shards g) _ gs mg lg); try done.
  - rewrite !count_move_one by lia || done.
    rewrite (decide_False (P := mg = lg)), !decide_True, (decide_False (P := lg = mg)) by congruence. nia.
  - intros g ? ?. cbn. rewrite count_move_one by lia || done. rewrite !decide_False by done. f_equal; lia.
Qed.

Lemma squares_nonneg shards gs : 0 ≤ squares shards gs.
Proof.
  unfold squares. induction gs as [|g gs IH]; [done|]. cbn. unfold zsum in *. nia.
Qed.

Lemma counts_cons x shards gs :
  NoDup gs → zsum (count (x :: shards) <$> gs) = zsum (count shards <$> gs) + if decide (x ∈ gs) then 1 else 0.
Proof.
  induction 1 as [|g gs Hni Hnd IH]; [by rewrite decide_False by set_solver|].
  rewrite !fmap_cons. cbn. unfold zsum in *. rewrite IH, count_cons.
  assert (x ∈ g :: gs ↔ x = g ∨ x ∈ gs) as Hin by apply elem_of_cons.
  destruct (Z.eqb_spec x g) as [->|]; repeat case_decide; tauto || lia.
Qed.

Lemma counts_nil gs : zsum (count [] <$> gs) = 0.
Proof. induction gs as [|g gs IH]; [done|]. cbn in *. unfold zsum in IH. by rewrite IH. Qed.

Lemma counts_sum shards gs : NoDup gs → zsum (count shards <$> gs) ≤ glen shards.
Proof.
  intros Hnd. induction shards as [|x shards IH]; [by rewrite counts_nil|].
  rewrite glen_cons, counts_cons by done. case_decide; lia.
Qed.

Lemma counts_sum_all shards gs :
  NoDup gs → (∀ g, g ∈ shards → g ∈ gs) → zsum (count shards <$> gs) = glen shards.
Proof.
  intros Hnd. induction shards as [|x shards IH]; intros Hin; [by rewrite counts_nil|].
  rewrite glen_cons, counts_cons, decide_True by (done || apply Hin; left).
  rewrite IH; [lia|]. intros. apply Hin. by right.
Qed.

Lemma squares_bound shards gs : NoDup gs → squares shards gs ≤ glen shards * glen shards.
Proof.
  intros Hnd. pose proof (counts_sum shards gs Hnd) as Hsum. pose proof (glen_nonneg shards) as H0.
  assert (squares shards gs ≤ glen shards * zsum (count shards <$> gs)) as Hle; [|nia].
  clear. unfold squares, zsum. induction gs as [|g gs IH]; cbn in *; [lia|].
  pose proof (count_bounds shards g). nia.
Qed.

(** ** [Rebalance] *)

Definition all_assigned (c : ShardConfig) : Prop := ∀ g, g ∈ c.(Shards) → has_group c g.
Definition balanced (c : ShardConfig) : Prop :=
  ∀ g g', has_group c g → has_group c g' → count c.(Shards) g ≤ count c.(Shards) g' + 1.

Lemma least_has_group c : glen c.(Shards) ≤ NShards → c.(Groups) ≠ ∅ → has_group c (least c).
Proof. intros Hlen Hne. by destruct (analyze_groups c Hlen Hne) as (_ & _ & ? & _). Qed.

Lemma insert_at_length {A} (pre l : list A) k (x y : A) :
  glen pre = k → <[Z.to_nat k := y]> (pre ++ x :: l) = pre ++ y :: l.
Proof.
  unfold glen. intros <-. rewrite Nat2Z.id.
  rewrite insert_app_r_alt by lia. by rewrite Nat.sub_diag.
Qed.

Lemma assign_fold l : ∀ pre c k,
  c.(Groups) ≠ ∅ → glen pre = k → c.(Shards) = pre ++ l → glen c.(Shards) ≤ NShards →
  (∀ g, g ∈ pre → has_group c g) →
  ∃ shards, foldl assign_shard c (zip (seqZ k (glen l)) l) = c <| Shards := shards |> ∧
    glen shards = glen c.(Shards) ∧ (∀ g, g ∈ shards → has_group c g) ∧
    (∀ i g, c.(Shards).[i] = Some g → has_group c g → shards.[i] = Some g).
Proof.
  induction l as [|g l IH]; intros pre c k Hne Hk Hsh Hlen Hpre.
  { exists c.(Shards). split_and!; [by destruct c|done| |done].
    rewrite Hsh, app_nil_r. done. }
  rewrite glen_cons, seqZ_cons by (pose proof (glen_nonneg l); lia).
  replace (Z.pred (1 + glen l)) with (glen l) by lia. cbn [zip zip_with foldl].
  set (g' := match c.(Groups) !! g with None => least c | Some _ => g end).
  assert (assign_shard c (k, g) = c <| Shards := pre ++ g' :: l |>) as Ec.
  { unfold assign_shard, g'. destruct (c.(Groups) !! g) eqn:E.
    - rewrite <-Hsh. by destruct c.
    - by rewrite Hsh, (insert_at_length pre l k) by done. }
  assert (has_group c g') as Hg'.
  { unfold g'. destruct (c.(Groups) !! g) eqn:E; [by eexists|by apply least_has_group]. }
  rewrite Ec. destruct (IH (pre ++ [g']) (c <| Shards := pre ++ g' :: l |>) (Z.succ k))
    as (shards & -> & Hl & Hall & Hkeep).
  - done.
  - rewrite glen_app, glen_cons, glen_nil. lia.
  - cbn. by rewrite <-app_assoc.
  - cbn. rewrite Hsh in Hlen. by rewrite glen_app, glen_cons in *.
  - intros x [Hx|Hx]%elem_of_app; [by apply Hpre|].
    apply list_elem_of_singleton in Hx as ->. exact Hg'.
  - exists shards. split_and!; [done| |done|].
    + rewrite Hl, Hsh. cbn. by rewrite !glen_app, !glen_cons.
    + intros i x Hi Hx. apply Hkeep; [|done]. cbn. rewrite Hsh in Hi. revert Hi.
      destruct (Z.lt_ge_cases i k); [by rewrite !zlookup_app_l by lia|].
      rewrite !zlookup_app_r by lia. destruct (Z.eq_dec i k) as [->|].
      * replace (k - glen pre) with 0 by lia. rewrite !zlookup_cons_0. intros [= ->].
        unfold g'. destruct Hx as [srvs Hx]. by rewrite Hx.
      * by rewrite !zlookup_cons_pos by lia.
Qed.

Lemma assign_unassigned_spec c :
  c.(Groups) ≠ ∅ → glen c.(Shards) = NShards →
  ∃ shards, assign_unassigned c = c <| Shards := shards |> ∧
    glen shards = NShards ∧ (∀ g, g ∈ shards → has_group c g) ∧
    (∀ i g, c.(Shards).[i] = Some g → has_group c g → shards.[i] = Some g).
Proof.
  intros Hne Hlen. destruct (assign_fold c.(Shards) [] c 0) as (shards & Hf & Hl & Hrest);
    [done|done|done|lia|by intros ? ?%not_elem_of_nil|].
  exists shards. split; [exact Hf|]. split; [lia|done].
Qed.

Lemma balance_spec fuel : ∀ c,
  c.(Groups) ≠ ∅ → glen c.(Shards) = NShards → all_assigned c →
  squares c.(Shards) (sorted_gids c.(Groups)) < 2 * Z.of_nat fuel →
  ∃ shards, balance fuel c = Some (c <| Shards := shards |>) ∧
    glen shards = NShards ∧ all_assigned (c <| Shards := shards |>) ∧ balanced (c <| Shards := shards |>).
Proof.
  induction fuel as [|fuel IH]; intros c Hne Hlen Hall Hfuel.
  { pose proof (squares_nonneg c.(Shards) (sorted_gids c.(Groups))). lia. }
  destruct (analyze_groups c) as (Hmg & Hmn & Hlg & Hln & Hext); [lia|done|].
  cbn [balance]. set (a := analyze c) in *. case_if.
  - exists c.(Shards). split; [by destruct c|]. split; [done|]. split; [done|].
    intros g g' Hg Hg'. cbn. pose proof (Hext g Hg). pose proof (Hext g' Hg'). lia.
  - assert (squares (move_one (an_mg a) (an_lg a) c.(Shards)) (sorted_gids c.(Groups)) ≤
      squares c.(Shards) (sorted_gids c.(Groups)) - 2) as Hsq.
    { apply squares_move; [apply NoDup_sorted_gids|by apply elem_of_sorted_gids..|lia]. }
    destruct (IH (c <| Shards := move_one (an_mg a) (an_lg a) c.(Shards) |>)) as (shards & -> & Hrest).
    + done.
    + cbn. by rewrite glen_move_one.
    + intros g [->|Hg]%elem_of_move_one; [done|by apply Hall].
    + cbn. lia.
    + exists shards. exact (conj eq_refl Hrest).
Qed.

Lemma size_lt_1 (m : gmap Z (list string)) : Z.of_nat (size m) <? 1 = bool_decide (m = ∅).
Proof.
  case_bool_decide as E.
  - by rewrite E, map_size_empty.
  - apply Z.ltb_ge.
    assert (size m ≠ 0%nat) by (by rewrite map_size_empty_iff). lia.
Qed.

Lemma Rebalance_result c :
  glen c.(Shards) = NShards →
  ∃ shards, Rebalance c = Some (c <| Shards := shards |>) ∧ glen shards = NShards ∧
    (c.(Groups) = ∅ → shards = replicate (Z.to_nat NShards) 0) ∧
    (c.(Groups) ≠ ∅ → all_assigned (c <| Shards := shards |>) ∧ balanced (c <| Shards := shards |>)).
Proof.
  intros Hlen. unfold Rebalance. rewrite size_lt_1. case_bool_decide as He.
  - exists ((λ _, 0) <$> c.(Shards)). split; [done|].
    split; [by rewrite glen_fmap|]. split; [|done]. intros _.
    rewrite <-Hlen. clear. unfold glen. rewrite Nat2Z.id. induction c.(Shards) as [|x l IH]; [done|].
    rewrite fmap_cons, IH. done.
  - destruct (assign_unassigned_spec c) as (shards & -> & Hl & Hall & _); [done|done|].
    destruct (balance_spec balance_fuel (c <| Shards := shards |>)) as (shards' & -> & Hl' & Ha & Hb);
      [done|done|done| |by exists shards'].
    cbn. pose proof (squares_bound shards (sorted_gids c.(Groups)) (NoDup_sorted_gids _)) as Hsq.
    rewrite Hl in Hsq. unfold NShards, balance_fuel in *. lia.
Qed.

(** [Rebalance] moves nothing that need not move: a configuration whose
    shards are all assigned and whose groups are balanced is left as it is, and
    while unassigned shards are given out the others keep their groups. *)
Theorem Rebalance_stable c :
  glen c.(Shards) = NShards → c.(Groups) ≠ ∅ →
  (all_assigned c → balanced c → Rebalance c = Some c) ∧
  (∀ i g, c.(Shards).[i] = Some g → has_group c g → (assign_unassigned c).(Shards).[i] = Some g).
Proof.
  intros Hlen Hne. destruct (assign_unassigned_spec c Hne Hlen) as (shards & E & Hl & _ & Hkeep).
  split; [|by rewrite E]. intros Hall Hbal.
  assert (assign_unassigned c = c) as Eq.
  { rewrite E. assert (shards = c.(Shards)) as ->; [|by destruct c].
    apply list_eq_zlookup. intros i Hi. destruct (c.(Shards).[i]) as [g|] eqn:Eg.
    - apply Hkeep; [done|]. apply Hall, zlookup_elem_of. by exists i.
    - apply zlookup_None in Eg. apply zlookup_None. lia. }
  unfold Rebalance. rewrite size_lt_1, bool_decide_false, Eq by done.
  change balance_fuel with (S 199). generalize 199%nat as fuel. intros fuel. cbn [balance]. destruct (analyze_groups c) as (Hmg & Hmn & Hlg & Hln & _); [lia|done|].
  specialize (Hbal _ _ Hmg Hlg). case_if; [done|lia].
Qed.

(** ** [CheckConfig] *)

Lemma extremes_spec shards gids : ∀ mn mx,
  let '(mn', mx') := foldl (λ mm g, let n := count shards g in
    (if n <? mm.1 then n else mm.1, if mm.2 <? n then n else mm.2)) (mn, mx) gids in
  (mn' = mn ∨ ∃ g, g ∈ gids ∧ mn' = count shards g) ∧ (∀ g, g ∈ gids → mn' ≤ count shards g) ∧ mn' ≤ mn ∧
  (mx' = mx ∨ ∃ g, g ∈ gids ∧ mx' = count shards g) ∧ (∀ g, g ∈ gids → count shards g ≤ mx') ∧ mx ≤ mx'.
Proof.
  induction gids as [|g gids IH]; intros mn mx; cbn [foldl].
  { split_and!; auto; try lia; by intros ? ?%not_elem_of_nil. }
  cbn [fst snd]. set (mn1 := if count shards g <? mn then _ else _).
  set (mx1 := if mx <? count shards g then _ else _). specialize (IH mn1 mx1).
  destruct (foldl _ _ gids) as [mn' mx']. destruct IH as (H1 & H2 & H3 & H4 & H5 & H6).
  assert (mn1 ≤ mn ∧ mn1 ≤ count shards g ∧ (mn1 = mn ∨ mn1 = count shards g)) as (?&?&?)
    by (unfold mn1; case_if; lia).
  assert (mx ≤ mx1 ∧ count shards g ≤ mx1 ∧ (mx1 = mx ∨ mx1 = count shards g)) as (?&?&?)
    by (unfold mx1; case_if; lia).
  split_and!; try lia.
  - destruct H1 as [->|(x & ? & ?)]; [destruct (decide (mn1 = mn)); [by left|]|];
      right; [exists g; split; [left|lia]|exists x; split; [by right|done]].
  - intros x [->|Hx]%elem_of_cons; [lia|by apply H2].
  - destruct H4 as [->|(x & ? & ?)]; [destruct (decide (mx1 = mx)); [by left|]|];
      right; [exists g; split; [left|lia]|exists x; split; [by right|done]].
  - intros x [->|Hx]%elem_of_cons; [lia|by apply H5].
Qed.

Lemma elem_of_gids (m : gmap Z (list string)) g : g ∈ (map_to_list m).*1 ↔ is_Some (m !! g).
Proof. rewrite <-elem_of_sorted_gids. unfold sorted_gids. by rewrite merge_sort_Permutation. Qed.

Lemma extremes_balanced c :
  glen c.(Shards) = NShards →
  (let '(mn, mx) := extremes c.(Shards) (map_to_list c.(Groups)).*1 in mx ≤ mn + 1) ↔ balanced c.
Proof.
  intros Hlen. unfold extremes. pose proof (extremes_spec c.(Shards) (map_to_list c.(Groups)).*1 257 0) as H.
  destruct (foldl _ _ _) as [mn mx]. destruct H as (H1 & H2 & H3 & H4 & H5 & H6).
  pose proof (λ g, count_bounds c.(Shards) g) as Hb. unfold NShards in Hlen. split.
  - intros Hle g g' Hg%elem_of_gids Hg'%elem_of_gids. pose proof (H2 _ Hg'). pose proof (H5 _ Hg). lia.
  - intros Hbal. destruct H4 as [->|(g & Hg%elem_of_gids & ->)].
    + destruct H1 as [->|(g & Hg & ->)]; [lia|]. pose proof (Hb g). lia.
    + destruct H1 as [->|(g' & Hg'%elem_of_gids & ->)]; [pose proof (Hb g); lia|by apply Hbal].
Qed.

Lemma forallb_has_group c gs :
  forallb (λ g, bool_decide (is_Some (c.(Groups) !! g))) gs = true ↔ ∀ g, g ∈ gs → has_group c g.
Proof.
  rewrite forallb_forall. setoid_rewrite <-list_elem_of_In. unfold has_group.
  split; intros H g Hg; specialize (H g Hg); [by apply bool_decide_eq_true in H|by apply bool_decide_eq_true].
Qed.

Lemma CheckConfig_Ret groups c :
  glen c.(Shards) = NShards →
  CheckConfig groups c = Ret tt ↔
    Z.of_nat (size c.(Groups)) = glen groups ∧ (∀ g, g ∈ groups → has_group c g) ∧
    (groups ≠ [] → all_assigned c) ∧ balanced c.
Proof.
  intros Hlen. rewrite <-(extremes_balanced c Hlen), <-(forallb_has_group c groups).
  unfold all_assigned. rewrite <-(forallb_has_group c c.(Shards)). unfold CheckConfig.
  destruct (Z.eqb_spec (Z.of_nat (size c.(Groups))) (glen groups)); cbn [negb];
    [|by split; [|intros (? & _)]].
  destruct (forallb _ groups); cbn [negb]; [|by split; [|intros (_ & ? & _)]].
  assert (0 <? glen groups = bool_decide (groups ≠ [])) as ->.
  { case_bool_decide as E; [|by rewrite E]. apply Z.ltb_lt.
    destruct groups; [done|]. rewrite glen_cons. pose proof (glen_nonneg groups). lia. }
  case_bool_decide as E; cbn [andb].
  - destruct (forallb _ c.(Shards)); cbn [negb];
      [|by split; [|intros (_ & _ & H & _); specialize (H E)]].
    destruct (extremes _ _) as [mn mx]. destruct (Z.ltb_spec (mn + 1) mx).
    + split; [done|lia].
    + split; [intros _; by split_and!|done].
  - destruct (extremes _ _) as [mn mx]. destruct (Z.ltb_spec (mn + 1) mx).
    + split; [done|lia].
    + split; [intros _; by split_and!|done].
Qed.

Lemma size_gids (m : gmap Z (list string)) gids :
  NoDup gids → (∀ g, g ∈ gids ↔ is_Some (m !! g)) → Z.of_nat (size m) = glen gids.
Proof.
  intros Hnd Hin. rewrite <-length_map_to_list. unfold glen.
  rewrite <-(length_fmap fst). f_equal. apply Permutation_length, NoDup_Permutation;
    [apply NoDup_fst_map_to_list|done|]. intros g. by rewrite elem_of_gids.
Qed.

Lemma Rebalance_check c gids :
  glen c.(Shards) = NShards → NoDup gids → (∀ g, g ∈ gids ↔ has_group c g) →
  ∃ shards, Rebalance c = Some (c <| Shards := shards |>) ∧ glen shards = NShards ∧
    CheckConfig gids (c <| Shards := shards |>) = Ret tt ∧
    (gids = [] → shards = replicate (Z.to_nat NShards) 0).
Proof.
  intros Hlen Hnd Hin. destruct (Rebalance_result c Hlen) as (shards & E & Hl & He & Hne).
  exists shards. split; [done|]. split; [done|].
  destruct (decide (c.(Groups) = ∅)) as [Hem|Hem].
  - assert (gids = []) as ->.
    { destruct gids as [|g gids]; [done|].
      destruct (proj1 (Hin g) ltac:(left)) as [? Hg]. by rewrite Hem, lookup_empty in Hg. }
    split; [|by intros _; apply He]. apply CheckConfig_Ret; [done|].
    split; [by apply size_gids|]. split; [by intros ? ?%not_elem_of_nil|]. split; [by intros []|].
    intros g g' Hg. apply Hin in Hg. by apply not_elem_of_nil in Hg.
  - destruct (Hne Hem) as [Hall Hbal]. split.
    + apply CheckConfig_Ret; [done|]. split; [by apply size_gids|].
      split; [by intros; apply Hin|by split].
    + intros ->. destruct (map_choose _ Hem) as (g & srvs & Hg).
      assert (g ∈ []) as []%not_elem_of_nil by (apply Hin; by eexists).
Qed.

(** C24. [Rebalance] always returns. It changes only [Shards]; with no groups
    every shard is un-assigned (0); otherwise every shard belongs to a group of
    the configuration and the loads differ by at most one: the result passes
    [CheckConfig] against exactly the groups of the configuration. *)
Theorem Rebalance_spec c gids :
  glen c.(Shards) = NShards → NoDup gids → (∀ g, g ∈ gids ↔ is_Some (c.(Groups) !! g)) →
  ∃ c', Rebalance c = Some c' ∧ c'.(Num) = c.(Num) ∧ c'.(Groups) = c.(Groups) ∧
    glen c'.(Shards) = NShards ∧ CheckConfig gids c' = Ret tt ∧
    (gids = [] → c'.(Shards) = replicate (Z.to_nat NShards) 0).
Proof.
  intros Hlen Hnd Hin. destruct (Rebalance_check c gids Hlen Hnd Hin) as (shards & E & ? & ? & ?).
  by exists (c <| Shards := shards |>).
Qed.

(** ** [Join] and [Leave] *)

(** The groups of a [Join] are new, and share no server with a group of the
    configuration or with each other. *)
Record new_groups (servers : list (Z * list string)) (groups : gmap Z (list string)) : Prop := {
  ng_nodup : NoDup servers.*1;
  ng_new : ∀ gid srvs, (gid, srvs) ∈ servers → groups !! gid = None;
  ng_old : ∀ gid srvs xgid xsrvs s, (gid, srvs) ∈ servers → groups !! xgid = Some xsrvs →
    s ∈ xsrvs → s ∉ srvs;
  ng_each : ∀ gid srvs xgid xsrvs s, (gid, srvs) ∈ servers → (xgid, xsrvs) ∈ servers → gid ≠ xgid →
    s ∈ xsrvs → s ∉ srvs;
}.

Lemma shares_server_false groups srvs :
  (∀ xgid xsrvs s, groups !! xgid = Some xsrvs → s ∈ xsrvs → s ∉ srvs) →
  shares_server groups srvs = false.
Proof.
  intros H. unfold shares_server. apply bool_decide_eq_false.
  intros (xgid & xsrvs & Hx & (s & Hs & Hin)%Exists_exists). by apply (H xgid xsrvs s).
Qed.

Lemma join_groups_app servers rest : ∀ changed cfg,
  new_groups servers cfg.(Groups) →
  join_groups (servers ++ rest) changed cfg =
    join_groups rest (changed || negb (bool_decide (servers = [])))
      (cfg <| Groups := list_to_map servers ∪ cfg.(Groups) |>).
Proof.
  induction servers as [|[gid srvs] servers IH]; intros changed cfg Hng.
  { cbn [app list_to_map foldr]. rewrite bool_decide_true by done. rewrite orb_false_r.
    f_equal. cbn. rewrite (left_id_L ∅ (∪)). by destruct cfg. }
  destruct Hng as [Hnd Hnew Hold Heach].
  rewrite fmap_cons in Hnd. apply NoDup_cons in Hnd as [Hni Hnd].
  cbn [app join_groups]. rewrite (Hnew gid srvs) by left.
  rewrite shares_server_false by (intros xgid xsrvs s; apply (Hold gid srvs); left).
  rewrite IH.
  - rewrite (bool_decide_false ((gid, srvs) :: servers = [])) by done. rewrite orb_true_r. cbn [negb orb].
    assert (list_to_map servers ∪ <[gid := srvs]> cfg.(Groups) =
            list_to_map ((gid, srvs) :: servers) ∪ cfg.(Groups)) as <-; [|done].
    cbn. rewrite <-insert_union_l, insert_union_r; [done|]. by apply not_elem_of_list_to_map.
  - assert (∀ g s, (g, s) ∈ servers → g ≠ gid) as Hneq.
    { intros g s Hg ->. apply Hni, list_elem_of_fmap. by exists (gid, s). }
    constructor; cbn; [done| | |].
    + intros g s Hg. rewrite lookup_insert_ne by (apply not_eq_sym; by eapply Hneq).
      apply (Hnew g s). by right.
    + intros g s xg xs y Hg. destruct (decide (gid = xg)) as [->|].
      * rewrite lookup_insert_eq. intros [= <-]. apply (Heach g s xg srvs); [by right|left|by eapply Hneq].
      * rewrite lookup_insert_ne by done. apply (Hold g s xg xs). by right.
    + intros g s xg xs y Hg Hxg. apply (Heach g s xg xs); by right.
Qed.

Lemma Join_new servers cfg :
  servers ≠ [] → new_groups servers cfg.(Groups) →
  Join servers cfg =
    Ret (true, cfg <| Groups := list_to_map servers ∪ cfg.(Groups) |> <| Num := cfg.(Num) + 1 |>).
Proof.
  intros Hne Hng. unfold Join. rewrite <-(app_nil_r servers) at 1.
  rewrite join_groups_app by done. rewrite bool_decide_false by done. done.
Qed.

Lemma Join_Permutation servers servers' cfg :
  servers ≠ [] → new_groups servers cfg.(Groups) → servers' ≡ₚ servers →
  Join servers' cfg = Join servers cfg.
Proof.
  intros Hne Hng Hp. assert (new_groups servers' cfg.(Groups)) as Hng'.
  { destruct Hng as [H1 H2 H3 H4]. constructor.
    - by rewrite Hp.
    - intros g s. rewrite Hp. apply H2.
    - intros g s xg xs y. rewrite Hp. apply H3.
    - intros g s xg xs y. rewrite !Hp. apply H4. }
  rewrite !Join_new; [|done|done|by intros ->; apply Permutation_nil_l in Hp; done|done].
  by rewrite (list_to_map_proper servers' servers (ng_nodup _ _ Hng') Hp).
Qed.

Lemma list_to_map_is_Some (servers : list (Z * list string)) g :
  is_Some ((list_to_map servers : gmap Z (list string)) !! g) ↔ g ∈ servers.*1.
Proof.
  destruct (decide (g ∈ servers.*1)) as [H|H].
  - split; [done|]. intros _. rewrite <-not_eq_None_Some. intros E.
    by apply not_elem_of_list_to_map in E.
  - split; [|done]. apply not_elem_of_list_to_map in H as ->. by intros [].
Qed.

(** [JoinBalance] of new groups with servers of their own succeeds: the
    configuration number grows by one, the groups are added (whatever the order
    in which the map of new groups is iterated), and the result passes
    [CheckConfig] against the old and new groups. *)
Theorem JoinBalance_spec servers cfg gids :
  servers ≠ [] → new_groups servers cfg.(Groups) → glen cfg.(Shards) = NShards →
  NoDup gids → (∀ g, g ∈ gids ↔ g ∈ servers.*1 ∨ is_Some (cfg.(Groups) !! g)) →
  ∃ cfg', JoinBalance servers cfg = Ret (Some (true, cfg')) ∧ cfg'.(Num) = cfg.(Num) + 1 ∧
    cfg'.(Groups) = list_to_map servers ∪ cfg.(Groups) ∧ glen cfg'.(Shards) = NShards ∧
    CheckConfig gids cfg' = Ret tt ∧
    (∀ servers', servers' ≡ₚ servers → JoinBalance servers' cfg = JoinBalance servers cfg).
Proof.
  intros Hne Hng Hlen Hnd Hin.
  assert (∀ servers', servers' ≡ₚ servers → Join servers' cfg = Join servers cfg) as Hperm
    by (intros servers' Hp; by apply Join_Permutation).
  unfold JoinBalance.
  destruct (Rebalance_check (cfg <| Groups := list_to_map servers ∪ cfg.(Groups) |> <| Num := cfg.(Num) + 1 |>) gids)
    as (shards & E & Hl & Hc & _); [done|done| |].
  { intros g. rewrite Hin. unfold has_group. cbn. rewrite lookup_union_is_Some.
    by rewrite list_to_map_is_Some. }
  eexists. split_and!; [by rewrite Join_new by done; cbn [and_rebalance]; rewrite E|done..|].
  intros servers' Hp. by rewrite Hperm.
Qed.

(** Re-joining an existing group makes [Join] return false, but
    the groups it had already added stay in the configuration, and its number
    does not change. Which groups were added depends on the map's iteration
    order. *)
Theorem Join_rejoin servers gid srvs rest cfg :
  new_groups servers cfg.(Groups) → is_Some (cfg.(Groups) !! gid) → servers ≠ [] →
  JoinBalance (servers ++ (gid, srvs) :: rest) cfg =
    Ret (Some (false, cfg <| Groups := list_to_map servers ∪ cfg.(Groups) |>)) ∧
  JoinBalance ((gid, srvs) :: servers ++ rest) cfg = Ret (Some (false, cfg)) ∧
  list_to_map servers ∪ cfg.(Groups) ≠ cfg.(Groups).
Proof.
  intros Hng Hgid Hne. split; [|split].
  - unfold JoinBalance, Join. rewrite join_groups_app by done. cbn [join_groups].
    assert (is_Some ((list_to_map servers ∪ cfg.(Groups)) !! gid)) as [? Hs]
      by (apply lookup_union_is_Some; by right).
    cbn. rewrite Hs. done.
  - unfold JoinBalance, Join. cbn [join_groups]. destruct Hgid as [? ->]. done.
  - destruct servers as [|[g s] servers]; [done|]. intros Eq.
    assert (is_Some (cfg.(Groups) !! g)) as [? Hg].
    { rewrite <-Eq. apply lookup_union_is_Some. left. cbn. rewrite lookup_insert_eq. by eexists. }
    rewrite (ng_new _ _ Hng g s) in Hg by left. done.
Qed.

Lemma leave_groups_all gids : ∀ changed cfg,
  NoDup gids → (∀ g, g ∈ gids → has_group cfg g) →
  leave_groups gids changed cfg =
    (true, changed || negb (bool_decide (gids = [])),
     cfg <| Groups := filter (λ kv, kv.1 ∉ gids) cfg.(Groups) |>).
Proof.
  induction gids as [|g gids IH]; intros changed cfg Hnd Hin.
  { cbn [leave_groups]. rewrite bool_decide_true, orb_false_r by done. f_equal.
    assert (filter (λ kv, kv.1 ∉ []) cfg.(Groups) = cfg.(Groups)) as ->; [|by destruct cfg].
    apply map_filter_id. intros ? ? _. apply not_elem_of_nil. }
  apply NoDup_cons in Hnd as [Hni Hnd]. cbn [leave_groups].
  destruct (Hin g ltac:(left)) as [srvs ->]. rewrite IH; [|done|].
  - rewrite (bool_decide_false (g :: gids = [])) by done. rewrite orb_true_r. cbn [negb orb].
    assert (filter (λ kv, kv.1 ∉ gids) (delete g cfg.(Groups)) =
            filter (λ kv, kv.1 ∉ g :: gids) cfg.(Groups)) as <-; [|done].
    apply map_eq. intros k.
    rewrite !map_lookup_filter, lookup_delete. case_decide as Ek; cbn.
    + subst k. destruct (cfg.(Groups) !! g) as [x|]; [|done]. cbn.
      rewrite option_guard_False; [done|]. intros Hk. apply Hk. left.
    + destruct (cfg.(Groups) !! k) as [x|]; [|done]. cbn.
      assert (k ∉ gids ↔ k ∉ g :: gids) as Hiff by (rewrite elem_of_cons; naive_solver).
      repeat case_guard; naive_solver.
  - intros g' Hg'. unfold has_group. cbn. rewrite lookup_delete_ne by set_solver.
    apply Hin. by right.
Qed.

Lemma leave_groups_prefix gids g rest : ∀ changed cfg,
  NoDup gids → (∀ x, x ∈ gids → has_group cfg x) → cfg.(Groups) !! g = None →
  leave_groups (gids ++ g :: rest) changed cfg =
    (false, changed || negb (bool_decide (gids = [])),
     cfg <| Groups := filter (λ kv, kv.1 ∉ gids) cfg.(Groups) |>).
Proof.
  intros changed cfg Hnd Hin Hg. assert (∀ gids changed cfg r c,
    leave_groups gids changed cfg = (true, r, c) →
    leave_groups (gids ++ g :: rest) changed cfg = leave_groups (g :: rest) r c) as Happ.
  { clear. induction gids as [|x gids IH]; intros changed cfg r c; cbn [app leave_groups].
    - by intros [= -> ->].
    - destruct (cfg.(Groups) !! x); [apply IH|done]. }
  erewrite Happ by by apply leave_groups_all. cbn [leave_groups]. cbn.
  rewrite map_lookup_filter, Hg. done.
Qed.

(** [LeaveBalance] of groups of the configuration succeeds: the number
    grows by one, exactly those groups go, and the result passes [CheckConfig]
    against the remaining groups (all shards un-assigned if none remain). If
    one of the groups is not in the configuration the call returns false, with
    the groups before it gone and the number unchanged (finding). *)
Theorem LeaveBalance_spec gids cfg left_ :
  gids ≠ [] → NoDup gids → (∀ g, g ∈ gids → is_Some (cfg.(Groups) !! g)) → glen cfg.(Shards) = NShards →
  NoDup left_ → (∀ g, g ∈ left_ ↔ g ∉ gids ∧ is_Some (cfg.(Groups) !! g)) →
  (∃ cfg', LeaveBalance gids cfg = Ret (Some (true, cfg')) ∧ cfg'.(Num) = cfg.(Num) + 1 ∧
    cfg'.(Groups) = filter (λ kv, kv.1 ∉ gids) cfg.(Groups) ∧ glen cfg'.(Shards) = NShards ∧
    CheckConfig left_ cfg' = Ret tt ∧
    (left_ = [] → cfg'.(Shards) = replicate (Z.to_nat NShards) 0)) ∧
  (∀ g rest, cfg.(Groups) !! g = None →
    LeaveBalance (gids ++ g :: rest) cfg =
      Ret (Some (false, cfg <| Groups := filter (λ kv, kv.1 ∉ gids) cfg.(Groups) |>))).
Proof.
  intros Hne Hnd Hin Hlen Hnd' Hleft. split.
  - unfold LeaveBalance, Leave. rewrite leave_groups_all by done.
    rewrite bool_decide_false by done. cbn [orb negb and_rebalance].
    destruct (Rebalance_check (cfg <| Groups := filter (λ kv, kv.1 ∉ gids) cfg.(Groups) |>
        <| Num := cfg.(Num) + 1 |>) left_) as (shards & E & Hl & Hc & H0); [done|done| |].
    + intros g. rewrite Hleft. unfold has_group. cbn. rewrite map_lookup_filter.
      destruct (cfg.(Groups) !! g) as [x|]; cbn; [|split; [by intros [_ []]|by intros []]].
      case_guard; naive_solver.
    + cbn in E |- *. rewrite E. eexists. split; [done|]. done.
  - intros g rest Hg. unfold LeaveBalance, Leave. by rewrite leave_groups_prefix by done.
Qed.
