(* ===== verification/ShardCfgWitness.v ===== *)
(** * The shard configuration theorems at concrete configurations

    An initial configuration, one with two groups, and what joining and
    leaving does to them. *)

From S2P Require Import Prelude Fnv ShardCfg.

Definition two_groups : gmap Z (list string) := {[1 := ["a"; "b"]; 2 := ["c"]]}.

(** All shards with group 1. *)
Definition lopsided : ShardConfig := mkShardConfig 1 (replicate 12 1) two_groups.
Definition even : ShardConfig := mkShardConfig 2 (replicate 6 1 ++ replicate 6 2) two_groups.

Lemma two_groups_lookup g : is_Some (two_groups !! g) ↔ g ∈ [1; 2].
Proof.
  rewrite !elem_of_cons, elem_of_nil. unfold two_groups.
  destruct (decide (g = 1)) as [->|H1]; [split; [auto|by eexists]|].
  destruct (decide (g = 2)) as [->|H2]; [split; [auto|by eexists]|].
  rewrite lookup_insert_ne, lookup_singleton_ne by congruence.
  split; [by intros []|naive_solver].
Qed.

Lemma nodup12 : NoDup [1; 2].
Proof. by apply (bool_decide_unpack _). Qed.

Lemma Rebalance_spec_witness :
  ∃ c, Rebalance lopsided = Some c ∧ CheckConfig [1; 2] c = Ret tt.
Proof.
  destruct (Rebalance_spec lopsided [1; 2] eq_refl nodup12) as (c & H & _ & _ & _ & Hc & _).
  - intros g. symmetry. apply two_groups_lookup.
  - exists c. split; [exact H|exact Hc].
Defined.

Lemma Rebalance_stable_witness : Rebalance even = Some even.
Proof.
  destruct (Rebalance_stable even eq_refl) as [H _]; [discriminate|]. apply H.
  - intros g. cbn. rewrite !elem_of_cons, elem_of_nil. intros Hg. apply two_groups_lookup.
    rewrite !elem_of_cons, elem_of_nil. tauto.
  - intros g g' Hg Hg'. apply two_groups_lookup in Hg, Hg'.
    rewrite !elem_of_cons, elem_of_nil in Hg, Hg'. destruct Hg as [->|[->|[]]], Hg' as [->|[->|[]]];
      vm_compute; discriminate.
Defined.

(** Group 3 is new. *)
Lemma join3_new : new_groups [(3, ["d"])] two_groups.
Proof.
  split.
  - by apply (bool_decide_unpack _).
  - intros gid srvs. rewrite elem_of_cons, elem_of_nil. intros [[= -> ->]|[]]. done.
  - intros gid srvs xgid xsrvs s. rewrite elem_of_cons, elem_of_nil. intros [[= -> ->]|[]] Hx Hs.
    assert (xgid ∈ [1; 2]) as Hin by (apply two_groups_lookup; eauto).
    rewrite !elem_of_cons, elem_of_nil in Hin. revert s Hs. apply Forall_forall.
    destruct Hin as [->|[->|[]]]; vm_compute in Hx; injection Hx as <-;
      by apply (bool_decide_unpack _).
  - intros gid srvs xgid xsrvs s H1 H2 Hne. exfalso.
    apply list_elem_of_singleton in H1, H2. congruence.
Qed.

Lemma JoinBalance_spec_witness :
  ∃ cfg, JoinBalance [(3, ["d"])] even = Ret (Some (true, cfg)) ∧ cfg.(Num) = 3 ∧
    CheckConfig [3; 1; 2] cfg = Ret tt.
Proof.
  destruct (JoinBalance_spec [(3, ["d"])] even [3; 1; 2]) as (cfg & Hj & Hn & _ & _ & Hc & _).
  - done.
  - exact join3_new.
  - reflexivity.
  - by apply (bool_decide_unpack _).
  - intros g. rewrite elem_of_cons, <-two_groups_lookup. cbn. rewrite elem_of_cons, elem_of_nil. tauto.
  - exists cfg. split; [exact Hj|]. split; [exact Hn|exact Hc].
Defined.

Lemma Join_rejoin_witness :
  JoinBalance [(3, ["d"]); (1, ["x"])] even =
    Ret (Some (false, even <| Groups := list_to_map [(3, ["d"])] ∪ two_groups |>)) ∧
  JoinBalance [(1, ["x"]); (3, ["d"])] even = Ret (Some (false, even)).
Proof.
  destruct (Join_rejoin [(3, ["d"])] 1 ["x"] [] even join3_new) as (H1 & H2 & _).
  - by apply two_groups_lookup; left.
  - done.
  - split; [exact H1|exact H2].
Defined.

Lemma LeaveBalance_spec_witness :
  (∃ cfg, LeaveBalance [2] even = Ret (Some (true, cfg)) ∧ CheckConfig [1] cfg = Ret tt) ∧
  LeaveBalance [2; 9] even =
    Ret (Some (false, even <| Groups := filter (λ kv, kv.1 ∉ [2]) two_groups |>)).
Proof.
  destruct (LeaveBalance_spec [2] even [1]) as [(cfg & Hl & _ & _ & _ & Hc & _) Hbad].
  - done.
  - by apply (bool_decide_unpack _).
  - intros g. rewrite elem_of_cons, elem_of_nil. intros [->|[]]. apply two_groups_lookup. by right; left.
  - reflexivity.
  - by apply (bool_decide_unpack _).
  - intros g. cbn. rewrite two_groups_lookup, !elem_of_cons, !elem_of_nil. split.
    + intros [->|[]]. split; [|auto]. intros [?|[]]. lia.
    + intros [Hg [->|[->|[]]]]; [auto|]. exfalso. auto.
  - split; [exists cfg; split; [exact Hl|exact Hc]|]. apply (Hbad 9 []). reflexivity.
Defined.
