(* ===== verification/LabRpc.v ===== *)
(** * The simulated network: [labrpc/labrpc.go]

    The tester's RPC package: client ends, the network that routes their
    requests to servers and loses, delays or fails them, and the dispatch of a
    request to a method. [processReq] runs in a goroutine per request and
    starts another one for the handler; the model splits it where another
    goroutine can run in between (each lock region, each channel operation and
    each timer), and an event moves one request one stage on. Random choices
    are arguments of the events; servers are pointers into a heap. *)

From S2P Require Import Prelude Gob Names.
From Stdlib Require Import Ascii Strings.Byte.

(** Two's-complement wrap-around of the statistics counters. *)
Definition wrap_int (bits z : Z) : Z := (z + 2 ^ (bits - 1)) mod 2 ^ bits - 2 ^ (bits - 1).

Record reqMsg := mkReq { rq_endname : string; rq_svcMeth : string; rq_args : bytes }.
Record replyMsg := mkReply { rp_ok : bool; rp_reply : bytes }.

#[export] Instance replyMsg_eq_dec : EqDecision replyMsg.
Proof. solve_decision. Defined.

Definition no_reply : replyMsg := mkReply false [].

Definition Marshall `{GobCodec A} (args : A) : bytes := Encode args.
Definition Unmarshall `{GobCodec A} (b : bytes) : go A :=
  match (Decode b).1 with Some a => Ret a | None => Fatal end.

(** ** Services and servers

    [W] is the state the registered methods work on. A method takes a pointer
    to a zeroed reply, which it fills in. *)

Section service.
Context {W : Type}.

Record Method := mkMethod {
  In1 : Type; In2 : Type;
  In1_codec : GobCodec In1; In2_codec : GobCodec In2;
  In2_zero : In2;
  Func : W → In1 → In2 → W * In2;
}.

(** What [reflect] tells about a method of the receiver. *)
Record MethodInfo := mkMethodInfo {
  mi_Name : string; mi_exported : bool; mi_NumIn : Z; mi_In2_ptr : bool; mi_NumOut : Z;
  mi_method : Method;
}.

Record Service := mkService { svc_name : string; methods : gmap string Method }.

Definition is_handler (m : MethodInfo) : bool :=
  negb (negb m.(mi_exported) || negb (m.(mi_NumIn) =? 3) || negb m.(mi_In2_ptr) ||
        negb (m.(mi_NumOut) =? 0)).

Definition MakeService (name : string) (infos : list MethodInfo) : Service :=
  mkService name (foldl (λ ms m, if is_handler m then <[m.(mi_Name) := m.(mi_method)]> ms else ms) ∅ infos).

Definition call_method (method : Method) (args : bytes) (w : W) : go (W * replyMsg) :=
  a ← @Unmarshall method.(In1) method.(In1_codec) args;
  let '(w, reply) := method.(Func) w a method.(In2_zero) in
  Ret (w, mkReply true (@Encode _ method.(In2_codec) reply)).

(** An unknown method is fatal. *)
Definition service_dispatch (svc : Service) (methname : string) (req : reqMsg) (w : W) :
    go (W * replyMsg) :=
  match svc.(methods) !! methname with
  | Some method => call_method method req.(rq_args) w
  | None => Fatal
  end.

Record Server := mkServer {
  services : gmap string Service;
  srv_count : Z;
  dispatchf : option (W → string → bytes → W * (bytes * bool));
}.

#[export] Instance upd_services : Upd services := λ f s, mkServer (f s.(services)) s.(srv_count) s.(dispatchf).
#[export] Instance upd_srv_count : Upd srv_count := λ f s, mkServer s.(services) (f s.(srv_count)) s.(dispatchf).
#[export] Instance upd_dispatchf : Upd dispatchf := λ f s, mkServer s.(services) s.(srv_count) (f s.(dispatchf)).

Definition MakeServer : Server := mkServer ∅ 0 None.
Definition SetDispatch (f : W → string → bytes → W * (bytes * bool)) (rs : Server) : Server :=
  rs <| dispatchf := Some f |>.
Definition AddService (svc : Service) (rs : Server) : Server :=
  rs <| services := <[svc.(svc_name) := svc]> rs.(services) |>.

(** [strings.LastIndex(s, ".")] *)
Fixpoint last_dot (s : string) : Z :=
  match s with
  | EmptyString => -1
  | String c s =>
    let i := last_dot s in
    if 0 <=? i then i + 1 else if bool_decide (c = "."%char) then 0 else -1
  end.

(** [s[:dot]] and [s[dot+1:]]; without a dot the slice panics. *)
Definition split_method (s : string) : go (string * string) :=
  let dot := last_dot s in
  if dot <? 0 then Panic
  else Ret (String.substring 0 (Z.to_nat dot) s,
            String.substring (Z.to_nat (dot + 1)) (String.length s - Z.to_nat (dot + 1)) s).

Definition dispatch (rs : Server) (req : reqMsg) (w : W) : go (Server * W * replyMsg) :=
  let rs := rs <| srv_count := rs.(srv_count) + 1 |> in
  names ← split_method req.(rq_svcMeth);
  let '(serviceName, methodName) := names in
  let service := rs.(services) !! serviceName in
  match rs.(dispatchf) with
  | Some f =>
    let '(w, (rep, ok)) := f w req.(rq_svcMeth) req.(rq_args) in
    Ret (rs, w, mkReply ok rep)
  | None =>
    match service with
    | Some service =>
      r ← service_dispatch service methodName req w;
      Ret (rs, r.1, r.2)
    | None => Fatal
    end
  end.

(** [Dispatch]: a request that did not come over this network. *)
Definition Dispatch (rs : Server) (svcMeth clnt : string) (args : bytes) (w : W) :
    go (Server * W * (bytes * bool)) :=
  r ← dispatch rs (mkReq clnt svcMeth args) w;
  let '(rs, w, rep) := r in Ret (rs, w, (rep.(rp_reply), rep.(rp_ok))).
End service.

Arguments Method : clear implicits.
Arguments MethodInfo : clear implicits.
Arguments Service : clear implicits.
Arguments Server : clear implicits.

(** ** Client ends *)

Record ClientEnd := mkClientEnd {
  endname : string;
  callf : option (string → string → bytes → bytes * bool);
}.

Definition SetCall (f : string → string → bytes → bytes * bool) (e : ClientEnd) : ClientEnd :=
  mkClientEnd e.(endname) (Some f).

(** [Call] up to the point where it waits: either the result, when the end has
    its own transport, or the request to send. *)
Definition Call_start `{GobCodec A, GobCodec B} (svcMeth : string) (args : A) (e : ClientEnd) :
    go (option B + reqMsg) :=
  match e.(callf) with
  | Some callf =>
    let '(rep, ok) := callf e.(endname) svcMeth (Marshall args) in
    if negb ok then Ret (inl None)
    else r ← Unmarshall rep; Ret (inl (Some r))
  | None => Ret (inr (mkReq e.(endname) svcMeth (Marshall args)))
  end.

(** ... and once the answer is there: [None] is [Call] returning false. *)
Definition Call_finish `{GobCodec B} (rep : replyMsg) : go (option B) :=
  if rep.(rp_ok) then r ← Unmarshall rep.(rp_reply); Ret (Some r) else Ret None.

Definition Forward_start (svcMeth : string) (args : bytes) (e : ClientEnd) : reqMsg :=
  mkReq e.(endname) svcMeth args.
Definition Forward_finish (rep : replyMsg) : bytes * bool := (rep.(rp_reply), rep.(rp_ok)).

(** ** The network's tables

    A server is a pointer, an index into the heap of servers; [None] is nil. *)

Record Network := mkNetwork {
  reliable : bool;
  longDelays : bool;
  longReordering : bool;
  ends : gmap string ClientEnd;
  enabled : gmap string bool;
  servers : gmap string (option nat);
  connections : gmap string (option string);
  net_done : bool;
  net_count : Z;
  net_bytes : Z;
}.

#[export] Instance upd_reliable : Upd reliable := λ f n, mkNetwork (f n.(reliable)) n.(longDelays) n.(longReordering) n.(ends) n.(enabled) n.(servers) n.(connections) n.(net_done) n.(net_count) n.(net_bytes).
#[export] Instance upd_longDelays : Upd longDelays := λ f n, mkNetwork n.(reliable) (f n.(longDelays)) n.(longReordering) n.(ends) n.(enabled) n.(servers) n.(connections) n.(net_done) n.(net_count) n.(net_bytes).
#[export] Instance upd_longReordering : Upd longReordering := λ f n, mkNetwork n.(reliable) n.(longDelays) (f n.(longReordering)) n.(ends) n.(enabled) n.(servers) n.(connections) n.(net_done) n.(net_count) n.(net_bytes).
#[export] Instance upd_ends : Upd ends := λ f n, mkNetwork n.(reliable) n.(longDelays) n.(longReordering) (f n.(ends)) n.(enabled) n.(servers) n.(connections) n.(net_done) n.(net_count) n.(net_bytes).
#[export] Instance upd_enabled : Upd enabled := λ f n, mkNetwork n.(reliable) n.(longDelays) n.(longReordering) n.(ends) (f n.(enabled)) n.(servers) n.(connections) n.(net_done) n.(net_count) n.(net_bytes).
#[export] Instance upd_servers : Upd servers := λ f n, mkNetwork n.(reliable) n.(longDelays) n.(longReordering) n.(ends) n.(enabled) (f n.(servers)) n.(connections) n.(net_done) n.(net_count) n.(net_bytes).
#[export] Instance upd_connections : Upd connections := λ f n, mkNetwork n.(reliable) n.(longDelays) n.(longReordering) n.(ends) n.(enabled) n.(servers) (f n.(connections)) n.(net_done) n.(net_count) n.(net_bytes).
#[export] Instance upd_net_done : Upd net_done := λ f n, mkNetwork n.(reliable) n.(longDelays) n.(longReordering) n.(ends) n.(enabled) n.(servers) n.(connections) (f n.(net_done)) n.(net_count) n.(net_bytes).
#[export] Instance upd_net_count : Upd net_count := λ f n, mkNetwork n.(reliable) n.(longDelays) n.(longReordering) n.(ends) n.(enabled) n.(servers) n.(connections) n.(net_done) (f n.(net_count)) n.(net_bytes).
#[export] Instance upd_net_bytes : Upd net_bytes := λ f n, mkNetwork n.(reliable) n.(longDelays) n.(longReordering) n.(ends) n.(enabled) n.(servers) n.(connections) n.(net_done) n.(net_count) (f n.(net_bytes)).

Definition MakeNetwork : Network := mkNetwork true false false ∅ ∅ ∅ ∅ false 0 0.
(** [close(rn.done)]; closing twice panics. *)
Definition Cleanup (rn : Network) : go Network :=
  if rn.(net_done) then Panic else Ret (rn <| net_done := true |>).
Definition Reliable (yes : bool) (rn : Network) : Network := rn <| reliable := yes |>.
Definition LongReordering (yes : bool) (rn : Network) : Network := rn <| longReordering := yes |>.
Definition LongDelays (yes : bool) (rn : Network) : Network := rn <| longDelays := yes |>.

Record EndnameInfo := mkEndnameInfo {
  ei_enabled : bool; ei_servername : option string; ei_server : option nat;
  ei_reliable : bool; ei_longreordering : bool;
}.

Definition is_enabled (rn : Network) (e : string) : bool := default false (rn.(enabled) !! e).
Definition server_of (rn : Network) (name : string) : option nat := default None (rn.(servers) !! name).

Definition readEndnameInfo (e : string) (rn : Network) : EndnameInfo :=
  let servername := default None (rn.(connections) !! e) in
  mkEndnameInfo (is_enabled rn e) servername
    (match servername with Some name => server_of rn name | None => None end)
    rn.(reliable) rn.(longReordering).

Definition isServerDead (e servername : string) (server : option nat) (rn : Network) : bool :=
  negb (is_enabled rn e) || negb (bool_decide (server_of rn servername = server)).

Definition MakeEnd (e : string) (rn : Network) : go (ClientEnd * Network) :=
  match rn.(ends) !! e with
  | Some _ => Fatal
  | None =>
    let ce := mkClientEnd e None in
    Ret (ce, rn <| ends := <[e := ce]> rn.(ends) |>
                <| enabled := <[e := false]> rn.(enabled) |>
                <| connections := <[e := None]> rn.(connections) |>)
  end.

Definition LookupEnd (e : string) (rn : Network) : go ClientEnd :=
  match rn.(ends) !! e with Some ce => Ret ce | None => Fatal end.

Definition DeleteEnd (e : string) (rn : Network) : go Network :=
  match rn.(ends) !! e with
  | None => Fatal
  | Some _ =>
    Ret (rn <| ends := delete e rn.(ends) |>
            <| enabled := delete e rn.(enabled) |>
            <| connections := delete e rn.(connections) |>)
  end.

Definition AddServer (name : string) (rs : nat) (rn : Network) : Network :=
  rn <| servers := <[name := Some rs]> rn.(servers) |>.
Definition DeleteServer (name : string) (rn : Network) : Network :=
  rn <| servers := <[name := None]> rn.(servers) |>.
Definition Connect (e name : string) (rn : Network) : Network :=
  rn <| connections := <[e := Some name]> rn.(connections) |>.
Definition Enable (e : string) (yes : bool) (rn : Network) : Network :=
  rn <| enabled := <[e := yes]> rn.(enabled) |>.

(** [GetCount] of a server that was deleted dereferences nil. *)
Definition GetCount {W} (heap : list (Server W)) (name : string) (rn : Network) : go Z :=
  match server_of rn name with
  | None => Panic
  | Some p => rs ← gidx heap (Z.of_nat p); Ret rs.(srv_count)
  end.

(** ** Requests in progress *)

(** Where [processReq] is with a request. *)
Inductive Phase :=
  | Queued                                  (* started, before [readEndnameInfo] *)
  | Routed (name : string) (p : nat) (rel reorder : bool)
  | Waiting (name : string) (p : nat) (rel reorder : bool)
  | Delayed (rep : replyMsg)                (* the reply's timer is running *)
  | NoReply                                 (* the timer of a failed request is running *)
  | Answered (rep : replyMsg).              (* sent on [replyCh] *)

(** The goroutine that runs the handler, and its reply on [ech]. *)
Inductive Exec := NotStarted | Running | Finished (rep : replyMsg).

Record Request := mkRequest { r_req : reqMsg; r_server : option nat; r_phase : Phase; r_exec : Exec }.

Section network.
Context {W : Type}.

(** [sy_log] records, for the theorems only, each handler run with the request
    it ran for and its reply. *)
Record Sys := mkSys {
  sy_net : Network;
  sy_heap : list (Server W);
  sy_world : W;
  sy_reqs : gmap Z Request;
  sy_log : list (Z * replyMsg);
}.

Definition with_net (f : Network → Network) (s : Sys) : Sys :=
  mkSys (f s.(sy_net)) s.(sy_heap) s.(sy_world) s.(sy_reqs) s.(sy_log).
Definition with_req (id : Z) (r : Request) (s : Sys) : Sys :=
  mkSys s.(sy_net) s.(sy_heap) s.(sy_world) (<[id := r]> s.(sy_reqs)) s.(sy_log).
Definition with_phase (id : Z) (r : Request) (ph : Phase) (s : Sys) : Sys :=
  with_req id (mkRequest r.(r_req) r.(r_server) ph r.(r_exec)) s.

Definition add_bytes (n : Z) (rn : Network) : Network :=
  rn <| net_bytes := wrap_int 64 (rn.(net_bytes) + n) |>.

(** The goroutine of [MakeNetwork] takes a request from [endCh]. *)
Definition accept (id : Z) (req : reqMsg) (s : Sys) : Sys :=
  with_req id (mkRequest req None Queued NotStarted)
    (with_net (λ rn, add_bytes (glen req.(rq_args)) (rn <| net_count := wrap_int 32 (rn.(net_count) + 1) |>)) s).

(** [select] in [Call] with the network gone. *)
Definition refuse (id : Z) (req : reqMsg) (s : Sys) : Sys :=
  if s.(sy_net).(net_done) then with_req id (mkRequest req None (Answered no_reply) NotStarted) s else s.

Definition route (id : Z) (r : Request) (s : Sys) : Sys :=
  let i := readEndnameInfo r.(r_req).(rq_endname) s.(sy_net) in
  match i.(ei_enabled), i.(ei_servername), i.(ei_server) with
  | true, Some name, Some p =>
      with_phase id r (Routed name p i.(ei_reliable) i.(ei_longreordering)) s
  | _, _, _ => with_phase id r NoReply s
  end.

(** [roll] is the next [rand.Int()], only drawn on an unreliable network. *)
Definition drops (rel : bool) (roll : Z) : bool := negb rel && (roll mod 1000 <? 100).

Definition start_handler (id : Z) (r : Request) (name : string) (p : nat) (rel reorder : bool)
    (roll : Z) (s : Sys) : Sys :=
  if drops rel roll then with_phase id r (Answered no_reply) s
  else with_req id (mkRequest r.(r_req) (Some p) (Waiting name p rel reorder) Running) s.

(** The handler's goroutine. *)
Definition run_handler (id : Z) (r : Request) (p : nat) (s : Sys) : go Sys :=
  rs ← gidx s.(sy_heap) (Z.of_nat p);
  d ← dispatch rs r.(r_req) s.(sy_world);
  let '(rs, w, rep) := d in
  Ret (mkSys s.(sy_net) (<[p := rs]> s.(sy_heap)) w
         (<[id := mkRequest r.(r_req) r.(r_server) r.(r_phase) (Finished rep)]> s.(sy_reqs))
         (s.(sy_log) ++ [(id, rep)])).

(** After the waiting loop; [n] is [rand.Intn(900)]. *)
Definition finish (id : Z) (r : Request) (name : string) (p : nat) (rel reorder : bool)
    (rep : option replyMsg) (roll n : Z) (s : Sys) : Sys :=
  let serverDead := isServerDead r.(r_req).(rq_endname) name (Some p) s.(sy_net) in
  match rep with
  | None => with_phase id r (Answered no_reply) s
  | Some rep =>
    if serverDead then with_phase id r (Answered no_reply) s
    else if drops rel roll then with_phase id r (Answered no_reply) s
    else if reorder && (n <? 600) then with_phase id r (Delayed rep) s
    else with_phase id r (Answered rep) (with_net (add_bytes (glen rep.(rp_reply))) s)
  end.

(** One turn of the waiting loop: the reply is there, or 100 ms passed. *)
Definition receive (id : Z) (r : Request) (name : string) (p : nat) (rel reorder : bool)
    (roll n : Z) (s : Sys) : Sys :=
  match r.(r_exec) with
  | Finished rep => finish id r name p rel reorder (Some rep) roll n s
  | _ => s
  end.
Definition poll (id : Z) (r : Request) (name : string) (p : nat) (rel reorder : bool) (s : Sys) : Sys :=
  if isServerDead r.(r_req).(rq_endname) name (Some p) s.(sy_net)
  then finish id r name p rel reorder None 0 0 s else s.

(** A timer of [time.AfterFunc]. *)
Definition fire (id : Z) (r : Request) (s : Sys) : Sys :=
  match r.(r_phase) with
  | Delayed rep => with_phase id r (Answered rep) (with_net (add_bytes (glen rep.(rp_reply))) s)
  | NoReply => with_phase id r (Answered no_reply) s
  | _ => s
  end.

Inductive Event :=
  | EvSend (id : Z) (req : reqMsg) (sent : bool)
  | EvRoute (id : Z)
  | EvStart (id roll : Z)
  | EvRun (id : Z)
  | EvReceive (id roll n : Z)
  | EvPoll (id : Z)
  | EvFire (id : Z)
  | EvNet (f : Network → Network)   (* [Enable], [DeleteServer], ... by the tester *)
  | EvServer (rs : Server W).        (* a server object is allocated *)

Definition step (e : Event) (s : Sys) : go Sys :=
  match e with
  | EvSend id req sent =>
    match s.(sy_reqs) !! id with
    | Some _ => Ret s
    | None => Ret (if sent then accept id req s else refuse id req s)
    end
  | EvRoute id =>
    match s.(sy_reqs) !! id with
    | Some r => Ret (match r.(r_phase) with Queued => route id r s | _ => s end)
    | None => Ret s
    end
  | EvStart id roll =>
    match s.(sy_reqs) !! id with
    | Some r => Ret (match r.(r_phase) with
                     | Routed name p rel reorder => start_handler id r name p rel reorder roll s
                     | _ => s end)
    | None => Ret s
    end
  | EvRun id =>
    match s.(sy_reqs) !! id with
    | Some r => match r.(r_exec), r.(r_server) with
                | Running, Some p => run_handler id r p s
                | _, _ => Ret s end
    | None => Ret s
    end
  | EvReceive id roll n =>
    match s.(sy_reqs) !! id with
    | Some r => Ret (match r.(r_phase) with
                     | Waiting name p rel reorder => receive id r name p rel reorder roll n s
                     | _ => s end)
    | None => Ret s
    end
  | EvPoll id =>
    match s.(sy_reqs) !! id with
    | Some r => Ret (match r.(r_phase) with
                     | Waiting name p rel reorder => poll id r name p rel reorder s
                     | _ => s end)
    | None => Ret s
    end
  | EvFire id =>
    match s.(sy_reqs) !! id with Some r => Ret (fire id r s) | None => Ret s end
  | EvNet f => Ret (with_net f s)
  | EvServer rs => Ret (mkSys s.(sy_net) (s.(sy_heap) ++ [rs]) s.(sy_world) s.(sy_reqs) s.(sy_log))
  end.

Definition run (evs : list Event) (s : Sys) : go Sys := foldM (λ s e, step e s) s evs.

Definition sys_init (w : W) : Sys := mkSys MakeNetwork [] w ∅ [].

Definition executions (id : Z) (s : Sys) : list replyMsg :=
  (filter (λ x, x.1 = id) s.(sy_log)).*2.
End network.

Arguments Sys : clear implicits.
Arguments Event : clear implicits.

(** ** At most one execution *)

Section at_most_once.
Context {W : Type}.
Implicit Types (s : Sys W) (id : Z) (r : Request).

Definition exec_log (ex : Exec) : list replyMsg :=
  match ex with Finished rep => [rep] | _ => [] end.

Definition phase_ok (ph : Phase) (ex : Exec) : Prop :=
  match ph with
  | Queued | Routed _ _ _ _ | NoReply => ex = NotStarted
  | Waiting _ _ _ _ => ex ≠ NotStarted
  | Delayed rep => ex = Finished rep
  | Answered rep => rep.(rp_ok) = true → ex = Finished rep
  end.

Definition rpc_inv s : Prop := ∀ id,
  match s.(sy_reqs) !! id with
  | Some r => executions id s = exec_log r.(r_exec) ∧ phase_ok r.(r_phase) r.(r_exec)
  | None => executions id s = []
  end.

Lemma executions_log s s' id : s'.(sy_log) = s.(sy_log) → executions id s' = executions id s.
Proof. unfold executions. by intros ->. Qed.

Lemma executions_snoc s s' id id' rep :
  s'.(sy_log) = s.(sy_log) ++ [(id', rep)] →
  executions id s' = executions id s ++ (if decide (id' = id) then [rep] else []).
Proof.
  unfold executions. intros ->. rewrite filter_app, fmap_app. f_equal.
  by case_decide; [rewrite filter_cons_True by done|rewrite filter_cons_False by done].
Qed.

(** A step that changes one request, and not the log. *)
Lemma rpc_inv_update s s' id r' :
  rpc_inv s → s'.(sy_log) = s.(sy_log) → s'.(sy_reqs) = <[id := r']> s.(sy_reqs) →
  executions id s = exec_log r'.(r_exec) → phase_ok r'.(r_phase) r'.(r_exec) → rpc_inv s'.
Proof.
  intros Hinv Hl Hr Hex Hph id'. rewrite Hr, (executions_log s s' id' Hl), lookup_insert.
  case_decide; [by subst|apply Hinv].
Qed.

Lemma rpc_inv_same s s' :
  rpc_inv s → s'.(sy_log) = s.(sy_log) → s'.(sy_reqs) = s.(sy_reqs) → rpc_inv s'.
Proof. intros Hinv Hl Hr id. rewrite Hr, (executions_log s s' id Hl). apply Hinv. Qed.

Lemma rpc_inv_phase s id r ph :
  rpc_inv s → s.(sy_reqs) !! id = Some r → phase_ok ph r.(r_exec) → rpc_inv (with_phase id r ph s).
Proof.
  intros Hinv Hid Hph. pose proof (Hinv id) as Hi. rewrite Hid in Hi.
  eapply (rpc_inv_update s); [done|done|done|apply Hi|done].
Qed.

Lemma rpc_inv_net s f : rpc_inv s → rpc_inv (with_net f s).
Proof. intros Hinv. by eapply rpc_inv_same. Qed.

Lemma answered_no_reply ex : phase_ok (Answered no_reply) ex.
Proof. done. Qed.

Hint Resolve rpc_inv_phase rpc_inv_net answered_no_reply : core.

Lemma finish_inv s id r name p rel reorder rep roll n :
  rpc_inv s → s.(sy_reqs) !! id = Some r →
  (∀ x, rep = Some x → r.(r_exec) = Finished x) →
  rpc_inv (finish id r name p rel reorder rep roll n s).
Proof.
  intros Hinv Hid Hrep. unfold finish. destruct rep as [rep|]; [|by auto].
  pose proof (Hrep rep eq_refl) as He.
  repeat case_if; auto. apply rpc_inv_phase; auto. by intros _.
Qed.

Lemma run_handler_inv s s' id r p :
  rpc_inv s → s.(sy_reqs) !! id = Some r → r.(r_exec) = Running →
  run_handler id r p s = Ret s' → rpc_inv s'.
Proof.
  intros Hinv Hid He Hrun. unfold run_handler in Hrun. go_inv Hrun.
  destruct a0 as [[rs w] rep]. go_inv Hrun. subst s'.
  pose proof (Hinv id) as Hi. rewrite Hid, He in Hi. destruct Hi as [Hex Hph].
  intros id'. cbn [sy_reqs]. erewrite (executions_snoc s _ id' id rep) by done.
  rewrite lookup_insert. case_decide; subst.
  - rewrite Hex. split; [done|]. cbn [r_phase r_exec].
    destruct (r_phase r); cbn in *; try done. intros Hok. by specialize (Hph Hok).
  - rewrite app_nil_r. apply Hinv.
Qed.

Lemma step_inv e s s' : rpc_inv s → step e s = Ret s' → rpc_inv s'.
Proof.
  intros Hinv. destruct e as [id req sent|id|id roll|id|id roll n|id|id|f|rs]; cbn [step];
    try (destruct (s.(sy_reqs) !! id) as [r|] eqn:Hid; [|intros H; go_inv H; by subst]);
    try (intros H; go_inv H; subst s').
  - pose proof (Hinv id) as Hi. destruct (s.(sy_reqs) !! id) eqn:Hid; intros H; go_inv H; subst s'; [done|].
    unfold accept, refuse. destruct sent; [|case_if; [|done]]; by eapply rpc_inv_update.
  - pose proof (Hinv id) as Hi. rewrite Hid in Hi. destruct (r_phase r) eqn:Hp; try done.
    destruct Hi as [_ Hn]. unfold route. cbn in Hn.
    repeat case_match; by apply rpc_inv_phase.
  - pose proof (Hinv id) as Hi. rewrite Hid in Hi. destruct (r_phase r) eqn:Hp; try done.
    destruct Hi as [Hex Hn]. unfold start_handler. cbn in Hn. case_if.
    + by auto.
    + eapply rpc_inv_update; [done..| |done]. by rewrite Hn in Hex.
  - destruct (r_exec r) eqn:He; try (intros H; go_inv H; by subst).
    destruct (r_server r); [|intros H; go_inv H; by subst]. by apply run_handler_inv.
  - destruct (r_phase r) eqn:Hp; try done. unfold receive.
    destruct (r_exec r) eqn:He; try done. apply finish_inv; [done..|]. by intros ? [= <-].
  - destruct (r_phase r) eqn:Hp; try done. unfold poll. case_if; [|done].
    by apply finish_inv.
  - pose proof (Hinv id) as Hi. rewrite Hid in Hi. unfold fire.
    destruct (r_phase r) eqn:Hp; try done; destruct Hi as [_ Hn]; cbn in Hn.
    + apply rpc_inv_phase; auto. by rewrite Hn.
    + by auto.
  - by eapply rpc_inv_same.
  - by eapply rpc_inv_same.
Qed.

Lemma run_inv evs : ∀ s s', rpc_inv s → run evs s = Ret s' → rpc_inv s'.
Proof.
  induction evs as [|e evs IH]; intros s s' Hinv; cbn [run foldM].
  - intros H. go_inv H. by subst.
  - intros H. go_inv H. eapply IH; [|done]. by eapply step_inv.
Qed.
End at_most_once.

(** C16. A request is executed at most once, whatever the interleaving of
    sends, handlers, timeouts, timers and the tester's changes to the network:
    if [Call] returns true its reply is the one the handler returned in the
    only execution, and a request that was not sent, is not delivered, or is
    routed to a disabled end, an unconnected end or a missing server is not
    executed at all. *)
Theorem rpc_at_most_once {W} (w : W) evs s id :
  run evs (sys_init w) = Ret s →
  match s.(sy_reqs) !! id with
  | None => executions id s = []
  | Some r =>
    (length (executions id s) ≤ 1)%nat ∧
    (∀ rep, r.(r_phase) = Answered rep → rep.(rp_ok) = true → executions id s = [rep]) ∧
    (∀ rep, r.(r_phase) = Delayed rep → executions id s = [rep]) ∧
    (r.(r_phase) = Queued ∨ r.(r_phase) = NoReply → executions id s = [])
  end.
Proof.
  intros Hrun. assert (rpc_inv (sys_init w)) as H0 by done.
  pose proof (run_inv evs _ _ H0 Hrun id) as Hi.
  destruct (s.(sy_reqs) !! id) as [r|]; [|done]. destruct Hi as [Hex Hph]. rewrite Hex.
  split; [destruct (r_exec r); cbn; lia|]. split; [|split].
  - intros rep E Hok. rewrite E in Hph. by rewrite (Hph Hok).
  - intros rep E. rewrite E in Hph. by rewrite Hph.
  - intros [E|E]; rewrite E in Hph; by rewrite Hph.
Qed.

(** ** Deleted servers *)

Section deleted.
Context {W : Type} (id : Z) (e name : string) (p : nat).

Definition stays_dead (ev : Event W) : Prop :=
  match ev with
  | EvNet f => ∀ rn, isServerDead e name (Some p) rn = true → isServerDead e name (Some p) (f rn) = true
  | _ => True
  end.

(** Request [id] waits for the deleted server, or has failed. *)
Definition dead_inv (s : Sys W) : Prop :=
  isServerDead e name (Some p) s.(sy_net) = true ∧
  ∃ r, s.(sy_reqs) !! id = Some r ∧ r.(r_req).(rq_endname) = e ∧
    ((∃ rel reorder, r.(r_phase) = Waiting name p rel reorder) ∨ r.(r_phase) = Answered no_reply).

Lemma dead_net f s :
  (∀ rn, isServerDead e name (Some p) rn = true → isServerDead e name (Some p) (f rn) = true) →
  dead_inv s → dead_inv (with_net f s).
Proof. intros Hf [Hd Hr]. split; [by apply Hf|done]. Qed.

Lemma dead_other s id' r' : id' ≠ id → dead_inv s → dead_inv (with_req id' r' s).
Proof.
  intros Hne (Hd & r & Hr & Hrest). split; [done|]. exists r. cbn. by rewrite lookup_insert_ne.
Qed.

Lemma isServerDead_stats x rn f g :
  isServerDead e name x (add_bytes f (rn <| net_count := g |>)) = isServerDead e name x rn ∧
  isServerDead e name x (add_bytes f rn) = isServerDead e name x rn.
Proof. done. Qed.

Lemma dead_same s s' :
  s'.(sy_net) = s.(sy_net) → s'.(sy_reqs) !! id = s.(sy_reqs) !! id → dead_inv s → dead_inv s'.
Proof. unfold dead_inv. by intros -> ->. Qed.

(** A step of another request. *)
Lemma dead_step_other ev s s' id' :
  id' ≠ id → dead_inv s →
  match ev with
  | EvSend i _ _ | EvRoute i | EvStart i _ | EvRun i | EvReceive i _ _ | EvPoll i | EvFire i => i = id'
  | _ => False
  end →
  step ev s = Ret s' → dead_inv s'.
Proof.
  intros Hne Hinv. assert (∀ r', dead_inv (with_req id' r' s)) as Hreq by by intros; apply dead_other.
  assert (∀ n r', dead_inv (with_req id' r' (with_net (add_bytes n) s))) as Hreqn
    by by intros; apply dead_other, dead_net.
  destruct ev as [i req sent|i|i roll|i|i roll n|i|i|f|rs]; try done; intros ->; cbn [step];
    (destruct (s.(sy_reqs) !! id') as [r|]; [|try by intros H; go_inv H; subst]);
    try (intros H; go_inv H; subst s').
  - done.
  - unfold accept, refuse. destruct sent; [|by case_if].
    apply dead_other; [done|]. by apply dead_net.
  - unfold route, with_phase. by repeat case_match.
  - unfold start_handler, with_phase. destruct (r_phase r); try done. by case_if.
  - destruct (r_exec r), (r_server r); try (intros H; go_inv H; by subst).
    unfold run_handler. intros H. go_inv H. destruct a0 as [[rs w] rep]. go_inv H. subst s'.
    eapply dead_same; [| |exact Hinv]; [done|]. cbn. by rewrite lookup_insert_ne.
  - unfold receive, finish, with_phase. destruct (r_phase r); try done.
    destruct (r_exec r); try done. by repeat case_if.
  - unfold poll, finish, with_phase. destruct (r_phase r); try done. by repeat case_if.
  - unfold fire, with_phase. by destruct (r_phase r).
Qed.

Lemma dead_phase s r ph :
  dead_inv s → s.(sy_reqs) !! id = Some r → r.(r_req).(rq_endname) = e →
  (∃ rel reorder, ph = Waiting name p rel reorder) ∨ ph = Answered no_reply → dead_inv (with_phase id r ph s).
Proof.
  intros [Hd _] Hr He Hph. split; [done|]. eexists. cbn. by rewrite lookup_insert_eq.
Qed.

Lemma dead_step ev s s' : stays_dead ev → dead_inv s → step ev s = Ret s' → dead_inv s'.
Proof.
  intros Hev Hinv. pose proof Hinv as (Hd & r & Hr & He & Hph).
  destruct ev as [i req sent|i|i roll|i|i roll n|i|i|f|rs];
    try (destruct (decide (i = id)) as [->|Hne]; [|intros H; by apply (dead_step_other _ s s' i Hne Hinv) in H]);
    cbn [step]; try rewrite Hr.
  - intros H. go_inv H. by subst s'.
  - intros H. go_inv H. subst s'. by destruct Hph as [(? & ? & ->)| ->].
  - intros H. go_inv H. subst s'. by destruct Hph as [(? & ? & ->)| ->].
  - destruct (r_exec r), (r_server r); try (intros H; go_inv H; by subst).
    unfold run_handler. intros H. go_inv H. destruct a0 as [[rs w] rep]. go_inv H. subst s'.
    split; [done|]. eexists. cbn. by rewrite lookup_insert_eq.
  - intros H. go_inv H. subst s'. destruct Hph as [(? & ? & ->)| ->]; [|done].
    unfold receive, finish. destruct (r_exec r); try done. rewrite He, Hd.
    by apply dead_phase; auto.
  - intros H. go_inv H. subst s'. destruct Hph as [(? & ? & ->)| ->]; [|done].
    unfold poll, finish. rewrite He, Hd. by apply dead_phase; auto.
  - intros H. go_inv H. subst s'. unfold fire. by destruct Hph as [(? & ? & ->)| ->].
  - intros H. go_inv H. subst s'. by apply dead_net.
  - intros H. go_inv H. by subst s'.
Qed.

Lemma dead_run evs : ∀ s s',
  Forall stays_dead evs → dead_inv s → run evs s = Ret s' → dead_inv s'.
Proof.
  induction evs as [|ev evs IH]; intros s s' Hevs Hinv; cbn [run foldM]; intros H; go_inv H; [by subst|].
  inversion Hevs; subst. eapply IH; [done| |done]. by eapply dead_step.
Qed.
End deleted.

Lemma isServerDead_DeleteServer e name p rn :
  isServerDead e name (Some p) (DeleteServer name rn) = true.
Proof.
  unfold isServerDead, server_of, DeleteServer. cbn. rewrite lookup_insert_eq. cbn.
  by rewrite orb_true_r.
Qed.

(** What the tester does after a crash keeps the old server dead: a restarted
    server is a new object. *)
Lemma stays_dead_AddServer {W} e name p name' p' :
  p' ≠ p → stays_dead (W:=W) e name p (EvNet (AddServer name' p')).
Proof.
  intros Hp rn. unfold isServerDead, server_of, AddServer. cbn.
  rewrite !orb_true_iff, !negb_true_iff, !bool_decide_eq_false. intros [H|H]; [by left|]. right.
  destruct (decide (name' = name)) as [->|]; [rewrite lookup_insert_eq|by rewrite lookup_insert_ne].
  cbn. congruence.
Qed.

(** Once [DeleteServer] was called, a request that was waiting for that
    server object never gets a positive reply, even if its handler finishes
    later and even if a new server takes the name; and the next poll of the
    waiting loop fails it. *)
Theorem deleted_server_silent {W} (s s' : Sys W) id r name p rel reorder evs :
  s.(sy_reqs) !! id = Some r → r.(r_phase) = Waiting name p rel reorder →
  Forall (stays_dead r.(r_req).(rq_endname) name p) evs →
  run (EvNet (DeleteServer name) :: evs) s = Ret s' →
  (∃ r', s'.(sy_reqs) !! id = Some r' ∧
    ((∃ rel' reorder', r'.(r_phase) = Waiting name p rel' reorder') ∨ r'.(r_phase) = Answered no_reply)) ∧
  returns (step (EvPoll id) s') (λ s'', r_phase <$> s''.(sy_reqs) !! id = Some (Answered no_reply)).
Proof.
  intros Hr Hph Hevs Hrun.
  assert (dead_inv id r.(r_req).(rq_endname) name p s') as (Hd & r' & Hr' & He & Hp').
  { eapply (dead_run id _ name p evs); [done| |exact Hrun].
    split; [apply isServerDead_DeleteServer|]. exists r. split; [done|]. split; [done|]. left. by eexists _, _. }
  split; [by exists r'|]. cbn [step]. rewrite Hr'. apply returns_Ret.
  destruct Hp' as [(? & ? & ->)|E].
  - unfold poll, finish. rewrite He, Hd. cbn. by rewrite lookup_insert_eq.
  - rewrite E, Hr'. cbn. by rewrite E.
Qed.

(** ** A call on a healthy network *)

Lemma last_dot_append a b : last_dot b = -1 → last_dot (a +:+ "." +:+ b) = Z.of_nat (String.length a).
Proof.
  intros Hb. induction a as [|c a IH].
  - change ("" +:+ "." +:+ b) with (String "."%char b). cbn [last_dot]. by rewrite Hb.
  - change (String c a +:+ "." +:+ b) with (String c (a +:+ "." +:+ b)). cbn [last_dot].
    rewrite IH. case_if; cbn [String.length]; lia.
Qed.

Lemma split_method_append svc meth :
  last_dot meth = -1 → split_method (svc +:+ "." +:+ meth) = Ret (svc, meth).
Proof.
  intros Hm. unfold split_method. rewrite last_dot_append by done.
  case_if; [lia|]. f_equal. f_equal.
  - rewrite Nat2Z.id. apply substring_prefix.
  - replace (Z.to_nat (Z.of_nat (String.length svc) + 1)) with (String.length (svc +:+ "."))
      by (rewrite append_length; cbn; lia).
    rewrite <-append_assoc. apply substring_suffix. rewrite !append_length. lia.
Qed.

(** The server object [rs] at [p] serves method [m] as [svcMeth]. *)
Record serves {W} (s : Sys W) (e svcMeth name : string) (p : nat) (rs : Server W) (m : Method W) : Prop := {
  sv_net : s.(sy_net).(reliable) = true ∧ s.(sy_net).(longReordering) = false;
  sv_enabled : s.(sy_net).(enabled) !! e = Some true;
  sv_conn : s.(sy_net).(connections) !! e = Some (Some name);
  sv_server : s.(sy_net).(servers) !! name = Some (Some p);
  sv_object : s.(sy_heap) !! p = Some rs;
  sv_plain : rs.(dispatchf) = None;
  sv_method : ∃ svc meth svc_, svcMeth = svc +:+ "." +:+ meth ∧ last_dot meth = -1 ∧
    rs.(services) !! svc = Some svc_ ∧ svc_.(methods) !! meth = Some m;
}.

Lemma dispatch_served {W} (s : Sys W) e svcMeth name p rs (m : Method W) (a : m.(In1)) w :
  serves s e svcMeth name p rs m → @GobLaws m.(In1) m.(In1_codec) →
  dispatch rs (mkReq e svcMeth (@Encode _ m.(In1_codec) a)) w =
    Ret (rs <| srv_count := rs.(srv_count) + 1 |>, (m.(Func) w a m.(In2_zero)).1,
         mkReply true (@Encode _ m.(In2_codec) (m.(Func) w a m.(In2_zero)).2)).
Proof.
  intros [_ _ _ _ _ Hd (svc & meth & svc_ & -> & Hm & Hs & Hmeth)] Hlaw.
  unfold dispatch. cbn [rq_svcMeth rq_args]. rewrite split_method_append by done.
  cbn. rewrite Hd, Hs. cbn. unfold service_dispatch. rewrite Hmeth. unfold call_method, Unmarshall.
  cbn [rq_args]. rewrite Decode_Encode_nil. cbn. by destruct (Func _ _ _ _).
Qed.

(** C28. On a reliable network, a [Call] through an enabled end connected to a
    live server runs the method exactly once on the argument the caller passed
    and returns the reply the method filled in, decoded to the same value; the
    random choices do not matter. *)
Theorem reliable_call {W} (s : Sys W) id e svcMeth name p rs (m : Method W) (a : m.(In1)) roll roll' n :
  serves s e svcMeth name p rs m → s.(sy_reqs) !! id = None → executions id s = [] →
  @GobLaws m.(In1) m.(In1_codec) → @GobLaws m.(In2) m.(In2_codec) →
  let req := mkReq e svcMeth (@Marshall _ m.(In1_codec) a) in
  @Call_start _ m.(In1_codec) _ m.(In2_codec) svcMeth a (mkClientEnd e None) = Ret (inr req) ∧
  returns (run [EvSend id req true; EvRoute id; EvStart id roll; EvRun id; EvReceive id roll' n] s)
    (λ s', ∃ r rep, s'.(sy_reqs) !! id = Some r ∧ r.(r_phase) = Answered rep ∧
      @Call_finish _ m.(In2_codec) rep = Ret (Some (m.(Func) s.(sy_world) a m.(In2_zero)).2) ∧
      s'.(sy_world) = (m.(Func) s.(sy_world) a m.(In2_zero)).1 ∧ executions id s' = [rep] ∧
      s'.(sy_heap) !! p = Some (rs <| srv_count := rs.(srv_count) + 1 |>)).
Proof.
  intros Hsv Hid Hex L1 L2 req. split; [done|].
  pose proof (dispatch_served s e svcMeth name p rs m a s.(sy_world) Hsv L1) as Hdisp.
  destruct Hsv as [[Hrel Hlr] Hen Hco Hse Hob Hpl _].
  unfold run. cbn [foldM step]. rewrite Hid. cbn [foldM mbind go_bind].
  unfold accept. cbn [with_req with_net sy_reqs]. rewrite lookup_insert_eq. cbn.
  unfold route. cbn. unfold readEndnameInfo, is_enabled, server_of. cbn. rewrite Hen, Hco. cbn. rewrite Hse. cbn.
  rewrite lookup_insert_eq. cbn. unfold start_handler, drops. cbn. rewrite Hrel. cbn.
  rewrite lookup_insert_eq. cbn. unfold run_handler. cbn.
  unfold gidx. destruct (Z.ltb_spec (Z.of_nat p) 0); [lia|]. rewrite Nat2Z.id, Hob. cbn.
  change (dispatch rs req s.(sy_world)) with
    (dispatch rs (mkReq e svcMeth (@Encode _ m.(In1_codec) a)) s.(sy_world)).
  rewrite Hdisp. cbn. rewrite lookup_insert_eq. cbn.
  unfold receive, finish. cbn.
  unfold isServerDead, is_enabled, server_of. cbn. rewrite Hen, Hse. cbn.
  rewrite bool_decide_true by done. cbn. rewrite Hlr. cbn.
  apply returns_Ret. eexists _, _. cbn. rewrite lookup_insert_eq. split; [done|]. split; [done|].
  split; [|split; [done|split]].
  - unfold Call_finish, Unmarshall. cbn. by rewrite Decode_Encode_nil.
  - unfold executions in Hex. rewrite filter_app, fmap_app, Hex. by rewrite filter_cons_True.
  - apply list_lookup_insert_eq. by eapply lookup_lt_Some.
Qed.
