(* ===== verification/LabRpcWitness.v ===== *)
(** * The network theorems at a concrete service

    One server object with one method that adds its argument to a counter and
    replies with the sum; calls to it are delivered, lost, and cut off by
    [DeleteServer]. *)

From S2P Require Import Prelude Gob Names LabRpc.

#[local] Instance Z_codec : GobCodec Z := countable_codec Z.

Definition add_method : Method Z :=
  mkMethod Z Z Z_codec Z_codec 0 (λ w x _, (w + x, w + x)).

Definition add_server : Server Z :=
  AddService (MakeService "Svc" [mkMethodInfo "Add" true 3 true 0 add_method]) MakeServer.

(** The tester's set-up: end "e" is connected to server "s" and enabled. *)
Definition setup : list (Event Z) :=
  [EvServer add_server; EvNet (AddServer "s" 0);
   EvNet (λ rn, match MakeEnd "e" rn with Ret (_, rn) => rn | _ => rn end);
   EvNet (Connect "e" "s"); EvNet (Enable "e" true)].

Definition add_req (n : Z) : reqMsg := mkReq "e" "Svc.Add" (Encode n).

Definition ready : Sys Z := result (run setup (sys_init 40)) (sys_init 40).

Lemma reliable_call_witness :
  returns (run [EvSend 7 (add_req 2) true; EvRoute 7; EvStart 7 3; EvRun 7; EvReceive 7 5 1] ready)
    (λ s, s.(sy_world) = 42 ∧ ∃ r rep, s.(sy_reqs) !! 7 = Some r ∧ r.(r_phase) = Answered rep ∧
       @Call_finish Z Z_codec rep = Ret (Some 42)).
Proof.
  destruct (reliable_call ready 7 "e" "Svc.Add" "s" 0%nat add_server add_method 2 3 5 1) as [_ Hret].
  - constructor; [split|..]; try (vm_compute; reflexivity).
    exists "Svc"%string, "Add"%string, (MakeService "Svc" [mkMethodInfo "Add" true 3 true 0 add_method]).
    repeat split; vm_compute; reflexivity.
  - vm_compute; reflexivity.
  - vm_compute; reflexivity.
  - exact (countable_codec_laws Z).
  - exact (countable_codec_laws Z).
  - eapply returns_mono; [exact Hret|]. intros s (r & rep & Hr & Hph & Hf & Hw & _).
    split; [exact Hw|]. exists r, rep. split; [exact Hr|]. split; [exact Hph|exact Hf].
Defined.

(** The first call is executed and its reply thrown away, the second works. *)
Definition lossy : list (Event Z) :=
  setup ++ [EvNet (Reliable false); EvSend 1 (add_req 2) true; EvRoute 1; EvStart 1 500; EvRun 1;
    EvReceive 1 50 0; EvSend 2 (add_req 2) true; EvRoute 2; EvStart 2 500; EvRun 2; EvReceive 2 500 0].

Definition after_loss : Sys Z := result (run lossy (sys_init 40)) (sys_init 40).

Lemma after_loss_run : run lossy (sys_init 40) = Ret after_loss.
Proof. apply result_Ret. vm_compute; reflexivity. Qed.

Lemma rpc_at_most_once_witness :
  length (executions 1 after_loss) = 1%nat ∧ (length (executions 2 after_loss) ≤ 1)%nat ∧
  executions 3 after_loss = [].
Proof.
  split; [vm_compute; reflexivity|]. split.
  - pose proof (rpc_at_most_once 40 lossy after_loss 2 after_loss_run) as H.
    destruct (after_loss.(sy_reqs) !! 2); [exact (proj1 H)|rewrite H; cbn; lia].
  - pose proof (rpc_at_most_once 40 lossy after_loss 3 after_loss_run) as H.
    destruct (after_loss.(sy_reqs) !! 3) eqn:E; [vm_compute in E; discriminate|exact H].
Defined.

(** The handler of call 7 is still running when the server is deleted. *)
Definition in_handler : list (Event Z) :=
  setup ++ [EvSend 7 (add_req 2) true; EvRoute 7; EvStart 7 500].
Definition handling : Sys Z := result (run in_handler (sys_init 40)) (sys_init 40).
Definition afterwards : list (Event Z) := [EvRun 7; EvReceive 7 500 0].
Definition deleted : Sys Z :=
  result (run (EvNet (DeleteServer "s") :: afterwards) handling) handling.

Lemma deleted_server_silent_witness :
  executions 7 deleted ≠ [] ∧
  returns (step (EvPoll 7) deleted) (λ s, r_phase <$> s.(sy_reqs) !! 7 = Some (Answered no_reply)).
Proof.
  split; [vm_compute; discriminate|].
  destruct (handling.(sy_reqs) !! 7) as [r|] eqn:E; [|vm_compute in E; discriminate].
  assert (r_phase <$> handling.(sy_reqs) !! 7 = Some (Waiting "s" 0 true false)) as Hph
    by (vm_compute; reflexivity).
  rewrite E in Hph. injection Hph as Hph.
  refine (proj2 (deleted_server_silent handling deleted 7 r "s" 0 true false afterwards E Hph _ _)).
  - repeat constructor.
  - apply result_Ret. vm_compute; reflexivity.
Defined.
