(* ===== verification/TesterGroup.v ===== *)
(** * Groups of servers: [tester1/group.go], [tester1/srv.go]

    The tester starts, kills and partitions groups of servers by enabling and
    disabling the ends of the simulated network. A server process
    ([daemonclnt.go], [daemonsrv.go]) is represented by the persister
    it holds and by whether it lives, has ended by itself or has been waited for;
    the random names of the ends are arguments. *)

From S2P Require Import Prelude Gob Persister LabRpc.

Definition ServerName (gid i : Z) : string := "server-" +:+ pretty gid +:+ "-" +:+ pretty i.

(** ** The server process

    A process can end by itself; its entry in the process table stays until it
    has been waited for, which only [kill] does. *)

Inductive ProcState := Alive | Ended | Waited.
Record Daemon := mkDaemon { da_persister : Persister; da_proc : ProcState }.
#[export] Instance ProcState_eq_dec : EqDecision ProcState.
Proof. solve_decision. Defined.

(** [DaemonClnt.init] and [DaemonSrv.Init] *)
Definition daemon_init (persister : Persister) : Daemon :=
  mkDaemon (Save (ReadRaftState persister) (ReadSnapshot persister) MakePersister) Alive.

(** A call to the process: it fails if the process has ended, and the callers
    end the test then. *)
Definition daemon_call {A} (f : Daemon → A) (ds : Daemon) : go A :=
  if decide (ds.(da_proc) = Alive) then Ret (f ds) else Fatal.

(** [DaemonSrv.CheckpointPersister], and the copy [DaemonClnt.checkpointPersister]
    makes of its reply. *)
Definition CheckpointPersister (ds : Daemon) : bytes * bytes :=
  let p := Checkpoint ds.(da_persister) in (ReadRaftState p, ReadSnapshot p).
Definition checkpointPersister (ds : Daemon) : go Persister :=
  r ← daemon_call CheckpointPersister ds;
  let '(raftstate, snapshot) := (r : bytes * bytes) in Ret (Save raftstate snapshot MakePersister).

Definition StateSize (ds : Daemon) : Z * Z :=
  (RaftStateSize ds.(da_persister), SnapshotSize ds.(da_persister)).
Definition stateSize (ds : Daemon) : go (Z * Z) := daemon_call StateSize ds.

(** [DaemonClnt.kill]: [Process.Kill] is an error only if the process has been
    waited for. *)
Definition daemon_kill (ds : Daemon) : go Daemon :=
  match ds.(da_proc) with Waited => Fatal | _ => Ret (mkDaemon ds.(da_persister) Waited) end.

(** ** A server *)

Record TServer := mkTServer {
  saved : option Persister;
  endNames : option (list string);
  clntEnds : list ClientEnd;
  dc : option Daemon;
}.

#[export] Instance upd_saved : Upd saved := λ f s, mkTServer (f s.(saved)) s.(endNames) s.(clntEnds) s.(dc).
#[export] Instance upd_dc : Upd dc := λ f s, mkTServer s.(saved) s.(endNames) s.(clntEnds) (f s.(dc)).

(** Indexing a nil slice is out of range. *)
Definition end_name (s : TServer) (j : Z) : go string := gidx (default [] s.(endNames)) j.

(** [names] are the results of [Randstring(20)], one for each server. *)
Fixpoint make_ends (gid j : Z) (names : list string) (net : Network) : go (list ClientEnd * Network) :=
  match names with
  | [] => Ret ([], net)
  | name :: names =>
    e ← MakeEnd name net;
    let net := Connect name (ServerName gid j) e.2 in
    r ← make_ends gid (j + 1) names net;
    Ret (e.1 :: r.1, r.2)
  end.

Definition makeServer (gid : Z) (names : list string) (net : Network) : go (TServer * Network) :=
  r ← make_ends gid 0 names net;
  Ret (mkTServer None (Some names) r.1 None, r.2).

Definition startServer (gid : Z) (names : list string) (s : TServer) (net : Network) :
    go (TServer * Network) :=
  r ← makeServer gid names net;
  Ret (r.1 <| saved := Some (default MakePersister s.(saved)) |>, r.2).

Definition enable_to (connected : list bool) (s : TServer) (net : Network) (t : Z) : go Network :=
  c ← gidx connected t;
  if (c : bool) then name ← end_name s t; Ret (Enable name true net) else Ret net.

Definition srv_connect (connected : list bool) (to : list Z) (s : TServer) (net : Network) : go Network :=
  foldM (enable_to connected s) net to.

Definition srv_disconnect (from : list Z) (s : TServer) (net : Network) : go Network :=
  match s.(endNames) with
  | None => Ret net
  | Some _ => foldM (λ net f, name ← end_name s f; Ret (Enable name false net)) net from
  end.

Definition srv_shutdownServer (s : TServer) : go TServer :=
  match s.(dc) with
  | Some d =>
    p ← checkpointPersister d;
    _ ← daemon_kill d;
    Ret (s <| saved := Some p |> <| dc := None |>)
  | None => Ret s
  end.

Definition state_sizes (s : TServer) : go (Z * Z) :=
  match s.(dc), s.(saved) with
  | Some d, _ => stateSize d
  | None, Some p => Ret (RaftStateSize p, SnapshotSize p)
  | None, None => Panic
  end.
Definition srv_raftSize (s : TServer) : go Z := r ← state_sizes s; Ret r.1.
Definition srv_snapshotSize (s : TServer) : go Z := r ← state_sizes s; Ret r.2.

(** ** A group *)

Record ServerGrp := mkServerGrp {
  srvs : list TServer;
  servernames : list string;
  grp_gid : Z;
  connected : list bool;
}.

#[export] Instance upd_srvs : Upd srvs := λ f g, mkServerGrp (f g.(srvs)) g.(servernames) g.(grp_gid) g.(connected).
#[export] Instance upd_connected : Upd connected := λ f g, mkServerGrp g.(srvs) g.(servernames) g.(grp_gid) (f g.(connected)).

(** [names]: the [n] names drawn for each of the [n] servers. *)
Fixpoint make_servers (gid : Z) (names : list (list string)) (net : Network) : go (list TServer * Network) :=
  match names with
  | [] => Ret ([], net)
  | ns :: names =>
    s ← makeServer gid ns net;
    r ← make_servers gid names s.2;
    Ret (s.1 :: r.1, r.2)
  end.

Definition makeSrvGrp (gid : Z) (names : list (list string)) (net : Network) : go (ServerGrp * Network) :=
  let n := glen names in
  r ← make_servers gid names net;
  Ret (mkServerGrp r.1 (ServerName gid <$> range n) gid (replicate (Z.to_nat n) false), r.2).

Definition N (sg : ServerGrp) : Z := glen sg.(srvs).
Definition SrvName (i : Z) (sg : ServerGrp) : go string := gidx sg.(servernames) i.
Definition SrvNamesTo (to : list Z) (sg : ServerGrp) : go (list string) :=
  foldM (λ ns i, n ← gidx sg.(servernames) i; Ret (ns ++ [n])) [] to.
Definition all (sg : ServerGrp) : list Z := range (glen sg.(srvs)).
Definition IsConnected (i : Z) (sg : ServerGrp) : go bool := gidx sg.(connected) i.

Definition Grp : Type := ServerGrp * Network.

(** [connected[i] = true], then the outgoing and the incoming ends. *)
Definition enable_from (i : Z) (sg : ServerGrp) (net : Network) (t : Z) : go Network :=
  c ← IsConnected t sg;
  if (c : bool) then
    s ← gidx sg.(srvs) t;
    name ← end_name s i;
    Ret (Enable name true net)
  else Ret net.

Definition connect (i : Z) (to : list Z) (g : Grp) : go Grp :=
  conn ← gset_idx g.1.(connected) i true;
  let sg := g.1 <| connected := conn |> in
  s ← gidx sg.(srvs) i;
  net ← srv_connect sg.(connected) to s g.2;
  net ← foldM (enable_from i sg) net to;
  Ret (sg, net).

Definition disable_from (i : Z) (sg : ServerGrp) (net : Network) (f : Z) : go Network :=
  s ← gidx sg.(srvs) f;
  match s.(endNames) with
  | Some _ => name ← end_name s i; Ret (Enable name false net)
  | None => Ret net
  end.

Definition disconnect (i : Z) (from : list Z) (g : Grp) : go Grp :=
  conn ← gset_idx g.1.(connected) i false;
  let sg := g.1 <| connected := conn |> in
  s ← gidx sg.(srvs) i;
  net ← srv_disconnect from s g.2;
  net ← foldM (disable_from i sg) net from;
  Ret (sg, net).

Definition ConnectOne (i : Z) (g : Grp) : go Grp := connect i (all g.1) g.
Definition ConnectAll (g : Grp) : go Grp := foldM (λ g i, ConnectOne i g) g (all g.1).
Definition DisconnectAll (i : Z) (g : Grp) : go Grp := disconnect i (all g.1) g.

(** [p] points to the network server made for the process; [started] is false
    when the process could not be run. A process that is run answers [init] and
    [waitInit] ([Daemon.v] has when it does). *)
Definition StartServer (i : Z) (names : list string) (started : bool) (p : nat) (g : Grp) : go Grp :=
  s ← gidx g.1.(srvs) i;
  r ← startServer g.1.(grp_gid) names s g.2;
  let srv := r.1 in
  if negb started then
    ss ← gset_idx g.1.(srvs) i srv; Ret (g.1 <| srvs := ss |>, r.2)
  else
    match srv.(saved) with
    | None => Panic
    | Some saved_ =>
      let srv := srv <| dc := Some (daemon_init saved_) |> in
      ss ← gset_idx g.1.(srvs) i srv;
      Ret (g.1 <| srvs := ss |>, AddServer (ServerName g.1.(grp_gid) i) p r.2)
    end.

Definition ShutdownServer (i : Z) (g : Grp) : go Grp :=
  g ← disconnect i (all g.1) g;
  let net := DeleteServer (ServerName g.1.(grp_gid) i) g.2 in
  s ← gidx g.1.(srvs) i;
  s ← srv_shutdownServer s;
  ss ← gset_idx g.1.(srvs) i s;
  Ret (g.1 <| srvs := ss |>, net).

Definition Kill (l : list Z) (g : Grp) : go Grp := foldM (λ g i, ShutdownServer i g) g l.
Definition Shutdown (g : Grp) : go Grp := Kill (all g.1) g.

(** The largest of the servers' sizes. *)
Definition max_size (size_of : TServer → go Z) (sg : ServerGrp) : go Z :=
  foldM (λ m s, n ← size_of s; Ret (if m <? n then n else m)) 0 sg.(srvs).
Definition RaftSize : ServerGrp → go Z := max_size srv_raftSize.
Definition GrpSnapshotSize : ServerGrp → go Z := max_size srv_snapshotSize.

(** The loop of [MakePartition]: [(j, p1, p2)]. *)
Definition partition_step (l : Z) (st : Z * list Z * list Z) (i : Z) : go (Z * list Z * list Z) :=
  let '(j, p1, p2) := st in
  if i =? l then Ret st
  else if j <? glen p1 then p1 ← gset_idx p1 j i; Ret (j + 1, p1, p2)
  else p2 ← gset_idx p2 (j - glen p1) i; Ret (j + 1, p1, p2).

Definition MakePartition (l : Z) (sg : ServerGrp) : go (list Z * list Z) :=
  let n := glen sg.(srvs) in
  st ← foldM (partition_step l)
         (0, replicate (Z.to_nat (n `quot` 2 + 1)) 0, replicate (Z.to_nat (n `quot` 2)) 0) (range n);
  let '(_, p1, p2) := st in
  p2 ← gset_idx p2 (glen p2 - 1) l;
  Ret (p1, p2).

Definition isolate (other own : list Z) (g : Grp) (i : Z) : go Grp :=
  g ← disconnect i other g; connect i own g.

Definition Partition (p1 p2 : list Z) (g : Grp) : go Grp :=
  g ← foldM (isolate p2 p1) g p1;
  foldM (isolate p1 p2) g p2.

(** ** Which ends are enabled *)

(** The name of the end from server [a] to server [b]. *)
Definition nm (ss : list TServer) (a b : Z) : option string :=
  match ss.[a] with Some s => (default [] s.(endNames)).[b] | None => None end.

(** Whether requests from [a] to [b] get through. *)
Definition lnk (ss : list TServer) (net : Network) (a b : Z) : bool :=
  match nm ss a b with Some e => is_enabled net e | None => false end.

(** [n] servers, each with [n] ends, all named differently. *)
Record ends_ok (ss : list TServer) (n : Z) : Prop := {
  eo_len : glen ss = n;
  eo_ends : ∀ i s, ss.[i] = Some s → ∃ names, s.(endNames) = Some names ∧ glen names = n;
  eo_inj : ∀ a b a' b' e, nm ss a b = Some e → nm ss a' b' = Some e → a = a' ∧ b = b';
}.

Definition group_ok (g : Grp) (n : Z) : Prop :=
  ends_ok g.1.(srvs) n ∧ glen g.1.(connected) = n.

Section links.
Context (ss : list TServer) (n : Z) (Hok : ends_ok ss n).

Lemma server_at i : 0 ≤ i < n → ∃ s names,
  ss.[i] = Some s ∧ s.(endNames) = Some names ∧ glen names = n.
Proof.
  intros Hi. destruct (zlookup_is_Some ss i) as [s Hs]; [by rewrite (eo_len _ _ Hok)|].
  destruct (eo_ends _ _ Hok i s Hs) as (names & ? & ?). by exists s, names.
Qed.

Lemma nm_at a b : 0 ≤ a < n → 0 ≤ b < n → ∃ s e,
  gidx ss a = Ret s ∧ is_Some s.(endNames) ∧ end_name s b = Ret e ∧ nm ss a b = Some e.
Proof.
  intros Ha Hb. destruct (server_at a Ha) as (s & names & Hs & Hn & Hl).
  destruct (zlookup_is_Some names b) as [e He]; [by rewrite Hl|].
  exists s, e. rewrite gidx_Ret. split; [done|]. split; [by rewrite Hn|].
  unfold end_name, nm. by rewrite Hs, Hn, gidx_Ret.
Qed.

Lemma lnk_Enable x y e v net a b :
  nm ss x y = Some e →
  lnk ss (Enable e v net) a b = if decide ((a, b) = (x, y)) then v else lnk ss net a b.
Proof.
  intros Hxy. unfold lnk, is_enabled, Enable. cbn. destruct (nm ss a b) as [e'|] eqn:Hab.
  - case_decide as E.
    + injection E as -> ->. rewrite Hab in Hxy. injection Hxy as ->. by rewrite lookup_insert_eq.
    + rewrite lookup_insert_ne; [done|]. intros ->.
      destruct (eo_inj _ _ Hok _ _ _ _ _ Hxy Hab) as [-> ->]. done.
  - case_decide as E; [|done]. injection E as -> ->. congruence.
Qed.

(** A loop that enables or disables the ends selected by [sel]. *)
Lemma fold_enable (f : Network → Z → go Network) (sel : Z → option (Z * Z)) v (ts : list Z) : ∀ net,
  (∀ net t, t ∈ ts → f net t = Ret net ∧ sel t = None ∨
     ∃ a b e, sel t = Some (a, b) ∧ nm ss a b = Some e ∧ f net t = Ret (Enable e v net)) →
  ∃ net', foldM f net ts = Ret net' ∧
    ∀ a b, lnk ss net' a b = if decide (Some (a, b) ∈ sel <$> ts) then v else lnk ss net a b.
Proof.
  induction ts as [|t ts IH]; intros net Hf; cbn [foldM].
  { exists net. split; [done|]. intros a b. by rewrite decide_False by apply not_elem_of_nil. }
  assert (∀ net t, t ∈ ts → f net t = Ret net ∧ sel t = None ∨
     ∃ a b e, sel t = Some (a, b) ∧ nm ss a b = Some e ∧ f net t = Ret (Enable e v net)) as Hf'
    by (intros; apply Hf; by right).
  destruct (Hf net t) as [[-> Hsel]|(x & y & e & Hsel & Hnm & ->)]; [left|..].
  - destruct (IH net Hf') as (net' & E & Hl).
    exists net'. split; [exact E|]. intros a b. rewrite fmap_cons, Hl, Hsel.
    apply decide_ext. rewrite elem_of_cons. naive_solver.
  - destruct (IH (Enable e v net) Hf') as (net' & E & Hl).
    exists net'. split; [exact E|]. intros a b. rewrite fmap_cons, Hl, Hsel, (lnk_Enable x y) by done.
    destruct (decide (Some (a, b) ∈ sel <$> ts)) as [Hi|Hi].
    + by rewrite decide_True by by right.
    + case_decide as Ex.
      * injection Ex as -> ->. by rewrite decide_True by left.
      * rewrite decide_False; [done|]. rewrite elem_of_cons. naive_solver.
Qed.
End links.

(** The ends between [i] and the servers in [P]. *)
Definition touches (i : Z) (P : Z → Prop) (a b : Z) : Prop := (a = i ∧ P b) ∨ (b = i ∧ P a).

Lemma not_touches i (P : Z → Prop) a b :
  (a = i → ¬ P b) → (b = i → ¬ P a) → ¬ touches i P a b.
Proof. intros H1 H2 [[? ?]|[? ?]]; [by apply H1|by apply H2]. Qed.

Section group_links.
Context (n : Z).

Lemma group_conn_ok g (v : bool) i :
  group_ok g n → group_ok (g.1 <| connected := <[Z.to_nat i := v]> g.1.(connected) |>, g.2) n.
Proof. intros [? ?]. split; [done|]. cbn. by rewrite glen_insert. Qed.

Lemma group_net_ok sg net net' : group_ok (sg, net) n → group_ok (sg, net') n.
Proof. done. Qed.

Lemma connect_spec g i to :
  group_ok g n → 0 ≤ i < n → (∀ t, t ∈ to → 0 ≤ t < n) →
  let conn := <[Z.to_nat i := true]> g.1.(connected) in
  let P t := t ∈ to ∧ conn.[t] = Some true in
  ∃ net', connect i to g = Ret (g.1 <| connected := conn |>, net') ∧
    ∀ a b, (touches i P a b → lnk g.1.(srvs) net' a b = true) ∧
           (¬ touches i P a b → lnk g.1.(srvs) net' a b = lnk g.1.(srvs) g.2 a b).
Proof.
  intros [Hok Hlen] Hi Hto conn P. set (ss := g.1.(srvs)).
  assert (glen conn = n) as Hcl by (unfold conn; by rewrite glen_insert).
  destruct (server_at ss n Hok i Hi) as (s & names & Hs & _).
  unfold connect. rewrite gset_idx_Ret by lia. cbn [mbind go_bind].
  fold conn. change (srvs (g.1 <| connected := conn |>)) with ss.
  rewrite (proj2 (gidx_Ret _ _ _) Hs). cbn [mbind go_bind].
  set (sel1 t := if decide (conn.[t] = Some true) then Some (i, t) else None).
  set (sel2 t := if decide (conn.[t] = Some true) then Some (t, i) else None).
  destruct (fold_enable ss n Hok (enable_to conn s) sel1 true to g.2) as (net1 & E1 & L1).
  { intros net t Ht. specialize (Hto t Ht). unfold enable_to, sel1.
    destruct (zlookup_is_Some conn t) as [c Hc]; [lia|]. rewrite (proj2 (gidx_Ret _ _ _) Hc), Hc. cbn.
    destruct c; [right|left; by rewrite decide_False].
    rewrite decide_True by done. destruct (nm_at ss n Hok i t Hi Hto) as (s' & e & Hs' & _ & He & Hnm).
    rewrite gidx_Ret in Hs'. rewrite Hs in Hs'. injection Hs' as <-. exists i, t, e. by rewrite He. }
  unfold srv_connect. change (connected (g.1 <| connected := conn |>)) with conn. rewrite E1. cbn [mbind go_bind].
  destruct (fold_enable ss n Hok (enable_from i (g.1 <| connected := conn |>)) sel2 true to net1)
    as (net2 & E2 & L2).
  { intros net t Ht. specialize (Hto t Ht). unfold enable_from, IsConnected, sel2. cbn.
    destruct (zlookup_is_Some conn t) as [c Hc]; [lia|]. rewrite (proj2 (gidx_Ret _ _ _) Hc), Hc. cbn.
    destruct c; [right|left; by rewrite decide_False].
    rewrite decide_True by done. destruct (nm_at ss n Hok t i Hto Hi) as (s' & e & Hs' & _ & He & Hnm).
    unfold ss in Hs'. rewrite Hs'. cbn. rewrite He. cbn. by exists t, i, e. }
  rewrite E2. exists net2. split; [done|]. intros a b. rewrite L2, L1. unfold touches, P.
  assert (Some (a, b) ∈ sel1 <$> to ↔ a = i ∧ b ∈ to ∧ conn.[b] = Some true) as H1.
  { rewrite list_elem_of_fmap. unfold sel1. split.
    - intros (t & E & Ht). case_decide; [|done]. by injection E as -> ->.
    - intros (-> & ? & ?). exists b. by rewrite decide_True. }
  assert (Some (a, b) ∈ sel2 <$> to ↔ b = i ∧ a ∈ to ∧ conn.[a] = Some true) as H2.
  { rewrite list_elem_of_fmap. unfold sel2. split.
    - intros (t & E & Ht). case_decide; [|done]. by injection E as -> ->.
    - intros (-> & ? & ?). exists a. by rewrite decide_True. }
  repeat case_decide; tauto.
Qed.

Lemma disconnect_spec g i from :
  group_ok g n → 0 ≤ i < n → (∀ t, t ∈ from → 0 ≤ t < n) →
  let conn := <[Z.to_nat i := false]> g.1.(connected) in
  ∃ net', disconnect i from g = Ret (g.1 <| connected := conn |>, net') ∧
    ∀ a b, (touches i (.∈ from) a b → lnk g.1.(srvs) net' a b = false) ∧
           (¬ touches i (.∈ from) a b → lnk g.1.(srvs) net' a b = lnk g.1.(srvs) g.2 a b).
Proof.
  intros [Hok Hlen] Hi Hto conn. set (ss := g.1.(srvs)).
  destruct (server_at ss n Hok i Hi) as (s & names & Hs & Hn & _).
  unfold disconnect. rewrite gset_idx_Ret by lia. cbn [mbind go_bind].
  fold conn. change (srvs (g.1 <| connected := conn |>)) with ss.
  rewrite (proj2 (gidx_Ret _ _ _) Hs). cbn [mbind go_bind].
  unfold srv_disconnect. rewrite Hn.
  destruct (fold_enable ss n Hok (λ net f, name ← end_name s f; Ret (Enable name false net))
    (λ t, Some (i, t)) false from g.2) as (net1 & E1 & L1).
  { intros net t Ht. specialize (Hto t Ht). right.
    destruct (nm_at ss n Hok i t Hi Hto) as (s' & e & Hs' & _ & He & Hnm).
    rewrite gidx_Ret, Hs in Hs'. injection Hs' as <-. exists i, t, e. by rewrite He. }
  rewrite E1. cbn [mbind go_bind].
  destruct (fold_enable ss n Hok (disable_from i (g.1 <| connected := conn |>))
    (λ t, Some (t, i)) false from net1) as (net2 & E2 & L2).
  { intros net t Ht. specialize (Hto t Ht). right. unfold disable_from. cbn.
    destruct (nm_at ss n Hok t i Hto Hi) as (s' & e & Hs' & [? Hs''] & He & Hnm).
    unfold ss in Hs'. rewrite Hs'. cbn. rewrite Hs'', He. cbn. by exists t, i, e. }
  rewrite E2. exists net2. split; [done|]. intros a b. rewrite L2, L1. unfold touches.
  assert (Some (a, b) ∈ (λ t, Some (i, t)) <$> from ↔ a = i ∧ b ∈ from) as H1.
  { rewrite list_elem_of_fmap. naive_solver. }
  assert (Some (a, b) ∈ (λ t, Some (t, i)) <$> from ↔ b = i ∧ a ∈ from) as H2.
  { rewrite list_elem_of_fmap. naive_solver. }
  repeat case_decide; tauto.
Qed.
End group_links.

(** [makeSrvGrp] builds such a group when the drawn names are distinct. *)
Lemma NoDup_concat_inj {A} (ls : list (list A)) : ∀ a b a' b' l l' e,
  NoDup (concat ls) → ls.[a] = Some l → l.[b] = Some e → ls.[a'] = Some l' → l'.[b'] = Some e →
  a = a' ∧ b = b'.
Proof.
  assert (∀ (l : list A) b b' e, NoDup l → l.[b] = Some e → l.[b'] = Some e → b = b') as Hone.
  { intros l b b' e Hnd Hb Hb'. pose proof (zlookup_lt_Some _ _ _ Hb). pose proof (zlookup_lt_Some _ _ _ Hb').
    unfold zlookup in *. destruct (Z.ltb_spec b 0), (Z.ltb_spec b' 0); try lia.
    pose proof (NoDup_lookup _ _ _ _ Hnd Hb Hb'). lia. }
  induction ls as [|l0 ls IH]; intros a b a' b' l l' e Hnd Ha Hb Ha' Hb'.
  { apply zlookup_lt_Some in Ha. unfold glen in Ha. cbn in Ha. lia. }
  cbn in Hnd. apply NoDup_app in Hnd as (Hnd0 & Hdisj & Hnd).
  pose proof (zlookup_lt_Some _ _ _ Ha). pose proof (zlookup_lt_Some _ _ _ Ha').
  assert (∀ k m x, 0 < k → (l0 :: ls).[k] = Some m → x ∈ m → x ∈ concat ls) as Hin.
  { intros k m x Hk Hm Hx. rewrite zlookup_cons_pos in Hm by done. apply elem_of_concat.
    exists m. split; [done|]. apply zlookup_elem_of. by eexists. }
  assert (∀ m k, m.[k] = Some e → e ∈ m) as Hmem by (intros; apply zlookup_elem_of; by eexists).
  destruct (Z.eq_dec a 0) as [->|], (Z.eq_dec a' 0) as [->|].
  - rewrite zlookup_cons_0 in Ha, Ha'. injection Ha as <-. injection Ha' as <-. split; [done|exact (Hone _ b b' e Hnd0 Hb Hb')].
  - rewrite zlookup_cons_0 in Ha. injection Ha as <-. exfalso. apply (Hdisj e); [by eapply Hmem|].
    eapply (Hin a'); [lia|done|by eapply Hmem].
  - rewrite zlookup_cons_0 in Ha'. injection Ha' as <-. exfalso. apply (Hdisj e); [by eapply Hmem|].
    eapply (Hin a); [lia|done|by eapply Hmem].
  - rewrite zlookup_cons_pos in Ha, Ha' by lia.
    destruct (IH (a - 1) b (a' - 1) b' l l' e Hnd Ha Hb Ha' Hb'). lia.
Qed.

Lemma make_servers_names gid names : ∀ net ss net',
  make_servers gid names net = Ret (ss, net') → endNames <$> ss = Some <$> names.
Proof.
  induction names as [|ns names IH]; intros net ss net'; cbn [make_servers]; intros H.
  { by injection H as <- <-. }
  apply bind_Ret_inv in H as (a & Ha & H). apply bind_Ret_inv in H as (a0 & Ha0 & H).
  injection H as <- <-. destruct a0 as [ss0 net0]. rewrite !fmap_cons. cbn [fst].
  rewrite (IH _ _ _ Ha0). f_equal. unfold makeServer in Ha. go_inv Ha. by subst a.
Qed.

Lemma makeSrvGrp_ok gid names net g :
  (∀ ns, ns ∈ names → glen ns = glen names) → NoDup (concat names) →
  makeSrvGrp gid names net = Ret g → group_ok g (glen names).
Proof.
  intros Hlen Hnd. unfold makeSrvGrp. intros H. go_inv H. subst g. destruct a as [ss net'].
  pose proof (make_servers_names _ _ _ _ _ Ha) as Hn. cbn [fst snd].
  assert (∀ i s, ss.[i] = Some s → ∃ ns, s.(endNames) = Some ns ∧ names.[i] = Some ns) as Hss.
  { intros i s Hs. unfold zlookup in *. destruct (i <? 0); [done|].
    assert ((endNames <$> ss) !! Z.to_nat i = Some (endNames s)) as Hf by by rewrite list_lookup_fmap, Hs.
    rewrite Hn, list_lookup_fmap in Hf. destruct (names !! Z.to_nat i) as [ns|]; [|done].
    cbn in Hf. injection Hf as <-. by exists ns. }
  split; [constructor|].
  - apply (f_equal length) in Hn. rewrite !length_fmap in Hn. unfold glen. cbn. by rewrite Hn.
  - intros i s Hs. destruct (Hss i s Hs) as (ns & Hns & Hi). exists ns. split; [done|].
    apply Hlen, zlookup_elem_of. by exists i.
  - intros a b a' b' e. unfold nm. cbn.
    destruct (ss.[a]) as [s|] eqn:Es; [|done]. destruct (ss.[a']) as [s'|] eqn:Es'; [|done].
    destruct (Hss _ _ Es) as (ns & -> & Hi), (Hss _ _ Es') as (ns' & -> & Hi'). cbn. intros Hb Hb'.
    by eapply (NoDup_concat_inj names a b a' b' ns ns').
  - cbn. rewrite glen_replicate. pose proof (glen_nonneg names). lia.
Qed.

(** ** Partitions *)

Section partition.
Context (n : Z).

(** The servers [d] of [own] are connected to each other and cut off from
    [other]; whatever concerns neither side is as in [g0]. *)
Record isolated (own other : list Z) (g0 : Grp) (d : list Z) (g : Grp) : Prop := {
  is_ok : group_ok g n;
  is_srvs : g.1.(srvs) = g0.1.(srvs);
  is_conn : ∀ a, a ∈ d → g.1.(connected).[a] = Some true;
  is_conn_old : ∀ a, a ∉ d → g.1.(connected).[a] = g0.1.(connected).[a];
  is_own : ∀ a b, a ∈ d → b ∈ d → lnk g0.1.(srvs) g.2 a b = true;
  is_other : ∀ a b, a ∈ d → b ∈ other →
    lnk g0.1.(srvs) g.2 a b = false ∧ lnk g0.1.(srvs) g.2 b a = false;
  is_old : ∀ a b, a ∉ own → b ∉ own → lnk g0.1.(srvs) g.2 a b = lnk g0.1.(srvs) g0.2 a b;
  is_out : ∀ a b, a ∉ own ++ other ∨ b ∉ own ++ other →
    lnk g0.1.(srvs) g.2 a b = lnk g0.1.(srvs) g0.2 a b;
}.

Lemma isolate_step own other g0 d g i :
  (∀ t, t ∈ own ++ other → 0 ≤ t < n) → (∀ t, t ∈ own → t ∉ other) → (∀ t, t ∈ d → t ∈ own) →
  i ∈ own → isolated own other g0 d g →
  ∃ g', isolate other own g i = Ret g' ∧ isolated own other g0 (d ++ [i]) g'.
Proof.
  intros Hr Hdisj Hd Hi [Hok Hss Hc Hco Hown Hoth Hold Hout].
  assert (0 ≤ i < n) as Hin by (apply Hr; set_solver).
  destruct (disconnect_spec n g i other Hok Hin) as (net1 & E1 & L1); [set_solver|].
  pose proof (group_conn_ok n g false i Hok) as Hok1.
  set (g1 := (g.1 <| connected := <[Z.to_nat i := false]> g.1.(connected) |>, net1)) in *.
  assert (group_ok g1 n) as Hok1' by exact Hok1. clear Hok1.
  destruct (connect_spec n g1 i own Hok1' Hin) as (net2 & E2 & L2); [set_solver|].
  unfold isolate. rewrite E1. cbn [mbind go_bind]. fold g1. rewrite E2.
  set (conn := <[Z.to_nat i := true]> g1.1.(connected)) in *.
  assert (glen g.1.(connected) = n) as Hlen by apply Hok.
  assert (∀ a, conn.[a] = if decide (i = a) then Some true else g.1.(connected).[a]) as Hconn.
  { intros a. unfold conn, g1. cbn. rewrite zlookup_insert by (rewrite glen_insert; lia).
    case_decide; [done|]. rewrite zlookup_insert by lia. by rewrite decide_False. }
  change (g1.1.(srvs)) with g.1.(srvs) in L2. rewrite Hss in L1, L2.
  change (g1.2) with net1 in L2.
  eexists. split; [done|].
  assert (∀ a, a ∈ d ++ [i] ↔ a ∈ d ∨ a = i) as Hdi by (intros; rewrite elem_of_app, list_elem_of_singleton; done).
  assert (∀ a, a ∈ d ++ [i] → a ∈ own ∧ conn.[a] = Some true) as Hdc.
  { intros a [Ha| ->]%Hdi; rewrite Hconn; [|by rewrite decide_True].
    split; [by apply Hd|]. case_decide; [done|by apply Hc]. }
  constructor; cbn [fst snd].
  - split; [exact (proj1 Hok)|]. unfold conn, g1. cbn. by rewrite !glen_insert.
  - exact Hss.
  - intros a Ha. by apply Hdc.
  - intros a Ha. cbn. fold conn. rewrite Hconn. rewrite Hdi in Ha. rewrite decide_False by naive_solver.
    apply Hco. tauto.
  - intros a b Ha Hb. destruct (decide (a = i ∨ b = i)) as [E|E].
    + apply L2. pose proof (Hdc _ Ha). pose proof (Hdc _ Hb). destruct E; [left|right]; done.
    + destruct (L2 a b) as [_ ->]; [|apply not_touches; cbn; naive_solver].
      destruct (L1 a b) as [_ ->]; [|apply not_touches; cbn; naive_solver].
      rewrite Hdi in Ha, Hb. apply Hown; tauto.
  - intros a b Ha Hb. assert (a ∈ own) as Hao by by apply Hdc.
    assert (b ∉ own ∧ b ≠ i ∧ a ∉ other) as (Hbo & Hbi & Hao') by naive_solver.
    destruct (L2 a b) as [_ ->]; [|apply not_touches; cbn; naive_solver].
    destruct (L2 b a) as [_ ->]; [|apply not_touches; cbn; naive_solver].
    destruct (decide (a = i)) as [->|Hai].
    + split; apply L1; unfold touches; tauto.
    + destruct (L1 a b) as [_ ->]; [|apply not_touches; cbn; naive_solver].
      destruct (L1 b a) as [_ ->]; [|apply not_touches; cbn; naive_solver].
      rewrite Hdi in Ha. apply Hoth; tauto.
  - intros a b Ha Hb. assert (a ≠ i ∧ b ≠ i) as [? ?] by naive_solver.
    destruct (L2 a b) as [_ ->]; [|apply not_touches; cbn; naive_solver].
    destruct (L1 a b) as [_ ->]; [|apply not_touches; cbn; naive_solver]. by apply Hold.
  - intros a b Hab. rewrite !elem_of_app in Hab.
    destruct (L2 a b) as [_ ->]; [|apply not_touches; cbn; naive_solver].
    destruct (L1 a b) as [_ ->]; [|apply not_touches; cbn; naive_solver]. apply Hout.
    by rewrite !elem_of_app.
Qed.

Lemma isolate_loop own other g0 ts : ∀ d g,
  (∀ t, t ∈ own ++ other → 0 ≤ t < n) → (∀ t, t ∈ own → t ∉ other) → (∀ t, t ∈ d → t ∈ own) →
  (∀ t, t ∈ ts → t ∈ own) → isolated own other g0 d g →
  ∃ g', foldM (isolate other own) g ts = Ret g' ∧ isolated own other g0 (d ++ ts) g'.
Proof.
  induction ts as [|i ts IH]; intros d g Hr Hdisj Hd Hts Hg; cbn [foldM].
  { exists g. by rewrite app_nil_r. }
  destruct (isolate_step own other g0 d g i) as (g1 & -> & Hg1); [done..|apply Hts; left|done|].
  cbn [mbind go_bind]. destruct (IH (d ++ [i]) g1) as (g' & E & Hg'); [done|done| | |done|].
  - intros t [Ht|Ht]%elem_of_app; [by apply Hd|]. apply list_elem_of_singleton in Ht as ->. apply Hts. left.
  - intros t Ht. apply Hts. by right.
  - exists g'. rewrite <-app_assoc in Hg'. done.
Qed.

Lemma isolated_nil own other g : group_ok g n → isolated own other g [] g.
Proof. intros Hok. constructor; try done; intros; by (set_solver || done). Qed.
End partition.

(** [Partition] cuts a group into the two parts it is given: afterwards a
    request from one server to another gets through if both are on the same
    side, and does not if they are on different sides; every server of the two
    parts is on the net, and the ends that concern neither part are as
    before, whatever the connections were. *)
Theorem Partition_spec n g p1 p2 :
  group_ok g n → (∀ t, t ∈ p1 ++ p2 → 0 ≤ t < n) → (∀ t, t ∈ p1 → t ∉ p2) →
  ∃ g', Partition p1 p2 g = Ret g' ∧ group_ok g' n ∧ g'.1.(srvs) = g.1.(srvs) ∧
    (∀ a, g'.1.(connected).[a] = if decide (a ∈ p1 ++ p2) then Some true else g.1.(connected).[a]) ∧
    (∀ a b, (a ∈ p1 ∧ b ∈ p1) ∨ (a ∈ p2 ∧ b ∈ p2) → lnk g'.1.(srvs) g'.2 a b = true) ∧
    (∀ a b, (a ∈ p1 ∧ b ∈ p2) ∨ (a ∈ p2 ∧ b ∈ p1) → lnk g'.1.(srvs) g'.2 a b = false) ∧
    (∀ a b, a ∉ p1 ++ p2 ∨ b ∉ p1 ++ p2 → lnk g'.1.(srvs) g'.2 a b = lnk g.1.(srvs) g.2 a b).
Proof.
  intros Hok Hr Hdisj. unfold Partition.
  destruct (isolate_loop n p1 p2 g p1 [] g) as (g1 & -> & H1);
    [done|done|by intros ? ?%not_elem_of_nil|done|by apply isolated_nil|].
  cbn [mbind go_bind app] in *. destruct H1 as [Hok1 Hss Hc1 Hco1 Hown1 Hoth1 _ Hout1].
  destruct (isolate_loop n p2 p1 g1 p2 [] g1) as (g2 & -> & H2).
  - intros t Ht. apply Hr. rewrite elem_of_app in *. tauto.
  - naive_solver.
  - by intros ? ?%not_elem_of_nil.
  - done.
  - by apply isolated_nil.
  - cbn [app] in H2. destruct H2 as [Hok2 Hss2 Hc2 Hco2 Hown2 Hoth2 Hold2 Hout2].
    rewrite Hss in *. exists g2. rewrite Hss2. split; [done|]. split; [done|]. split; [done|].
    split; [|split; [|split]].
    + intros a. case_decide as Ha; rewrite elem_of_app in Ha.
      * destruct (decide (a ∈ p2)); [by apply Hc2|]. rewrite Hco2 by done. apply Hc1. tauto.
      * rewrite Hco2, Hco1 by tauto. done.
    + intros a b [[Ha Hb]|[Ha Hb]]; [|by apply Hown2]. rewrite Hold2 by naive_solver. by apply Hown1.
    + intros a b [[Ha Hb]|[Ha Hb]]; [apply (Hoth2 b a)|apply (Hoth2 a b)]; done.
    + intros a b Hab. rewrite Hout2, Hout1; [done..|]. rewrite !elem_of_app in *. tauto.
Qed.

(** *** [MakePartition] *)

Lemma insert_at_length_nat (F l : list Z) x y :
  <[Z.to_nat (glen F) := y]> (F ++ x :: l) = F ++ y :: l.
Proof. unfold glen. rewrite Nat2Z.id, insert_app_r_alt by lia. by rewrite Nat.sub_diag. Qed.

Section make_partition.
Context (l : Z).

Definition others (ts : list Z) : list Z := filter (λ i, i ≠ l) ts.

Lemma partition_step_other i p1 p2 F k :
  i ≠ l → p1 ++ p2 = F ++ replicate (S k) 0 →
  ∃ p1' p2', partition_step l (glen F, p1, p2) i = Ret (glen F + 1, p1', p2') ∧
    p1' ++ p2' = F ++ i :: replicate k 0 ∧ glen p1' = glen p1 ∧ glen p2' = glen p2.
Proof.
  intros Hi Hp. unfold partition_step. destruct (Z.eqb_spec i l); [done|].
  pose proof (f_equal glen Hp) as Hl. rewrite !glen_app in Hl. cbn [replicate] in *.
  rewrite glen_cons in Hl. pose proof (glen_nonneg (replicate k 0)). pose proof (glen_nonneg F).
  assert (<[Z.to_nat (glen F) := i]> (p1 ++ p2) = F ++ i :: replicate k 0) as Hins
    by (rewrite Hp; by apply insert_at_length_nat).
  case_if.
  - rewrite gset_idx_Ret by lia. eexists _, _. split; [done|].
    rewrite insert_app_l in Hins by (unfold glen in *; lia). by rewrite glen_insert.
  - rewrite gset_idx_Ret by lia. eexists _, _. split; [done|].
    rewrite insert_app_r_alt in Hins by (unfold glen in *; lia). rewrite glen_insert.
    split; [|done]. rewrite <-Hins. f_equal. f_equal. unfold glen in *. lia.
Qed.

Lemma partition_step_self st : partition_step l st l = Ret st.
Proof. unfold partition_step. destruct st as [[j p1] p2]. by rewrite Z.eqb_refl. Qed.

Lemma partition_loop ts : ∀ F p1 p2 k,
  p1 ++ p2 = F ++ replicate (length (others ts) + k) 0 →
  ∃ p1' p2', foldM (partition_step l) (glen F, p1, p2) ts = Ret (glen (F ++ others ts), p1', p2') ∧
    p1' ++ p2' = F ++ others ts ++ replicate k 0 ∧ glen p1' = glen p1 ∧ glen p2' = glen p2.
Proof.
  induction ts as [|i ts IH]; intros F p1 p2 k Hp; cbn [foldM].
  { exists p1, p2. by rewrite app_nil_r. }
  destruct (decide (i = l)) as [->|Hi].
  - unfold others in *. rewrite filter_cons_False in * by naive_solver.
    rewrite partition_step_self. by apply IH.
  - unfold others in *. rewrite filter_cons_True in * by done. cbn [length] in Hp.
    destruct (partition_step_other i p1 p2 F _ Hi Hp) as (q1 & q2 & -> & Hq & Hq1 & Hq2).
    cbn [mbind go_bind]. replace (glen F + 1) with (glen (F ++ [i])) by (rewrite glen_app; done).
    destruct (IH (F ++ [i]) q1 q2 k) as (r1 & r2 & E & Hr & ? & ?).
    { by rewrite Hq, <-app_assoc. }
    exists r1, r2. rewrite E, <-!app_assoc. rewrite <-!app_assoc in Hr.
    split; [done|]. split; [done|]. split; lia.
Qed.
End make_partition.

Lemma others_Permutation l n : 0 ≤ l < n → range n ≡ₚ l :: others l (range n).
Proof.
  intros Hl. apply NoDup_Permutation; [apply NoDup_range| |].
  - apply NoDup_cons. split; [|apply NoDup_filter, NoDup_range].
    unfold others. rewrite list_elem_of_filter. tauto.
  - intros x. rewrite elem_of_cons. unfold others. rewrite list_elem_of_filter, elem_of_range.
    destruct (decide (x = l)); naive_solver.
Qed.

Lemma others_length l n : 0 ≤ l < n → length (others l (range n)) = Z.to_nat (n - 1).
Proof.
  intros Hl. pose proof (Permutation_length (others_Permutation l n Hl)) as Hp.
  pose proof (glen_range n ltac:(lia)) as Hg. unfold glen in Hg. cbn [length] in Hp. lia.
Qed.

Lemma MakePartition_result sg l :
  let n := N sg in 2 ≤ n → 0 ≤ l < n →
  ∃ p1 p2, MakePartition l sg = Ret (p1, p2) ∧
    p1 ++ p2 = others l (range n) ++ replicate (Z.to_nat (2 * (n / 2) + 1 - n)) 0 ++ [l] ∧
    glen p1 = n / 2 + 1 ∧ glen p2 = n / 2 ∧ l ∈ p2.
Proof.
  unfold N, MakePartition. set (n := glen sg.(srvs)). intros Hn Hl.
  rewrite Z.quot_div_nonneg by lia. pose proof (Z.div_mod n 2 ltac:(lia)) as Hdm.
  pose proof (Z.mod_pos_bound n 2 ltac:(lia)) as Hmod. set (q := n / 2) in *.
  set (k := Z.to_nat (2 * q + 1 - n)). pose proof (others_length l n Hl) as Hol.
  destruct (partition_loop l (range n) [] (replicate (Z.to_nat (q + 1)) 0) (replicate (Z.to_nat q) 0) (k + 1))
    as (p1 & p2 & E & Hp & H1 & H2).
  { rewrite <-replicate_add. cbn [app]. f_equal. lia. }
  rewrite glen_nil in E. rewrite E. cbn [mbind go_bind app] in *.
  rewrite glen_replicate in H1, H2. rewrite gset_idx_Ret by lia.
  eexists _, _. split; [done|]. split; [|split; [lia|split; [rewrite glen_insert; lia|]]].
  - rewrite replicate_add, app_assoc in Hp. cbn [replicate] in Hp.
    rewrite app_assoc, <-(insert_at_length_nat (others l (range n) ++ replicate k 0) [] 0 l), <-Hp.
    assert (glen (others l (range n) ++ replicate k 0) = glen p1 + glen p2 - 1) as ->
      by (pose proof (f_equal length Hp) as Hlen; rewrite !length_app in Hlen; unfold glen;
          rewrite length_app; cbn [length] in Hlen; lia).
    rewrite insert_app_r_alt by (unfold glen in *; lia). f_equal. f_equal.
    unfold glen in *. lia.
  - apply list_elem_of_lookup. exists (Z.to_nat (glen p2 - 1)). apply list_lookup_insert_eq.
    unfold glen in *. lia.
Qed.

(** For an odd number [n] of at least three servers [MakePartition] returns
    a majority of [n/2 + 1] servers without the leader [l] and a minority of
    [n/2] servers with it; together they are all servers, each once. *)
Theorem MakePartition_spec sg l :
  Z.odd (N sg) = true → 3 ≤ N sg → 0 ≤ l < N sg →
  ∃ p1 p2, MakePartition l sg = Ret (p1, p2) ∧ p1 ++ p2 ≡ₚ range (N sg) ∧
    l ∈ p2 ∧ l ∉ p1 ∧ glen p1 = N sg / 2 + 1 ∧ glen p2 = N sg / 2 ∧ 2 * glen p1 > N sg.
Proof.
  intros Hodd Hn Hl. destruct (MakePartition_result sg l) as (p1 & p2 & E & Hp & H1 & H2 & Hlp); [lia|lia|].
  set (n := N sg) in *. apply Zodd_bool_iff, Zodd_ex in Hodd as [q Hq].
  assert (n / 2 = q) as Hdiv by (symmetry; apply (Z.div_unique_pos n 2 q 1); lia).
  replace (Z.to_nat (2 * (n / 2) + 1 - n)) with 0%nat in Hp by lia. cbn [replicate app] in Hp.
  assert (p1 ++ p2 ≡ₚ range n) as Hperm.
  { rewrite Hp, (Permutation_app_comm _ [l]). symmetry. by apply others_Permutation. }
  exists p1, p2. split; [done|]. split; [done|]. split; [done|]. split; [|lia].
  intros Hl1. assert (NoDup (p1 ++ p2)) as Hnd by (rewrite Hperm; apply NoDup_range).
  apply NoDup_app in Hnd as (_ & Hd & _). by apply (Hd l).
Qed.

(** With an even number of servers, [MakePartition] leaves an
    array element of the minority at its initial zero: from four servers on,
    server 0 is in both parts unless it is the leader. With a single server it
    panics. *)
Theorem MakePartition_even sg l :
  0 ≤ l < N sg → Z.even (N sg) = true ∨ N sg = 1 →
  (N sg = 1 → MakePartition l sg = Panic) ∧
  (4 ≤ N sg → l ≠ 0 → ∃ p1 p2, MakePartition l sg = Ret (p1, p2) ∧ 0 ∈ p1 ∧ 0 ∈ p2).
Proof.
  intros Hl Hev. split.
  - intros H1. unfold MakePartition, N in *. rewrite H1. assert (l = 0) as -> by lia. done.
  - intros Hn Hl0. destruct (MakePartition_result sg l) as (p1 & p2 & E & Hp & H1 & H2 & Hlp); [lia|lia|].
    exists p1, p2. split; [done|]. set (n := N sg) in *.
    assert (∃ q, n = 2 * q) as [q Hq].
    { destruct Hev as [Hev|?]; [|lia]. apply Zeven_bool_iff, Zeven_ex in Hev as [q Hq]. by exists q. }
    assert (n / 2 = q) as Hdiv by (symmetry; apply (Z.div_unique_pos n 2 q 0); lia).
    replace (Z.to_nat (2 * (n / 2) + 1 - n)) with 1%nat in Hp by lia. cbn [replicate app] in Hp.
    pose proof (others_length l n Hl) as Hol. split.
    + destruct p1 as [|x p1]; [rewrite glen_nil in H1; lia|].
      unfold range in Hp. rewrite seqZ_cons in Hp by lia.
      unfold others in Hp. rewrite filter_cons_True in Hp by done. injection Hp as -> _. left.
    + pose proof (f_equal length Hp) as Hlen. rewrite !length_app in Hlen. cbn [length] in Hlen.
      assert ((p1 ++ p2).[glen (others l (range n))] = Some 0) as Hz.
      { rewrite Hp, zlookup_app_r by lia. by rewrite Z.sub_diag. }
      rewrite zlookup_app_r in Hz by (unfold glen in *; lia).
      apply zlookup_elem_of. by eexists.
Qed.

(** ** Crash and restart *)

Lemma make_ends_fresh gid names : ∀ j net,
  NoDup names → (∀ e, e ∈ names → net.(ends) !! e = None) →
  ∃ ces net', make_ends gid j names net = Ret (ces, net') ∧ net'.(servers) = net.(servers) ∧
    (∀ e, e ∈ names → is_enabled net' e = false) ∧
    (∀ e, e ∉ names → is_enabled net' e = is_enabled net e) ∧
    (∀ b e, names.[b] = Some e → net'.(connections) !! e = Some (Some (ServerName gid (j + b)))) ∧
    (∀ e, e ∉ names → net'.(connections) !! e = net.(connections) !! e).
Proof.
  induction names as [|name names IH]; intros j net Hnd Hnew; cbn [make_ends].
  { exists [], net. repeat (split; [done|]). split; [by intros ? ?%not_elem_of_nil|]. split; [done|]. split; [|done].
    intros b e Hb. apply zlookup_lt_Some in Hb. unfold glen in Hb. cbn in Hb. lia. }
  apply NoDup_cons in Hnd as [Hni Hnd]. unfold MakeEnd. rewrite (Hnew name) by left.
  cbn [mbind go_bind fst snd].
  set (net1 := Connect name _ _). destruct (IH (j + 1) net1) as (ces & net' & -> & Hs & Hen & Hen' & Hc & Hc'); [done| |].
  { intros e He. unfold net1. cbn. rewrite lookup_insert_ne by by intros ->. apply Hnew. by right. }
  cbn [mbind go_bind fst snd]. eexists _, _. split; [done|]. split; [done|].
  split; [|split; [|split]].
  - intros e He. destruct (decide (e ∈ names)) as [|Hn]; [by apply Hen|].
    rewrite Hen' by done. apply elem_of_cons in He as [->|]; [|done].
    unfold net1, is_enabled, Connect. cbn. by rewrite lookup_insert_eq.
  - intros e He. rewrite not_elem_of_cons in He. rewrite Hen' by tauto.
    unfold net1, is_enabled, Connect. cbn. by rewrite lookup_insert_ne by naive_solver.
  - intros b e Hb. destruct (Z.lt_trichotomy b 0) as [|[->|]].
    + apply zlookup_lt_Some in Hb. lia.
    + rewrite zlookup_cons_0 in Hb. injection Hb as <-. rewrite Hc' by done.
      unfold net1, Connect. cbn. rewrite lookup_insert_eq. by rewrite Z.add_0_r.
    + rewrite zlookup_cons_pos in Hb by lia. rewrite (Hc _ _ Hb). do 3 f_equal. lia.
  - intros e He. rewrite not_elem_of_cons in He. rewrite Hc' by tauto.
    unfold net1, Connect. cbn. by rewrite !lookup_insert_ne by naive_solver.
Qed.

(** *** Shutting down

    A server is stopped if its process is alive or there is none; the call to a
    process that has ended by itself ends the test. *)
Definition copy_persister (d : Daemon) : Persister :=
  Save (ReadRaftState d.(da_persister)) (ReadSnapshot d.(da_persister)) MakePersister.
Definition stopped (s : TServer) : TServer :=
  match s.(dc) with Some d => s <| saved := Some (copy_persister d) |> <| dc := None |> | None => s end.
Definition proc_ok (s : TServer) : Prop := ∀ d, s.(dc) = Some d → d.(da_proc) = Alive.

#[export] Instance proc_ok_dec s : Decision (proc_ok s).
Proof.
  unfold proc_ok. destruct (dc s) as [d|]; [|by left]. destruct (decide (d.(da_proc) = Alive)) as [Hd|Hd].
  - left. by intros ? [= <-].
  - right. intros Hn. apply Hd. by apply Hn.
Defined.

Lemma shutdown_stopped s : proc_ok s → srv_shutdownServer s = Ret (stopped s).
Proof.
  intros Hs. unfold srv_shutdownServer, stopped. destruct (dc s) as [d|] eqn:Hd; [|done]. specialize (Hs d Hd).
  unfold checkpointPersister, daemon_call, daemon_kill. rewrite decide_True by done. rewrite Hs. cbn.
  unfold CheckpointPersister, copy_persister. by autorewrite with gorw.
Qed.
Lemma shutdown_ended s d : s.(dc) = Some d → d.(da_proc) ≠ Alive → srv_shutdownServer s = Fatal.
Proof. intros Hd Hp. unfold srv_shutdownServer, checkpointPersister, daemon_call. by rewrite Hd, decide_False. Qed.

Lemma checkpoint_init d : da_persister (daemon_init (copy_persister d)) = da_persister d.
Proof.
  unfold daemon_init, copy_persister. cbn [da_persister].
  destruct (da_persister d). unfold ReadRaftState, ReadSnapshot, Save. cbn.
  by autorewrite with gorw.
Qed.

Lemma disconnect_ends i from g g' : disconnect i from g = Ret g' → g'.2.(ends) = g.2.(ends).
Proof.
  unfold disconnect. intros H. go_inv H. subst g'. cbn.
  transitivity (ends a1).
  - eapply (foldM_Ret_inv _ (λ net, ends net = ends a1)); [|done|exact Ha2].
    intros net x net' Hn. unfold disable_from. intros H. go_inv H.
    destruct (endNames a3); go_inv H; subst; exact Hn.
  - unfold srv_disconnect in Ha1. destruct (endNames a0); [|by go_inv Ha1; subst].
    eapply (foldM_Ret_inv _ (λ net, ends net = ends g.2)); [|done|exact Ha1].
    cbn beta. intros net x net' Hn H. go_inv H. subst. exact Hn.
Qed.

(** [ShutdownServer] *)
Lemma ShutdownServer_spec n g i s :
  group_ok g n → g.1.(srvs).[i] = Some s → proc_ok s →
  ∃ net', ShutdownServer i g = Ret (g.1 <| connected := <[Z.to_nat i := false]> g.1.(connected) |>
      <| srvs := <[Z.to_nat i := stopped s]> g.1.(srvs) |>,
      DeleteServer (ServerName g.1.(grp_gid) i) net') ∧ net'.(ends) = g.2.(ends) ∧
    ∀ a b, (touches i (.∈ all g.1) a b → lnk g.1.(srvs) net' a b = false) ∧
           (¬ touches i (.∈ all g.1) a b → lnk g.1.(srvs) net' a b = lnk g.1.(srvs) g.2 a b).
Proof.
  intros Hok Hs Hp. pose proof (zlookup_lt_Some _ _ _ Hs) as Hi. destruct Hok as [Hok Hlen].
  pose proof (eo_len _ _ Hok) as Hn. unfold ShutdownServer.
  destruct (disconnect_spec n g i (all g.1)) as (net' & E & Hl); [done|lia| |].
  { intros t Ht. apply elem_of_range in Ht. lia. }
  pose proof (disconnect_ends _ _ _ _ E) as Hends. rewrite E. cbn [mbind go_bind fst snd].
  change (srvs (g.1 <| connected := <[Z.to_nat i := false]> g.1.(connected) |>)) with g.1.(srvs).
  rewrite (proj2 (gidx_Ret _ _ _) Hs). cbn [mbind go_bind]. rewrite (shutdown_stopped s Hp). cbn [mbind go_bind].
  rewrite gset_idx_Ret by lia. exists net'. split; [done|]. split; [exact Hends|exact Hl].
Qed.

(** A server whose process has ended by itself cannot be shut down: the test
    ends. *)
Lemma ShutdownServer_ended n g i s d :
  group_ok g n → g.1.(srvs).[i] = Some s → s.(dc) = Some d → d.(da_proc) ≠ Alive → ShutdownServer i g = Fatal.
Proof.
  intros Hg Hs Hd Hp. pose proof (zlookup_lt_Some _ _ _ Hs) as Hi. pose proof (eo_len _ _ (proj1 Hg)) as Hn.
  unfold ShutdownServer. destruct (disconnect_spec n g i (all g.1)) as (net' & -> & _); [done|lia| |].
  { intros t Ht%elem_of_range. lia. }
  cbn [mbind go_bind fst snd]. change (srvs (g.1 <| connected := _ |>)) with g.1.(srvs).
  rewrite (proj2 (gidx_Ret _ _ _) Hs). cbn [mbind go_bind]. by rewrite (shutdown_ended s d Hd Hp).
Qed.

(** C29. Crash and restart. If the server's process is alive, [ShutdownServer]
    takes the server off the network (no end from or to it is enabled, its name
    is not served any more) and keeps its last persisted state; [StartServer],
    with newly drawn end names, puts a process with exactly that state behind the
    same server name as a new server object, with all its new ends disabled and
    connected to its peers. If the process has ended by itself, nothing can be
    copied from it, and [ShutdownServer] ends the test. *)
Theorem restart_persists n g i s d names p :
  group_ok g n → g.1.(srvs).[i] = Some s → s.(dc) = Some d →
  NoDup names → glen names = n → (∀ e, e ∈ names → g.2.(ends) !! e = None) →
  if decide (d.(da_proc) = Alive) then
  ∃ g1 g2, ShutdownServer i g = Ret g1 ∧ StartServer i names true p g1 = Ret g2 ∧
    server_of g1.2 (ServerName g.1.(grp_gid) i) = None ∧
    (∀ a, 0 ≤ a < n → lnk g.1.(srvs) g1.2 i a = false ∧ lnk g.1.(srvs) g1.2 a i = false) ∧
    server_of g2.2 (ServerName g.1.(grp_gid) i) = Some p ∧
    (∃ s' d', g2.1.(srvs).[i] = Some s' ∧ s'.(dc) = Some d' ∧ da_persister d' = da_persister d ∧
       d'.(da_proc) = Alive ∧ s'.(endNames) = Some names) ∧
    (∀ b e, names.[b] = Some e → is_enabled g2.2 e = false ∧
       g2.2.(connections) !! e = Some (Some (ServerName g.1.(grp_gid) b)))
  else ShutdownServer i g = Fatal.
Proof.
  intros Hok Hs Hd Hnd Hlen Hnew. case_decide as Hal; [|by apply (ShutdownServer_ended n g i s d)].
  pose proof (zlookup_lt_Some _ _ _ Hs) as Hi.
  destruct (ShutdownServer_spec n g i s Hok Hs) as (net1 & -> & Hends & Hl); [intros d'; rewrite Hd; by intros [= <-]|].
  pose proof (eo_len _ _ (proj1 Hok)) as Hn.
  set (sg1 := g.1 <| connected := _ |> <| srvs := _ |>).
  assert (sg1.(srvs).[i] = Some (stopped s)) as Hs1
    by (unfold sg1; cbn; rewrite zlookup_insert by lia; by rewrite decide_True).
  assert (glen sg1.(srvs) = n) as Hlen1 by (unfold sg1; cbn; by rewrite glen_insert).
  destruct (make_ends_fresh g.1.(grp_gid) names 0 (DeleteServer (ServerName g.1.(grp_gid) i) net1))
    as (ces & net2 & Em & Hsv & Hen & _ & Hc & _); [done|by cbn; rewrite Hends|].
  eexists _, _. split; [done|]. split.
  - unfold StartServer. cbn [fst snd]. rewrite (proj2 (gidx_Ret _ _ _) Hs1). cbn [mbind go_bind].
    unfold startServer, makeServer. change (grp_gid sg1) with g.1.(grp_gid). rewrite Em.
    cbn [mbind go_bind fst snd negb]. cbn [saved upd upd_saved].
    rewrite gset_idx_Ret by lia. reflexivity.
  - cbn [fst snd]. unfold stopped. rewrite Hd.
    split; [|split; [|split; [|split]]].
    + unfold server_of, DeleteServer. cbn. by rewrite lookup_insert_eq.
    + intros a Ha. assert (a ∈ all g.1) as Hall by (apply elem_of_range; lia).
      assert (∀ x y, lnk g.1.(srvs) (DeleteServer (ServerName g.1.(grp_gid) i) net1) x y =
                     lnk g.1.(srvs) net1 x y) as Hx by done.
      rewrite !Hx. split; apply Hl; [left|right]; done.
    + unfold server_of, AddServer. cbn. by rewrite lookup_insert_eq.
    + cbn. rewrite zlookup_insert by (rewrite ?glen_insert; lia). rewrite decide_True by done.
      eexists _, _. split; [done|]. split; [done|]. cbn. split; [apply checkpoint_init|done].
    + intros b e Hb. split.
      * apply (Hen e). apply zlookup_elem_of. by exists b.
      * apply (Hc b e Hb).
Qed.
