(* ===== verification/TesterConfig.v ===== *)
(** * The tester's configuration: [tester1/config.go] and the groups it runs

    A test's groups of servers, its statistics and its time limit, and
    [random_handles], which shuffles the handles a clerk tries. Times are
    nanoseconds; the clock, the random numbers and whether [t.Fail] was called
    are arguments. *)

From S2P Require Import Prelude Names GoStrings Gob Persister LabRpc TesterGroup.

(** ** Statistics and the time limit *)

Record Config := mkConfig {
  cfg_start : Z;
  cfg_t0 : Z;
  cfg_rpcs0 : Z;
  cfg_ops : Z;
}.

Definition i32 (z : Z) : Z := (z + 2 ^ 31) mod 2 ^ 32 - 2 ^ 31.

Definition MakeConfig (now : Z) : Config := mkConfig now 0 0 0.

(** [atomic.AddInt32]. *)
Definition OpInc (cfg : Config) : Config :=
  mkConfig cfg.(cfg_start) cfg.(cfg_t0) cfg.(cfg_rpcs0) (i32 (cfg.(cfg_ops) + 1)).

Definition Begin (now rpcTotal : Z) (cfg : Config) : Config :=
  mkConfig cfg.(cfg_start) now rpcTotal 0.

(** [failed]: [t.Failed()]. *)
Definition CheckTimeout (now : Z) (failed : bool) (cfg : Config) : go unit :=
  if negb failed && (120 * 1000000000 <? now - cfg.(cfg_start)) then Fatal else Ret tt.

(** The numbers that [End] prints: the time, and how many peers, RPCs and
    operations; [None] when the test has failed. *)
Definition End_ (now rpcTotal npeers : Z) (failed : bool) (cfg : Config) : go (option (Z * Z * Z * Z)) :=
  _ ← CheckTimeout now failed cfg;
  Ret (if failed then None
       else Some (now - cfg.(cfg_t0), npeers, rpcTotal - cfg.(cfg_rpcs0), cfg.(cfg_ops))).

Definition Randstring (n : Z) (bs : list Z) : go string := RandString n bs.

(** ** [random_handles]

    [rs] are the results of [rand.Intn(i+1)] for [i] = 0, 1, ... The swap reads
    both elements before it writes them. *)
Definition swap_step {A} (sa : list A) (ij : Z * Z) : go (list A) :=
  let '(i, j) := ij in
  x ← gidx sa i; y ← gidx sa j; sa ← gset_idx sa i y; gset_idx sa j x.
Definition random_handles {A} (rs : list Z) (kvh : list A) : go (list A) :=
  foldM swap_step kvh (zip (range (glen kvh)) rs).

(** What [rand.Intn] returns. *)
Definition draws (n : Z) (rs : list Z) : Prop := glen rs = n ∧ ∀ i r, rs.[i] = Some r → 0 ≤ r ≤ i.

(** The last step puts the last element in place of the one it displaces. *)
Definition place {A} (sa : list A) (x : A) (j : Z) : list A :=
  if decide (j < glen sa) then <[Z.to_nat j := x]> sa ++ (match sa.[j] with Some y => [y] | None => [] end)
  else sa ++ [x].

Section shuffle.
Context {A : Type}.
Implicit Types (l sa : list A).

Lemma insert_last sa x y : <[Z.to_nat (glen sa) := y]> (sa ++ [x]) = sa ++ [y].
Proof.
  unfold glen. rewrite Nat2Z.id. rewrite insert_app_r_alt by lia. by rewrite Nat.sub_diag.
Qed.

Lemma swap_last sa x j :
  0 ≤ j ≤ glen sa → swap_step (sa ++ [x]) (glen sa, j) = Ret (place sa x j).
Proof.
  intros Hj. unfold swap_step, place.
  assert (gidx (sa ++ [x]) (glen sa) = Ret x) as Hx by by rewrite gidx_zlookup, zlookup_app_r, Z.sub_diag by lia.
  rewrite Hx. cbn [mbind go_bind].
  case_decide as Hlt.
  - destruct (zlookup_is_Some sa j) as [y Hy]; [lia|].
    rewrite gidx_zlookup, zlookup_app_l, Hy by done. cbn [mbind go_bind].
    rewrite gset_idx_Ret by (autorewrite with golen; lia). cbn [mbind go_bind].
    rewrite insert_last. rewrite gset_idx_Ret by (autorewrite with golen; lia).
    by rewrite insert_app_l by (unfold glen in Hlt; lia).
  - assert (j = glen sa) as -> by lia. rewrite Hx. cbn [mbind go_bind]. rewrite gset_idx_Ret by (autorewrite with golen; lia). cbn [mbind go_bind].
    rewrite gset_idx_Ret by (autorewrite with golen; lia).
    by rewrite list_insert_insert_eq, insert_last.
Qed.

Lemma swap_step_snoc sa x i j :
  0 ≤ i < glen sa → 0 ≤ j < glen sa →
  ∃ sa', swap_step sa (i, j) = Ret sa' ∧ swap_step (sa ++ [x]) (i, j) = Ret (sa' ++ [x]) ∧ glen sa' = glen sa.
Proof.
  intros Hi Hj. unfold swap_step.
  destruct (zlookup_is_Some sa i Hi) as [y Hy], (zlookup_is_Some sa j Hj) as [z Hz].
  rewrite !gidx_zlookup, !zlookup_app_l, Hy, Hz by lia. cbn [mbind go_bind].
  rewrite !gset_idx_Ret by (autorewrite with golen; lia). cbn [mbind go_bind].
  rewrite !gset_idx_Ret by (autorewrite with golen; lia).
  eexists. split; [done|]. split; [|by rewrite !glen_insert].
  rewrite insert_app_l by (unfold glen in *; lia). rewrite insert_app_l; [done|].
  rewrite length_insert. unfold glen in *. lia.
Qed.

Lemma shuffle_prefix steps : ∀ sa x,
  (∀ i j, (i, j) ∈ steps → 0 ≤ i < glen sa ∧ 0 ≤ j < glen sa) →
  ∃ sa', foldM swap_step sa steps = Ret sa' ∧ foldM swap_step (sa ++ [x]) steps = Ret (sa' ++ [x]) ∧
    glen sa' = glen sa.
Proof.
  induction steps as [|[i j] steps IH]; intros sa x Hs; cbn [foldM]; [by exists sa|].
  destruct (Hs i j ltac:(left)) as [Hi Hj]. destruct (swap_step_snoc sa x i j Hi Hj) as (sa1 & -> & -> & Hl).
  cbn [mbind go_bind]. destruct (IH sa1 x) as (sa' & ? & ? & ?).
  { intros i' j' Hin. rewrite Hl. apply Hs. by right. }
  exists sa'. by rewrite <-Hl.
Qed.

Lemma draws_snoc n rs : 0 ≤ n → draws (n + 1) rs → ∃ rs' j, rs = rs' ++ [j] ∧ draws n rs' ∧ 0 ≤ j ≤ n.
Proof.
  intros Hn [Hlen Hr]. destruct rs as [|j rs' _] using rev_ind; [rewrite glen_nil in Hlen; lia|].
  rewrite glen_app, glen_cons, glen_nil in Hlen. exists rs', j. split; [done|]. split; [split; [lia|]|].
  - intros i r Hi. apply Hr. pose proof (zlookup_lt_Some _ _ _ Hi). by rewrite zlookup_app_l by lia.
  - apply (Hr n). rewrite zlookup_app_r by lia. by replace (n - glen rs') with 0 by lia.
Qed.

Lemma draws_app n rs j : draws n rs → 0 ≤ j ≤ n → draws (n + 1) (rs ++ [j]).
Proof.
  intros [Hlen Hr] Hj. split; [rewrite glen_app, glen_cons, glen_nil; lia|]. intros i r Hi.
  destruct (Z.lt_ge_cases i (glen rs)) as [Hlt|Hge].
  - rewrite zlookup_app_l in Hi by done. by apply Hr.
  - rewrite zlookup_app_r in Hi by done. pose proof (zlookup_lt_Some _ _ _ Hi) as Hb.
    change (glen [j]) with 1 in Hb. replace (i - glen rs) with 0 in Hi by lia. injection Hi as <-. lia.
Qed.

(** The loop on a longer slice: first the shorter one, then a last swap. *)
Lemma random_handles_snoc l x rs j :
  draws (glen l) rs → 0 ≤ j ≤ glen l →
  ∃ sa, random_handles rs l = Ret sa ∧ glen sa = glen l ∧
    random_handles (rs ++ [j]) (l ++ [x]) = Ret (place sa x j).
Proof.
  intros [Hlen Hr] Hj. unfold random_handles.
  destruct (shuffle_prefix (zip (range (glen l)) rs) l x) as (sa & Hsa & Hsx & Hl).
  { intros i r Hin. apply list_elem_of_lookup in Hin as [k Hk]. apply lookup_zip_with_Some in Hk as (a & b & Hab & Ha & Hb).
    injection Hab as -> ->. unfold range in Ha. apply lookup_seqZ in Ha as [-> Hlt].
    assert (rs.[Z.of_nat k] = Some b) as Hz by (unfold zlookup; case_if; [lia|by rewrite Nat2Z.id]).
    pose proof (Hr _ _ Hz). lia. }
  exists sa. split; [done|]. split; [done|].
  rewrite glen_app, glen_cons, glen_nil. unfold range in *. pose proof (glen_nonneg l).
  replace (glen l + (1 + 0)) with (glen l + 1) by lia. rewrite seqZ_app by lia. change (seqZ (0 + glen l) 1) with [glen l].
  rewrite zip_with_app by (rewrite length_seqZ; unfold glen in *; lia). rewrite foldM_app, Hsx.
  cbn [mbind go_bind zip zip_with foldM]. rewrite <-Hl. by rewrite swap_last by lia.
Qed.

Lemma place_perm sa x j : 0 ≤ j ≤ glen sa → place sa x j ≡ₚ sa ++ [x].
Proof.
  intros Hj. unfold place. case_decide as Hlt; [|done].
  destruct (zlookup_is_Some sa j) as [y Hy]; [lia|]. rewrite Hy.
  unfold zlookup in Hy. case_match; [done|].
  rewrite insert_take_drop by (unfold glen in Hlt; lia).
  rewrite <-(take_drop_middle sa (Z.to_nat j) y) at 3 by done.
  rewrite <-!app_assoc. cbn [app]. f_equiv. rewrite <-!Permutation_cons_append. apply Permutation_swap.
Qed.

Lemma place_lookup sa x j i :
  0 ≤ j ≤ glen sa → (place sa x j).[i] = Some x → x ∉ sa → i = j.
Proof.
  intros Hj Hi Hx. unfold place in Hi. case_decide as Hlt.
  - destruct (zlookup_is_Some sa j) as [y Hy]; [lia|]. rewrite Hy in Hi.
    destruct (Z.lt_ge_cases i (glen sa)) as [Hs|Hs].
    + rewrite zlookup_app_l, zlookup_insert in Hi by (autorewrite with golen; lia).
      case_decide; [done|]. destruct Hx. apply zlookup_elem_of. by exists i.
    + rewrite zlookup_app_r in Hi by (autorewrite with golen; lia). pose proof (zlookup_lt_Some _ _ _ Hi) as Hb.
      change (glen [y]) with 1 in Hb. rewrite glen_insert in *. replace (i - glen sa) with 0 in Hi by lia.
      injection Hi as ->. destruct Hx. apply zlookup_elem_of. by exists j.
  - destruct (Z.lt_ge_cases i (glen sa)) as [Hs|Hs].
    + rewrite zlookup_app_l in Hi by done. destruct Hx. apply zlookup_elem_of. by exists i.
    + pose proof (zlookup_lt_Some _ _ _ Hi) as Hb. autorewrite with golen in Hb. lia.
Qed.

Lemma place_at sa x j : 0 ≤ j ≤ glen sa → (place sa x j).[j] = Some x.
Proof.
  intros Hj. unfold place. case_decide.
  - rewrite zlookup_app_l, zlookup_insert, decide_True by (autorewrite with golen; lia || done). done.
  - rewrite zlookup_app_r by lia. by replace (j - glen sa) with 0 by lia.
Qed.

(** The last swap can be undone. *)
Lemma place_inj sa sa' x j j' :
  place sa x j = place sa' x j' → x ∉ sa → x ∉ sa' → glen sa = glen sa' →
  0 ≤ j ≤ glen sa → 0 ≤ j' ≤ glen sa' → sa = sa' ∧ j = j'.
Proof.
  intros Heq Hx Hx' Hl Hj Hj'.
  assert (j = j') as <- by (eapply place_lookup; [exact Hj'| |done]; rewrite <-Heq; by apply place_at).
  split; [|done]. unfold place in Heq. rewrite <-Hl in Heq. case_decide as Hlt; [|by apply app_inj_tail in Heq as [? _]].
  destruct (zlookup_is_Some sa j) as [y Hy], (zlookup_is_Some sa' j) as [y' Hy']; [lia..|].
  rewrite Hy, Hy' in Heq. apply app_inj_tail in Heq as [Heq <-]. apply list_eq_zlookup. intros i Hi.
  destruct (decide (i = j)) as [->|Hne]; [congruence|].
  pose proof (f_equal (λ l, l.[i]) Heq) as Hli. cbn beta in Hli.
  rewrite !zlookup_insert, !decide_False in Hli by (done || lia). done.
Qed.

Lemma place_surj l x sa' :
  NoDup (l ++ [x]) → sa' ≡ₚ l ++ [x] → ∃ sa j, place sa x j = sa' ∧ sa ≡ₚ l ∧ 0 ≤ j ≤ glen l.
Proof.
  intros Hnd Hp. destruct sa' as [|y sa _] using rev_ind; [by apply Permutation_nil_l in Hp; destruct l|].
  apply NoDup_app in Hnd as (_ & Hx & _). assert (x ∉ l) as Hxl by (intros Hin; apply (Hx x Hin); left).
  assert (y = x ∨ x ∈ sa) as [->|Hin].
  { assert (x ∈ sa ++ [y]) as Hin by (rewrite Hp; apply elem_of_app; right; left).
    apply elem_of_app in Hin as [?|?%list_elem_of_singleton]; [by right|by left]. }
  - apply Permutation_app_inv_r in Hp. exists sa, (glen sa).
    assert (glen sa = glen l) as Hl by (unfold glen; by rewrite Hp).
    split; [unfold place; by rewrite decide_False by lia|]. split; [done|]. pose proof (glen_nonneg sa). lia.
  - apply zlookup_elem_of in Hin as [j Hj]. pose proof (zlookup_lt_Some _ _ _ Hj) as Hb.
    exists (<[Z.to_nat j := y]> sa), j.
    assert (place (<[Z.to_nat j := y]> sa) x j = sa ++ [y]) as Hpl.
    { unfold place. rewrite glen_insert, decide_True by lia. rewrite zlookup_insert, decide_True by (done || lia).
      rewrite list_insert_insert_eq, list_insert_id; [done|]. unfold zlookup in Hj. by case_match. }
    split; [done|].
    assert (<[Z.to_nat j := y]> sa ≡ₚ l) as Hpp.
    { apply (Permutation_app_inv_r [x]). rewrite <-Hp, <-Hpl. symmetry. apply place_perm. rewrite glen_insert. lia. }
    split; [done|]. assert (glen sa = glen l); [|lia].
    unfold glen. by rewrite <-Hpp, length_insert.
Qed.

(** [random_handles] never panics and returns the handles in another
    order; and if they are distinct, every order results from exactly one
    sequence of draws: with uniform draws all orders are equally likely. *)
Theorem random_handles_bijection l :
  (∀ rs, draws (glen l) rs → returns (random_handles rs l) (λ sa, sa ≡ₚ l)) ∧
  (NoDup l → ∀ sa, sa ≡ₚ l → exists! rs, draws (glen l) rs ∧ random_handles rs l = Ret sa).
Proof.
  induction l as [|x l [IH1 IH2]] using rev_ind.
  { assert (∀ rs, draws (glen (@nil A)) rs → rs = []) as Hnil.
    { intros rs [Hl _]. destruct rs; [done|]. rewrite glen_cons, glen_nil in Hl. pose proof (glen_nonneg rs). lia. }
    split.
    - intros rs ->%Hnil. by apply returns_Ret.
    - intros _ sa ->%Permutation_nil_r. exists []. split; [split; [split; [done|]|done]; intros i r Hi; apply zlookup_lt_Some in Hi; unfold glen in Hi; cbn in Hi; lia|].
      by intros rs [->%Hnil _]. }
  assert (glen (l ++ [x]) = glen l + 1) as Hlen by (rewrite glen_app; done). rewrite Hlen.
  pose proof (glen_nonneg l) as Hge. split.
  - intros rs Hrs. destruct (draws_snoc _ _ Hge Hrs) as (rs' & j & -> & Hd & Hj).
    destruct (random_handles_snoc l x rs' j Hd Hj) as (sa & Hsa & Hl & Hr). rewrite Hr. apply returns_Ret.
    destruct (IH1 rs' Hd) as (sa' & Hsa' & Hp). rewrite Hsa in Hsa'. injection Hsa' as <-.
    rewrite place_perm by lia. by rewrite Hp.
  - intros Hnd sa' Hp. destruct (place_surj l x sa' Hnd Hp) as (sa & j & Hpl & Hsp & Hj).
    apply NoDup_app in Hnd as (Hndl & Hx & _). assert (x ∉ l) as Hxl by (intros Hin; apply (Hx x Hin); left).
    destruct (IH2 Hndl sa Hsp) as (rs & [Hd Hrs] & Huniq).
    destruct (random_handles_snoc l x rs j Hd Hj) as (sa1 & Hsa1 & Hl & Hr).
    rewrite Hrs in Hsa1. injection Hsa1 as <-.
    exists (rs ++ [j]). split; [split; [by apply draws_app|by rewrite Hr, Hpl]|].
    intros rs2 [Hd2 Hrs2]. destruct (draws_snoc _ _ Hge Hd2) as (rs' & j' & -> & Hd' & Hj').
    destruct (random_handles_snoc l x rs' j' Hd' Hj') as (sa2 & Hsa2 & Hl2 & Hr2).
    rewrite Hr2 in Hrs2. injection Hrs2 as Hpl2.
    destruct (IH1 rs' Hd') as (sa2' & Hsa2' & Hsp2). rewrite Hsa2 in Hsa2'. injection Hsa2' as <-.
    destruct (place_inj sa sa2 x j j') as [<- <-]; [by rewrite Hpl, Hpl2|by rewrite Hsp|by rewrite Hsp2|lia..|].
    f_equal. by apply Huniq.
Qed.
End shuffle.

(** ** Groups of servers

    A server is started with the end names drawn for it, whether its process
    could be run, and the network server made for it. *)
Record Start := mkStart { st_names : list string; st_ok : bool; st_server : nat }.

Definition StartSrvs (l : list (Z * Start)) (g : Grp) : go Grp :=
  foldM (λ g x, StartServer x.1 x.2.(st_names) x.2.(st_ok) x.2.(st_server) g) g l.
Definition StartServers (starts : list Start) (g : Grp) : go Grp :=
  g ← StartSrvs (zip (all g.1) starts) g; ConnectAll g.

Definition GetConnected (sg : ServerGrp) : list bool := sg.(connected).

(** The groups of a test; the map holds pointers, so that what is done to a
    group is seen by every later lookup. *)
Abbreviation Groups := (gmap Z ServerGrp).
Definition newGroups : Groups := ∅.
Definition lookupGroup (gid : Z) (gs : Groups) : option ServerGrp := gs !! gid.
Definition MakeGroup (gid : Z) (names : list (list string)) (s : Groups * Network) : go (Groups * Network) :=
  r ← makeSrvGrp gid names s.2; Ret (<[gid := r.1]> s.1, r.2).

(** [cfg.Group(gid).f()]; a missing group is a nil pointer. *)
Definition on_group (gid : Z) (f : Grp → go Grp) (s : Groups * Network) : go (Groups * Network) :=
  match lookupGroup gid s.1 with
  | None => Panic
  | Some sg => r ← f (sg, s.2); Ret (<[gid := r.1]> s.1, r.2)
  end.

Definition MakeGroupStart (gid : Z) (names : list (list string)) (starts : list Start)
    (s : Groups * Network) : go (Groups * Network) :=
  s ← MakeGroup gid names s; on_group gid (StartServers starts) s.
Definition ExitGroup (gid : Z) (s : Groups * Network) : go (Groups * Network) :=
  s ← on_group gid Shutdown s; Ret (delete gid s.1, s.2).

(** [Groups.cleanup], in some order of the map. *)
Definition groups_cleanup (s : Groups * Network) : go (Groups * Network) :=
  foldM (λ s gid, on_group gid Shutdown s) s (map_to_list s.1).*1.

(** *** Fresh ends *)

Definition end_exists (net : Network) (e : string) : Prop := is_Some (net.(ends) !! e).

Lemma make_ends_exist gid names : ∀ j net,
  NoDup names → (∀ e, e ∈ names → ¬ end_exists net e) →
  ∃ ces net', make_ends gid j names net = Ret (ces, net') ∧ net'.(servers) = net.(servers) ∧
    ∀ e, end_exists net' e ↔ e ∈ names ∨ end_exists net e.
Proof.
  unfold end_exists. induction names as [|name names IH]; intros j net Hnd Hnew; cbn [make_ends].
  { exists [], net. split; [done|]. split; [done|]. intros e. rewrite elem_of_nil. tauto. }
  apply NoDup_cons in Hnd as [Hni Hnd]. unfold MakeEnd.
  destruct (ends net !! name) as [ce|] eqn:He; [destruct (Hnew name); [left|by eexists]|].
  cbn [mbind go_bind fst snd]. set (net1 := Connect name _ _).
  assert (∀ e, is_Some (net1.(ends) !! e) ↔ e = name ∨ is_Some (net.(ends) !! e)) as H1.
  { intros e. unfold net1. cbn. destruct (decide (e = name)) as [->|Hne].
    - rewrite lookup_insert_eq. split; [by left|by eexists].
    - rewrite lookup_insert_ne by done. naive_solver. }
  destruct (IH (j + 1) net1) as (ces & net' & -> & Hs & Hends); [done| |].
  { intros e Hin [->|Hx]%H1; [done|]. apply (Hnew e); [by right|done]. }
  cbn [mbind go_bind fst snd]. eexists _, _. split; [done|]. split; [done|].
  intros e. rewrite Hends, H1, elem_of_cons. tauto.
Qed.

Lemma make_servers_exist gid names : ∀ net,
  NoDup (concat names) → (∀ e, e ∈ concat names → ¬ end_exists net e) →
  ∃ ss net', make_servers gid names net = Ret (ss, net') ∧ net'.(servers) = net.(servers) ∧
    ∀ e, end_exists net' e ↔ e ∈ concat names ∨ end_exists net e.
Proof.
  induction names as [|ns names IH]; intros net Hnd Hnew; cbn [make_servers].
  { exists [], net. split; [done|]. split; [done|]. intros e. cbn. rewrite elem_of_nil. tauto. }
  cbn [concat] in *. apply NoDup_app in Hnd as (Hnd1 & Hdisj & Hnd).
  setoid_rewrite elem_of_app in Hnew. unfold makeServer.
  destruct (make_ends_exist gid ns 0 net Hnd1) as (ces & net1 & -> & Hs1 & H1); [intros e Hin; apply Hnew; by left|].
  cbn [mbind go_bind fst snd]. destruct (IH net1 Hnd) as (ss & net' & -> & Hs & Hends).
  { intros e Hin [Hx|Hx]%H1; [by apply (Hdisj e)|]. apply (Hnew e); [by right|done]. }
  cbn [mbind go_bind fst snd]. eexists _, _. split; [done|]. split; [congruence|].
  intros e. rewrite Hends, H1, elem_of_app. tauto.
Qed.

(** *** Starting one server *)

(** No process has ended by itself. *)
Definition procs_ok (ss : list TServer) : Prop := ∀ i s, ss.[i] = Some s → proc_ok s.

(** The group's ends belong to the network, and the processes are alive. *)
Record wired (n : Z) (g : Grp) : Prop := {
  wi_ok : group_ok g n;
  wi_ends : ∀ a b e, nm g.1.(srvs) a b = Some e → end_exists g.2 e;
  wi_procs : procs_ok g.1.(srvs);
}.

(** Server [i] has a process, and that has not ended. *)
Definition running (sg : ServerGrp) (i : Z) : Prop :=
  ∃ s d, sg.(srvs).[i] = Some s ∧ s.(dc) = Some d ∧ d.(da_proc) = Alive.

Lemma nm_insert ss i s names a b :
  0 ≤ i < glen ss → s.(endNames) = Some names →
  nm (<[Z.to_nat i := s]> ss) a b = if decide (i = a) then names.[b] else nm ss a b.
Proof.
  intros Hi Hn. unfold nm. rewrite zlookup_insert by done. case_decide; [|done]. by rewrite Hn.
Qed.

Lemma ends_ok_insert ss n i s names net :
  ends_ok ss n → 0 ≤ i < n → s.(endNames) = Some names → glen names = n → NoDup names →
  (∀ a b e, nm ss a b = Some e → end_exists net e) → (∀ e, e ∈ names → ¬ end_exists net e) →
  ends_ok (<[Z.to_nat i := s]> ss) n.
Proof.
  intros [Hl He Hinj] Hi Hn Hlen Hnd Hold Hnew. constructor.
  - by rewrite glen_insert.
  - intros j s' Hj. rewrite zlookup_insert in Hj by lia. case_decide; [injection Hj as <-; by exists names|eauto].
  - intros a b a' b' e. rewrite !(nm_insert _ _ _ names) by (done || lia).
    assert (∀ k, names.[k] = Some e → e ∈ names) as Hin by (intros k Hk; apply zlookup_elem_of; eauto).
    repeat case_decide; intros H1 H2.
    + subst. split; [done|]. pose proof (zlookup_lt_Some _ _ _ H1). pose proof (zlookup_lt_Some _ _ _ H2).
      unfold zlookup in H1, H2. destruct (Z.ltb_spec b 0), (Z.ltb_spec b' 0); try lia. pose proof (NoDup_lookup _ _ _ _ Hnd H1 H2). lia.
    + destruct (Hnew e (Hin _ H1)). by eapply Hold.
    + destruct (Hnew e (Hin _ H2)). by eapply Hold.
    + by eapply Hinj.
Qed.

Lemma procs_ok_insert ss i s : procs_ok ss → proc_ok s → procs_ok (<[Z.to_nat i := s]> ss).
Proof.
  intros Hss Hs j s' Hj. destruct (decide (0 ≤ i < glen ss)) as [Hi|Hi].
  - rewrite zlookup_insert in Hj by done. case_decide; [by injection Hj as <-|by apply (Hss j)].
  - destruct (decide (0 ≤ i)) as [H0|H0].
    + rewrite list_insert_ge in Hj by (unfold glen in Hi; lia). by apply (Hss j).
    + destruct ss as [|s0 ss]; [by apply (Hss j)|]. replace (Z.to_nat i) with 0%nat in Hj by lia. cbn in Hj.
      destruct (decide (j = 0)) as [->|]; [rewrite zlookup_cons_0 in Hj; by injection Hj as <-|].
      destruct (Z.lt_trichotomy j 0) as [?|[?|?]]; [apply zlookup_lt_Some in Hj; lia|done|].
      rewrite zlookup_cons_pos in Hj by done. apply (Hss j). by rewrite zlookup_cons_pos.
Qed.

Lemma StartServer_wired n g i st :
  wired n g → 0 ≤ i < n → glen st.(st_names) = n → NoDup st.(st_names) →
  (∀ e, e ∈ st.(st_names) → ¬ end_exists g.2 e) → st.(st_ok) = true →
  ∃ sg net, StartServer i st.(st_names) st.(st_ok) st.(st_server) g = Ret (sg, net) ∧ wired n (sg, net) ∧
    (∀ e, end_exists net e ↔ e ∈ st.(st_names) ∨ end_exists g.2 e) ∧
    sg.(connected) = g.1.(connected) ∧ sg.(grp_gid) = g.1.(grp_gid) ∧ sg.(servernames) = g.1.(servernames) ∧
    running sg i ∧ (∀ j, running g.1 j → running sg j) ∧
    net.(servers) = <[ServerName g.1.(grp_gid) i := Some st.(st_server)]> g.2.(servers).
Proof.
  intros [[Hok Hconn] Hends Hprocs] Hi Hlen Hnd Hnew Hstart. destruct g as [sg net]. cbn [fst snd] in *.
  destruct (server_at _ _ Hok i Hi) as (s & names & Hs & _). unfold StartServer. cbn [fst snd].
  rewrite (proj2 (gidx_Ret _ _ _) Hs). cbn [mbind go_bind]. unfold startServer, makeServer.
  destruct (make_ends_exist sg.(grp_gid) st.(st_names) 0 net Hnd Hnew) as (ces & net1 & -> & Hsv & Hx).
  cbn [mbind go_bind fst snd]. rewrite Hstart. cbn [negb]. cbn [saved upd upd_saved].
  pose proof (eo_len _ _ Hok) as Hsl. rewrite gset_idx_Ret by lia. cbn [mbind go_bind].
  match goal with |- context [<[_ := ?x]> (srvs sg)] => set (s2 := x) end.
  assert (endNames s2 = Some st.(st_names)) as Hn2 by done.
  eexists _, _. split; [reflexivity|]. split; [split; [split| |]|]; cbn [fst snd].
  - by apply (ends_ok_insert _ _ _ _ st.(st_names) net).
  - done.
  - intros a b e. cbn. rewrite (nm_insert _ _ _ st.(st_names)) by (done || lia). unfold end_exists in *. cbn.
    rewrite Hx. case_decide; [|intros; right; by eapply Hends]. intros Hb. left. apply zlookup_elem_of. by exists b.
  - apply procs_ok_insert; [done|]. by intros d [= <-].
  - split; [exact Hx|]. split; [done|]. split; [done|]. split; [done|]. split; [|split].
    + exists s2. eexists. cbn [fst snd srvs upd upd_srvs]. split; [by rewrite zlookup_insert, decide_True by (done || lia)|done].
    + intros j (sj & d & Hj & Hd & Hal). unfold running. cbn. destruct (decide (i = j)) as [->|Hne].
      * exists s2. eexists. split; [by rewrite zlookup_insert, decide_True by (done || lia)|done].
      * exists sj, d. by rewrite zlookup_insert, decide_False by (done || lia).
    + cbn. by rewrite Hsv.
Qed.

(** *** Starting all, and connecting all *)

(** The name of server [i] stands for a running server. *)
Definition served (gid : Z) (net : Network) (i : Z) : Prop := ∃ p, server_of net (ServerName gid i) = Some p.

Lemma StartSrvs_spec n l : ∀ g,
  wired n g → (∀ i st, (i, st) ∈ l → 0 ≤ i < n ∧ glen st.(st_names) = n ∧ st.(st_ok) = true) →
  NoDup (concat ((λ x, st_names x.2) <$> l)) →
  (∀ e, e ∈ concat ((λ x, st_names x.2) <$> l) → ¬ end_exists g.2 e) →
  ∃ g', StartSrvs l g = Ret g' ∧ wired n g' ∧ g'.1.(grp_gid) = g.1.(grp_gid) ∧
    (∀ i, i ∈ l.*1 ∨ running g.1 i → running g'.1 i) ∧
    (∀ i, i ∈ l.*1 ∨ served g.1.(grp_gid) g.2 i → served g.1.(grp_gid) g'.2 i).
Proof.
  unfold StartSrvs. induction l as [|[i st] l IH]; intros g Hg Hl Hnd Hnew; cbn [foldM].
  { exists g. split; [done|]. split; [done|]. split; [done|]. split; intros i [?%not_elem_of_nil|?]; done. }
  destruct (Hl i st ltac:(left)) as (Hi & Hlen & Hok).
  cbn [fmap list_fmap concat fst snd] in *. apply NoDup_app in Hnd as (Hnd1 & Hdisj & Hnd).
  destruct (StartServer_wired n g i st) as (sg & net & -> & Hw & Hx & _ & Hgid & _ & Hrun & Hruns & Hsrv);
    [done..| |done|]; [intros e He; apply Hnew, elem_of_app; by left|].
  cbn [mbind go_bind]. destruct (IH (sg, net) Hw) as (g' & -> & Hw' & Hgid' & Hr' & Hs'); [|done| |].
  - intros j st' Hin. apply Hl. by right.
  - intros e He [Hin|Hin]%Hx; [by apply (Hdisj e)|]. apply (Hnew e); [apply elem_of_app; by right|done].
  - exists g'. cbn [fst snd] in *. rewrite Hgid in *. split; [done|]. split; [done|]. split; [done|].
    assert (∀ j, i = j ∨ served g.1.(grp_gid) g.2 j → served g.1.(grp_gid) net j) as Hkeep.
    { intros j Hj. unfold served, server_of in *. rewrite Hsrv.
      destruct (decide (ServerName g.1.(grp_gid) i = ServerName g.1.(grp_gid) j)) as [->|Hne].
      - exists st.(st_server). by rewrite lookup_insert_eq.
      - rewrite lookup_insert_ne by done. by destruct Hj as [->|Hj]. }
    split; intros j Hj; [apply Hr'|apply Hs']; rewrite elem_of_cons in Hj.
    + destruct Hj as [[->|Hj]|Hj]; [right; done|by left|right; by apply Hruns].
    + destruct Hj as [[->|Hj]|Hj]; [right; apply Hkeep; by left|by left|right; apply Hkeep; by right].
Qed.

Lemma connect_servers i to g g' : connect i to g = Ret g' → g'.2.(servers) = g.2.(servers).
Proof.
  unfold connect. intros H. go_inv H. subst g'. cbn.
  transitivity (servers a1).
  - eapply (foldM_Ret_inv _ (λ net, servers net = servers a1)); [|done|exact Ha2].
    intros net x net' Hn. unfold enable_from. intros H. go_inv H. destruct a3; go_inv H; subst; exact Hn.
  - eapply (foldM_Ret_inv _ (λ net, servers net = servers g.2)); [|done|exact Ha1].
    intros net x net' Hn. unfold enable_to. intros H. go_inv H. destruct a3; go_inv H; subst; exact Hn.
Qed.

Lemma connect_ends i to g g' : connect i to g = Ret g' → g'.2.(ends) = g.2.(ends).
Proof.
  unfold connect. intros H. go_inv H. subst g'. cbn. transitivity (ends a1).
  - eapply (foldM_Ret_inv _ (λ net, ends net = ends a1)); [|done|exact Ha2].
    intros net x net' Hn. unfold enable_from. intros H. go_inv H. destruct a3; go_inv H; subst; exact Hn.
  - eapply (foldM_Ret_inv _ (λ net, ends net = ends g.2)); [|done|exact Ha1].
    intros net x net' Hn. unfold enable_to. intros H. go_inv H. destruct a3; go_inv H; subst; exact Hn.
Qed.

Lemma ConnectAll_ends g g' : ConnectAll g = Ret g' → g'.2.(ends) = g.2.(ends).
Proof.
  unfold ConnectAll, ConnectOne. intros H. apply (foldM_Ret_inv _ (λ h : Grp, h.2.(ends) = g.2.(ends))) in H; [exact H| |done].
  intros h x h' Hh Hc. by rewrite (connect_ends _ _ _ _ Hc).
Qed.

(** The first [k] servers are connected with each other. *)
Record connected_upto (n : Z) (g0 : Grp) (k : Z) (g : Grp) : Prop := {
  cu_ok : group_ok g n;
  cu_srvs : g.1.(srvs) = g0.1.(srvs);
  cu_gid : g.1.(grp_gid) = g0.1.(grp_gid);
  cu_net : g.2.(servers) = g0.2.(servers);
  cu_conn : ∀ t, 0 ≤ t < k → g.1.(connected).[t] = Some true;
  cu_lnk : ∀ a b, 0 ≤ a < k → 0 ≤ b < k → lnk g.1.(srvs) g.2 a b = true;
}.

Lemma elem_of_all sg t : t ∈ all sg ↔ 0 ≤ t < glen sg.(srvs).
Proof. unfold all, range. rewrite elem_of_seqZ. lia. Qed.

Lemma ConnectOne_step n g0 k g :
  0 ≤ k < n → connected_upto n g0 k g →
  ∃ g', ConnectOne k g = Ret g' ∧ connected_upto n g0 (k + 1) g'.
Proof.
  intros Hk [[Hok Hlen] Hss Hgid Hnet Hc Hl]. unfold ConnectOne. pose proof (eo_len _ _ Hok) as Hn.
  destruct (connect_spec n g k (all g.1)) as (net' & E & L); [done|done|intros t ?%elem_of_all; lia|].
  pose proof (connect_servers _ _ _ _ E) as Hsv. rewrite E. eexists. split; [done|].
  set (conn := <[Z.to_nat k := true]> g.1.(connected)) in *.
  assert (∀ t, 0 ≤ t < k + 1 → conn.[t] = Some true) as Hconn.
  { intros t Ht. unfold conn. rewrite zlookup_insert by lia. case_decide; [done|]. apply Hc. lia. }
  constructor; cbn [fst snd] in *.
  - split; [done|]. cbn. unfold conn. by rewrite glen_insert.
  - done.
  - done.
  - congruence.
  - exact Hconn.
  - intros a b Ha Hb. change (srvs (g.1 <| connected := conn |>)) with g.1.(srvs).
    destruct (L a b) as [L1 L2]. destruct (decide (a = k)) as [->|Ha'].
    { apply L1. left. split; [done|]. split; [apply elem_of_all; lia|by apply Hconn]. }
    destruct (decide (b = k)) as [->|Hb'].
    { apply L1. right. split; [done|]. split; [apply elem_of_all; lia|by apply Hconn]. }
    rewrite L2 by by intros [[? _]|[? _]]. apply Hl; lia.
Qed.

Lemma ConnectAll_spec n g :
  group_ok g n → ∃ g', ConnectAll g = Ret g' ∧ connected_upto n g n g'.
Proof.
  intros Hg. pose proof (eo_len _ _ (proj1 Hg)) as Hn. unfold ConnectAll, all, range. rewrite Hn.
  assert (0 ≤ n) as H0 by (rewrite <-Hn; apply glen_nonneg). revert H0.
  cut (∀ k, 0 ≤ k → k ≤ n → ∃ g', foldM (λ g i, ConnectOne i g) g (seqZ 0 k) = Ret g' ∧ connected_upto n g k g').
  { intros Hk ?. by apply Hk. }
  apply (natlike_ind (λ k, k ≤ n → _)).
  - intros _. exists g. split; [done|]. constructor; (done || lia).
  - intros k Hk IH Hlt. destruct IH as (g1 & E & H1); [lia|]. rewrite <-Z.add_1_r, seqZ_app by lia.
    change (seqZ (0 + k) 1) with [k]. rewrite foldM_app, E. cbn [mbind go_bind foldM].
    destruct (ConnectOne_step n g k g1) as (g' & -> & H2); [lia|done|]. cbn [mbind go_bind]. by exists g'.
Qed.

(** What starting a group of [n] servers needs: names drawn once, and
    processes that could be run. *)
Record startable (n : Z) (net : Network) (starts : list Start) : Prop := {
  sb_len : glen starts = n;
  sb_st : ∀ st, st ∈ starts → glen st.(st_names) = n ∧ st.(st_ok) = true;
  sb_nodup : NoDup (concat (st_names <$> starts));
  sb_new : ∀ e, e ∈ concat (st_names <$> starts) → ¬ end_exists net e;
}.

(** Every server is up, and every two can talk to each other. *)
Record all_up (n : Z) (g : Grp) : Prop := {
  au_ok : group_ok g n;
  au_running : ∀ i, 0 ≤ i < n → running g.1 i;
  au_served : ∀ i, 0 ≤ i < n → served g.1.(grp_gid) g.2 i;
  au_connected : ∀ i, 0 ≤ i < n → g.1.(connected).[i] = Some true;
  au_lnk : ∀ a b, 0 ≤ a < n → 0 ≤ b < n → lnk g.1.(srvs) g.2 a b = true;
}.

Lemma all_up_procs n g : all_up n g → procs_ok g.1.(srvs).
Proof.
  intros Hup i s Hs. pose proof (zlookup_lt_Some _ _ _ Hs) as Hi. rewrite (eo_len _ _ (proj1 (au_ok _ _ Hup))) in Hi.
  destruct (au_running _ _ Hup i Hi) as (s' & d & Hs' & Hd & Hal). rewrite Hs in Hs'. injection Hs' as <-.
  intros d'. rewrite Hd. by intros [= <-].
Qed.

Lemma zip_all_fst n (starts : list Start) : glen starts = n → (zip (range n) starts).*1 = range n.
Proof. intros <-. apply fst_zip. unfold range, glen. rewrite length_seqZ. lia. Qed.

Lemma StartServers_spec n g starts :
  wired n g → startable n g.2 starts →
  ∃ g', StartServers starts g = Ret g' ∧ g'.1.(grp_gid) = g.1.(grp_gid) ∧ all_up n g' ∧ wired n g'.
Proof.
  intros Hg [Hlen Hst Hnd Hnew]. unfold StartServers, all.
  rewrite (eo_len _ _ (proj1 (wi_ok _ _ Hg))).
  pose proof (zip_all_fst n starts Hlen) as Hfst.
  assert ((λ x : Z * Start, st_names x.2) <$> zip (range n) starts = st_names <$> starts) as Hnames.
  { transitivity (st_names <$> (zip (range n) starts).*2); [by rewrite <-list_fmap_compose|]. f_equal. apply snd_zip. unfold range. rewrite length_seqZ. unfold glen in *. lia. }
  destruct (StartSrvs_spec n (zip (range n) starts) g) as (g1 & E1 & Hw1 & Hgid1 & Hr1 & Hs1); [done| | | |].
  - intros i st Hin. apply elem_of_zip_l in Hin as Hi. apply elem_of_zip_r in Hin as [? ?]%Hst.
    unfold range in Hi. apply elem_of_seqZ in Hi. split_and!; (done || lia).
  - by rewrite Hnames.
  - by rewrite Hnames.
  - rewrite E1. cbn [mbind go_bind]. destruct (ConnectAll_spec n g1 (wi_ok _ _ Hw1)) as (g2 & E2 & [Hok Hss Hgid Hnet Hc Hl]).
    exists g2. split; [done|]. split; [congruence|]. rewrite Hfst in Hr1, Hs1.
    assert (∀ i, 0 ≤ i < n → i ∈ range n) as Hin by (intros; unfold range; apply elem_of_seqZ; lia).
    split; [|split; [done|intros a b e; rewrite Hss; unfold end_exists; rewrite (ConnectAll_ends _ _ E2); apply Hw1|rewrite Hss; apply Hw1]].
    constructor; [done| | |done|done].
    + intros i Hi. destruct (Hr1 i (or_introl (Hin i Hi))) as (s & d & Hs & Hd).
      exists s, d. by rewrite Hss.
    + intros i Hi. destruct (Hs1 i (or_introl (Hin i Hi))) as (p & Hp).
      exists p. unfold server_of. rewrite Hgid, Hgid1, Hnet. exact Hp.
Qed.

Lemma make_servers_procs gid names : ∀ net ss net', make_servers gid names net = Ret (ss, net') → procs_ok ss.
Proof.
  induction names as [|ns names IH]; intros net ss net' E; cbn [make_servers] in E.
  { injection E as <- _. intros i s Hi%zlookup_lt_Some. unfold glen in Hi. cbn in Hi. lia. }
  apply bind_Ret_inv in E as ([s1 net1] & E1 & E). apply bind_Ret_inv in E as ([ss2 net2] & E2 & E). injection E as <- _.
  assert (dc s1 = None) as H1 by (unfold makeServer in E1; apply bind_Ret_inv in E1 as (r & _ & E1); by injection E1 as <- _).
  intros i s Hi. assert (s ∈ s1 :: ss2) as Hin by (apply zlookup_elem_of; by exists i).
  apply elem_of_cons in Hin as [->|Hin]; [intros d; by rewrite H1|].
  apply zlookup_elem_of in Hin as [j Hj]. by apply (IH _ _ _ E2 j).
Qed.

Lemma makeSrvGrp_wired gid names net :
  (∀ ns, ns ∈ names → glen ns = glen names) → NoDup (concat names) →
  (∀ e, e ∈ concat names → ¬ end_exists net e) →
  ∃ g, makeSrvGrp gid names net = Ret g ∧ wired (glen names) g ∧ g.1.(grp_gid) = gid ∧
    ∀ e, end_exists g.2 e ↔ e ∈ concat names ∨ end_exists net e.
Proof.
  intros Hl Hnd Hnew. destruct (make_servers_exist gid names net Hnd Hnew) as (ss & net' & E & _ & Hx).
  assert (makeSrvGrp gid names net = Ret (mkServerGrp ss (ServerName gid <$> range (glen names)) gid
    (replicate (Z.to_nat (glen names)) false), net')) as Em by (unfold makeSrvGrp; by rewrite E).
  pose proof (makeSrvGrp_ok _ _ _ _ Hl Hnd Em) as Hok. rewrite Em. eexists. split; [done|].
  split; [split; [done| |by eapply make_servers_procs]|split; [done|exact Hx]]. cbn [fst snd srvs]. intros a b e Hnm. apply Hx. left.
  pose proof (make_servers_names _ _ _ _ _ E) as Hn. unfold nm in Hnm.
  destruct (ss.[a]) as [s|] eqn:Ha; [|done].
  assert (s ∈ ss) as Hs by (apply zlookup_elem_of; by exists a).
  apply (list_elem_of_fmap_2 endNames) in Hs. rewrite Hn in Hs. apply list_elem_of_fmap in Hs as (ns & Hns & Hin).
  rewrite Hns in Hnm. apply elem_of_concat. exists ns. split; [|done]. apply zlookup_elem_of. by exists b.
Qed.

(** [MakeGroupStart]: if every name that is drawn for an end is new and
    every process can be run, nothing panics, only the entry of this group in
    the map changes, and all its servers run, are served by the network under
    their names, and are connected with each other in both directions. *)
Theorem MakeGroupStart_spec gid names starts gs net :
  let n := glen names in
  (∀ ns, ns ∈ names → glen ns = n) → NoDup (concat names) →
  (∀ e, e ∈ concat names → ¬ end_exists net e) →
  startable n net starts →
  (∀ e, e ∈ concat names → e ∉ concat (st_names <$> starts)) →
  ∃ sg net', MakeGroupStart gid names starts (gs, net) = Ret (<[gid := sg]> gs, net') ∧
    sg.(grp_gid) = gid ∧ N sg = n ∧ all_up n (sg, net').
Proof.
  intros n Hl Hnd Hnew [Hsl Hst Hsnd Hsnew] Hdisj.
  destruct (makeSrvGrp_wired gid names net Hl Hnd Hnew) as (g & E & Hw & Hgid & Hx).
  unfold MakeGroupStart, MakeGroup, on_group, lookupGroup. cbn [fst snd]. rewrite E. cbn [mbind go_bind fst snd].
  rewrite lookup_insert_eq. rewrite <-surjective_pairing.
  destruct (StartServers_spec n g starts Hw) as ([sg net'] & -> & Hg' & Hup & _).
  { constructor; [done..|]. intros e He [Hin|Hin]%Hx; [by apply (Hdisj e)|by apply (Hsnew e)]. }
  cbn [mbind go_bind fst snd] in *. exists sg, net'. rewrite insert_insert_eq. split; [done|].
  split; [congruence|]. split; [|done]. exact (eo_len _ _ (proj1 (au_ok _ _ Hup))).
Qed.

(** *** Shutting down *)

Lemma disconnect_servers i from g g' : disconnect i from g = Ret g' → g'.2.(servers) = g.2.(servers).
Proof.
  unfold disconnect. intros H. go_inv H. subst g'. cbn.
  transitivity (servers a1).
  - eapply (foldM_Ret_inv _ (λ net, servers net = servers a1)); [|done|exact Ha2].
    intros net x net' Hn. unfold disable_from. intros H. go_inv H.
    destruct (endNames a3); go_inv H; subst; exact Hn.
  - unfold srv_disconnect in Ha1. destruct (endNames a0); [|by go_inv Ha1; subst].
    eapply (foldM_Ret_inv _ (λ net, servers net = servers g.2)); [|done|exact Ha1].
    cbn beta. intros net x net' Hn H. go_inv H. subst. exact Hn.
Qed.

Lemma ShutdownServer_servers i g g' :
  ShutdownServer i g = Ret g' → g'.2.(servers) = <[ServerName g.1.(grp_gid) i := None]> g.2.(servers).
Proof.
  unfold ShutdownServer. intros H. go_inv H. subst g'. cbn. pose proof (disconnect_servers _ _ _ _ Ha) as ->.
  unfold disconnect in Ha. go_inv Ha. by subst a.
Qed.

Lemma dc_shutdown s : (stopped s).(dc) = None.
Proof. unfold stopped. by destruct (dc s) eqn:E. Qed.

Lemma nm_shutdown ss i s a b :
  ss.[i] = Some s → nm (<[Z.to_nat i := stopped s]> ss) a b = nm ss a b.
Proof.
  intros Hs. pose proof (zlookup_lt_Some _ _ _ Hs). unfold nm. rewrite zlookup_insert by done.
  case_decide as E; [|done]. subst. rewrite Hs. unfold stopped. by destruct (dc s).
Qed.

Lemma ends_ok_shutdown ss n i s :
  ends_ok ss n → ss.[i] = Some s → ends_ok (<[Z.to_nat i := stopped s]> ss) n.
Proof.
  intros [Hl He Hinj] Hs. pose proof (zlookup_lt_Some _ _ _ Hs). constructor.
  - by rewrite glen_insert.
  - intros j s' Hj. rewrite zlookup_insert in Hj by done. case_decide; [|eauto]. injection Hj as <-.
    destruct (He i s Hs) as (names & ? & ?). exists names. unfold stopped. by destruct (dc s).
  - intros a b a' b' e. rewrite !nm_shutdown by done. apply Hinj.
Qed.

(** Server [i] does not run, is not served, and nothing reaches it or comes
    from it. *)
Record down (n : Z) (g : Grp) (i : Z) : Prop := {
  dn_running : ¬ running g.1 i;
  dn_served : ¬ served g.1.(grp_gid) g.2 i;
  dn_connected : g.1.(connected).[i] = Some false;
  dn_lnk : ∀ a, 0 ≤ a < n → lnk g.1.(srvs) g.2 i a = false ∧ lnk g.1.(srvs) g.2 a i = false;
}.

Lemma ShutdownServer_down n g i s :
  group_ok g n → g.1.(srvs).[i] = Some s → proc_ok s →
  ∃ g', ShutdownServer i g = Ret g' ∧ group_ok g' n ∧ g'.1.(grp_gid) = g.1.(grp_gid) ∧
    g'.1.(srvs) = <[Z.to_nat i := stopped s]> g.1.(srvs) ∧ down n g' i ∧
    ∀ j, 0 ≤ j < n → down n g j → down n g' j.
Proof.
  intros Hg Hs Hpr. assert (0 ≤ i < n) as Hi by (rewrite <-(eo_len _ _ (proj1 Hg)); by eapply zlookup_lt_Some). pose proof (eo_len _ _ (proj1 Hg)) as Hn. pose proof (proj2 Hg) as Hc.
  destruct (ShutdownServer_spec n g i s Hg Hs Hpr) as (net' & E & _ & Hl).
  pose proof (ShutdownServer_servers _ _ _ E) as Hsv. rewrite E. eexists. split; [done|]. cbn [fst snd] in *.
  assert (∀ a b, lnk (<[Z.to_nat i := stopped s]> g.1.(srvs))
      (DeleteServer (ServerName g.1.(grp_gid) i) net') a b = lnk g.1.(srvs) net' a b) as Hlnk
    by (intros; unfold lnk; by rewrite nm_shutdown).
  assert (∀ a, 0 ≤ a < n → a ∈ all g.1) as Hall by (intros; apply elem_of_all; lia).
  split; [split; [apply ends_ok_shutdown; [exact (proj1 Hg)|done]|cbn; by rewrite glen_insert]|]. split; [done|]. split; [done|]. split.
  - constructor; cbn.
    + intros (s' & d & Hs' & Hd & _). cbn in Hs'. rewrite zlookup_insert, decide_True in Hs' by (done || lia).
      injection Hs' as <-. by rewrite dc_shutdown in Hd.
    + intros (p & Hp). unfold server_of in Hp. cbn in Hsv. cbn in Hp. rewrite Hsv, lookup_insert_eq in Hp. done.
    + by rewrite zlookup_insert, decide_True by (done || lia).
    + intros a Ha. rewrite !Hlnk. split; apply Hl; [left|right]; auto.
  - intros j Hj [Hr Hsd Hcj Hlj]. constructor; cbn.
    + intros (s' & d & Hs' & Hd & Hal). cbn in Hs'. rewrite zlookup_insert in Hs' by lia. case_decide as Eij.
      * injection Hs' as <-. by rewrite dc_shutdown in Hd.
      * apply Hr. by exists s', d.
    + intros (p & Hp). unfold server_of in Hp. cbn in Hsv, Hp. rewrite Hsv in Hp. apply Hsd.
      exists p. unfold server_of. destruct (decide (ServerName g.1.(grp_gid) i = ServerName g.1.(grp_gid) j)) as [Eq|Hne].
      * by rewrite Eq, lookup_insert_eq in Hp.
      * by rewrite lookup_insert_ne in Hp by done.
    + rewrite zlookup_insert by lia. by case_decide.
    + intros a Ha. rewrite !Hlnk. destruct (Hlj a Ha) as [H1 H2].
      destruct (Hl j a) as [Ht1 Ht2], (Hl a j) as [Ht3 Ht4]. unfold touches in *.
      destruct (decide (i = j ∨ i = a)) as [Eij|Eij].
      * split; [apply Ht1|apply Ht3]; destruct Eij; subst; auto.
      * rewrite Ht2, Ht4 by naive_solver. done.
Qed.

Lemma proc_ok_stopped s : proc_ok (stopped s).
Proof. intros d. by rewrite dc_shutdown. Qed.

Lemma Kill_down n l : ∀ g,
  group_ok g n → (∀ i s, i ∈ l → g.1.(srvs).[i] = Some s → proc_ok s) → (∀ i, i ∈ l → 0 ≤ i < n) →
  ∃ g', Kill l g = Ret g' ∧ group_ok g' n ∧ g'.1.(grp_gid) = g.1.(grp_gid) ∧
    ∀ j, 0 ≤ j < n → j ∈ l ∨ down n g j → down n g' j.
Proof.
  unfold Kill. induction l as [|i l IH]; intros g Hg Hp Hl; cbn [foldM].
  { exists g. split_and!; [done..|]. intros j _ [?%not_elem_of_nil|?]; done. }
  destruct (server_at _ _ (proj1 Hg) i) as (s & _ & Hs & _); [apply Hl; left|].
  destruct (ShutdownServer_down n g i s Hg Hs) as (g1 & -> & Hg1 & Hgid1 & Hss & Hd & Hkeep); [apply (Hp i); [left|done]|].
  cbn [mbind go_bind]. destruct (IH g1 Hg1) as (g' & -> & Hg' & Hgid' & Hr); [|intros; apply Hl; by right|].
  { intros j s' Hj. rewrite Hss, zlookup_insert by by eapply zlookup_lt_Some.
    case_decide; [intros [= <-]; apply proc_ok_stopped|apply Hp; by right]. }
  exists g'. split; [done|]. split; [done|]. split; [congruence|]. intros j Hj [[->|Hin]%elem_of_cons|Hjd].
  - apply Hr; [done|by right].
  - apply Hr; [done|by left].
  - apply Hr; [done|right; by apply Hkeep].
Qed.

Lemma Kill_ended n i s d l : ∀ g,
  group_ok g n → (∀ j, j ∈ l → 0 ≤ j < n) → NoDup l → i ∈ l → g.1.(srvs).[i] = Some s → s.(dc) = Some d → d.(da_proc) ≠ Alive →
  Kill l g = Fatal.
Proof.
  unfold Kill. induction l as [|j l IH]; intros g Hg Hl Hnd Hin Hs Hd Hp; [by apply elem_of_nil in Hin|]. cbn [foldM].
  apply NoDup_cons in Hnd as [Hj Hnd]. destruct (decide (j = i)) as [->|Hne].
  { by rewrite (ShutdownServer_ended n g i s d). }
  apply elem_of_cons in Hin as [->|Hin]; [done|].
  destruct (server_at _ _ (proj1 Hg) j) as (s' & _ & Hs' & _); [apply Hl; left|].
  destruct (decide (proc_ok s')) as [Hp'|Hp'].
  - destruct (ShutdownServer_down n g j s' Hg Hs' Hp') as (g1 & -> & Hg1 & _ & Hss & _). cbn [mbind go_bind].
    apply IH; try done; [intros; apply Hl; by right|]. rewrite Hss, zlookup_insert by (by eapply zlookup_lt_Some). by rewrite decide_False.
  - unfold proc_ok in Hp'. destruct (dc s') as [d'|] eqn:Hd'; [|by destruct Hp']. rewrite (ShutdownServer_ended n g j s' d'); try done.
    intros Hal. apply Hp'. by intros ? [= <-].
Qed.

(** [ExitGroup]: the group is gone from the map and all its servers are down. *)
Theorem ExitGroup_spec n gid sg gs net :
  gs !! gid = Some sg → group_ok (sg, net) n → procs_ok sg.(srvs) →
  ∃ sg' net', ExitGroup gid (gs, net) = Ret (delete gid gs, net') ∧ group_ok (sg', net') n ∧
    sg'.(grp_gid) = sg.(grp_gid) ∧ ∀ i, 0 ≤ i < n → down n (sg', net') i.
Proof.
  intros Hgs Hg Hp. unfold ExitGroup, on_group, lookupGroup, Shutdown. cbn [fst snd]. rewrite Hgs.
  pose proof (eo_len _ _ (proj1 Hg)) as Hn. cbn [fst srvs] in Hn.
  destruct (Kill_down n (all sg) (sg, net) Hg) as ([sg' net'] & E & Hg' & Hgid & Hd); [intros i s _; apply Hp|intros i ?%elem_of_all; lia|].
  unfold Kill in E |- *. cbn [fst] in *. rewrite E. cbn [mbind go_bind fst snd]. exists sg', net'.
  split; [by rewrite delete_insert_eq|]. split; [done|]. split; [done|]. intros i Hi. apply Hd; [done|].
  left. apply elem_of_all. lia.
Qed.
