(* ===== verification/TesterConfigWitness.v ===== *)
(** * The theorems on the tester's configuration at concrete groups *)

From S2P Require Import Prelude Names Gob Persister LabRpc TesterGroup TesterConfig.

(** The sequence of draws that leads to a given order is unique. *)
Lemma random_handles_bijection_witness :
  random_handles [0; 0; 1] [1; 2; 3] = Ret [2; 3; 1] ∧
  ∀ rs, draws 3 rs → random_handles rs [1; 2; 3] = Ret [2; 3; 1] → rs = [0; 0; 1].
Proof.
  destruct (random_handles_bijection [1; 2; 3]) as [_ H]. split; [vm_compute; reflexivity|].
  destruct (H ltac:(by apply (bool_decide_unpack _)) [2; 3; 1] ltac:(by apply (bool_decide_unpack _)))
    as (rs0 & _ & Huniq).
  intros rs Hd Hr. transitivity rs0; [symmetry|]; apply Huniq; split; try done.
  split; [done|]. intros i r Hi. pose proof (zlookup_lt_Some _ _ _ Hi) as Hb. change (glen [0; 0; 1]) with 3 in Hb.
  assert (i = 0 ∨ i = 1 ∨ i = 2) as [->|[->| ->]] by lia; injection Hi as <-; lia.
Defined.

(** A group of two servers on a fresh network; server 1 of it is then found. *)
Definition two_names (p : string) : list (list string) :=
  [[p +:+ "00"; p +:+ "01"]; [p +:+ "10"; p +:+ "11"]].
Definition two_starts : list Start := zip_with (λ ns i, mkStart ns true i) (two_names "b") [7; 8]%nat.

Lemma MakeGroupStart_spec_witness :
  ∃ sg net, MakeGroupStart 5 (two_names "a") two_starts (newGroups, MakeNetwork) = Ret (<[5 := sg]> newGroups, net) ∧
    lnk sg.(srvs) net 0 1 = true ∧ lnk sg.(srvs) net 1 0 = true ∧ served sg.(grp_gid) net 1.
Proof.
  destruct (MakeGroupStart_spec 5 (two_names "a") two_starts newGroups MakeNetwork)
    as (sg & net & E & _ & _ & Hup).
  - apply Forall_forall. by repeat constructor.
  - by apply (bool_decide_unpack _).
  - intros e _ [x Hx]. discriminate Hx.
  - constructor.
    + reflexivity.
    + apply Forall_forall. by repeat constructor.
    + by apply (bool_decide_unpack _).
    + intros e _ [x Hx]. discriminate Hx.
  - apply Forall_forall. by apply (bool_decide_unpack _).
  - exists sg, net. split; [exact E|]. destruct Hup as [_ _ Hs _ Hl].
    split; [apply (Hl 0 1); split; done|]. split; [apply (Hl 1 0); split; done|]. apply Hs. split; done.
Defined.
