(* ===== verification/Daemon.v ===== *)
(** * Server daemons: [tester1/daemonclnt.go], [daemonsrv.go], [sockrpc/]

    The tester runs each server as a process and talks to it over sockets:
    command line, the calls over a socket, the way of a request from the
    simulated network into the process and from the process back into the
    network, and the start, in which three goroutines of the process meet on
    one unbuffered channel. The multiplexed connection under [sockrpc] is
    [Demux.v]'s; here it is an argument, [SendReceive]. *)

From S2P Require Import Prelude Names GoStrings Gob Persister LabRpc TesterGroup.
From Stdlib Require Import Ascii.

(** ** The command line *)

Definition options (UseRaftStateMachine : bool) : list string :=
  if UseRaftStateMachine then ["--raft-state-machine"] else [].

(** The arguments of [exec.Command] in [runDaemon]. *)
Definition runDaemon_args (pargs : list string) (use : bool) (gid srv : Z) (endName : string)
    (endNames : list string) : list string :=
  pargs ++ options use ++ [pretty gid; pretty srv; pretty (glen endNames); endName] ++ endNames.

(** The loop that skips optional arguments; [args[0]] of an empty argument is
    out of range. *)
Fixpoint skip_options (i s : Z) (args : list string) : go Z :=
  match args with
  | [] => Ret s
  | EmptyString :: _ => Panic
  | String c _ :: args => if bool_decide (c = "-"%char) then skip_options (i + 1) (i + 1) args else Ret s
  end.

(** [flag.Parse] has accepted the options by then. What [InitDaemon] knows once it has parsed its arguments. *)
Record DaemonArgs := mkDaemonArgs {
  a_gid : Z; a_sid : Z; a_testerEndName : string; a_endNames : list string; a_endName : string;
}.

Definition atoi_at (args : list string) (i : Z) : go (option Z) := a ← gidx args i; Ret (Atoi a).

(** [None]: [InitDaemon] returns an error. *)
Definition InitDaemon_args (args : list string) : go (option DaemonArgs) :=
  s ← skip_options 0 0 args;
  gid ← atoi_at args s;
  match (gid : option Z) with None => Ret None | Some gid =>
  sid ← atoi_at args (s + 1);
  match (sid : option Z) with None => Ret None | Some sid =>
  nsrv ← atoi_at args (s + 2);
  match (nsrv : option Z) with None => Ret None | Some nsrv =>
  testerEndName ← gidx args (s + 3);
  upto ← gslice_to args (s + 4 + nsrv);
  endNames ← gslice_from upto (s + 4);
  endName ← gidx endNames sid;
  Ret (Some (mkDaemonArgs gid sid testerEndName endNames endName))
  end end end.

(** The daemon's own network, whose ends all call [ds.forward]. *)
Definition make_end (forward : string → string → bytes → bytes * bool)
    (st : list ClientEnd * Network) (e : string) : go (list ClientEnd * Network) :=
  r ← MakeEnd e st.2; Ret (st.1 ++ [SetCall forward r.1], r.2).
Definition daemon_ends (forward : string → string → bytes → bytes * bool) (a : DaemonArgs) :
    go (list ClientEnd) :=
  r ← foldM (make_end forward) ([], MakeNetwork) a.(a_endNames); Ret r.1.

Definition sockctl (sock : string) : string := sock +:+ "-ctl".
Definition SockName (endName : string) : string := "/tmp/6.5840-" +:+ endName.

(** ** Calls over a socket *)

(** [dial]: [tries] are the results of [net.Dial]. *)
Definition MAXRETRY : nat := 100.
Fixpoint dial_loop {C} (n : nat) (tries : list (option C)) : option C :=
  match n, tries with
  | S n, Some c :: _ => Some c
  | S n, None :: tries => dial_loop n tries
  | _, _ => None
  end.
Definition dial {C} (tries : list (option C)) : option C := dial_loop MAXRETRY tries.
Definition getDmx {C} (tries : list (option C)) : go C :=
  match dial tries with Some c => Ret c | None => Fatal end.

Record RPCArgs := mkRPCArgs { ra_Method : string; ra_Args : bytes }.

Section sockrpc.
Context `{GobCodec RPCArgs} {V : Type}.
(** The reply, its [ok], and whether there was an error instead. *)
Context (SendReceive : bytes → V → V * (bytes * bool * bool)).

Definition RPC (method : string) (args : bytes) (v : V) : V * (bytes * bool) :=
  let '(v, (rep, ok, err)) := SendReceive (Marshall (mkRPCArgs method args)) v in
  (v, if (err : bool) then ([], false) else (rep, ok)).

(** [None]: the call returned false. *)
Definition RPCMarshall `{GobCodec A, GobCodec B} (method : string) (args : A) (v : V) : go (V * option B) :=
  let '(v, (rep, ok)) := RPC method (Marshall args) v in
  if negb ok then Ret (v, None) else r ← Unmarshall rep; Ret (v, Some r).
End sockrpc.

Section server.
Context `{GobCodec RPCArgs} {W : Type}.

Definition ServeRequest (srv : Server W) (clntEnd : string) (b : bytes) (w : W) :
    go (Server W * W * (bytes * bool)) :=
  req ← Unmarshall b;
  Dispatch srv (req : RPCArgs).(ra_Method) clntEnd req.(ra_Args) w.

(** A connection to a process that serves [srv]; [None]: the process is gone.
    When it ends with a request ([log.Fatalf], a panic) the connection breaks:
    the reader fails this call and [SendReceive] the later ones; nobody dials
    again. *)
Definition connection (clntEnd : string) (b : bytes) (v : option (Server W * W)) :
    option (Server W * W) * (bytes * bool * bool) :=
  match v with
  | Some (srv, w) =>
    match ServeRequest srv clntEnd b w with
    | Ret (srv, w, (rep, ok)) => (Some (srv, w), (rep, ok, false))
    | _ => (None, ([], false, true))
    end
  | None => (None, ([], false, true))
  end.
End server.

(** ** Forwarding *)

(** [DaemonClnt.forward], installed with [SetDispatch]: from the network into
    the process. *)
Definition forward `{GobCodec RPCArgs} {V} (SendReceive : bytes → V → V * (bytes * bool * bool))
    (v : V) (method : string) (args : bytes) : V * (bytes * bool) :=
  RPC SendReceive method args v.

Record ForwardArgs := mkForwardArgs { f_Method : string; f_End : string; f_Args : bytes; f_Id : Z }.
Record ForwardReply := mkForwardReply { f_Rep : bytes; f_Ok : bool }.

(** [TesterRPC.Forward]; [net_forward] is the end's [Forward]. *)
Definition TesterRPC_Forward {V} (net : Network)
    (net_forward : ClientEnd → string → bytes → V → V * (bytes * bool))
    (args : ForwardArgs) (v : V) : go (V * ForwardReply) :=
  e ← LookupEnd args.(f_End) net;
  let '(v, (rep, ok)) := net_forward e args.(f_Method) args.(f_Args) v in
  Ret (v, mkForwardReply rep ok).

(** [DaemonSrv.forward], installed with [SetCall]: from the process to the
    tester. [id] is the counter of the process. *)
Definition ds_forward `{GobCodec RPCArgs, GobCodec ForwardArgs, GobCodec ForwardReply} {V}
    (SendReceive : bytes → V → V * (bytes * bool * bool))
    (id : Z) (e method : string) (b : bytes) (v : V) : go (Z * V * (bytes * bool)) :=
  let id := wrap_int 64 (id + 1) in
  r ← RPCMarshall SendReceive "TesterRPC.Forward" (mkForwardArgs method e b id) v;
  Ret (id, r.1, match (r.2 : option ForwardReply) with
                | None => ([], false)
                | Some reply => (reply.(f_Rep), reply.(f_Ok))
                end).

(** ** Starting the process

    [InitDaemon] makes the control server, whose goroutine listens from then on,
    and only then adds the service [DaemonSrv] to it; after that the main
    goroutine and the handlers of [Init] and [InitWait] meet on the unbuffered
    channel [ch]. *)

(** The main goroutine: before [NewRPCSrv], before [AddService(ds)], at its
    first receive, before it registers the services, at [ds.ch <- nil], at its
    last receive, returned; [Died]: [log.Fatal] has ended the process. *)
Inductive MainState :=
  | Booting
  | Unregistered
  | AwaitInit
  | Starting (persister : option Persister)
  | Signalling (persister : option Persister)
  | Serving (persister : option Persister)
  | Exited
  | Died.

(** A handler: [Init] at [ds.ch <- p], [InitWait] at [<-ds.ch], returned. *)
Inductive Handler := Init (p : Persister) | InitWait | Returned.

(** [dm_listening]: the control server accepts connections. *)
Record DaemonSt := mkDaemonSt { dm_main : MainState; dm_listening : bool; dm_handlers : list Handler }.
Definition fresh_daemon : DaemonSt := mkDaemonSt Booting false [].
Definition dm_goto (m : MainState) (st : DaemonSt) : DaemonSt := mkDaemonSt m st.(dm_listening) st.(dm_handlers).
Definition dm_fatal : DaemonSt := mkDaemonSt Died false [].

(** The persister that [Init] makes of its arguments. *)
Definition init_persister (Raftstate Snapshot : bytes) : Persister := Save Raftstate Snapshot MakePersister.

(** What a goroutine would send, and whether it receives; [None] is the main
    goroutine. *)
Definition sends (st : DaemonSt) (g : option nat) : option (option Persister) :=
  match g with
  | None => match st.(dm_main) with Signalling _ => Some None | _ => None end
  | Some i => match st.(dm_handlers) !! i with Some (Init p) => Some (Some p) | _ => None end
  end.
Definition receives (st : DaemonSt) (g : option nat) : bool :=
  match g with
  | None => match st.(dm_main) with AwaitInit | Serving _ => true | _ => false end
  | Some i => match st.(dm_handlers) !! i with Some InitWait => true | _ => false end
  end.

Definition handler_returns (i : nat) (st : DaemonSt) : DaemonSt :=
  mkDaemonSt st.(dm_main) st.(dm_listening) (<[i := Returned]> st.(dm_handlers)).
Definition after_send (g : option nat) (st : DaemonSt) : DaemonSt :=
  match g with
  | None => match st.(dm_main) with Signalling p => dm_goto (Serving p) st | _ => st end
  | Some i => handler_returns i st
  end.
Definition after_receive (g : option nat) (v : option Persister) (st : DaemonSt) : DaemonSt :=
  match g with
  | None => match st.(dm_main) with
            | AwaitInit => dm_goto (Starting v) st
            | Serving _ => dm_goto Exited st
            | _ => st
            end
  | Some i => handler_returns i st
  end.

(** A request reaches a handler when [Dispatch] looks its service up: not
    before the server listens, and a service that is not there ends the
    process. *)
Definition dispatch_ctl (h : Handler) (st : DaemonSt) : DaemonSt :=
  if st.(dm_listening) then
    match st.(dm_main) with
    | Exited | Died => st
    | Booting | Unregistered => dm_fatal
    | _ => mkDaemonSt st.(dm_main) st.(dm_listening) (st.(dm_handlers) ++ [h])
    end
  else st.

Inductive DaemonEvent :=
  | NewCtl                                  (* [NewRPCSrv(sockctl(ds.endName))] *)
  | Listen (ok : bool)                      (* its goroutine: [net.Listen] *)
  | AddCtl                                  (* [AddService(ds)] *)
  | CallInit (Raftstate Snapshot : bytes)   (* a request is dispatched *)
  | CallInitWait
  | Register                                (* the main goroutine makes and adds its services *)
  | Communicate (s r : option nat).         (* [s] sends to [r] *)

Definition dm_step (e : DaemonEvent) (st : DaemonSt) : DaemonSt :=
  match e with
  | NewCtl => match st.(dm_main) with Booting => dm_goto Unregistered st | _ => st end
  | Listen ok =>
    match st.(dm_main) with
    | Booting | Exited | Died => st
    | _ => if st.(dm_listening) then st else if ok then mkDaemonSt st.(dm_main) true st.(dm_handlers) else dm_fatal
    end
  | AddCtl => match st.(dm_main) with Unregistered => dm_goto AwaitInit st | _ => st end
  | CallInit rs sn => dispatch_ctl (Init (init_persister rs sn)) st
  | CallInitWait => dispatch_ctl InitWait st
  | Register => match st.(dm_main) with Starting p => dm_goto (Signalling p) st | _ => st end
  | Communicate s r =>
    match sends st s with
    | Some v => if receives st r then after_receive r v (after_send s st) else st
    | None => st
    end
  end.
Definition dm_run (evs : list DaemonEvent) (st : DaemonSt) : DaemonSt :=
  foldl (λ st e, dm_step e st) st evs.

(** [StartServer]: one [init], and [waitInit] once it has returned. The socket
    with the server's random name is free. *)
Definition tester_may (e : DaemonEvent) (st : DaemonSt) : Prop :=
  match e with
  | CallInit _ _ => st.(dm_handlers) = []
  | CallInitWait => st.(dm_handlers) = [Returned]
  | Listen ok => ok = true
  | _ => True
  end.
Fixpoint tester_run (evs : list DaemonEvent) (st : DaemonSt) : Prop :=
  match evs with
  | [] => True
  | e :: evs => tester_may e st ∧ tester_run evs (dm_step e st)
  end.

(** The request [e] is dispatched in the window in which the control server
    listens but has no service. *)
Definition too_soon (st : DaemonSt) (e : DaemonEvent) : bool :=
  match st.(dm_main), e with
  | Unregistered, (CallInit _ _ | CallInitWait) => st.(dm_listening)
  | _, _ => false
  end.

(** The states before the call of [init], and those of a start with persister
    [p]. *)
Inductive boot_state : DaemonSt → Prop :=
  | bs_booting : boot_state (mkDaemonSt Booting false [])
  | bs_unregistered l : boot_state (mkDaemonSt Unregistered l [])
  | bs_await l : boot_state (mkDaemonSt AwaitInit l []).
Inductive start_state (p : Persister) : DaemonSt → Prop :=
  | ss_sending : start_state p (mkDaemonSt AwaitInit true [Init p])
  | ss_starting w : w = [] ∨ w = [InitWait] → start_state p (mkDaemonSt (Starting (Some p)) true (Returned :: w))
  | ss_signalling w : w = [] ∨ w = [InitWait] → start_state p (mkDaemonSt (Signalling (Some p)) true (Returned :: w))
  | ss_serving : start_state p (mkDaemonSt (Serving (Some p)) true [Returned; Returned]).

(** How many steps of the process are left. *)
Definition remaining (st : DaemonSt) : nat :=
  (if st.(dm_listening) then 0 else 1) +
  match st.(dm_main) with
  | Booting => 5 | Unregistered => 4 | AwaitInit => 3 | Starting _ => 2 | Signalling _ => 1 | _ => 0
  end.
Definition internal (e : DaemonEvent) : bool :=
  match e with CallInit _ _ | CallInitWait => false | _ => true end.

Lemma start_step p e st :
  start_state p st → tester_may e st →
  start_state p (dm_step e st) ∧
  (internal e = true → dm_step e st = st ∨ (remaining (dm_step e st) < remaining st)%nat).
Proof.
  intros Hst. destruct e as [|ok| |rs sn| | |s r]; cbn [tester_may internal].
  - intros _. destruct Hst as [|w Hw|w Hw|]; cbn; (split; [by constructor|by left]).
  - intros _. destruct Hst as [|w Hw|w Hw|]; cbn; (split; [by constructor|by left]).
  - intros _. destruct Hst as [|w Hw|w Hw|]; cbn; (split; [by constructor|by left]).
  - intros He. by destruct Hst.
  - intros He. split; [|done]. destruct Hst as [|w Hw|w Hw|]; try done; cbn in He; injection He as ->.
    + apply (ss_starting p [InitWait]). by right.
    + apply (ss_signalling p [InitWait]). by right.
  - intros _. destruct Hst as [|w Hw|w Hw|]; cbn; (split; [by constructor|]); intros _; (by left) || (right; cbn; lia).
  - intros _. destruct Hst as [|w [->| ->]|w [->| ->]|];
      destruct s as [[|[|s]]|], r as [[|[|r]]|]; cbn;
      (split; [|intros _; (by left) || (right; cbn; lia)]);
      constructor; (left; reflexivity) || (right; reflexivity).
Qed.

Lemma start_run p evs : ∀ st, start_state p st → tester_run evs st → start_state p (dm_run evs st).
Proof.
  induction evs as [|e evs IH]; intros st Hst; [done|]. intros [He Hr]. cbn [dm_run foldl].
  apply IH; [by apply start_step|done].
Qed.

(** Unless the tester has got everything it waits for, the process can go on. *)
Lemma start_progress p st :
  start_state p st → Init p ∈ st.(dm_handlers) ∨ InitWait ∈ st.(dm_handlers) →
  ∃ e, internal e = true ∧ (remaining (dm_step e st) < remaining st)%nat.
Proof.
  intros Hst Hw. destruct Hst as [|w _|w [->| ->]|].
  - exists (Communicate (Some 0%nat) None). split; [done|]. cbn. lia.
  - exists Register. split; [done|]. cbn. lia.
  - cbn in Hw. rewrite !list_elem_of_singleton in Hw. by destruct Hw.
  - exists (Communicate None (Some 1%nat)). split; [done|]. cbn. lia.
  - cbn in Hw. rewrite !elem_of_cons, !elem_of_nil in Hw. naive_solver.
Qed.

(** Before [init]: a request either comes too soon or starts the exchange. *)
Lemma boot_step e st :
  boot_state st → tester_may e st →
  if too_soon st e then dm_step e st = dm_fatal
  else boot_state (dm_step e st) ∨ ∃ rs sn, e = CallInit rs sn ∧ start_state (init_persister rs sn) (dm_step e st).
Proof.
  intros Hst He. destruct Hst as [|[]|[]]; destruct e as [|[]| |rs sn| | |s r]; try done; cbn; try (left; constructor);
    try (destruct s as [[|s]|]; left; constructor).
  right. exists rs, sn. split; [done|constructor].
Qed.

Lemma fatal_run evs : dm_run evs dm_fatal = dm_fatal.
Proof.
  induction evs as [|e evs IH]; [done|]. cbn [dm_run foldl].
  assert (dm_step e dm_fatal = dm_fatal) as -> by (by destruct e as [|[]| | | | |[[|s]|] r]). exact IH.
Qed.

Lemma boot_run evs : ∀ st, boot_state st → tester_run evs st →
  (∃ evs1 e evs2, evs = evs1 ++ e :: evs2 ∧ too_soon (dm_run evs1 st) e = true ∧ dm_run evs st = dm_fatal) ∨
  (∀ evs1 e evs2, evs = evs1 ++ e :: evs2 → too_soon (dm_run evs1 st) e = false) ∧
  (boot_state (dm_run evs st) ∨
   ∃ rs sn, CallInit rs sn ∈ evs ∧ start_state (init_persister rs sn) (dm_run evs st)).
Proof.
  induction evs as [|e evs IH]; intros st Hst.
  { intros _. right. split; [|by left]. by intros [|] ? ?. }
  intros [He Hr]. pose proof (boot_step e st Hst He) as Hb. destruct (too_soon st e) eqn:Hts.
  { left. exists [], e, evs. split_and!; [done..|]. cbn [dm_run foldl]. rewrite Hb. apply fatal_run. }
  destruct Hb as [Hb|(rs & sn & -> & Hs)].
  - destruct (IH _ Hb Hr) as [(evs1 & e1 & evs2 & -> & H1 & H2)|[H1 H2]].
    + left. by exists (e :: evs1), e1, evs2.
    + right. split; [|destruct H2 as [H2|(rs & sn & Hin & H2)]; [by left|right; exists rs, sn; split; [by right|done]]].
      intros [|e0 evs1] e1 evs2 [= <- E]; [exact Hts|]. by eapply H1.
  - right. split; [|right; exists rs, sn; split; [left|by apply (start_run _ evs (dm_step (CallInit rs sn) st))]].
    intros [|e0 evs1] e1 evs2 [= <- E]; [exact Hts|]. subst evs. cbn [dm_run foldl].
    assert (start_state (init_persister rs sn) (dm_run evs1 (dm_step (CallInit rs sn) st))) as Hs1.
    { apply start_run; [done|]. clear -Hr. revert Hr. generalize (dm_step (CallInit rs sn) st).
      induction evs1 as [|e evs1 IH]; intros st'; [done|]. intros [? ?]. split; [done|by apply IH]. }
    unfold dm_run in Hs1. by destruct Hs1.
Qed.

(** [DaemonClnt.init] sends what makes the persister of [TesterGroup]'s model of
    the process. *)
Lemma init_persister_daemon saved_ :
  init_persister (ReadRaftState saved_) (ReadSnapshot saved_) = da_persister (daemon_init saved_).
Proof. done. Qed.

(** C19. The start of a process, for every interleaving of its goroutines with a
    tester that calls [init] and, when that has returned, [waitInit], if the
    socket of the process is free. The control server listens before it has the
    service that answers [init]: the process ends exactly if a request is
    dispatched in between. Otherwise it never exits, and either [init] has not
    been dispatched yet, or once [waitInit] has returned it serves requests with
    a persister that holds what [init] sent, and as long as the tester waits the
    process can take a step, of which there are finitely many. The order of the
    calls matters: a [waitInit] that overtakes [init] can receive the persister
    meant for the main goroutine, which then never starts, and a second [init]
    ends the process. *)
Theorem daemon_start evs :
  tester_run evs fresh_daemon →
  let st := dm_run evs fresh_daemon in
  (st.(dm_main) = Died ↔ ∃ evs1 e evs2, evs = evs1 ++ e :: evs2 ∧ too_soon (dm_run evs1 fresh_daemon) e = true) ∧
  st.(dm_main) ≠ Exited ∧
  (st.(dm_main) = Died ∨
   st.(dm_handlers) = [] ∧ (∃ e, tester_may e st ∧ dm_step e st ≠ st) ∧
     (∀ e, internal e = true → tester_may e st → dm_step e st = st ∨ (remaining (dm_step e st) < remaining st)%nat) ∨
   ∃ rs sn, CallInit rs sn ∈ evs ∧ start_state (init_persister rs sn) st ∧
     (st.(dm_handlers) = [Returned; Returned] → st.(dm_main) = Serving (Some (init_persister rs sn))) ∧
     (st.(dm_handlers) ≠ [Returned; Returned] → st.(dm_handlers) ≠ [Returned] →
        ∃ e, internal e = true ∧ (remaining (dm_step e st) < remaining st)%nat) ∧
     (∀ e, internal e = true → tester_may e st → dm_step e st = st ∨ (remaining (dm_step e st) < remaining st)%nat)) ∧
  (∀ rs sn, let st := dm_run [NewCtl; AddCtl; Listen true; CallInit rs sn; CallInitWait; Communicate (Some 0%nat) (Some 1%nat)] fresh_daemon in
     st.(dm_main) = AwaitInit ∧ ∀ e, internal e = true → dm_step e st = st) ∧
  (∀ p rs sn, dm_main (dm_run [CallInit rs sn; Communicate (Some 2%nat) None]
     (mkDaemonSt (Serving p) true [Returned; Returned])) = Exited).
Proof.
  intros Hr st. destruct (boot_run evs fresh_daemon bs_booting Hr) as [(evs1 & e & evs2 & -> & Hts & E)|[Hts Hst]].
  - unfold st. rewrite E. split_and!; [split; [intros _; by exists evs1, e, evs2|done]|done|by left| |done].
    intros rs sn. split; [done|]. intros e'. by destruct e' as [|[]| | | | |[[|[|s]]|] r].
  - assert (st.(dm_main) ≠ Died ∧ st.(dm_main) ≠ Exited) as [Hnd Hne]
      by (unfold st; destruct Hst as [[]|(? & ? & _ & [])]; done).
    split_and!; [|done| |intros rs sn; split; [done|intros e'; by destruct e' as [|[]| | | | |[[|[|s]]|] r]]|done].
    { split; [done|]. intros (evs1 & e & evs2 & E & H1). by rewrite (Hts _ _ _ E) in H1. }
    right. destruct Hst as [Hst|(rs & sn & Hin & Hs)]; [left|right].
    + fold st in Hst. clearbody st. clear -Hst. destruct Hst as [|l|l]; (split; [done|]); split.
      * by exists NewCtl.
      * intros [|[]| | | | |[[|s]|] r] ??; try done; try (by left); right; cbn; lia.
      * by exists AddCtl.
      * intros [|[]| | | | |[[|s]|] r] ??; try done; try (by left); try (destruct l; cbn; (by left) || (right; cbn; lia)).
      * destruct l; [by exists (CallInit [] [])|by exists (Listen true)].
      * intros [|[]| | | | |[[|s]|] r] ??; try done; try (by left); try (destruct l; cbn; (by left) || (right; cbn; lia)).
    + exists rs, sn. fold st in Hs. split; [done|]. split; [done|]. split; [|split].
      * destruct Hs as [|w Hw|w Hw|]; [done| | |done]; cbn; intros [= ->]; by destruct Hw.
      * intros H1 H2. apply (start_progress _ _ Hs).
        destruct Hs as [|w [->| ->]|w [->| ->]|]; try done; cbn; [left; left|right; right; left..].
      * intros e He Ht. by apply (start_step _ _ _ Hs).
Qed.

(** ** The way into the process *)

Lemma dispatch_endname {W} (rs : Server W) e e' svcMeth args w :
  dispatch rs (mkReq e svcMeth args) w = dispatch rs (mkReq e' svcMeth args) w.
Proof. done. Qed.

Section transparent.
Context `{GobLaws RPCArgs} {W : Type}.
Implicit Types (rs : Server W) (w : W).

Lemma RPC_connection clnt method args rs w :
  RPC (connection clnt) method args (Some (rs, w)) =
  match dispatch rs (mkReq clnt method args) w with
  | Ret (rs', w', rep) => (Some (rs', w'), (rep.(rp_reply), rep.(rp_ok)))
  | _ => (None, ([], false))
  end.
Proof.
  unfold RPC, connection, ServeRequest, Marshall, Unmarshall. cbn [fst snd]. rewrite Decode_Encode_nil.
  cbn [fst mbind go_bind ra_Method ra_Args]. unfold Dispatch.
  by destruct (dispatch rs _ w) as [[[rs' w'] rep]| |].
Qed.

(** C18. A server in a process behaves in the network as the server itself: for
    every request, the network's server that forwards to the process answers
    what the process's server answers when it dispatches the request, and the
    process changes in the same way; only where the server would end the
    process (an unknown method, arguments that do not decode), the caller sees
    a failed call instead, the process is gone, and every later request fails
    as well. *)
Theorem daemon_transparent clnt req rs w names :
  split_method req.(rq_svcMeth) = Ret names →
  let netrs := SetDispatch (forward (connection clnt)) MakeServer in
  dispatch netrs req (Some (rs, w)) =
  Ret (match dispatch rs req w with
       | Ret (rs', w', rep) => (netrs <| srv_count := 1 |>, Some (rs', w'), rep)
       | _ => (netrs <| srv_count := 1 |>, None, no_reply)
       end) ∧
  dispatch netrs req None = Ret (netrs <| srv_count := 1 |>, None, no_reply).
Proof.
  intros Hs netrs. destruct names as [svc meth]. split; [|unfold dispatch; by rewrite Hs].
  unfold dispatch at 1. rewrite Hs. cbn [mbind go_bind].
  destruct req as [e svcMeth args]. cbn [rq_svcMeth rq_args] in *.
  rewrite (dispatch_endname rs e clnt).
  change (dispatchf _) with (Some (λ v m a, RPC (V:=option (Server W * W)) (connection clnt) m a v)).
  cbn [rq_svcMeth rq_args]. rewrite RPC_connection. by destruct (dispatch rs _ w) as [[[rs' w'] []]| |].
Qed.

(** The tester's own calls. *)
Lemma RPCMarshall_connection `{GobLaws A, GobLaws B} clnt method (a : A) (b : B) rs w rs' w' :
  dispatch rs (mkReq clnt method (Encode a)) w = Ret (rs', w', mkReply true (Encode b)) →
  RPCMarshall (connection clnt) method a (Some (rs, w)) = Ret (Some (rs', w'), Some b).
Proof.
  intros Hd. unfold RPCMarshall, Marshall. rewrite RPC_connection, Hd. cbn.
  unfold Unmarshall. by rewrite Decode_Encode_nil.
Qed.
End transparent.

(** ** The way back into the network *)

Section outgoing.
Context `{GobCodec RPCArgs} `{GobLaws ForwardArgs} `{GobLaws ForwardReply} {V : Type}.
Context (net : Network) (net_forward : ClientEnd → string → bytes → V → V * (bytes * bool)).
Context (SendReceive : bytes → V → V * (bytes * bool * bool)).

(** A connection on which the tester serves [Forward]. *)
Definition serves_forward : Prop := ∀ args v,
  SendReceive (Marshall (mkRPCArgs "TesterRPC.Forward" (Marshall args))) v =
  match TesterRPC_Forward net net_forward args v with
  | Ret (v, reply) => (v, (Marshall (reply : ForwardReply), true, false))
  | _ => (v, ([], false, true))
  end.

(** A request of the process gets what the tester's end for it gets. *)
Theorem ds_forward_spec id e method b v :
  serves_forward →
  ds_forward SendReceive id e method b v =
  let id := wrap_int 64 (id + 1) in
  Ret match net.(ends) !! e with
      | Some ce => let '(v, (rep, ok)) := net_forward ce method b v in (id, v, (rep, ok))
      | None => (id, v, ([], false))
      end.
Proof.
  intros Hs. unfold ds_forward, RPCMarshall, RPC. rewrite Hs. unfold TesterRPC_Forward, LookupEnd. cbn [f_End f_Method f_Args].
  destruct (net.(ends) !! e) as [ce|]; [|done]. cbn [mbind go_bind].
  destruct (net_forward ce method b v) as [v' [rep ok]]. cbn. unfold Unmarshall, Marshall.
  by rewrite Decode_Encode_nil.
Qed.
End outgoing.

(** ** The command line, written and parsed *)

Definition is_option (a : string) : Prop := ∃ s, a = String "-" s.

Lemma skip_options_app opts args : ∀ i, Forall is_option opts → skip_options i i (opts ++ args) = skip_options (i + glen opts) (i + glen opts) args.
Proof.
  induction opts as [|a opts IH]; intros i Ho; [by rewrite glen_nil, Z.add_0_r|].
  apply Forall_cons in Ho as [[s ->] Ho]. cbn [app skip_options]. rewrite bool_decide_true by done.
  rewrite IH, glen_cons by done. f_equal; lia.
Qed.

Lemma skip_options_stop i n args : 0 ≤ n → skip_options i i (pretty n :: args) = Ret i.
Proof.
  intros Hn. cbn [skip_options]. destruct (pretty n) as [|c s] eqn:E.
  - destruct n as [|p|p]; [done| |lia]. pose proof (unsigned_pretty (N.pos p)) as Hu.
    change (pretty (N.pos p)) with (pretty (Z.pos p)) in Hu. by rewrite E in Hu.
  - pose proof (pretty_nonneg_head n c s Hn E) as Hd. rewrite bool_decide_false; [done|]. by intros ->.
Qed.

Lemma gidx_app_r {A} (l1 l2 : list A) j : 0 ≤ j → gidx (l1 ++ l2) (glen l1 + j) = gidx l2 j.
Proof.
  intros Hj. pose proof (glen_nonneg l1). rewrite !gidx_zlookup, zlookup_app_r by lia.
  by replace (glen l1 + j - glen l1) with j by lia.
Qed.

Lemma daemon_ends_spec fwd names : ∀ ces net,
  NoDup names → (∀ e, e ∈ names → net.(ends) !! e = None) →
  ∃ net', foldM (make_end fwd) (ces, net) names = Ret (ces ++ ((λ e, mkClientEnd e (Some fwd)) <$> names), net').
Proof.
  induction names as [|e names IH]; intros ces net Hnd Hnew; cbn [foldM].
  { exists net. by rewrite app_nil_r. }
  apply NoDup_cons in Hnd as [Hni Hnd]. unfold make_end, MakeEnd. cbn [snd].
  rewrite (Hnew e) by left. cbn [mbind go_bind fst snd]. fold (make_end fwd).
  match goal with |- context [foldM _ (?c, ?n) names] => destruct (IH c n) as (net' & Hn) end; [done| |].
  - intros e' He'. cbn. rewrite lookup_insert_ne by by intros ->. apply Hnew. by right.
  - exists net'. etransitivity; [exact Hn|]. by rewrite <-app_assoc.
Qed.

Lemma atoi_at_app opts args j z : 0 ≤ j → - 2 ^ 63 ≤ z < 2 ^ 63 → args.[j] = Some (pretty z) →
  atoi_at (opts ++ args) (glen opts + j) = Ret (Some z).
Proof.
  intros Hj Hz Ha. unfold atoi_at. rewrite gidx_app_r by done. rewrite (proj2 (gidx_Ret _ _ _) Ha).
  cbn [mbind go_bind]. by rewrite Atoi_pretty.
Qed.

(** [args[len(pre) : len(pre)+len(l)]]. *)
Lemma slice_app {A} (pre l : list A) n :
  n = glen pre + glen l → gslice_to (pre ++ l) n = Ret (pre ++ l) ∧ gslice_from (pre ++ l) (glen pre) = Ret l.
Proof.
  intros ->. pose proof (glen_nonneg pre). pose proof (glen_nonneg l).
  rewrite gslice_to_Ret, gslice_from_Ret by (rewrite glen_app; lia). split; f_equal.
  - apply take_ge. rewrite length_app. unfold glen. lia.
  - apply drop_app_length'. unfold glen. lia.
Qed.

(** What [runDaemon] writes on the command line, [InitDaemon] reads back,
    whatever options come first: the numbers of the group and of the server,
    the tester's name, the names of all ends and the server's own; and the
    process makes one end for each of the names, each forwarding its calls to
    the tester. A negative group number would be taken for an option. *)
Theorem daemon_args_roundtrip pargs use gid srv endName endNames :
  Forall is_option pargs → 0 ≤ gid < 2 ^ 63 → 0 ≤ srv < glen endNames → glen endNames < 2 ^ 63 →
  NoDup endNames →
  ∃ a e, InitDaemon_args (runDaemon_args pargs use gid srv endName endNames) = Ret (Some a) ∧
    a = mkDaemonArgs gid srv endName endNames e ∧ endNames.[srv] = Some e ∧
    ∀ fwd, daemon_ends fwd a = Ret ((λ e, mkClientEnd e (Some fwd)) <$> endNames).
Proof.
  intros Hp Hgid Hsrv Hlen Hnd. destruct (zlookup_is_Some endNames srv Hsrv) as [e He].
  exists (mkDaemonArgs gid srv endName endNames e), e.
  split; [|split; [done|split; [done|]]].
  - unfold InitDaemon_args, runDaemon_args. rewrite app_assoc. set (opts := pargs ++ options use).
    assert (Forall is_option opts) as Ho.
    { apply Forall_app. split; [done|]. destruct use; repeat constructor. by eexists. }
    pose proof (glen_nonneg opts) as Hk. set (k := glen opts) in *.
    rewrite (skip_options_app opts _ 0) by done. fold k. rewrite Z.add_0_l.
    cbn [app]. rewrite skip_options_stop by lia. cbn [mbind go_bind]. rewrite <-(Z.add_0_r k) at 1. unfold k.
    rewrite (atoi_at_app _ _ 0 gid) by (done || lia). cbn [mbind go_bind].
    rewrite (atoi_at_app _ _ 1 srv) by (done || lia). cbn [mbind go_bind].
    rewrite (atoi_at_app _ _ 2 (glen endNames)) by (done || lia). cbn [mbind go_bind].
    rewrite gidx_app_r by lia. change (gidx _ 3) with (Ret endName). cbn [mbind go_bind].
    set (pre := opts ++ [pretty gid; pretty srv; pretty (glen endNames); endName]).
    destruct (slice_app pre endNames (glen opts + 4 + glen endNames)) as [Hto Hfrom].
    { unfold pre. rewrite glen_app. change (glen [_; _; _; _]) with 4. lia. }
    assert (opts ++ pretty gid :: pretty srv :: pretty (glen endNames) :: endName :: endNames = pre ++ endNames) as ->
      by (unfold pre; by rewrite <-app_assoc).
    assert (glen opts + 4 = glen pre) as Hpre by (unfold pre; rewrite glen_app; done).
    rewrite Hto. cbn [mbind go_bind]. rewrite Hpre, Hfrom. cbn [mbind go_bind].
    by rewrite (proj2 (gidx_Ret _ _ _) He).
  - intros fwd. destruct (daemon_ends_spec fwd endNames [] MakeNetwork Hnd) as (net' & E); [done|].
    unfold daemon_ends. cbn [a_endNames]. by rewrite E.
Qed.
