(* ===== verification/DaemonWitness.v ===== *)
(** * The theorems on server processes at a concrete server

    A service with one method that adds its argument to a counter, in a
    process of its own. *)

From S2P Require Import Prelude Names GoStrings Gob Persister LabRpc TesterGroup Daemon.
From Stdlib Require Import Strings.Byte.

(** A start in which [waitInit] arrives while the services are being made; and
    one in which [init] is dispatched before its service is there. *)
Definition start_events (rs sn : bytes) : list DaemonEvent :=
  [NewCtl; AddCtl; Listen true; CallInit rs sn; Communicate (Some 0%nat) None; CallInitWait; Communicate None (Some 1%nat);
   Register; Communicate None (Some 1%nat)].
Definition early_init (rs sn : bytes) : list DaemonEvent := [NewCtl; Listen true; CallInit rs sn; AddCtl].

Lemma daemon_start_witness :
  dm_main (dm_run (start_events [Byte.x01] []) fresh_daemon) = Serving (Some (init_persister [Byte.x01] [])) ∧
  dm_main (dm_run (early_init [Byte.x01] []) fresh_daemon) = Died.
Proof.
  split.
  - destruct (daemon_start (start_events [Byte.x01] [])) as (_ & _ & [Hd|[[Hf _]|(rs & sn & Hin & _ & Hs & _)]] & _).
    + repeat split.
    + discriminate Hd.
    + discriminate Hf.
    + unfold start_events in Hin. repeat (apply elem_of_cons in Hin as [Hin|Hin]; [try discriminate Hin|]).
      * injection Hin as -> ->. apply Hs. reflexivity.
      * by apply elem_of_nil in Hin.
  - apply (daemon_start (early_init [Byte.x01] [])); [repeat split|].
    exists [NewCtl; Listen true], (CallInit [Byte.x01] []), [AddCtl]. split; reflexivity.
Defined.

#[local] Instance byte_countable : Countable Byte.byte.
Proof. refine (inj_countable Byte.to_N Byte.of_N _). intros b. apply Byte.of_to_N. Defined.
#[local] Instance RPCArgs_eq_dec : EqDecision RPCArgs.
Proof. solve_decision. Defined.
#[local] Instance RPCArgs_countable : Countable RPCArgs.
Proof.
  refine (inj_countable' (λ a, (a.(ra_Method), a.(ra_Args))) (λ p, mkRPCArgs p.1 p.2) _). by intros [].
Defined.
#[local] Instance RPCArgs_codec : GobCodec RPCArgs := countable_codec RPCArgs.
#[local] Instance RPCArgs_laws : GobLaws RPCArgs := countable_codec_laws RPCArgs.
#[local] Instance Z_codec : GobCodec Z := countable_codec Z.

Definition add_method : Method Z := mkMethod Z Z Z_codec Z_codec 0 (λ w x _, (w + x, w + x)).
Definition add_server : Server Z :=
  AddService (MakeService "Svc" [mkMethodInfo "Add" true 3 true 0 add_method]) MakeServer.

(** A method that is there, and one that is not; then the process is gone. *)
Lemma daemon_transparent_witness :
  let netrs := SetDispatch (forward (connection "tester")) MakeServer in
  (∃ srv', dispatch netrs (mkReq "e" "Svc.Add" (Encode 2)) (Some (add_server, 40)) =
    Ret (netrs <| srv_count := 1 |>, Some (srv', 42), mkReply true (Encode 42))) ∧
  dispatch netrs (mkReq "e" "Svc.Sub" (Encode 2)) (Some (add_server, 40)) =
    Ret (netrs <| srv_count := 1 |>, None, no_reply) ∧
  dispatch netrs (mkReq "e" "Svc.Add" (Encode 2)) (None : option (Server Z * Z)) =
    Ret (netrs <| srv_count := 1 |>, None, no_reply).
Proof.
  split; [|split].
  - rewrite (proj1 (daemon_transparent "tester" (mkReq "e" "Svc.Add" (Encode 2)) add_server 40 ("Svc", "Add") eq_refl)).
    eexists. vm_compute. reflexivity.
  - rewrite (proj1 (daemon_transparent "tester" (mkReq "e" "Svc.Sub" (Encode 2)) add_server 40 ("Svc", "Sub") eq_refl)).
    reflexivity.
  - exact (proj2 (daemon_transparent "tester" (mkReq "e" "Svc.Add" (Encode 2)) add_server 40 ("Svc", "Add") eq_refl)).
Defined.
