(* ===== verification/TesterClnts.v ===== *)
(** * Clients of the tester: [tester1/clnts.go]

    A clerk reaches servers through ends it makes on first use; the tester
    limits which servers a clerk may reach by enabling and disabling these
    ends. The names of ends are arguments, as the code draws them at random;
    [range] over a map visits it in an arbitrary order, which [map_to_list]
    stands for: no result depends on it. *)

From S2P Require Import Prelude LabRpc.

(** [end]: its name and the client end. *)
Record TEnd := mkTEnd { e_name : string; e_end : ClientEnd }.

(** [c_srvs]: [None] (nil) allows every server. *)
Record Clnt := mkClnt { c_ends : gmap string TEnd; c_srvs : option (list string) }.

Definition makeClntTo (srvs : option (list string)) : Clnt := mkClnt ∅ srvs.

Definition allowedL (server : string) (clnt : Clnt) : bool :=
  match clnt.(c_srvs) with
  | None => true
  | Some srvs => existsb (λ n, String.eqb n server) srvs
  end.

Definition makeEnd (server name : string) (clnt : Clnt) (net : Network) : go (TEnd * Clnt * Network) :=
  match clnt.(c_ends) !! server with
  | Some e => Ret (e, clnt, net)
  | None =>
    r ← MakeEnd name net;
    let e := mkTEnd name r.1 in
    let net := Connect name server r.2 in
    let net := if allowedL server clnt then Enable name true net else Enable name false net in
    Ret (e, mkClnt (<[server := e]> clnt.(c_ends)) clnt.(c_srvs), net)
  end.

Definition enable_ends (v : bool) (clnt : Clnt) (net : Network) : Network :=
  foldl (λ net se, Enable se.2.(e_name) v net) net (map_to_list clnt.(c_ends)).

Definition ConnectAll (clnt : Clnt) (net : Network) : Clnt * Network :=
  (mkClnt clnt.(c_ends) None, enable_ends true clnt net).

Definition ConnectTo (srvs : option (list string)) (clnt : Clnt) (net : Network) : Clnt * Network :=
  let clnt := mkClnt clnt.(c_ends) srvs in
  (clnt, foldl (λ net se, if allowedL se.1 clnt then Enable se.2.(e_name) true net else net)
           net (map_to_list clnt.(c_ends))).

Definition Disconnect (srv : string) (clnt : Clnt) (net : Network) : Network :=
  foldl (λ net se, if String.eqb se.1 srv then Enable se.2.(e_name) false net else net)
    net (map_to_list clnt.(c_ends)).

Definition DisconnectAll (clnt : Clnt) (net : Network) : Clnt * Network :=
  (mkClnt clnt.(c_ends) (Some []), enable_ends false clnt net).

Definition remove (clnt : Clnt) (net : Network) : go Network :=
  foldM (λ net e, DeleteEnd e.(e_name) net) net (map_to_list clnt.(c_ends)).*2.

(** ** The clients of a test

    [clerks] is a set of pointers: here a map from pointers to clients. *)

Record Clnts := mkClnts { clerks : gmap Z Clnt }.

Definition makeClnts : Clnts := mkClnts ∅.

Definition clnts_makeEnd (servername name : string) (net : Network) : go (ClientEnd * Network) :=
  r ← MakeEnd name net;
  Ret (r.1, Enable name true (Connect name servername r.2)).

(** [p] is the address of the new client. *)
Definition MakeClientTo (p : Z) (srvs : option (list string)) (clnts : Clnts) : Clnts :=
  mkClnts (<[p := makeClntTo srvs]> clnts.(clerks)).
Definition MakeClient (p : Z) (clnts : Clnts) : Clnts := MakeClientTo p None clnts.

Definition clnts_cleanup (clnts : Clnts) (net : Network) : go (Clnts * Network) :=
  net ← foldM (λ net clnt, remove clnt net) net (map_to_list clnts.(clerks)).*2;
  Ret (mkClnts ∅, net).

Definition DeleteClient (p : Z) (clnts : Clnts) (net : Network) : go (Clnts * Network) :=
  match clnts.(clerks) !! p with
  | Some clnt => net ← remove clnt net; Ret (mkClnts (delete p clnts.(clerks)), net)
  | None => Ret (clnts, net)
  end.

(** ** Which servers a clerk reaches *)

Record clnt_ok (clnt : Clnt) (net : Network) : Prop := {
  co_end : ∀ s e, clnt.(c_ends) !! s = Some e →
    is_Some (net.(ends) !! e.(e_name)) ∧ net.(connections) !! e.(e_name) = Some (Some s);
}.

(** The clerk's next call to [s] is sent through an enabled end: the end it
    has, or the one it would make. *)
Definition reach (clnt : Clnt) (net : Network) (s : string) : bool :=
  match clnt.(c_ends) !! s with
  | Some e => is_enabled net e.(e_name)
  | None => allowedL s clnt
  end.

(** The ends of different servers have different names: they are connected to
    different servers. *)
Lemma clnt_names clnt net s s' e e' :
  clnt_ok clnt net → clnt.(c_ends) !! s = Some e → clnt.(c_ends) !! s' = Some e' →
  e.(e_name) = e'.(e_name) → s = s'.
Proof.
  intros [Hok] He He' Hn. destruct (Hok s e He) as [_ H1], (Hok s' e' He') as [_ H2].
  rewrite Hn, H2 in H1. by injection H1.
Qed.

Lemma is_enabled_Enable e e' v net :
  is_enabled (Enable e v net) e' = if decide (e = e') then v else is_enabled net e'.
Proof.
  unfold is_enabled, Enable. cbn. case_decide; [subst; by rewrite lookup_insert_eq|].
  by rewrite lookup_insert_ne.
Qed.

(** A loop over the ends that enables or disables those [sel] selects. *)
Definition enable_sel (sel : string → bool) (v : bool) (net : Network) (ses : list (string * TEnd)) : Network :=
  foldl (λ net se, if sel se.1 then Enable se.2.(e_name) v net else net) net ses.

Lemma enable_sel_frame sel v ses : ∀ net,
  (enable_sel sel v net ses).(ends) = net.(ends) ∧
  (enable_sel sel v net ses).(connections) = net.(connections).
Proof.
  unfold enable_sel. induction ses as [|se ses IH]; intros net; cbn [foldl]; [done|].
  destruct (IH (if sel se.1 then Enable se.2.(e_name) v net else net)) as [-> ->].
  by destruct (sel se.1).
Qed.

Lemma enable_sel_enabled sel v ses : ∀ net name,
  is_enabled (enable_sel sel v net ses) name =
    if existsb (λ se, sel se.1 && String.eqb se.2.(e_name) name) ses then v else is_enabled net name.
Proof.
  unfold enable_sel. induction ses as [|se ses IH]; intros net name; cbn [foldl existsb]; [done|].
  rewrite IH. destruct (existsb _ ses) eqn:Hx; [by rewrite orb_true_r|]. rewrite orb_false_r.
  destruct (sel se.1); cbn [andb]; [|done]. rewrite is_enabled_Enable.
  destruct (String.eqb_spec se.2.(e_name) name), (decide (se.2.(e_name) = name)); done.
Qed.

Lemma enable_sel_ok sel v clnt net l :
  clnt_ok clnt net →
  let net' := enable_sel sel v net (map_to_list clnt.(c_ends)) in
  clnt_ok (mkClnt clnt.(c_ends) l) net' ∧
  ∀ s, reach (mkClnt clnt.(c_ends) l) net' s =
    match clnt.(c_ends) !! s with
    | Some e => if sel s then v else is_enabled net e.(e_name)
    | None => allowedL s (mkClnt clnt.(c_ends) l)
    end.
Proof.
  intros Hok net'. destruct (enable_sel_frame sel v (map_to_list clnt.(c_ends)) net) as [He Hc].
  split; [constructor; intros s e; cbn; unfold net'; rewrite He, Hc; apply Hok|].
  intros s. unfold reach. cbn. destruct (clnt.(c_ends) !! s) as [e|] eqn:Hs; [|done].
  unfold net'. rewrite enable_sel_enabled.
  assert (existsb (λ se, sel se.1 && String.eqb se.2.(e_name) e.(e_name)) (map_to_list clnt.(c_ends)) = sel s) as ->; [|done].
  apply eq_true_iff_eq. rewrite existsb_exists. split.
  - intros ([s' e'] & Hin & [Hsel Hn]%andb_true_iff). apply list_elem_of_In, elem_of_map_to_list in Hin.
    apply String.eqb_eq in Hn. cbn in *. by rewrite (clnt_names clnt net s s' e e').
  - intros Hsel. exists (s, e). split; [by apply list_elem_of_In, elem_of_map_to_list|].
    cbn. by rewrite Hsel, String.eqb_refl.
Qed.

Lemma enable_ends_sel v clnt net :
  enable_ends v clnt net = enable_sel (λ _, true) v net (map_to_list clnt.(c_ends)).
Proof. done. Qed.

(** What a clerk reaches. [ConnectAll] and [DisconnectAll] allow every
    server and no server, also those the clerk has no end for yet;
    [ConnectTo] allows the servers of the list, but an end that was enabled
    stays enabled when its server is not in the list (finding), so a
    restriction takes effect only after [DisconnectAll]; [Disconnect] of a
    server the clerk has not called yet has no effect. *)
Theorem clnt_reach clnt net l srv :
  clnt_ok clnt net →
  let has s := bool_decide (is_Some (clnt.(c_ends) !! s)) in
  let listed s := allowedL s (mkClnt ∅ l) in
  let '(ca, net_a) := ConnectAll clnt net in
  let '(cd, net_d) := DisconnectAll clnt net in
  let '(ct, net_t) := ConnectTo l clnt net in
  let '(cdt, net_dt) := ConnectTo l cd net_d in
  let net_s := Disconnect srv clnt net in
  (clnt_ok ca net_a ∧ clnt_ok cd net_d ∧ clnt_ok ct net_t ∧ clnt_ok cdt net_dt ∧ clnt_ok clnt net_s) ∧
  ∀ s, reach ca net_a s = true ∧ reach cd net_d s = false ∧
    reach ct net_t s = listed s || (has s && reach clnt net s) ∧
    reach cdt net_dt s = listed s ∧
    reach clnt net_s s = reach clnt net s && negb (String.eqb s srv && has s).
Proof.
  intros Hok. cbn [ConnectAll DisconnectAll ConnectTo]. rewrite !enable_ends_sel.
  destruct (enable_sel_ok (λ _, true) true clnt net None Hok) as [Ha Ra].
  destruct (enable_sel_ok (λ _, true) false clnt net (Some []) Hok) as [Hd Rd].
  destruct (enable_sel_ok (λ s, allowedL s (mkClnt clnt.(c_ends) l)) true clnt net l Hok) as [Ht Rt].
  destruct (enable_sel_ok (λ s, allowedL s (mkClnt clnt.(c_ends) l)) true (mkClnt clnt.(c_ends) (Some []))
    _ l Hd) as [Hdt Rdt].
  destruct (enable_sel_ok (λ s, String.eqb s srv) false clnt net clnt.(c_srvs) Hok) as [Hs Rs].
  assert (mkClnt clnt.(c_ends) clnt.(c_srvs) = clnt) as Heta by by destruct clnt.
  rewrite Heta in Hs, Rs. split; [by split_and!|].
  intros s. specialize (Ra s). specialize (Rd s). specialize (Rt s). specialize (Rdt s). specialize (Rs s).
  split; [rewrite Ra; by destruct (_ !! s)|]. split; [rewrite Rd; by destruct (_ !! s)|].
  split; [|split].
  - etransitivity; [exact Rt|]. unfold reach, allowedL. cbn.
    destruct (clnt.(c_ends) !! s) eqn:Es; cbn; [by destruct l as [l|]; [destruct (existsb _ l)|]|].
    by rewrite orb_false_r.
  - etransitivity; [exact Rdt|]. unfold allowedL. cbn.
    destruct (clnt.(c_ends) !! s) as [e|] eqn:Es; [|done].
    unfold reach in Rd. cbn in Rd. rewrite Es in Rd. rewrite Rd.
    by destruct l as [l|]; [destruct (existsb _ l)|].
  - etransitivity; [exact Rs|]. unfold reach.
    destruct (clnt.(c_ends) !! s) eqn:Es; cbn.
    + destruct (String.eqb s srv); cbn; [by rewrite andb_false_r|by rewrite andb_true_r].
    + by rewrite andb_false_r, andb_true_r.
Qed.

(** A clerk makes one end per server, on first use: the end is new to the
    network, connected to that server and enabled exactly if the clerk is
    allowed to reach it; a second call returns the same end and changes
    nothing. *)
Theorem clnt_makeEnd server name clnt net :
  clnt_ok clnt net → net.(ends) !! name = None →
  ∃ e clnt' net', makeEnd server name clnt net = Ret (e, clnt', net') ∧ clnt_ok clnt' net' ∧
    net'.(connections) !! e.(e_name) = Some (Some server) ∧
    is_enabled net' e.(e_name) = reach clnt net server ∧
    (∀ s, reach clnt' net' s = reach clnt net s) ∧
    (∀ name', makeEnd server name' clnt' net' = Ret (e, clnt', net')).
Proof.
  intros Hok Hnew. unfold makeEnd, reach at 1. destruct (clnt.(c_ends) !! server) as [e|] eqn:Hs.
  { exists e, clnt, net. destruct (co_end _ _ Hok _ _ Hs). split_and!; try done. intros. by rewrite Hs. }
  unfold MakeEnd. rewrite Hnew. cbn [mbind go_bind fst snd].
  set (net1 := Connect name server _). set (e := mkTEnd name _).
  assert ((if allowedL server clnt then Enable name true net1 else Enable name false net1) =
          Enable name (allowedL server clnt) net1) as -> by by destruct (allowedL server clnt).
  assert (∀ s e', clnt.(c_ends) !! s = Some e' → e'.(e_name) ≠ name) as Hne.
  { intros s e' He' E. destruct (co_end _ _ Hok _ _ He') as [[x Hx] _]. congruence. }
  eexists e, _, _. split; [done|]. split; [|split; [|split; [|split]]].
  - constructor. intros s e'. cbn. rewrite lookup_insert. case_decide as Hss.
    + intros [= <-]. cbn. rewrite !lookup_insert_eq. subst. split; [by eexists|done].
    + intros He'. specialize (Hne _ _ He'). rewrite !lookup_insert_ne by done. by apply Hok.
  - cbn. by rewrite lookup_insert_eq.
  - rewrite is_enabled_Enable. by rewrite decide_True.
  - intros s. unfold reach. cbn. rewrite lookup_insert. case_decide as Hss.
    + subst. rewrite Hs. rewrite is_enabled_Enable. by rewrite decide_True.
    + destruct (clnt.(c_ends) !! s) as [e'|] eqn:He'; [|done]. rewrite is_enabled_Enable.
      specialize (Hne _ _ He'). rewrite decide_False by done.
      unfold is_enabled, net1, Connect. cbn. by rewrite lookup_insert_ne.
  - intros name'. cbn. by rewrite lookup_insert_eq.
Qed.
