(* ===== verification/ShardKv.v ===== *)
(** * The tester of the sharded service: [shardkv1/test.go]

    Groups join and leave under a shard controller. The controller in
    [shardctrler.go] is a skeleton, so it is an interface here: [Query] returns
    the current configuration, [ChangeConfigTo] makes another one current.
    What the clerks of [checkShutdownSharding] read, and what a superseded
    controller left behind, are arguments. *)

From S2P Require Import Prelude Names TesterGroup Fnv ShardCfg.

(** ** The controller *)

Class ShardCtrler (W : Type) := {
  Query : W → option ShardConfig;
  ChangeConfigTo : ShardConfig → W → W;
}.

(** What the tester expects of a controller that is not superseded. *)
Class ShardCtrlerLaws (W : Type) `{ShardCtrler W} : Prop := {
  Query_ChangeConfigTo new w : Query (ChangeConfigTo new w) = Some new;
}.

(** The repository's: [ChangeConfigTo] does nothing and [Query] returns nil. *)
Definition skeleton_ctrler : ShardCtrler unit := {| Query _ := None; ChangeConfigTo _ w := w |}.

(** ** Operations *)

Definition Gid1 : Z := 1.
Definition NSRV : Z := 3.

(** The tester: the next group number and the groups it has started. *)
Record Test := mkTest { ngid : Z; started : gset Z }.
Definition MakeTest : Test := mkTest (Gid1 + 1) ∅.

Definition newGid (ts : Test) : Z * Test := (ts.(ngid), mkTest (ts.(ngid) + 1) ts.(started)).

Definition groups (n : Z) (ts : Test) : list Z * Test :=
  foldl (λ st _, let '(grps, ts) := st in let '(gid, ts) := newGid ts in (grps ++ [gid], ts))
    ([], ts) (range n).

(** [Group(gid).SrvNames()] of a group with [NSRV] servers. *)
Definition SrvNames (gid : Z) : list string := ServerName gid <$> range NSRV.

Definition MakeGroupStart (gid : Z) (ts : Test) : Test := mkTest ts.(ngid) ({[gid]} ∪ ts.(started)).
Definition ExitGroup (gid : Z) (ts : Test) : Test := mkTest ts.(ngid) (ts.(started) ∖ {[gid]}).

Section test.
Context `{ShardCtrler W}.

(** Dereferencing the nil configuration panics. *)
Definition QueryConfig (w : W) : go ShardConfig :=
  match Query w with Some cfg => Ret cfg | None => Panic end.

Definition checkMember (gid : Z) (w : W) : go bool := cfg ← QueryConfig w; Ret (IsMember gid cfg).

(** What follows a [JoinBalance] or a [LeaveBalance]; [None] if it does not
    return. *)
Definition change_to (r : go (option (bool * ShardConfig))) (w : W) : go (option W) :=
  r ← r;
  match r with
  | None => Ret None
  | Some (ok, newcfg) => if negb ok then Fatal else Ret (Some (ChangeConfigTo newcfg w))
  end.

Definition join (gid : Z) (srvs : list string) (w : W) : go (option W) :=
  cfg ← QueryConfig w; change_to (JoinBalance [(gid, srvs)] (Copy cfg)) w.
Definition leave (gid : Z) (w : W) : go (option W) :=
  cfg ← QueryConfig w; change_to (LeaveBalance [gid] (Copy cfg)) w.

Fixpoint joinGroups (gids : list Z) (ts : Test) (w : W) : go (option (bool * Test * W)) :=
  match gids with
  | [] => Ret (Some (true, ts, w))
  | gid :: gids =>
    let ts := MakeGroupStart gid ts in
    r ← join gid (SrvNames gid) w;
    match (r : option W) with
    | None => Ret None
    | Some w => ok ← checkMember gid w;
                if negb ok then Ret (Some (false, ts, w)) else joinGroups gids ts w
    end
  end.

Fixpoint leaveGroups (gids : list Z) (ts : Test) (w : W) : go (option (bool * Test * W)) :=
  match gids with
  | [] => Ret (Some (true, ts, w))
  | gid :: gids =>
    r ← leave gid w;
    match (r : option W) with
    | None => Ret None
    | Some w => ok ← checkMember gid w;
                if (ok : bool) then Ret (Some (false, ts, w))
                else leaveGroups gids (ExitGroup gid ts) w
    end
  end.

(** [setupKVService]; [InitConfig] is [init]. *)
Definition setupKVService (init : ShardConfig → W → W) (ts : Test) (w : W) : go (option (Z * Test * W)) :=
  let ts := MakeGroupStart Gid1 ts in
  match JoinBalance [(Gid1, SrvNames Gid1)] MakeShardConfig with
  | Ret (Some (_, scfg)) => Ret (Some (Gid1, ts, init scfg w))
  | Ret None => Ret None
  | Panic => Panic
  | Fatal => Fatal
  end.
End test.

(** *** [checkShutdownSharding]

    [arrivals] are the reads that return before two seconds pass without one:
    the number of the key and the value read. *)
Definition check_arrival (va : list string) (ndone : Z) (iv : Z * string) : go Z :=
  v ← gidx va iv.1; if negb (bool_decide (iv.2 = v)) then Fatal else Ret (ndone + 1).
Definition checkShutdownSharding (ka va : list string) (arrivals : list (Z * string)) : go unit :=
  ndone ← foldM (check_arrival va) 0 arrivals;
  if glen ka <=? ndone then Fatal else Ret tt.

(** *** [partitionCtrler]

    Where the old controller was when it was partitioned: it has not started
    ([state] is 0), or was in the middle of a join or a leave of [ngid]; [cfg] is
    the configuration after the new controller's recovery, and [num] the number
    before. The result says whether the test makes [ngid] leave. *)
Inductive CtrlerState := STARTED | JOIN | LEAVE.
#[export] Instance CtrlerState_eq_dec : EqDecision CtrlerState.
Proof. solve_decision. Defined.
Definition partition_verdict (num ngid : Z) (state : CtrlerState) (cfg : ShardConfig) : go bool :=
  if cfg.(Num) <=? num then Fatal else
  let present := IsMember ngid cfg in
  if (bool_decide (state = JOIN) && negb present) || (bool_decide (state = LEAVE) && present) then Fatal
  else Ret (bool_decide (state = JOIN) && present).

(** ** Names *)

Lemma ServerName_inj g g' i i' : 0 ≤ g → 0 ≤ g' → ServerName g i = ServerName g' i' → g = g'.
Proof.
  unfold ServerName. intros Hg Hg' Heq%append_inj.
  apply digits_dash_inj in Heq as [Hp _]; [|by apply pretty_digits..]. by apply (inj pretty).
Qed.

Lemma SrvNames_disjoint g g' s : 0 ≤ g → 0 ≤ g' → g ≠ g' → s ∈ SrvNames g → s ∉ SrvNames g'.
Proof.
  unfold SrvNames. intros Hg Hg' Hne (i & -> & _)%list_elem_of_fmap (i' & Heq & _)%list_elem_of_fmap.
  by apply ServerName_inj in Heq.
Qed.

Lemma groups_spec n ts :
  0 ≤ n → groups n ts = (seqZ ts.(ngid) n, mkTest (ts.(ngid) + n) ts.(started)).
Proof.
  intros Hn. unfold groups, range. revert ts. pattern n. apply natlike_ind; [| |done]; clear n Hn.
  - intros [g st]. cbn. by rewrite Z.add_0_r.
  - intros k Hk IH [g st]. replace (Z.succ k) with (k + 1) by lia.
    rewrite !seqZ_app, foldl_app, IH by lia. cbn [ngid started].
    change (seqZ (0 + k) 1) with [0 + k]. change (seqZ (g + k) 1) with [g + k]. cbn.
    by rewrite Z.add_assoc.
Qed.

(** ** Configurations of the tester's groups *)

(** [cfg] has exactly the groups [gids], with the names the tester gave their
    servers, and passes [CheckConfig] against them. *)
Record config_of (gids : list Z) (cfg : ShardConfig) : Prop := {
  cf_shards : glen cfg.(Shards) = NShards;
  cf_nodup : NoDup gids;
  cf_groups : ∀ g, g ∈ gids ↔ has_group cfg g;
  cf_names : ∀ g srvs, cfg.(Groups) !! g = Some srvs → 0 ≤ g ∧ srvs = SrvNames g;
  cf_check : CheckConfig gids cfg = Ret tt;
}.

Lemma Copy_id cfg : Copy cfg = cfg.
Proof.
  unfold Copy. rewrite map_fold_foldr.
  assert (∀ l c, foldr (uncurry (λ k srvs c, c <| Groups := <[k := srvs]> c.(Groups) |>)) c l =
    c <| Groups := list_to_map l ∪ c.(Groups) |>) as Hgen.
  { intros l c. induction l as [|[k srvs] l IH]; cbn [foldr].
    - assert (list_to_map [] ∪ c.(Groups) = c.(Groups)) as -> by apply (left_id_L ∅ (∪)). by destruct c.
    - rewrite IH. cbn. by rewrite insert_union_l. }
  rewrite Hgen, list_to_map_to_list. cbn. rewrite (right_id_L ∅ (∪)). by destruct cfg.
Qed.

Lemma config_of_perm gids gids' cfg : gids ≡ₚ gids' → config_of gids cfg → config_of gids' cfg.
Proof.
  intros Hp [Hs Hn Hg Hnm Hc]. assert (∀ g, g ∈ gids' ↔ has_group cfg g) as Hg' by (intros; by rewrite <-Hp).
  constructor; [done|by rewrite <-Hp|done|done|].
  apply (CheckConfig_Ret _ _ Hs) in Hc as (Hsz & _ & Ha & Hb). apply CheckConfig_Ret; [done|].
  split; [rewrite Hsz; unfold glen; by rewrite Hp|]. split; [intros g; by rewrite Hg'|]. split; [|done].
  intros Hne. apply Ha. intros ->. by apply Permutation_nil_l in Hp.
Qed.

Lemma config_groups_eq gids cfg cfg' : config_of gids cfg → config_of gids cfg' → cfg.(Groups) = cfg'.(Groups).
Proof.
  intros [_ _ Hg Hn _] [_ _ Hg' Hn' _]. apply map_eq. intros g.
  destruct (cfg.(Groups) !! g) as [srvs|] eqn:E, (cfg'.(Groups) !! g) as [srvs'|] eqn:E'; [| | |done].
  - apply Hn in E as [_ ->]. by apply Hn' in E' as [_ ->].
  - assert (has_group cfg' g) as [? Hx] by (apply Hg', Hg; by eexists). congruence.
  - assert (has_group cfg g) as [? Hx] by (apply Hg, Hg'; by eexists). congruence.
Qed.

(** With no more groups than shards every group serves a shard. *)
Lemma zsum_idle shards gs g :
  g ∈ gs → count shards g = 0 → (∀ g', g' ∈ gs → count shards g' ≤ 1) → zsum (count shards <$> gs) ≤ glen gs - 1.
Proof.
  intros Hg H0 H1. assert (∀ l, (∀ g', g' ∈ l → count shards g' ≤ 1) → zsum (count shards <$> l) ≤ glen l) as Hle.
  { induction l as [|x l IH]; intros Hl; [done|]. rewrite glen_cons. cbn. unfold zsum in *.
    pose proof (Hl x ltac:(left)). specialize (IH ltac:(intros; apply Hl; by right)). lia. }
  induction gs as [|x gs IH]; [by apply elem_of_nil in Hg|]. rewrite glen_cons. cbn. unfold zsum in *.
  apply elem_of_cons in Hg as [<-|Hg].
  - rewrite H0. pose proof (Hle gs ltac:(intros; apply H1; by right)). lia.
  - pose proof (H1 x ltac:(left)). specialize (IH Hg ltac:(intros; apply H1; by right)). lia.
Qed.

Lemma IsMember_spec g cfg : IsMember g cfg = true ↔ g ∈ cfg.(Shards).
Proof.
  unfold IsMember. rewrite existsb_exists. setoid_rewrite <-list_elem_of_In. split.
  - by intros (x & Hx & ->%Z.eqb_eq).
  - intros Hg. exists g. split; [done|]. apply Z.eqb_refl.
Qed.

Lemma count_absent shards g : g ∉ shards → count shards g = 0.
Proof.
  induction shards as [|x l IH]; intros Hg; [done|]. rewrite count_cons. apply not_elem_of_cons in Hg as [Hx Hl].
  rewrite IH by done. destruct (Z.eqb_spec x g); [by subst|done].
Qed.

Lemma member_in gids cfg g : config_of gids cfg → glen gids ≤ NShards → g ∈ gids → IsMember g cfg = true.
Proof.
  intros [Hs Hn Hg _ Hc] Hle Hin. apply (CheckConfig_Ret _ _ Hs) in Hc as (_ & _ & Ha & Hb).
  assert (all_assigned cfg) as Hall by (apply Ha; by intros ->; apply elem_of_nil in Hin).
  apply IsMember_spec. destruct (decide (g ∈ cfg.(Shards))) as [|Hni]; [done|exfalso].
  pose proof (count_absent _ _ Hni) as H0.
  assert (zsum (count cfg.(Shards) <$> gids) = glen cfg.(Shards)) as Hsum
    by (apply counts_sum_all; [done|]; intros; by apply Hg, Hall).
  assert (zsum (count cfg.(Shards) <$> gids) ≤ glen gids - 1) as Hz.
  { apply (zsum_idle _ _ g); [done..|]. intros g' Hg'. pose proof (Hb g' g ltac:(by apply Hg) ltac:(by apply Hg)). lia. }
  lia.
Qed.

Lemma member_out gids cfg g : config_of gids cfg → gids ≠ [] → g ∉ gids → IsMember g cfg = false.
Proof.
  intros [Hs Hn Hg _ Hc] Hne Hni. apply (CheckConfig_Ret _ _ Hs) in Hc as (_ & _ & Ha & _).
  apply not_true_is_false. intros Hm%IsMember_spec. by apply Hni, Hg, Ha.
Qed.

(** *** One group joins or leaves *)

Lemma join_config gids cfg gid :
  config_of gids cfg → gid ∉ gids → 0 ≤ gid →
  ∃ cfg', JoinBalance [(gid, SrvNames gid)] cfg = Ret (Some (true, cfg')) ∧
    cfg'.(Num) = cfg.(Num) + 1 ∧ config_of (gid :: gids) cfg'.
Proof.
  intros [Hs Hn Hg Hnm Hc] Hni Hpos.
  assert (cfg.(Groups) !! gid = None) as Hnone.
  { destruct (cfg.(Groups) !! gid) eqn:E; [|done]. exfalso. apply Hni, Hg. by eexists. }
  destruct (JoinBalance_spec [(gid, SrvNames gid)] cfg (gid :: gids)) as (cfg' & Hj & Hnum & Hgr & Hl & Hck & _).
  - done.
  - constructor; cbn.
    + apply NoDup_singleton.
    + by intros g srvs [= -> ->]%list_elem_of_singleton.
    + intros g srvs xg xs s [= -> ->]%list_elem_of_singleton Hx Hin. pose proof (Hnm _ _ Hx) as [Hxpos ->].
      apply (SrvNames_disjoint xg gid); [done..| |done]. intros ->. congruence.
    + by intros g srvs xg xs s [= -> ->]%list_elem_of_singleton [= -> ->]%list_elem_of_singleton.
  - done.
  - by constructor.
  - intros g. rewrite elem_of_cons, Hg. cbn. by rewrite list_elem_of_singleton.
  - exists cfg'. split; [done|]. split; [done|].
    assert (∀ g, cfg'.(Groups) !! g = if decide (g = gid) then Some (SrvNames gid) else cfg.(Groups) !! g) as Hlk.
    { intros g. rewrite Hgr. cbn. rewrite <-insert_union_l, (left_id_L ∅ (∪)), lookup_insert.
      repeat case_decide; congruence. }
    constructor; [done|by constructor| | |done].
    + intros g. rewrite elem_of_cons, Hg. unfold has_group. rewrite Hlk. case_decide; [|naive_solver].
      subst. split; [by eexists|by left].
    + intros g srvs. rewrite Hlk. case_decide; [|apply Hnm]. intros [= <-]. by subst.
Qed.

Lemma leave_config gids cfg gid :
  config_of (gid :: gids) cfg → gids ≠ [] →
  ∃ cfg', LeaveBalance [gid] cfg = Ret (Some (true, cfg')) ∧
    cfg'.(Num) = cfg.(Num) + 1 ∧ config_of gids cfg'.
Proof.
  intros [Hs Hn Hg Hnm Hc] Hne. apply NoDup_cons in Hn as [Hni Hn].
  destruct (LeaveBalance_spec [gid] cfg gids) as ((cfg' & Hj & Hnum & Hgr & Hl & Hck & _) & _).
  - done.
  - apply NoDup_singleton.
  - intros g ->%list_elem_of_singleton. apply Hg. left.
  - done.
  - done.
  - intros g. fold (has_group cfg g). rewrite <-Hg, list_elem_of_singleton, elem_of_cons. naive_solver.
  - exists cfg'. split; [done|]. split; [done|].
    assert (∀ g, cfg'.(Groups) !! g = if decide (g = gid) then None else cfg.(Groups) !! g) as Hlk.
    { intros g. rewrite Hgr, map_lookup_filter. destruct (cfg.(Groups) !! g) as [x|]; cbn; [|by case_decide].
      pose proof (list_elem_of_singleton g gid). destruct (decide (g = gid)); case_guard; cbn in *; naive_solver. }
    constructor; [done|done| | |done].
    + intros g. unfold has_group. rewrite Hlk. case_decide as E.
      * subst. split; [done|by intros []].
      * fold (has_group cfg g). rewrite <-Hg, elem_of_cons. naive_solver.
    + intros g srvs. rewrite Hlk. case_decide; [done|apply Hnm].
Qed.

(** ** Groups join and leave *)

Section joins.
Context `{ShardCtrlerLaws W}.

Lemma joinGroups_run gids : ∀ old ts w cfg,
  Query w = Some cfg → config_of old cfg → NoDup gids → (∀ g, g ∈ gids → g ∉ old ∧ 0 ≤ g) →
  glen old + glen gids ≤ NShards →
  ∃ w' cfg' st, joinGroups gids ts w = Ret (Some (true, mkTest ts.(ngid) st, w')) ∧
    (∀ g, g ∈ st ↔ g ∈ gids ∨ g ∈ ts.(started)) ∧
    Query w' = Some cfg' ∧ cfg'.(Num) = cfg.(Num) + glen gids ∧ config_of (gids ++ old) cfg'.
Proof.
  induction gids as [|gid gids IH]; intros old ts w cfg Hq Hcfg Hnd Hnew Hle.
  { exists w, cfg, ts.(started). cbn [joinGroups]. rewrite Z.add_0_r. split; [by destruct ts|].
    split; [set_solver|done]. }
  apply NoDup_cons in Hnd as [Hni Hnd]. destruct (Hnew gid ltac:(left)) as [Hno Hpos].
  rewrite glen_cons in *. pose proof (glen_nonneg gids) as Hgl.
  destruct (join_config old cfg gid Hcfg Hno Hpos) as (cfg1 & Hj & Hnum & Hcfg1).
  cbn [joinGroups]. unfold join, QueryConfig. rewrite Hq. cbn [mbind go_bind]. rewrite Copy_id, Hj.
  cbn [change_to mbind go_bind negb]. unfold checkMember, QueryConfig. rewrite Query_ChangeConfigTo.
  cbn [mbind go_bind]. rewrite (member_in (gid :: old)) by (done || rewrite ?glen_cons; lia || left). cbn [negb].
  destruct (IH (gid :: old) (MakeGroupStart gid ts) (ChangeConfigTo cfg1 w) cfg1)
    as (w' & cfg' & st & Hjg & Hst & Hq' & Hnum' & Hcfg').
  - apply Query_ChangeConfigTo.
  - done.
  - done.
  - intros g Hg. destruct (Hnew g ltac:(by right)). split; [|done]. rewrite elem_of_cons. naive_solver.
  - rewrite glen_cons. lia.
  - exists w', cfg', st. split; [exact Hjg|]. split.
    + intros g. rewrite Hst, elem_of_cons. cbn. rewrite elem_of_union, elem_of_singleton. tauto.
    + split; [done|]. split; [lia|]. eapply config_of_perm; [|exact Hcfg'].
      symmetry. apply Permutation_middle.
Qed.

Lemma leaveGroups_run gids : ∀ old ts w cfg,
  Query w = Some cfg → config_of (gids ++ old) cfg → old ≠ [] →
  ∃ w' cfg' st, leaveGroups gids ts w = Ret (Some (true, mkTest ts.(ngid) st, w')) ∧
    (∀ g, g ∈ st ↔ g ∈ ts.(started) ∧ g ∉ gids) ∧
    Query w' = Some cfg' ∧ cfg'.(Num) = cfg.(Num) + glen gids ∧ config_of old cfg'.
Proof.
  induction gids as [|gid gids IH]; intros old ts w cfg Hq Hcfg Hne.
  { exists w, cfg, ts.(started). cbn [leaveGroups]. rewrite Z.add_0_r. split; [by destruct ts|].
    split; [set_solver|done]. }
  cbn [app] in Hcfg. pose proof (cf_nodup _ _ Hcfg) as Hnd. apply NoDup_cons in Hnd as [Hni _].
  assert (gids ++ old ≠ []) as Hne' by (by destruct gids).
  destruct (leave_config (gids ++ old) cfg gid Hcfg Hne') as (cfg1 & Hj & Hnum & Hcfg1).
  cbn [leaveGroups]. unfold leave, QueryConfig. rewrite Hq. cbn [mbind go_bind]. rewrite Copy_id, Hj.
  cbn [change_to mbind go_bind negb]. unfold checkMember, QueryConfig. rewrite Query_ChangeConfigTo.
  cbn [mbind go_bind]. rewrite (member_out (gids ++ old)) by done.
  destruct (IH old (ExitGroup gid ts) (ChangeConfigTo cfg1 w) cfg1)
    as (w' & cfg' & st & Hjg & Hst & Hq' & Hnum' & Hcfg'); [apply Query_ChangeConfigTo|done|done|].
  exists w', cfg', st. split; [exact Hjg|]. split.
  - intros g. rewrite Hst, elem_of_cons. cbn. rewrite elem_of_difference, elem_of_singleton. tauto.
  - split; [done|]. split; [rewrite glen_cons; lia|done].
Qed.

(** C31. Groups join and leave. Under a controller that is not superseded, the
    numbers that [groups] hands out are new; their groups join one by one, no
    step is fatal, [joinGroups] returns true, and the configuration has exactly
    the old and the new groups, balanced, with one number per join; when the
    same groups leave, the configuration has the groups it had, balanced, and
    the tester runs the groups it ran. The old groups and the new ones together
    are at most as many as there are shards (twelve); a thirteenth would not
    become a member ([thirteenth_group] in [ShardKvWitness.v]). *)
Theorem join_leave_roundtrip n ts w cfg old :
  0 ≤ n → 0 ≤ ts.(ngid) → Query w = Some cfg → config_of old cfg → old ≠ [] →
  (∀ g, g ∈ old ∨ g ∈ ts.(started) → g < ts.(ngid)) → glen old + n ≤ NShards →
  let '(gids, ts1) := groups n ts in
  ∃ w2 ts2 cfg2 w3 ts3 cfg3,
    joinGroups gids ts1 w = Ret (Some (true, ts2, w2)) ∧
    Query w2 = Some cfg2 ∧ cfg2.(Num) = cfg.(Num) + n ∧ config_of (gids ++ old) cfg2 ∧
    (∀ g, g ∈ gids → IsMember g cfg2 = true) ∧
    leaveGroups gids ts2 w2 = Ret (Some (true, ts3, w3)) ∧
    Query w3 = Some cfg3 ∧ cfg3.(Num) = cfg.(Num) + 2 * n ∧ config_of old cfg3 ∧
    cfg3.(Groups) = cfg.(Groups) ∧ ts3 = mkTest (ts.(ngid) + n) ts.(started).
Proof.
  intros Hn Hid Hq Hcfg Hne Hlt Hle. rewrite groups_spec by done.
  set (ts1 := mkTest (ngid ts + n) (started ts)). set (gids := seqZ (ngid ts) n).
  assert (glen gids = n) as Hlen by (unfold glen, gids; rewrite length_seqZ; lia).
  assert (∀ g, g ∈ gids ↔ ngid ts ≤ g < ngid ts + n) as Hin by (intros; apply elem_of_seqZ).
  destruct (joinGroups_run gids old ts1 w cfg) as (w2 & cfg2 & st2 & Hj & Hst2 & Hq2 & Hnum2 & Hcfg2);
    [done|done|apply NoDup_seqZ| |lia|].
  { intros g Hg%Hin. split; [|lia]. intros Ho. specialize (Hlt g (or_introl Ho)). lia. }
  destruct (leaveGroups_run gids old (mkTest (ngid ts1) st2) w2 cfg2)
    as (w3 & cfg3 & st3 & Hl & Hst3 & Hq3 & Hnum3 & Hcfg3); [done..|].
  eexists w2, _, cfg2, w3, _, cfg3. split; [exact Hj|]. split; [done|]. split; [lia|]. split; [done|].
  split.
  { intros g Hg. apply (member_in (gids ++ old)); [done|rewrite glen_app; lia|]. apply elem_of_app. by left. }
  split; [exact Hl|]. split; [done|]. split; [lia|]. split; [done|].
  split; [by eapply config_groups_eq|]. cbn. f_equal. apply set_eq. intros g. rewrite Hst3, Hst2. cbn.
  rewrite Hin. split; [tauto|]. intros Hg. specialize (Hlt g (or_intror Hg)). split; [by right|lia].
Qed.
End joins.

(** ** The boundary: more groups than shards *)

Lemma twelve_each gids cfg g : config_of gids cfg → glen gids = NShards → g ∈ gids → count cfg.(Shards) g = 1.
Proof.
  intros Hcfg Hlen Hin. pose proof Hcfg as [Hs Hn Hg _ Hc].
  apply (CheckConfig_Ret _ _ Hs) in Hc as (_ & _ & Ha & _).
  assert (all_assigned cfg) as Hall by (apply Ha; by intros ->; apply elem_of_nil in Hin).
  assert (zsum (count cfg.(Shards) <$> gids) = NShards) as Hsum
    by (rewrite <-Hs; apply counts_sum_all; [done|]; intros; by apply Hg, Hall).
  assert (∀ g', g' ∈ gids → 1 ≤ count cfg.(Shards) g') as Hone.
  { intros g' Hg'. pose proof (count_bounds cfg.(Shards) g').
    destruct (decide (count cfg.(Shards) g' = 0)) as [H0|]; [|lia].
    assert (IsMember g' cfg = true) as Hm by (apply (member_in gids); [done|lia|done]).
    apply IsMember_spec in Hm. exfalso. clear -Hm H0. induction (Shards cfg) as [|x l IH]; [by apply elem_of_nil in Hm|].
    rewrite count_cons in H0. pose proof (count_bounds l g'). apply elem_of_cons in Hm as [->|Hm].
    - rewrite Z.eqb_refl in H0. lia.
    - destruct (x =? g'); [lia|]. apply IH; (done || lia). }
  revert Hsum Hlen Hone Hin. clear. generalize NShards. intros k Hsum <- Hone Hin. revert Hsum Hin.
  assert (∀ l, (∀ g', g' ∈ l → 1 ≤ count (Shards cfg) g') → glen l ≤ zsum (count (Shards cfg) <$> l)) as Hge.
  { induction l as [|x l IH]; intros Hl; [done|]. rewrite glen_cons. cbn. unfold zsum in *.
    pose proof (Hl x ltac:(left)). specialize (IH ltac:(intros; apply Hl; by right)). lia. }
  induction gids as [|x l IH]; intros Hsum Hin; [by apply elem_of_nil in Hin|].
  rewrite glen_cons, fmap_cons in Hsum. change (zsum (?a :: ?l)) with (a + zsum l) in Hsum.
  pose proof (Hone x ltac:(left)). pose proof (Hge l ltac:(intros; apply Hone; by right)).
  apply elem_of_cons in Hin as [<-|Hin]; [lia|]. apply IH; [intros; apply Hone; by right|lia|done].
Qed.

(** A group that joins when every shard has a group of its own gets no shard,
    so [joinGroups] reports that it is not a member, although the join has
    taken place (finding). *)
Theorem thirteenth_group `{ShardCtrlerLaws W} old gid ts w cfg :
  Query w = Some cfg → config_of old cfg → glen old = NShards → gid ∉ old → 0 ≤ gid →
  ∃ w' cfg', joinGroups [gid] ts w = Ret (Some (false, MakeGroupStart gid ts, w')) ∧
    Query w' = Some cfg' ∧ has_group cfg' gid ∧ cfg'.(Num) = cfg.(Num) + 1 ∧ cfg'.(Shards) = cfg.(Shards).
Proof.
  intros Hq Hcfg Hlen Hni Hpos. pose proof Hcfg as [Hs Hn Hg Hnm Hc].
  apply (CheckConfig_Ret _ _ Hs) in Hc as (_ & _ & Ha & Hb).
  assert (old ≠ []) as Hne by by intros ->.
  set (c1 := cfg <| Groups := list_to_map [(gid, SrvNames gid)] ∪ cfg.(Groups) |> <| Num := cfg.(Num) + 1 |>).
  assert (∀ g, has_group c1 g → g = gid ∨ g ∈ old) as Hc1.
  { intros g. unfold has_group. cbn. intros Hx. destruct (decide (g = gid)) as [|Hgg]; [by left|right].
    apply Hg. unfold has_group. by rewrite <-insert_union_l, (left_id_L ∅ (∪)), lookup_insert_ne in Hx by done. }
  assert (gid ∉ cfg.(Shards)) as Hsh by (intros Hin; by apply Hni, Hg, Ha).
  assert (JoinBalance [(gid, SrvNames gid)] cfg = Ret (Some (true, c1))) as Hj.
  { unfold JoinBalance. rewrite Join_new; [|done|].
    - cbn [and_rebalance]. fold c1. destruct (Rebalance_stable c1) as [Hst _]; [done| |rewrite Hst; [done|..]].
      + intros He. assert (is_Some (c1.(Groups) !! gid)) as [? Hx]; [|by rewrite He in Hx].
        cbn. rewrite <-insert_union_l, lookup_insert_eq. by eexists.
      + intros g Hin. apply Ha in Hin; [|done]. unfold has_group in *. cbn.
        apply lookup_union_is_Some. by right.
      + intros g g' Hgg Hgg'. change (Shards c1) with (Shards cfg).
        assert (∀ x, has_group c1 x → 0 ≤ count cfg.(Shards) x ≤ 1) as Hx.
        { intros x [->|Hx]%Hc1; [by rewrite count_absent|]. by rewrite (twelve_each old cfg x). }
        pose proof (Hx _ Hgg). pose proof (Hx _ Hgg'). lia.
    - constructor; cbn.
      + apply NoDup_singleton.
      + intros g srvs [= -> ->]%list_elem_of_singleton. destruct (cfg.(Groups) !! gid) eqn:E; [|done].
        exfalso. apply Hni, Hg. by eexists.
      + intros g srvs xg xs s [= -> ->]%list_elem_of_singleton Hx Hin. pose proof (Hnm _ _ Hx) as [Hxpos ->].
        apply (SrvNames_disjoint xg gid); [done..| |done]. intros ->. apply Hni, Hg. by eexists.
      + by intros g srvs xg xs s [= -> ->]%list_elem_of_singleton [= -> ->]%list_elem_of_singleton. }
  exists (ChangeConfigTo c1 w), c1. split; [|split; [apply Query_ChangeConfigTo|split; [|done]]].
  - cbn [joinGroups]. unfold join, QueryConfig. rewrite Hq. cbn [mbind go_bind]. rewrite Copy_id, Hj.
    cbn [change_to mbind go_bind negb]. unfold checkMember, QueryConfig. rewrite Query_ChangeConfigTo.
    cbn [mbind go_bind]. assert (IsMember gid c1 = false) as ->; [|done].
    apply not_true_is_false. by intros ?%IsMember_spec.
  - unfold has_group. cbn. rewrite <-insert_union_l, lookup_insert_eq. by eexists.
Qed.

(** ** The start, the skeleton and the other checks *)

(** [setupKVService] gives every shard to group [Gid1]. *)
Theorem setupKVService_spec {W} (init : ShardConfig → W → W) ts w :
  ∃ cfg, setupKVService init ts w = Ret (Some (Gid1, MakeGroupStart Gid1 ts, init cfg w)) ∧
    cfg.(Num) = 1 ∧ config_of [Gid1] cfg.
Proof.
  destruct (join_config [] MakeShardConfig Gid1) as (cfg & Hj & Hnum & Hcfg); [|set_solver|done|].
  - constructor; [done|constructor| | |done].
    + intros g. split; [by intros ?%elem_of_nil|by intros []].
    + by intros g srvs ?.
  - exists cfg. unfold setupKVService. rewrite Hj. exact (conj eq_refl (conj Hnum Hcfg)).
Qed.

(** Under the repository's controller the first join dereferences nil. *)
Theorem skeleton_join gid gids ts w : joinGroups (H := skeleton_ctrler) (gid :: gids) ts w = Panic.
Proof. done. Qed.

(** [checkShutdownSharding] passes exactly when every read that returned was
    right and not all reads returned. *)
Theorem checkShutdownSharding_spec ka va arrivals :
  (∀ i v, (i, v) ∈ arrivals → 0 ≤ i < glen va) →
  (checkShutdownSharding ka va arrivals = Ret tt ↔
    (∀ i v, (i, v) ∈ arrivals → va.[i] = Some v) ∧ glen arrivals < glen ka) ∧
  checkShutdownSharding ka va arrivals ≠ Panic.
Proof.
  intros Hin. unfold checkShutdownSharding.
  assert (∀ n, (foldM (check_arrival va) n arrivals = Ret (n + glen arrivals) ∧
      ∀ i v, (i, v) ∈ arrivals → va.[i] = Some v) ∨
    (foldM (check_arrival va) n arrivals = Fatal ∧ ∃ i v, (i, v) ∈ arrivals ∧ va.[i] ≠ Some v)) as Hf.
  { clear ka. induction arrivals as [|[i v] l IH]; intros n; cbn [foldM].
    { left. rewrite Z.add_0_r. split; [done|]. by intros i v ?%elem_of_nil. }
    destruct (zlookup_is_Some va i) as [x Hx]; [by apply (Hin i v); left|].
    assert (check_arrival va n (i, v) = if bool_decide (v = x) then Ret (n + 1) else Fatal) as ->.
    { unfold check_arrival. cbn [fst snd]. rewrite gidx_zlookup, Hx. cbn [mbind go_bind]. by case_bool_decide. }
    case_bool_decide as Hv.
    - cbn [mbind go_bind]. subst x. destruct (IH ltac:(intros; apply (Hin i0 v0); by right) (n + 1))
        as [[Hr Hok]|[Hr (j & y & Hj & Hy)]].
      + left. rewrite Hr, glen_cons. split; [f_equal; lia|].
        intros j y [[= -> ->]|Hj]%elem_of_cons; [done|by apply Hok].
      + right. split; [done|]. exists j, y. split; [by right|done].
    - right. split; [done|]. exists i, v. split; [left|]. rewrite Hx. congruence. }
  destruct (Hf 0) as [[-> Hok]|[-> (i & v & Hi & Hv)]]; cbn [mbind go_bind].
  - rewrite Z.add_0_l. case_if; (split; [|done]).
    + split; [done|]. intros [_ ?]. lia.
    + split; [intros _; split; [done|lia]|done].
  - split; [|done]. split; [done|]. intros [Hok _]. by destruct Hv; apply Hok.
Qed.

(** The verdict on a recovered controller: the number has grown, and the group
    is a member if it was joining, and is not if it was leaving; a group that
    was joining then leaves. *)
Theorem partition_verdict_spec num ngid state cfg b :
  partition_verdict num ngid state cfg = Ret b ↔
  num < cfg.(Num) ∧ (state = JOIN → ngid ∈ cfg.(Shards)) ∧ (state = LEAVE → ngid ∉ cfg.(Shards)) ∧
  b = bool_decide (state = JOIN).
Proof.
  unfold partition_verdict. case_if; [split; [done|lia]|]. cbv zeta.
  assert (ngid ∈ cfg.(Shards) ↔ IsMember ngid cfg = true) as -> by (symmetry; apply IsMember_spec).
  destruct state, (IsMember ngid cfg); cbn; split; naive_solver.
Qed.
