(* ===== verification/ShardKvWitness.v ===== *)
(** * The theorems on the sharded service's tester at a concrete controller

    A controller that keeps the configuration it was given last. *)

From S2P Require Import Prelude TesterGroup Fnv ShardCfg ShardKv.

#[local] Instance cell_ctrler : ShardCtrler ShardConfig := {| Query := Some; ChangeConfigTo new _ := new |}.
#[local] Instance cell_ctrler_laws : ShardCtrlerLaws ShardConfig.
Proof. by split. Qed.

(** All shards with [Gid1]; two more groups join and leave. *)
Definition first_cfg : ShardConfig := mkShardConfig 1 (replicate 12 1) {[1 := SrvNames 1]}.
Definition first_ts : Test := mkTest 2 {[1]}.

Lemma first_config : config_of [1] first_cfg.
Proof.
  constructor.
  - reflexivity.
  - apply NoDup_singleton.
  - intros g. rewrite list_elem_of_singleton. unfold has_group, first_cfg. cbn. split.
    + intros ->. eexists. apply lookup_singleton_eq.
    + by intros [? [? _]%lookup_singleton_Some].
  - intros g srvs Hg. cbn in Hg. apply lookup_singleton_Some in Hg as [<- <-]. by split.
  - vm_compute. reflexivity.
Qed.

Lemma join_leave_roundtrip_witness :
  ∃ w2 ts2 w3, joinGroups [2; 3] (mkTest 4 {[1]}) first_cfg = Ret (Some (true, ts2, w2)) ∧
    Num w2 = 3 ∧ config_of [2; 3; 1] w2 ∧
    leaveGroups [2; 3] ts2 w2 = Ret (Some (true, mkTest 4 {[1]}, w3)) ∧ Num w3 = 5 ∧
    Groups w3 = Groups first_cfg.
Proof.
  pose proof (join_leave_roundtrip 2 first_ts first_cfg first_cfg [1]) as H.
  destruct H as (w2 & ts2 & cfg2 & w3 & ts3 & cfg3 & Hj & Hq2 & Hn2 & Hc2 & _ & Hl & Hq3 & Hn3 & _ & Hg & Hts).
  - discriminate.
  - discriminate.
  - reflexivity.
  - exact first_config.
  - discriminate.
  - intros g. cbn. rewrite list_elem_of_singleton, elem_of_singleton. lia.
  - discriminate.
  - injection Hq2 as <-. injection Hq3 as <-. subst ts3. exists w2, ts2, w3.
    split; [exact Hj|]. split; [exact Hn2|]. split; [exact Hc2|]. split; [exact Hl|]. split; [exact Hn3|exact Hg].
Defined.
