(* ===== verification/ShardConc.v ===== *)
(** * Concurrent controllers: [concurCtrler] of [shardkv1/test.go]

    The test runs several goroutines, each with a controller of its own, that
    let fresh groups join and leave. A step is one of the controller's calls, or
    one of the calls that start and stop groups, and the goroutines' steps
    interleave in any way. The repository's controller is a stub; of another one
    the theorem asks what the comments say (shardctrler.go:50-53, test.go:330):
    that a change replaces no other configuration than the one it was made
    from. *)

From S2P Require Import Prelude Names TesterGroup Fnv ShardCfg ShardKv.

(** ** Rebalancing takes no group's last shard *)

Lemma count_elem shards g : g ∈ shards ↔ 0 < count shards g.
Proof.
  split.
  - intros [i Hi]%zlookup_elem_of. pose proof (countb_pos (λ x, x =? g) shards i g Hi (Z.eqb_refl g)). unfold count. lia.
  - intros Hc. destruct (decide (g ∈ shards)) as [|Hn]; [done|]. apply count_absent in Hn. lia.
Qed.

Lemma balance_keeps fuel g : ∀ c c',
  c.(Groups) ≠ ∅ → glen c.(Shards) = NShards → balance fuel c = Some c' → g ∈ c.(Shards) → g ∈ c'.(Shards).
Proof.
  induction fuel as [|fuel IH]; intros c c' Hne Hlen; [done|].
  destruct (analyze_groups c) as (Hmg & Hmn & Hlg & Hln & _); [lia|done|]. cbn [balance]. set (a := analyze c) in *.
  case_if; [by intros [= <-]|]. intros Hb Hg. eapply IH; [| |exact Hb|].
  - done.
  - cbn. by rewrite glen_move_one.
  - cbn. rewrite count_elem in Hg |- *. pose proof (count_bounds c.(Shards) (an_lg a)).
    assert (an_mg a ≠ an_lg a) as Hne' by (intros Heq; rewrite Heq in Hmn; lia).
    rewrite (count_move_one _ _ _ g Hne') by lia. repeat case_decide; subst; lia.
Qed.

Lemma Rebalance_keeps c c' g :
  glen c.(Shards) = NShards → Rebalance c = Some c' → g ∈ c.(Shards) → has_group c g → g ∈ c'.(Shards).
Proof.
  intros Hlen Hr [i Hi]%zlookup_elem_of Hg. assert (c.(Groups) ≠ ∅) as Hne.
  { intros He. destruct Hg as [x Hx]. by rewrite He, lookup_empty in Hx. }
  unfold Rebalance in Hr. rewrite size_lt_1, bool_decide_false in Hr by done.
  destruct (assign_unassigned_spec c Hne Hlen) as (shards & E & Hl & _ & Hkeep). rewrite E in Hr.
  eapply balance_keeps; [| |exact Hr|]; [done|done|]. cbn. apply zlookup_elem_of. exists i. by apply Hkeep.
Qed.

Lemma join_keeps gid srvs cfg cfg' g :
  glen cfg.(Shards) = NShards → JoinBalance [(gid, srvs)] cfg = Ret (Some (true, cfg')) →
  g ∈ cfg.(Shards) → has_group cfg g → g ∈ cfg'.(Shards).
Proof.
  intros Hlen. unfold JoinBalance, Join. cbn [join_groups]. destruct (cfg.(Groups) !! gid) eqn:Eg; [done|].
  destruct (shares_server _ _); [done|]. cbn [mbind go_bind negb and_rebalance].
  destruct (Rebalance _) as [c1|] eqn:Er; [|done]. intros [= <-] Hg Hhas. eapply Rebalance_keeps; [|exact Er| |]; [done|done|].
  unfold has_group. cbn. rewrite lookup_insert_ne; [done|]. intros ->. destruct Hhas as [x Hx]. congruence.
Qed.

Lemma leave_keeps gid cfg cfg' g :
  glen cfg.(Shards) = NShards → LeaveBalance [gid] cfg = Ret (Some (true, cfg')) →
  g ∈ cfg.(Shards) → has_group cfg g → g ≠ gid → g ∈ cfg'.(Shards).
Proof.
  intros Hlen. unfold LeaveBalance, Leave. cbn [leave_groups]. destruct (cfg.(Groups) !! gid) eqn:Eg; [|done].
  cbn [negb and_rebalance]. destruct (Rebalance _) as [c1|] eqn:Er; [|done]. intros [= <-] Hg Hhas Hne.
  eapply Rebalance_keeps; [|exact Er| |]; [done|done|]. unfold has_group. cbn. by rewrite lookup_delete_ne.
Qed.

(** ** The goroutines *)

(** Where one is: at its [select]; about to start the group it has a number for;
    in [join] before [Query] and before [ChangeConfigTo]; at the check of
    [joinGroups] and at the goroutine's own; in [leave] before [Query] and before
    [ChangeConfigTo]; at the check of [leaveGroups]; returned. *)
Inductive CcPhase :=
  | CcSelect
  | CcStart (gid : Z)
  | CcJoin (gid : Z) | CcJoinChange (gid : Z) (new : ShardConfig)
  | CcJoinCheck (gid : Z) | CcCheck (gid : Z)
  | CcLeave (gid : Z) | CcLeaveChange (gid : Z) (new : ShardConfig)
  | CcLeaveCheck (gid : Z)
  | CcReturned.

Record CcState {W : Type} := mkCcState { cc_w : W; cc_test : Test; cc_clients : list CcPhase }.
Arguments CcState : clear implicits.
Arguments mkCcState {W}.

(** A step of goroutine [i]; [stop]: at its [select] it finds a signal. *)
Inductive CcEvent := CcStep (i : Z) (stop : bool).

(** What is asked of a controller that others may supersede. [ChangeConfigTo]
    changes "the configuration from the current one to new": the current one is
    the one that [new] was made from, with the number before. A controller that
    has been superseded in between "should bail out". *)
Class CtrlerOrder (W : Type) `{ShardCtrler W} : Prop := {
  change_current new w cur : Query w = Some cur → new.(Num) = cur.(Num) + 1 →
    Query (ChangeConfigTo new w) = Some cur ∨ Query (ChangeConfigTo new w) = Some new;
  change_superseded new w cur : Query w = Some cur → new.(Num) ≠ cur.(Num) + 1 →
    Query (ChangeConfigTo new w) = Some cur;
}.

Lemma change_order `{CtrlerOrder W} new w cur : Query w = Some cur →
  Query (ChangeConfigTo new w) = Some cur ∨ (new.(Num) = cur.(Num) + 1 ∧ Query (ChangeConfigTo new w) = Some new).
Proof.
  intros Hq. destruct (decide (new.(Num) = cur.(Num) + 1)) as [Hn|Hn]; [|left; by apply change_superseded].
  destruct (change_current new w cur Hq Hn) as [Hc|Hc]; [by left|by right].
Qed.

Section conc.
Context {W : Type} `{ShardCtrler W}.

(** [JoinBalance] and [LeaveBalance] on a copy; [None]: they do not return. *)
Definition new_config (r : go (option (bool * ShardConfig))) : go (option ShardConfig) :=
  r ← r;
  match r with
  | None => Ret None
  | Some (ok, newcfg) => if negb ok then Fatal else Ret (Some newcfg)
  end.

Definition cc_client (stop : bool) (ph : CcPhase) (w : W) (ts : Test) : go (option (CcPhase * W * Test)) :=
  match ph with
  | CcSelect => if stop then Ret (Some (CcReturned, w, ts)) else let '(gid, ts) := newGid ts in Ret (Some (CcStart gid, w, ts))
  | CcStart gid => Ret (Some (CcJoin gid, w, MakeGroupStart gid ts))
  | CcJoin gid =>
    cfg ← QueryConfig w;
    new ← new_config (JoinBalance [(gid, SrvNames gid)] (Copy cfg));
    Ret ((λ new, (CcJoinChange gid new, w, ts)) <$> (new : option ShardConfig))
  | CcJoinChange gid new => Ret (Some (CcJoinCheck gid, ChangeConfigTo new w, ts))
  | CcJoinCheck gid => _ ← checkMember gid w; Ret (Some (CcCheck gid, w, ts))
  | CcCheck gid => ok ← checkMember gid w; Ret (Some (if ok : bool then CcLeave gid else CcSelect, w, ts))
  | CcLeave gid =>
    cfg ← QueryConfig w;
    new ← new_config (LeaveBalance [gid] (Copy cfg));
    Ret ((λ new, (CcLeaveChange gid new, w, ts)) <$> (new : option ShardConfig))
  | CcLeaveChange gid new => Ret (Some (CcLeaveCheck gid, ChangeConfigTo new w, ts))
  | CcLeaveCheck gid => ok ← checkMember gid w; Ret (Some (CcSelect, w, if ok : bool then ts else ExitGroup gid ts))
  | CcReturned => Ret (Some (ph, w, ts))
  end.

Definition cc_step (o : option (CcState W)) (ev : CcEvent) : go (option (CcState W)) :=
  let '(CcStep i stop) := ev in
  match o with
  | None => Ret None
  | Some s =>
    match s.(cc_clients).[i] with
    | None => Ret (Some s)
    | Some ph =>
      r ← cc_client stop ph s.(cc_w) s.(cc_test);
      Ret ((λ r, let '(ph, w, ts) := r in mkCcState w ts (<[Z.to_nat i := ph]> s.(cc_clients))) <$> (r : option _))
    end
  end.

Definition concurCtrler (n : Z) (w : W) (ts : Test) : CcState W := mkCcState w ts (replicate (Z.to_nat n) CcSelect).
Definition cc_run (n : Z) (w : W) (ts : Test) (evs : list CcEvent) : go (option (CcState W)) :=
  foldM cc_step (Some (concurCtrler n w ts)) evs.
End conc.

(** ** The invariant

    [old] are groups that no goroutine makes leave. *)

Section proof.
Context {W : Type} `{CtrlerOrder W} (old : list Z) (Hold : old ≠ []).
Implicit Types (cfg new : ShardConfig) (gids : list Z) (ts : Test) (s : CcState W) (ph : CcPhase).

(** [cfg0] is [cfg], or was replaced before [cfg] became current. *)
Definition stale cfg0 cfg : Prop := cfg0.(Num) ≤ cfg.(Num) ∧ (cfg0.(Num) = cfg.(Num) → cfg0 = cfg).

(** What a goroutine wants to make current: a configuration that was current,
    and its group. *)
Definition join_from cfg gid new : Prop := ∃ cfg0 gids0,
  stale cfg0 cfg ∧ config_of gids0 cfg0 ∧ new.(Num) = cfg0.(Num) + 1 ∧ config_of (gid :: gids0) new ∧
  ∀ g, g ∈ cfg0.(Shards) → g ∈ new.(Shards).
Definition leave_from cfg gid new : Prop := ∃ cfg0 gids0,
  stale cfg0 cfg ∧ config_of (gid :: gids0) cfg0 ∧ new.(Num) = cfg0.(Num) + 1 ∧ config_of gids0 new ∧
  ∀ g, g ≠ gid → g ∈ cfg0.(Shards) → g ∈ new.(Shards).

Definition phase_gid ph : option Z :=
  match ph with
  | CcSelect | CcReturned => None
  | CcStart gid | CcJoin gid | CcJoinChange gid _ | CcJoinCheck gid | CcCheck gid
  | CcLeave gid | CcLeaveChange gid _ | CcLeaveCheck gid => Some gid
  end.

Definition phase_ok cfg gids ts ph : Prop :=
  match ph with
  | CcSelect | CcReturned => True
  | CcStart gid => gid ∉ gids
  | CcJoin gid => gid ∈ ts.(started) ∧ gid ∉ gids
  | CcJoinChange gid new => gid ∈ ts.(started) ∧ gid ∉ gids ∧ join_from cfg gid new
  | CcJoinCheck gid | CcCheck gid => gid ∈ ts.(started)
  | CcLeave gid => gid ∈ ts.(started) ∧ gid ∈ cfg.(Shards)
  | CcLeaveChange gid new => gid ∈ ts.(started) ∧ gid ∈ cfg.(Shards) ∧ leave_from cfg gid new
  | CcLeaveCheck gid => gid ∈ gids → gid ∈ cfg.(Shards)
  end.

Record cfg_inv cfg gids ts : Prop := {
  ci_cfg : config_of gids cfg;
  ci_old : ∀ g, g ∈ old → g ∈ gids;
  ci_started : ∀ g, g ∈ gids → g ∈ ts.(started);
  ci_lt : ∀ g, g ∈ gids → g < ts.(ngid);
  ci_ngid : 0 ≤ ts.(ngid);
}.

Record cc_inv cfg gids s : Prop := {
  cc_query : Query s.(cc_w) = Some cfg;
  cc_cfg : cfg_inv cfg gids s.(cc_test);
  cc_phase : ∀ i ph, s.(cc_clients).[i] = Some ph → phase_ok cfg gids s.(cc_test) ph;
  cc_gid : ∀ i ph g, s.(cc_clients).[i] = Some ph → phase_gid ph = Some g → 0 ≤ g < s.(cc_test).(ngid) ∧ g ∉ old;
  cc_distinct : ∀ i j p q g, s.(cc_clients).[i] = Some p → s.(cc_clients).[j] = Some q →
    phase_gid p = Some g → phase_gid q = Some g → i = j;
}.

(** What the others need to go on as before, with [g] their group. *)
Record keeps cfg gids ts cfg' gids' ts' (g : Z) : Prop := {
  kp_started : g ∈ ts.(started) → g ∈ ts'.(started);
  kp_out : g ∈ gids' → g ∈ gids;
  kp_member : g ∈ cfg.(Shards) → g ∈ cfg'.(Shards);
  kp_stale : ∀ cfg0, stale cfg0 cfg → stale cfg0 cfg';
}.

Lemma phase_keeps cfg gids ts cfg' gids' ts' ph :
  phase_ok cfg gids ts ph → (∀ g, phase_gid ph = Some g → keeps cfg gids ts cfg' gids' ts' g) → phase_ok cfg' gids' ts' ph.
Proof.
  intros Hph Hk. destruct ph as [|gid|gid|gid new|gid|gid|gid|gid new|gid|]; try done; cbn in *;
    destruct (Hk gid eq_refl) as [Hst Hout Hmem Hsta].
  - auto.
  - destruct Hph. auto.
  - destruct Hph as (? & ? & cfg0 & gids0 & ? & Hrest). split; [auto|]. split; [auto|]. exists cfg0, gids0. auto.
  - auto.
  - auto.
  - destruct Hph. auto.
  - destruct Hph as (? & ? & cfg0 & gids0 & ? & Hrest). split; [auto|]. split; [auto|]. exists cfg0, gids0. auto.
  - auto.
Qed.

(** Client [i] goes to phase [ph']. *)
Lemma inv_set cfg gids s i ph cfg' gids' w' ts' ph' :
  cc_inv cfg gids s → s.(cc_clients).[i] = Some ph →
  Query w' = Some cfg' → cfg_inv cfg' gids' ts' → phase_ok cfg' gids' ts' ph' → s.(cc_test).(ngid) ≤ ts'.(ngid) →
  (∀ g, phase_gid ph' = Some g → phase_gid ph = Some g ∨ (s.(cc_test).(ngid) ≤ g < ts'.(ngid) ∧ g ∉ old)) →
  (∀ j q g, j ≠ i → s.(cc_clients).[j] = Some q → phase_gid q = Some g → phase_gid ph ≠ Some g →
     keeps cfg gids s.(cc_test) cfg' gids' ts' g) →
  cc_inv cfg' gids' (mkCcState w' ts' (<[Z.to_nat i := ph']> s.(cc_clients))).
Proof.
  intros [Hq Hcfg Hph Hgid Hdis] Hi Hq' Hcfg' Hph' Hng Hnew Hkeep. pose proof (zlookup_lt_Some _ _ _ Hi) as Hb.
  assert (0 ≤ s.(cc_test).(ngid)) as Hpos by apply Hcfg.
  assert (∀ g, phase_gid ph' = Some g → 0 ≤ g < ts'.(ngid) ∧ g ∉ old) as Hg'.
  { intros g Hg. destruct (Hnew g Hg) as [Hg0|[? ?]]; [destruct (Hgid i ph g Hi Hg0); split; [lia|done]|split; [lia|done]]. }
  assert (∀ j q g, j ≠ i → s.(cc_clients).[j] = Some q → phase_gid q = Some g → phase_gid ph' ≠ Some g) as Hne.
  { intros j q g Hj Hqj Hg Hg1. destruct (Hnew g Hg1) as [Hg0|[? ?]].
    - apply Hj. by eapply Hdis.
    - destruct (Hgid j q g Hqj Hg). lia. }
  constructor; cbn [cc_w cc_test cc_clients].
  - done.
  - done.
  - intros j q. rewrite zlookup_insert by done. case_decide as Hj; [intros [= <-]; by subst|]. intros Hqj.
    eapply phase_keeps; [by apply (Hph j)|]. intros g Hg. apply (Hkeep j q g); [by intros ->|done|done|].
    intros Hg0. apply Hj. by eapply Hdis.
  - intros j q g. rewrite zlookup_insert by done. case_decide as Hj; [intros [= <-]; by apply Hg'|]. intros Hqj Hg.
    destruct (Hgid j q g Hqj Hg). split; [lia|done].
  - intros j k p q g. rewrite !zlookup_insert by done. repeat case_decide; subst; try done.
    + intros [= <-] Hqk Hg1 Hg2. destruct (Hne k q g ltac:(by intros ->) Hqk Hg2 Hg1).
    + intros Hpj [= <-] Hg1 Hg2. destruct (Hne j p g ltac:(by intros ->) Hpj Hg1 Hg2).
    + apply Hdis.
Qed.

Lemma keeps_refl cfg gids ts ts' g : (g ∈ ts.(started) → g ∈ ts'.(started)) → keeps cfg gids ts cfg gids ts' g.
Proof. by constructor. Qed.

Lemma stale_next cfg new : new.(Num) = cfg.(Num) + 1 → ∀ cfg0, stale cfg0 cfg → stale cfg0 new.
Proof. intros Hn cfg0 [Hle _]. split; [lia|]. intros Heq. lia. Qed.

Lemma member_group cfg gids g : config_of gids cfg → gids ≠ [] → g ∈ cfg.(Shards) → g ∈ gids.
Proof.
  intros Hc Hne Hg. destruct (decide (g ∈ gids)) as [|Hn]; [done|]. pose proof (member_out gids cfg g Hc Hne Hn) as Hm.
  apply IsMember_spec in Hg. congruence.
Qed.

Lemma checkMember_cfg cfg g (w : W) : Query w = Some cfg → checkMember g w = Ret (IsMember g cfg).
Proof. intros Hq. unfold checkMember, QueryConfig. by rewrite Hq. Qed.

Lemma shards_len cfg gids : config_of gids cfg → glen cfg.(Shards) = NShards.
Proof. by intros []. Qed.

(** A change that takes effect was made from the current configuration. *)
Lemma stale_current cfg0 cfg new : stale cfg0 cfg → new.(Num) = cfg0.(Num) + 1 → new.(Num) = cfg.(Num) + 1 → cfg0 = cfg.
Proof. intros [_ Heq] Hn0 Hn1. apply Heq. lia. Qed.

Lemma same_groups cfg gids gids0 g : config_of gids cfg → config_of gids0 cfg → g ∈ gids ↔ g ∈ gids0.
Proof. intros Hc0 Hc1. by rewrite (cf_groups _ _ Hc0), (cf_groups _ _ Hc1). Qed.

Lemma gids_nonempty cfg gids ts : cfg_inv cfg gids ts → gids ≠ [].
Proof. intros [_ Ho _ _ _] ->. destruct old as [|g l]; [done|]. by apply (not_elem_of_nil g), Ho; left. Qed.

(** One step of goroutine [i]. *)
Definition good_step cfg s (r : option (CcPhase * W * Test)) (i : Z) : Prop :=
  match r with
  | None => False
  | Some (ph', w', ts') =>
    ∃ cfg' gids', cfg.(Num) ≤ cfg'.(Num) ∧ cc_inv cfg' gids' (mkCcState w' ts' (<[Z.to_nat i := ph']> s.(cc_clients)))
  end.

Lemma quiet_step cfg gids s i ph ph' :
  cc_inv cfg gids s → s.(cc_clients).[i] = Some ph → phase_ok cfg gids s.(cc_test) ph' →
  (∀ g, phase_gid ph' = Some g → phase_gid ph = Some g) → good_step cfg s (Some (ph', s.(cc_w), s.(cc_test))) i.
Proof.
  intros Hinv Hi Hph' Hg. exists cfg, gids. split; [lia|]. eapply (inv_set cfg gids s i ph); [done|done|apply Hinv|apply Hinv|done|lia| |].
  - auto.
  - intros. by apply keeps_refl.
Qed.

Lemma cc_start_step cfg gids s i gid :
  cc_inv cfg gids s → s.(cc_clients).[i] = Some (CcStart gid) →
  good_step cfg s (Some (CcJoin gid, s.(cc_w), MakeGroupStart gid s.(cc_test))) i.
Proof.
  intros Hinv Hi. pose proof (cc_cfg _ _ _ Hinv) as [Hc Ho Hst Hlt Hng]. pose proof (cc_phase _ _ _ Hinv _ _ Hi) as Hph.
  exists cfg, gids. split; [lia|]. eapply (inv_set cfg gids s i (CcStart gid)); [done|done|apply Hinv| | |cbn; lia| |].
  - constructor; cbn; try done. intros g Hg. apply elem_of_union. right. by apply Hst.
  - cbn in *. split; [|done]. apply elem_of_union. left. by apply elem_of_singleton.
  - auto.
  - intros. apply keeps_refl. cbn. intros ?. apply elem_of_union. by right.
Qed.

Lemma join_query_step cfg gids s i gid stop :
  cc_inv cfg gids s → s.(cc_clients).[i] = Some (CcJoin gid) →
  returns (cc_client stop (CcJoin gid) s.(cc_w) s.(cc_test)) (λ r, good_step cfg s r i).
Proof.
  intros Hinv Hi. pose proof (cc_cfg _ _ _ Hinv) as [Hc Ho Hst Hlt Hng]. pose proof (cc_phase _ _ _ Hinv _ _ Hi) as [Hin Hni].
  destruct (cc_gid _ _ _ Hinv _ _ _ Hi eq_refl) as [Hb _].
  destruct (join_config gids cfg gid Hc Hni) as (new & Hj & Hnum & Hnew); [lia|].
  cbn [cc_client]. unfold QueryConfig. rewrite (cc_query _ _ _ Hinv). cbn [mbind go_bind]. rewrite Copy_id, Hj.
  cbn [new_config mbind go_bind negb]. apply returns_Ret. cbn [fmap option_fmap option_map].
  apply (quiet_step cfg gids s i (CcJoin gid)); [done|done| |done]. cbn. split; [done|]. split; [done|].
  exists cfg, gids. split; [by split; [lia|]|]. split; [done|]. split; [done|]. split; [done|].
  intros g Hg. eapply join_keeps; [exact (shards_len _ _ Hc)|exact Hj|done|]. apply (cf_groups _ _ Hc).
  eapply member_group; [done|exact (gids_nonempty _ _ _ (cc_cfg _ _ _ Hinv))|done].
Qed.

Lemma leave_query_step cfg gids s i gid stop :
  cc_inv cfg gids s → s.(cc_clients).[i] = Some (CcLeave gid) →
  returns (cc_client stop (CcLeave gid) s.(cc_w) s.(cc_test)) (λ r, good_step cfg s r i).
Proof.
  intros Hinv Hi. pose proof (cc_cfg _ _ _ Hinv) as [Hc Ho Hst Hlt Hng]. pose proof (cc_phase _ _ _ Hinv _ _ Hi) as [Hin Hmem].
  destruct (cc_gid _ _ _ Hinv _ _ _ Hi eq_refl) as [Hb Hno].
  assert (gids ≠ []) as Hne by exact (gids_nonempty _ _ _ (cc_cfg _ _ _ Hinv)). pose proof (member_group _ _ _ Hc Hne Hmem) as Hg.
  destruct (elem_of_Permutation gids gid) as [Hp _]. destruct (Hp Hg) as [gids0 Hgids]. clear Hp.
  assert (config_of (gid :: gids0) cfg) as Hc0 by (eapply config_of_perm; [|exact Hc]; done).
  assert (gids0 ≠ []) as Hne0.
  { intros ->. destruct old as [|g l] eqn:Eo; [done|]. assert (g ∈ gids) as Hgg by (apply Ho; left). rewrite Hgids in Hgg.
    apply list_elem_of_singleton in Hgg as ->. apply Hno. left. }
  destruct (leave_config gids0 cfg gid Hc0 Hne0) as (new & Hj & Hnum & Hnew).
  cbn [cc_client]. unfold QueryConfig. rewrite (cc_query _ _ _ Hinv). cbn [mbind go_bind]. rewrite Copy_id, Hj.
  cbn [new_config mbind go_bind negb]. apply returns_Ret. cbn [fmap option_fmap option_map].
  apply (quiet_step cfg gids s i (CcLeave gid)); [done|done| |done]. cbn. split; [done|]. split; [done|].
  exists cfg, gids0. split; [by split; [lia|]|]. split; [done|]. split; [done|]. split; [done|].
  intros g Hgne Hgs. eapply leave_keeps; [exact (shards_len _ _ Hc)|exact Hj|done| |done]. apply (cf_groups _ _ Hc).
  by eapply member_group.
Qed.
Lemma join_change_step cfg gids s i gid new :
  cc_inv cfg gids s → s.(cc_clients).[i] = Some (CcJoinChange gid new) →
  good_step cfg s (Some (CcJoinCheck gid, ChangeConfigTo new s.(cc_w), s.(cc_test))) i.
Proof.
  intros Hinv Hi. pose proof (cc_cfg _ _ _ Hinv) as [Hc Ho Hst Hlt Hng].
  pose proof (cc_phase _ _ _ Hinv _ _ Hi) as (Hin & Hni & cfg0 & gids0 & Hsta & Hc0 & Hnum & Hnew & Hkeep).
  destruct (cc_gid _ _ _ Hinv _ _ _ Hi eq_refl) as [Hb _].
  destruct (change_order new s.(cc_w) cfg (cc_query _ _ _ Hinv)) as [Hq|[Hnext Hq]].
  - exists cfg, gids. split; [lia|]. eapply (inv_set cfg gids s i (CcJoinChange gid new)); [done|done|done|apply Hinv|done|lia| |].
    + auto.
    + intros. by apply keeps_refl.
  - pose proof (stale_current _ _ _ Hsta Hnum Hnext) as ->. assert (∀ g, g ∈ gids ↔ g ∈ gids0) as Hsame by (intros; by eapply same_groups).
    exists new, (gid :: gids0). split; [lia|].
    eapply (inv_set cfg gids s i (CcJoinChange gid new)); [done|done|done| |done|lia| |].
    + constructor; [done| | | |done]; intros g; rewrite elem_of_cons; rewrite <-Hsame; [auto|intros [->|?]; auto..]. lia.
    + auto.
    + intros j q g _ _ _ Hne. constructor; [done| |apply Hkeep|by apply stale_next].
      rewrite elem_of_cons, <-Hsame. intros [->|?]; [by destruct Hne|done].
Qed.

Lemma leave_change_step cfg gids s i gid new :
  cc_inv cfg gids s → s.(cc_clients).[i] = Some (CcLeaveChange gid new) →
  good_step cfg s (Some (CcLeaveCheck gid, ChangeConfigTo new s.(cc_w), s.(cc_test))) i.
Proof.
  intros Hinv Hi. pose proof (cc_cfg _ _ _ Hinv) as [Hc Ho Hst Hlt Hng].
  pose proof (cc_phase _ _ _ Hinv _ _ Hi) as (Hin & Hmem & cfg0 & gids0 & Hsta & Hc0 & Hnum & Hnew & Hkeep).
  destruct (cc_gid _ _ _ Hinv _ _ _ Hi eq_refl) as [Hb Hno].
  destruct (change_order new s.(cc_w) cfg (cc_query _ _ _ Hinv)) as [Hq|[Hnext Hq]].
  - exists cfg, gids. split; [lia|]. eapply (inv_set cfg gids s i (CcLeaveChange gid new)); [done|done|done|apply Hinv|by intros _|lia| |].
    + auto.
    + intros. by apply keeps_refl.
  - pose proof (stale_current _ _ _ Hsta Hnum Hnext) as ->.
    assert (∀ g, g ∈ gids ↔ g = gid ∨ g ∈ gids0) as Hsame by (intros; rewrite <-elem_of_cons; by eapply same_groups).
    assert (gid ∉ gids0) as Hni by (pose proof (cf_nodup _ _ Hc0) as [? _]%NoDup_cons; done).
    exists new, gids0. split; [lia|].
    eapply (inv_set cfg gids s i (CcLeaveChange gid new)); [done|done|done| | |lia| |].
    + constructor; [done| | | |done].
      * intros g Hg. destruct (proj1 (Hsame g) (Ho g Hg)) as [->|?]; done.
      * intros g Hg. apply Hst, Hsame. by right.
      * intros g Hg. apply Hlt, Hsame. by right.
    + by intros ?%Hni.
    + auto.
    + intros j q g _ _ _ Hne. constructor; [done| | |by apply stale_next].
      * intros Hg. apply Hsame. by right.
      * apply Hkeep. intros ->. by destruct Hne.
Qed.

Lemma exit_step cfg gids s i gid :
  cc_inv cfg gids s → s.(cc_clients).[i] = Some (CcLeaveCheck gid) → IsMember gid cfg = false →
  good_step cfg s (Some (CcSelect, s.(cc_w), ExitGroup gid s.(cc_test))) i.
Proof.
  intros Hinv Hi Hm. pose proof (cc_cfg _ _ _ Hinv) as [Hc Ho Hst Hlt Hng]. pose proof (cc_phase _ _ _ Hinv _ _ Hi) as Hph.
  assert (gid ∉ gids) as Hni by (intros Hg%Hph; apply IsMember_spec in Hg; congruence).
  exists cfg, gids. split; [lia|]. eapply (inv_set cfg gids s i (CcLeaveCheck gid)); [done|done|apply Hinv| |done|cbn; lia|done|].
  - constructor; cbn; try done. intros g Hg. apply elem_of_difference. split; [by apply Hst|].
    rewrite elem_of_singleton. by intros ->.
  - intros j q g _ _ _ Hne. apply keeps_refl. cbn. intros Hg. apply elem_of_difference. split; [done|].
    rewrite elem_of_singleton. intros ->. by destruct Hne.
Qed.

Lemma cc_client_good cfg gids s i ph stop :
  cc_inv cfg gids s → s.(cc_clients).[i] = Some ph →
  returns (cc_client stop ph s.(cc_w) s.(cc_test)) (λ r, good_step cfg s r i).
Proof.
  intros Hinv Hi. pose proof (cc_query _ _ _ Hinv) as Hq. pose proof (cc_phase _ _ _ Hinv _ _ Hi) as Hph.
  pose proof (cc_cfg _ _ _ Hinv) as [Hc Ho Hst Hlt Hng].
  destruct ph as [|gid|gid|gid new|gid|gid|gid|gid new|gid|].
  - cbn [cc_client]. destruct stop; [apply returns_Ret; by apply (quiet_step cfg gids s i CcSelect)|].
    apply returns_Ret. cbn [newGid]. set (ts' := mkTest _ _).
    exists cfg, gids. split; [lia|]. eapply (inv_set cfg gids s i CcSelect); [done|done|done| | |cbn; lia| |].
    + constructor; cbn; try done; [|lia]. intros g Hg%Hlt. lia.
    + cbn. intros Hg%Hlt. lia.
    + cbn. intros g [= <-]. right. split; [lia|]. intros Hg%Ho%Hlt. lia.
    + intros. by apply keeps_refl.
  - apply returns_Ret. by apply cc_start_step with gids.
  - by apply join_query_step with gids.
  - apply returns_Ret. by apply join_change_step with gids.
  - cbn [cc_client]. rewrite (checkMember_cfg cfg) by done. apply returns_Ret. by apply (quiet_step cfg gids s i (CcJoinCheck gid)).
  - cbn [cc_client]. rewrite (checkMember_cfg cfg) by done. apply returns_Ret. destruct (IsMember gid cfg) eqn:Hm.
    + apply (quiet_step cfg gids s i (CcCheck gid)); [done|done| |done]. split; [done|]. by apply IsMember_spec.
    + by apply (quiet_step cfg gids s i (CcCheck gid)).
  - by apply leave_query_step with gids.
  - apply returns_Ret. by apply leave_change_step with gids.
  - cbn [cc_client]. rewrite (checkMember_cfg cfg) by done. apply returns_Ret. destruct (IsMember gid cfg) eqn:Hm.
    + by apply (quiet_step cfg gids s i (CcLeaveCheck gid)).
    + by apply exit_step with gids.
  - apply returns_Ret. by apply (quiet_step cfg gids s i CcReturned).
Qed.

Lemma cc_steps evs : ∀ cfg gids s, cc_inv cfg gids s →
  ∃ s' cfg' gids', foldM cc_step (Some s) evs = Ret (Some s') ∧ cfg.(Num) ≤ cfg'.(Num) ∧ cc_inv cfg' gids' s'.
Proof.
  induction evs as [|[i stop] evs IH]; intros cfg gids s Hinv; cbn [foldM].
  { exists s, cfg, gids. split; [done|]. split; [lia|done]. }
  cbn [cc_step]. destruct (s.(cc_clients).[i]) as [ph|] eqn:Hi.
  - destruct (cc_client_good cfg gids s i ph stop Hinv Hi) as (r & -> & Hr). destruct r as [[[ph' w'] ts']|]; [|done].
    destruct Hr as (cfg1 & gids1 & Hle & Hinv1). cbn [mbind go_bind fmap option_fmap option_map].
    destruct (IH cfg1 gids1 _ Hinv1) as (s' & cfg' & gids' & -> & Hle' & Hinv'). exists s', cfg', gids'.
    split; [done|]. split; [lia|done].
  - by apply IH with gids.
Qed.

(** Concurrent controllers, if they satisfy [CtrlerOrder]. Whatever [concurCtrler]'s goroutines do in which
    order, and however often one controller supersedes another, no join or leave
    is fatal and no call dereferences a nil configuration; the current
    configuration always passes [CheckConfig], its number never falls, it still
    has the groups that were there before, and every group in it is running: a
    group is shut down only when no configuration can name it any more. *)
Theorem concurrent_ctrlers_safe n w ts cfg evs :
  Query w = Some cfg → config_of old cfg → 0 ≤ ts.(ngid) → (∀ g, g ∈ old → g ∈ ts.(started) ∧ g < ts.(ngid)) →
  ∃ s cfg' gids, cc_run n w ts evs = Ret (Some s) ∧ Query s.(cc_w) = Some cfg' ∧ config_of gids cfg' ∧
    cfg.(Num) ≤ cfg'.(Num) ∧ (∀ g, g ∈ old → g ∈ gids) ∧ (∀ g, g ∈ gids → g ∈ s.(cc_test).(started)).
Proof.
  intros Hq Hc Hng Hrun.
  destruct (cc_steps evs cfg old (concurCtrler n w ts)) as (s & cfg' & gids & E & Hle & [Hq' [Hc' Ho Hst _ _] _ _ _]).
  - assert (∀ i ph, (concurCtrler n w ts).(cc_clients).[i] = Some ph → ph = CcSelect) as Hsel.
    { intros i ph. unfold zlookup. cbn. case_match; [done|]. by intros [-> _]%lookup_replicate. }
    constructor; [done| | | |].
    + constructor; [done|done| | |done]; intros g Hg; by apply Hrun.
    + by intros i ph ->%Hsel.
    + by intros i ph g ->%Hsel.
    + by intros i j p q g ->%Hsel _ ?.
  - exists s, cfg', gids. done.
Qed.
End proof.
