(* ===== verification/ShardConcWitness.v ===== *)
(** * Concurrent controllers at a concrete run

    Controllers that change the configuration by compare-and-set on its number.
    Two groups join at the same time, and one of the joins is superseded. *)

From S2P Require Import Prelude Names TesterGroup Fnv ShardCfg ShardKv ShardKvWitness ShardConc.

#[local] Instance cas_ctrler : ShardCtrler ShardConfig := {|
  Query := Some;
  ChangeConfigTo new cfg := if new.(Num) =? cfg.(Num) + 1 then new else cfg;
|}.
#[local] Instance cas_order : CtrlerOrder ShardConfig.
Proof.
  constructor; intros new w cur [= ->] Hn; cbn; destruct (Z.eqb_spec (Num new) (Num cur + 1)); [by right|done|done|done].
Qed.

(** Goroutine 0 joins group 2 and makes it leave; goroutine 1's join of group 3
    was made from the same configuration. *)
Definition go_step (i : Z) : CcEvent := CcStep i false.
Definition two_joins : list CcEvent :=
  go_step <$> [0; 1; 0; 1; 0; 1; 0; 1; 0; 0; 1; 1; 0; 0; 0].
Definition two_joins_end : CcState ShardConfig :=
  default (concurCtrler 0 first_cfg first_ts) (result (cc_run 2 first_cfg first_ts two_joins) None).

Lemma concurrent_ctrlers_safe_witness :
  cc_clients two_joins_end = [CcSelect; CcSelect] ∧ Num (cc_w two_joins_end) = 3 ∧
  started (cc_test two_joins_end) = {[1; 3]} ∧ ∃ gids, config_of gids (cc_w two_joins_end).
Proof.
  split; [vm_compute; reflexivity|]. split; [vm_compute; reflexivity|]. split; [vm_compute; reflexivity|].
  destruct (concurrent_ctrlers_safe [1] ltac:(discriminate) 2 first_cfg first_ts first_cfg two_joins)
    as (s & cfg & gids & E & Hq & Hc & _).
  - reflexivity.
  - exact first_config.
  - discriminate.
  - intros g ->%list_elem_of_singleton. split; vm_compute; reflexivity.
  - exists gids. unfold two_joins_end. rewrite E. cbn [result default from_option id]. injection Hq as ->. exact Hc.
Defined.
