(* ===== verification/ShardPart.v ===== *)
(** * A controller that is cut off: [partitionCtrler] of [shardkv1/test.go]

    A goroutine joins a new group and makes it leave, again and again, with one
    controller. The test cuts that controller off, lets a new one recover, checks
    what it finds, and connects the old one again. The goroutine writes [state]
    and [ngid] in steps of their own, since the test reads them without
    synchronisation, and goes on after its controller has been cut off until it
    needs the network. The crash of a shard group that makes the old controller
    stick is why a change may be interrupted; the group itself is not in this
    file. *)

From S2P Require Import Prelude Names TesterGroup Fnv ShardCfg ShardKv ShardConc.

(** ** Recovery

    [BeginChange new] is what an interrupted [ChangeConfigTo new] leaves, once it
    has recorded what it is about to do. *)
Class CtrlerRecovery (W : Type) := {
  BeginChange : ShardConfig → W → W;
  InitController : W → W;
}.

(** A new controller finishes the change that was interrupted, and changes
    nothing if none was. *)
Class RecoveryLaws (W : Type) `{ShardCtrlerLaws W} `{CtrlerRecovery W} : Prop := {
  recover_begun new w : Query (InitController (BeginChange new w)) = Some new;
  recover_changed new w : Query (InitController (ChangeConfigTo new w)) = Query (ChangeConfigTo new w);
  recover_recovered w : Query (InitController (InitController w)) = Query (InitController w);
}.

(** The old controller once the new one has started: it must not change anything. *)
Definition superseded {W} (c : ShardCtrler W) : ShardCtrler W := {| Query := Query; ChangeConfigTo _ w := w |}.

(** ** The goroutine *)

(** Where it is: at the top of its loop; it has assigned [ngid]; in [joinGroups],
    [checkMember] or [leaveGroups]; [checkMember] has returned true; returned. *)
Inductive PcPhase :=
  | PcNew
  | PcNamed (gid : Z)
  | PcIn (ph : CcPhase)
  | PcMember (gid : Z)
  | PcReturned.

Record PcState {W : Type} := mkPcState {
  pc_w : W; pc_test : Test; pc_phase : PcPhase; pc_state : CtrlerState; pc_ngid : Z;
}.
Arguments PcState : clear implicits.
Arguments mkPcState {W}.

Section goroutine.
Context {W : Type} `{ShardCtrler W}.

Definition pc_start (w : W) (ts : Test) : PcState W := mkPcState w ts PcNew STARTED 0.

(** A step inside the calls; where they return, the goroutine goes on. *)
Definition pc_call (ph : CcPhase) (s : PcState W) : go (option (PcState W)) :=
  r ← cc_client false ph s.(pc_w) s.(pc_test);
  Ret ((λ r, let '(ph', w, ts) := r in
    mkPcState w ts
      match ph, ph' with
      | CcCheck gid, CcLeave _ => PcMember gid
      | CcCheck _, _ => PcReturned
      | _, CcSelect => PcNew
      | _, _ => PcIn ph'
      end s.(pc_state) s.(pc_ngid)) <$> (r : option (CcPhase * W * Test))).

Definition pc_step (s : PcState W) : go (option (PcState W)) :=
  match s.(pc_phase) with
  | PcNew => let '(gid, ts) := newGid s.(pc_test) in Ret (Some (mkPcState s.(pc_w) ts (PcNamed gid) s.(pc_state) gid))
  | PcNamed gid => Ret (Some (mkPcState s.(pc_w) s.(pc_test) (PcIn (CcStart gid)) JOIN s.(pc_ngid)))
  | PcIn ph => pc_call ph s
  | PcMember gid => Ret (Some (mkPcState s.(pc_w) s.(pc_test) (PcIn (CcLeave gid)) LEAVE s.(pc_ngid)))
  | PcReturned => Ret (Some s)
  end.

Fixpoint pc_run (k : nat) (s : PcState W) : go (option (PcState W)) :=
  match k with
  | O => Ret (Some s)
  | S k => r ← pc_step s; match (r : option (PcState W)) with None => Ret None | Some s => pc_run k s end
  end.
End goroutine.

(** ** The test *)

Section test.
Context {W : Type} `{ShardCtrler W} `{CtrlerRecovery W}.

(** The controller is cut off: no call of it returns any more. How far it has
    got with the change that it was about to make. *)
Inductive Cut := NotBegun | Begun | Completed.
Definition cut_off (cut : Cut) (s : PcState W) : W :=
  match s.(pc_phase) with
  | PcIn (CcJoinChange _ new) | PcIn (CcLeaveChange _ new) =>
    match cut with
    | NotBegun => s.(pc_w)
    | Begun => BeginChange new s.(pc_w)
    | Completed => ChangeConfigTo new s.(pc_w)
    end
  | _ => s.(pc_w)
  end.

(** The goroutine goes on with up to [j] steps that need no call of its
    controller: a new group number, the assignments to [ngid] and [state], and
    [MakeGroupStart]. *)
Definition local (ph : PcPhase) : bool :=
  match ph with PcNew | PcNamed _ | PcMember _ | PcIn (CcStart _) => true | _ => false end.
Fixpoint pc_local (j : nat) (s : PcState W) : go (option (PcState W)) :=
  match j with
  | O => Ret (Some s)
  | S j =>
    if local s.(pc_phase) then
      r ← pc_step s;
      match (r : option (PcState W)) with None => Ret None | Some s => pc_local j s end
    else Ret (Some s)
  end.

(** The new controller and the checks, up to the reconnection of the old one. *)
Definition recover (num : Z) (w : W) (s : PcState W) : go (option (PcState W)) :=
  let w := InitController w in
  cfg ← QueryConfig w;
  b ← partition_verdict num s.(pc_ngid) s.(pc_state) cfg;
  if (b : bool) then
    r ← leaveGroups [s.(pc_ngid)] s.(pc_test) w;
    Ret ((λ r, mkPcState r.2 r.1.2 s.(pc_phase) s.(pc_state) s.(pc_ngid)) <$> (r : option (bool * Test * W)))
  else Ret (Some (mkPcState w s.(pc_test) s.(pc_phase) s.(pc_state) s.(pc_ngid))).

(** The goroutine makes [k] steps before its controller is cut off, and up to [j]
    more before the test reads [ngid] and [state]. *)
Definition partitionCtrler (k : nat) (cut : Cut) (j : nat) (ts : Test) (w : W) : go (option (PcState W)) :=
  let w := InitController w in
  cfg ← QueryConfig w;
  r ← pc_run k (pc_start w ts);
  match (r : option (PcState W)) with
  | None => Ret None
  | Some s =>
    r ← pc_local j s;
    match (r : option (PcState W)) with
    | None => Ret None
    | Some s' => recover cfg.(Num) (cut_off cut s) s'
    end
  end.
End test.

(** ** The goroutine with its controller *)

Section proof.
Context {W : Type} `{RecoveryLaws W} (old : list Z) (Hold : old ≠ []) (Hroom : glen old < NShards).
Implicit Types (cfg new : ShardConfig) (s : PcState W).

(** There is nothing to recover. *)
Definition settled (w : W) : Prop := Query (InitController w) = Query w.

(** Between two groups: before the first, or after one that left. *)
Definition between num cfg s : Prop :=
  config_of old cfg ∧ (s.(pc_state) = STARTED ∧ cfg.(Num) = num ∨ s.(pc_state) = LEAVE ∧ num < cfg.(Num)).
Definition joining num cfg s : Prop := config_of old cfg ∧ s.(pc_state) = JOIN ∧ num ≤ cfg.(Num).
Definition joined num cfg s (st : CtrlerState) : Prop :=
  config_of (s.(pc_ngid) :: old) cfg ∧ s.(pc_state) = st ∧ num < cfg.(Num).
Definition left_ num cfg s : Prop := config_of old cfg ∧ s.(pc_state) = LEAVE ∧ num < cfg.(Num).

Definition at_phase num cfg s : Prop :=
  match s.(pc_phase) with
  | PcNew => between num cfg s
  | PcNamed gid => gid = s.(pc_ngid) ∧ between num cfg s
  | PcIn (CcStart gid) | PcIn (CcJoin gid) => gid = s.(pc_ngid) ∧ joining num cfg s
  | PcIn (CcJoinChange gid new) =>
    gid = s.(pc_ngid) ∧ joining num cfg s ∧ config_of (gid :: old) new ∧ new.(Num) = cfg.(Num) + 1
  | PcIn (CcJoinCheck gid) | PcIn (CcCheck gid) | PcMember gid => gid = s.(pc_ngid) ∧ joined num cfg s JOIN
  | PcIn (CcLeave gid) => gid = s.(pc_ngid) ∧ joined num cfg s LEAVE
  | PcIn (CcLeaveChange gid new) =>
    gid = s.(pc_ngid) ∧ joined num cfg s LEAVE ∧ config_of old new ∧ new.(Num) = cfg.(Num) + 1
  | PcIn (CcLeaveCheck gid) => gid = s.(pc_ngid) ∧ left_ num cfg s
  | _ => False
  end.

Record pc_inv num cfg s : Prop := {
  pi_query : Query s.(pc_w) = Some cfg;
  pi_settled : settled s.(pc_w);
  pi_gid : s.(pc_phase) ≠ PcNew ∨ s.(pc_state) = LEAVE → 0 ≤ s.(pc_ngid) ∧ s.(pc_ngid) ∉ old;
  pi_next : 0 ≤ s.(pc_test).(ngid) ∧ ∀ g, g ∈ old → g < s.(pc_test).(ngid);
  pi_phase : at_phase num cfg s;
}.

Lemma member_joined cfg gid : config_of (gid :: old) cfg → IsMember gid cfg = true.
Proof. intros Hc. eapply member_in; [exact Hc|rewrite glen_cons; lia|left]. Qed.
Lemma member_left cfg gid : config_of old cfg → gid ∉ old → IsMember gid cfg = false.
Proof. intros Hc. by eapply member_out. Qed.

(** The steps inside the calls. *)
Lemma pc_call_inv num cfg s ph : pc_inv num cfg s → s.(pc_phase) = PcIn ph →
  ∃ s' cfg', pc_call ph s = Ret (Some s') ∧ pc_inv num cfg' s'.
Proof.
  destruct s as [w ts p st gid0]. intros [Hq Hset Hgid Hlt Hph] E. cbn [pc_w pc_test pc_phase pc_state pc_ngid] in *.
  subst p. assert (0 ≤ gid0 ∧ gid0 ∉ old) as [Hpos Hno] by (apply Hgid; by left). unfold pc_call. cbn [pc_w pc_test pc_state pc_ngid].
  cbn in Hph.
  destruct ph as [|gid|gid|gid new|gid|gid|gid|gid new|gid|]; try done; destruct Hph as [-> Hph]; cbn [cc_client].
  - eexists _, cfg. split; [reflexivity|]. constructor; cbn; done.
  - destruct Hph as (Hc & Hst & Hn). destruct (join_config old cfg gid0 Hc Hno Hpos) as (new & Hj & Hnum & Hnew).
    unfold QueryConfig. rewrite Hq. cbn [mbind go_bind]. rewrite Copy_id, Hj. cbn [new_config mbind go_bind negb fmap option_fmap option_map].
    eexists _, cfg. split; [reflexivity|]. constructor; cbn; done.
  - destruct Hph as ((Hc & Hst & Hn) & Hnew & Hnum). cbn [mbind go_bind fmap option_fmap option_map].
    eexists _, new. split; [reflexivity|]. constructor; cbn [pc_w pc_test pc_phase pc_state pc_ngid];
      [apply Query_ChangeConfigTo|apply recover_changed|done|done|]. split; [done|]. split; [done|]. split; [done|cbn in *; lia].
  - unfold checkMember, QueryConfig. rewrite Hq. cbn [mbind go_bind fmap option_fmap option_map].
    eexists _, cfg. split; [reflexivity|]. constructor; cbn; done.
  - pose proof (member_joined cfg gid0 (proj1 Hph)) as Hm. unfold checkMember, QueryConfig. rewrite Hq.
    cbn [mbind go_bind]. rewrite Hm. cbn [mbind go_bind fmap option_fmap option_map].
    eexists _, cfg. split; [reflexivity|]. constructor; cbn; done.
  - destruct Hph as (Hc & Hst & Hn). cbn [pc_ngid] in Hc. destruct (leave_config old cfg gid0 Hc Hold) as (new & Hj & Hnum & Hnew).
    unfold QueryConfig. rewrite Hq. cbn [mbind go_bind]. rewrite Copy_id, Hj. cbn [new_config mbind go_bind negb fmap option_fmap option_map].
    eexists _, cfg. split; [reflexivity|]. constructor; cbn; done.
  - destruct Hph as ((Hc & Hst & Hn) & Hnew & Hnum). cbn [mbind go_bind fmap option_fmap option_map].
    eexists _, new. split; [reflexivity|]. constructor; cbn [pc_w pc_test pc_phase pc_state pc_ngid];
      [apply Query_ChangeConfigTo|apply recover_changed|done|done|]. split; [done|]. split; [done|]. split; [done|cbn in *; lia].
  - pose proof (member_left cfg gid0 (proj1 Hph) Hno) as Hm. unfold checkMember, QueryConfig. rewrite Hq.
    cbn [mbind go_bind]. rewrite Hm. cbn [mbind go_bind fmap option_fmap option_map].
    eexists _, cfg. split; [reflexivity|]. constructor; cbn; [done|done|done|done|]. destruct Hph as (Hc & Hst & Hn). split; [done|]. by right.
Qed.

Lemma pc_step_inv num cfg s : pc_inv num cfg s →
  ∃ s' cfg', pc_step s = Ret (Some s') ∧ pc_inv num cfg' s'.
Proof.
  destruct s as [w ts ph st gid0]. intros [Hq Hset Hgid [Hng Hlt] Hph]. cbn [pc_w pc_test pc_phase pc_state pc_ngid] in *.
  unfold pc_step. cbn [pc_w pc_test pc_phase pc_state pc_ngid].
  destruct ph as [|gid|ph|gid|]; cbn in Hph; [| | | |done].
  - eexists _, cfg. split; [reflexivity|]. constructor; cbn; [done|done| |split; [lia|intros g Hg%Hlt; lia]|done].
    intros _. split; [done|]. intros Hg%Hlt. lia.
  - destruct Hph as [-> [Hc Hst]]. eexists _, cfg. split; [reflexivity|].
    constructor; cbn; [done|done|intros _; apply Hgid; by left|done|]. split; [done|]. split; [done|]. split; [done|].
    destruct Hst as [[_ ->]|[_ ?]]; lia.
  - by apply (pc_call_inv num cfg (mkPcState w ts (PcIn ph) st gid0)).
  - destruct Hph as [-> (Hc & Hst & Hn)]. eexists _, cfg. split; [reflexivity|].
    constructor; cbn; [done|done|intros _; apply Hgid; by left|done|done].
Qed.

Lemma pc_run_inv num k : ∀ cfg s, pc_inv num cfg s → ∃ s' cfg', pc_run k s = Ret (Some s') ∧ pc_inv num cfg' s'.
Proof.
  induction k as [|k IH]; intros cfg s Hs; cbn [pc_run]; [by exists s, cfg|].
  destruct (pc_step_inv num cfg s Hs) as (s1 & cfg1 & -> & Hs1). cbn [mbind go_bind]. by apply (IH cfg1).
Qed.

(** ** What the new controller finds *)

(** Where the goroutine may be when the test looks. *)
Definition recoverable (cut : Cut) s : bool :=
  match s.(pc_phase) with
  | PcNew | PcNamed _ => bool_decide (s.(pc_state) = LEAVE)
  | PcIn (CcJoinChange _ _) | PcIn (CcLeaveChange _ _) => match cut with NotBegun => false | _ => true end
  | PcIn (CcJoinCheck _) | PcIn (CcCheck _) | PcIn (CcLeaveCheck _) | PcMember _ => true
  | _ => false
  end.

(** The group of the goroutine is out of the configuration again. *)
Definition recovered num s s' : Prop := ∃ cfg,
  Query s'.(pc_w) = Some cfg ∧ config_of old cfg ∧ num < cfg.(Num) ∧
  s'.(pc_phase) = s.(pc_phase) ∧ s'.(pc_ngid) = s.(pc_ngid) ∧ s'.(pc_test).(ngid) = s.(pc_test).(ngid).

Lemma recover_joined num cfg w s :
  Query (InitController w) = Some cfg → joined num cfg s JOIN →
  ∃ s', recover num w s = Ret (Some s') ∧ recovered num s s'.
Proof.
  intros Hq (Hc & Hst & Hn). unfold recover, QueryConfig. rewrite Hq. cbn [mbind go_bind].
  unfold partition_verdict. rewrite (member_joined _ _ Hc), Hst. replace (cfg.(Num) <=? num) with false by lia.
  destruct (leaveGroups_run [s.(pc_ngid)] old s.(pc_test) (InitController w) cfg) as (w' & cfg' & st & E & _ & Hq' & Hn' & Hc'); [done..|].
  assert (bool_decide (JOIN = JOIN) = true) as Hj by done. assert (bool_decide (JOIN = LEAVE) = false) as Hl by done.
  rewrite ?Hj, ?Hl. cbn [negb andb orb mbind go_bind]. rewrite E. cbn [mbind go_bind fmap option_fmap option_map].
  eexists. split; [reflexivity|]. exists cfg'. change (glen [pc_ngid s]) with 1 in Hn'.
  split; [done|]. split; [done|]. split; [lia|done].
Qed.

Lemma recover_left num cfg w s :
  Query (InitController w) = Some cfg → left_ num cfg s → s.(pc_ngid) ∉ old →
  ∃ s', recover num w s = Ret (Some s') ∧ recovered num s s'.
Proof.
  intros Hq (Hc & Hst & Hn) Hno. unfold recover, QueryConfig. rewrite Hq. cbn [mbind go_bind].
  unfold partition_verdict. rewrite (member_left _ _ Hc Hno), Hst. replace (cfg.(Num) <=? num) with false by lia.
  eexists. split; [reflexivity|]. exists cfg. done.
Qed.

Lemma recover_stuck num cfg w s :
  Query (InitController w) = Some cfg →
  cfg.(Num) ≤ num ∨ (s.(pc_state) = JOIN ∧ IsMember s.(pc_ngid) cfg = false) ∨ (s.(pc_state) = LEAVE ∧ IsMember s.(pc_ngid) cfg = true) →
  recover num w s = Fatal.
Proof.
  intros Hq Hs. unfold recover, QueryConfig. rewrite Hq. cbn [mbind go_bind]. unfold partition_verdict.
  destruct (Z.leb_spec cfg.(Num) num); [done|]. destruct Hs as [?|[[-> ->]|[-> ->]]]; [lia|done|done].
Qed.

Lemma recover_cut num cfg s cut : pc_inv num cfg s →
  if recoverable cut s then ∃ s', recover num (cut_off cut s) s = Ret (Some s') ∧ recovered num s s'
  else recover num (cut_off cut s) s = Fatal.
Proof.
  intros [Hq Hset Hgid _ Hph]. assert (Query (InitController s.(pc_w)) = Some cfg) as Hq0 by (by rewrite Hset).
  unfold recoverable, cut_off. unfold at_phase in Hph. destruct s as [w ts ph st gid0]; cbn [pc_w pc_test pc_phase pc_state pc_ngid] in *.
  destruct ph as [|gid|ph|gid|]; try done.
  - destruct Hph as [Hc [[Hs Hn]|[Hs Hn]]]; cbn in Hs; subst st.
    + apply recover_stuck with cfg; [done|]. left. cbn in *. lia.
    + apply recover_left with cfg; [done|by split|]. apply Hgid. by right.
  - destruct Hph as [-> [Hc [[Hs Hn]|[Hs Hn]]]]; cbn in Hs; subst st.
    + apply recover_stuck with cfg; [done|]. left. cbn in *. lia.
    + apply recover_left with cfg; [done|by split|]. apply Hgid. by left.
  - assert (gid0 ∉ old) as Hno by (apply Hgid; by left).
    assert (joining num cfg (mkPcState w ts (PcIn ph) st gid0) → recover num w (mkPcState w ts (PcIn ph) st gid0) = Fatal) as Hjoin.
    { intros (Hc & Hst & _). apply recover_stuck with cfg; [done|]. right. left. split; [done|]. by apply member_left. }
    assert (joined num cfg (mkPcState w ts (PcIn ph) st gid0) LEAVE → recover num w (mkPcState w ts (PcIn ph) st gid0) = Fatal) as Hleave.
    { intros (Hc & Hst & _). apply recover_stuck with cfg; [done|]. right. right. split; [done|]. by apply member_joined. }
    destruct ph as [|gid|gid|gid new|gid|gid|gid|gid new|gid|]; try done; destruct Hph as [-> Hph].
    + by apply Hjoin.
    + by apply Hjoin.
    + destruct Hph as ((Hc & Hst & Hn) & Hnew & Hnum). destruct cut; [by apply Hjoin|..].
      all: apply recover_joined with new; [apply recover_begun || (rewrite recover_changed; apply Query_ChangeConfigTo)|].
      all: split; [done|]; split; [done|]; cbn in *; lia.
    + by apply recover_joined with cfg.
    + by apply recover_joined with cfg.
    + by apply Hleave.
    + destruct Hph as ((Hc & Hst & Hn) & Hnew & Hnum). destruct cut; [by apply Hleave|..].
      all: apply recover_left with new; [apply recover_begun || (rewrite recover_changed; apply Query_ChangeConfigTo)| |done].
      all: split; [done|]; split; [done|]; cbn in *; lia.
    + by apply recover_left with cfg.
  - destruct Hph as [-> Hph]. by apply recover_joined with cfg.
Qed.

(** *** The goroutine without its controller *)

Lemma pc_local_run j : ∀ s, ∃ i, (i ≤ j)%nat ∧ pc_local j s = pc_run i s.
Proof.
  induction j as [|j IH]; intros s; [by exists O|]. cbn [pc_local]. destruct (local s.(pc_phase)); [|by exists O; split; [lia|]].
  destruct (pc_step s) as [[s1|]| |] eqn:E; cbn [mbind go_bind].
  - destruct (IH s1) as (i & Hi & E1). exists (S i). split; [lia|]. cbn [pc_run]. by rewrite E.
  - exists 1%nat. split; [lia|]. cbn [pc_run]. by rewrite E.
  - exists 1%nat. split; [lia|]. cbn [pc_run]. by rewrite E.
  - exists 1%nat. split; [lia|]. cbn [pc_run]. by rewrite E.
Qed.

(** It makes no change, and announces a join or a leave. *)
Definition no_change (ph : PcPhase) : bool :=
  match ph with PcIn (CcJoinChange _ _) | PcIn (CcLeaveChange _ _) => false | _ => true end.
Definition local_left (ph : PcPhase) : nat :=
  match ph with PcNew => 3 | PcNamed _ => 2 | PcIn (CcStart _) | PcMember _ => 1 | _ => 0 end.

Lemma local_step s : local s.(pc_phase) = true → ∃ s', pc_step s = Ret (Some s') ∧ s'.(pc_w) = s.(pc_w) ∧
  no_change s'.(pc_phase) = true ∧ local_left s.(pc_phase) = S (local_left s'.(pc_phase)) ∧
  (local s'.(pc_phase) = false → ∃ gid, s'.(pc_phase) = PcIn (CcJoin gid) ∨ s'.(pc_phase) = PcIn (CcLeave gid)).
Proof.
  destruct s as [w ts ph st gid0]. cbn [pc_phase]. intros Hl. unfold pc_step. cbn [pc_phase pc_w pc_test pc_state pc_ngid].
  destruct ph as [|gid|ph|gid|]; try done; [..|by eexists; repeat split; eauto].
  - by eexists.
  - by eexists.
  - destruct ph as [|gid|gid|gid new|gid|gid|gid|gid new|gid|]; try done. eexists. split; [reflexivity|].
    split_and!; [done..|]. intros _. exists gid. by left.
Qed.

Lemma pc_local_spec j : ∀ s, ∃ s', pc_local j s = Ret (Some s') ∧
  (if local s.(pc_phase) then s'.(pc_w) = s.(pc_w) ∧ no_change s'.(pc_phase) = true ∧
     ((local_left s.(pc_phase) ≤ j)%nat → ∃ gid, s'.(pc_phase) = PcIn (CcJoin gid) ∨ s'.(pc_phase) = PcIn (CcLeave gid))
   else s' = s).
Proof.
  induction j as [|j IH]; intros s; cbn [pc_local].
  { exists s. split; [done|]. destruct (local s.(pc_phase)) eqn:Hl; [|done]. split; [done|].
    destruct (pc_phase s) as [| |[]| |] eqn:Hp; try done; (split; [done|]); cbn; lia. }
  destruct (local s.(pc_phase)) eqn:Hl; [|by exists s].
  destruct (local_step s Hl) as (s1 & -> & Hw & Hc & Hleft & Hend). cbn [mbind go_bind].
  destruct (IH s1) as (s' & E & Hs'). exists s'. split; [exact E|]. destruct (local s1.(pc_phase)) eqn:Hl1.
  - destruct Hs' as (Hw' & Hc' & Hend'). split; [congruence|]. split; [done|]. intros Hj. apply Hend'. lia.
  - subst s'. split; [done|]. split; [done|]. intros _. by apply Hend.
Qed.

Lemma cut_off_local cut j s s' : pc_local j s = Ret (Some s') → cut_off cut s' = cut_off cut s.
Proof.
  intros E. destruct (pc_local_spec j s) as (s1 & E1 & Hs). rewrite E in E1. injection E1 as <-.
  destruct (local s.(pc_phase)) eqn:Hl; [|by subst]. destruct Hs as (Hw & Hc & _). unfold cut_off.
  destruct s as [w ts ph st gid0], s' as [w' ts' ph' st' gid0']. cbn [pc_w pc_phase] in *. subst w'.
  destruct ph as [| |[]| |]; try done; destruct ph' as [| |[]| |]; done.
Qed.

(** ** The old controller after its reconnection *)

Definition phase_group (ph : PcPhase) : option Z :=
  match ph with
  | PcNew | PcReturned => None
  | PcNamed gid | PcMember gid => Some gid
  | PcIn ph => phase_gid ph
  end.

(** Steps to its return; none where it goes on with [leave]. *)
Definition to_return (ph : PcPhase) : option nat :=
  match ph with
  | PcReturned => Some 0%nat
  | PcIn (CcCheck _) => Some 1%nat
  | PcIn (CcJoinCheck _) => Some 2%nat
  | PcIn (CcJoinChange _ _) => Some 3%nat
  | PcIn (CcJoin _) => Some 4%nat
  | PcIn (CcStart _) => Some 5%nat
  | PcNamed _ => Some 6%nat
  | PcNew => Some 7%nat
  | PcIn (CcLeaveCheck _) => Some 8%nat
  | PcIn (CcLeaveChange _ _) => Some 9%nat
  | _ => None
  end.

Record idle cfg k s : Prop := {
  id_query : Query s.(pc_w) = Some cfg;
  id_cfg : config_of old cfg;
  id_next : 0 ≤ s.(pc_test).(ngid) ∧ ∀ g, g ∈ old → g < s.(pc_test).(ngid);
  id_group : ∀ g, phase_group s.(pc_phase) = Some g → 0 ≤ g ∧ g ∉ old;
  id_steps : to_return s.(pc_phase) = Some k;
}.

Lemma idle_step cfg k s : idle cfg k s →
  ∃ s', pc_step (H := superseded H) s = Ret (Some s') ∧ s'.(pc_w) = s.(pc_w) ∧ idle cfg (pred k) s'.
Proof.
  destruct s as [w ts ph st gid0]. intros [Hq Hc [Hng Hlt] Hg Hk]. cbn [pc_w pc_test pc_phase pc_state pc_ngid] in *.
  assert (∀ gid, gid ∉ old → @checkMember W (superseded H) gid w = Ret false) as Hcheck.
  { intros gid Hni. unfold checkMember, QueryConfig. change (@Query W (superseded H) w) with (Query w). rewrite Hq.
    cbn [mbind go_bind]. by rewrite (member_left cfg). }
  unfold pc_step. cbn [pc_w pc_test pc_phase pc_state pc_ngid].
  destruct ph as [|gid|ph|gid|]; try done.
  - injection Hk as <-. eexists. split; [reflexivity|]. split; [done|]. constructor; cbn; [done|done|split; [lia|intros g ?%Hlt; lia]| |done].
    intros g [= <-]. split; [done|]. intros ?%Hlt. lia.
  - injection Hk as <-. eexists. split; [reflexivity|]. split; [done|]. by constructor.
  - assert (∀ g, phase_gid ph = Some g → 0 ≤ g ∧ g ∉ old) as Hgid by exact Hg. unfold pc_call. cbn [pc_w pc_test pc_state pc_ngid].
    destruct ph as [|gid|gid|gid new|gid|gid|gid|gid new|gid|]; try done; injection Hk as <-;
      destruct (Hgid gid eq_refl) as [Hpos Hno]; cbn [cc_client].
    + eexists. split; [reflexivity|]. split; [done|]. by constructor.
    + destruct (join_config old cfg gid Hc Hno Hpos) as (new & Hj & _ & _). unfold QueryConfig.
      change (@Query W (superseded H) w) with (Query w). rewrite Hq. cbn [mbind go_bind]. rewrite Copy_id, Hj.
      cbn [new_config mbind go_bind negb fmap option_fmap option_map].
      eexists. split; [reflexivity|]. split; [done|]. by constructor.
    + eexists. split; [reflexivity|]. split; [done|]. by constructor.
    + rewrite Hcheck by done. eexists. split; [reflexivity|]. split; [done|]. by constructor.
    + rewrite Hcheck by done. eexists. split; [reflexivity|]. split; [done|]. by constructor.
    + eexists. split; [reflexivity|]. split; [done|]. by constructor.
    + rewrite Hcheck by done. eexists. split; [reflexivity|]. split; [done|]. by constructor.
  - injection Hk as <-. eexists. split; [reflexivity|]. split; [done|]. by constructor.
Qed.

Lemma idle_run cfg m : ∀ k s, idle cfg k s →
  ∃ s', pc_run (H := superseded H) m s = Ret (Some s') ∧ s'.(pc_w) = s.(pc_w) ∧ idle cfg (k - m) s'.
Proof.
  induction m as [|m IH]; intros k s Hs; cbn [pc_run].
  - exists s. by rewrite Nat.sub_0_r.
  - destruct (idle_step cfg k s Hs) as (s1 & -> & Hw & Hs1). cbn [mbind go_bind].
    destruct (IH _ _ Hs1) as (s2 & E & Hw2 & Hs2). exists s2. split; [done|]. split; [congruence|].
    by replace (k - S m)%nat with (pred k - m)%nat by lia.
Qed.

Lemma absent_leave cfg gid : cfg.(Groups) !! gid = None → ∃ c, LeaveBalance [gid] cfg = Ret (Some (false, c)).
Proof. intros Hg. unfold LeaveBalance, Leave. cbn. rewrite Hg. by eexists. Qed.

(** What a recovered test leaves lets the old controller return, from wherever
    [to_return] says. *)
Lemma recovered_idle num cfg s s' k : pc_inv num cfg s → recovered num s s' → to_return s.(pc_phase) = Some k →
  ∃ cfg', idle cfg' k s'.
Proof.
  intros [_ _ Hgid Hnext Hph] (cfg' & Hq & Hc & _ & Hp & Hg & Hn) Hk. exists cfg'. constructor; [done|done|by rewrite Hn| |by rewrite Hp].
  intros g. rewrite Hp. intros Hg'.
  assert (s.(pc_phase) ≠ PcNew) as Hne by (intros E; by rewrite E in Hg').
  assert (g = s.(pc_ngid)) as ->; [|by apply Hgid; left].
  unfold at_phase in Hph. destruct s.(pc_phase) as [|gid|ph|gid|]; try done; [destruct Hph as [-> _]; by injection Hg' as <-|].
  destruct ph; try done; destruct Hph as [-> _]; by injection Hg' as <-.
Qed.

Lemma recovered_member num cfg s s' gid : pc_inv num cfg s → recovered num s s' → s.(pc_phase) = PcMember gid →
  pc_run (H := superseded H) 2 s' = Fatal.
Proof.
  intros [_ _ Hgid _ Hph] (cfg' & Hq & Hc & _ & Hp & _ & _) E. rewrite E in *. unfold at_phase in Hph. rewrite E in Hph.
  destruct Hph as [-> _]. cbn [pc_run].
  assert (pc_step (H := superseded H) s' = Ret (Some (mkPcState s'.(pc_w) s'.(pc_test) (PcIn (CcLeave s.(pc_ngid))) LEAVE s'.(pc_ngid)))) as ->
    by (unfold pc_step; by rewrite Hp).
  cbn [mbind go_bind]. unfold pc_step, pc_call. cbn [pc_phase pc_w pc_test cc_client]. unfold QueryConfig.
  change (@Query W (superseded H) (pc_w s')) with (Query (pc_w s')). rewrite Hq. cbn [mbind go_bind].
  destruct (absent_leave cfg' s.(pc_ngid)) as [c Hl].
  { destruct (cfg'.(Groups) !! s.(pc_ngid)) eqn:Eg; [|done]. destruct Hgid as [_ []]; [by left|]. apply (cf_groups _ _ Hc). by eexists. }
  rewrite Copy_id, Hl. done.
Qed.

(** C30. A controller that is cut off. Let the goroutine have made [k] steps by
    then, and make up to [j] more without its controller before the test reads
    [ngid] and [state]. It has not failed; and the new controller recovers and the
    test goes on exactly if the goroutine is then in a change that was begun or
    completed, between a change and its check, between two groups and has not
    announced the next, or has found its group a member and not announced the
    leave; the configuration is then correct, without the goroutine's group and
    with a greater number. Otherwise the test fails. In particular it fails, if
    the goroutine has time for three steps, wherever it was outside a call of its
    controller: it announces a join or a leave that it cannot begin. Connected
    again, the superseded controller's goroutine returns within nine steps and
    changes no configuration, unless it has just found its group a member: then
    the group's second leave ends the test. *)
Theorem partition_recovers k cut j ts w cfg :
  Query (InitController w) = Some cfg → config_of old cfg → 0 ≤ ts.(ngid) → (∀ g, g ∈ old → g < ts.(ngid)) →
  ∃ s0 s, pc_run k (pc_start (InitController w) ts) = Ret (Some s0) ∧ pc_local j s0 = Ret (Some s) ∧
  (local s0.(pc_phase) = true → (3 ≤ j)%nat → recoverable cut s = false) ∧
  if recoverable cut s then
    ∃ s', partitionCtrler k cut j ts w = Ret (Some s') ∧ recovered cfg.(Num) s s' ∧
      match to_return s.(pc_phase) with
      | Some n => ∀ m, (n ≤ m)%nat → ∃ s'', pc_run (H := superseded H) m s' = Ret (Some s'') ∧
                    s''.(pc_phase) = PcReturned ∧ s''.(pc_w) = s'.(pc_w)
      | None => pc_run (H := superseded H) 2 s' = Fatal
      end
  else partitionCtrler k cut j ts w = Fatal.
Proof.
  intros Hq Hc Hng Hlt.
  destruct (pc_run_inv cfg.(Num) k cfg (pc_start (InitController w) ts)) as (s0 & cfg0 & E0 & Hs0).
  { constructor; [done|apply recover_recovered|by intros [?|?]|done|]. split; [done|]. by left. }
  destruct (pc_local_run j s0) as (i & _ & Ei).
  destruct (pc_run_inv cfg.(Num) i cfg0 s0 Hs0) as (s & cfg1 & E & Hs). rewrite <-Ei in E.
  exists s0, s. split; [done|]. split; [done|]. split.
  { intros Hl Hj. destruct (pc_local_spec j s0) as (s1 & E1 & Hs1). rewrite E in E1. injection E1 as <-. rewrite Hl in Hs1.
    destruct Hs1 as (_ & _ & Hend). unfold recoverable. destruct Hend as [gid [-> | ->]]; [|done..].
    destruct s0.(pc_phase) as [| |[]| |]; cbn; lia. }
  unfold partitionCtrler, QueryConfig. rewrite Hq. cbn [mbind go_bind]. rewrite E0. cbn [mbind go_bind]. rewrite E. cbn [mbind go_bind].
  rewrite <-(cut_off_local cut j s0 s E). clear E0 E Ei.
  pose proof (recover_cut cfg.(Num) cfg1 s cut Hs) as Hr. destruct (recoverable cut s) eqn:Hb; [|done].
  destruct Hr as (s' & Er & Hs'). exists s'. split; [done|]. split; [done|].
  destruct (to_return s.(pc_phase)) as [n|] eqn:Hn.
  - intros m Hm. destruct (recovered_idle _ _ _ _ _ Hs Hs' Hn) as [cfg' Hi].
    destruct (idle_run cfg' m n s' Hi) as (s2 & E2 & Hw & Hi2). exists s2. split; [done|]. split; [|done].
    replace (n - m)%nat with O in Hi2 by lia. pose proof (id_steps _ _ _ Hi2) as Hz. clear -Hz.
    destruct s2.(pc_phase) as [| |[]| |]; done.
  - unfold recoverable in Hb. destruct s.(pc_phase) as [|gid|ph|gid|] eqn:Hp; try done.
    + by destruct ph.
    + by eapply recovered_member.
Qed.
End proof.
