(* ===== verification/ShardPartWitness.v ===== *)
(** * A controller that is cut off, at concrete runs

    A controller that keeps the current configuration and the one it is changing
    to. It is cut off in the middle of a leave, and right after the goroutine
    found its group a member. *)

From S2P Require Import Prelude Names TesterGroup Fnv ShardCfg ShardKv ShardKvWitness ShardConc ShardPart.

Definition TwoConfigs : Type := ShardConfig * option ShardConfig.
#[local] Instance two_ctrler : ShardCtrler TwoConfigs := {|
  Query w := Some w.1;
  ChangeConfigTo new _ := (new, None);
|}.
#[local] Instance two_recovery : CtrlerRecovery TwoConfigs := {|
  BeginChange new w := (w.1, Some new);
  InitController w := (default w.1 w.2, None);
|}.
#[local] Instance two_ctrler_laws : ShardCtrlerLaws TwoConfigs.
Proof. by constructor. Qed.
#[local] Instance two_recovery_laws : RecoveryLaws TwoConfigs.
Proof. by constructor. Qed.

Definition cut_in_leave : PcState TwoConfigs :=
  default (pc_start (first_cfg, None) first_ts) (result (pc_run 9 (pc_start (first_cfg, None) first_ts)) None).

Lemma partition_recovers_witness :
  recoverable Begun cut_in_leave = true ∧ cut_in_leave.(pc_state) = LEAVE ∧ cut_in_leave.(pc_ngid) = 2 ∧
  ∃ s' cfg, partitionCtrler 9 Begun 5 first_ts (first_cfg, None) = Ret (Some s') ∧
    Query s'.(pc_w) = Some cfg ∧ config_of [1] cfg ∧ 1 < cfg.(Num).
Proof.
  split; [vm_compute; reflexivity|]. split; [vm_compute; reflexivity|]. split; [vm_compute; reflexivity|].
  destruct (partition_recovers [1] ltac:(discriminate) ltac:(reflexivity) 9 Begun 5 first_ts (first_cfg, None) first_cfg)
    as (s0 & s & E0 & E & _ & Hs).
  - reflexivity.
  - exact first_config.
  - discriminate.
  - intros g ->%list_elem_of_singleton. vm_compute. reflexivity.
  - assert (s0 = cut_in_leave) as Es0
      by (unfold cut_in_leave; change (pc_run 9 (pc_start (first_cfg, None) first_ts) = Ret (Some s0)) in E0; by rewrite E0).
    assert (s = cut_in_leave) as Es.
    { rewrite Es0 in E. assert (pc_local 5 cut_in_leave = Ret (Some cut_in_leave)) as E' by (vm_compute; reflexivity). congruence. }
    clear E0 E Es0. destruct (recoverable Begun s) eqn:Hb; [|rewrite Es in Hb; vm_compute in Hb; discriminate Hb]. clear Hb Es.
    destruct Hs as (s' & E' & (cfg & Hq & Hc & Hn & _) & _). exists s', cfg. split; [exact E'|]. split; [exact Hq|]. split; [exact Hc|exact Hn].
Defined.

(** Cut off after it found group 2 a member. If the test looks before the
    goroutine has announced the leave, it lets the group leave, and the old
    controller's goroutine then ends the process; if it looks later, it fails. *)
Lemma cut_at_member :
  (λ s' : PcState TwoConfigs, (IsMember 2 s'.(pc_w).1, pc_run (H := superseded two_ctrler) 2 s')) <$>
    result (partitionCtrler 7 NotBegun 0 first_ts (first_cfg, None : option ShardConfig)) None = Some (false, Fatal) ∧
  partitionCtrler 7 NotBegun 1 first_ts (first_cfg, None : option ShardConfig) = Fatal.
Proof. split; vm_compute; reflexivity. Qed.
