(* ===== verification/Annotation.v ===== *)
(** * Annotations of a test run: [tester1/annotation.go], [tester1/annotator.go]

    What the tester records for the visualisation of a run: points, intervals
    and, for each tag, one continuous annotation that lasts until it is replaced
    or ended. The package's global variables [annotation] and [finfo] are the
    record [World]; every function takes the clock's value where the code calls
    [timestamp]. A nil [finfo] panics.

    The theorem is about the network failures shown. The code keeps the state of
    connections and crashes in [finfo] and one continuous annotation with the
    tag [TAG_PARTITION]; at every moment of the run the annotations show exactly
    what a replay of the calls on two flags for each server says. *)

From S2P Require Import Prelude Names.

(** [porcupine.Annotation], the fields the code sets. *)
Record Ann := mkAnn {
  Tag : string; Start : Z; End_ : Z;
  Description : string; Details : string; BackgroundColor : string;
}.

Record Continuous := mkCont { start : Z; desp : string; details : string; bgcolor : string }.

(** The zero value a failed map lookup returns. *)
Definition zero_Continuous : Continuous := mkCont 0 "" "" "".

Record Annotation := mkAnnotation {
  annotations : list Ann;
  continuous : gmap string Continuous;
  finalized : bool;
}.

Record CheckerBegin := mkCheckerBegin { ck_ts : Z; ck_details : string }.

Record FrameworkInfo := mkFinfo {
  nservers : Z;
  connected : list bool;
  crashed : list bool;
  ckbegin : CheckerBegin;
}.

Record World := mkWorld { annotation : Annotation; finfo : option FrameworkInfo }.

#[export] Instance upd_annotations : Upd annotations := λ f s, mkAnnotation (f s.(annotations)) s.(continuous) s.(finalized).
#[export] Instance upd_continuous : Upd continuous := λ f s, mkAnnotation s.(annotations) (f s.(continuous)) s.(finalized).
#[export] Instance upd_finalized : Upd finalized := λ f s, mkAnnotation s.(annotations) s.(continuous) (f s.(finalized)).
#[export] Instance upd_connected : Upd connected := λ f s, mkFinfo s.(nservers) (f s.(connected)) s.(crashed) s.(ckbegin).
#[export] Instance upd_crashed : Upd crashed := λ f s, mkFinfo s.(nservers) s.(connected) (f s.(crashed)) s.(ckbegin).
#[export] Instance upd_ckbegin : Upd ckbegin := λ f s, mkFinfo s.(nservers) s.(connected) s.(crashed) (f s.(ckbegin)).
#[export] Instance upd_annotation : Upd annotation := λ f w, mkWorld (f w.(annotation)) w.(finfo).
#[export] Instance upd_finfo : Upd finfo := λ f w, mkWorld w.(annotation) (f w.(finfo)).

Definition COLOR_INFO : string := "#FAFAFA".
Definition COLOR_NEUTRAL : string := "#FFECB3".
Definition COLOR_SUCCESS : string := "#C8E6C9".
Definition COLOR_FAILURE : string := "#FFCDD2".
Definition COLOR_FAULT : string := "#B3E5FC".
Definition COLOR_USER : string := "#FFF176".

Definition TAG_CHECKER : string := "$ Checker".
Definition TAG_PARTITION : string := "$ Failure".
Definition TAG_INFO : string := "$ Test Info".

Definition mkAnnotation0 : Annotation := mkAnnotation [] ∅ false.

Definition mkFrameworkInfo (n : Z) : FrameworkInfo :=
  mkFinfo n (replicate (Z.to_nat n) true) (replicate (Z.to_nat n) false) (mkCheckerBegin 0 "").

(** ** The store of annotations *)

Section store.
Implicit Types (now : Z) (tag d dt color : string) (an : Annotation).

Definition append_ann (a : Ann) an : Annotation := an <| annotations := an.(annotations) ++ [a] |>.

Definition clear : Annotation := mkAnnotation0.

Definition annotatePointColor now tag d dt color an : Annotation :=
  append_ann (mkAnn tag now 0 d dt color) an.

Definition annotateIntervalColor now tag (start : Z) d dt color an : Annotation :=
  append_ann (mkAnn tag start now d dt color) an.

(** A continuous annotation made concrete. *)
Definition concretize now tag (c : Continuous) : Ann :=
  mkAnn tag c.(start) now c.(desp) c.(details) c.(bgcolor).

Definition annotateContinuousColor now tag d dt color an : Annotation :=
  match an.(continuous) !! tag with
  | None => an <| continuous := <[tag := mkCont now d dt color]> an.(continuous) |>
  | Some cont =>
    let an := append_ann (concretize now tag cont) an in
    an <| continuous := <[tag := mkCont now d dt color]> an.(continuous) |>
  end.

(** The branch for a tag without a continuous annotation is empty, so the code
    goes on with the zero value. *)
Definition annotateContinuousEnd now tag an : Annotation :=
  let cont := default zero_Continuous (an.(continuous) !! tag) in
  let an := append_ann (concretize now tag cont) an in
  an <| continuous := delete tag an.(continuous) |>.

(** [order] is the order in which the map of continuous annotations is
    iterated. *)
Definition finalize now (order : list (string * Continuous)) an : list Ann * Annotation :=
  (an.(annotations) ++ ((λ tc, concretize now tc.1 tc.2) <$> order), an <| finalized := true |>).

Definition FinalizeAnnotations now1 now2 (order : list (string * Continuous)) (last : string) an : list Ann * Annotation :=
  let '(anns, an) := finalize now1 order an in
  (anns ++ [mkAnn TAG_INFO now2 0 last last COLOR_INFO], an).

(** [cleanup]: the annotations it writes to the visualisation file, if it gets
    as far as that; [enabled] is [VIS_ENABLE], [opened] says whether the file
    could be opened. *)
Definition cleanup now1 now2 (order : list (string * Continuous)) (enabled : string) (opened failed : bool)
    (last : string) an : option (list Ann) * Annotation :=
  if bool_decide (enabled = "never") || (negb failed && negb (bool_decide (enabled = "always"))) || an.(finalized)
  then (None, clear)
  else
    let '(anns, an) := finalize now1 order an in
    if glen anns =? 0 then (None, an)
    else
      let anns := anns ++ [mkAnn TAG_INFO now2 0 last last COLOR_INFO] in
      if opened then (Some anns, an) else (None, an).
End store.

(** ** The public functions *)

Section api.
Implicit Types (now : Z) (w : World) (fi : FrameworkInfo).

Definition on_ann (f : Annotation → Annotation) w : World := w <| annotation := f w.(annotation) |>.

Definition the_finfo w : go FrameworkInfo :=
  match w.(finfo) with Some fi => Ret fi | None => Panic end.

Definition AnnotatePointColor now tag d dt color w : World := on_ann (annotatePointColor now tag d dt color) w.
Definition AnnotateIntervalColor now tag start d dt color w : World :=
  on_ann (annotateIntervalColor now tag start d dt color) w.
Definition AnnotateContinuousColor now tag d dt color w : World :=
  on_ann (annotateContinuousColor now tag d dt color) w.
Definition AnnotateContinuousEnd now tag w : World := on_ann (annotateContinuousEnd now tag) w.

Definition AnnotatePoint now tag d dt w : World := AnnotatePointColor now tag d dt COLOR_USER w.
Definition AnnotateInterval now tag start d dt w : World := AnnotateIntervalColor now tag start d dt COLOR_USER w.
Definition AnnotateContinuous now tag d dt w : World := AnnotateContinuousColor now tag d dt COLOR_USER w.

Definition AnnotateInfo now d dt w : World := AnnotatePointColor now TAG_INFO d dt COLOR_INFO w.
Definition AnnotateInfoInterval now start d dt w : World :=
  AnnotateIntervalColor now TAG_INFO start d dt COLOR_INFO w.

Definition AnnotateTest now (d : string) (n : Z) w : World :=
  let dt := d +:+ " (" +:+ pretty n +:+ " servers)" in
  AnnotateInfo now dt dt (mkWorld clear (Some (mkFrameworkInfo n))).

Definition AnnotateCheckerBegin now (dt : string) w : go World :=
  fi ← the_finfo w; Ret (w <| finfo := Some (fi <| ckbegin := mkCheckerBegin now dt |>) |>).

(** [ckbegin] is a copy of the record's field: setting its time stamp to 0 at
    the end has no effect. *)
Definition AnnotateCheckerEnd now d dt color w : go World :=
  fi ← the_finfo w;
  let ckbegin := fi.(ckbegin) in
  if ckbegin.(ck_ts) =? 0 then Ret (AnnotatePointColor now TAG_CHECKER d dt color w)
  else Ret (AnnotateIntervalColor now TAG_CHECKER ckbegin.(ck_ts) d (ckbegin.(ck_details) +:+ ": " +:+ dt) color w).

Definition AnnotateCheckerSuccess now d dt w : go World := AnnotateCheckerEnd now d dt COLOR_SUCCESS w.
Definition AnnotateCheckerFailure now d dt w : go World := AnnotateCheckerEnd now d dt COLOR_FAILURE w.
Definition AnnotateCheckerNeutral now d dt w : go World := AnnotateCheckerEnd now d dt COLOR_NEUTRAL w.

Definition SetAnnotationFinalized w : World := on_ann (λ an, an <| finalized := true |>) w.
Definition GetAnnotationFinalized w : bool := w.(annotation).(finalized).

(** What is written to the file, and what the process leaves behind. *)
Definition AnnotateCheckerFailureBeforeExit now order enabled opened d dt w : go (option (list Ann) * World) :=
  w ← AnnotateCheckerFailure now d dt w;
  let '(out, an) := cleanup now now order enabled opened true "test failed" w.(annotation) in
  Ret (out, w <| annotation := an |>).

(** ** Failures *)

(** [%v] of a slice of ints. *)
Definition show_ints (l : list Z) : string := "[" +:+ join " " (pretty <$> l) +:+ "]".

(** One server: the lists [conn] and [crashes] and the text so far. *)
Definition fault_server fi (st : list Z * list Z * string) (idc : Z * bool) : go (list Z * list Z * string) :=
  let '(conn, crashes, text) := st in
  let '(id, is_connected) := idc in
  is_crashed ← gidx fi.(crashed) id;
  if is_crashed : bool then Ret (conn, crashes ++ [id], text)
  else if is_connected : bool then Ret (conn ++ [id], crashes, text)
  else Ret (conn, crashes, text +:+ "[" +:+ pretty id +:+ "] ").

Definition fault_text fi : go string :=
  st ← foldM (fault_server fi) ([], [], "partition = ") (zip (range (glen fi.(connected))) fi.(connected));
  let '(conn, crashes, text) := st in
  let text := if 0 <? glen conn then text +:+ show_ints conn else text in
  Ret (if 0 <? glen crashes then text +:+ " / crash = " +:+ show_ints crashes else text).

Definition annotateFault now w : go World :=
  fi ← the_finfo w;
  let trues := replicate (Z.to_nat fi.(nservers)) true in
  let falses := replicate (Z.to_nat fi.(nservers)) false in
  if bool_decide (trues = fi.(connected)) && bool_decide (falses = fi.(crashed))
  then Ret (AnnotateContinuousEnd now TAG_PARTITION w)
  else text ← fault_text fi; Ret (AnnotateContinuousColor now TAG_PARTITION text text COLOR_FAULT w).

(** Go's [copy(dst, src)]. *)
Definition gcopy {A} (dst src : list A) : list A :=
  let n := Nat.min (length dst) (length src) in take n src ++ drop n dst.

Definition AnnotateConnection now (connection : list bool) w : go World :=
  fi ← the_finfo w;
  if bool_decide (fi.(connected) = connection) then Ret w
  else annotateFault now (w <| finfo := Some (fi <| connected := gcopy fi.(connected) connection |>) |>).

Definition AnnotateTwoPartitions now (p1 p2 : list Z) w : World :=
  let text := "partition = " +:+ show_ints p1 +:+ " " +:+ show_ints p2 in
  AnnotateContinuousColor now TAG_PARTITION text text COLOR_FAULT w.

Definition AnnotateClearFailure now w : go World :=
  fi ← the_finfo w;
  let fi := fi <| crashed := replicate (length fi.(crashed)) false |> in
  let fi := fi <| connected := replicate (length fi.(connected)) true |> in
  Ret (AnnotateContinuousEnd now TAG_PARTITION (w <| finfo := Some fi |>)).

(** The loops of [AnnotateShutdown] and [AnnotateRestart]: set the servers'
    flags to [b], noting whether one changed. *)
Definition set_crashed (b : bool) (st : bool * list bool) (id : Z) : go (bool * list bool) :=
  let '(changed, crashed) := st in
  old ← gidx crashed id;
  let changed := if bool_decide (old = b) then changed else true in
  crashed ← gset_idx crashed id b;
  Ret (changed, crashed).

Definition mark_servers (b : bool) now (servers : list Z) w : go World :=
  fi ← the_finfo w;
  r ← foldM (set_crashed b) (false, fi.(crashed)) servers;
  let w := w <| finfo := Some (fi <| crashed := r.2 |>) |> in
  if r.1 : bool then annotateFault now w else Ret w.

Definition AnnotateShutdown now servers w : go World := mark_servers true now servers w.
Definition AnnotateRestart now servers w : go World := mark_servers false now servers w.

Definition AnnotateShutdownAll now w : go World :=
  fi ← the_finfo w; AnnotateShutdown now (range fi.(nservers)) w.
Definition AnnotateRestartAll now w : go World :=
  fi ← the_finfo w; AnnotateRestart now (range fi.(nservers)) w.

(** ** [annotator.go]: annotations from the servers' processes

    A call over the socket [rpcc] that may fail: [executed] says whether the
    handler ran, [ok] whether its reply arrived. *)
Record PostAnnotatorPointArgs := mkPointArgs { pp_Tag : string; pp_Desp : string; pp_Details : string }.
Record PostAnnotatorInfoIntervalArgs := mkIntervalArgs { pi_Start : Z; pi_Desp : string; pi_Details : string }.

Definition PostAnnotatorPoint now (args : PostAnnotatorPointArgs) w : World :=
  AnnotatePoint now args.(pp_Tag) args.(pp_Desp) args.(pp_Details) w.
Definition GetAnnotatorTimestamp_handler now : Z := now.
Definition PostAnnotatorInfoInterval_handler now (args : PostAnnotatorInfoIntervalArgs) w : World :=
  AnnotateInfoInterval now args.(pi_Start) args.(pi_Desp) args.(pi_Details) w.

Definition Annotate (executed : bool) now tag d dt w : World :=
  if executed then PostAnnotatorPoint now (mkPointArgs tag d dt) w else w.
Definition GetAnnotatorTimestamp (ok : bool) now : Z :=
  if ok then GetAnnotatorTimestamp_handler now else 0.
Definition PostAnnotatorInfoInterval (executed : bool) now start d dt w : World :=
  if executed then PostAnnotatorInfoInterval_handler now (mkIntervalArgs start d dt) w else w.
End api.

(** ** Sequences of calls

    The calls of a test between [AnnotateTest] and the end; the other public
    functions are instances of these. *)
Inductive Call :=
  | CPoint (tag d dt color : string)
  | CInterval (tag : string) (start : Z) (d dt color : string)
  | CContinuous (tag d dt color : string)
  | CContinuousEnd (tag : string)
  | CCheckerBegin (dt : string)
  | CCheckerEnd (d dt color : string)
  | CFinalized
  | CConnection (connection : list bool)
  | CTwoPartitions (p1 p2 : list Z)
  | CClearFailure
  | CShutdown (servers : list Z)
  | CShutdownAll
  | CRestart (servers : list Z)
  | CRestartAll.

Definition do_call (now : Z) (c : Call) (w : World) : go World :=
  match c with
  | CPoint tag d dt color => Ret (AnnotatePointColor now tag d dt color w)
  | CInterval tag start d dt color => Ret (AnnotateIntervalColor now tag start d dt color w)
  | CContinuous tag d dt color => Ret (AnnotateContinuousColor now tag d dt color w)
  | CContinuousEnd tag => Ret (AnnotateContinuousEnd now tag w)
  | CCheckerBegin dt => AnnotateCheckerBegin now dt w
  | CCheckerEnd d dt color => AnnotateCheckerEnd now d dt color w
  | CFinalized => Ret (SetAnnotationFinalized w)
  | CConnection connection => AnnotateConnection now connection w
  | CTwoPartitions p1 p2 => Ret (AnnotateTwoPartitions now p1 p2 w)
  | CClearFailure => AnnotateClearFailure now w
  | CShutdown servers => AnnotateShutdown now servers w
  | CShutdownAll => AnnotateShutdownAll now w
  | CRestart servers => AnnotateRestart now servers w
  | CRestartAll => AnnotateRestartAll now w
  end.

Definition run_calls (w : World) (calls : list (Z * Call)) : go World :=
  foldM (λ w tc, do_call tc.1 tc.2 w) w calls.

(** ** What the failures are *)

Section spec.
Implicit Types (now t : Z) (w : World) (fi : FrameworkInfo) (c : Call).

(** The servers of a list whose two flags satisfy [f]. *)
Definition select fi (f : bool → bool → bool) (l : list Z) : list Z :=
  filter (λ i, match fi.(connected).[i], fi.(crashed).[i] with
               | Some b, Some d => f b d | _, _ => false end = true) l.
Definition ids fi (f : bool → bool → bool) : list Z := select fi f (range (glen fi.(connected))).
Definition isolated fi : list Z := ids fi (λ up dead, negb dead && negb up).
Definition together fi : list Z := ids fi (λ up dead, negb dead && up).
Definition crashes fi : list Z := ids fi (λ _ dead, dead).

(** The text for a state of the network. *)
Definition describe fi : string :=
  "partition = " +:+ join "" ((λ i, "[" +:+ pretty i +:+ "] ") <$> isolated fi) +:+
  (if bool_decide (together fi = []) then "" else show_ints (together fi)) +:+
  (if bool_decide (crashes fi = []) then "" else " / crash = " +:+ show_ints (crashes fi)).

(** The failures to show: none if every server is up and connected. *)
Definition fault fi : option string :=
  if forallb id fi.(connected) && forallb negb fi.(crashed) then None else Some (describe fi).
Definition world_fault w : option string := w.(finfo) ≫= fault.

Definition fi_wf (n : Z) fi : Prop :=
  0 ≤ n ∧ fi.(nservers) = n ∧ glen fi.(connected) = n ∧ glen fi.(crashed) = n.

(** *** The specification of a run

    Of each server, whether the test has reported it disconnected and whether it
    has reported it crashed; and the text that is to be shown. *)
Record Shown := mkShown { sw_conn : Z → bool; sw_dead : Z → bool; sw_text : option string }.

(** Nothing if all are well; else each disconnected server by itself, the
    connected ones, and the crashed ones. *)
Definition flags_text (n : Z) (conn dead : Z → bool) : option string :=
  if forallb (λ i, conn i && negb (dead i)) (range n) then None else
  let group f := filter (λ i, f i = true) (range n) in
  let up := group (λ i, negb (dead i) && conn i) in
  let down := group dead in
  Some ("partition = " +:+ join "" ((λ i, "[" +:+ pretty i +:+ "] ") <$> group (λ i, negb (dead i) && negb (conn i))) +:+
    (if bool_decide (up = []) then "" else show_ints up) +:+
    (if bool_decide (down = []) then "" else " / crash = " +:+ show_ints down)).

Definition with_flags (n : Z) (conn dead : Z → bool) : Shown := mkShown conn dead (flags_text n conn dead).

(** A report that changes nothing leaves what is shown; [AnnotateTwoPartitions]
    and annotations that the test itself makes with the tag replace it. *)
Definition spec_call (n : Z) (c : Call) (s : Shown) : Shown :=
  let mark (b : bool) (l : list Z) :=
    if existsb (λ i, negb (bool_decide (s.(sw_dead) i = b))) l
    then with_flags n s.(sw_conn) (λ i, if bool_decide (i ∈ l) then b else s.(sw_dead) i) else s in
  match c with
  | CConnection l =>
    if bool_decide (s.(sw_conn) <$> range n = l) then s
    else with_flags n (λ i, default (s.(sw_conn) i) (l.[i])) s.(sw_dead)
  | CTwoPartitions p1 p2 =>
    mkShown s.(sw_conn) s.(sw_dead) (Some ("partition = " +:+ show_ints p1 +:+ " " +:+ show_ints p2))
  | CClearFailure => mkShown (λ _, true) (λ _, false) None
  | CShutdown l => mark true l
  | CShutdownAll => mark true (range n)
  | CRestart l => mark false l
  | CRestartAll => mark false (range n)
  | CContinuous tag d _ _ => if bool_decide (tag = TAG_PARTITION) then mkShown s.(sw_conn) s.(sw_dead) (Some d) else s
  | CContinuousEnd tag => if bool_decide (tag = TAG_PARTITION) then mkShown s.(sw_conn) s.(sw_dead) None else s
  | _ => s
  end.

Definition all_well : Shown := mkShown (λ _, true) (λ _, false) None.

(** What is to be shown at time [τ]: the calls made until then decide. *)
Definition shown_at (n : Z) (calls : list (Z * Call)) (τ : Z) : option string :=
  sw_text (foldl (λ s tc, spec_call n tc.2 s) all_well (filter (λ tc, tc.1 ≤ τ) calls)).

(** The calls record no points or intervals of their own with the tag of the
    failures, and name existing servers. *)
Definition call_ok (n : Z) c : Prop :=
  match c with
  | CPoint tag _ _ _ | CInterval tag _ _ _ _ => tag ≠ TAG_PARTITION
  | CShutdown servers | CRestart servers => ∀ i, i ∈ servers → 0 ≤ i < n
  | _ => True
  end.

(** The clock does not go backwards. *)
Fixpoint timed (t0 : Z) (calls : list (Z * Call)) (tend : Z) : Prop :=
  match calls with
  | [] => t0 ≤ tend
  | (t, _) :: calls => t0 ≤ t ∧ timed t calls tend
  end.

(** A failure annotation with text [d] that covers [τ]. *)
Definition shows (anns : list Ann) (τ : Z) (d : string) : Prop :=
  ∃ a, a ∈ anns ∧ a.(Tag) = TAG_PARTITION ∧ a.(Description) = d ∧ a.(Start) ≤ τ < a.(End_).
End spec.

(** ** The text *)

Section text.
Implicit Types (now t : Z) (w : World) (fi : FrameworkInfo).

Lemma select_cons fi f i l b d :
  fi.(connected).[i] = Some b → fi.(crashed).[i] = Some d →
  select fi f (i :: l) = if f b d then i :: select fi f l else select fi f l.
Proof. intros Hb Hd. unfold select. rewrite filter_cons, Hb, Hd. by destruct (f b d). Qed.

Lemma fault_loop fi l : ∀ conn dead text,
  (∀ i b, (i, b) ∈ l → fi.(connected).[i] = Some b ∧ is_Some (fi.(crashed).[i])) →
  foldM (fault_server fi) (conn, dead, text) l =
    Ret (conn ++ select fi (λ up dead, negb dead && up) l.*1,
         dead ++ select fi (λ _ dead, dead) l.*1,
         text +:+ join "" ((λ i, "[" +:+ pretty i +:+ "] ") <$> select fi (λ up dead, negb dead && negb up) l.*1)).
Proof.
  induction l as [|[i b] l IH]; intros conn dead text Hl; cbn [foldM fmap list_fmap fst].
  { unfold select. simpl. by rewrite !app_nil_r, append_nil_r. }
  destruct (Hl i b) as [Hb [d Hd]]; [left|]. rewrite !(select_cons _ _ _ _ b d) by done.
  unfold fault_server at 2. rewrite (proj2 (gidx_Ret _ _ _) Hd). cbn [mbind go_bind].
  destruct d, b; cbn [negb andb mbind go_bind]; rewrite IH by (intros; apply Hl; by right);
    rewrite <-?app_assoc; try done.
  cbn [fmap list_fmap]. by rewrite join_cons, append_assoc.
Qed.

Lemma zlookup_zip_range {A} (l : list A) i x : (i, x) ∈ zip (range (glen l)) l → l.[i] = Some x.
Proof.
  intros [k Hk]%list_elem_of_lookup. apply lookup_zip_Some in Hk as [Hi Hx].
  unfold range in Hi. apply lookup_seqZ in Hi as [-> Hk]. unfold zlookup.
  destruct (Z.ltb_spec (0 + Z.of_nat k) 0); [lia|]. by rewrite Z.add_0_l, Nat2Z.id.
Qed.

Lemma glen_pos_nonempty (l : list Z) : (0 <? glen l) = negb (bool_decide (l = [])).
Proof. destruct l as [|x l]; [done|]. rewrite bool_decide_false by done. unfold glen. cbn. done. Qed.

Lemma fault_text_describe n fi : fi_wf n fi → fault_text fi = Ret (describe fi).
Proof.
  intros (Hn & _ & Hc & Hd). unfold fault_text. rewrite fault_loop.
  - cbn [mbind go_bind]. rewrite fst_zip by (unfold range, glen; rewrite length_seqZ; lia).
    unfold describe, isolated, together, crashes, ids. 
    set (a := select fi (λ up dead, negb dead && up) _). set (b := select fi (λ _ dead, dead) _).
    rewrite !app_nil_l, !glen_pos_nonempty. f_equal.
    case_bool_decide; case_bool_decide; cbn [negb]; rewrite ?append_nil_r, ?append_assoc; done.
  - intros i b Hi%zlookup_zip_range. split; [done|]. apply zlookup_lt_Some in Hi.
    destruct (zlookup_is_Some fi.(crashed) i) as [x Hx]; [lia|by exists x].
Qed.

Lemma replicate_forallb (f : bool → bool) b l n :
  (∀ x, f x = true ↔ x = b) → glen l = n →
  bool_decide (replicate (Z.to_nat n) b = l) = forallb f l.
Proof.
  intros Hf Hl. apply eq_true_iff_eq. rewrite bool_decide_eq_true, forallb_forall. split.
  - intros Heq x Hx%list_elem_of_In. rewrite <-Heq in Hx. apply elem_of_replicate_inv in Hx. by apply Hf.
  - intros Hall. apply replicate_as_elem_of. split; [unfold glen in Hl; lia|].
    intros x Hx%list_elem_of_In. by apply Hf, Hall.
Qed.

Lemma annotateFault_spec now w n fi :
  w.(finfo) = Some fi → fi_wf n fi →
  annotateFault now w = Ret match fault fi with
    | None => AnnotateContinuousEnd now TAG_PARTITION w
    | Some d => AnnotateContinuousColor now TAG_PARTITION d d COLOR_FAULT w
    end.
Proof.
  intros Hfi Hwf. pose proof Hwf as (Hn & Hs & Hc & Hd).
  unfold annotateFault, the_finfo. rewrite Hfi. cbn [mbind go_bind].
  rewrite Hs, (replicate_forallb id true), (replicate_forallb negb false) by (done || by intros []).
  unfold fault. destruct (_ && _); [done|]. by rewrite (fault_text_describe n).
Qed.

Lemma filter_ext_in {A} (P Q : A → Prop) `{∀ x, Decision (P x)} `{∀ x, Decision (Q x)} (l : list A) :
  (∀ x, x ∈ l → P x ↔ Q x) → filter P l = filter Q l.
Proof.
  induction l as [|x l IH]; intros Hl; [done|]. rewrite !filter_cons, IH by (intros; apply Hl; by right).
  apply decide_ext. apply Hl. left.
Qed.

(** The flags of [finfo] are those of the specification. *)
Definition fi_flags (n : Z) (conn dead : Z → bool) fi : Prop :=
  fi_wf n fi ∧ ∀ i, 0 ≤ i < n → fi.(connected).[i] = Some (conn i) ∧ fi.(crashed).[i] = Some (dead i).

Lemma fault_flags n conn dead fi : fi_flags n conn dead fi → fault fi = flags_text n conn dead.
Proof.
  intros [(Hn & _ & Hc & Hd) Hf]. unfold fault, flags_text.
  assert (∀ f, ids fi f = filter (λ i, f (conn i) (dead i) = true) (range n)) as Hids.
  { intros f. unfold ids, select. rewrite Hc. apply filter_ext_in. intros i Hi%elem_of_range.
    destruct (Hf i Hi) as [-> ->]. done. }
  assert (forallb id fi.(connected) && forallb negb fi.(crashed) = forallb (λ i, conn i && negb (dead i)) (range n)) as ->.
  { apply eq_true_iff_eq. rewrite andb_true_iff, !forallb_forall. split.
    - intros [H1 H2] i Hi%list_elem_of_In%elem_of_range. destruct (Hf i Hi) as [Hci Hdi]. apply andb_true_iff. split.
      + apply (H1 (conn i)), list_elem_of_In, zlookup_elem_of. by exists i.
      + apply H2, list_elem_of_In, zlookup_elem_of. by exists i.
    - intros Hall. assert (∀ i, 0 ≤ i < n → conn i = true ∧ dead i = false) as Hb.
      { intros i Hi. specialize (Hall i). rewrite andb_true_iff, negb_true_iff in Hall. apply Hall, list_elem_of_In, elem_of_range. done. }
      split; intros x [i Hi]%list_elem_of_In%zlookup_elem_of; pose proof (zlookup_lt_Some _ _ _ Hi) as Hr.
      + rewrite Hc in Hr. rewrite (proj1 (Hf i Hr)) in Hi. injection Hi as <-. by apply Hb.
      + rewrite Hd in Hr. rewrite (proj2 (Hf i Hr)) in Hi. injection Hi as <-. apply negb_true_iff. by apply Hb. }
  destruct (forallb _ _); [done|]. unfold describe, isolated, together, crashes. by rewrite !Hids.
Qed.

Lemma append_nonempty_l a b : a ≠ "" → a +:+ b ≠ "".
Proof. by destruct a. Qed.

Lemma fault_nonempty fi d : fault fi = Some d → d ≠ "".
Proof. unfold fault. destruct (_ && _); [done|]. intros [= <-]. done. Qed.
End text.

(** ** The timeline *)

Section timeline.
Context (n : Z).
Implicit Types (now t τ : Z) (w : World) (fi : FrameworkInfo) (c : Continuous) (d : string) (s : Shown).

Definition ongoing w : option Continuous := w.(annotation).(continuous) !! TAG_PARTITION.

(** [d] is shown for [τ]: by a recorded annotation, or by the ongoing one. *)
Definition cover w τ d : Prop :=
  shows w.(annotation).(annotations) τ d ∨ ∃ c, ongoing w = Some c ∧ c.(desp) = d ∧ c.(start) ≤ τ.

(** The package's variables are as the specification says, at time [t]. *)
Record timeline_inv s w t : Prop := {
  tl_past a : a ∈ w.(annotation).(annotations) → a.(Tag) = TAG_PARTITION → a.(End_) ≤ t;
  tl_start c : ongoing w = Some c → c.(start) ≤ t;
  tl_text : desp <$> ongoing w = s.(sw_text);
  tl_flags : ∃ fi, w.(finfo) = Some fi ∧ fi_flags n s.(sw_conn) s.(sw_dead) fi;
}.

(** From now on, what is shown is the current text. *)
Lemma cover_now s w t τ d : timeline_inv s w t → t ≤ τ → cover w τ d ↔ s.(sw_text) = Some d.
Proof.
  intros [Hp Hs Hf _] Ht. rewrite <-Hf. split.
  - intros [(a & Ha & Htag & _ & Hin)|(c & Hc & <- & _)]; [|by rewrite Hc].
    specialize (Hp a Ha Htag). lia.
  - destruct (ongoing w) as [c|] eqn:Hc; [|done]. intros [= <-]. right. exists c.
    specialize (Hs c eq_refl). split; [done|]. split; [done|lia].
Qed.

(** Replacing the ongoing annotation at time [t], or leaving it. *)
Lemma cover_replace s w w' extra t τ d :
  timeline_inv s w t → d ≠ "" → τ < t →
  w'.(annotation).(annotations) = w.(annotation).(annotations) ++ extra →
  (∀ a, a ∈ extra → a.(Tag) = TAG_PARTITION →
    a.(Description) = "" ∨ ∃ c, ongoing w = Some c ∧ a = concretize t TAG_PARTITION c) →
  (ongoing w' = ongoing w ∨
   (∀ c, ongoing w = Some c → concretize t TAG_PARTITION c ∈ extra) ∧
   (∀ c, ongoing w' = Some c → c.(start) = t)) →
  cover w' τ d ↔ cover w τ d.
Proof.
  intros Hinv Hd Hτ Ha Hextra Hnew. unfold cover, shows. rewrite Ha. split.
  - intros [(a & [Hin|Hin]%elem_of_app & Htag & Hdesc & Hab)|(c & Hc & <- & Hst)].
    + left. by exists a.
    + destruct (Hextra a Hin Htag) as [?|(c & Hc & ->)]; [congruence|].
      right. exists c. cbn in *. split; [done|]. split; [done|lia].
    + right. destruct Hnew as [<-|[_ Hst']]; [by exists c|]. specialize (Hst' c Hc). lia.
  - intros [(a & Hin & Htag & Hdesc & Hab)|(c & Hc & <- & Hst)].
    + left. exists a. split; [|done]. apply elem_of_app. by left.
    + destruct Hnew as [->|[Hc' _]]; [right; by exists c|]. left.
      exists (concretize t TAG_PARTITION c). split; [apply elem_of_app; right; by apply Hc'|].
      cbn. split; [done|]. split; [done|lia].
Qed.

(** What a step at time [t] guarantees. *)
Definition good_step w t s' w' : Prop :=
  timeline_inv s' w' t ∧ ∀ τ d, d ≠ "" → τ < t → (cover w' τ d ↔ cover w τ d).

Lemma timeline_later s w t t' : timeline_inv s w t → t ≤ t' → timeline_inv s w t'.
Proof.
  intros [Hp Hs Hx Hf] Ht. split; [|by intros c Hc; specialize (Hs c Hc); lia|done|done].
  intros a Ha Htag. specialize (Hp a Ha Htag). lia.
Qed.

(** Nothing is done to the annotation of the failures. *)
Lemma good_quiet s w t w' extra :
  timeline_inv s w t →
  w'.(annotation).(annotations) = w.(annotation).(annotations) ++ extra →
  (∀ a, a ∈ extra → a.(Tag) ≠ TAG_PARTITION) →
  ongoing w' = ongoing w →
  (∃ fi', w'.(finfo) = Some fi' ∧ fi_flags n s.(sw_conn) s.(sw_dead) fi') →
  good_step w t s w'.
Proof.
  intros Hinv Ha Hextra Ho Hfi. pose proof Hinv as [Hp Hs Hx _]. split.
  - split; rewrite ?Ho; [|done|done|done].
    rewrite Ha. intros a [?|Hin]%elem_of_app Htag; [auto|by destruct (Hextra a Hin)].
  - intros τ d Hd Hτ. eapply cover_replace; [done..| |by left].
    intros a Hin Htag. by destruct (Hextra a Hin).
Qed.

(** It is ended, or replaced by another, with new flags perhaps. *)
Lemma good_end s w t conn dead fi :
  timeline_inv s w t → fi_flags n conn dead fi →
  good_step w t (mkShown conn dead None) (AnnotateContinuousEnd t TAG_PARTITION (w <| finfo := Some fi |>)).
Proof.
  intros Hinv Hwf. pose proof Hinv as [Hp Hs _ _]. fold (ongoing w) in *.
  set (w' := AnnotateContinuousEnd _ _ _).
  assert (ongoing w' = None) as Ho by apply lookup_delete_eq. split.
  - split; rewrite ?Ho; [|done|done|by exists fi].
    intros a [?|Hin]%elem_of_app Htag; [auto|]. apply list_elem_of_singleton in Hin as ->. cbn. lia.
  - intros τ d Hd Hτ. eapply (cover_replace s w w' [_]); [done..| |].
    + intros a ->%list_elem_of_singleton _. cbn.
      destruct (ongoing w) as [c|] eqn:Hc; unfold ongoing in Hc; rewrite Hc; [right; by exists c|by left].
    + right. rewrite Ho. split; [|done]. intros c Hc. apply list_elem_of_singleton.
      unfold ongoing in Hc. cbn. by rewrite Hc.
Qed.

Lemma good_replace s w t conn dead fi d0 dt color :
  timeline_inv s w t → fi_flags n conn dead fi →
  good_step w t (mkShown conn dead (Some d0)) (AnnotateContinuousColor t TAG_PARTITION d0 dt color (w <| finfo := Some fi |>)).
Proof.
  intros Hinv Hwf. pose proof Hinv as [Hp Hs _ _]. set (w' := AnnotateContinuousColor _ _ _ _ _ _).
  set (c0 := mkCont t d0 dt color).
  assert (ongoing w' = Some c0) as Ho.
  { unfold w', ongoing. cbn. unfold annotateContinuousColor. cbn.
    destruct (w.(annotation).(continuous) !! TAG_PARTITION); cbn; apply lookup_insert_eq. }
  assert (w'.(annotation).(annotations) = w.(annotation).(annotations) ++
    match ongoing w with Some c => [concretize t TAG_PARTITION c] | None => [] end) as Ha.
  { unfold w', ongoing. cbn. unfold annotateContinuousColor. cbn.
    destruct (w.(annotation).(continuous) !! TAG_PARTITION); cbn; [done|by rewrite app_nil_r]. }
  split.
  - split; rewrite ?Ho, ?Ha; [|by intros c [= <-]|done|].
    + intros a [?|Hin]%elem_of_app Htag; [auto|].
      destruct (ongoing w); [|by apply not_elem_of_nil in Hin].
      apply list_elem_of_singleton in Hin as ->. cbn. lia.
    + exists fi. split; [|done]. unfold w', AnnotateContinuousColor, on_ann. done.
  - intros τ d Hd Hτ. eapply cover_replace; [done|done|done|exact Ha| |].
    + intros a Hin _. right. destruct (ongoing w) as [c|]; [|by apply not_elem_of_nil in Hin].
      apply list_elem_of_singleton in Hin as ->. by exists c.
    + right. rewrite Ho. split; [|by intros c [= <-]].
      intros c ->. by apply list_elem_of_singleton.
Qed.

(** [annotateFault] with new flags. *)
Lemma good_fault s w t conn dead fi :
  timeline_inv s w t → fi_flags n conn dead fi →
  returns (annotateFault t (w <| finfo := Some fi |>)) (good_step w t (with_flags n conn dead)).
Proof.
  intros Hinv Hwf. rewrite (annotateFault_spec _ _ n fi) by (done || apply Hwf). apply returns_Ret.
  rewrite (fault_flags n conn dead fi Hwf). unfold with_flags. destruct (flags_text n conn dead) as [d0|] eqn:Ht; rewrite ?Ht.
  - by apply (good_replace s).
  - by apply (good_end s).
Qed.

Lemma good_same s w t w' :
  timeline_inv s w t → w'.(annotation).(annotations) = w.(annotation).(annotations) →
  ongoing w' = ongoing w → w'.(finfo) = w.(finfo) → good_step w t s w'.
Proof.
  intros Hinv Ha Ho Hf. apply (good_quiet s w t w' []); [done|by rewrite app_nil_r| |done|].
  - by intros a ?%not_elem_of_nil.
  - rewrite Hf. apply Hinv.
Qed.

(** Recording annotations with another tag. *)
Lemma good_record s w t w' extra :
  timeline_inv s w t → w'.(annotation).(annotations) = w.(annotation).(annotations) ++ extra →
  (∀ a, a ∈ extra → a.(Tag) ≠ TAG_PARTITION) →
  ongoing w' = ongoing w → w'.(finfo) = w.(finfo) → good_step w t s w'.
Proof.
  intros Hinv Ha Hextra Ho Hf. eapply good_quiet; [done..|]. rewrite Hf. apply Hinv.
Qed.

Lemma set_finfo_same w fi : w.(finfo) = Some fi → w <| finfo := Some fi |> = w.
Proof. intros Hf. destruct w as [an f]. cbn in *. by rewrite Hf. Qed.

Lemma gcopy_lookup {A} (dst src : list A) i : 0 ≤ i < glen dst → (gcopy dst src).[i] = (if i <? glen src then src.[i] else dst.[i]).
Proof.
  intros Hi. unfold gcopy. set (m := Nat.min _ _). assert (Z.of_nat m = Z.min (glen dst) (glen src)) as Hm by (unfold m, glen; lia).
  assert (glen (take m src) = Z.of_nat m) as Hl by (unfold glen in *; rewrite length_take; lia).
  destruct (Z.ltb_spec i (glen src)).
  - rewrite zlookup_app_l by lia. rewrite zlookup_take by lia. done.
  - rewrite zlookup_app_r by lia. rewrite Hl, zlookup_drop by lia. f_equal. lia.
Qed.

Lemma glen_gcopy {A} (dst src : list A) : glen (gcopy dst src) = glen dst.
Proof. unfold gcopy, glen. rewrite length_app, length_take, length_drop. lia. Qed.

Lemma range_zlookup m i : 0 ≤ i < m → (range m).[i] = Some i.
Proof.
  intros Hi. unfold range, zlookup. case_if; [lia|]. rewrite lookup_seqZ_lt by lia. f_equal. lia.
Qed.

Lemma flags_list conn dead fi : fi_flags n conn dead fi → fi.(connected) = conn <$> range n.
Proof.
  intros [(Hn & _ & Hc & _) Hf]. apply list_eq_zlookup. intros i _. rewrite zlookup_fmap. destruct (decide (0 ≤ i < n)) as [Hi|Hi].
  - rewrite range_zlookup by done. by apply Hf.
  - rewrite (proj2 (zlookup_None fi.(connected) i)) by lia. symmetry.
    rewrite (proj2 (zlookup_None (range n) i)); [done|]. unfold glen, range. rewrite length_seqZ. lia.
Qed.

Lemma good_connection s w t connection :
  timeline_inv s w t → returns (AnnotateConnection t connection w) (good_step w t (spec_call n (CConnection connection) s)).
Proof.
  intros Hinv. pose proof Hinv as [_ _ _ (fi & Hfi & Hwf)].
  unfold AnnotateConnection, the_finfo. rewrite Hfi. cbn [mbind go_bind spec_call].
  rewrite <-(flags_list _ _ _ Hwf). case_bool_decide.
  { by apply returns_Ret, (good_same s). }
  apply (good_fault s); [done|]. destruct Hwf as [(Hn & Hs & Hc & Hd) Hf]. split; [unfold fi_wf; cbn; by rewrite glen_gcopy|].
  intros i Hi. destruct (Hf i Hi) as [Hci Hdi]. split; [|exact Hdi]. cbn. rewrite gcopy_lookup by lia. rewrite Hci.
  destruct (Z.ltb_spec i (glen connection)).
  - destruct (zlookup_is_Some connection i) as [x ->]; [lia|done].
  - by rewrite (proj2 (zlookup_None connection i)) by lia.
Qed.

Lemma good_clear s w t : timeline_inv s w t → returns (AnnotateClearFailure t w) (good_step w t (spec_call n CClearFailure s)).
Proof.
  intros Hinv. pose proof Hinv as [_ _ _ (fi & Hfi & (Hn & Hs & Hc & Hd) & _)].
  unfold AnnotateClearFailure, the_finfo. rewrite Hfi. cbn [mbind go_bind spec_call].
  apply returns_Ret, (good_end s); [done|]. split; [unfold fi_wf; cbn; by rewrite !glen_replicate|].
  intros i Hi. cbn. unfold zlookup, glen in *. case_if; [lia|]. rewrite !lookup_replicate_2 by lia. done.
Qed.

(** The loop over the servers. *)
Lemma set_crashed_loop b (dead : Z → bool) servers (l0 : list bool) :
  (∀ i, i ∈ servers → 0 ≤ i < glen l0) → (∀ i, 0 ≤ i < glen l0 → l0.[i] = Some (dead i)) →
  ∃ l, foldM (set_crashed b) (false, l0) servers = Ret (existsb (λ i, negb (bool_decide (dead i = b))) servers, l) ∧
    glen l = glen l0 ∧ ∀ i, 0 ≤ i < glen l0 → l.[i] = Some (if bool_decide (i ∈ servers) then b else dead i).
Proof.
  intros Hin Hl0. induction servers as [|x l IH] using rev_ind.
  { exists l0. split; [done|]. split; [done|]. intros i Hi. rewrite bool_decide_false by apply not_elem_of_nil. by apply Hl0. }
  destruct IH as (l1 & E & Hlen & Hl1); [intros i Hi; apply Hin, elem_of_app; by left|].
  assert (0 ≤ x < glen l0) as Hx by (apply Hin, elem_of_app; right; by apply list_elem_of_singleton).
  rewrite foldM_app, E. cbn [mbind go_bind foldM]. unfold set_crashed. rewrite (proj2 (gidx_Ret _ _ _) (Hl1 x Hx)). cbn [mbind go_bind].
  rewrite gset_idx_Ret by lia. cbn [mbind go_bind]. eexists. split; [|split; [by rewrite glen_insert|]].
  - do 2 f_equal. rewrite existsb_app. cbn [existsb]. rewrite orb_false_r.
    destruct (bool_decide_reflect (x ∈ l)) as [Hxl|Hxl].
    + rewrite bool_decide_true by done. destruct (bool_decide_reflect (dead x = b)) as [|Hne]; [by rewrite orb_false_r|].
      rewrite orb_true_r. apply existsb_exists. exists x. split; [by apply list_elem_of_In|]. by rewrite bool_decide_false.
    + case_bool_decide; by rewrite ?orb_false_r, ?orb_true_r.
  - intros i Hi. rewrite zlookup_insert by lia. case_decide as Hix.
    + subst i. rewrite bool_decide_true; [done|]. apply elem_of_app. right. by apply list_elem_of_singleton.
    + rewrite Hl1 by done. rewrite (bool_decide_ext (i ∈ l ++ [x]) (i ∈ l)); [done|].
      rewrite elem_of_app, list_elem_of_singleton. naive_solver.
Qed.

(** Reporting servers crashed ([b]) or restarted. *)
Definition spec_mark (b : bool) (l : list Z) s : Shown := spec_call n (if b then CShutdown l else CRestart l) s.

Lemma good_mark b s w t servers :
  timeline_inv s w t → (∀ i, i ∈ servers → 0 ≤ i < n) →
  returns (mark_servers b t servers w) (good_step w t (spec_mark b servers s)).
Proof.
  intros Hinv Hin. pose proof Hinv as [_ _ _ (fi & Hfi & (Hn & Hs & Hc & Hd) & Hf)].
  unfold mark_servers, the_finfo. rewrite Hfi. cbn [mbind go_bind].
  destruct (set_crashed_loop b s.(sw_dead) servers fi.(crashed)) as (l & -> & Hlen & Hl); [by rewrite Hd|rewrite Hd; apply Hf|].
  cbn [mbind go_bind fst snd]. rewrite Hd in Hl.
  assert (spec_mark b servers s =
    if existsb (λ i, negb (bool_decide (s.(sw_dead) i = b))) servers
    then with_flags n s.(sw_conn) (λ i, if bool_decide (i ∈ servers) then b else s.(sw_dead) i) else s) as -> by by destruct b.
  assert (fi_flags n s.(sw_conn) (λ i, if bool_decide (i ∈ servers) then b else s.(sw_dead) i) (fi <| crashed := l |>)) as Hfl.
  { split; [unfold fi_wf; cbn; by rewrite Hlen|]. intros i Hi. cbn. split; [by apply Hf|by apply Hl]. }
  destruct (existsb _ _) eqn:Hch; [by apply (good_fault s)|].
  apply returns_Ret, (good_quiet s _ _ _ []); [done|by rewrite app_nil_r|by intros a ?%not_elem_of_nil|done|].
  eexists. split; [reflexivity|]. destruct Hfl as [Hw Hfl]. split; [exact Hw|]. intros i Hi. destruct (Hfl i Hi) as [H1 H2]. split; [exact H1|].
  rewrite H2. case_bool_decide as His; [|done]. f_equal. apply not_true_iff_false in Hch. rewrite existsb_exists in Hch.
  destruct (bool_decide_reflect (s.(sw_dead) i = b)) as [|Hne]; [done|]. destruct Hch. exists i. split; [by apply list_elem_of_In|].
  by rewrite bool_decide_false.
Qed.

Lemma good_all b s w t (f : Z → list Z → World → go World) :
  f = mark_servers b → timeline_inv s w t →
  returns (fi ← the_finfo w; f t (range fi.(nservers)) w) (good_step w t (spec_mark b (range n) s)).
Proof.
  intros -> Hinv. pose proof Hinv as [_ _ _ (fi & Hfi & (_ & Hs & _) & _)].
  unfold the_finfo. rewrite Hfi. cbn [mbind go_bind]. rewrite Hs. apply good_mark; [done|].
  by intros i Hi%elem_of_range.
Qed.

(** The test's own annotations with the tag of the failures, and with others. *)
Lemma good_continuous s w t tag d dt color :
  timeline_inv s w t →
  good_step w t (spec_call n (CContinuous tag d dt color) s) (AnnotateContinuousColor t tag d dt color w).
Proof.
  intros Hinv. pose proof Hinv as [_ _ _ (fi & Hfi & Hwf)]. cbn [spec_call]. case_bool_decide as Ht.
  { subst tag. pose proof (good_replace s w t _ _ fi d dt color Hinv Hwf) as Hg. by rewrite (set_finfo_same w fi Hfi) in Hg. }
  assert (∀ a, a.(Tag) ≠ TAG_PARTITION → ∀ b, b ∈ [a] → b.(Tag) ≠ TAG_PARTITION) as Hone.
  { by intros a Ha b ->%list_elem_of_singleton. }
  unfold AnnotateContinuousColor, on_ann, annotateContinuousColor. destruct (_ !! tag).
  - eapply good_record; [done|done|by apply Hone| |done]. by apply lookup_insert_ne.
  - eapply (good_record _ _ _ _ []); [done|by rewrite app_nil_r|by intros ? ?%not_elem_of_nil| |done].
    by apply lookup_insert_ne.
Qed.

Lemma good_continuous_end s w t tag :
  timeline_inv s w t → good_step w t (spec_call n (CContinuousEnd tag) s) (AnnotateContinuousEnd t tag w).
Proof.
  intros Hinv. pose proof Hinv as [_ _ _ (fi & Hfi & Hwf)]. cbn [spec_call]. case_bool_decide as Ht.
  { subst tag. pose proof (good_end s w t _ _ fi Hinv Hwf) as Hg. by rewrite (set_finfo_same w fi Hfi) in Hg. }
  eapply good_record; [done|done| |by apply lookup_delete_ne|done]. by intros b ->%list_elem_of_singleton.
Qed.

Lemma do_call_good s w t (c : Call) :
  timeline_inv s w t → call_ok n c → returns (do_call t c w) (good_step w t (spec_call n c s)).
Proof.
  intros Hinv Hok. pose proof Hinv as [_ _ _ (fi & Hfi & Hwf)].
  assert (∀ a, a.(Tag) ≠ TAG_PARTITION → ∀ b, b ∈ [a] → b.(Tag) ≠ TAG_PARTITION) as Hone.
  { by intros a Ha b ->%list_elem_of_singleton. }
  destruct c as [tag ? ? ?|tag ? ? ? ?|tag ? ? ?|tag|dt|d dt color| |conn|p1 p2| |srvs| |srvs|]; cbn [do_call].
  - apply returns_Ret. eapply good_record; [done|done|by apply Hone|done|done].
  - apply returns_Ret. eapply good_record; [done|done|by apply Hone|done|done].
  - by apply returns_Ret, good_continuous.
  - by apply returns_Ret, good_continuous_end.
  - unfold AnnotateCheckerBegin, the_finfo. rewrite Hfi. apply returns_Ret.
    by apply (good_quiet s _ _ _ []); [done|rewrite app_nil_r|intros ? ?%not_elem_of_nil|done|eexists].
  - unfold AnnotateCheckerEnd, the_finfo. rewrite Hfi. cbn [mbind go_bind].
    destruct (_ =? 0); apply returns_Ret; (eapply good_record; [done|done|by apply Hone|done|done]).
  - by apply returns_Ret, (good_same s).
  - by apply good_connection.
  - apply returns_Ret. set (text := "partition = " +:+ show_ints p1 +:+ " " +:+ show_ints p2).
    exact (good_continuous s w t TAG_PARTITION text text COLOR_FAULT Hinv).
  - by apply good_clear.
  - by apply (good_mark true).
  - by apply (good_all true).
  - by apply (good_mark false).
  - by apply (good_all false).
Qed.

(** The calls made after [τ] do not matter for it. *)
Lemma timed_later calls : ∀ t tend τ, timed t calls tend → τ < t → filter (λ tc, tc.1 ≤ τ) calls = [].
Proof.
  induction calls as [|[t1 c] calls IH]; intros t tend τ; [done|]. intros [Ht Hr] Hτ. rewrite filter_cons_False by (cbn; lia).
  apply (IH t1 tend); [done|lia].
Qed.

(** A run shows, from its start on, what is to be shown at every moment. *)
Lemma run_calls_cover calls : ∀ s w t tend,
  timeline_inv s w t → timed t calls tend → Forall (λ tc, call_ok n tc.2) calls →
  returns (run_calls w calls) (λ w', (∃ s', timeline_inv s' w' tend) ∧
    ∀ τ d, d ≠ "" → (τ < t → cover w' τ d ↔ cover w τ d) ∧
      (t ≤ τ → cover w' τ d ↔
        sw_text (foldl (λ s tc, spec_call n tc.2 s) s (filter (λ tc, tc.1 ≤ τ) calls)) = Some d)).
Proof.
  induction calls as [|[t1 c] calls IH]; intros s w t tend Hinv Htimed Hok.
  - apply returns_Ret. split; [exists s; by eapply timeline_later|]. intros τ d Hd. split; [done|].
    intros Hτ. by eapply cover_now.
  - destruct Htimed as [Ht1 Htimed]. apply Forall_cons in Hok as [Hc Hok]. cbn [fst snd] in Hc.
    destruct (do_call_good s w t1 c) as (w1 & Hrun & Hinv1 & Hsame); [by eapply timeline_later|done|].
    unfold run_calls. cbn [foldM fst snd]. rewrite Hrun. cbn [mbind go_bind].
    eapply returns_mono; [by apply (IH (spec_call n c s) w1 t1 tend)|]. intros w' [Hinv' Hcover].
    split; [done|]. intros τ d Hd. destruct (Hcover τ d Hd) as [Hbefore Hafter].
    destruct (Z.ltb_spec τ t1) as [Hlt|Hge].
    + rewrite filter_cons_False by (cbn; lia). rewrite (timed_later calls t1 tend τ) by done. cbn [foldl].
      split; intros Hτ; rewrite (Hbefore Hlt), (Hsame τ d Hd Hlt); [done|]. by eapply cover_now.
    + rewrite filter_cons_True by (cbn; lia). cbn [foldl snd]. split; intros Hτ; [lia|]. by rewrite (Hafter Hge).
Qed.

Lemma elem_of_order (order : list (string * Continuous)) (m : gmap string Continuous) tag c :
  order ≡ₚ map_to_list m → (tag, c) ∈ order ↔ m !! tag = Some c.
Proof. intros ->. apply elem_of_map_to_list. Qed.

Lemma finalize_shows w order t1 t2 last τ d :
  order ≡ₚ map_to_list w.(annotation).(continuous) → τ < t1 →
  shows (FinalizeAnnotations t1 t2 order last w.(annotation)).1 τ d ↔ cover w τ d.
Proof.
  intros Horder Hτ. unfold FinalizeAnnotations, finalize, cover, shows. cbn [fst]. split.
  - intros (a & [[Hin|Hin]%elem_of_app|Hin]%elem_of_app & Htag & Hdesc & Hab).
    + left. by exists a.
    + right. apply list_elem_of_fmap in Hin as ([tag c] & -> & Hin). cbn in *. subst tag.
      apply (elem_of_order _ _ _ _ Horder) in Hin. exists c. by destruct Hab.
    + apply list_elem_of_singleton in Hin as ->. done.
  - intros [(a & Hin & Hrest)|(c & Hc & Hdesc & Hst)].
    + exists a. split; [|done]. rewrite !elem_of_app. by left; left.
    + exists (concretize t1 TAG_PARTITION c). split; [|cbn; repeat split; [done|lia|lia]].
      rewrite !elem_of_app. left; right. apply list_elem_of_fmap. exists (TAG_PARTITION, c).
      split; [done|]. by apply (elem_of_order _ _ _ _ Horder).
Qed.

Lemma AnnotateTest_inv t d w : 0 ≤ n → timeline_inv all_well (AnnotateTest t d n w) t.
Proof.
  intros Hn. split.
  - by intros a ->%list_elem_of_singleton.
  - done.
  - done.
  - exists (mkFrameworkInfo n). split; [done|]. split; [unfold fi_wf; cbn; rewrite !glen_replicate; lia|].
    intros i Hi. cbn. unfold zlookup. case_if; [lia|]. rewrite !lookup_replicate_2 by lia. done.
Qed.
End timeline.

(** C37. The visualisation of a test is faithful to what the tester reported:
    whatever it records, but for points and intervals with the failures' own tag,
    and in whatever order it reports its servers disconnected, connected, crashed and
    restarted, or two partitions, no call panics, and the finished annotations
    show, if the clock does not go backwards, at every moment exactly the text that follows from the calls made until
    then: after the last change which servers were cut off or crashed, the two
    partitions if these were reported later, and none when all was well. *)
Theorem fault_timeline n desc last t0 t1 t2 calls w :
  0 ≤ n → timed t0 calls t1 → Forall (λ tc, call_ok n tc.2) calls →
  returns (run_calls (AnnotateTest t0 desc n w) calls) (λ w', ∀ order,
    order ≡ₚ map_to_list w'.(annotation).(continuous) →
    ∀ τ d, d ≠ "" → t0 ≤ τ < t1 →
      shows (FinalizeAnnotations t1 t2 order last w'.(annotation)).1 τ d ↔ shown_at n calls τ = Some d).
Proof.
  intros Hn Htimed Hok.
  eapply returns_mono; [by apply (run_calls_cover n calls all_well (AnnotateTest t0 desc n w) t0 t1); [apply AnnotateTest_inv| |]|].
  intros w' [_ Hcover] order Horder τ d Hd Hτ.
  rewrite (finalize_shows _ _ _ _ _ _ _ Horder) by lia. apply (Hcover τ d Hd). lia.
Qed.
