(* ===== verification/TesterMain.v ===== *)
(** * A test from [MakeConfig] to [Cleanup]: [tester1/config.go]

    The record a test holds embeds the clients ([TesterClnts.v]) and the groups
    of servers ([TesterConfig.v], [TesterGroup.v]) and shares one network with
    both; [Cleanup] takes them down in this order, closes the socket on which the
    tester listens, and ends with the annotations ([Annotation.v]). *)

From S2P Require Import Prelude Names Gob Persister Annotation LabRpc TesterGroup TesterClnts TesterConfig.

Definition GRP0 : Z := 0.

(** [RPCSrv.Close], of a server whose goroutine has set [rpcs.l] or not. *)
Definition RPCSrv_Close (l : bool) : go unit := if l then Ret tt else Panic.

(** The whole [Config]: [tc_stats] are the fields that [Begin] and [End] use;
    [tc_trpc] is [trpc], with whether its goroutine listens by now; [tc_failed]
    is [t.Failed()]. *)
Record TestConfig := mkTestConfig {
  tc_clnts : Clnts; tc_groups : Groups; tc_net : Network; tc_stats : Config;
  tc_trpc : option bool; tc_ann : Annotation; tc_failed : bool;
}.

(** [names] and [starts] are what [MakeGroupStart] draws for the servers of the
    first group; [l]: the tester's socket is open. *)
Definition NewConfig (now : Z) (rel l : bool) (names : list (list string)) (starts : list Start) (an : Annotation) :
    go TestConfig :=
  s ← MakeGroupStart GRP0 names starts (newGroups, MakeNetwork);
  Ret (mkTestConfig makeClnts s.1 (Reliable rel s.2) (MakeConfig now) (Some l) an false).

Section config.
Implicit Types (cfg : TestConfig) (net : Network) (gs : Groups).

Definition on_net (f : Network → Network) cfg : TestConfig :=
  mkTestConfig cfg.(tc_clnts) cfg.(tc_groups) (f cfg.(tc_net)) cfg.(tc_stats) cfg.(tc_trpc) cfg.(tc_ann) cfg.(tc_failed).
Definition SetReliable (rel : bool) cfg : TestConfig := on_net (Reliable rel) cfg.
Definition IsReliable cfg : bool := cfg.(tc_net).(reliable).
Definition SetLongReordering (longrel : bool) cfg : TestConfig := on_net (LongReordering longrel) cfg.
Definition SetLongDelays (longdel : bool) cfg : TestConfig := on_net (LongDelays longdel) cfg.
Definition RpcTotal cfg : Z := cfg.(tc_net).(net_count).
Definition BytesTotal cfg : Z := cfg.(tc_net).(net_bytes).

(** [Begin] and [End] as methods of the whole record; the first group must be
    there to count its servers. *)
Definition TestBegin (now : Z) cfg : TestConfig :=
  mkTestConfig cfg.(tc_clnts) cfg.(tc_groups) cfg.(tc_net) (Begin now (RpcTotal cfg) cfg.(tc_stats)) cfg.(tc_trpc) cfg.(tc_ann) cfg.(tc_failed).
Definition TestEnd (now : Z) cfg : go (option (Z * Z * Z * Z)) :=
  if cfg.(tc_failed) then End_ now (RpcTotal cfg) 0 true cfg.(tc_stats)
  else
    _ ← CheckTimeout now false cfg.(tc_stats);
    match lookupGroup GRP0 cfg.(tc_groups) with
    | None => Panic
    | Some sg => End_ now (RpcTotal cfg) (N sg) false cfg.(tc_stats)
    end.

(** [Fatalf] prints, of the stack's frames, those in files with "test.go" in
    their name. *)
Definition Fatalf_frames (contains : string → string → bool) (frames : list (string * Z)) : go (list (string * Z)) :=
  if glen frames =? 0 then Panic else Ret (filter (λ f, contains f.1 "test.go" = true) frames).

(** What [Annotation.cleanup] needs: the clock, the map's order, [VIS_ENABLE]
    and whether the file can be opened. Returns what that function writes. *)
Record CleanupEnv := mkCleanupEnv {
  cv_now1 : Z; cv_now2 : Z; cv_order : list (string * Continuous); cv_enabled : string; cv_opened : bool;
}.
Definition Cleanup (env : CleanupEnv) cfg : go (option (list Ann) * TestConfig) :=
  c ← clnts_cleanup cfg.(tc_clnts) cfg.(tc_net);
  s ← groups_cleanup (cfg.(tc_groups), c.2);
  net ← LabRpc.Cleanup s.2;
  _ ← match cfg.(tc_trpc) with Some l => RPCSrv_Close l | None => Ret tt end;
  let '(vis, an) :=
    cleanup env.(cv_now1) env.(cv_now2) env.(cv_order) env.(cv_enabled) env.(cv_opened) cfg.(tc_failed)
      (if cfg.(tc_failed) then "test failed" else "test passed") cfg.(tc_ann) in
  Ret (vis, mkTestConfig c.1 s.1 net cfg.(tc_stats) cfg.(tc_trpc) an cfg.(tc_failed)).

(** ** Clerks *)

(** The ends of all clerks. *)
Definition clnt_ends (clnt : Clnt) : list string := e_name <$> (map_to_list clnt.(c_ends)).*2.
Definition clerk_ends (clnts : Clnts) : list string := concat (clnt_ends <$> (map_to_list clnts.(clerks)).*2).

Lemma delete_ends l : ∀ net,
  NoDup l → (∀ e, e ∈ l → end_exists net e) →
  ∃ net', foldM (λ net e, DeleteEnd e net) net l = Ret net' ∧
    (∀ e, end_exists net' e ↔ e ∉ l ∧ end_exists net e) ∧
    (∀ e, is_enabled net' e = true → is_enabled net e = true) ∧
    net'.(servers) = net.(servers) ∧ net'.(net_done) = net.(net_done).
Proof.
  induction l as [|x l IH]; intros net Hnd Hex; cbn [foldM].
  { exists net. split_and!; try done. intros e. rewrite elem_of_nil. tauto. }
  apply NoDup_cons in Hnd as [Hx Hnd]. destruct (Hex x ltac:(left)) as [ce Hce].
  set (net1 := net <| ends := delete x net.(ends) |> <| enabled := delete x net.(enabled) |>
                   <| connections := delete x net.(connections) |>).
  assert (DeleteEnd x net = Ret net1) as -> by (unfold DeleteEnd; by rewrite Hce). cbn [mbind go_bind].
  assert (∀ e, end_exists net1 e ↔ e ≠ x ∧ end_exists net e) as H1.
  { intros e. unfold end_exists, net1. cbn. rewrite lookup_delete_is_Some. split; intros [? ?]; split; auto. }
  destruct (IH net1) as (net' & -> & He & Hen & Hs & Hd); [done| |].
  { intros e Hin. apply H1. split; [by intros ->|]. apply Hex. by right. }
  exists net'. split; [done|]. split_and!; try done.
  - intros e. rewrite He, H1, elem_of_cons. tauto.
  - intros e Hen'%Hen. unfold is_enabled, net1 in *. cbn in Hen'. destruct (decide (e = x)) as [->|Hne].
    + by rewrite lookup_delete_eq in Hen'.
    + by rewrite lookup_delete_ne in Hen'.
Qed.

Lemma clnts_cleanup_ends clnts net :
  clnts_cleanup clnts net =
    (net ← foldM (λ net e, DeleteEnd e net) net (clerk_ends clnts); Ret (mkClnts ∅, net)).
Proof.
  unfold clnts_cleanup, clerk_ends. f_equal. generalize (map_to_list clnts.(clerks)).*2. intros l. revert net.
  induction l as [|clnt l IH]; intros net; [done|]. cbn [foldM fmap list_fmap concat]. rewrite foldM_app.
  assert (remove clnt net = foldM (λ net e, DeleteEnd e net) net (clnt_ends clnt)) as ->.
  { unfold remove, clnt_ends. generalize (map_to_list clnt.(c_ends)).*2. clear. intros l. revert net.
    induction l as [|e l IH]; intros net; cbn [foldM fmap list_fmap]; [done|].
    destruct (DeleteEnd _ net); cbn [mbind go_bind]; [apply IH|done|done]. }
  destruct (foldM _ _ _); cbn [mbind go_bind]; [apply IH|done|done].
Qed.

(** ** Groups *)

(** [net'] lets no request through that [net] does not. *)
Record shrinks net net' : Prop := {
  sh_enabled : ∀ e, is_enabled net' e = true → is_enabled net e = true;
  sh_server : ∀ name p, server_of net' name = Some p → server_of net name = Some p;
  sh_ends : ∀ e, end_exists net' e → end_exists net e;
  sh_done : net'.(net_done) = net.(net_done);
}.

#[local] Instance shrinks_preorder : PreOrder shrinks.
Proof.
  split; [by constructor|]. intros n1 n2 n3 [He Hs Hx Hd] [He' Hs' Hx' Hd']. constructor; [auto..|congruence].
Qed.

Lemma shrinks_disable e net : shrinks net (Enable e false net).
Proof.
  constructor; try done. intros e'. rewrite is_enabled_Enable. by case_decide.
Qed.

Lemma disconnect_shrinks i from g g' : disconnect i from g = Ret g' → shrinks g.2 g'.2.
Proof.
  unfold disconnect. intros H. go_inv H. subst g'. cbn. transitivity a1.
  - unfold srv_disconnect in Ha1. destruct (endNames a0); [|by go_inv Ha1; subst].
    eapply (foldM_Ret_inv _ (λ net, shrinks g.2 net)); [|done|exact Ha1].
    cbn beta. intros net x net' Hn H. go_inv H. subst. etransitivity; [exact Hn|]. apply shrinks_disable.
  - eapply (foldM_Ret_inv _ (λ net, shrinks a1 net)); [|done|exact Ha2].
    intros net x net' Hn. unfold disable_from. intros H. go_inv H.
    destruct (endNames a3); go_inv H; subst; [|exact Hn]. etransitivity; [exact Hn|]. apply shrinks_disable.
Qed.

Lemma Kill_shrinks l g g' : Kill l g = Ret g' → shrinks g.2 g'.2.
Proof.
  unfold Kill. intros H. eapply (foldM_Ret_inv _ (λ h : Grp, shrinks g.2 h.2)); [|done|exact H].
  clear. intros h i h' Hh. unfold ShutdownServer. intros H. go_inv H. subst h'. cbn. etransitivity; [exact Hh|].
  etransitivity; [by eapply disconnect_shrinks|]. constructor; try done.
  intros name p. unfold server_of. cbn. rewrite lookup_insert. by case_decide.
Qed.

Lemma down_shrinks n sg net net' i : down n (sg, net) i → shrinks net net' → down n (sg, net') i.
Proof.
  intros [Hr Hs Hc Hl] [He Hsv _ _]. constructor; try done.
  - intros [p Hp]. apply Hs. exists p. by apply Hsv.
  - intros a Ha. destruct (Hl a Ha) as [H1 H2]. cbn [fst snd] in *. unfold lnk in *.
    split; [revert H1; destruct (nm _ i a)|revert H2; destruct (nm _ a i)]; try done;
      intros Hf; destruct (is_enabled net' _) eqn:E; try done; apply He in E; cbn in Hf; congruence.
Qed.

(** Every server of the group is down. *)
Definition all_down sg net : Prop := ∀ i, 0 ≤ i < N sg → down (N sg) (sg, net) i.

Lemma Shutdown_down sg net :
  group_ok (sg, net) (N sg) → procs_ok sg.(srvs) →
  ∃ sg' net', Shutdown (sg, net) = Ret (sg', net') ∧ N sg' = N sg ∧ all_down sg' net' ∧ shrinks net net'.
Proof.
  intros Hg Hp. unfold Shutdown.
  destruct (Kill_down (N sg) (all sg) (sg, net) Hg) as ([sg' net'] & E & Hg' & _ & Hd);
    [by intros i s _; apply Hp|by intros i ?%elem_of_all|].
  cbn [fst] in *. rewrite E. exists sg', net'. split; [done|].
  assert (N sg' = N sg) as HN by exact (eo_len _ _ (proj1 Hg')). split; [done|]. split.
  - intros i Hi. rewrite HN in *. apply Hd; [done|]. left. by apply elem_of_all.
  - exact (Kill_shrinks _ _ _ E).
Qed.

Lemma shutdown_groups l : ∀ gs net,
  NoDup l → (∀ gid, gid ∈ l → ∃ sg, gs !! gid = Some sg ∧ group_ok (sg, net) (N sg) ∧ procs_ok sg.(srvs)) →
  ∃ gs' net', foldM (λ s gid, on_group gid Shutdown s) (gs, net) l = Ret (gs', net') ∧ shrinks net net' ∧
    (∀ gid, gid ∈ l → ∃ sg, gs' !! gid = Some sg ∧ all_down sg net') ∧
    (∀ gid, gid ∉ l → gs' !! gid = gs !! gid).
Proof.
  induction l as [|gid l IH]; intros gs net Hnd Hl; cbn [foldM].
  { exists gs, net. split_and!; try done. intros gid ?%not_elem_of_nil. done. }
  apply NoDup_cons in Hnd as [Hgid Hnd]. destruct (Hl gid ltac:(left)) as (sg & Hgs & Hg & Hp).
  destruct (Shutdown_down sg net Hg Hp) as (sg1 & net1 & E & HN & Hd1 & Hs1).
  assert (on_group gid Shutdown (gs, net) = Ret (<[gid := sg1]> gs, net1)) as ->
    by (unfold on_group, lookupGroup; cbn [fst snd]; by rewrite Hgs, E).
  cbn [mbind go_bind]. destruct (IH (<[gid := sg1]> gs) net1 Hnd) as (gs' & net' & -> & Hs' & Hin & Hout).
  { intros g Hin. assert (g ≠ gid) by (by intros ->). destruct (Hl g ltac:(by right)) as (sg' & Hsg' & Hg').
    exists sg'. rewrite lookup_insert_ne by done. done. }
  exists gs', net'. split; [done|]. split; [by etransitivity|]. split.
  - intros g [->|Hin']%elem_of_cons; [|by apply Hin]. exists sg1. rewrite (Hout gid Hgid), lookup_insert_eq.
    split; [done|]. intros i Hi. by eapply down_shrinks; [apply Hd1|].
  - intros g Hg'. rewrite elem_of_cons in Hg'. rewrite Hout by tauto. apply lookup_insert_ne. naive_solver.
Qed.

(** A group with a process that has ended by itself stops the loop. *)
Definition ended (sg : ServerGrp) : Prop := ∃ i s, sg.(srvs).[i] = Some s ∧ ¬ proc_ok s.

Lemma Shutdown_ended sg net : group_ok (sg, net) (N sg) → ended sg → Shutdown (sg, net) = Fatal.
Proof.
  intros Hg (i & s & Hs & Hp). pose proof (zlookup_lt_Some _ _ _ Hs) as Hi.
  assert (∃ d, s.(dc) = Some d ∧ d.(da_proc) ≠ Alive) as (d & Hd & Hal).
  { unfold proc_ok in Hp. destruct (dc s) as [d|]; [|by destruct Hp]. exists d. split; [done|]. intros Hal. apply Hp. by intros ? [= <-]. }
  apply (Kill_ended (N sg) i s d); try done; [by intros j ?%elem_of_all|apply NoDup_seqZ|by apply elem_of_all].
Qed.

Lemma procs_ok_or sg : procs_ok sg.(srvs) ∨ ended sg.
Proof.
  destruct (decide (Exists (λ s, ¬ proc_ok s) sg.(srvs))) as [He|He].
  - right. apply Exists_exists in He as (s & Hs & Hp). apply zlookup_elem_of in Hs as [i Hi]. by exists i, s.
  - left. intros i s Hs. apply dec_stable. intros Hp. apply He, Exists_exists. exists s. split; [|done].
    apply zlookup_elem_of. by exists i.
Qed.

Lemma shutdown_groups_ended l : ∀ gs net,
  NoDup l → (∀ gid, gid ∈ l → ∃ sg, gs !! gid = Some sg ∧ group_ok (sg, net) (N sg)) →
  (∃ gid sg, gid ∈ l ∧ gs !! gid = Some sg ∧ ended sg) →
  foldM (λ s gid, on_group gid Shutdown s) (gs, net) l = Fatal.
Proof.
  induction l as [|gid l IH]; intros gs net Hnd Hl (gid0 & sg0 & Hin & Hsg0 & Hend); [by apply elem_of_nil in Hin|].
  cbn [foldM]. apply NoDup_cons in Hnd as [Hgid Hnd]. destruct (Hl gid ltac:(left)) as (sg & Hgs & Hg).
  unfold on_group at 2, lookupGroup. cbn [fst snd]. rewrite Hgs. destruct (procs_ok_or sg) as [Hp|He].
  - destruct (Shutdown_down sg net Hg Hp) as (sg1 & net1 & -> & _). cbn [mbind go_bind fst snd].
    assert (gid0 ≠ gid) as Hne.
    { intros ->. rewrite Hgs in Hsg0. injection Hsg0 as <-. destruct Hend as (i & s & Hs & Hn). by apply Hn, (Hp i). }
    apply IH; [done| |].
    + intros g Hin'. assert (g ≠ gid) by (by intros ->). destruct (Hl g ltac:(by right)) as (sg' & Hsg' & Hg').
      exists sg'. rewrite lookup_insert_ne by done. done.
    + exists gid0, sg0. rewrite lookup_insert_ne by done. apply elem_of_cons in Hin as [?|Hin]; done.
  - by rewrite (Shutdown_ended sg net Hg He).
Qed.

(** ** The end of a test *)

(** The clerks' ends are in the network, each belongs to one clerk, and every
    group's servers have ends of their own. *)
Record test_ok cfg : Prop := {
  to_nodup : NoDup (clerk_ends cfg.(tc_clnts));
  to_ends : ∀ e, e ∈ clerk_ends cfg.(tc_clnts) → end_exists cfg.(tc_net) e;
  to_groups : ∀ gid sg, cfg.(tc_groups) !! gid = Some sg → group_ok (sg, cfg.(tc_net)) (N sg);
  to_done : cfg.(tc_net).(net_done) = false;
}.

(** What the annotations' clean-up writes and leaves. *)
Lemma cleanup_writes now1 now2 order enabled opened failed last an :
  let r := cleanup now1 now2 order enabled opened failed last an in
  (is_Some r.1 → (failed = true ∨ enabled = "always") ∧ enabled ≠ "never" ∧ an.(finalized) = false) ∧
  (failed = false → enabled ≠ "always" → r.2 = clear).
Proof.
  unfold cleanup. destruct (bool_decide_reflect (enabled = "never")) as [|Hn]; [split; [by intros []|done]|].
  split.
  - destruct an.(finalized); [rewrite orb_true_r; by intros []|].
    destruct failed; [by repeat split; try left|].
    destruct (bool_decide_reflect (enabled = "always")); [by repeat split; try right|by intros []].
  - intros -> Ha. by rewrite (bool_decide_false (_ = "always")) by done.
Qed.

(** No server process has ended by itself. *)
Definition processes_alive cfg : Prop := ∀ gid sg, cfg.(tc_groups) !! gid = Some sg → procs_ok sg.(srvs).

(** C27. [Cleanup], on every path. If a server process has ended by itself, the
    call that copies its persister fails and [log.Fatalf] ends the test. If the
    tester's socket is not open yet, closing it panics. Otherwise [Cleanup]
    returns and leaves nothing behind: no clerk and none of the clerks' ends;
    every server of every group is stopped, is not served by the network and is
    cut off from its group; the network takes no more requests. It writes
    annotations only if the test failed or [VIS_ENABLE] is "always",
    [VIS_ENABLE] is not "never", and they have not been finalised; when it does
    not, and there is nothing to open, they are cleared. *)
Theorem Cleanup_spec env cfg :
  test_ok cfg →
  (∀ gid sg i s, cfg.(tc_groups) !! gid = Some sg → sg.(srvs).[i] = Some s → ¬ proc_ok s →
     Cleanup env cfg = Fatal) ∧
  (processes_alive cfg → cfg.(tc_trpc) = Some false → Cleanup env cfg = Panic) ∧
  (processes_alive cfg → cfg.(tc_trpc) ≠ Some false → ∃ vis cfg', Cleanup env cfg = Ret (vis, cfg') ∧
    cfg'.(tc_clnts) = makeClnts ∧
    (∀ e, e ∈ clerk_ends cfg.(tc_clnts) → ¬ end_exists cfg'.(tc_net) e) ∧
    (∀ gid, is_Some (cfg.(tc_groups) !! gid) →
       ∃ sg, cfg'.(tc_groups) !! gid = Some sg ∧ all_down sg cfg'.(tc_net)) ∧
    cfg'.(tc_net).(net_done) = true ∧
    (is_Some vis → (cfg.(tc_failed) = true ∨ env.(cv_enabled) = "always") ∧ env.(cv_enabled) ≠ "never" ∧
       cfg.(tc_ann).(finalized) = false) ∧
    (cfg.(tc_failed) = false → env.(cv_enabled) ≠ "always" → cfg'.(tc_ann) = clear)).
Proof.
  intros [Hnd Hex Hg Hdone]. unfold Cleanup. rewrite clnts_cleanup_ends.
  destruct (delete_ends _ _ Hnd Hex) as (net1 & -> & Hx1 & He1 & Hs1 & Hd1). cbn [mbind go_bind fst snd].
  unfold groups_cleanup. cbn [fst]. pose proof (NoDup_fst_map_to_list cfg.(tc_groups)) as Hndg.
  assert (∀ gid, gid ∈ (map_to_list cfg.(tc_groups)).*1 ↔ is_Some (cfg.(tc_groups) !! gid)) as Hgids.
  { intros gid. rewrite list_elem_of_fmap. split.
    - intros ([g sg] & -> & Hin%elem_of_map_to_list). by exists sg.
    - intros [sg Hsg]. exists (gid, sg). split; [done|]. by apply elem_of_map_to_list. }
  split.
  { intros gid sg i s Hsg Hs Hp. rewrite shutdown_groups_ended; [done|done| |].
    - intros g Hin%Hgids. destruct Hin as [sg' Hsg']. exists sg'. split; [done|]. exact (Hg g sg' Hsg').
    - exists gid, sg. split; [apply Hgids; by exists sg|]. split; [done|]. by exists i, s. }
  assert (processes_alive cfg → ∃ gs2 net2,
    foldM (λ s gid, on_group gid Shutdown s) (cfg.(tc_groups), net1) (map_to_list cfg.(tc_groups)).*1 = Ret (gs2, net2) ∧
    shrinks net1 net2 ∧ LabRpc.Cleanup net2 = Ret (net2 <| net_done := true |>) ∧
    ∀ gid, is_Some (cfg.(tc_groups) !! gid) → ∃ sg, gs2 !! gid = Some sg ∧ all_down sg net2) as Hrun.
  { intros Hp. destruct (shutdown_groups (map_to_list cfg.(tc_groups)).*1 cfg.(tc_groups) net1)
      as (gs2 & net2 & E & Hs2 & Hdown & _); [done| |].
    - intros gid [sg Hsg]%Hgids. exists sg. split; [done|]. split; [exact (Hg gid sg Hsg)|exact (Hp gid sg Hsg)].
    - exists gs2, net2. split; [done|]. split; [done|]. split; [|intros gid Hgid; by apply Hdown, Hgids].
      unfold LabRpc.Cleanup. by rewrite (sh_done _ _ Hs2), Hd1, Hdone. }
  split.
  { intros Hp Hl. destruct (Hrun Hp) as (gs2 & net2 & -> & _ & E & _). cbn [mbind go_bind snd]. rewrite E. cbn [mbind go_bind].
    by rewrite Hl. }
  intros Hp Hl. destruct (Hrun Hp) as (gs2 & net2 & -> & [He2 Hsv2 Hx2 Hd2] & E & Hdown). cbn [mbind go_bind snd]. rewrite E.
  cbn [mbind go_bind]. assert (match cfg.(tc_trpc) with Some l => RPCSrv_Close l | None => Ret tt end = Ret tt) as ->
    by (destruct (tc_trpc cfg) as [[]|]; done).
  cbn [mbind go_bind]. match goal with |- context [cleanup ?a ?b ?c ?d ?e ?f ?g ?h] => pose proof (cleanup_writes a b c d e f g h) as [Hvis Hclear] end.
  destruct (cleanup _ _ _ _ _ _ _ _) as [vis an]. cbn [fst snd] in Hvis, Hclear |- *.
  eexists vis, _. split; [reflexivity|]. cbn [tc_clnts tc_net tc_groups tc_ann]. split_and!.
  - done.
  - intros e He Hend. apply Hx2, Hx1 in Hend as [? _]. done.
  - intros gid Hgid. destruct (Hdown gid Hgid) as (sg' & Hsg' & Hall).
    exists sg'. split; [done|]. intros i Hi. destruct (Hall i Hi) as [? ? ? ?]. by constructor.
  - done.
  - exact Hvis.
  - exact Hclear.
Qed.

(** *** The network is not closed before *)

Lemma make_ends_done gid j names net r : make_ends gid j names net = Ret r → r.2.(net_done) = net.(net_done).
Proof.
  revert j net r. induction names as [|name names IH]; intros j net r H; cbn in H; go_inv H; [by subst|].
  subst r. cbn. apply IH in Ha0. rewrite Ha0. unfold MakeEnd in Ha. destruct (ends net !! name); [done|]. go_inv Ha. by subst a.
Qed.

Lemma makeServer_done gid names net r : makeServer gid names net = Ret r → r.2.(net_done) = net.(net_done).
Proof. unfold makeServer. intros H. go_inv H. subst r. cbn. by eapply make_ends_done. Qed.

Lemma makeSrvGrp_done gid names net r : makeSrvGrp gid names net = Ret r → r.2.(net_done) = net.(net_done).
Proof.
  unfold makeSrvGrp. intros H. go_inv H. subst r. cbn. revert net a Ha.
  induction names as [|ns names IH]; intros net a Ha; cbn in Ha; go_inv Ha; [by subst|]. subst a. cbn.
  etransitivity; [by eapply IH|by eapply makeServer_done].
Qed.

Lemma StartServer_done i names st p g g' : StartServer i names st p g = Ret g' → g'.2.(net_done) = g.2.(net_done).
Proof.
  unfold StartServer, startServer. intros H. go_inv H. go_inv Ha0. apply makeServer_done in Ha1. subst a0. cbn in H.
  destruct (negb st); go_inv H; subst g'; exact Ha1.
Qed.

Lemma connect_done i to g g' : connect i to g = Ret g' → g'.2.(net_done) = g.2.(net_done).
Proof.
  unfold connect. intros H. go_inv H. subst g'. cbn. transitivity (net_done a1).
  - eapply (foldM_Ret_inv _ (λ net, net_done net = net_done a1)); [|done|exact Ha2].
    intros net x net' Hn. unfold enable_from. intros H. go_inv H. destruct a3; go_inv H; subst; exact Hn.
  - eapply (foldM_Ret_inv _ (λ net, net_done net = net_done g.2)); [|done|exact Ha1].
    intros net x net' Hn. unfold enable_to. intros H. go_inv H. destruct a3; go_inv H; subst; exact Hn.
Qed.

Lemma MakeGroupStart_done gid names starts s s' :
  MakeGroupStart gid names starts s = Ret s' → s'.2.(net_done) = s.2.(net_done).
Proof.
  unfold MakeGroupStart, MakeGroup. intros H. apply bind_Ret_inv in H as (s1 & H1 & H).
  apply bind_Ret_inv in H1 as (g & Hg & [= <-]). apply makeSrvGrp_done in Hg. rewrite <-Hg. unfold on_group in H. cbn [fst snd] in H.
  destruct (lookupGroup _ _) as [sg|]; [|done]. apply bind_Ret_inv in H as (g2 & H & [= <-]). cbn [snd].
  unfold StartServers in H. apply bind_Ret_inv in H as (g1 & H1 & H2). transitivity (net_done g1.2).
  - unfold ConnectAll, ConnectOne in H2.
    eapply (foldM_Ret_inv _ (λ g : Grp, net_done g.2 = net_done g1.2)); [|done|exact H2].
    intros h x h' Hh Hc. by rewrite (connect_done _ _ _ _ Hc).
  - unfold StartSrvs in H1. apply (foldM_Ret_inv _ (λ h : Grp, net_done h.2 = net_done g.2)) in H1; [exact H1| |done].
    intros h x h' Hh Hc. by rewrite (StartServer_done _ _ _ _ _ _ Hc).
Qed.

(** A test that [MakeConfig] has set up is in order, with all servers of its
    first group running and connected, and so it can also end at once. *)
Theorem NewConfig_spec now rel l names starts an :
  let n := glen names in
  (∀ ns, ns ∈ names → glen ns = n) → NoDup (concat names) → startable n MakeNetwork starts →
  (∀ e, e ∈ concat names → e ∉ concat (st_names <$> starts)) →
  ∃ cfg sg, NewConfig now rel l names starts an = Ret cfg ∧ test_ok cfg ∧ processes_alive cfg ∧ IsReliable cfg = rel ∧
    lookupGroup GRP0 cfg.(tc_groups) = Some sg ∧ N sg = n ∧ all_up n (sg, cfg.(tc_net)) ∧
    cfg.(tc_clnts) = makeClnts.
Proof.
  intros n Hl Hnd Hst Hdisj.
  assert (∀ e, ¬ end_exists MakeNetwork e) as Hnew by (intros e [x Hx]; discriminate Hx).
  destruct (MakeGroupStart_spec GRP0 names starts newGroups MakeNetwork Hl Hnd ltac:(auto) Hst Hdisj)
    as (sg & net & E & Hgid & HN & Hup).
  pose proof (MakeGroupStart_done _ _ _ _ _ E) as Hdone. unfold NewConfig. rewrite E. cbn [mbind go_bind fst snd].
  eexists _, sg. split; [reflexivity|]. split; [|split; [|split; [done|split; [apply lookup_insert_eq|]]]].
  - constructor; cbn [tc_clnts tc_net tc_groups].
    + constructor.
    + by intros e ?%not_elem_of_nil.
    + intros gid sg' [[_ <-]|[_ Hno]]%lookup_insert_Some; [|unfold newGroups in Hno; by rewrite lookup_empty in Hno]. rewrite HN. apply Hup.
    + exact Hdone.
  - intros gid sg' Hsg'. cbn [tc_groups] in Hsg'. apply lookup_insert_Some in Hsg' as [[_ <-]|[_ Hno]].
    + exact (all_up_procs _ _ Hup).
    + unfold newGroups in Hno. by rewrite lookup_empty in Hno.
  - split; [done|]. split; [|done]. destruct Hup as [? ? ? ? ?]. by constructor.
Qed.
End config.
