(* ===== verification/TesterMainWitness.v ===== *)
(** * A test from [MakeConfig] to [Cleanup], concretely

    Two servers, and one clerk that has an end to each of them. *)

From S2P Require Import Prelude Names Gob Persister Annotation LabRpc TesterGroup TesterClnts TesterConfig TesterConfigWitness TesterMain.

Definition two_servers : go TestConfig := NewConfig 0 false true (two_names "a") two_starts mkAnnotation0.

(** The clerk makes its ends [c0] and [c1]. *)
Definition with_clerk : go TestConfig :=
  cfg ← two_servers;
  r ← makeEnd (ServerName GRP0 0) "c0" (makeClntTo None) cfg.(tc_net);
  r ← makeEnd (ServerName GRP0 1) "c1" r.1.2 r.2;
  Ret (mkTestConfig (mkClnts {[7 := r.1.2]}) cfg.(tc_groups) r.2 cfg.(tc_stats) cfg.(tc_trpc) cfg.(tc_ann) cfg.(tc_failed)).

Definition test_run : TestConfig :=
  result with_clerk (mkTestConfig makeClnts ∅ MakeNetwork (MakeConfig 0) (Some true) mkAnnotation0 true).

Lemma NewConfig_spec_witness :
  ∃ cfg sg, two_servers = Ret cfg ∧ test_ok cfg ∧ processes_alive cfg ∧ lookupGroup GRP0 cfg.(tc_groups) = Some sg ∧
    lnk sg.(srvs) cfg.(tc_net) 0 1 = true.
Proof.
  destruct (NewConfig_spec 0 false true (two_names "a") two_starts mkAnnotation0)
    as (cfg & sg & E & Hok & Hal & _ & Hsg & _ & Hup & _).
  - apply Forall_forall. by repeat constructor.
  - by apply (bool_decide_unpack _).
  - constructor.
    + reflexivity.
    + apply Forall_forall. by repeat constructor.
    + by apply (bool_decide_unpack _).
    + intros e _ [x Hx]. discriminate Hx.
  - apply Forall_forall. by apply (bool_decide_unpack _).
  - exists cfg, sg. split; [exact E|]. split; [exact Hok|]. split; [exact Hal|]. split; [exact Hsg|].
    apply (au_lnk _ _ Hup 0 1); split; done.
Defined.

Lemma two_servers_result cfg : two_servers = Ret cfg → test_run.(tc_groups) = cfg.(tc_groups).
Proof.
  intros E. assert (test_run.(tc_groups) = (result two_servers cfg).(tc_groups)) as -> by (vm_compute; reflexivity).
  by rewrite E.
Qed.

(** [Cleanup] after a test that failed: the annotations go to the file. *)
Definition cleanup_env : CleanupEnv := mkCleanupEnv 10 11 [] "" true.
Definition failed_run : TestConfig :=
  mkTestConfig test_run.(tc_clnts) test_run.(tc_groups) test_run.(tc_net) test_run.(tc_stats) test_run.(tc_trpc)
    (annotatePointColor 3 "t" "d" "dt" COLOR_INFO test_run.(tc_ann)) true.

Lemma failed_run_ok : test_ok failed_run.
Proof.
  destruct NewConfig_spec_witness as (cfg & sg0 & E & [_ _ Hg _] & _). constructor.
  - assert (clerk_ends failed_run.(tc_clnts) = ["c1"; "c0"]) as -> by (vm_compute; reflexivity).
    by apply (bool_decide_unpack _).
  - assert (clerk_ends failed_run.(tc_clnts) = ["c1"; "c0"]) as -> by (vm_compute; reflexivity).
    intros e. rewrite !elem_of_cons, elem_of_nil. intros [->|[->|[]]]; eexists; vm_compute; reflexivity.
  - intros gid sg. generalize (tc_net failed_run). intros net.
    assert (tc_groups failed_run = tc_groups cfg) as -> by (rewrite <-(two_servers_result cfg E); reflexivity).
    intros Hsg. destruct (Hg gid sg Hsg) as [Hends Hlen]. split; [exact Hends|exact Hlen].
  - vm_compute. reflexivity.
Qed.

Lemma failed_run_alive : processes_alive failed_run.
Proof.
  destruct NewConfig_spec_witness as (cfg & sg0 & E & _ & Hal & _). intros gid sg Hsg.
  assert (tc_groups failed_run = tc_groups cfg) as Heq by (rewrite <-(two_servers_result cfg E); reflexivity).
  rewrite Heq in Hsg. exact (Hal gid sg Hsg).
Qed.

(** A test whose tester's socket is not open, and one in which the process of
    server 1 has ended by itself. *)
Definition unopened (cfg : TestConfig) : TestConfig :=
  mkTestConfig cfg.(tc_clnts) cfg.(tc_groups) cfg.(tc_net) cfg.(tc_stats) (Some false) cfg.(tc_ann) cfg.(tc_failed).
Definition end_process (s : TServer) : TServer :=
  s <| dc := (λ d, mkDaemon d.(da_persister) Ended) <$> s.(dc) |>.
Definition ended_run : TestConfig :=
  mkTestConfig failed_run.(tc_clnts) ((λ sg, sg <| srvs := alter end_process 1%nat sg.(srvs) |>) <$> failed_run.(tc_groups))
    failed_run.(tc_net) failed_run.(tc_stats) failed_run.(tc_trpc) failed_run.(tc_ann) true.

Lemma unopened_ok cfg : test_ok cfg → processes_alive cfg → test_ok (unopened cfg) ∧ processes_alive (unopened cfg).
Proof. intros [? ? ? ?] Hal. split; [by constructor|exact Hal]. Qed.

Lemma Cleanup_spec_witness :
  (∃ vis cfg', Cleanup cleanup_env failed_run = Ret (vis, cfg') ∧ ¬ end_exists cfg'.(tc_net) "c1" ∧
    cfg'.(tc_net).(net_done) = true ∧ is_Some vis) ∧
  Cleanup cleanup_env (unopened failed_run) = Panic.
Proof.
  split.
  - destruct (Cleanup_spec cleanup_env failed_run failed_run_ok) as (_ & _ & Hc).
    destruct (Hc failed_run_alive) as (vis & cfg' & E & _ & Hends & _ & Hd & _); [vm_compute; discriminate|].
    exists vis, cfg'. split; [exact E|]. split.
    + apply Hends. assert (clerk_ends failed_run.(tc_clnts) = ["c1"; "c0"]) as -> by (vm_compute; reflexivity). left.
    + split; [exact Hd|]. assert (returned (fst <$> Cleanup cleanup_env failed_run) = true ∧
        result (fst <$> Cleanup cleanup_env failed_run) None ≠ None) as [_ Hv] by (split; [|intros Hn]; vm_compute in *; done).
      rewrite E in Hv. by apply not_eq_None_Some.
  - destruct (unopened_ok failed_run failed_run_ok failed_run_alive) as [Hok Hal].
    apply (Cleanup_spec cleanup_env (unopened failed_run) Hok); [exact Hal|reflexivity].
Defined.

(** With the process of server 1 gone, [Cleanup] ends the test. *)
Example ended_process_fatal : Cleanup cleanup_env ended_run = Fatal.
Proof. vm_compute. reflexivity. Qed.
