(* ===== verification/Porcupine.v ===== *)
(** * The linearizability check of the tests: [checkPorcupine]

    [kvtest1/porcupine.go] hands the log of operations to the porcupine library,
    fails the test if the history is illegal, and writes a visualisation with
    the annotations of [Annotation.v] when it is told to. The library and the
    files are interfaces. The theorems compose the check with the clients that
    wrote the log ([KvLog.v]) and with the annotations' own [cleanup], which
    runs at the end of the test and writes to the same file. *)

From S2P Require Import Prelude Annotation KvServer KvLin KvLog.

(** ** The library *)

(** [porcupine.CheckResult] *)
Inductive CheckResult := Ok | Illegal | Unknown.

#[export] Instance CheckResult_eq_dec : EqDecision CheckResult.
Proof. solve_decision. Defined.

(** The functions of the library the code calls, with [KvModel] as the model. *)
Class Checker (Info : Type) := {
  CheckOperationsVerbose : list KvModel.Operation → Z → CheckResult * Info;
  AddAnnotations : list Ann → Info → Info;
}.

(** What the library documents: only a history that is not linearizable is
    illegal, and one it accepts is linearizable; it may give up. *)
Class CheckerLaws (Info : Type) `{Checker Info} := {
  Illegal_sound : ∀ history nsec info, CheckOperationsVerbose history nsec = (Illegal, info) → ¬ lin_history history;
  Ok_sound : ∀ history nsec info, CheckOperationsVerbose history nsec = (Ok, info) → lin_history history;
}.

(** [os.CreateTemp] with the code's pattern, [os.OpenFile] for writing, and
    [porcupine.Visualize], which reports whether it wrote the file. *)
Class Files (File : Type) := { CreateTemp : option File; OpenFile : string → option File }.
Class Visualizer (Info File : Type) := { Visualize : Info → File → bool }.

(** ** [checkPorcupine] *)

(** The lines it prints. *)
Inductive Msg := OpenFailed | WriteFailed | Wrote | TimedOut.

(** What the check leaves behind: whether the test failed, the file it opened
    or truncated, what it visualised, and what it printed. *)
Record CheckEnd {Info File : Type} := mkCheckEnd {
  ce_failed : bool; ce_opened : option File; ce_shown : option (Info * File); ce_msgs : list Msg;
}.
Arguments CheckEnd : clear implicits.
Arguments mkCheckEnd {Info File}.

(** [VIS_ENABLE] and [VIS_FILE], the clock at the two readings of
    [FinalizeAnnotations], and the order in which it walks its map. *)
Record VisEnv := mkVisEnv {
  VIS_ENABLE : string; VIS_FILE : string; ve_now1 : Z; ve_now2 : Z; ve_order : list (string * Continuous);
}.

Section check.
Context {Info File : Type} `{Checker Info} `{Files File} `{Visualizer Info File}.
Implicit Types (env : VisEnv) (an : Annotation).

Definition open_vis (fpath : string) : option File :=
  if bool_decide (fpath = "") then CreateTemp else OpenFile fpath.

(** The annotations are finalised and the file is written. *)
Definition visualize (failed : bool) (last : string) (msgs : list Msg) env (info : Info) (file : File) an :
    CheckEnd Info File * Annotation :=
  let '(anns, an) := FinalizeAnnotations env.(ve_now1) env.(ve_now2) env.(ve_order) last an in
  let info := AddAnnotations anns info in
  (mkCheckEnd failed (Some file) (Some (info, file)) (msgs ++ [if Visualize info file then Wrote else WriteFailed]), an).

Definition checkPorcupine (opLog : list KvModel.Operation) (nsec : Z) env an : CheckEnd Info File * Annotation :=
  let enabled := env.(VIS_ENABLE) in
  let '(res, info) := CheckOperationsVerbose opLog nsec in
  if bool_decide (res = Illegal) then
    match open_vis env.(VIS_FILE) with
    | None => (mkCheckEnd true None None [OpenFailed], an)
    | Some file =>
      if negb (bool_decide (enabled = "never")) then visualize true "test failed" [] env info file an
      else (mkCheckEnd true (Some file) None [], an)
    end
  else
    let msgs := if bool_decide (res = Unknown) then [TimedOut] else [] in
    if bool_decide (enabled = "always") && an.(finalized) then
      match open_vis env.(VIS_FILE) with
      | None => (mkCheckEnd false None None (msgs ++ [OpenFailed]), an)
      | Some file => visualize false "test passed" msgs env info file an
      end
    else (mkCheckEnd false None None msgs, an).

Definition linearizabilityCheckTimeout : Z := 1000000000.
Definition CheckPorcupineT (nsec : Z) (oplog : list KvModel.Operation) env an := checkPorcupine oplog nsec env an.
Definition CheckPorcupine (oplog : list KvModel.Operation) env an :=
  CheckPorcupineT linearizabilityCheckTimeout oplog env an.

(** ** What it does *)

Lemma visualize_shown failed last msgs env info file an :
  let '(e, an') := visualize failed last msgs env info file an in
  ce_failed e = failed ∧ ce_shown e ≠ None ∧ an'.(finalized) = true.
Proof. by unfold visualize, FinalizeAnnotations. Qed.

(** The test fails exactly for an illegal history, whatever the files and the
    environment do. *)
Lemma checkPorcupine_failed opLog nsec env an :
  ce_failed (checkPorcupine opLog nsec env an).1 = bool_decide ((CheckOperationsVerbose opLog nsec).1 = Illegal).
Proof.
  unfold checkPorcupine. destruct (CheckOperationsVerbose opLog nsec) as [res info]. cbn [fst].
  case_bool_decide as Hres; destruct (open_vis _); repeat case_if; done.
Qed.

(** C38. A visualisation with the clients' operations is written exactly if the
    file opens and either the history is illegal and [VIS_ENABLE] is not
    "never", or it is not illegal, [VIS_ENABLE] is "always" and the test has
    marked its annotations as final; and then the [cleanup] of the annotations
    at the end of the test, which would write the same file without the
    operations, writes nothing, however the test ends and whatever
    [VIS_ENABLE] has become. *)
Theorem vis_kept opLog nsec env an e an' :
  checkPorcupine opLog nsec env an = (e, an') →
  (is_Some (ce_shown e) ↔
     is_Some (open_vis env.(VIS_FILE)) ∧
     if bool_decide ((CheckOperationsVerbose opLog nsec).1 = Illegal) then env.(VIS_ENABLE) ≠ "never"
     else env.(VIS_ENABLE) = "always" ∧ an.(finalized) = true) ∧
  (is_Some (ce_shown e) → ∀ now1 now2 order enabled opened failed last,
     cleanup now1 now2 order enabled opened failed last an' = (None, clear)).
Proof.
  unfold checkPorcupine. destruct (CheckOperationsVerbose opLog nsec) as [res info]. cbn [fst]. intros Hc.
  assert (∀ failed last msgs file, visualize failed last msgs env info file an = (e, an') →
    is_Some (ce_shown e) ∧ ∀ now1 now2 order enabled opened failed last,
      cleanup now1 now2 order enabled opened failed last an' = (None, clear)) as Hvis.
  { intros failed last msgs file Hv. pose proof (visualize_shown failed last msgs env info file an) as Hs.
    rewrite Hv in Hs. destruct Hs as (_ & Hs & Hf). split; [by apply not_eq_None_Some|].
    intros. unfold cleanup. by rewrite Hf, orb_true_r. }
  assert (¬ is_Some (@None (Info * File))) as Hnone by apply is_Some_None.
  case_bool_decide as Hres; destruct (open_vis _) as [file|];
    repeat case_bool_decide; destruct an.(finalized) eqn:Han; cbn [negb andb] in Hc;
    try (destruct (Hvis _ _ _ _ Hc) as [Hs Hcl]; split; [split; [done|]; intros _; split_and?; done|by intros _]);
    injection Hc as <- <-; cbn [ce_shown]; (split; [split; [by intros ?%Hnone|]|by intros ?%Hnone]);
    intros [[? [=]] ?] || intros [_ ?]; naive_solver.
Qed.

(** ** The check on the clients' log *)

(** A verdict is right: a test fails only for a history that is not
    linearizable, and one that does not fail, nor times out, had a linearizable
    history. *)
Lemma checkPorcupine_verdict `{!CheckerLaws Info} opLog nsec env an e an' :
  checkPorcupine opLog nsec env an = (e, an') →
  if ce_failed e then ¬ lin_history opLog else TimedOut ∈ ce_msgs e ∨ lin_history opLog.
Proof.
  intros Hc. pose proof (checkPorcupine_failed opLog nsec env an) as Hf. rewrite Hc in Hf. cbn [fst] in Hf. rewrite Hf.
  unfold checkPorcupine in Hc. destruct (CheckOperationsVerbose opLog nsec) as [[| |] info] eqn:Hcheck; cbn [fst] in *.
  - right. by eapply Ok_sound.
  - by eapply Illegal_sound.
  - left. revert Hc. unfold visualize, FinalizeAnnotations, finalize. rewrite bool_decide_false by done.
    destruct (open_vis _); case_if; intros Hc; injection Hc as <- _; left.
Qed.

(** C7. Server, clerks, logging clients and check composed: however the calls
    of the clients and the messages of the network interleave, and whatever the
    clock shows, the check at the end of a test whose clients are done (no call
    is open) does not fail it, if runs are too short to wrap a version, no put of
    a nonzero version met a missing key, and the porcupine library judges a
    history illegal only if it is not linearizable ([CheckerLaws]). *)
Theorem porcupine_passes `{!CheckerLaws Info} now evs nsec env an :
  let s := log_run now evs in
  glen evs < 2 ^ 64 → no_missing_put s.(l_trace) → s.(l_phase) = ∅ →
  ce_failed (CheckPorcupineT nsec s.(l_oplog) env an).1 = false.
Proof.
  intros s Hlen Hmiss Hph. unfold CheckPorcupineT. rewrite checkPorcupine_failed. apply bool_decide_eq_false.
  destruct (CheckOperationsVerbose (l_oplog s) nsec) as [res info] eqn:Hc. cbn. intros ->.
  eapply Illegal_sound; [exact Hc|]. by apply log_linearizable.
Qed.
End check.
