(* ===== verification/PorcupineWitness.v ===== *)
(** * The linearizability check on concrete logs

    A checker that tries every order of each part of the history, on the log of
    a run with a lost reply, and on a history with a stale read. *)

From S2P Require Import Prelude Annotation KvServer KvLin KvLog Porcupine.

Import KvModel.

(** ** A checker by exhaustive search *)

Fixpoint in_orderb (h : list Operation) : bool :=
  match h with
  | [] => true
  | o :: h => forallb (λ o', negb (o'.(op_Return) <? o.(op_Call))) h && in_orderb h
  end.
Definition legalb (h : list Operation) : bool :=
  match accept Init ((λ o, (o.(op_Input), o.(op_Output))) <$> h) with Some _ => true | None => false end.
Definition brute (history : list Operation) : bool :=
  forallb (λ part, existsb (λ h, in_orderb h && legalb h) (permutations part)) (Partition history).

Lemma in_orderb_spec h : in_orderb h = true ↔ in_order h.
Proof.
  unfold in_order. induction h as [|o h IH]; cbn [in_orderb]; [split; [by constructor|done]|].
  rewrite andb_true_iff, IH, forallb_forall. split.
  - intros [Ho Hh]. constructor; [done|]. apply Forall_forall. intros o' Ho'%list_elem_of_In%Ho.
    apply negb_true_iff, Z.ltb_ge in Ho'. unfold precedes. lia.
  - intros Hs. apply StronglySorted_inv in Hs as [Hh Ho]. split; [|done]. intros o' Ho'.
    rewrite List.Forall_forall in Ho. specialize (Ho o' Ho'). apply negb_true_iff, Z.ltb_ge. unfold precedes in Ho. lia.
Qed.

Lemma legalb_spec h : legalb h = true ↔ legal h.
Proof. unfold legalb, legal. by destruct (accept _ _). Qed.

Lemma brute_spec history : brute history = true ↔ lin_history history.
Proof.
  assert (∀ part, existsb (λ h, in_orderb h && legalb h) (permutations part) = true ↔
    ∃ h, h ≡ₚ part ∧ in_order h ∧ legal h) as Hpart.
  { intros part. rewrite existsb_exists. f_equiv. intros h.
    rewrite <-list_elem_of_In, permutations_Permutation, andb_true_iff, in_orderb_spec, legalb_spec.
    by split; intros (? & ? & ?). }
  unfold brute, lin_history. rewrite forallb_forall, Forall_forall.
  split; intros Hh part Hin; apply Hpart, Hh, list_elem_of_In, Hin.
Qed.

#[export] Instance brute_checker : Checker unit :=
  {| CheckOperationsVerbose history _ := (if brute history then Ok else Illegal, tt); AddAnnotations _ info := info |}.
#[export] Instance brute_laws : CheckerLaws unit.
Proof.
  split; intros history nsec info; cbn; destruct (brute history) eqn:Hb; try done; intros _.
  - rewrite <-brute_spec, Hb. done.
  - by apply brute_spec.
Qed.

(** Files are names, and every one can be opened and written. *)
#[export] Instance name_files : Files string := {| CreateTemp := Some "porcupine-1.html"; OpenFile := Some |}.
#[export] Instance name_visualizer : Visualizer unit string := {| Visualize _ _ := true |}.

Definition always : VisEnv := mkVisEnv "always" "out.html" 10 11 [].

(** ** A run *)

(** Client 0's put takes effect, its reply is lost, and client 1 reads the value
    before client 0 learns [ErrMaybe]. *)
Definition lossy_run : list LogEvent :=
  [EvStart 0 (OpPut "k" "a" 0); EvTick 1; EvInvoke 0; EvStart 1 (OpGet "k"); EvCall 0 true false; EvTick 1; EvInvoke 1;
   EvCall 1 true true; EvTick 1; EvEnd 1; EvAppend 1; EvCall 0 true true; EvTick 2; EvEnd 0; EvAppend 0].

Lemma porcupine_passes_witness :
  (log_run 5 lossy_run).(l_oplog) =
    [mkOperation (mkKvInput 0 "k" "" 0) (mkKvOutput "a" 1 OK) 6 8 1;
     mkOperation (mkKvInput 1 "k" "a" 0) (mkKvOutput "" 0 ErrMaybe) 5 10 0] ∧
  ce_failed (CheckPorcupineT 100 (log_run 5 lossy_run).(l_oplog) always mkAnnotation0).1 = false.
Proof.
  split; [vm_compute; reflexivity|]. apply (porcupine_passes 5 lossy_run 100 always mkAnnotation0).
  - reflexivity.
  - assert ((log_run 5 lossy_run).(l_trace) =
      [TInv 0 (OpPut "k" "a" 0); TLin 0 (OpPut "k" "a" 0) (put_out ErrMaybe); TInv 1 (OpGet "k");
       TLin 1 (OpGet "k") (mkKvOutput "a" 1 OK); TRet 1 (mkKvOutput "a" 1 OK); TRet 0 (put_out ErrMaybe)]) as ->
      by (vm_compute; reflexivity).
    intros c k v ver out. rewrite !elem_of_cons, elem_of_nil. intros Hin.
    destruct Hin as [[=]|[[= -> -> -> -> ->]|[[=]|[[=]|[[=]|[[=]|[]]]]]]]. done.
  - vm_compute. reflexivity.
Defined.

(** A get that misses a put which returned before it was called. *)
Definition stale_read : list Operation :=
  [mkOperation (mkKvInput 1 "k" "a" 0) (mkKvOutput "" 0 OK) 1 2 0;
   mkOperation (mkKvInput 0 "k" "" 0) (mkKvOutput "" 0 OK) 3 4 1].

Lemma vis_kept_witness :
  let r := checkPorcupine stale_read 100 always mkAnnotation0 in
  ce_failed r.1 = true ∧ ce_shown r.1 = Some ((), "out.html") ∧
  cleanup 20 21 [] "always" true true "test failed" r.2 = (None, clear).
Proof.
  split; [vm_compute; reflexivity|]. split; [vm_compute; reflexivity|].
  apply (vis_kept stale_read 100 always mkAnnotation0 _ _ (surjective_pairing _)).
  vm_compute. by eexists.
Defined.
