(* ===== verification/TesterWitness.v ===== *)
(** * The tester's theorems at concrete groups and clerks

    A group of three servers and one of four on a fresh network, with every
    end named after its two servers; a clerk with one end; a test that cuts off a
    server, crashes another and heals the network. *)

From S2P Require Import Prelude Gob Persister LabRpc TesterGroup TesterClnts Annotation.

Definition end_names (n : Z) : list (list string) :=
  (λ i, (λ j, "e" +:+ pretty i +:+ "-" +:+ pretty j) <$> range n) <$> range n.

Definition group (n : Z) : Grp :=
  result (makeSrvGrp 1 (end_names n) MakeNetwork) (mkServerGrp [] [] 1 [], MakeNetwork).

Lemma group_run n :
  returned (makeSrvGrp 1 (end_names n) MakeNetwork) = true →
  makeSrvGrp 1 (end_names n) MakeNetwork = Ret (group n).
Proof. apply result_Ret. Qed.

Lemma group3_ok : group_ok (group 3) 3.
Proof.
  refine (makeSrvGrp_ok 1 (end_names 3) MakeNetwork (group 3) _ _ _).
  - apply Forall_forall. by repeat constructor.
  - by apply (bool_decide_unpack _).
  - apply group_run. vm_compute; reflexivity.
Qed.

Lemma Partition_spec_witness :
  ∃ g, Partition [0; 1] [2] (group 3) = Ret g ∧
    lnk g.1.(srvs) g.2 0 1 = true ∧ lnk g.1.(srvs) g.2 1 2 = false.
Proof.
  destruct (Partition_spec 3 (group 3) [0; 1] [2] group3_ok) as (g & H & _ & _ & _ & Hin & Hout & _).
  - intros t. rewrite !elem_of_app, !elem_of_cons, !elem_of_nil. lia.
  - intros t. rewrite !elem_of_cons, !elem_of_nil. lia.
  - assert (0 ∈ [0; 1] ∧ 1 ∈ [0; 1]) as Hsame by (by apply (bool_decide_unpack _)).
    assert (1 ∈ [0; 1] ∧ 2 ∈ [2]) as Hcut by (by apply (bool_decide_unpack _)).
    exists g. split; [exact H|].
    split; [exact (Hin 0 1 (or_introl Hsame))|exact (Hout 1 2 (or_introl Hcut))].
Defined.

Lemma MakePartition_spec_witness :
  ∃ p1 p2, MakePartition 1 (group 3).1 = Ret (p1, p2) ∧ p1 ++ p2 ≡ₚ [0; 1; 2] ∧ 1 ∈ p2.
Proof.
  destruct (MakePartition_spec (group 3).1 1) as (p1 & p2 & H & Hp & Hl & _).
  - vm_compute; reflexivity.
  - vm_compute; discriminate.
  - vm_compute; split; [discriminate|reflexivity].
  - exists p1, p2. split; [exact H|]. split; [exact Hp|exact Hl].
Defined.

Lemma MakePartition_even_witness :
  MakePartition 0 (group 1).1 = Panic ∧
  ∃ p1 p2, MakePartition 3 (group 4).1 = Ret (p1, p2) ∧ 0 ∈ p1 ∧ 0 ∈ p2.
Proof.
  split.
  - refine (proj1 (MakePartition_even (group 1).1 0 _ _) _).
    + vm_compute; split; [discriminate|reflexivity].
    + right. vm_compute; reflexivity.
    + vm_compute; reflexivity.
  - refine (proj2 (MakePartition_even (group 4).1 3 _ _) _ _).
    + vm_compute; split; [discriminate|reflexivity].
    + left. vm_compute; reflexivity.
    + vm_compute; discriminate.
    + discriminate.
Defined.

(** The group with server 1 running, its state on disk. *)
Definition disk : Persister := mkPersister [Byte.x01; Byte.x02] [Byte.x03].
Definition running : Grp :=
  result (s ← gidx (group 3).1.(srvs) 1;
          ss ← gset_idx (group 3).1.(srvs) 1 (s <| dc := Some (mkDaemon disk Alive) |>);
          Ret ((group 3).1 <| srvs := ss |>, (group 3).2)) (group 3).

Definition fresh3 : list string := ["f0"; "f1"; "f2"].

Lemma running_ok : group_ok running 3.
Proof.
  destruct group3_ok as [[Hlen Hends Hinj] Hc].
  assert (∀ i, endNames <$> running.1.(srvs).[i] = endNames <$> (group 3).1.(srvs).[i]) as Hsame.
  { intros i. destruct (decide (0 ≤ i < 3)) as [Hi|Hi].
    - assert (i = 0 ∨ i = 1 ∨ i = 2) as [->|[->| ->]] by lia; vm_compute; reflexivity.
    - assert (glen running.1.(srvs) = 3) as H1 by (vm_compute; reflexivity).
      assert (glen (group 3).1.(srvs) = 3) as H2 by (vm_compute; reflexivity).
      destruct (zlookup_None running.1.(srvs) i) as [_ ->]; [|lia].
      destruct (zlookup_None (group 3).1.(srvs) i) as [_ ->]; [reflexivity|lia]. }
  split; [split|].
  - vm_compute; reflexivity.
  - intros i s Hs. specialize (Hsame i). rewrite Hs in Hsame.
    destruct ((group 3).1.(srvs).[i]) as [s'|] eqn:Hs'; [|done]. injection Hsame as ->.
    exact (Hends i s' Hs').
  - assert (∀ a b, nm running.1.(srvs) a b = nm (group 3).1.(srvs) a b) as Hnm.
    { intros a b. unfold nm. specialize (Hsame a).
      destruct (running.1.(srvs).[a]), ((group 3).1.(srvs).[a]); try discriminate Hsame;
        [by injection Hsame as ->|reflexivity]. }
    intros a b a' b' e. rewrite (Hnm a b), (Hnm a' b'). exact (Hinj a b a' b' e).
  - vm_compute; reflexivity.
Qed.

Lemma restart_persists_witness :
  ∃ g1 g2 s d, ShutdownServer 1 running = Ret g1 ∧ StartServer 1 fresh3 true 5 g1 = Ret g2 ∧
    g2.1.(srvs).[1] = Some s ∧ s.(dc) = Some d ∧ da_persister d = disk.
Proof.
  destruct (running.1.(srvs).[1]) as [s0|] eqn:Hs0; [|vm_compute in Hs0; discriminate].
  edestruct (restart_persists 3 running 1 s0 (mkDaemon disk Alive) fresh3 5 running_ok Hs0)
    as (g1 & g2 & H1 & H2 & _ & _ & _ & (s & d & Hs & Hd & Hp & _) & _).
  - vm_compute in Hs0. injection Hs0 as <-. vm_compute; reflexivity.
  - by apply (bool_decide_unpack _).
  - vm_compute; reflexivity.
  - apply Forall_forall. repeat constructor.
  - exists g1, g2, s, d. repeat (split; [assumption|]). exact Hp.
Defined.

(** ** A clerk *)

Definition clerk0 : Clnt := makeClntTo (Some ["s0"]).

(** The clerk has called "s0". *)
Definition clerk1 : Clnt * Network :=
  match makeEnd "s0" "e0" clerk0 MakeNetwork with Ret (_, c, net) => (c, net) | _ => (clerk0, MakeNetwork) end.

Lemma clerk0_ok : clnt_ok clerk0 MakeNetwork.
Proof. split. intros s e He. vm_compute in He. destruct s; discriminate. Qed.

Lemma clerk1_ok : clnt_ok clerk1.1 clerk1.2.
Proof.
  split. intros s e He. change (clerk1.1.(c_ends)) with ({["s0" := mkTEnd "e0" (mkClientEnd "e0" None)]} : gmap string TEnd) in He.
  apply lookup_singleton_Some in He as [<- <-]. split; [eexists|]; vm_compute; reflexivity.
Qed.

Lemma clnt_reach_witness :
  let '(ct, net) := ConnectTo (Some ["s1"]) clerk1.1 clerk1.2 in
  reach ct net "s1" = true ∧ reach ct net "s0" = true ∧ reach ct net "s2" = false.
Proof.
  pose proof (clnt_reach clerk1.1 clerk1.2 (Some ["s1"]) "s0" clerk1_ok) as H.
  cbv zeta in H.
  destruct (ConnectAll _ _), (DisconnectAll _ _), (ConnectTo (Some ["s1"]) clerk1.1 clerk1.2) as [ct net_t], (ConnectTo _ _ _).
  destruct H as [_ H]. split; [|split].
  - destruct (H "s1"%string) as (_ & _ & -> & _). vm_compute; reflexivity.
  - destruct (H "s0"%string) as (_ & _ & -> & _). vm_compute; reflexivity.
  - destruct (H "s2"%string) as (_ & _ & -> & _). vm_compute; reflexivity.
Defined.

Lemma clnt_makeEnd_witness :
  ∃ e clnt net, makeEnd "s0" "e0" clerk0 MakeNetwork = Ret (e, clnt, net) ∧
    is_enabled net e.(e_name) = true ∧ makeEnd "s0" "other" clnt net = Ret (e, clnt, net).
Proof.
  destruct (clnt_makeEnd "s0" "e0" clerk0 MakeNetwork clerk0_ok eq_refl)
    as (e & clnt & net & H & _ & _ & He & _ & Hagain).
  exists e, clnt, net. split; [exact H|]. split; [rewrite He; vm_compute; reflexivity|exact (Hagain _)].
Defined.

(** ** Annotations *)

Definition failures : list (Z * Call) :=
  [(2, CPoint "client" "put" "" COLOR_USER); (3, CConnection [true; false; true]); (4, CTwoPartitions [0; 1] [2]);
   (5, CShutdown [0]); (7, CClearFailure);
   (8, CRestartAll)].

Definition failures_end : World :=
  result (run_calls (AnnotateTest 1 "basic" 3 (mkWorld clear None)) failures) (mkWorld clear None).

Lemma fault_timeline_witness :
  let anns := (FinalizeAnnotations 9 10 (map_to_list failures_end.(annotation).(continuous)) "done"
                 failures_end.(annotation)).1 in
  shows anns 3 "partition = [1] [0 2]" ∧ shows anns 4 "partition = [0 1] [2]" ∧
  shows anns 6 "partition = [1] [2] / crash = [0]" ∧
  ¬ shows anns 8 "partition = [1] [2] / crash = [0]".
Proof.
  destruct (fault_timeline 3 "basic" "done" 1 9 10 failures (mkWorld clear None)) as (w' & Hrun & Hshows).
  - lia.
  - cbn. lia.
  - repeat (apply List.Forall_cons || apply List.Forall_nil); cbn; try done.
    intros i ->%list_elem_of_singleton. lia.
  - assert (run_calls (AnnotateTest 1 "basic" 3 (mkWorld clear None)) failures = Ret failures_end) as Heq
      by (apply result_Ret; vm_compute; reflexivity).
    pose proof (Ret_det _ _ _ Hrun Heq) as ->. specialize (Hshows _ (reflexivity _)).
    cbv zeta. split; [|split; [|split]].
    + apply Hshows; [discriminate|lia|vm_compute; reflexivity].
    + apply Hshows; [discriminate|lia|vm_compute; reflexivity].
    + apply Hshows; [discriminate|lia|vm_compute; reflexivity].
    + intros H%Hshows; [vm_compute in H; discriminate|discriminate|lia].
Defined.
