(* ===== verification/Rsm.v ===== *)
(** * The replicated state machine's server and tester: [kvraft1/rsm/]

    The counter that the tests replicate ([server.go]), the tester's proxy
    ([proxy.go]) and the tester's loops ([test.go]). [RSM.Submit] of [rsm.go]
    is the skeleton's: it answers [ErrWrongLeader] to everything.

    A call of [DoOp] is split where the code releases its lock, so that calls
    interleave. What the servers answer to the tester and how their counters
    change while it sleeps are arguments. *)

From S2P Require Import Prelude Gob KvServer.

(** ** The server *)

(** The requests and replies registered with [labgob]. *)
Inductive Req := Inc | Null | Dec.
Inductive Rep := IncRep (N : Z) | NullRep.

#[export] Instance Req_eq_dec : EqDecision Req.
Proof. solve_decision. Defined.
#[export] Instance Rep_eq_dec : EqDecision Rep.
Proof. solve_decision. Defined.

Record rsmSrv := mkRsmSrv { rsm_me : Z; counter : Z }.
#[export] Instance upd_counter : Upd counter := λ f s, mkRsmSrv s.(rsm_me) (f s.(counter)).

Definition newRSMSrv (srv : Z) : rsmSrv := mkRsmSrv srv 0.
Definition GetCounter (rs : rsmSrv) : Z := rs.(counter).

(** A call of [DoOp]: before its critical section, after it, and returned. *)
Inductive OpState := Called (req : Req) | Counted | Replied (rep : Rep).

(** One step of a call. The reply reads the counter without the lock. *)
Definition DoOp_step (st : OpState) (rs : rsmSrv) : go (OpState * rsmSrv) :=
  match st with
  | Called Inc => Ret (Counted, rs <| counter := rs.(counter) + 1 |>)
  | Called Null => Ret (Replied NullRep, rs)
  | Called Dec => Fatal
  | Counted => Ret (Replied (IncRep rs.(counter)), rs)
  | Replied rep => Ret (Replied rep, rs)
  end.

(** A call that is not interrupted. *)
Definition DoOp (req : Req) (rs : rsmSrv) : go (option Rep * rsmSrv) :=
  r ← DoOp_step (Called req) rs;
  r ← DoOp_step r.1 r.2;
  Ret (match r.1 with Replied rep => Some rep | _ => None end, r.2).

(** Concurrent calls: an event is the number of the call that makes a step. *)
Definition calls_step (s : list OpState * rsmSrv) (i : Z) : go (list OpState * rsmSrv) :=
  let '(calls, rs) := s in
  match calls.[i] with
  | Some st =>
    r ← DoOp_step st rs; calls ← gset_idx calls i r.1; Ret (calls, r.2)
  | None => Ret s
  end.
Definition calls_run (evs : list Z) (s : list OpState * rsmSrv) : go (list OpState * rsmSrv) :=
  foldM calls_step s evs.

Section snapshot.
Context `{GobLaws Z}.

Definition Snapshot (rs : rsmSrv) : bytes := Encode rs.(counter).
Definition Restore (data : bytes) (rs : rsmSrv) : go rsmSrv :=
  match (Decode data).1 with
  | Some n => Ret (rs <| counter := n |>)
  | None => Fatal
  end.
End snapshot.

(** ** RPCs *)

Definition ErrWrongLeader : Err := "ErrWrongLeader".

(** [RSM.Submit], "your code here". *)
Definition RSM_Submit (req : Req) : Err * option Rep := (ErrWrongLeader, None).

Record SubmitReply := mkSubmitReply { sr_Err : Err; sr_Rep : option Rep }.
Record GetCounterReply := mkGetCounterReply { gc_Count : Z }.

Definition rsmSrv_Submit (req : Req) : Err * option Rep := RSM_Submit req.
Definition SubmitRPC (req : Req) : SubmitReply := let '(err, rep) := rsmSrv_Submit req in mkSubmitReply err rep.
Definition GetCounterRPC (rs : rsmSrv) : GetCounterReply := mkGetCounterReply (GetCounter rs).

(** [RSMproxy]: a call that fails ([None]) leaves the zero reply. *)
Definition proxy_Submit (reply : option SubmitReply) : Err * option Rep :=
  let rep := default (mkSubmitReply "" None) reply in (rep.(sr_Err), rep.(sr_Rep)).
Definition proxy_GetCounter (reply : option GetCounterReply) : Z :=
  (default (mkGetCounterReply 0) reply).(gc_Count).

(** ** The tester *)

Definition NSRV : Z := 3.

Definition inPartition (s : Z) (p : option (list Z)) : bool :=
  match p with
  | None => true
  | Some p => existsb (λ i, s =? i) p
  end.

(** A server when the loop gets to it: whether it is connected and has a
    proxy, and what its [Submit] would return. *)
Record Server := mkServer { sv_connected : bool; sv_rsm : bool; sv_submit : Err * option Rep }.

(** The inner loop of [onePartition], over all servers from [index] on. The
    result is the index that answered [OK] and its reply. *)
Fixpoint try_ring (k : nat) (index : Z) (p : option (list Z)) (servers : list Server) :
    go (option (Z * option Rep)) :=
  match k with
  | O => Ret None
  | S k =>
    if NSRV <=? index then Fatal else
    r ← (if index =? -1 then Ret None else
      s ← gidx servers index;
      Ret (if s.(sv_connected) && (s.(sv_rsm) && inPartition index p) &&
              bool_decide (s.(sv_submit).1 = OK)
           then Some (index, s.(sv_submit).2) else None));
    match (r : option (Z * option Rep)) with
    | Some found => Ret (Some found)
    | None => try_ring k (Z.rem (index + 1) (glen servers)) p servers
    end
  end.

(** The tester's state that the loops use, with the number of operations of
    [Config.OpInc]. *)
Record Test := mkTest { leader : Z; ops : Z }.
Definition makeTest : Test := mkTest 0 0.
Definition getLeader (ts : Test) : Z := ts.(leader).

(** Each element of [rounds] is the servers as one iteration of the outer loop
    meets them; the list ends when ten seconds have passed. *)
Fixpoint onePartition (p : option (list Z)) (rounds : list (list Server)) (ts : Test) : go (option Rep * Test) :=
  match rounds with
  | [] => Ret (None, ts)
  | servers :: rounds =>
    r ← try_ring (length servers) (getLeader ts) p servers;
    match (r : option (Z * option Rep)) with
    | Some (index, rep) => Ret (rep, mkTest index (ts.(ops) + 1))
    | None => onePartition p rounds ts
    end
  end.

(** The type assertion [rep.(IncRep)] panics on another type. *)
Definition oneInc (rounds : list (list Server)) (ts : Test) : go (Z * Test) :=
  r ← onePartition None rounds ts;
  match r.1 with
  | None => Ret (0, r.2)
  | Some (IncRep n) => Ret (n, r.2)
  | Some NullRep => Panic
  end.
Definition oneNull (rounds : list (list Server)) (ts : Test) : go Test :=
  r ← onePartition None rounds ts;
  match r.1 with
  | None | Some NullRep => Ret r.2
  | Some (IncRep _) => Panic
  end.

(** [counters]: what [GetCounter] returns for each server. *)
Definition countValue (v : Z) (counters : list Z) : Z :=
  foldl (λ i c, if c =? v then i + 1 else i) 0 counters.

Definition second : Z := 1000000000.
Definition next_to (to : Z) : Z := if to <? second then to * 2 else to.

(** The loop of [checkCounter]; [slept] is the time it has slept. *)
Fixpoint check_polls (iters : nat) (v nsrv to slept : Z) (polls : list (list Z)) : go Z :=
  match iters, polls with
  | S iters, counters :: polls =>
    if nsrv <=? countValue v counters then Ret slept
    else check_polls iters v nsrv (next_to to) (slept + to) polls
  | _, _ => Fatal
  end.
Definition checkCounter (v nsrv : Z) (polls : list (list Z)) : go Z :=
  check_polls 30 v nsrv (second / 100) 0 polls.

(** [TestBasic4A]: the rounds and the polls of each of the ten iterations. *)
Definition NINC : Z := 10.
Definition basic_iter (ts : Test) (x : Z * (list (list Server) * list (list Z))) : go Test :=
  let '(i, (rounds, polls)) := x in
  r ← oneInc rounds ts;
  if negb (r.1 =? i + 1) then Fatal else
  _ ← checkCounter r.1 NSRV polls; Ret r.2.
Definition TestBasic4A (env : list (list (list Server) * list (list Z))) : go Test :=
  foldM basic_iter makeTest (zip (range NINC) env).

(** ** Concurrent calls *)

Definition is_counted (st : OpState) : bool :=
  match st with Counted | Replied (IncRep _) => true | _ => false end.

Definition replies_ok (start : Z) (s : list OpState * rsmSrv) : Prop :=
  s.2.(counter) = start + countb is_counted s.1 ∧
  ∀ i n, s.1.[i] = Some (Replied (IncRep n)) → start < n ≤ s.2.(counter).

(** Calls of [Inc] and [Null] only. *)
Definition ok_call (st : OpState) : Prop := st ≠ Called Dec.

Lemma calls_step_ok start s i :
  replies_ok start s → Forall ok_call s.1 →
  returns (calls_step s i) (λ s', replies_ok start s' ∧ Forall ok_call s'.1 ∧ length s'.1 = length s.1).
Proof.
  destruct s as [calls rs]. intros [Hc Hr] Hok. unfold calls_step. cbn [fst snd] in *.
  destruct (calls.[i]) as [st|] eqn:Hi; [|by apply returns_Ret].
  assert (ok_call st) as Hst by (eapply Forall_forall; [done|]; apply zlookup_elem_of; eauto).
  pose proof (zlookup_lt_Some _ _ _ Hi) as Hlt.
  assert (∀ st' rs', DoOp_step st rs = Ret (st', rs') → ok_call st' →
    rs'.(counter) = start + countb is_counted (<[Z.to_nat i := st']> calls) →
    rs.(counter) ≤ rs'.(counter) → (∀ n, st' = Replied (IncRep n) → start < n ≤ rs'.(counter)) →
    returns (r ← DoOp_step st rs; calls ← gset_idx calls i r.1; Ret (calls, r.2)) (λ s' : list OpState * rsmSrv,
      replies_ok start s' ∧ Forall ok_call s'.1 ∧ length s'.1 = length calls)) as Hgen.
  { intros st' rs' -> Hok' Hc' Hle Hn. cbn [mbind go_bind fst snd]. rewrite gset_idx_Ret by done.
    apply returns_Ret. split; [split; [done|]|split; [by apply Forall_insert|apply length_insert]].
    intros j n Hj. cbn [fst] in Hj. rewrite zlookup_insert in Hj by done. case_decide; [injection Hj as ->; by apply Hn|].
    cbn [snd]. specialize (Hr j n Hj). lia. }
  destruct st as [[| |]| |rep].
  - eapply Hgen; [done|done| |cbn; lia|done]. cbn. rewrite (countb_insert _ _ _ _ _ Hi). cbn. lia.
  - eapply Hgen; [done|done| |cbn; lia|done]. cbn. rewrite (countb_insert _ _ _ _ _ Hi). cbn. lia.
  - done.
  - eapply Hgen; [done|done| |cbn; lia|]; cbn; [rewrite (countb_insert _ _ _ _ _ Hi); cbn; lia|].
    intros n [= <-]. pose proof (countb_pos is_counted _ _ _ Hi eq_refl). lia.
  - eapply Hgen; [done|done| |cbn; lia|]; cbn; [rewrite (countb_insert _ _ _ _ _ Hi); lia|].
    intros n [= ->]. by apply (Hr i).
Qed.

(** C34. Concurrent calls of [DoOp], in every interleaving: none fails, the
    counter has grown by the number of [Inc]s that have passed the critical
    section, and every reply lies between the first new value and the current
    counter. But since the reply reads the counter after the lock is released,
    two calls can both answer the second value, and none the first: a reply
    identifies its operation only when calls do not overlap, as when one
    goroutine applies the log. *)
Theorem DoOp_interleaved rs calls evs :
  Forall (λ st, st = Called Inc ∨ st = Called Null) calls →
  returns (calls_run evs (calls, rs)) (λ s,
    s.2.(counter) = rs.(counter) + countb is_counted s.1 ∧
    ∀ i n, s.1.[i] = Some (Replied (IncRep n)) → rs.(counter) < n ≤ s.2.(counter)) ∧
  calls_run [0; 1; 0; 1] ([Called Inc; Called Inc], rs) =
    Ret ([Replied (IncRep (rs.(counter) + 2)); Replied (IncRep (rs.(counter) + 2))],
         rs <| counter := rs.(counter) + 2 |>) ∧
  DoOp Inc rs = Ret (Some (IncRep (rs.(counter) + 1)), rs <| counter := rs.(counter) + 1 |>).
Proof.
  intros Hcalls. split; [|split; [|done]].
  - apply returns_mono with (λ s, replies_ok rs.(counter) s ∧ Forall ok_call s.1); [|by intros s [[? ?] _]].
    apply foldM_returns.
    + split; [split|]; cbn [fst snd].
      * assert (countb is_counted calls = 0) as ->; [|lia].
        induction Hcalls as [|st l [->| ->] _ IH]; [done|..]; rewrite countb_cons, IH; done.
      * intros i n Hi. assert (Replied (IncRep n) ∈ calls) as Hin by (apply zlookup_elem_of; eauto).
        rewrite Forall_forall in Hcalls. by destruct (Hcalls _ Hin).
      * eapply Forall_impl; [exact Hcalls|]. by intros st [->| ->].
    + intros s i [Hs Hok] _. eapply returns_mono; [by apply (calls_step_ok rs.(counter))|]. by intros s' (? & ? & _).
  - replace (rs.(counter) + 2) with (rs.(counter) + 1 + 1) by lia. reflexivity.
Qed.

(** ** Snapshots *)

(** [Restore] of a snapshot, on any server, makes its counter the one the
    snapshot was taken with; data that is not one is fatal. *)
Theorem snapshot_restore `{GobLaws Z} rs rs' :
  Restore (Snapshot rs) rs' = Ret (rs' <| counter := rs.(counter) |>) ∧ Restore [] rs' = Fatal.
Proof.
  unfold Restore, Snapshot. rewrite Decode_Encode_nil. split; [done|].
  pose proof (Decode_EOF (A:=Z)) as He. by rewrite He.
Qed.

(** ** [onePartition] *)

Definition accepts (p : option (list Z)) (servers : list Server) (i : Z) (rep : option Rep) : Prop :=
  ∃ s, servers.[i] = Some s ∧ s.(sv_connected) = true ∧ s.(sv_rsm) = true ∧ inPartition i p = true ∧
    s.(sv_submit) = (OK, rep).

(** The first server that accepts, from [start] on. *)
Definition first_in_ring (p : option (list Z)) (servers : list Server) (start i : Z) (rep : option Rep) : Prop :=
  ∃ d, 0 ≤ d < NSRV ∧ i = (start + d) mod NSRV ∧ accepts p servers i rep ∧
    ∀ d' rep', 0 ≤ d' < d → ¬ accepts p servers ((start + d') mod NSRV) rep'.
Definition none_accepts (p : option (list Z)) (servers : list Server) : Prop :=
  ∀ i rep, ¬ accepts p servers i rep.

Lemma next_index i : 0 ≤ i < NSRV → Z.rem (i + 1) NSRV = (i + 1) mod NSRV.
Proof. intros Hi. apply Z.rem_mod_nonneg; unfold NSRV in *; lia. Qed.

Lemma try_ring_spec p servers start :
  glen servers = NSRV → 0 ≤ start < NSRV → ∀ k d, 0 ≤ d → Z.of_nat k + d = NSRV →
  (∀ d' rep, 0 ≤ d' < d → ¬ accepts p servers ((start + d') mod NSRV) rep) →
  returns (try_ring k ((start + d) mod NSRV) p servers) (λ r,
    match r with
    | Some (i, rep) => first_in_ring p servers start i rep
    | None => none_accepts p servers
    end).
Proof.
  intros Hlen Hstart. induction k as [|k IH]; intros d Hd Hk Hprev; cbn [try_ring].
  - apply returns_Ret. intros i rep Ha. pose proof Ha as (s & Hs & _). apply zlookup_lt_Some in Hs.
    apply (Hprev ((i - start) mod NSRV) rep).
    + pose proof (Z.mod_pos_bound (i - start) NSRV). unfold NSRV in *. lia.
    + replace ((start + (i - start) mod NSRV) mod NSRV) with i; [done|].
      rewrite Z.add_mod_idemp_r by done. replace (start + (i - start)) with i by lia.
      symmetry. apply Z.mod_small. lia.
  - set (i := (start + d) mod NSRV). assert (0 ≤ i < NSRV) as Hi by (apply Z.mod_pos_bound; done).
    case_if; [lia|]. destruct (Z.eqb_spec i (-1)); [lia|].
    destruct (zlookup_is_Some servers i) as [s Hs]; [lia|]. rewrite gidx_zlookup, Hs. cbn [mbind go_bind].
    destruct (sv_connected s && (sv_rsm s && inPartition i p) && bool_decide ((sv_submit s).1 = OK)) eqn:Hacc.
    + apply returns_Ret. exists d. split; [unfold NSRV in *; lia|]. split; [done|]. split; [|done].
      rewrite !andb_true_iff, bool_decide_eq_true in Hacc. destruct Hacc as ((? & ? & ?) & Hok).
      exists s. destruct (sv_submit s) as [err rep]. cbn in *. by subst.
    + rewrite Hlen, next_index by done. unfold i. rewrite Z.add_mod_idemp_l by done.
      replace (start + d + 1) with (start + (d + 1)) by lia. apply IH; [lia..|].
      intros d' rep Hd' Ha. destruct (decide (d' = d)) as [->|]; [|by apply (Hprev d' rep); [lia|]].
      destruct Ha as (s' & Hs' & Hc & Hr & Hp & Hsub). fold i in Hs', Hp. rewrite Hs in Hs'. injection Hs' as <-.
      by rewrite Hc, Hr, Hp, Hsub in Hacc.
Qed.

Lemma onePartition_run p rounds : ∀ ts,
  Forall (λ servers, glen servers = NSRV) rounds → 0 ≤ ts.(leader) < NSRV →
  returns (onePartition p rounds ts) (λ r,
    (∃ pre servers post i, rounds = pre ++ servers :: post ∧ Forall (none_accepts p) pre ∧
       first_in_ring p servers ts.(leader) i r.1 ∧ r.2 = mkTest i (ts.(ops) + 1)) ∨
    (Forall (none_accepts p) rounds ∧ r = (None, ts))).
Proof.
  induction rounds as [|servers rounds IH]; intros ts Hlen Hl; cbn [onePartition].
  { apply returns_Ret. right. by split. }
  apply Forall_cons in Hlen as [Hn Hlen].
  destruct (try_ring_spec p servers ts.(leader) Hn Hl (length servers) 0) as (r & Hr & Hspec).
  { done. } { unfold glen in Hn. lia. } { intros d' rep Hd. lia. }
  unfold getLeader. rewrite Z.add_0_r, Z.mod_small in Hr by done. rewrite Hr. cbn [mbind go_bind].
  destruct r as [[i rep]|].
  - apply returns_Ret. left. by exists [], servers, rounds, i.
  - eapply returns_mono; [by apply IH|]. intros r [(pre & sv & post & i & -> & Hpre & Hrest)|[Hnone ->]].
    + left. exists (servers :: pre), sv, post, i. split; [done|]. split; [by constructor|done].
    + right. split; [by constructor|done].
Qed.

(** [onePartition] asks the servers in ring order, beginning at the last
    known leader, round after round, and returns the reply of the first one
    that is connected, in the partition and answers [OK], which becomes the
    leader; when no server accepts before the time is up, it returns nothing
    and changes nothing. The index never leaves the array, so the tester never
    dies of [log.Fatalf]. *)
Theorem onePartition_spec p rounds ts :
  Forall (λ servers, glen servers = NSRV) rounds → 0 ≤ ts.(leader) < NSRV →
  returns (onePartition p rounds ts) (λ r,
    0 ≤ r.2.(leader) < NSRV ∧
    ((∃ pre servers post i, rounds = pre ++ servers :: post ∧ Forall (none_accepts p) pre ∧
       first_in_ring p servers ts.(leader) i r.1 ∧ r.2 = mkTest i (ts.(ops) + 1)) ∨
     (Forall (none_accepts p) rounds ∧ r = (None, ts)))).
Proof.
  intros Hlen Hl. eapply returns_mono; [by apply onePartition_run|]. intros r Hr. split; [|done].
  destruct Hr as [(pre & sv & post & i & _ & _ & (d & _ & -> & _) & ->)|[_ ->]]; [|done].
  by apply Z.mod_pos_bound.
Qed.

(** ** [checkCounter] *)

Definition shows (v nsrv : Z) (counters : list Z) : Prop := nsrv ≤ countb (λ c, c =? v) counters.

Lemma countValue_countb v counters : countValue v counters = countb (λ c, c =? v) counters.
Proof.
  unfold countValue. assert (∀ i, foldl (λ i c, if c =? v then i + 1 else i) i counters =
    i + countb (λ c, c =? v) counters) as H; [|by rewrite H].
  induction counters as [|c l IH]; intros i; cbn [foldl]; [by rewrite countb_nil, Z.add_0_r|].
  rewrite IH, countb_cons. destruct (c =? v); lia.
Qed.

(** The sleeps of [n] failed polls, the next one being [to]. *)
Fixpoint sleeps (n : nat) (to : Z) : Z :=
  match n with O => 0 | S n => to + sleeps n (next_to to) end.

Lemma check_polls_outcome iters v nsrv : ∀ to slept polls,
  (check_polls iters v nsrv to slept polls = Fatal ∧ ∀ c, c ∈ take iters polls → ¬ shows v nsrv c) ∨
  (∃ k c, (k < iters)%nat ∧ check_polls iters v nsrv to slept polls = Ret (slept + sleeps k to) ∧
     polls !! k = Some c ∧ shows v nsrv c ∧ ∀ j c', (j < k)%nat → polls !! j = Some c' → ¬ shows v nsrv c').
Proof.
  induction iters as [|iters IH]; intros to slept [|counters polls]; cbn [check_polls take];
    try (left; split; [done|]; by intros c ?%elem_of_nil).
  rewrite countValue_countb. case_if; fold (shows v nsrv counters) in E.
  - right. exists 0%nat, counters. split; [lia|]. split; [by rewrite Z.add_0_r|]. split; [done|].
    split; [done|]. lia.
  - assert (¬ shows v nsrv counters) as Hno by (unfold shows; lia).
    destruct (IH (next_to to) (slept + to) polls) as [[-> Hn]|(k & c & Hk & -> & Hc & Hs & Hprev)].
    + left. split; [done|]. intros c [->|Hin]%elem_of_cons; [done|auto].
    + right. exists (S k), c. split; [lia|]. split; [cbn; f_equal; lia|]. split; [done|]. split; [done|].
      intros [|j] c' Hj Hc'; [by injection Hc' as <-|]. by apply (Hprev j c'); [lia|].
Qed.

Lemma sleeps_mono n m to : 0 ≤ to → (n ≤ m)%nat → sleeps n to ≤ sleeps m to.
Proof.
  revert m to. induction n as [|n IH]; intros m to Hto Hle.
  - revert to Hto. clear. induction m as [|m IH]; intros to Hto; cbn in *; [lia|].
    assert (0 ≤ next_to to) as Hn by (unfold next_to; case_if; lia). specialize (IH _ Hn). lia.
  - destruct m as [|m]; [lia|]. cbn. assert (0 ≤ next_to to) as Hn by (unfold next_to; case_if; lia).
    specialize (IH m _ Hn ltac:(lia)). lia.
Qed.

(** [checkCounter] stops at the first of its first thirty polls that shows the
    value on enough servers, having slept for at most 29.43 seconds, and fails
    when none does. *)
Theorem checkCounter_spec v nsrv polls :
  (checkCounter v nsrv polls = Fatal ∧ ∀ c, c ∈ take 30 polls → ¬ shows v nsrv c) ∨
  (∃ t k c, checkCounter v nsrv polls = Ret t ∧ 0 ≤ t ≤ 29430 * (second / 1000) ∧
     polls !! k = Some c ∧ shows v nsrv c ∧ ∀ j c', (j < k)%nat → polls !! j = Some c' → ¬ shows v nsrv c').
Proof.
  unfold checkCounter.
  destruct (check_polls_outcome 30 v nsrv (second / 100) 0 polls) as [?|(k & c & Hk & -> & Hrest)]; [by left|].
  right. exists (0 + sleeps k (second / 100)), k, c. split; [done|]. split; [|done].
  pose proof (sleeps_mono k 29 (second / 100) ltac:(done) ltac:(lia)) as Hle.
  pose proof (sleeps_mono 0 k (second / 100) ltac:(done) ltac:(lia)) as Hge.
  assert (sleeps 29 (second / 100) = 29430 * (second / 1000)) as He by reflexivity. cbn [sleeps] in Hge. lia.
Qed.

(** ** The tests *)

(** The skeleton's servers: whichever calls get through, [Submit] answers
    [ErrWrongLeader]. *)
Definition skeleton (s : Server) : Prop := ∃ reached : bool,
  s.(sv_submit) = proxy_Submit (if reached then Some (SubmitRPC Inc) else None).

Lemma skeleton_accepts servers p i rep : Forall skeleton servers → ¬ accepts p servers i rep.
Proof.
  intros Hsk (s & Hs & _ & _ & _ & Hok). rewrite Forall_forall in Hsk.
  destruct (Hsk s) as [reached Hr]; [apply zlookup_elem_of; eauto|]. rewrite Hr in Hok. by destruct reached.
Qed.

(** [TestBasic4A] fails on the repository's [RSM]. *)
Theorem skeleton_fails rounds polls env :
  Forall (λ servers, glen servers = NSRV ∧ Forall skeleton servers) rounds →
  TestBasic4A ((rounds, polls) :: env) = Fatal.
Proof.
  intros Hsk. unfold TestBasic4A. change (range NINC) with (0 :: seqZ 1 9). cbn [zip zip_with foldM].
  assert (basic_iter makeTest (0, (rounds, polls)) = Fatal) as ->; [|done].
  unfold basic_iter, oneInc.
  destruct (onePartition_run None rounds makeTest) as (r & -> & Hr);
    [by eapply Forall_impl; [exact Hsk|]; intros servers [? _]|done|].
  destruct Hr as [(pre & sv & post & i & -> & _ & (d & _ & _ & Ha & _) & _)|[_ ->]]; [|done].
  apply Forall_app in Hsk as [_ [[_ Hsk] _]%Forall_cons]. by apply skeleton_accepts in Ha.
Qed.

(** What the test asks of an implementation in iteration [i]: that some server
    accepts in some round, that who accepts answers the number of [Inc]s so
    far, and that one of the polls shows it on all servers. *)
Definition implements (i : Z) (rounds : list (list Server)) (polls : list (list Z)) : Prop :=
  Forall (λ servers, glen servers = NSRV ∧ ∀ j rep, accepts None servers j rep → rep = Some (IncRep (i + 1))) rounds ∧
  (∃ servers j rep, servers ∈ rounds ∧ accepts None servers j rep) ∧
  ∃ c, c ∈ take 30 polls ∧ shows (i + 1) NSRV c.

Lemma basic_iter_passes i rounds polls ts :
  implements i rounds polls → 0 ≤ ts.(leader) < NSRV →
  returns (basic_iter ts (i, (rounds, polls))) (λ ts', 0 ≤ ts'.(leader) < NSRV ∧ ts'.(ops) = ts.(ops) + 1).
Proof.
  intros (Hrounds & (servers & j & rep & Hin & Ha) & c & Hc & Hs) Hl. unfold basic_iter, oneInc.
  destruct (onePartition_run None rounds ts) as (r & -> & Hr);
    [by eapply Forall_impl; [exact Hrounds|]; intros ? [? _]|done|].
  destruct Hr as [(pre & sv & post & k & -> & _ & (d & _ & -> & Hacc & _) & Hts)|[Hnone _]].
  2: { rewrite Forall_forall in Hnone. by destruct (Hnone _ Hin j rep). }
  apply Forall_app in Hrounds as [_ [[_ Hrep] _]%Forall_cons]. apply Hrep in Hacc.
  destruct r as [rep' ts']. cbn [mbind go_bind fst snd] in *. subst rep' ts'. cbn [mbind go_bind fst snd].
  rewrite Z.eqb_refl. cbn [negb].
  destruct (checkCounter_spec (i + 1) NSRV polls) as [[_ Hno]|(t & k & c' & -> & _)].
  { by destruct (Hno c Hc). }
  apply returns_Ret. split; [by apply Z.mod_pos_bound|done].
Qed.

(** [TestBasic4A] passes on every implementation that does: it counts ten
    operations. *)
Theorem basic4A_passes env :
  Forall (λ x : Z * (list (list Server) * list (list Z)), implements x.1 x.2.1 x.2.2) (zip (range NINC) env) →
  length env = 10%nat →
  returns (TestBasic4A env) (λ ts, ts.(ops) = NINC).
Proof.
  intros Himp Hlen. unfold TestBasic4A.
  assert (length (zip (range NINC) env) = 10%nat) as Hz by (rewrite length_zip, Hlen; done).
  revert Himp Hz. generalize (zip (range NINC) env). intros l.
  assert (∀ ts, 0 ≤ ts.(leader) < NSRV → Forall (λ x : Z * (list (list Server) * list (list Z)), implements x.1 x.2.1 x.2.2) l →
    returns (foldM basic_iter ts l) (λ ts', ts'.(ops) = ts.(ops) + glen l)) as Hgen.
  { induction l as [|[i [rounds polls]] l IH]; intros ts Hl Himp; cbn [foldM].
    { apply returns_Ret. unfold glen. cbn. lia. }
    apply Forall_cons in Himp as [Hi Himp]. eapply returns_bind; [by apply basic_iter_passes|].
    intros ts1 [Hl1 Ho]. eapply returns_mono; [by apply IH|]. intros ts2 ->. rewrite Ho, glen_cons. lia. }
  intros Himp Hz. eapply returns_mono; [by apply Hgen|]. intros ts ->. unfold glen. by rewrite Hz.
Qed.
