(* ===== verification/RsmWitness.v ===== *)
(** * The theorems on the replicated state machine's tests at concrete runs *)

From S2P Require Import Prelude Gob KvServer Rsm.

(** Three concurrent calls, the second one a [Null]. *)
Lemma DoOp_interleaved_witness :
  ∃ s, calls_run [0; 2; 0; 1; 2] ([Called Inc; Called Null; Called Inc], newRSMSrv 0) = Ret s ∧
    s = ([Replied (IncRep 2); Replied NullRep; Replied (IncRep 2)], mkRsmSrv 0 2) ∧
    (∀ i n, s.1.[i] = Some (Replied (IncRep n)) → 0 < n ≤ 2).
Proof.
  destruct (DoOp_interleaved (newRSMSrv 0) [Called Inc; Called Null; Called Inc] [0; 2; 0; 1; 2])
    as [(s & Hs & _ & Hn) _].
  - by repeat constructor; (left || right).
  - assert (s = ([Replied (IncRep 2); Replied NullRep; Replied (IncRep 2)], mkRsmSrv 0 2)) as E.
    { cut (Ret s = Ret ([Replied (IncRep 2); Replied NullRep; Replied (IncRep 2)], mkRsmSrv 0 2)).
      - intros H. by injection H.
      - rewrite <-Hs. vm_compute. reflexivity. }
    exists s. split; [exact Hs|]. split; [exact E|]. rewrite E in Hn. rewrite E. exact Hn.
Defined.

(** Nobody accepts in the first round; in the second server 2 does, but server
    0, which the ring reaches after it, is the one outside the partition. *)
Definition first_round : list Server :=
  [mkServer true true ("ErrWrongLeader", None); mkServer false true (OK, None); mkServer true false (OK, None)].
Definition second_round : list Server :=
  [mkServer true true (OK, Some NullRep); mkServer true true ("ErrWrongLeader", None);
   mkServer true true (OK, Some (IncRep 7))].

Lemma onePartition_spec_witness :
  onePartition (Some [1; 2]) [first_round; second_round] (mkTest 1 4) = Ret (Some (IncRep 7), mkTest 2 5) ∧
  first_in_ring (Some [1; 2]) second_round 1 2 (Some (IncRep 7)).
Proof.
  destruct (onePartition_spec (Some [1; 2]) [first_round; second_round] (mkTest 1 4))
    as (r & Hr & _ & Hcase).
  - by repeat constructor.
  - split; [discriminate|reflexivity].
  - assert (onePartition (Some [1; 2]) [first_round; second_round] (mkTest 1 4) =
      Ret (Some (IncRep 7), mkTest 2 5)) as E by (vm_compute; reflexivity).
    split; [exact E|]. rewrite E in Hr. injection Hr as <-.
    destruct Hcase as [(pre & sv & post & i & Hp & _ & Hf & Hi)|[_ Hn]]; [|discriminate Hn].
    injection Hi as <-. destruct pre as [|s1 [|s2 pre]].
    + injection Hp as <- _. destruct Hf as (d & _ & _ & (s & Hs & _ & Hrsm & _) & _).
      injection Hs as <-. discriminate Hrsm.
    + injection Hp as _ <- _. exact Hf.
    + injection Hp as _ _ Hp. by destruct pre.
Defined.
