(* ===== verification/RaftTest.v ===== *)
(** * The Raft tester: [raft1/test.go]

    The tester's copy of what every server committed, and the checks it makes
    on it. What the servers answer to [GetState] and [Start], and how the
    state changes while the tester sleeps, are arguments. [t.Fatalf] ends the
    test: [Fatal]. The annotations the checks write are not modelled here. *)

From S2P Require Import Prelude Gob Raft.

(** Go's [%v] of a command, for error messages. *)
Class Fmt (A : Type) := fmt : A → string.

Section raft_test.
Context {Cmd : Type} `{EqDecision Cmd} `{Fmt (option Cmd)}.

(** [rfsrv != nil] is [rs_up]. *)
Record raftServer := mkRaftServer {
  rs_up : bool;
  applyErr : string;
  logs : gmap Z (option Cmd);
}.

#[export] Instance upd_rs_up : Upd rs_up := λ f s, mkRaftServer (f s.(rs_up)) s.(applyErr) s.(logs).
#[export] Instance upd_applyErr : Upd applyErr := λ f s, mkRaftServer s.(rs_up) (f s.(applyErr)) s.(logs).
#[export] Instance upd_logs : Upd logs := λ f s, mkRaftServer s.(rs_up) s.(applyErr) (f s.(logs)).

Definition newRaftServer : raftServer := mkRaftServer true "" ∅.
Definition entry (i : Z) (rs : raftServer) : option (option Cmd) := rs.(logs) !! i.

Record Test := mkTest { t_srvs : list raftServer; maxIndex : Z }.

Definition makeTest (n : Z) : Test := mkTest (replicate (Z.to_nat n) newRaftServer) 0.

Definition set_srv (i : Z) (rs : raftServer) (ts : Test) : go Test :=
  srvs ← gset_idx ts.(t_srvs) i rs; Ret (mkTest srvs ts.(maxIndex)).

(** [mksrv] for a restarted server; [kill]. *)
Definition mksrv (srv : Z) (ts : Test) : go Test :=
  rs ← gidx ts.(t_srvs) srv; set_srv srv (rs <| rs_up := true |>) ts.
Definition kill (srvs : list Z) (ts : Test) : go Test :=
  foldM (λ ts srv, rs ← gidx ts.(t_srvs) srv; set_srv srv (rs <| rs_up := false |>) ts) ts srvs.

Definition commit_msg (index i j : Z) (v old : option Cmd) : string :=
  "commit index=" +:+ pretty index +:+ " server=" +:+ pretty i +:+ " " +:+ fmt v +:+
  " != server=" +:+ pretty j +:+ " " +:+ fmt old.

Definition check_entry (i : Z) (m : ApplyMsg Cmd) (err_msg : string) (jrs : Z * raftServer) : string :=
  match entry m.(CommandIndex) jrs.2 with
  | Some old => if bool_decide (old = m.(am_Command)) then err_msg
                else commit_msg m.(CommandIndex) i jrs.1 m.(am_Command) old
  | None => err_msg
  end.

Definition CheckLogs (i : Z) (m : ApplyMsg Cmd) (ts : Test) : go (string * bool * Test) :=
  me ← gidx ts.(t_srvs) i;
  let err_msg := foldl (check_entry i m) "" (zip (range (glen ts.(t_srvs))) ts.(t_srvs)) in
  let prevok := bool_decide (is_Some (entry (m.(CommandIndex) - 1) me)) in
  ts ← set_srv i (me <| logs := <[m.(CommandIndex) := m.(am_Command)]> me.(logs) |>) ts;
  let ts := if ts.(maxIndex) <? m.(CommandIndex) then mkTest ts.(t_srvs) m.(CommandIndex) else ts in
  Ret (err_msg, prevok, ts).

Definition IngestLog (i : Z) (xlog : gmap Z (option Cmd)) (ts : Test) : go Test :=
  me ← gidx ts.(t_srvs) i;
  set_srv i (me <| logs := map_fold (λ k v l, <[k := v]> l) ∅ xlog |>) ts.

Definition ApplyErr (i : Z) (err : string) (ts : Test) : go Test :=
  me ← gidx ts.(t_srvs) i; set_srv i (me <| applyErr := err |>) ts.

(** ** Counting commits *)

Definition count_commit (index : Z) (st : Z * option Cmd) (rs : raftServer) : go (Z * option Cmd) :=
  if negb (bool_decide (rs.(applyErr) = "")) then Fatal
  else match entry index rs with
       | Some cmd1 =>
         if (0 <? st.1) && negb (bool_decide (st.2 = cmd1)) then Fatal
         else Ret (st.1 + 1, cmd1)
       | None => Ret st
       end.

Definition nCommitted (index : Z) (ts : Test) : go (Z * option Cmd) :=
  foldM (count_commit index) (0, None) ts.(t_srvs).

Definition checkNoAgreement (index : Z) (ts : Test) : go unit :=
  r ← nCommitted index ts;
  if 0 <? r.1 then Fatal else Ret tt.

(** ** Leaders and terms

    A sample of a server: whether it is connected and what its [GetState]
    returned. *)
Record Sample := mkSample { sm_connected : bool; sm_term : Z; sm_leader : bool }.

Definition add_leader (leaders : gmap Z (list Z)) (isample : Z * Sample) : gmap Z (list Z) :=
  let '(i, s) := isample in
  if s.(sm_connected) && s.(sm_leader)
  then <[s.(sm_term) := default [] (leaders !! s.(sm_term)) ++ [i]]> leaders
  else leaders.

Definition leaders_of (samples : list Sample) : gmap Z (list Z) :=
  foldl add_leader ∅ (zip (range (glen samples)) samples).

(** The loop over the map; its order does not matter. *)
Definition last_term (leaders : gmap Z (list Z)) : go Z :=
  foldM (λ last tl, if 1 <? glen tl.2 then Fatal else Ret (if last <? tl.1 then tl.1 else last))
    (-1) (map_to_list leaders).

(** One iteration: [None] when there is no leader yet. *)
Definition check_leaders (samples : list Sample) : go (option Z) :=
  let leaders := leaders_of samples in
  last ← last_term leaders;
  if negb (Z.of_nat (size leaders) =? 0)
  then l ← gidx (default [] (leaders !! last)) 0; Ret (Some l)
  else Ret None.

(** [iters] holds the samples of the (ten) iterations. *)
Fixpoint checkOneLeader (iters : list (list Sample)) : go Z :=
  match iters with
  | [] => Fatal
  | samples :: iters =>
    r ← check_leaders samples;
    match (r : option Z) with Some l => Ret l | None => checkOneLeader iters end
  end.

Definition check_term (term : Z) (s : Sample) : go Z :=
  if s.(sm_connected) then
    if term =? -1 then Ret s.(sm_term)
    else if negb (term =? s.(sm_term)) then Fatal else Ret term
  else Ret term.
Definition checkTerms (samples : list Sample) : go Z := foldM check_term (-1) samples.

Definition checkNoLeader (samples : list Sample) : go unit :=
  foldM (λ _ s, if s.(sm_connected) && s.(sm_leader) then Fatal else Ret tt) tt samples.

(** ** [one]: reaching agreement

    [results] tells for each server what [Start] returns when the loop gets to
    it ([None]: not connected, or no server). *)
Fixpoint try_servers (k : nat) (n starts : Z) (results : list (option (Z * bool))) : go (Z * Z) :=
  match k with
  | O => Ret (starts, -1)
  | S k =>
    let starts := Z.rem (starts + 1) n in
    r ← gidx results starts;
    match (r : option (Z * bool)) with
    | Some (index1, true) => Ret (starts, index1)
    | _ => try_servers k n starts results
    end
  end.

(** The polls of the two seconds after a [Start], on the states then. *)
Fixpoint poll_commit (index : Z) (cmd : option Cmd) (expectedServers : Z) (polls : list Test) : go bool :=
  match polls with
  | [] => Ret false
  | ts :: polls =>
    r ← nCommitted index ts;
    if (0 <? r.1) && (expectedServers <=? r.1) && bool_decide (r.2 = cmd) then Ret true
    else poll_commit index cmd expectedServers polls
  end.

(** An iteration of the outer loop: the servers' answers and the polls. *)
Definition Attempt : Type := list (option (Z * bool)) * list Test.

(** [finished]: whether [checkFinished()] holds when the time is up. *)
Fixpoint one_from (n starts : Z) (cmd : option Cmd) (expectedServers : Z) (retry : bool)
    (finished : bool) (attempts : list Attempt) : go Z :=
  match attempts with
  | [] => if finished then Ret (-1) else Fatal
  | (results, polls) :: attempts =>
    r ← try_servers (Z.to_nat n) n starts results;
    let '(starts, index) := r in
    if negb (index =? -1) then
      ok ← poll_commit index cmd expectedServers polls;
      if (ok : bool) then Ret index
      else if negb retry then Fatal
      else one_from n starts cmd expectedServers retry finished attempts
    else one_from n starts cmd expectedServers retry finished attempts
  end.

Definition one (n : Z) (cmd : option Cmd) (expectedServers : Z) (retry finished : bool)
    (attempts : list Attempt) : go Z :=
  one_from n 0 cmd expectedServers retry finished attempts.

(** [wait]: each iteration sees a state and the servers' terms; [None] is the
    early return of -1. *)
Fixpoint wait_rounds (index n startTerm : Z) (rounds : list (Test * list Z)) : go bool :=
  match rounds with
  | [] => Ret true
  | (ts, terms) :: rounds =>
    r ← nCommitted index ts;
    if n <=? r.1 then Ret true
    else if (-1 <? startTerm) && existsb (λ t, startTerm <? t) terms then Ret false
    else wait_rounds index n startTerm rounds
  end.

Definition wait (index n startTerm : Z) (rounds : list (Test * list Z)) (last : Test) :
    go (option (option Cmd)) :=
  go_on ← wait_rounds index n startTerm (take 30 rounds);
  if negb go_on then Ret None
  else
    r ← nCommitted index last;
    if r.1 <? n then Fatal else Ret (Some r.2).
End raft_test.

Arguments raftServer : clear implicits.
Arguments Test : clear implicits.

(** ** What the checks establish *)

Section raft_test_facts.
Context {Cmd : Type} `{EqDecision Cmd} `{Fmt (option Cmd)}.
Implicit Types (ts : Test Cmd) (rs : raftServer Cmd).

(** [n] servers have an entry at [index], all with command [c]. *)
Definition committed (index n : Z) (c : option Cmd) ts : Prop :=
  n = countb (λ rs, bool_decide (is_Some (entry index rs))) ts.(t_srvs) ∧
  ∀ rs, rs ∈ ts.(t_srvs) → ∀ v, entry index rs = Some v → v = c.

Lemma count_commit_fold index srvs : ∀ k c k' c',
  0 ≤ k → foldM (count_commit index) (k, c) srvs = Ret (k', c') →
  Forall (λ rs, rs.(applyErr) = "") srvs ∧
  k' = k + countb (λ rs, bool_decide (is_Some (entry index rs))) srvs ∧
  (0 < k → c' = c) ∧
  (∀ rs, rs ∈ srvs → ∀ v, entry index rs = Some v → v = c').
Proof.
  induction srvs as [|rs srvs IH]; intros k c k' c' Hk; cbn [foldM].
  { intros [= <- <-]. rewrite countb_nil. split; [done|]. split; [lia|]. split; [done|].
    by intros ? ?%not_elem_of_nil. }
  intros Hf. apply bind_Ret_inv in Hf as ([k1 c1] & H1 & Hf). unfold count_commit in H1.
  case_bool_decide as Ha; [cbn [negb] in H1|done]. rewrite countb_cons.
  destruct (entry index rs) as [v|] eqn:He; cbn [fst snd] in H1.
  - rewrite bool_decide_true by by eexists.
    destruct (Z.ltb_spec 0 k); cbn [andb] in H1.
    + case_bool_decide as Hc; [cbn [negb] in H1|done]. injection H1 as <- <-.
      apply IH in Hf as (HF & -> & Hcc & Hall); [|lia]. rewrite (Hcc ltac:(lia)) in *.
      split; [by constructor|]. split; [lia|]. split; [done|].
      intros rs' [->|Hin]%elem_of_cons v'; [congruence|by apply Hall].
    + injection H1 as <- <-. apply IH in Hf as (HF & -> & Hcc & Hall); [|lia].
      rewrite (Hcc ltac:(lia)) in *. split; [by constructor|]. split; [lia|]. split; [lia|].
      intros rs' [->|Hin]%elem_of_cons v'; [congruence|by apply Hall].
  - rewrite bool_decide_false by by intros []. injection H1 as <- <-.
    apply IH in Hf as (HF & -> & Hcc & Hall); [|lia]. split; [by constructor|]. split; [lia|].
    split; [done|]. intros rs' [->|Hin]%elem_of_cons v'; [congruence|by apply Hall].
Qed.

Lemma nCommitted_Ret index ts n c :
  nCommitted index ts = Ret (n, c) →
  Forall (λ rs, rs.(applyErr) = "") ts.(t_srvs) ∧ committed index n c ts.
Proof.
  intros Hn. apply count_commit_fold in Hn as (HF & -> & _ & Hall); [|lia].
  split; [done|]. split; [lia|done].
Qed.

Lemma poll_commit_true index cmd expected polls :
  poll_commit index cmd expected polls = Ret true →
  ∃ ts n, ts ∈ polls ∧ 0 < n ∧ expected ≤ n ∧ committed index n cmd ts ∧
    Forall (λ rs, rs.(applyErr) = "") ts.(t_srvs).
Proof.
  induction polls as [|ts polls IH]; cbn [poll_commit]; [done|]. intros Hp.
  apply bind_Ret_inv in Hp as ([n c] & Hn & Hp). cbn [fst snd] in Hp.
  destruct ((0 <? n) && (expected <=? n) && bool_decide (c = cmd)) eqn:Hc.
  - apply andb_true_iff in Hc as [[Hn0 Hne]%andb_true_iff Hcc%bool_decide_eq_true]. subst c.
    apply Z.ltb_lt in Hn0. apply Z.leb_le in Hne.
    apply nCommitted_Ret in Hn as [HF Hcm]. exists ts, n. split; [left|done].
  - destruct (IH Hp) as (ts' & n' & Hin & Hrest). exists ts', n'. split; [by right|done].
Qed.

Lemma try_servers_index k n starts results st index :
  try_servers k n starts results = Ret (st, index) → index ≠ -1 →
  ∃ s, results.[s] = Some (Some (index, true)).
Proof.
  revert starts. induction k as [|k IH]; intros starts; cbn [try_servers]; intros Ht Hi.
  - by injection Ht as _ <-.
  - apply bind_Ret_inv in Ht as (r & Hr & Ht). apply gidx_Ret in Hr.
    destruct r as [[i []]|]; [|by eapply IH|by eapply IH].
    injection Ht as _ <-. by eexists.
Qed.

Lemma one_from_Ret n cmd expectedServers retry finished attempts index : ∀ starts,
  one_from n starts cmd expectedServers retry finished attempts = Ret index →
  (index = -1 ∧ finished = true) ∨
  (∃ results polls ts nd s, (results, polls) ∈ attempts ∧ ts ∈ polls ∧
     results.[s] = Some (Some (index, true)) ∧
     0 < nd ∧ expectedServers ≤ nd ∧ committed index nd cmd ts ∧
     Forall (λ rs, rs.(applyErr) = "") ts.(t_srvs)).
Proof.
  induction attempts as [|[results polls] attempts IH];
    intros starts; cbn [one_from].
  { destruct finished; [|done]. intros [= <-]. by left. }
  intros Ho. apply bind_Ret_inv in Ho as ([st idx] & Ht & Ho).
  assert (∀ st, one_from n st cmd expectedServers retry finished attempts = Ret index →
    (index = -1 ∧ finished = true) ∨
    (∃ results0 polls0 ts nd s, (results0, polls0) ∈ (results, polls) :: attempts ∧ ts ∈ polls0 ∧
       results0.[s] = Some (Some (index, true)) ∧
       0 < nd ∧ expectedServers ≤ nd ∧ committed index nd cmd ts ∧
       Forall (λ rs, rs.(applyErr) = "") ts.(t_srvs))) as IH'.
  { intros st' Ho'. destruct (IH st' Ho') as [?|(r' & p' & ts & nd & s & Hin & Hrest)]; [by left|].
    right. exists r', p', ts, nd, s. split; [by right|done]. }
  destruct (Z.eqb_spec idx (-1)) as [->|Hidx]; cbn [negb] in Ho; [by eapply IH'|].
  apply bind_Ret_inv in Ho as (ok & Hp & Ho). destruct ok.
  - injection Ho as <-. right. destruct (try_servers_index _ _ _ _ _ _ Ht Hidx) as [s Hs].
    destruct (poll_commit_true _ _ _ _ Hp) as (ts & nd & Hin & Hrest).
    exists results, polls, ts, nd, s. split; [left|]. split; [done|]. split; [done|]. tauto.
  - destruct retry; cbn [negb] in Ho; [by eapply IH'|done].
Qed.

(** When [one] returns an index, some server accepted the command in
    [Start] at that index, and at a later moment at least [expectedServers]
    servers, and at least one, had exactly this command committed at the
    index, every server with an entry there agreed, and no server had reported
    an apply error. The only other way to return is -1 once the test is
    finished; with [retry] off a failed agreement is fatal. *)
Theorem one_spec n cmd expectedServers retry finished attempts index :
  one n cmd expectedServers retry finished attempts = Ret index →
  (index = -1 ∧ finished = true) ∨
  (∃ results polls ts nd s, (results, polls) ∈ attempts ∧ ts ∈ polls ∧
     results.[s] = Some (Some (index, true)) ∧
     0 < nd ∧ expectedServers ≤ nd ∧ committed index nd cmd ts ∧
     Forall (λ rs, rs.(applyErr) = "") ts.(t_srvs)).
Proof. apply one_from_Ret. Qed.

(** *** Leaders *)

Definition leads (samples : list Sample) (i t : Z) : Prop :=
  ∃ s, samples.[i] = Some s ∧ s.(sm_connected) = true ∧ s.(sm_leader) = true ∧ s.(sm_term) = t.

Lemma leaders_fold samples : ∀ pre leaders,
  (∀ t, NoDup (default [] (leaders !! t)) ∧ leaders !! t ≠ Some [] ∧
        ∀ i, i ∈ default [] (leaders !! t) ↔ leads pre i t) →
  let leaders' := foldl add_leader leaders (zip (seqZ (glen pre) (glen samples)) samples) in
  ∀ t, NoDup (default [] (leaders' !! t)) ∧ leaders' !! t ≠ Some [] ∧
       ∀ i, i ∈ default [] (leaders' !! t) ↔ leads (pre ++ samples) i t.
Proof.
  induction samples as [|s samples IH]; intros pre leaders Hinv; [by rewrite app_nil_r|].
  rewrite glen_cons, seqZ_cons by (pose proof (glen_nonneg samples); lia).
  replace (Z.pred (1 + glen samples)) with (glen samples) by lia. cbn [zip zip_with foldl].
  replace (pre ++ s :: samples) with ((pre ++ [s]) ++ samples) by by rewrite <-app_assoc.
  replace (Z.succ (glen pre)) with (glen (pre ++ [s])) by (rewrite glen_app; done).
  apply IH. clear IH. intros t. destruct (Hinv t) as (Hnd & Hne & Hin).
  assert (∀ i, leads (pre ++ [s]) i t ↔ leads pre i t ∨
    (i = glen pre ∧ sm_connected s = true ∧ sm_leader s = true ∧ sm_term s = t)) as Hl.
  { intros i. unfold leads. destruct (Z.lt_trichotomy i (glen pre)) as [Hi|[->|Hi]].
    - rewrite zlookup_app_l by done. split; [by left|intros [?|(-> & _)]; [done|lia]].
    - rewrite zlookup_app_r, Z.sub_diag by lia. split.
      + intros (x & [= <-] & ?). right. by destruct_and!.
      + intros [(x & Hx & _)|(_ & ?)]; [apply zlookup_lt_Some in Hx; lia|by exists s].
    - rewrite zlookup_app_r by lia. split.
      + intros (x & Hx & _). apply zlookup_lt_Some in Hx. change (glen [s]) with 1 in Hx. lia.
      + intros [(x & Hx & _)|(-> & _)]; [apply zlookup_lt_Some in Hx; lia|lia]. }
  unfold add_leader. destruct (sm_connected s && sm_leader s) eqn:Hc.
  - apply andb_true_iff in Hc as [Hc1 Hc2]. rewrite lookup_insert. case_decide as Ht.
    + subst t. cbn [from_option id]. split; [|split].
      * apply NoDup_app. split; [done|]. split; [|apply NoDup_singleton].
        intros i Hi Hi'. apply list_elem_of_singleton in Hi' as ->. apply Hin in Hi as (x & Hx & _).
        apply zlookup_lt_Some in Hx. lia.
      * intros [=E]. by apply app_eq_nil in E as [_ ?].
      * intros i. rewrite elem_of_app, list_elem_of_singleton, Hin, Hl. naive_solver.
    + split; [done|]. split; [done|]. intros i. rewrite Hin, Hl. naive_solver.
  - split; [done|]. split; [done|]. intros i. rewrite Hin, Hl. apply andb_false_iff in Hc. naive_solver congruence.
Qed.

Lemma leaders_of_spec samples t :
  NoDup (default [] (leaders_of samples !! t)) ∧ leaders_of samples !! t ≠ Some [] ∧
  ∀ i, i ∈ default [] (leaders_of samples !! t) ↔ leads samples i t.
Proof.
  apply (leaders_fold samples [] ∅). intros t'. rewrite lookup_empty. cbn.
  split; [apply NoDup_nil_2|]. split; [done|]. intros i. split; [by intros ?%not_elem_of_nil|].
  intros (s & Hs & _). apply zlookup_lt_Some in Hs. unfold glen in Hs. cbn in Hs. lia.
Qed.

Lemma last_term_fold l : ∀ last,
  match foldM (λ last tl, if 1 <? glen tl.2 then Fatal else Ret (if last <? tl.1 then tl.1 else last)) last l with
  | Panic => False
  | Fatal => ∃ t is_, (t, is_) ∈ l ∧ 1 < glen (is_ : list Z)
  | Ret last' => (∀ t is_, (t, is_) ∈ l → glen is_ ≤ 1 ∧ t ≤ last') ∧ last ≤ last' ∧
      (last' = last ∨ ∃ is_, (last', is_) ∈ l)
  end.
Proof.
  induction l as [|[t is_] l IH]; intros last; cbn [foldM fst snd].
  { split; [by intros ? ? ?%not_elem_of_nil|]. split; [lia|by left]. }
  case_if; cbn [mbind go_bind]; [exists t, is_; split; [left|done]|].
  specialize (IH (if last <? t then t else last)).
  destruct (foldM _ _ l) as [last'| |]; [|done|].
  - destruct IH as (Hall & Hle & Hor). split; [|split].
    + intros t' is' [[= -> ->]|Hin]%elem_of_cons; [|by eapply Hall]. split; [lia|]. revert Hle. case_if; lia.
    + revert Hle. case_if; lia.
    + destruct Hor as [->|[is' Hin]]; [|right; exists is'; by right].
      case_if; [right; exists is_; left|by left].
  - destruct IH as (t' & is' & Hin & Hl). exists t', is'. split; [by right|done].
Qed.

Lemma two_elems (l : list Z) : NoDup l → 1 < glen l → ∃ i j, i ∈ l ∧ j ∈ l ∧ i ≠ j.
Proof.
  destruct l as [|i [|j l]]; intros Hnd Hl; [unfold glen in Hl; cbn in Hl; lia..|].
  exists i, j. split; [left|]. split; [right; left|]. intros ->.
  apply NoDup_cons in Hnd as [Hni _]. apply Hni. left.
Qed.

Lemma check_leaders_spec samples :
  (∀ i t, leads samples i t → 0 ≤ t) →
  match check_leaders samples with
  | Ret (Some l) => ∃ t, leads samples l t ∧
      ∀ i t', leads samples i t' → t' ≤ t ∧ (∀ j, leads samples j t' → j = i)
  | Ret None => ∀ i t, ¬ leads samples i t
  | Fatal => ∃ i j t, i ≠ j ∧ leads samples i t ∧ leads samples j t
  | Panic => False
  end.
Proof.
  intros Hpos. unfold check_leaders, last_term. set (leaders := leaders_of samples).
  pose proof (leaders_of_spec samples) as Hsp. fold leaders in Hsp.
  assert (∀ t is_, (t, is_) ∈ map_to_list leaders →
    is_ ≠ [] ∧ NoDup is_ ∧ ∀ i, i ∈ is_ ↔ leads samples i t) as Hent.
  { intros t is_ Ht%elem_of_map_to_list. destruct (Hsp t) as (Hnd & Hne & Hin). rewrite Ht in *.
    split; [by intros ->|by split]. }
  assert (∀ i t, leads samples i t → ∃ is_, (t, is_) ∈ map_to_list leaders ∧ i ∈ is_) as Hget.
  { intros i t Hi. destruct (Hsp t) as (_ & _ & Hin). apply Hin in Hi.
    destruct (leaders !! t) as [is_|] eqn:Ht; [|by apply not_elem_of_nil in Hi].
    exists is_. split; [by apply elem_of_map_to_list|done]. }
  pose proof (last_term_fold (map_to_list leaders) (-1)) as Hlast.
  destruct (foldM _ _ _) as [last| |]; [|done|]; cbn [mbind go_bind].
  - destruct Hlast as (Hall & Hle & Hor). destruct (Z.eqb_spec (Z.of_nat (size leaders)) 0) as [Hz|Hz]; cbn [negb].
    + intros i t Hi. destruct (Hget i t Hi) as (is_ & Ht & _). apply elem_of_map_to_list in Ht.
      assert (leaders = ∅) as He by (apply map_size_empty_iff; lia). by rewrite He, lookup_empty in Ht.
    + destruct Hor as [->|[is_ Hlast]].
      { exfalso. assert (leaders ≠ ∅) as Hne by (intros E; rewrite E, map_size_empty in Hz; lia).
        destruct (map_choose _ Hne) as (t & is_ & Ht). apply elem_of_map_to_list in Ht.
        destruct (Hent _ _ Ht) as (Hne' & _ & Hin). destruct is_ as [|i is_]; [done|].
        destruct (Hall _ _ Ht) as [_ ?]. pose proof (Hpos i t (proj1 (Hin i) ltac:(left))). lia. }
      destruct (Hent _ _ Hlast) as (Hne & Hnd & Hin). pose proof Hlast as Hl%elem_of_map_to_list.
      rewrite Hl. destruct is_ as [|l is_]; [done|]. cbn. exists last. split; [apply Hin; left|].
      intros i t' Hi. destruct (Hget i t' Hi) as (is' & Ht' & Hi'). destruct (Hall _ _ Ht') as [Hl1 ?].
      split; [done|]. intros j Hj. destruct (Hent _ _ Ht') as (_ & Hnd' & Hin').
      destruct (decide (j = i)) as [|Hji]; [done|]. apply Hin' in Hj.
      destruct is' as [|x [|y is']]; [by apply not_elem_of_nil in Hj| |].
      * apply list_elem_of_singleton in Hj, Hi'. congruence.
      * rewrite !glen_cons in Hl1. pose proof (glen_nonneg is'). lia.
  - destruct Hlast as (t & is_ & Ht & Hl). destruct (Hent _ _ Ht) as (_ & Hnd & Hin).
    destruct (two_elems is_ Hnd Hl) as (i & j & Hi & Hj & Hij). exists i, j, t. by rewrite <-!Hin.
Qed.

(** [checkOneLeader] returns a server that was a connected leader in one
    of the samples, of the highest term any connected leader then had, while no
    two connected leaders shared a term, and no connected server had been a
    leader before. It fails only if two connected servers lead the same term in
    a sample, or if no sample has a leader. *)
Theorem checkOneLeader_spec iters :
  (∀ samples, samples ∈ iters → ∀ i t, leads samples i t → 0 ≤ t) →
  match checkOneLeader iters with
  | Ret l => ∃ before samples after t, iters = before ++ samples :: after ∧
      (∀ s, s ∈ before → ∀ i t', ¬ leads s i t') ∧ leads samples l t ∧
      ∀ i t', leads samples i t' → t' ≤ t ∧ (∀ j, leads samples j t' → j = i)
  | Fatal => (∃ samples i j t, samples ∈ iters ∧ i ≠ j ∧ leads samples i t ∧ leads samples j t) ∨
      (∀ samples, samples ∈ iters → ∀ i t, ¬ leads samples i t)
  | Panic => False
  end.
Proof.
  induction iters as [|samples iters IH]; intros Hpos; cbn [checkOneLeader].
  { right. by intros ? ?%not_elem_of_nil. }
  pose proof (check_leaders_spec samples (Hpos samples ltac:(left))) as Hc.
  destruct (check_leaders samples) as [[l|]| |]; cbn [mbind go_bind].
  - destruct Hc as (t & Hl & Hrest). exists [], samples, iters, t. split; [done|].
    split; [by intros ? ?%not_elem_of_nil|done].
  - assert (∀ s, s ∈ iters → ∀ i t, leads s i t → 0 ≤ t) as Hpos' by (intros s Hs; apply Hpos; by right).
    specialize (IH Hpos'). destruct (checkOneLeader iters) as [l| |]; [|done|].
    + destruct IH as (before & smp & after & t & -> & Hb & Hrest).
      exists (samples :: before), smp, after, t. split; [done|]. split; [|done].
      by intros s [->|Hs]%elem_of_cons; [|apply Hb].
    + destruct IH as [(smp & i & j & t & Hin & ?)|Hno].
      * left. exists smp, i, j, t. split; [by right|done].
      * right. by intros s [->|Hs]%elem_of_cons; [|apply Hno].
  - done.
  - destruct Hc as (i & j & t & ?). left. exists samples, i, j, t. split; [left|done].
Qed.
End raft_test_facts.
