(* ===== verification/TesterFaults.v ===== *)
(** * What a test does to its servers, and what it shows: [raft1/test.go]

    [kill] and [restart] of the Raft tests, and the calls that tests make to cut
    a server off and to connect it again, composed: the group of servers with
    the network ([TesterGroup.v]), the test's own records of the servers
    ([RaftTest.v]) and the annotations ([Annotation.v]) change together. The
    theorem relates a run to three flags for each server. *)

From S2P Require Import Prelude Names Gob Raft Annotation Persister LabRpc TesterGroup TesterConfig RaftTest.

(** ** The operations *)

(** [l] in [ARestart] gives, for each server, what starting it draws. *)
Inductive Action :=
  | AKill (l : list Z)
  | ARestart (l : list (Z * Start))
  | ADisconnect (i : Z)
  | AConnect (i : Z)
  | AAnnotate.

Section faults.
Context {Cmd : Type} `{EqDecision Cmd} `{Fmt (option Cmd)}.

(** The parts of a [Test] that these operations change, and the package
    variables of the annotations. *)
Record RfTest := mkRfTest { rf_grp : Grp; rf_test : @Test Cmd; rf_world : World }.

(** [kill] *)
Definition kill_servers (now : Z) (l : list Z) (ts : RfTest) : go RfTest :=
  g ← Kill l ts.(rf_grp);
  w ← AnnotateShutdown now l ts.(rf_world);
  t ← kill l ts.(rf_test);
  Ret (mkRfTest g t w).

(** [restart]'s loop, then [restart]. *)
Definition reconnect (gt : Grp * @Test Cmd) (srv : Z) : go (Grp * @Test Cmd) :=
  t ← mksrv srv gt.2;
  g ← ConnectOne srv gt.1;
  Ret (g, t).

Definition restart_servers (now : Z) (l : list (Z * Start)) (ts : RfTest) : go RfTest :=
  g ← StartSrvs l ts.(rf_grp);
  w ← AnnotateRestart now l.*1 ts.(rf_world);
  gt ← foldM reconnect (g, ts.(rf_test)) l.*1;
  Ret (mkRfTest gt.1 gt.2 w).

(** [ts.g.DisconnectAll], [ts.g.ConnectOne] and
    [tester.AnnotateConnection(ts.g.GetConnected())] as the tests call them. *)
Definition do_action (now : Z) (act : Action) (ts : RfTest) : go RfTest :=
  match act with
  | AKill l => kill_servers now l ts
  | ARestart l => restart_servers now l ts
  | ADisconnect i => g ← DisconnectAll i ts.(rf_grp); Ret (mkRfTest g ts.(rf_test) ts.(rf_world))
  | AConnect i => g ← ConnectOne i ts.(rf_grp); Ret (mkRfTest g ts.(rf_test) ts.(rf_world))
  | AAnnotate =>
    w ← AnnotateConnection now (GetConnected ts.(rf_grp).1) ts.(rf_world);
    Ret (mkRfTest ts.(rf_grp) ts.(rf_test) w)
  end.

Definition run_actions (ts : RfTest) (acts : list (Z * Action)) : go RfTest :=
  foldM (λ ts ta, do_action ta.1 ta.2 ts) ts acts.
End faults.
Arguments RfTest : clear implicits.
Arguments mkRfTest {Cmd}.

(** ** The specification

    Of each server: whether its process runs, whether the test has it connected,
    and whether the annotations show it connected. *)
Record Flags := mkFlags { up : Z → bool; conn : Z → bool; shown : Z → bool }.

Definition raise (l : list Z) (f : Z → bool) : Z → bool := λ i, bool_decide (i ∈ l) || f i.
Definition drop (l : list Z) (f : Z → bool) : Z → bool := λ i, negb (bool_decide (i ∈ l)) && f i.

Definition spec_action (act : Action) (fl : Flags) : Flags :=
  match act with
  | AKill l => mkFlags (drop l fl.(up)) (drop l fl.(conn)) fl.(shown)
  | ARestart l => mkFlags (raise l.*1 fl.(up)) (raise l.*1 fl.(conn)) fl.(shown)
  | ADisconnect i => mkFlags fl.(up) (drop [i] fl.(conn)) fl.(shown)
  | AConnect i => mkFlags fl.(up) (raise [i] fl.(conn)) fl.(shown)
  | AAnnotate => mkFlags fl.(up) fl.(conn) fl.(conn)
  end.

Definition all_fine : Flags := mkFlags (λ _, true) (λ _, true) (λ _, true).
Definition spec_run (acts : list (Z * Action)) : Flags := foldl (λ fl ta, spec_action ta.2 fl) all_fine acts.

(** ** Groups of servers *)

Lemma ServerName_at gid i j : ServerName gid i = ServerName gid j → i = j.
Proof. unfold ServerName. intros Heq%append_inj%append_inj%append_inj. by apply (inj pretty). Qed.

(** The group is in the state that the flags say. Servers in [rest] have been
    started again but not connected yet: between them and others nothing gets
    through that the flags forbid, but perhaps not all that they allow. *)
Record grp_agrees (n gid : Z) (u c : Z → bool) (rest : list Z) (g : Grp) : Prop := {
  ga_wired : wired n g;
  ga_gid : g.1.(grp_gid) = gid;
  ga_run : ∀ i, 0 ≤ i < n → running g.1 i ↔ u i = true;
  ga_served : ∀ i, 0 ≤ i < n → served gid g.2 i ↔ u i = true;
  ga_conn : ∀ i, 0 ≤ i < n → g.1.(TesterGroup.connected).[i] = Some (c i);
  ga_sound : ∀ a b, 0 ≤ a < n → 0 ≤ b < n → lnk g.1.(srvs) g.2 a b = true → c a = true ∧ c b = true;
  ga_full : ∀ a b, 0 ≤ a < n → 0 ≤ b < n → a ∉ rest → b ∉ rest → c a = true → c b = true →
    lnk g.1.(srvs) g.2 a b = true;
}.

Section group_steps.
Context (n gid : Z).
Implicit Types (g : Grp) (u c : Z → bool).

Lemma raise_in i l f : i ∈ l → raise l f i = true.
Proof. intros. unfold raise. by rewrite bool_decide_true. Qed.
Lemma raise_out i l f : i ∉ l → raise l f i = f i.
Proof. intros. unfold raise. by rewrite bool_decide_false. Qed.
Lemma drop_in i l f : i ∈ l → drop l f i = false.
Proof. intros. unfold drop. by rewrite bool_decide_true. Qed.
Lemma drop_out i l f : i ∉ l → drop l f i = f i.
Proof. intros. unfold drop. by rewrite bool_decide_false. Qed.

(** [connect] and [disconnect] change no server. *)
Lemma grp_agrees_net g conn' net' u c c' rest rest' :
  grp_agrees n gid u c rest g → net'.(servers) = g.2.(servers) → net'.(ends) = g.2.(ends) →
  glen conn' = n → (∀ i, 0 ≤ i < n → conn'.[i] = Some (c' i)) →
  (∀ a b, 0 ≤ a < n → 0 ≤ b < n → lnk g.1.(srvs) net' a b = true → c' a = true ∧ c' b = true) →
  (∀ a b, 0 ≤ a < n → 0 ≤ b < n → a ∉ rest' → b ∉ rest' → c' a = true → c' b = true → lnk g.1.(srvs) net' a b = true) →
  grp_agrees n gid u c' rest' (g.1 <| TesterGroup.connected := conn' |>, net').
Proof.
  intros [[[Hok Hlen] Hends Hprocs] Hgid Hrun Hsrv _ _ _] Hs He Hc Hconn Hsound Hfull. constructor; cbn [fst snd].
  - split; [split; [exact Hok|exact Hc]| |exact Hprocs]. intros a b e Hnm. unfold end_exists. cbn [snd]. rewrite He. by apply (Hends a b).
  - exact Hgid.
  - exact Hrun.
  - intros i Hi. rewrite <-(Hsrv i Hi). unfold served, server_of. by rewrite Hs.
  - exact Hconn.
  - exact Hsound.
  - exact Hfull.
Qed.

Lemma DisconnectAll_agrees g u c i :
  grp_agrees n gid u c [] g → 0 ≤ i < n →
  ∃ g', DisconnectAll i g = Ret g' ∧ grp_agrees n gid u (drop [i] c) [] g' ∧ g'.1.(srvs) = g.1.(srvs) ∧
    g'.2.(ends) = g.2.(ends).
Proof.
  intros Hg Hi. pose proof Hg as [[[Hok Hlen] _ _] _ _ _ Hconn Hsound Hfull]. pose proof (eo_len _ _ Hok) as Hn.
  unfold DisconnectAll. destruct (disconnect_spec n g i (all g.1)) as (net' & E & L); [done|done|intros t ?%elem_of_all; lia|].
  assert (∀ t, 0 ≤ t < n → t ∈ all g.1) as Hall by (intros; apply elem_of_all; lia).
  pose proof (disconnect_ends _ _ _ _ E) as He. pose proof (disconnect_servers _ _ _ _ E) as Hs. rewrite E.
  eexists. split; [done|]. split; [|by split]. cbn [snd] in *. apply (grp_agrees_net g _ _ u c _ []); try done.
  - by rewrite glen_insert.
  - intros j Hj. rewrite zlookup_insert by lia. case_decide.
    + subst. by rewrite drop_in by left.
    + rewrite drop_out by (rewrite list_elem_of_singleton; by intros ->). by apply Hconn.
  - intros a b Ha Hb Hl. destruct (decide (a = i)) as [->|Hai].
    { rewrite (proj1 (L i b)) in Hl; [done|]. left. by auto. }
    destruct (decide (b = i)) as [->|Hbi].
    { rewrite (proj1 (L a i)) in Hl; [done|]. right. by auto. }
    rewrite (proj2 (L a b)) in Hl by by intros [[? _]|[? _]].
    rewrite !drop_out by by rewrite list_elem_of_singleton. by apply Hsound.
  - intros a b Ha Hb _ _ Hca Hcb. unfold drop in Hca, Hcb.
    destruct (bool_decide_reflect (a ∈ [i])) as [|Hai]; [done|]. destruct (bool_decide_reflect (b ∈ [i])) as [|Hbi]; [done|].
    rewrite list_elem_of_singleton in Hai, Hbi. rewrite (proj2 (L a b)) by by intros [[? _]|[? _]].
    apply Hfull; try done; apply not_elem_of_nil.
Qed.

Lemma ConnectOne_agrees g u c i rest rest' :
  grp_agrees n gid u c rest g → 0 ≤ i < n → (∀ j, j ∈ rest → j = i ∨ j ∈ rest') →
  ∃ g', ConnectOne i g = Ret g' ∧ grp_agrees n gid u (raise [i] c) rest' g' ∧ g'.1.(srvs) = g.1.(srvs) ∧
    g'.2.(ends) = g.2.(ends).
Proof.
  intros Hg Hi Hrest. pose proof Hg as [[[Hok Hlen] _ _] _ _ _ Hconn Hsound Hfull]. pose proof (eo_len _ _ Hok) as Hn.
  unfold ConnectOne. destruct (connect_spec n g i (all g.1)) as (net' & E & L); [done|done|intros t ?%elem_of_all; lia|].
  assert (∀ t, 0 ≤ t < n → t ∈ all g.1) as Hall by (intros; apply elem_of_all; lia).
  pose proof (connect_ends _ _ _ _ E) as He. pose proof (connect_servers _ _ _ _ E) as Hs. rewrite E.
  eexists. split; [done|]. split; [|by split]. cbn [snd] in *.
  set (conn' := <[Z.to_nat i := true]> _) in *.
  assert (∀ j, 0 ≤ j < n → conn'.[j] = Some (raise [i] c j)) as Hconn'.
  { intros j Hj. unfold conn'. rewrite zlookup_insert by lia. case_decide.
    + subst. by rewrite raise_in by left.
    + rewrite raise_out by (rewrite list_elem_of_singleton; by intros ->). by apply Hconn. }
  assert (∀ a, 0 ≤ a < n → conn'.[a] = Some true ↔ raise [i] c a = true) as Hiff
    by (intros a Ha; rewrite Hconn' by done; split; [by intros [= ->]|by intros ->]).
  assert (raise [i] c i = true) as Hci by (apply raise_in; left).
  apply (grp_agrees_net g _ _ u c _ rest); try done.
  - unfold conn'. by rewrite glen_insert.
  - intros a b Ha Hb Hl.
    destruct (decide (a = i ∨ b = i)) as [Hab|Hab]; [destruct Hab as [-> | ->]|].
    + split; [done|]. destruct (raise [i] c b) eqn:Hcb; [done|]. assert (b ≠ i) by (intros ->; congruence).
      rewrite (proj2 (L i b)) in Hl.
      * apply Hsound in Hl as [_ Hl]; [|done..]. rewrite raise_out in Hcb by by rewrite list_elem_of_singleton. congruence.
      * intros [[_ [_ Hb']]|[-> _]]; [|done]. apply Hiff in Hb'; [congruence|done].
    + split; [|done]. destruct (raise [i] c a) eqn:Hca; [done|]. assert (a ≠ i) by (intros ->; congruence).
      rewrite (proj2 (L a i)) in Hl.
      * apply Hsound in Hl as [Hl _]; [|done..]. rewrite raise_out in Hca by by rewrite list_elem_of_singleton. congruence.
      * intros [[-> _]|[_ [_ Ha']]]; [done|]. apply Hiff in Ha'; [congruence|done].
    + rewrite (proj2 (L a b)) in Hl by by intros [[? _]|[? _]]; tauto.
      rewrite !raise_out by (rewrite list_elem_of_singleton; tauto). by apply Hsound.
  - intros a b Ha Hb Hra Hrb Hca Hcb.
    destruct (decide (a = i ∨ b = i)) as [Hab|Hab].
    + apply (proj1 (L a b)). destruct Hab as [-> | ->]; [left|right]; (split; [done|]; split; [auto|by apply Hiff]).
    + rewrite (proj2 (L a b)) by by intros [[? _]|[? _]]; tauto.
      rewrite raise_out in Hca, Hcb by (rewrite list_elem_of_singleton; tauto).
      apply Hfull; try done; intros Hin%Hrest; tauto.
Qed.

Lemma running_insert sg sg' i s :
  sg.(srvs).[i] = Some s → ∀ s', sg'.(srvs) = <[Z.to_nat i := s']> sg.(srvs) →
  ∀ j, running sg' j ↔ if decide (j = i) then ∃ d, s'.(dc) = Some d ∧ d.(da_proc) = Alive else running sg j.
Proof.
  intros Hs s' Heq j. pose proof (zlookup_lt_Some _ _ _ Hs). unfold running. rewrite Heq.
  setoid_rewrite zlookup_insert; [|lia]. case_decide as Hij.
  - subst j. rewrite decide_True by done. split.
    + intros (x & d & [= <-] & Hd). by exists d.
    + intros (d & Hd & Hal). by exists s', d.
  - by rewrite decide_False by done.
Qed.

Lemma served_insert net net' i x j :
  net'.(servers) = <[ServerName gid i := x]> net.(servers) →
  served gid net' j ↔ if decide (j = i) then is_Some x else served gid net j.
Proof.
  intros Heq. unfold served, server_of. rewrite Heq. case_decide as Hij.
  - subst j. rewrite lookup_insert_eq. cbn. by destruct x.
  - rewrite lookup_insert_ne; [done|]. by intros ->%ServerName_at.
Qed.

Lemma ShutdownServer_agrees g u c i :
  grp_agrees n gid u c [] g → 0 ≤ i < n →
  ∃ g', ShutdownServer i g = Ret g' ∧ grp_agrees n gid (drop [i] u) (drop [i] c) [] g' ∧ g'.2.(ends) = g.2.(ends).
Proof.
  intros Hg Hi. destruct (DisconnectAll_agrees g u c i Hg Hi) as (g1 & E1 & Hg1 & Hss & He1).
  destruct Hg1 as [[[Hok Hlen] Hends Hprocs] Hgid Hrun Hsrv Hconn Hsound Hfull]. pose proof (eo_len _ _ Hok) as Hn.
  unfold ShutdownServer. unfold DisconnectAll in E1. rewrite E1. cbn [mbind go_bind].
  destruct (server_at _ _ Hok i Hi) as (s & names & Hs & _). rewrite (proj2 (gidx_Ret _ _ _) Hs). cbn [mbind go_bind].
  rewrite (shutdown_stopped s (Hprocs i s Hs)). cbn [mbind go_bind].
  rewrite gset_idx_Ret by lia. eexists. split; [done|]. split; [|exact He1].
  assert (∀ a b, lnk (<[Z.to_nat i := stopped s]> g1.1.(srvs))
      (DeleteServer (ServerName g1.1.(grp_gid) i) g1.2) a b = lnk g1.1.(srvs) g1.2 a b) as Hlnk
    by (intros; unfold lnk; by rewrite nm_shutdown).
  constructor; cbn [fst snd mret go_ret].
  - split; [split; [by apply ends_ok_shutdown|done]| |apply procs_ok_insert; [exact Hprocs|apply proc_ok_stopped]].
    intros a b e. cbn. rewrite nm_shutdown by done. apply Hends.
  - exact Hgid.
  - intros j Hj. rewrite (running_insert g1.1 _ i s Hs (stopped s)) by done. rewrite dc_shutdown. case_decide as Hij.
    + subst. rewrite drop_in by left. split; [by intros (? & ? & _)|done].
    + rewrite drop_out by (by rewrite list_elem_of_singleton). by apply Hrun.
  - intros j Hj. rewrite (served_insert g1.2 _ i None) by (unfold DeleteServer; cbn; by rewrite Hgid). case_decide as Hij.
    + subst. rewrite drop_in by left. split; [by intros []|done].
    + rewrite drop_out by (by rewrite list_elem_of_singleton). by apply Hsrv.
  - exact Hconn.
  - intros a b Ha Hb. cbn. rewrite Hlnk. by apply Hsound.
  - intros a b Ha Hb. cbn. rewrite Hlnk. by apply Hfull.
Qed.

Lemma StartServer_agrees g u c i st rest :
  grp_agrees n gid u c rest g → 0 ≤ i < n → glen st.(st_names) = n → NoDup st.(st_names) →
  (∀ e, e ∈ st.(st_names) → ¬ end_exists g.2 e) → st.(st_ok) = true → i ∈ rest →
  ∃ g', StartServer i st.(st_names) st.(st_ok) st.(st_server) g = Ret g' ∧
    grp_agrees n gid (raise [i] u) c rest g' ∧ (∀ e, end_exists g'.2 e ↔ e ∈ st.(st_names) ∨ end_exists g.2 e).
Proof.
  intros [Hw Hgid Hrun Hsrv Hconn Hsound Hfull] Hi Hlen Hnd Hnew Hstart Hrest.
  destruct (StartServer_wired n g i st Hw Hi Hlen Hnd Hnew Hstart) as (sg & net & E & Hw' & Hx & Hc & Hgid' & _ & _ & _ & Hservers).
  exists (sg, net). split; [exact E|]. split; [|exact Hx]. pose proof Hw as [[Hok Hcl] Hends _]. pose proof (eo_len _ _ Hok) as Hn.
  unfold StartServer, startServer, makeServer in E.
  destruct (server_at _ _ Hok i Hi) as (s & names & Hs & _). rewrite (proj2 (gidx_Ret _ _ _) Hs) in E. cbn [mbind go_bind] in E.
  destruct (make_ends_fresh g.1.(grp_gid) st.(st_names) 0 g.2 Hnd) as (ces & net1 & Em & _ & Hen & Hen' & _).
  { intros e He. apply eq_None_not_Some. exact (Hnew e He). }
  rewrite Em in E. cbn [mbind go_bind fst snd] in E. rewrite Hstart in E. cbn [negb] in E. cbn [saved upd upd_saved] in E.
  rewrite gset_idx_Ret in E by lia. cbn [mbind go_bind] in E. injection E as Hsg Hnet.
  set (p0 := default MakePersister s.(saved)) in *.
  set (s2 := mkTServer (Some p0) (Some st.(st_names)) ces (Some (daemon_init p0))).
  assert (sg.(srvs) = <[Z.to_nat i := s2]> g.1.(srvs)) as Hss by by rewrite <-Hsg.
  assert (endNames s2 = Some st.(st_names)) as Hn2 by done.
  assert (∀ e, is_enabled net e = is_enabled net1 e) as Hnet1 by by rewrite <-Hnet.
  assert (∀ a b, 0 ≤ a < n → 0 ≤ b < n →
    lnk sg.(srvs) net a b = if decide (a = i) then false else lnk g.1.(srvs) g.2 a b) as Hlnk.
  { intros a b Ha Hb. unfold lnk. rewrite Hss, (nm_insert _ _ _ st.(st_names)) by (done || lia). repeat case_decide; subst; try done.
    - destruct (zlookup_is_Some st.(st_names) b) as [e He]; [lia|]. rewrite He, Hnet1. apply Hen. apply zlookup_elem_of. by exists b.
    - destruct (nm g.1.(srvs) a b) as [e|] eqn:He; [|done]. rewrite Hnet1. apply Hen'. intros Hin. apply (Hnew e Hin). by eapply Hends. }
  constructor; cbn [fst snd].
  - exact Hw'.
  - congruence.
  - intros j Hj. rewrite (running_insert g.1 sg i s Hs s2 Hss). case_decide as Hij.
    + subst. rewrite raise_in by left. split; [done|]. intros _. by eexists.
    + rewrite raise_out by (by rewrite list_elem_of_singleton). by apply Hrun.
  - intros j Hj. rewrite (served_insert g.2 net i (Some st.(st_server))) by (by rewrite Hservers, Hgid). case_decide as Hij.
    + subst. rewrite raise_in by left. split; [done|]. intros _. by eexists.
    + rewrite raise_out by (by rewrite list_elem_of_singleton). by apply Hsrv.
  - intros j Hj. rewrite Hc. by apply Hconn.
  - intros a b Ha Hb. rewrite Hlnk by done. case_decide; [done|]. by apply Hsound.
  - intros a b Ha Hb Hra Hrb Hca Hcb. rewrite Hlnk by done. rewrite decide_False by (by intros ->). by apply Hfull.
Qed.

(** *** Lists of servers *)

Lemma grp_agrees_ext g u u' c c' rest rest' :
  grp_agrees n gid u c rest g → (∀ i, u' i = u i) → (∀ i, c' i = c i) → (∀ i, i ∈ rest → i ∈ rest') →
  grp_agrees n gid u' c' rest' g.
Proof.
  intros [? ? Hr Hs Hc Hso Hf] Hu Hc' Hrest. constructor; try done.
  - intros i Hi. rewrite Hu. by apply Hr.
  - intros i Hi. rewrite Hu. by apply Hs.
  - intros i Hi. rewrite Hc'. by apply Hc.
  - intros a b Ha Hb. rewrite !Hc'. by apply Hso.
  - intros a b Ha Hb Hra Hrb. rewrite !Hc'. apply Hf; auto.
Qed.

Lemma drop_cons i l f j : drop (i :: l) f j = drop l (drop [i] f) j.
Proof. unfold drop. repeat case_bool_decide; set_solver. Qed.
Lemma raise_cons i l f j : raise (i :: l) f j = raise l (raise [i] f) j.
Proof. unfold raise. repeat case_bool_decide; set_solver. Qed.
Lemma drop_nil f j : drop [] f j = f j.
Proof. apply drop_out, not_elem_of_nil. Qed.
Lemma raise_nil f j : raise [] f j = f j.
Proof. apply raise_out, not_elem_of_nil. Qed.

Lemma Kill_agrees l : ∀ g u c,
  grp_agrees n gid u c [] g → (∀ i, i ∈ l → 0 ≤ i < n) →
  ∃ g', Kill l g = Ret g' ∧ grp_agrees n gid (drop l u) (drop l c) [] g' ∧ g'.2.(ends) = g.2.(ends).
Proof.
  unfold Kill. induction l as [|i l IH]; intros g u c Hg Hl; cbn [foldM].
  { exists g. split; [done|]. split; [|done]. eapply grp_agrees_ext; [done|intros; apply drop_nil..|done]. }
  destruct (ShutdownServer_agrees g u c i Hg (Hl i ltac:(left))) as (g1 & -> & Hg1 & He1). cbn [mbind go_bind].
  destruct (IH g1 _ _ Hg1) as (g' & -> & Hg' & He'); [intros; apply Hl; by right|].
  exists g'. split; [done|]. split; [|congruence]. eapply grp_agrees_ext; [done|intros; apply drop_cons..|done].
Qed.

(** The names that starting the servers of [l] draws. *)
Definition drawn (l : list (Z * Start)) : list string := concat ((λ x, x.2.(st_names)) <$> l).

Definition starts_ok (l : list (Z * Start)) : Prop :=
  ∀ i st, (i, st) ∈ l → 0 ≤ i < n ∧ glen st.(st_names) = n ∧ st.(st_ok) = true.

Lemma StartSrvs_agrees l rest : ∀ g u c,
  grp_agrees n gid u c rest g → starts_ok l → (∀ i, i ∈ l.*1 → i ∈ rest) →
  NoDup (drawn l) → (∀ e, e ∈ drawn l → ¬ end_exists g.2 e) →
  ∃ g', StartSrvs l g = Ret g' ∧ grp_agrees n gid (raise l.*1 u) c rest g' ∧
    ∀ e, end_exists g'.2 e ↔ e ∈ drawn l ∨ end_exists g.2 e.
Proof.
  unfold StartSrvs, drawn. induction l as [|[i st] l IH]; intros g u c Hg Hl Hrest Hnd Hnew; cbn [foldM].
  { exists g. split; [done|]. split; [eapply grp_agrees_ext; [done|intros; apply raise_nil|done..]|].
    intros e. cbn. rewrite elem_of_nil. tauto. }
  cbn [fmap list_fmap concat fst snd] in *. destruct (Hl i st ltac:(left)) as (Hi & Hlen & Hok).
  apply NoDup_app in Hnd as (Hnd1 & Hdisj & Hnd). setoid_rewrite elem_of_app in Hnew.
  destruct (StartServer_agrees g u c i st rest) as (g1 & -> & Hg1 & Hx1); [done..|auto|done|apply Hrest; left|].
  cbn [mbind go_bind]. destruct (IH g1 _ _ Hg1) as (g' & -> & Hg' & Hx').
  - intros j st' Hin. apply Hl. by right.
  - intros j Hin. apply Hrest. by right.
  - done.
  - intros e He [Hin|Hin]%Hx1; [by apply (Hdisj e)|]. apply (Hnew e); [by right|done].
  - exists g'. split; [done|]. split; [eapply grp_agrees_ext; [done|intros; apply raise_cons|done..]|].
    intros e. rewrite Hx', Hx1, elem_of_app. tauto.
Qed.
End group_steps.

(** ** The test's records and the annotations *)

Section records.
Context {Cmd : Type} (n : Z) (t0 : @Test Cmd).
Implicit Types (t : @Test Cmd) (u : Z → bool).

(** The records of [t0], but for [rfsrv]: the logs survive a crash. *)
Record test_agrees u t : Prop := {
  ta_len : glen t.(t_srvs) = n;
  ta_max : t.(maxIndex) = t0.(maxIndex);
  ta_srv : ∀ i, 0 ≤ i < n → ∃ rs, t0.(t_srvs).[i] = Some rs ∧ t.(t_srvs).[i] = Some (rs <| rs_up := u i |>);
}.

Lemma test_agrees_ext u u' t : test_agrees u t → (∀ i, u' i = u i) → test_agrees u' t.
Proof. intros [? ? Hs] Hu. constructor; try done. intros i Hi. rewrite Hu. by apply Hs. Qed.

Lemma set_up_agrees u t i b :
  test_agrees u t → 0 ≤ i < n →
  ∃ rs t', gidx t.(t_srvs) i = Ret rs ∧ set_srv i (rs <| rs_up := b |>) t = Ret t' ∧
    test_agrees (λ j, if decide (j = i) then b else u j) t'.
Proof.
  intros [Hlen Hmax Hsrv] Hi. destruct (Hsrv i Hi) as (rs & Hrs0 & Hrs). eexists _, _.
  split; [by apply gidx_Ret|]. split; [unfold set_srv; by rewrite gset_idx_Ret by lia|].
  constructor; cbn; [by rewrite glen_insert|done|]. intros j Hj. destruct (Hsrv j Hj) as (rs' & Hrs0' & Hrs').
  exists rs'. split; [done|]. rewrite zlookup_insert by lia. case_decide as Hij.
  - subst j. rewrite decide_True by done. rewrite Hrs0 in Hrs0'. by injection Hrs0' as <-.
  - by rewrite decide_False by done.
Qed.

Lemma kill_agrees l : ∀ u t,
  test_agrees u t → (∀ i, i ∈ l → 0 ≤ i < n) → ∃ t', kill l t = Ret t' ∧ test_agrees (drop l u) t'.
Proof.
  unfold kill. induction l as [|i l IH]; intros u t Ht Hl; cbn [foldM].
  { exists t. split; [done|]. eapply test_agrees_ext; [done|]. intros. apply drop_nil. }
  destruct (set_up_agrees u t i false Ht (Hl i ltac:(left))) as (rs & t1 & -> & E1 & Ht1). cbn [mbind go_bind].
  rewrite E1. cbn [mbind go_bind]. destruct (IH _ t1 Ht1) as (t' & -> & Ht'); [intros; apply Hl; by right|].
  exists t'. split; [done|]. eapply test_agrees_ext; [done|]. intros j. rewrite drop_cons. unfold drop at 1 3.
  f_equal. unfold drop. case_decide as Hj; case_bool_decide as Hb; rewrite list_elem_of_singleton in Hb; try done.
Qed.

Lemma mksrv_agrees u t i :
  test_agrees u t → 0 ≤ i < n → ∃ t', mksrv i t = Ret t' ∧ test_agrees (raise [i] u) t'.
Proof.
  intros Ht Hi. destruct (set_up_agrees u t i true Ht Hi) as (rs & t' & E & E' & Ht').
  exists t'. unfold mksrv. rewrite E. split; [exact E'|]. eapply test_agrees_ext; [done|]. intros j. unfold raise.
  case_decide as Hj; case_bool_decide as Hb; rewrite list_elem_of_singleton in Hb; done.
Qed.
End records.

Section shown_flags.
Context (n : Z).
Implicit Types (u s : Z → bool) (w : World).

Record world_agrees u s w : Prop := {
  wa_info : ∃ fi, w.(finfo) = Some fi ∧ fi_wf n fi ∧
    ∀ i, 0 ≤ i < n → fi.(Annotation.connected).[i] = Some (s i) ∧ fi.(crashed).[i] = Some (negb (u i));
}.

Lemma annotateFault_info now w fi :
  w.(finfo) = Some fi → fi_wf n fi → ∃ w', annotateFault now w = Ret w' ∧ w'.(finfo) = Some fi.
Proof.
  intros Hfi Hwf. rewrite (annotateFault_spec _ _ n fi Hfi Hwf). eexists. split; [done|]. by destruct (fault fi).
Qed.

Lemma set_crashed_list b l : ∀ (l0 : list bool) ch,
  (∀ i, i ∈ l → 0 ≤ i < glen l0) →
  ∃ ch' l1, foldM (set_crashed b) (ch, l0) l = Ret (ch', l1) ∧ glen l1 = glen l0 ∧
    ∀ i, l1.[i] = if decide (i ∈ l) then Some b else l0.[i].
Proof.
  induction l as [|i l IH]; intros l0 ch Hl; cbn [foldM].
  { exists ch, l0. split_and!; try done. }
  pose proof (Hl i ltac:(left)) as Hi. destruct (zlookup_is_Some l0 i Hi) as [old Hold].
  unfold set_crashed at 2. rewrite (proj2 (gidx_Ret _ _ _) Hold). cbn [mbind go_bind]. rewrite gset_idx_Ret by done. cbn [mbind go_bind].
  destruct (IH (<[Z.to_nat i := b]> l0) (if bool_decide (old = b) then ch else true)) as (ch' & l1 & -> & Hlen & Hl1).
  { intros j Hj. rewrite glen_insert. apply Hl. by right. }
  exists ch', l1. split; [done|]. split; [by rewrite Hlen, glen_insert|]. intros j. rewrite Hl1, zlookup_insert by done.
  destruct (decide (j ∈ l)) as [Hj|Hj].
  - by rewrite decide_True by by right.
  - destruct (decide (i = j)) as [->|Hne]; [by rewrite decide_True by left|].
    rewrite decide_False; [done|]. by intros [->|?]%elem_of_cons.
Qed.

Lemma mark_agrees b now l u s w :
  world_agrees u s w → (∀ i, i ∈ l → 0 ≤ i < n) →
  ∃ w', mark_servers b now l w = Ret w' ∧ world_agrees (if b then drop l u else raise l u) s w'.
Proof.
  intros [(fi & Hfi & Hwf & Hfl)] Hl. pose proof Hwf as (Hn & Hs & Hc & Hd). unfold mark_servers, the_finfo.
  rewrite Hfi. cbn [mbind go_bind].
  destruct (set_crashed_list b l fi.(crashed) false) as (ch & l1 & -> & Hlen & Hl1); [by rewrite Hd|]. cbn [mbind go_bind fst snd].
  set (fi' := fi <| crashed := l1 |>). set (w1 := w <| finfo := Some fi' |>).
  assert (fi_wf n fi') as Hwf' by (unfold fi_wf; cbn; by rewrite Hlen).
  assert (∃ w', (if ch then annotateFault now w1 else Ret w1) = Ret w' ∧ w'.(finfo) = Some fi') as (w' & -> & Hfi').
  { destruct ch; [by apply annotateFault_info|by eexists]. }
  exists w'. split; [done|]. constructor. exists fi'. split; [done|]. split; [done|]. intros i Hi.
  destruct (Hfl i Hi) as [H1 H2]. split; [exact H1|]. cbn. rewrite Hl1, H2. case_decide as Hin.
  - destruct b; [by rewrite drop_in|by rewrite raise_in].
  - destruct b; [by rewrite drop_out|by rewrite raise_out].
Qed.

Lemma gcopy_same {A} (dst src : list A) : glen dst = glen src → gcopy dst src = src.
Proof.
  intros Hl. unfold glen in Hl. unfold gcopy. replace (Nat.min _ _) with (length src) by lia.
  rewrite take_ge by done. rewrite drop_ge by lia. apply app_nil_r.
Qed.

Lemma connection_agrees now u s c w (conn : list bool) :
  world_agrees u s w → glen conn = n → (∀ i, 0 ≤ i < n → conn.[i] = Some (c i)) →
  ∃ w', AnnotateConnection now conn w = Ret w' ∧ world_agrees u c w'.
Proof.
  intros [(fi & Hfi & Hwf & Hfl)] Hlen Hconn. pose proof Hwf as (Hn & Hs & Hc & Hd).
  unfold AnnotateConnection, the_finfo. rewrite Hfi. cbn [mbind go_bind]. case_bool_decide as Heq.
  - exists w. split; [done|]. constructor. exists fi. split; [done|]. split; [done|]. intros i Hi.
    destruct (Hfl i Hi) as [_ H2]. split; [rewrite Heq; by apply Hconn|done].
  - rewrite gcopy_same by lia. set (fi' := fi <| Annotation.connected := conn |>). set (w1 := w <| finfo := Some fi' |>).
    destruct (annotateFault_info now w1 fi') as (w' & -> & Hfi'); [done|by unfold fi_wf; cbn|].
    exists w'. split; [done|]. constructor. exists fi'. split; [done|]. split; [by unfold fi_wf; cbn|]. intros i Hi.
    destruct (Hfl i Hi) as [_ H2]. split; [by apply Hconn|done].
Qed.
End shown_flags.

(** ** Runs *)

Section runs.
Context {Cmd : Type} `{EqDecision Cmd} `{Fmt (option Cmd)} (n gid : Z) (t0 : @Test Cmd).
Implicit Types (ts : RfTest Cmd) (fl : Flags).

(** The group, the test's records and the annotations are as the flags say. *)
Record agrees fl ts : Prop := {
  ag_grp : grp_agrees n gid fl.(up) fl.(conn) [] ts.(rf_grp);
  ag_test : test_agrees n t0 fl.(up) ts.(rf_test);
  ag_world : world_agrees n fl.(up) fl.(shown) ts.(rf_world);
}.

Definition starts_of (act : Action) : list (Z * Start) := match act with ARestart l => l | _ => [] end.

(** The servers exist, and processes can be run. *)
Definition action_ok (act : Action) : Prop :=
  match act with
  | AKill l => ∀ i, i ∈ l → 0 ≤ i < n
  | ARestart l => starts_ok n l
  | ADisconnect i | AConnect i => 0 ≤ i < n
  | AAnnotate => True
  end.

Lemma reconnect_agrees l : ∀ u v c g t,
  grp_agrees n gid u c l g → test_agrees n t0 v t → (∀ i, i ∈ l → 0 ≤ i < n) →
  ∃ g' t', foldM reconnect (g, t) l = Ret (g', t') ∧ grp_agrees n gid u (raise l c) [] g' ∧
    test_agrees n t0 (raise l v) t' ∧ g'.2.(ends) = g.2.(ends).
Proof.
  induction l as [|i l IH]; intros u v c g t Hg Ht Hl; cbn [foldM].
  { exists g, t. split; [done|]. split; [eapply grp_agrees_ext; [done|done|intros; apply raise_nil|done]|].
    split; [|done]. eapply test_agrees_ext; [done|]. intros. apply raise_nil. }
  pose proof (Hl i ltac:(left)) as Hi. unfold reconnect at 2. cbn [fst snd].
  destruct (mksrv_agrees n t0 v t i Ht Hi) as (t1 & -> & Ht1). cbn [mbind go_bind].
  destruct (ConnectOne_agrees n gid g u c i (i :: l) l Hg Hi) as (g1 & -> & Hg1 & _ & He1).
  { intros j [->|Hj]%elem_of_cons; auto. }
  cbn [mbind go_bind]. destruct (IH u _ _ g1 t1 Hg1 Ht1) as (g' & t' & -> & Hg' & Ht' & He').
  - intros j Hj. apply Hl. by right.
  - exists g', t'. split; [done|]. split; [eapply grp_agrees_ext; [done|done|intros; apply raise_cons|done]|].
    split; [|congruence]. eapply test_agrees_ext; [done|]. intros. apply raise_cons.
Qed.

Lemma do_action_agrees now act fl ts :
  agrees fl ts → action_ok act → NoDup (drawn (starts_of act)) →
  (∀ e, e ∈ drawn (starts_of act) → ¬ end_exists ts.(rf_grp).2 e) →
  ∃ ts', do_action now act ts = Ret ts' ∧ agrees (spec_action act fl) ts' ∧
    ∀ e, end_exists ts'.(rf_grp).2 e → e ∈ drawn (starts_of act) ∨ end_exists ts.(rf_grp).2 e.
Proof.
  intros [Hg Ht Hw] Hok Hnd Hnew. destruct ts as [g t w]. cbn [rf_grp rf_test rf_world] in *.
  assert (∀ g' : Grp, g'.2.(ends) = g.2.(ends) → ∀ e, end_exists g'.2 e → e ∈ drawn (starts_of act) ∨ end_exists g.2 e) as Hsame
    by (intros g' He e; unfold end_exists; rewrite He; by right).
  destruct act as [l|l|i|i|]; cbn [do_action spec_action rf_grp rf_test rf_world starts_of action_ok] in *.
  - destruct (Kill_agrees n gid l g _ _ Hg Hok) as (g' & Eg & Hg' & He).
    destruct (mark_agrees n true now l _ _ w Hw Hok) as (w' & Ew & Hw'). destruct (kill_agrees n t0 l _ t Ht Hok) as (t' & Et & Ht').
    unfold kill_servers, AnnotateShutdown. cbn [rf_grp rf_test rf_world]. rewrite Eg, Ew, Et. eexists. split; [done|].
    split; [by constructor|by apply Hsame].
  - assert (∀ i, i ∈ l.*1 → 0 ≤ i < n) as Hl by (intros i ([j st] & -> & Hin)%list_elem_of_fmap; by apply (Hok j st)).
    destruct (StartSrvs_agrees n gid l l.*1 g fl.(up) fl.(conn)) as (g1 & Eg & Hg1 & Hx); [|done..|].
    { eapply grp_agrees_ext; [done|done|done|]. by intros i ?%not_elem_of_nil. }
    destruct (mark_agrees n false now l.*1 _ _ w Hw Hl) as (w' & Ew & Hw').
    destruct (reconnect_agrees l.*1 (raise l.*1 fl.(up)) fl.(up) fl.(conn) g1 t) as (g' & t' & Er & Hg' & Ht' & He); [done..|].
    unfold restart_servers, AnnotateRestart. cbn [rf_grp rf_test rf_world]. rewrite Eg. cbn [mbind go_bind].
    rewrite Ew. cbn [mbind go_bind]. rewrite Er. cbn [mbind go_bind fst snd]. eexists. split; [done|].
    split; [by constructor|]. cbn. intros e. unfold end_exists. rewrite He. apply Hx.
  - destruct (DisconnectAll_agrees n gid g _ _ i Hg Hok) as (g' & -> & Hg' & _ & He). eexists. split; [done|].
    split; [by constructor|by apply Hsame].
  - destruct (ConnectOne_agrees n gid g _ _ i [] [] Hg Hok) as (g' & -> & Hg' & _ & He); [auto|]. eexists. split; [done|].
    split; [by constructor|by apply Hsame].
  - destruct (connection_agrees n now _ _ fl.(conn) w (GetConnected g.1) Hw) as (w' & -> & Hw').
    + apply Hg.
    + apply Hg.
    + eexists. split; [done|]. split; [by constructor|by apply Hsame].
Qed.

(** The names that a run draws. *)
Definition all_drawn (acts : list (Z * Action)) : list string := concat ((λ ta, drawn (starts_of ta.2)) <$> acts).

Lemma run_actions_agrees acts : ∀ fl ts,
  agrees fl ts → Forall (λ ta, action_ok ta.2) acts → NoDup (all_drawn acts) →
  (∀ e, e ∈ all_drawn acts → ¬ end_exists ts.(rf_grp).2 e) →
  ∃ ts', run_actions ts acts = Ret ts' ∧ agrees (foldl (λ fl ta, spec_action ta.2 fl) fl acts) ts'.
Proof.
  unfold run_actions, all_drawn. induction acts as [|[now act] acts IH]; intros fl ts Hts Hok Hnd Hnew; cbn [foldM foldl fmap list_fmap concat fst snd] in *.
  { by exists ts. }
  apply Forall_cons in Hok as [Hact Hok]. apply NoDup_app in Hnd as (Hnd1 & Hdisj & Hnd). setoid_rewrite elem_of_app in Hnew.
  destruct (do_action_agrees now act fl ts Hts Hact Hnd1) as (ts1 & -> & Hts1 & Hx); [auto|]. cbn [mbind go_bind].
  apply IH; [done..|]. intros e He [Hin|Hin]%Hx; [by apply (Hdisj e)|]. apply (Hnew e); [by right|done].
Qed.

(** The failures as they are: who runs and whom the test has connected. *)
Definition true_faults ts : FrameworkInfo :=
  mkFinfo n ts.(rf_grp).1.(TesterGroup.connected)
    ((λ s, negb (bool_decide (is_Some s.(dc)))) <$> ts.(rf_grp).1.(srvs)) (mkCheckerBegin 0 "").

(** The connection of a crashed server does not matter for what is shown. *)
Lemma fault_ext fi fi' :
  fi_wf n fi → fi_wf n fi' → fi.(crashed) = fi'.(crashed) →
  (∀ i, fi.(crashed).[i] = Some false → fi.(Annotation.connected).[i] = fi'.(Annotation.connected).[i]) →
  fault fi = fault fi'.
Proof.
  intros (Hn & _ & Hc & Hd) (_ & _ & Hc' & Hd') Hcr Hco.
  assert (∀ f, (∀ up, f up true = f true true) → ids fi f = ids fi' f) as Hids.
  { intros f Hf. unfold ids, select. rewrite Hc, Hc'. apply list_filter_iff. intros i. rewrite <-Hcr.
    destruct (fi.(crashed).[i]) as [d|] eqn:Hdi; [|by repeat case_match].
    pose proof (zlookup_lt_Some _ _ _ Hdi) as Hi. destruct d; [|by rewrite Hco].
    destruct (zlookup_is_Some fi.(Annotation.connected) i) as [x ->]; [lia|].
    destruct (zlookup_is_Some fi'.(Annotation.connected) i) as [x' ->]; [lia|]. by rewrite (Hf x), (Hf x'). }
  assert (describe fi = describe fi') as Hdes by (unfold describe, Annotation.isolated, together, crashes; by rewrite !Hids).
  unfold fault. rewrite Hdes, <-Hcr. destruct (forallb negb fi.(crashed)) eqn:Hall; [|by rewrite !andb_false_r].
  rewrite forallb_forall in Hall. assert (fi.(Annotation.connected) = fi'.(Annotation.connected)) as ->; [|done].
  apply list_eq_zlookup. intros i _. destruct (fi.(crashed).[i]) as [d|] eqn:Hdi.
  - apply Hco. rewrite Hdi. f_equal. apply negb_true_iff, Hall, list_elem_of_In, zlookup_elem_of. by exists i.
  - assert (¬ 0 ≤ i < n) as Hi by (intros Hi; destruct (zlookup_is_Some fi.(crashed) i) as [x Hx]; [lia|congruence]).
    destruct (fi.(Annotation.connected).[i]) eqn:E; [apply zlookup_lt_Some in E; lia|].
    destruct (fi'.(Annotation.connected).[i]) eqn:E'; [apply zlookup_lt_Some in E'; lia|done].
Qed.

Lemma agrees_fault fl ts :
  agrees fl ts → (∀ i, 0 ≤ i < n → fl.(up) i = true → fl.(shown) i = fl.(conn) i) →
  world_fault ts.(rf_world) = fault (true_faults ts).
Proof.
  intros [[[[Hok Hlen] _ Hprocs] _ Hrun _ Hconn _ _] _ [(fi & Hfi & Hwf & Hfl)]] Hsync.
  unfold world_fault. rewrite Hfi. cbn [mbind option_bind]. pose proof (eo_len _ _ Hok) as Hn. pose proof Hwf as (Hn0 & _ & Hc & Hd).
  assert (∀ i, 0 ≤ i < n → (true_faults ts).(crashed).[i] = Some (negb (fl.(up) i))) as Hcr.
  { intros i Hi. unfold true_faults. cbn [crashed]. rewrite zlookup_fmap.
    destruct (zlookup_is_Some ts.(rf_grp).1.(srvs) i) as [s Hs]; [lia|]. rewrite Hs. cbn. do 2 f_equal.
    apply eq_true_iff_eq. rewrite bool_decide_eq_true, <-Hrun by done. unfold running. split.
    - intros [d Hd']. exists s, d. split_and!; [done..|by apply (Hprocs i s)].
    - intros (s' & d & Hs' & Hd' & _). rewrite Hs in Hs'. injection Hs' as <-. by exists d. }
  apply fault_ext; [done| | |].
  - unfold fi_wf, true_faults. cbn. rewrite glen_fmap. done.
  - apply list_eq_zlookup. intros i _. destruct (decide (0 ≤ i < n)) as [Hi|Hi].
    + rewrite (Hcr i Hi). by apply Hfl.
    + destruct (fi.(crashed).[i]) eqn:E; [apply zlookup_lt_Some in E; lia|]. symmetry.
      unfold true_faults. cbn [crashed]. apply zlookup_None. rewrite glen_fmap. lia.
  - intros i Hi. pose proof (zlookup_lt_Some _ _ _ Hi) as Hb. rewrite Hd in Hb. destruct (Hfl i Hb) as [H1 H2].
    rewrite H2 in Hi. injection Hi as Hi%negb_false_iff. rewrite H1, (Hsync i Hb Hi). symmetry. by apply Hconn.
Qed.
End runs.

(** ** From the start of a test *)

Lemma StartServers_agrees n g starts :
  wired n g → startable n g.2 starts →
  ∃ g', StartServers starts g = Ret g' ∧ grp_agrees n g.1.(grp_gid) (λ _, true) (λ _, true) [] g'.
Proof.
  intros Hg Hst. destruct (StartServers_spec n g starts Hg Hst) as (g' & E & Hgid & [Hok Hrun Hsrv Hconn Hlnk] & Hw).
  exists g'. split; [exact E|]. constructor; try done.
  - intros i Hi. split; [done|]. intros _. by apply Hrun.
  - intros i Hi. split; [done|]. intros _. rewrite <-Hgid. by apply Hsrv.
  - intros a b Ha Hb _ _ _ _. by apply Hlnk.
Qed.

(** C35. Crashes and disconnections as a Raft test causes them. From the start of
    a test, whatever it kills, restarts, cuts off and connects, in any order, no
    step panics. A server's process runs, is served by the network and is not
    nil in the test's records exactly if the server was started again after the
    last kill; two servers can talk exactly if both are connected; the copies of
    the committed logs survive; and the annotations show as crashed exactly the
    servers that do not run. If the annotated connections of the running servers
    are up to date, the text that is shown is the one for the true failures. *)
Theorem test_shows_faults {Cmd : Type} `{EqDecision Cmd} `{Fmt (option Cmd)} n g g0 starts desc now w
    (acts : list (Z * Action)) :
  wired n g → startable n g.2 starts → StartServers starts g = Ret g0 →
  Forall (λ ta, action_ok n ta.2) acts → NoDup (all_drawn acts) → (∀ e, e ∈ all_drawn acts → ¬ end_exists g0.2 e) →
  ∃ ts, run_actions (mkRfTest g0 (@makeTest Cmd n) (AnnotateTest now desc n w)) acts = Ret ts ∧
    agrees n g.1.(grp_gid) (makeTest n) (spec_run acts) ts ∧
    ((∀ i, 0 ≤ i < n → (spec_run acts).(up) i = true → (spec_run acts).(shown) i = (spec_run acts).(conn) i) →
     world_fault ts.(rf_world) = fault (true_faults n ts)).
Proof.
  intros Hg Hst E Hok Hnd Hnew. destruct (StartServers_agrees n g starts Hg Hst) as (g' & E' & Hg').
  rewrite E in E'. injection E' as <-. assert (0 ≤ n) as Hn by (rewrite <-(sb_len _ _ _ Hst); apply glen_nonneg).
  destruct (run_actions_agrees (Cmd := Cmd) n g.1.(grp_gid) (makeTest n) acts all_fine (mkRfTest g0 (makeTest n) (AnnotateTest now desc n w)))
    as (ts & Ets & Hts); [|done..|].
  - constructor; cbn [rf_grp rf_test rf_world up conn shown all_fine].
    + exact Hg'.
    + constructor; cbn; [rewrite glen_replicate; lia|done|]. intros i Hi. exists newRaftServer.
      assert ((replicate (Z.to_nat n) (@newRaftServer Cmd)).[i] = Some newRaftServer) as Hr; [|by rewrite Hr].
      unfold zlookup. case_if; [lia|]. apply lookup_replicate. split; [done|lia].
    + constructor. exists (mkFrameworkInfo n). split; [done|]. split; [unfold fi_wf; cbn; rewrite !glen_replicate; lia|].
      intros i Hi. unfold zlookup. cbn. case_if; [lia|]. split; apply lookup_replicate; (split; [done|lia]).
  - exists ts. split; [done|]. split; [done|]. intros Hs. by apply (agrees_fault n g.1.(grp_gid) (makeTest n) (spec_run acts)).
Qed.
