(* ===== verification/TesterFaultsWitness.v ===== *)
(** * Crashes and disconnections at a concrete run

    Three servers of a Raft test, and one iteration of [TestPersist33C]. *)

From S2P Require Import Prelude Names Gob Raft Annotation Persister LabRpc TesterGroup TesterConfig RaftTest TesterFaults.

#[local] Instance unit_fmt : Fmt (option unit) := λ _, "<nil>".

Definition three_names (p : string) : list (list string) :=
  (λ i, (λ j, p +:+ i +:+ j) <$> ["0"; "1"; "2"]) <$> ["0"; "1"; "2"].
Definition three_servers : Grp := result (makeSrvGrp 0 (three_names "a") MakeNetwork) (mkServerGrp [] [] 0 [], MakeNetwork).
Definition three_starts : list Start := (λ ns, mkStart ns true 7) <$> three_names "b".
Definition three_up : Grp := result (StartServers three_starts three_servers) three_servers.

Lemma three_wired : wired 3 three_servers.
Proof.
  destruct (makeSrvGrp_wired 0 (three_names "a") MakeNetwork) as (g & E & Hw & _).
  - apply Forall_forall. by repeat constructor.
  - by apply (bool_decide_unpack _).
  - intros e _ [x Hx]. discriminate Hx.
  - unfold three_servers. rewrite E. exact Hw.
Qed.

Lemma three_startable : startable 3 three_servers.2 three_starts.
Proof.
  constructor.
  - reflexivity.
  - apply Forall_forall. by repeat constructor.
  - by apply (bool_decide_unpack _).
  - apply Forall_forall. unfold end_exists. repeat constructor; vm_compute; intros [x Hx]; discriminate Hx.
Qed.

(** A follower is cut off; leader and the other follower crash; the follower is
    connected and the leader restarted; then the second server is. *)
Definition persist3 : list (Z * Action) :=
  [(1, ADisconnect 2); (2, AAnnotate); (3, AKill [0; 1]); (4, AConnect 2);
   (5, ARestart [(0, mkStart ["c0"; "c1"; "c2"] true 8)]); (6, AAnnotate);
   (7, ARestart [(1, mkStart ["d0"; "d1"; "d2"] true 9)])].

Definition persist3_start : RfTest unit :=
  mkRfTest three_up (makeTest 3) (AnnotateTest 0 "TestPersist33C" 3 (mkWorld mkAnnotation0 None)).
Definition persist3_end : RfTest unit := result (run_actions persist3_start persist3) persist3_start.

(** Every server runs and can talk to every other, but the annotations show
    server 1 cut off: [restart] connects a server without annotating it. *)
Lemma test_shows_faults_witness :
  running persist3_end.(rf_grp).1 1 ∧ lnk persist3_end.(rf_grp).1.(srvs) persist3_end.(rf_grp).2 1 2 = true ∧
  world_fault persist3_end.(rf_world) = Some "partition = [1] [0 2]" ∧ fault (true_faults 3 persist3_end) = None.
Proof.
  destruct (test_shows_faults (Cmd := unit) 3 three_servers three_up three_starts "TestPersist33C" 0 (mkWorld mkAnnotation0 None) persist3)
    as (ts & E & Hts & _).
  - exact three_wired.
  - exact three_startable.
  - apply result_Ret. vm_compute. reflexivity.
  - unfold persist3. repeat (apply Forall_cons; split); try apply Forall_nil; cbn [action_ok snd]; try done.
    + intros i [->|[->|?%not_elem_of_nil]%elem_of_cons]%elem_of_cons; done.
    + intros i st Hi%list_elem_of_singleton. by injection Hi as -> ->.
    + intros i st Hi%list_elem_of_singleton. by injection Hi as -> ->.
  - by apply (bool_decide_unpack _).
  - apply Forall_forall. unfold end_exists. repeat constructor; vm_compute; intros [x Hx]; discriminate Hx.
  - assert (persist3_end = ts) as Heq by (unfold persist3_end, persist3_start; by rewrite E).
    clear E. destruct Hts as [[_ _ Hrun _ _ _ Hfull] _ _]. rewrite Heq. split; [|split; [|split]].
    + apply Hrun; [lia|vm_compute; reflexivity].
    + apply Hfull; [lia|lia|apply not_elem_of_nil..|vm_compute; reflexivity|vm_compute; reflexivity].
    + rewrite <-Heq. vm_compute. reflexivity.
    + rewrite <-Heq. vm_compute. reflexivity.
Defined.
