(* ===== verification/KvRaft.v ===== *)
(** * The tests of the replicated service against the servers: [kvraft1/test.go]

    [killall] and [restartall], the goroutine [Partitioner] of
    [kvtest1/kvtest.go], and the part of an iteration of [GenericTest] that
    partitions, crashes and restarts the group of servers ([TesterGroup.v]) and
    annotates it ([Annotation.v]); and the clerk of [kvraft1/client.go], a
    skeleton. *)

From S2P Require Import Prelude KvServer KvTest Names Gob Raft Annotation Persister LabRpc TesterGroup TesterConfig RaftTest TesterFaults.

(** ** The skeleton of the clerk *)

(** [Get] and [Put] of [kvraft1/client.go], and of the clerks in [shardkv1/]. *)
Definition Clerk_Get (key : string) : string * Z * Err := ("", 0, "").
Definition Clerk_Put (key value : string) (version : Z) : Err := "".

#[export] Instance skeleton_clerk : IKVClerk unit := {|
  ck_Get key ck := (Clerk_Get key, ck);
  ck_Put key value version ck := (Clerk_Put key value version, ck);
  ck_now _ := 0;
|}.

(** With it every client of [GenericTest] fails the test at its first put. *)
Lemma skeleton_clerk_fails `{Json EntryV} fuel me key ver (w : KvTest.World unit) :
  (∀ v : EntryV, is_Some (Marshal v)) → OnePut (S fuel) me key ver w = Fatal.
Proof.
  intros HM. cbn [OnePut]. unfold OnePut_iter, PutJson. destruct (HM (mkEntryV me ver)) as [b ->]. reflexivity.
Qed.

(** [makeTitle] *)
Definition makeTitle (crash partitions : bool) (maxraftstate : Z) (randomkeys : bool) (nclients : Z) (part : string) : string :=
  let title := "Test: " in
  let title := if crash then title +:+ "restarts, " else title in
  let title := if partitions then title +:+ "partitions, " else title in
  let title := if negb (maxraftstate =? -1) then title +:+ "snapshots, " else title in
  let title := if randomkeys then title +:+ "random keys, " else title in
  let title := if 1 <? nclients then title +:+ "many clients" else title +:+ "one client" in
  title +:+ " (" +:+ part +:+ ")".

(** ** Partitions, crashes and restarts *)

Record KrTest := mkKrTest { kr_grp : Grp; kr_world : Annotation.World }.

(** One round of [Partitioner], with the coin tosses [a]. *)
Definition partition_once (now : Z) (a : list Z) (ts : KrTest) : go KrTest :=
  let pa := split_by a in
  pa0 ← gidx pa 0;
  pa1 ← gidx pa 1;
  g ← Partition pa0 pa1 ts.(kr_grp);
  Ret (mkKrTest g (AnnotateTwoPartitions now pa0 pa1 ts.(kr_world))).
Definition Partitioner (tosses : list (Z * list Z)) (ts : KrTest) : go KrTest :=
  foldM (λ ts ta, partition_once ta.1 ta.2 ts) ts tosses.

Definition killall (now : Z) (ts : KrTest) : go KrTest :=
  g ← Shutdown ts.(kr_grp); w ← AnnotateShutdownAll now ts.(kr_world); Ret (mkKrTest g w).
Definition restartall (now : Z) (starts : list Start) (ts : KrTest) : go KrTest :=
  g ← StartServers starts ts.(kr_grp); w ← AnnotateRestartAll now ts.(kr_world); Ret (mkKrTest g w).

(** One iteration of [GenericTest]: the tosses of the [Partitioner] until it is
    stopped, what restarting draws, and the clock. *)
Record Round := mkRound {
  ro_tosses : list (Z * list Z); ro_starts : list Start; ro_healed : Z; ro_killed : Z; ro_restarted : Z; ro_cleared : Z;
}.

Definition generic_round (partitions crash : bool) (ts : KrTest) (r : Round) : go KrTest :=
  ts ← (if partitions then
          ts ← Partitioner r.(ro_tosses) ts;
          g ← ConnectAll ts.(kr_grp);
          w ← AnnotateClearFailure r.(ro_healed) ts.(kr_world);
          Ret (mkKrTest g w)
        else Ret ts);
  if crash then
    ts ← killall r.(ro_killed) ts;
    ts ← restartall r.(ro_restarted) r.(ro_starts) ts;
    w ← AnnotateClearFailure r.(ro_cleared) ts.(kr_world);
    Ret (mkKrTest ts.(kr_grp) w)
  else Ret ts.

Definition generic_rounds (partitions crash : bool) (rounds : list Round) (ts : KrTest) : go KrTest :=
  foldM (generic_round partitions crash) ts rounds.

(** The check at the end of an iteration: the state of Raft has been trimmed, or
    without a limit there are no snapshots. *)
Definition check_sizes (maxraftstate : Z) (sg : ServerGrp) : go unit :=
  _ ← (if 0 <? maxraftstate then sz ← RaftSize sg; if 8 * maxraftstate <? sz then Fatal else Ret () else Ret ());
  if maxraftstate <? 0 then ssz ← GrpSnapshotSize sg; if 0 <? ssz then Fatal else Ret () else Ret ().

Lemma max_size_le (size_of : TServer → go Z) b ss : (∀ s, s ∈ ss → ∃ k, size_of s = Ret k) → ∀ m, ∃ m',
  foldM (λ m s, n ← size_of s; Ret (if m <? n then n else m)) m ss = Ret m' ∧
  (m' ≤ b ↔ m ≤ b ∧ ∀ s k, s ∈ ss → size_of s = Ret k → k ≤ b).
Proof.
  induction ss as [|s ss IH]; intros Hs m; cbn [foldM].
  - exists m. split; [done|]. split; [|by intros [? _]]. intros ?. split; [done|]. by intros ? ? ?%not_elem_of_nil.
  - destruct (Hs s) as [k Hk]; [by left|]. rewrite Hk. cbn [mbind go_bind].
    destruct (IH (λ s' Hin, Hs s' (proj2 (elem_of_cons _ _ _) (or_intror Hin))) (if m <? k then k else m)) as (m' & E & Hm).
    exists m'. split; [exact E|]. rewrite Hm. split; intros [Hb Hall]; (split; [|intros s' k' Hin Hk']).
    + destruct (Z.ltb_spec m k); lia.
    + apply elem_of_cons in Hin as [->|Hin]; [|by apply (Hall s')]. rewrite Hk in Hk'. injection Hk' as <-.
      destruct (Z.ltb_spec m k); lia.
    + pose proof (Hall s k ltac:(by left) Hk). by destruct (m <? k).
    + apply (Hall s'); [by right|done].
Qed.

Lemma max_part (part : Z * Z → Z) b sg : 0 ≤ b → (∀ s, s ∈ sg.(srvs) → ∃ r, state_sizes s = Ret r) → ∃ m,
  max_size (λ s, r ← state_sizes s; Ret (part r)) sg = Ret m ∧
  (m ≤ b ↔ ∀ s r, s ∈ sg.(srvs) → state_sizes s = Ret r → part r ≤ b).
Proof.
  intros Hb Hs. destruct (max_size_le (λ s, r ← state_sizes s; Ret (part r)) b sg.(srvs)) with (m := 0) as (m & E & Hm).
  { intros s [r E]%Hs. exists (part r). by rewrite E. }
  exists m. split; [exact E|]. rewrite Hm. split.
  - intros [_ Hall] s r Hin Er. apply (Hall s); [done|]. by rewrite Er.
  - intros Hall. split; [done|]. intros s k Hin Hk. destruct (Hs s Hin) as [r Er]. rewrite Er in Hk. injection Hk as <-. by apply (Hall s).
Qed.

(** It fails the test exactly if some server is over the limit. *)
Lemma check_sizes_spec maxraftstate sg :
  (∀ s, s ∈ sg.(srvs) → ∃ r, state_sizes s = Ret r) →
  check_sizes maxraftstate sg = Ret () ↔
  ∀ s r, s ∈ sg.(srvs) → state_sizes s = Ret r →
    (0 < maxraftstate → r.1 ≤ 8 * maxraftstate) ∧ (maxraftstate < 0 → r.2 ≤ 0).
Proof.
  intros Hs. destruct (max_part snd 0 sg ltac:(done) Hs) as (ssz & E2 & H2). unfold check_sizes.
  destruct (Z.ltb_spec 0 maxraftstate).
  - destruct (max_part fst (8 * maxraftstate) sg ltac:(lia) Hs) as (sz & E1 & H1).
    unfold RaftSize, srv_raftSize. rewrite E1. cbn [mbind go_bind].
    replace (maxraftstate <? 0) with false by lia. transitivity (sz ≤ 8 * maxraftstate).
    + destruct (Z.ltb_spec (8 * maxraftstate) sz); cbn [mbind go_bind]; split; (done || lia).
    + rewrite H1. split; intros Hall s r Hin E; [split; [by intros _; apply (Hall s)|lia]|by apply (Hall s)].
  - cbn [mbind go_bind]. destruct (Z.ltb_spec maxraftstate 0).
    + unfold GrpSnapshotSize, srv_snapshotSize. rewrite E2. cbn [mbind go_bind]. transitivity (ssz ≤ 0).
      * destruct (Z.ltb_spec 0 ssz); split; (done || lia).
      * rewrite H2. split; intros Hall s r Hin E; [split; [lia|by intros _; apply (Hall s)]|by apply (Hall s)].
    + split; [intros _ s r _ _; lia|done].
Qed.

(** ** Servers that run, however they are connected *)

Lemma isolate_ends other own g i g' : isolate other own g i = Ret g' → g'.2.(ends) = g.2.(ends).
Proof.
  unfold isolate. intros H. apply bind_Ret_inv in H as (g1 & H1 & H2).
  by rewrite (connect_ends _ _ _ _ H2), (disconnect_ends _ _ _ _ H1).
Qed.

Lemma Partition_ends p1 p2 g g' : Partition p1 p2 g = Ret g' → g'.2.(ends) = g.2.(ends).
Proof.
  unfold Partition. intros H. apply bind_Ret_inv in H as (g1 & H1 & H2). transitivity (g1.2.(ends)).
  - apply (foldM_Ret_inv _ (λ h : Grp, h.2.(ends) = g1.2.(ends))) in H2; [exact H2| |done].
    intros h x h' Hh Hc. by rewrite (isolate_ends _ _ _ _ _ Hc).
  - apply (foldM_Ret_inv _ (λ h : Grp, h.2.(ends) = g.2.(ends))) in H1; [exact H1| |done].
    intros h x h' Hh Hc. by rewrite (isolate_ends _ _ _ _ _ Hc).
Qed.

Section heal.
Context (n gid : Z).
Implicit Types (g : Grp) (w : Annotation.World).

Record alive g : Prop := {
  al_wired : wired n g;
  al_gid : g.1.(grp_gid) = gid;
  al_run : ∀ i, 0 ≤ i < n → running g.1 i;
  al_served : ∀ i, 0 ≤ i < n → served gid g.2 i;
}.

Lemma alive_conn g conn' net' :
  alive g → glen conn' = n → net'.(servers) = g.2.(servers) → net'.(ends) = g.2.(ends) →
  alive (g.1 <| TesterGroup.connected := conn' |>, net').
Proof.
  intros [[[Hok _] Hends Hprocs] Hgid Hrun Hsrv] Hc Hs He. constructor; cbn [fst snd].
  - split; [by split| |exact Hprocs]. intros a b e Hnm. unfold end_exists. cbn [snd]. rewrite He. by apply (Hends a b).
  - done.
  - done.
  - intros i Hi. unfold served, server_of. rewrite Hs. by apply Hsrv.
Qed.

Lemma isolate_alive other own g i :
  alive g → 0 ≤ i < n → (∀ t, t ∈ other ++ own → 0 ≤ t < n) → returns (isolate other own g i) alive.
Proof.
  intros Hg Hi Hr. setoid_rewrite elem_of_app in Hr. unfold isolate.
  destruct (disconnect_spec n g i other (wi_ok _ _ (al_wired _ Hg)) Hi) as (net1 & E1 & _); [auto|].
  pose proof (disconnect_servers _ _ _ _ E1) as Hs1. pose proof (disconnect_ends _ _ _ _ E1) as He1.
  pose proof (proj2 (wi_ok _ _ (al_wired _ Hg))) as Hlen.
  rewrite E1. cbn [mbind go_bind]. set (g1 := (_, net1)) in *.
  assert (alive g1) as Hg1 by (apply alive_conn; try done; by rewrite glen_insert).
  destruct (connect_spec n g1 i own (wi_ok _ _ (al_wired _ Hg1)) Hi) as (net2 & E2 & _); [auto|].
  pose proof (connect_servers _ _ _ _ E2) as Hs2. pose proof (connect_ends _ _ _ _ E2) as He2.
  pose proof (proj2 (wi_ok _ _ (al_wired _ Hg1))) as Hlen1.
  rewrite E2. apply returns_Ret, alive_conn; try done. by rewrite glen_insert.
Qed.

Lemma Partition_alive p1 p2 g :
  alive g → (∀ t, t ∈ p1 ++ p2 → 0 ≤ t < n) → returns (Partition p1 p2 g) alive.
Proof.
  intros Hg Hr. setoid_rewrite elem_of_app in Hr. unfold Partition. eapply returns_bind.
  - apply foldM_returns; [exact Hg|]. intros g1 i Hg1 Hi. apply isolate_alive; [done|auto|].
    intros t. rewrite elem_of_app. intros [?|?]; apply Hr; auto.
  - intros g1 Hg1. apply foldM_returns; [done|]. intros g2 i Hg2 Hi. apply isolate_alive; [done|auto|].
    intros t. rewrite elem_of_app. auto.
Qed.

(** [ConnectAll] heals every partition. *)
Lemma ConnectAll_heals g :
  alive g → ∃ g', ConnectAll g = Ret g' ∧ grp_agrees n gid (λ _, true) (λ _, true) [] g' ∧ g'.2.(ends) = g.2.(ends).
Proof.
  intros [Hw Hgid Hrun Hsrv]. destruct (ConnectAll_spec n g (wi_ok _ _ Hw)) as (g' & E & [Hok Hss Hg Hnet Hc Hl]).
  pose proof (ConnectAll_ends _ _ E) as He. exists g'. split; [done|]. split; [|done]. constructor; try done.
  - split; [done| |rewrite Hss; apply Hw]. intros a b e. rewrite Hss. unfold end_exists. rewrite He. apply Hw.
  - congruence.
  - intros i Hi. split; [done|]. intros _. unfold running. rewrite Hss. by apply Hrun.
  - intros i Hi. split; [done|]. intros _. unfold served, server_of. rewrite Hnet. by apply Hsrv.
  - intros a b Ha Hb _ _ _ _. by apply Hl.
Qed.

Lemma grp_agrees_alive c rest g : grp_agrees n gid (λ _, true) c rest g → alive g.
Proof. intros [? ? Hr Hs _ _ _]. constructor; [done|done|..]; intros i Hi; [by apply Hr|by apply Hs]. Qed.

(** ** Annotations *)

Definition no_fault w : Prop := world_agrees n (λ _, true) (λ _, true) w ∧ ongoing w = None.

Definition has_info w : Prop := ∃ fi, w.(finfo) = Some fi ∧ fi_wf n fi.

Lemma AnnotateClearFailure_heals now w :
  has_info w → ∃ w', AnnotateClearFailure now w = Ret w' ∧ no_fault w'.
Proof.
  intros (fi & Hfi & Hn & Hs & Hc & Hd). unfold AnnotateClearFailure, the_finfo. rewrite Hfi. cbn [mbind go_bind].
  eexists. split; [done|]. split; [|apply lookup_delete_eq]. constructor. eexists. split; [done|].
  unfold fi_wf. cbn. rewrite !glen_replicate. split; [by rewrite Hs; unfold glen in *|]. intros i Hi.
  unfold zlookup, glen in *. case_if; [lia|]. split; apply lookup_replicate; (split; [done|lia]).
Qed.

Lemma world_agrees_info u s w : world_agrees n u s w → has_info w.
Proof. intros [(fi & ? & ? & _)]. by exists fi. Qed.

Lemma AnnotateTwoPartitions_info now p1 p2 w : has_info w → has_info (AnnotateTwoPartitions now p1 p2 w).
Proof. done. Qed.

(** All servers crash, or all restart. *)
Lemma mark_all (b : bool) now u s w (f : Z → list Z → Annotation.World → go Annotation.World) :
  f = mark_servers b → world_agrees n u s w →
  ∃ w' u', (fi ← the_finfo w; f now (range fi.(nservers)) w) = Ret w' ∧ world_agrees n u' s w'.
Proof.
  intros -> Hw. pose proof Hw as [(fi & Hfi & (Hn & Hs & _) & _)]. unfold the_finfo. rewrite Hfi. cbn [mbind go_bind].
  destruct (mark_agrees n b now (range fi.(nservers)) u s w Hw) as (w' & E & Hw'); [intros i Hi%elem_of_range; lia|]. eauto.
Qed.

(** ** Rounds *)

Lemma drawn_zip (starts : list Start) : glen starts = n → drawn (zip (range n) starts) = concat (st_names <$> starts).
Proof.
  intros Hlen. unfold drawn. f_equal. transitivity (st_names <$> (zip (range n) starts).*2); [by rewrite <-list_fmap_compose|].
  f_equal. apply snd_zip. unfold range. rewrite length_seqZ. unfold glen in *. lia.
Qed.

Lemma StartServers_heals g u c starts :
  grp_agrees n gid u c [] g → startable n g.2 starts →
  ∃ g', StartServers starts g = Ret g' ∧ grp_agrees n gid (λ _, true) (λ _, true) [] g' ∧
    ∀ e, end_exists g'.2 e → e ∈ concat (st_names <$> starts) ∨ end_exists g.2 e.
Proof.
  intros Hg [Hlen Hst Hnd Hnew]. unfold StartServers, all. rewrite (eo_len _ _ (proj1 (wi_ok _ _ (ga_wired _ _ _ _ _ _ Hg)))).
  destruct (StartSrvs_agrees n gid (zip (range n) starts) (range n) g u c) as (g1 & -> & Hg1 & Hx).
  - eapply grp_agrees_ext; [done|done|done|]. by intros i ?%not_elem_of_nil.
  - intros i st Hin. apply elem_of_zip_l in Hin as Hi. apply elem_of_zip_r in Hin as [? ?]%Hst. apply elem_of_range in Hi. done.
  - by rewrite (zip_all_fst n).
  - by rewrite drawn_zip.
  - by rewrite drawn_zip.
  - cbn [mbind go_bind]. rewrite drawn_zip in Hx by done.
    destruct (ConnectAll_heals g1) as (g' & E & Hg' & He).
    { destruct Hg1 as [? ? Hr Hs _ _ _]. rewrite (zip_all_fst n) in Hr, Hs by done.
      constructor; try done; intros i Hi; [apply Hr|apply Hs]; try done; apply raise_in, elem_of_range; done. }
    exists g'. split; [done|]. split; [done|]. intros e. unfold end_exists. rewrite He. apply Hx.
Qed.

(** The tosses are one for each server; a restart draws names for all. *)
Definition round_ok (r : Round) : Prop :=
  Forall (λ ta, glen ta.2 = n) r.(ro_tosses) ∧ glen r.(ro_starts) = n ∧
  Forall (λ st, glen st.(st_names) = n ∧ st.(st_ok) = true) r.(ro_starts).
Definition round_names (r : Round) : list string := concat (st_names <$> r.(ro_starts)).

(** All servers run and are connected, and no failure is shown. *)
Record healed (ts : KrTest) : Prop := {
  he_grp : grp_agrees n gid (λ _, true) (λ _, true) [] ts.(kr_grp);
  he_world : no_fault ts.(kr_world);
}.

Lemma partition_once_alive now a ts :
  glen a = n → alive ts.(kr_grp) → has_info ts.(kr_world) →
  returns (partition_once now a ts) (λ ts', alive ts'.(kr_grp) ∧ has_info ts'.(kr_world) ∧
    ts'.(kr_grp).2.(ends) = ts.(kr_grp).2.(ends)).
Proof.
  intros Ha Hg Hw. unfold partition_once.
  set (p0 := filter (λ j, a.[j] = Some 0) (range (glen a))). set (p1 := filter (λ j, a.[j] = Some 1) (range (glen a))).
  change (split_by a) with [p0; p1]. change (gidx [p0; p1] 0) with (Ret p0). change (gidx [p0; p1] 1) with (Ret p1).
  cbn [mbind go_bind].
  assert (∀ t, t ∈ p0 ++ p1 → 0 ≤ t < n) as Hr.
  { intros t [Ht|Ht]%elem_of_app; apply list_elem_of_filter in Ht as [_ Ht%elem_of_range]; lia. }
  destruct (Partition_alive p0 p1 ts.(kr_grp) Hg Hr) as (g' & E & Hg').
  pose proof (Partition_ends _ _ _ _ E) as He. rewrite E. by apply returns_Ret.
Qed.

Lemma Partitioner_alive tosses ts :
  Forall (λ ta, glen ta.2 = n) tosses → alive ts.(kr_grp) → has_info ts.(kr_world) →
  returns (Partitioner tosses ts) (λ ts', alive ts'.(kr_grp) ∧ has_info ts'.(kr_world) ∧
    ts'.(kr_grp).2.(ends) = ts.(kr_grp).2.(ends)).
Proof.
  intros Ht Hg Hw. rewrite Forall_forall in Ht. unfold Partitioner.
  apply (foldM_returns _ (λ ts', alive ts'.(kr_grp) ∧ has_info ts'.(kr_world) ∧ ts'.(kr_grp).2.(ends) = ts.(kr_grp).2.(ends))); [done|].
  intros ts1 [now a] (Hg1 & Hw1 & He1) Hin. eapply returns_mono; [by apply partition_once_alive; [apply (Ht _ Hin)|..]|].
  intros ts2 (? & ? & He2). split; [done|]. split; [done|]. congruence.
Qed.

Lemma generic_round_healed partitions crash ts r :
  healed ts → round_ok r → NoDup (round_names r) → (∀ e, e ∈ round_names r → ¬ end_exists ts.(kr_grp).2 e) →
  returns (generic_round partitions crash ts r) (λ ts', healed ts' ∧
    ∀ e, end_exists ts'.(kr_grp).2 e → e ∈ round_names r ∨ end_exists ts.(kr_grp).2 e).
Proof.
  intros [Hg [Hw Ho]] (Htoss & Hlen & Hst) Hnd Hnew. unfold generic_round.
  apply (returns_bind _ _ (λ ts', healed ts' ∧ ts'.(kr_grp).2.(ends) = ts.(kr_grp).2.(ends))).
  - destruct partitions; [|by apply returns_Ret].
    eapply returns_bind; [apply Partitioner_alive; [done|by eapply grp_agrees_alive|by eapply world_agrees_info]|].
    intros ts1 (Hg1 & Hw1 & He1). cbn beta. destruct (ConnectAll_heals _ Hg1) as (g2 & -> & Hg2 & He2). cbn [mbind go_bind].
    destruct (AnnotateClearFailure_heals r.(ro_healed) _ Hw1) as (w2 & -> & Hw2). apply returns_Ret. cbn. split; [done|congruence].
  - intros ts1 [[Hg1 [Hw1 Ho1]] He1]. destruct crash.
    2: { apply returns_Ret. split; [done|]. intros e. unfold end_exists. rewrite He1. by right. }
    unfold killall. destruct (Kill_agrees n gid (all ts1.(kr_grp).1) _ _ _ Hg1) as (g2 & E2 & Hg2 & He2).
    { intros i Hi%elem_of_all. rewrite (eo_len _ _ (proj1 (wi_ok _ _ (ga_wired _ _ _ _ _ _ Hg1)))) in Hi. done. }
    unfold Shutdown. rewrite E2. cbn [mbind go_bind].
    destruct (mark_all true r.(ro_killed) _ _ _ AnnotateShutdown eq_refl Hw1) as (w2 & u2 & Ew2 & Hw2).
    unfold AnnotateShutdownAll. rewrite Ew2. cbn [mbind go_bind kr_grp kr_world].
    assert (∀ e, end_exists g2.2 e ↔ end_exists ts.(kr_grp).2 e) as Hx2 by (intros e; unfold end_exists; by rewrite He2, He1).
    rewrite Forall_forall in Hst. unfold restartall. cbn [kr_grp kr_world].
    destruct (StartServers_heals g2 _ _ r.(ro_starts) Hg2) as (g3 & -> & Hg3 & Hx3).
    { constructor; [done|done|done|]. intros e He. rewrite Hx2. by apply Hnew. }
    cbn [mbind go_bind]. destruct (mark_all false r.(ro_restarted) _ _ _ AnnotateRestart eq_refl Hw2) as (w3 & u3 & Ew3 & Hw3).
    unfold AnnotateRestartAll. rewrite Ew3. cbn [mbind go_bind kr_grp kr_world].
    destruct (AnnotateClearFailure_heals r.(ro_cleared) w3) as (w4 & -> & Hw4); [by eapply world_agrees_info|].
    apply returns_Ret. split; [by constructor|]. cbn [kr_grp]. intros e [?|?%Hx2]%Hx3; [by left|by right].
Qed.

Lemma generic_rounds_healed partitions crash rounds : ∀ ts,
  healed ts → Forall round_ok rounds → NoDup (concat (round_names <$> rounds)) →
  (∀ e, e ∈ concat (round_names <$> rounds) → ¬ end_exists ts.(kr_grp).2 e) →
  returns (generic_rounds partitions crash rounds ts) healed.
Proof.
  unfold generic_rounds. induction rounds as [|r rounds IH]; intros ts Hts Hok Hnd Hnew; cbn [foldM fmap list_fmap concat] in *.
  { by apply returns_Ret. }
  apply Forall_cons in Hok as [Hr Hok]. apply NoDup_app in Hnd as (Hnd1 & Hdisj & Hnd). setoid_rewrite elem_of_app in Hnew.
  eapply returns_bind; [apply (generic_round_healed partitions crash ts r); auto|]. intros ts1 [Hts1 Hx].
  apply IH; [done..|]. intros e He [Hin|Hin]%Hx; [by apply (Hdisj e)|]. apply (Hnew e); [by right|done].
Qed.
End heal.

(** C36. [GenericTest] leaves every iteration with a healed service: however often
    and however the [Partitioner] cuts the servers in two, and whether it crashes
    all of them, when the next iteration's clients start every server runs, is
    served by the network and can talk to every other one, and no failure is
    shown any more; nothing panics. *)
Theorem generic_test_heals n g g0 starts desc now w partitions crash rounds :
  wired n g → startable n g.2 starts → StartServers starts g = Ret g0 →
  Forall (round_ok n) rounds → NoDup (concat (round_names <$> rounds)) →
  (∀ e, e ∈ concat (round_names <$> rounds) → ¬ end_exists g0.2 e) →
  returns (generic_rounds partitions crash rounds (mkKrTest g0 (AnnotateTest now desc n w)))
    (λ ts, healed n g.1.(grp_gid) ts ∧ world_fault ts.(kr_world) = None).
Proof.
  intros Hg Hst E Hok Hnd Hnew. destruct (StartServers_agrees n g starts Hg Hst) as (g' & E' & Hg').
  rewrite E in E'. injection E' as <-. assert (0 ≤ n) as Hn by (rewrite <-(sb_len _ _ _ Hst); apply glen_nonneg).
  assert (returns (generic_rounds partitions crash rounds (mkKrTest g0 (AnnotateTest now desc n w))) (healed n g.1.(grp_gid)))
    as (ts & Ets & Hts).
  { apply generic_rounds_healed; [|done..]. constructor; [exact Hg'|]. split; [|done].
    constructor. exists (mkFrameworkInfo n). split; [done|]. split; [unfold fi_wf; cbn; rewrite !glen_replicate; lia|].
    intros i Hi. unfold zlookup. cbn. case_if; [lia|]. split; apply lookup_replicate; (split; [done|lia]). }
  exists ts. split; [done|]. split; [done|]. destruct Hts as [_ [[(fi & Hfi & (_ & _ & Hc & Hd) & Hfl)] _]].
  unfold world_fault. rewrite Hfi. cbn [mbind option_bind]. unfold fault.
  assert (forallb id fi.(Annotation.connected) = true) as ->; [|assert (forallb negb fi.(crashed) = true) as ->; [|done]];
    apply forallb_forall; intros x [i Hi]%list_elem_of_In%zlookup_elem_of; pose proof (zlookup_lt_Some _ _ _ Hi) as Hb;
    destruct (Hfl i ltac:(lia)) as [H1 H2]; [rewrite H1 in Hi|rewrite H2 in Hi]; by injection Hi as <-.
Qed.
