(* ===== verification/KvRaftWitness.v ===== *)
(** * [GenericTest] at a concrete run

    Three servers, two iterations, each with two partitions and a crash of all
    servers. *)

From S2P Require Import Prelude KvServer KvTest Names Gob Raft Annotation Persister LabRpc TesterGroup TesterConfig RaftTest TesterFaults TesterFaultsWitness KvRaft.

Definition named (p : string) : list Start := (λ ns, mkStart ns true 8) <$> three_names p.
Definition two_rounds : list Round :=
  [mkRound [(1, [0; 1; 0]); (2, [1; 1; 0])] (named "c") 3 4 5 6;
   mkRound [(7, [0; 0; 0]); (8, [0; 1; 1])] (named "d") 9 10 11 12].

Definition generic_start : KrTest :=
  mkKrTest three_up (AnnotateTest 0 "TestPersistPartition4B" 3 (Annotation.mkWorld mkAnnotation0 None)).

Lemma generic_test_heals_witness :
  ∃ ts, generic_rounds true true two_rounds generic_start = Ret ts ∧
    lnk ts.(kr_grp).1.(srvs) ts.(kr_grp).2 0 2 = true ∧ running ts.(kr_grp).1 1 ∧ world_fault ts.(kr_world) = None.
Proof.
  destruct (generic_test_heals 3 three_servers three_up three_starts "TestPersistPartition4B" 0
    (Annotation.mkWorld mkAnnotation0 None) true true two_rounds) as (ts & E & [Hg _] & Hf).
  - exact three_wired.
  - exact three_startable.
  - apply result_Ret. vm_compute. reflexivity.
  - unfold two_rounds. repeat constructor.
  - by apply (bool_decide_unpack _).
  - apply Forall_forall. unfold end_exists. repeat constructor; vm_compute; intros [x Hx]; discriminate Hx.
  - exists ts. split; [exact E|]. clear E. destruct Hg as [_ _ Hrun _ _ _ Hfull]. split; [|split; [|exact Hf]].
    + apply Hfull; [lia|lia|apply not_elem_of_nil..|reflexivity|reflexivity].
    + apply Hrun; [lia|reflexivity].
Defined.

(** Between two partitions only servers of the same part can talk. *)
Lemma partitioned_links :
  let ts := result (partition_once 1 [0; 1; 0] generic_start) generic_start in
  (λ ab, lnk ts.(kr_grp).1.(srvs) ts.(kr_grp).2 ab.1 ab.2) <$> [(0, 2); (2, 0); (0, 1); (1, 2)] = [true; true; false; false].
Proof. vm_compute. reflexivity. Qed.
