(* ===== verification/RfSrv.v ===== *)
(** * The Raft server of the tester: [raft1/server.go], [raft1/proxy.go]

    The server reads committed commands from the Raft peer's apply channel and
    reports each one to the tester by an RPC. The tester is reached through the
    interface [Itester]; [TesterProxy] implements it by RPCs that may be lost,
    over the tester's own state of [RaftTest]. *)

From S2P Require Import Prelude Gob Persister Raft RaftTest.

Definition SnapShotInterval : Z := 10.

(** ** The tester as the server sees it *)

Class Itester (T Cmd : Type) := {
  it_CheckLogs : Z → ApplyMsg Cmd → T → go (string * bool * T);
  it_IngestLog : Z → gmap Z (option Cmd) → T → go T;
  it_ApplyErr : Z → string → T → go T;
}.

(** What happens to an RPC to the tester. *)
Inductive RpcOutcome := RpcLost | RpcNoReply | RpcOk.

#[export] Instance RpcOutcome_eq_dec : EqDecision RpcOutcome.
Proof. solve_decision. Defined.

Definition rpc_runs (o : RpcOutcome) : bool := negb (bool_decide (o = RpcLost)).
Definition rpc_ok (o : RpcOutcome) : bool := bool_decide (o = RpcOk).

Section proxy.
Context {Cmd : Type} `{EqDecision Cmd} `{Fmt (option Cmd)}.

(** The handlers [CheckLogsRPC], [IngestLogRPC] and [ApplyErrRPC] of [test.go]
    call the methods of [Test]. *)
Definition proxy_CheckLogs (o : RpcOutcome) (index : Z) (m : ApplyMsg Cmd) (ts : Test Cmd) :
    go (string * bool * Test Cmd) :=
  if rpc_runs o then
    r ← CheckLogs index m ts;
    Ret (if rpc_ok o then r else ("ErrRPC", false, r.2))
  else Ret ("ErrRPC", false, ts).
Definition proxy_IngestLog (o : RpcOutcome) (index : Z) (m : gmap Z (option Cmd)) (ts : Test Cmd) :
    go (Test Cmd) := if rpc_runs o then IngestLog index m ts else Ret ts.
Definition proxy_ApplyErr (o : RpcOutcome) (index : Z) (err : string) (ts : Test Cmd) : go (Test Cmd) :=
  if rpc_runs o then ApplyErr index err ts else Ret ts.

(** The proxy, for given outcomes of the next three kinds of RPC. *)
Definition TesterProxy (oc oi oe : RpcOutcome) : Itester (Test Cmd) Cmd := {|
  it_CheckLogs := proxy_CheckLogs oc;
  it_IngestLog := proxy_IngestLog oi;
  it_ApplyErr := proxy_ApplyErr oe;
|}.
End proxy.

Section rfsrv.
Context {Cmd : Type} `{GobCodec Z, GobCodec (list (option Cmd))}.

Record rfsrv := mkRfsrv {
  rf_me : Z;
  rf_lastApplied : Z;
  rf_log : gmap Z (option Cmd);
}.

#[export] Instance upd_rf_lastApplied : Upd rf_lastApplied := λ f s, mkRfsrv s.(rf_me) (f s.(rf_lastApplied)) s.(rf_log).
#[export] Instance upd_rf_log : Upd rf_log := λ f s, mkRfsrv s.(rf_me) s.(rf_lastApplied) (f s.(rf_log)).

Definition apply_order_msg (me index : Z) : string :=
  "server " +:+ pretty me +:+ " apply out of order " +:+ pretty index.
Definition expected_msg (me expected index : Z) : string :=
  "server " +:+ pretty me +:+ " apply out of order, expected index " +:+ pretty expected +:+
  ", got " +:+ pretty index.
Definition snapshot_msg (me : Z) : string :=
  "server " +:+ pretty me +:+ " snapshot doesn't match m.SnapshotIndex".

(** [rs.log[j] = xlog[j]] *)
Fixpoint fill_log (j : Z) (xlog : list (option Cmd)) (log : gmap Z (option Cmd)) : gmap Z (option Cmd) :=
  match xlog with
  | [] => log
  | v :: xlog => fill_log (j + 1) xlog (<[j := v]> log)
  end.

(** A nil slice has no bytes: the code returns one or the other error for an
    empty one. *)
Definition ingestSnap (snapshot : bytes) (index : Z) (rs : rfsrv) : string * rfsrv :=
  match snapshot with
  | [] => ("nil snapshot", rs)
  | _ =>
    let '(lastIncludedIndex, rest) := Decode (A:=Z) snapshot in
    match lastIncludedIndex, (Decode (A:=list (option Cmd)) rest).1 with
    | Some lastIncludedIndex, Some xlog =>
      if negb (index =? -1) && negb (index =? lastIncludedIndex) then (snapshot_msg rs.(rf_me), rs)
      else ("", rs <| rf_log := fill_log 0 xlog ∅ |> <| rf_lastApplied := lastIncludedIndex |>)
    | _, _ => ("failed to decode snapshot", rs)
    end
  end.

(** The log up to [index], with nil for an index it does not have. *)
Definition xlog_upto (index : Z) (log : gmap Z (option Cmd)) : list (option Cmd) :=
  (λ j, default None (log !! j)) <$> range (index + 1).

Definition snapshot_bytes (index : Z) (log : gmap Z (option Cmd)) : bytes :=
  Encode index ++ Encode (xlog_upto index log).

Context {T : Type}.

(** [applier]: one message. *)
Definition applier_msg `{Itester T Cmd} (me : Z) (m : ApplyMsg Cmd) (ts : T) : go T :=
  if negb m.(CommandValid) then Ret ts
  else
    r ← it_CheckLogs me m ts;
    let '(err_msg, prevok, ts) := r in
    let err_msg := if (1 <? m.(CommandIndex)) && negb prevok
                   then apply_order_msg me m.(CommandIndex) else err_msg in
    if negb (bool_decide (err_msg = "")) then it_ApplyErr me err_msg ts else Ret ts.

(** [applierSnap]: one message; the third component is the call
    [rf.Snapshot(index, bytes)] it makes, if any. *)
Definition applierSnap_command `{Itester T Cmd} (m : ApplyMsg Cmd) (rs : rfsrv) (ts : T) :
    go (string * T) :=
  let err_msg := if negb (m.(CommandIndex) =? rs.(rf_lastApplied) + 1)
                 then expected_msg rs.(rf_me) (rs.(rf_lastApplied) + 1) m.(CommandIndex) else "" in
  if bool_decide (err_msg = "") then
    r ← it_CheckLogs rs.(rf_me) m ts;
    let '(err_msg, prevok, ts) := r in
    Ret (if negb (bool_decide (err_msg = "ErrRPC")) && (1 <? m.(CommandIndex)) && negb prevok
         then apply_order_msg rs.(rf_me) m.(CommandIndex) else err_msg, ts)
  else Ret (err_msg, ts).

Definition report `{Itester T Cmd} (me : Z) (err_msg : string) (ts : T) : go T :=
  if negb (bool_decide (err_msg = "")) then it_ApplyErr me err_msg ts else Ret ts.

Definition applierSnap_msg `{Itester T Cmd} (m : ApplyMsg Cmd) (rs : rfsrv) (ts : T) :
    go (rfsrv * T * option (Z * bytes)) :=
  if m.(SnapshotValid) then
    let '(err_msg, rs) := ingestSnap m.(am_Snapshot) m.(am_SnapshotIndex) rs in
    ts ← it_IngestLog rs.(rf_me) rs.(rf_log) ts;
    ts ← report rs.(rf_me) err_msg ts;
    Ret (rs, ts, None)
  else if m.(CommandValid) then
    r ← applierSnap_command m rs ts;
    let '(err_msg, ts) := r in
    let rs := rs <| rf_log := <[m.(CommandIndex) := m.(am_Command)]> rs.(rf_log) |>
                 <| rf_lastApplied := m.(CommandIndex) |> in
    let snap := if Z.rem (m.(CommandIndex) + 1) SnapShotInterval =? 0
                then Some (m.(CommandIndex), snapshot_bytes m.(CommandIndex) rs.(rf_log)) else None in
    ts ← report rs.(rf_me) err_msg ts;
    Ret (rs, ts, snap)
  else Ret (rs, ts, None).

(** [newRfsrv] without the Raft peer it starts. *)
Definition newRfsrv `{Itester T Cmd} (srv : Z) (ps : Persister) (snapshot : bool) (ts : T) :
    go (rfsrv * T) :=
  let sn := ReadSnapshot ps in
  let s := mkRfsrv srv 0 ∅ in
  if snapshot && (0 <? glen sn) then
    let '(err, s) := ingestSnap sn (-1) s in
    if negb (bool_decide (err = "")) then ts ← it_ApplyErr srv err ts; Fatal
    else ts ← it_IngestLog s.(rf_me) s.(rf_log) ts; Ret (s, ts)
  else Ret (s, ts).
End rfsrv.

Arguments rfsrv : clear implicits.

(** ** The checker *)

(** A message delivered to server [ce_srv], and what happens to the RPCs it
    causes. *)
Record CheckEvent {Cmd : Type} := mkCheckEvent {
  ce_srv : Z;
  ce_msg : ApplyMsg Cmd;
  ce_check : RpcOutcome;
  ce_err : RpcOutcome;
}.
Arguments CheckEvent : clear implicits.

Section checker.
Context {Cmd : Type} `{EqDecision Cmd} `{Fmt (option Cmd)}.
Implicit Types (ts : Test Cmd) (rs : raftServer Cmd).

Definition check_event ts (ev : CheckEvent Cmd) : go (Test Cmd) :=
  @applier_msg Cmd (Test Cmd) (TesterProxy ev.(ce_check) RpcOk ev.(ce_err)) ev.(ce_srv) ev.(ce_msg) ts.
Definition check_run (evs : list (CheckEvent Cmd)) ts : go (Test Cmd) := foldM check_event ts evs.

Definition no_errors ts : Prop := ∀ rs, rs ∈ ts.(t_srvs) → rs.(applyErr) = "".

(** No two servers committed different commands at an index. *)
Definition logs_agree ts : Prop := ∀ rs rs' k v v',
  rs ∈ ts.(t_srvs) → rs' ∈ ts.(t_srvs) → rs.(logs) !! k = Some v → rs'.(logs) !! k = Some v' → v = v'.
(** No server skipped an index. *)
Definition logs_contiguous ts : Prop := ∀ rs k v,
  rs ∈ ts.(t_srvs) → rs.(logs) !! k = Some v → 1 < k → is_Some (rs.(logs) !! (k - 1)).

Lemma append_nonempty c a b : String c a +:+ b ≠ "".
Proof. done. Qed.

Lemma check_entries_nil i m srvs : ∀ js err,
  foldl (check_entry i m) err (zip js srvs) = "" → length js = length srvs →
  err = "" ∧ ∀ rs, rs ∈ srvs → ∀ old, rs.(logs) !! m.(CommandIndex) = Some old → old = m.(am_Command).
Proof.
  induction srvs as [|rs srvs IH]; intros [|j js] err; cbn [zip zip_with foldl length]; intros Hf Hl;
    try done; [by split; [|intros ? ?%not_elem_of_nil]|].
  destruct (IH js _ Hf) as [He Hall]; [lia|]. unfold check_entry in He. cbn in He. unfold entry in He.
  destruct (rs.(logs) !! m.(CommandIndex)) as [old|] eqn:E.
  - case_bool_decide; [|done]. split; [done|].
    intros rs' [->|Hin]%elem_of_cons o Ho; [congruence|by eapply Hall].
  - split; [done|]. intros rs' [->|Hin]%elem_of_cons o Ho; [congruence|by eapply Hall].
Qed.

Lemma check_entries_ok i m srvs : ∀ js,
  (∀ rs, rs ∈ srvs → ∀ old, rs.(logs) !! m.(CommandIndex) = Some old → old = m.(am_Command)) →
  foldl (check_entry i m) "" (zip js srvs) = "".
Proof.
  induction srvs as [|rs srvs IH]; intros [|j js] Hall; cbn [zip zip_with foldl]; try done.
  unfold check_entry at 2. cbn [snd]. unfold entry.
  assert (foldl (check_entry i m) "" (zip js srvs) = "") as IH' by (apply IH; intros; eapply Hall; [by right|done]).
  destruct (rs.(logs) !! m.(CommandIndex)) as [old|] eqn:E; [|done].
  rewrite bool_decide_true; [done|]. eapply Hall; [left|done].
Qed.

(** What [CheckLogs] does, on every outcome. *)
Lemma CheckLogs_Ret i m ts err prevok ts' :
  CheckLogs i m ts = Ret (err, prevok, ts') →
  ∃ me, ts.(t_srvs).[i] = Some me ∧
    prevok = bool_decide (is_Some (me.(logs) !! (m.(CommandIndex) - 1))) ∧
    ts'.(t_srvs) = <[Z.to_nat i := me <| logs := <[m.(CommandIndex) := m.(am_Command)]> me.(logs) |>]> ts.(t_srvs) ∧
    (err = "" → ∀ rs, rs ∈ ts.(t_srvs) → ∀ old, rs.(logs) !! m.(CommandIndex) = Some old → old = m.(am_Command)).
Proof.
  unfold CheckLogs. intros Hc. apply bind_Ret_inv in Hc as (me & Hme & Hc). apply gidx_Ret in Hme.
  apply bind_Ret_inv in Hc as (ts1 & Hs & Hc). injection Hc as <- <- <-.
  unfold set_srv in Hs. apply bind_Ret_inv in Hs as (srvs & Hsrv & Hs). injection Hs as <-.
  rewrite gset_idx_Ret in Hsrv by by eapply zlookup_lt_Some. injection Hsrv as <-.
  exists me. split; [done|]. split; [done|]. split; [by case_if|].
  intros He. eapply check_entries_nil; [exact He|].
  pose proof (glen_range (glen ts.(t_srvs)) (glen_nonneg _)) as Hg. unfold glen in *. lia.
Qed.

Lemma ApplyErr_Ret i err ts ts' :
  ApplyErr i err ts = Ret ts' →
  ∃ me, ts.(t_srvs).[i] = Some me ∧ ts'.(t_srvs) = <[Z.to_nat i := me <| applyErr := err |>]> ts.(t_srvs).
Proof.
  unfold ApplyErr. intros Ha. apply bind_Ret_inv in Ha as (me & Hme & Ha). apply gidx_Ret in Hme.
  unfold set_srv in Ha. apply bind_Ret_inv in Ha as (srvs & Hsrv & Ha). injection Ha as <-.
  rewrite gset_idx_Ret in Hsrv by by eapply zlookup_lt_Some. injection Hsrv as <-. by exists me.
Qed.

Lemma elem_of_insert_srv (srvs : list (raftServer Cmd)) i me me' rs :
  srvs.[i] = Some me → rs ∈ <[Z.to_nat i := me']> srvs → rs = me' ∨ rs ∈ srvs.
Proof.
  intros Hi (k & Hk)%zlookup_elem_of. rewrite zlookup_insert in Hk by by eapply zlookup_lt_Some.
  case_decide; [left; congruence|right; apply zlookup_elem_of; by eexists].
Qed.

Lemma insert_srv_in (srvs : list (raftServer Cmd)) i me me' :
  srvs.[i] = Some me → me' ∈ <[Z.to_nat i := me']> srvs.
Proof.
  intros Hi. apply zlookup_elem_of. exists i. rewrite zlookup_insert by by eapply zlookup_lt_Some.
  by rewrite decide_True.
Qed.

(** Recording an error makes the test fail. *)
Lemma ApplyErr_error i err ts ts' : ApplyErr i err ts = Ret ts' → err ≠ "" → ¬ no_errors ts'.
Proof.
  intros Ha Herr Hno. destruct (ApplyErr_Ret _ _ _ _ Ha) as (me & Hme & E).
  apply Herr. assert ((me <| applyErr := err |>) ∈ ts'.(t_srvs)) as Hin by (rewrite E; by eapply insert_srv_in).
  exact (Hno _ Hin).
Qed.

Definition checked_inv ts : Prop := logs_agree ts ∧ logs_contiguous ts.

Lemma CheckLogs_inv i m ts prevok ts' :
  CheckLogs i m ts = Ret ("", prevok, ts') → (m.(CommandIndex) ≤ 1 ∨ prevok = true) →
  no_errors ts' → no_errors ts ∧ (checked_inv ts → checked_inv ts').
Proof.
  intros Hc Hp Hno. destruct (CheckLogs_Ret _ _ _ _ _ _ Hc) as (me & Hme & -> & E & Hall).
  specialize (Hall eq_refl). assert (me ∈ ts.(t_srvs)) as Hmein by (apply zlookup_elem_of; by exists i).
  set (me' := me <| logs := _ |>) in E.
  assert (∀ rs, rs ∈ ts'.(t_srvs) → ∃ rs0, rs0 ∈ ts.(t_srvs) ∧
    ∀ k v, rs.(logs) !! k = Some v → rs0.(logs) !! k = Some v ∨ (k = m.(CommandIndex) ∧ v = m.(am_Command))) as Hsub.
  { intros rs Hrs. rewrite E in Hrs. destruct (elem_of_insert_srv _ _ _ _ _ Hme Hrs) as [->|Hin].
    - exists me. split; [done|]. intros k v. unfold me'. cbn. rewrite lookup_insert. case_decide; [|by left].
      intros [= <-]. by right.
    - exists rs. split; [done|]. by left. }
  split; [|intros [Hag Hco]; split].
  - intros rs Hrs. destruct (proj1 (zlookup_elem_of _ _) Hrs) as [k Hk].
    destruct (decide (i = k)) as [->|Hne].
    + rewrite Hme in Hk. injection Hk as <-.
      assert (me' ∈ ts'.(t_srvs)) as Hin by (rewrite E; by eapply insert_srv_in). exact (Hno _ Hin).
    + apply Hno. rewrite E. apply zlookup_elem_of. exists k.
      rewrite zlookup_insert by by eapply zlookup_lt_Some. by rewrite decide_False.
  - intros rs rs' k v v' Hrs Hrs' Hv Hv'.
    destruct (Hsub _ Hrs) as (r0 & Hr0 & H0), (Hsub _ Hrs') as (r1 & Hr1 & H1).
    destruct (H0 _ _ Hv) as [Hl|[Hk ->]], (H1 _ _ Hv') as [Hl'|[Hk' ->]]; [exact (Hag _ _ _ _ _ Hr0 Hr1 Hl Hl')| | |done].
    + subst k. exact (Hall _ Hr0 _ Hl).
    + subst k. symmetry. exact (Hall _ Hr1 _ Hl').
  - intros rs k v Hrs Hv Hk. rewrite E in Hrs. destruct (elem_of_insert_srv _ _ _ _ _ Hme Hrs) as [->|Hin].
    + unfold me' in *. cbn in *. rewrite lookup_insert in Hv. rewrite lookup_insert_is_Some'.
      case_decide as Hki.
      * subst k. destruct Hp as [?|Hp%bool_decide_eq_true]; [lia|by right].
      * right. by eapply Hco.
    + by eapply Hco.
Qed.

Lemma check_event_inv ev ts ts' :
  ev.(ce_err) ≠ RpcLost → check_event ts ev = Ret ts' →
  no_errors ts' → no_errors ts ∧ (checked_inv ts → checked_inv ts').
Proof.
  intros Hoe Hc Hno. unfold check_event, applier_msg in Hc.
  destruct (CommandValid (ce_msg ev)); cbn [negb] in Hc; [|injection Hc as <-; done].
  apply bind_Ret_inv in Hc as ([[err prevok] ts1] & H1 & Hc). cbn in H1.
  set (err' := if (1 <? CommandIndex (ce_msg ev)) && negb prevok then _ else err) in Hc.
  case_bool_decide as Herr.
  - cbn [negb] in Hc. injection Hc as <-.
    assert (err = "" ∧ (CommandIndex (ce_msg ev) ≤ 1 ∨ prevok = true)) as [-> Hp].
    { unfold err' in Herr. destruct (Z.ltb_spec 1 (CommandIndex (ce_msg ev))), prevok;
        cbn [andb negb] in Herr; auto; done. }
    unfold proxy_CheckLogs in H1. destruct (rpc_runs (ce_check ev)); [|done].
    apply bind_Ret_inv in H1 as (r & Hr & H1). destruct (rpc_ok (ce_check ev)); [|done].
    injection H1 as ->. by eapply CheckLogs_inv.
  - cbn [negb] in Hc. cbn in Hc. unfold proxy_ApplyErr, rpc_runs in Hc.
    rewrite bool_decide_false in Hc by done. cbn [negb] in Hc.
    destruct (ApplyErr_error _ _ _ _ Hc Herr Hno).
Qed.

Lemma check_run_inv evs : ∀ ts ts',
  Forall (λ ev, ev.(ce_err) ≠ RpcLost) evs → check_run evs ts = Ret ts' →
  no_errors ts' → no_errors ts ∧ (checked_inv ts → checked_inv ts').
Proof.
  induction evs as [|ev evs IH]; intros ts ts' Hevs; cbn [check_run foldM].
  { intros [= <-] Hno. done. }
  intros Hr Hno. inversion Hevs as [|? ? Hev Hevs']; subst.
  apply bind_Ret_inv in Hr as (ts1 & H1 & Hr).
  destruct (IH ts1 ts' Hevs' Hr Hno) as [Hno1 Hi1].
  destruct (check_event_inv ev ts ts1 Hev H1 Hno1) as [Hno0 Hi0]. auto.
Qed.

Lemma makeTest_inv n : checked_inv (makeTest (Cmd:=Cmd) n).
Proof.
  assert (∀ rs, rs ∈ (makeTest (Cmd:=Cmd) n).(t_srvs) → rs.(logs) = ∅) as Hl
    by by intros rs [-> _]%elem_of_replicate.
  split.
  - intros rs rs' k v v' Hrs. rewrite (Hl _ Hrs). by rewrite lookup_empty.
  - intros rs k v Hrs. rewrite (Hl _ Hrs). by rewrite lookup_empty.
Qed.

(** C32. The tester's check is sound. Whatever the servers deliver, in any
    interleaving, if reports of errors ([ApplyErr]) arrive: if no error is
    recorded, no two servers committed different commands at the same index and no
    server skipped an index. The report of a delivery ([CheckLogs]) may be lost,
    but that is itself recorded as an error, so if none is, none was lost. *)
Theorem applier_sound n evs ts :
  Forall (λ ev, ev.(ce_err) ≠ RpcLost) evs → check_run evs (makeTest n) = Ret ts →
  no_errors ts → logs_agree ts ∧ logs_contiguous ts.
Proof.
  intros Hevs Hr Hno. destruct (check_run_inv evs _ _ Hevs Hr Hno) as [_ Hi]. apply Hi, makeTest_inv.
Qed.

(** Each server delivers the commands of one sequence [cmds], in order from
    index 1; [next i] is the next index of server [i]. *)
Fixpoint delivers (n : Z) (cmds : Z → option Cmd) (next : Z → Z) (evs : list (CheckEvent Cmd)) : Prop :=
  match evs with
  | [] => True
  | ev :: evs =>
    0 ≤ ev.(ce_srv) < n ∧ ev.(ce_msg).(CommandValid) = true ∧ ev.(ce_check) = RpcOk ∧
    ev.(ce_msg).(CommandIndex) = next ev.(ce_srv) ∧
    ev.(ce_msg).(am_Command) = cmds (next ev.(ce_srv)) ∧
    delivers n cmds (λ i, if i =? ev.(ce_srv) then next i + 1 else next i) evs
  end.

(** Each server's log is the prefix it has delivered. *)
Definition prefix_logs (n : Z) (cmds : Z → option Cmd) (next : Z → Z) ts : Prop :=
  glen ts.(t_srvs) = n ∧ ∀ i rs, ts.(t_srvs).[i] = Some rs →
    rs.(applyErr) = "" ∧ 1 ≤ next i ∧
    ∀ k, rs.(logs) !! k = if (1 <=? k) && (k <? next i) then Some (cmds k) else None.

(** A command in order, that agrees with every log, is recorded without error. *)
Lemma check_event_ok ts ev me :
  ts.(t_srvs).[ev.(ce_srv)] = Some me → ev.(ce_msg).(CommandValid) = true → ev.(ce_check) = RpcOk →
  (∀ rs, rs ∈ ts.(t_srvs) → ∀ old, rs.(logs) !! CommandIndex (ce_msg ev) = Some old →
    old = am_Command (ce_msg ev)) →
  (1 < CommandIndex (ce_msg ev) → is_Some (me.(logs) !! (CommandIndex (ce_msg ev) - 1))) →
  ∃ ts1, check_event ts ev = Ret ts1 ∧
    ts1.(t_srvs) = <[Z.to_nat ev.(ce_srv) :=
      me <| logs := <[CommandIndex (ce_msg ev) := am_Command (ce_msg ev)]> me.(logs) |>]> ts.(t_srvs).
Proof.
  destruct ev as [i m oc oe]. cbn [ce_srv ce_msg ce_check]. intros Hme Hv -> Hagree Hprev.
  unfold check_event, applier_msg. cbn [ce_srv ce_msg ce_check ce_err]. rewrite Hv.
  cbn [negb it_CheckLogs it_ApplyErr TesterProxy]. unfold proxy_CheckLogs, rpc_runs, rpc_ok.
  rewrite bool_decide_false by done. rewrite bool_decide_true by done. cbn [negb].
  unfold CheckLogs. rewrite (proj2 (gidx_Ret _ _ _) Hme). cbn [mbind go_bind].
  rewrite check_entries_ok by done. unfold set_srv. rewrite gset_idx_Ret by by eapply zlookup_lt_Some.
  cbn [mbind go_bind].
  assert ((1 <? CommandIndex m) && negb (bool_decide (is_Some (entry (CommandIndex m - 1) me))) = false) as ->.
  { destruct (Z.ltb_spec 1 (CommandIndex m)); [|done]. cbn [andb].
    rewrite bool_decide_true; [done|]. by apply Hprev. }
  rewrite bool_decide_true by done. cbn [negb]. eexists. split; [done|]. by case_if.
Qed.

Lemma prefix_logs_ext n cmds next next' ts :
  (∀ i, next i = next' i) → prefix_logs n cmds next ts → prefix_logs n cmds next' ts.
Proof. intros E [Hl Hp]. split; [done|]. intros i rs. rewrite <-E. apply Hp. Qed.

Lemma delivers_run n cmds evs : ∀ next ts,
  delivers n cmds next evs → prefix_logs n cmds next ts →
  returns (check_run evs ts)
    (λ ts', prefix_logs n cmds (λ i, next i + countb (λ ev, ev.(ce_srv) =? i) evs) ts').
Proof.
  induction evs as [|ev evs IH]; intros next ts Hd Hp; cbn [check_run foldM].
  { apply returns_Ret. eapply prefix_logs_ext; [|exact Hp]. intros i. rewrite countb_nil. lia. }
  destruct Hd as (Hi & Hv & Hok & Hidx & Hcmd & Hd). destruct Hp as [Hlen Hp].
  destruct (zlookup_is_Some ts.(t_srvs) ev.(ce_srv)) as [me Hme]; [lia|].
  destruct (Hp _ _ Hme) as (Herr & Hn1 & Hlog).
  destruct (check_event_ok ts ev me Hme Hv Hok) as (ts1 & E1 & Es).
  { intros rs [j Hj]%zlookup_elem_of old Hold. destruct (Hp _ _ Hj) as (_ & _ & Hlj). rewrite Hlj, Hidx in Hold.
    destruct (_ && _); [|done]. injection Hold as <-. by rewrite Hcmd. }
  { intros H1. rewrite Hlog. destruct (Z.leb_spec 1 (CommandIndex (ce_msg ev) - 1)),
      (Z.ltb_spec (CommandIndex (ce_msg ev) - 1) (next (ce_srv ev))); cbn [andb]; first [by eexists|lia]. }
  rewrite E1. cbn [mbind go_bind]. rewrite Hidx, Hcmd in Es.
  assert (prefix_logs n cmds (λ i, if i =? ev.(ce_srv) then next i + 1 else next i) ts1) as Hp1.
  { unfold prefix_logs. rewrite Es. split; [by rewrite glen_insert|]. intros i rs.
    rewrite zlookup_insert by by eapply zlookup_lt_Some. case_decide as Hii.
    - intros [= <-]. cbn. subst i. rewrite Z.eqb_refl. split; [done|]. split; [lia|]. intros k.
      rewrite lookup_insert, Hlog. repeat case_decide; subst;
        repeat match goal with |- context [?a <=? ?b] => destruct (Z.leb_spec a b)
                             | |- context [?a <? ?b] => destruct (Z.ltb_spec a b) end; cbn; done || (exfalso; lia).
    - intros Hrs. destruct (Z.eqb_spec i (ce_srv ev)); [congruence|]. by apply Hp. }
  eapply returns_mono; [exact (IH _ _ Hd Hp1)|]. intros ts' Hp'. eapply prefix_logs_ext; [|exact Hp'].
  intros i. cbn beta. rewrite countb_cons, (Z.eqb_sym i). case_if; lia.
Qed.

(** The check is complete. When every server delivers the commands of one
    sequence in order, starting at index 1, and the reports arrive, no error is
    recorded, and the tester holds for every server exactly the prefix it has
    delivered. *)
Theorem applier_accepts n cmds evs :
  0 ≤ n → delivers n cmds (λ _, 1) evs →
  returns (check_run evs (makeTest n)) (λ ts, no_errors ts ∧ glen ts.(t_srvs) = n ∧
    ∀ i rs, ts.(t_srvs).[i] = Some rs →
      let k := countb (λ ev, ev.(ce_srv) =? i) evs in
      ∀ j, rs.(logs) !! j = if (1 <=? j) && (j <=? k) then Some (cmds j) else None).
Proof.
  intros Hn Hd. assert (prefix_logs n cmds (λ _, 1) (makeTest n)) as Hp.
  { split; [cbn; rewrite glen_replicate; lia|]. intros i rs Hrs.
    assert (rs = newRaftServer) as ->.
    { assert (rs ∈ (makeTest (Cmd:=Cmd) n).(t_srvs)) as Hin by (apply zlookup_elem_of; by exists i).
      by apply elem_of_replicate in Hin as [-> _]. }
    split; [done|]. split; [lia|]. intros k. cbn. rewrite lookup_empty.
    destruct (Z.leb_spec 1 k), (Z.ltb_spec k 1); done || lia. }
  eapply returns_mono; [exact (delivers_run n cmds evs _ _ Hd Hp)|]. intros ts [Hlen Hall].
  split; [|split; [done|]].
  - intros rs [i Hi]%zlookup_elem_of. by apply (Hall i rs Hi).
  - intros i rs Hrs k j. destruct (Hall i rs Hrs) as (_ & _ & Hl). rewrite Hl. fold k.
    replace (j <? 1 + k) with (j <=? k); [done|].
    destruct (Z.leb_spec j k), (Z.ltb_spec j (1 + k)); done || lia.
Qed.
End checker.

(** ** Snapshots *)

Section snapshots.
Context {Cmd : Type} `{GobLaws Z, GobLaws (list (option Cmd))}.

Lemma fill_log_lookup xlog : ∀ j (log : gmap Z (option Cmd)) k,
  fill_log j xlog log !! k =
    if (j <=? k) && (k <? j + glen xlog) then xlog.[k - j] else log !! k.
Proof.
  induction xlog as [|v xlog IH]; intros j log k; cbn [fill_log].
  { change (glen (@nil (option Cmd))) with 0.
    destruct (Z.leb_spec j k), (Z.ltb_spec k (j + 0)); cbn [andb]; done || (exfalso; lia). }
  rewrite IH, glen_cons. pose proof (glen_nonneg xlog).
  destruct (Z.leb_spec (j + 1) k), (Z.ltb_spec k (j + 1 + glen xlog)), (Z.leb_spec j k),
    (Z.ltb_spec k (j + (1 + glen xlog))); cbn [andb]; try lia.
  - rewrite zlookup_cons_pos by lia. f_equal. lia.
  - by rewrite lookup_insert_ne by lia.
  - assert (k = j) as -> by lia. by rewrite lookup_insert_eq, Z.sub_diag.
  - by rewrite lookup_insert_ne by lia.
Qed.

Lemma xlog_lookup index (log : gmap Z (option Cmd)) j :
  0 ≤ j ≤ index → (xlog_upto index log).[j] = Some (default None (log !! j)).
Proof.
  intros Hj. unfold xlog_upto, zlookup. destruct (Z.ltb_spec j 0); [lia|].
  rewrite list_lookup_fmap. unfold range. rewrite lookup_seqZ_lt by lia. cbn. do 3 f_equal. lia.
Qed.

Lemma ingest_snapshot index (log : gmap Z (option Cmd)) i rs :
  i = -1 ∨ i = index →
  ingestSnap (snapshot_bytes index log) i rs =
    ("", rs <| rf_log := fill_log 0 (xlog_upto index log) ∅ |> <| rf_lastApplied := index |>).
Proof.
  intros Hi. unfold ingestSnap, snapshot_bytes. rewrite Decode_Encode.
  destruct (Encode index ++ Encode (xlog_upto index log)) as [|b bs] eqn:E.
  { apply app_eq_nil in E as [E _]. by apply Encode_nonempty in E. }
  rewrite Decode_Encode_nil. cbn [fst].
  assert (negb (i =? -1) && negb (i =? index) = false) as ->; [|done].
  destruct Hi as [->| ->]; [done|]. rewrite Z.eqb_refl. by rewrite andb_false_r.
Qed.

(** The snapshot round trip. A snapshot that [applierSnap] hands to Raft
    after applying the command at [index] restores, in any server that gets it
    on its apply channel with that index, or finds it in its persister at
    restart, the log of the sender up to [index] (nil where it has no entry)
    and [lastApplied]; delivered with another index it is rejected and changes
    nothing. *)
Theorem snapshot_roundtrip {T} `{Itester T Cmd} m rs (ts : T) rs' ts' index b srv tst :
  applierSnap_msg m rs ts = Ret (rs', ts', Some (index, b)) →
  0 ≤ index →
  index = m.(CommandIndex) ∧ (index + 1) mod SnapShotInterval = 0 ∧ rs'.(rf_lastApplied) = index ∧
  rs'.(rf_log) !! index = Some m.(am_Command) ∧
  ∃ log, (∀ j, log !! j = if (0 <=? j) && (j <=? index) then Some (default None (rs'.(rf_log) !! j)) else None) ∧
    (∀ rs2, ingestSnap b index rs2 = ("", rs2 <| rf_log := log |> <| rf_lastApplied := index |>)) ∧
    (∀ rs2 i, i ≠ index → i ≠ -1 → ingestSnap b i rs2 = (snapshot_msg rs2.(rf_me), rs2)) ∧
    (∀ st, newRfsrv srv (Save st b MakePersister) true tst =
       (ts2 ← it_IngestLog srv log tst; Ret (mkRfsrv srv index log, ts2))).
Proof.
  unfold applierSnap_msg. intros Hm Hidx.
  destruct (SnapshotValid m).
  { destruct (ingestSnap _ _ _). apply bind_Ret_inv in Hm as (? & _ & Hm).
    apply bind_Ret_inv in Hm as (? & _ & Hm). done. }
  destruct (CommandValid m); [|done]. apply bind_Ret_inv in Hm as ([err ts1] & _ & Hm).
  apply bind_Ret_inv in Hm as (ts2 & _ & Hm). injection Hm as <- _ Hsnap.
  destruct (Z.eqb_spec (Z.rem (CommandIndex m + 1) SnapShotInterval) 0) as [Hrem|]; [|done].
  injection Hsnap as <- <-. split; [done|].
  split; [rewrite <-Z.rem_mod_nonneg by (unfold SnapShotInterval; lia); done|].
  split; [done|]. split; [cbn; by rewrite lookup_insert_eq|].
  set (log := <[CommandIndex m := am_Command m]> (rf_log rs)).
  change (rf_log (rs <| rf_log := log |> <| rf_lastApplied := CommandIndex m |>)) with log.
  exists (fill_log 0 (xlog_upto (CommandIndex m) log) ∅).
  assert (glen (xlog_upto (CommandIndex m) log) = CommandIndex m + 1) as Hlen
    by (unfold xlog_upto; rewrite glen_fmap; apply glen_range; lia).
  split; [|split; [|split]].
  - intros j. rewrite fill_log_lookup, Hlen. replace (0 + (CommandIndex m + 1)) with (CommandIndex m + 1) by lia.
    destruct (Z.leb_spec 0 j), (Z.ltb_spec j (CommandIndex m + 1)), (Z.leb_spec j (CommandIndex m));
      cbn [andb]; try lia; try done.
    rewrite Z.sub_0_r. apply xlog_lookup. lia.
  - intros rs2. apply ingest_snapshot. by right.
  - intros rs2 i Hne Hne1. unfold ingestSnap, snapshot_bytes. rewrite Decode_Encode.
    destruct (Encode _ ++ Encode _) as [|b bs] eqn:E.
    { apply app_eq_nil in E as [E _]. by apply Encode_nonempty in E. }
    rewrite Decode_Encode_nil. cbn [fst].
    destruct (Z.eqb_spec i (-1)), (Z.eqb_spec i (CommandIndex m)); done.
  - intros st. unfold newRfsrv. rewrite ReadSnapshot_Save. cbn [andb].
    assert (0 <? glen (snapshot_bytes (CommandIndex m) log) = true) as ->.
    { apply Z.ltb_lt. unfold snapshot_bytes. rewrite glen_app.
      pose proof (glen_nonneg (Encode (xlog_upto (CommandIndex m) log))).
      pose proof (Encode_nonempty (CommandIndex m)) as Hne.
      destruct (Encode (CommandIndex m)) as [|x xs]; [done|]. rewrite glen_cons. pose proof (glen_nonneg xs). lia. }
    rewrite ingest_snapshot by by left. cbn [negb bool_decide]. done.
Qed.
End snapshots.
