(* ===== verification/RaftTester.v ===== *)
(** * Raft under its tester

    The composition of three parts: the cluster of [RaftCluster.v], whose peers
    send committed commands on their apply channels; the servers' [applier]
    goroutines of [RfSrv.v], which report every message to the tester; and the
    tester's checks of [RaftTest.v]. The channels between them hold what was
    sent and not yet reported, so that a report may come late, and a crash
    loses them. For executions without snapshots whose reports arrive,
    [CheckLogs] and [ApplyErr] record no error and [nCommitted] does not end the
    test. *)

From S2P Require Import Prelude Gob Persister Raft RaftNode RaftSpec RaftLog RaftCluster RaftMatching RaftSafety RaftSteps RaftReplicate RaftAgreement RaftTest RfSrv.
From Stdlib Require Import Strings.Byte.

Record Tested {Cmd : Type} := mkTested {
  tc_cluster : Cluster Cmd;
  tc_chan : gmap Z (list (ApplyMsg Cmd));
  tc_test : Test Cmd;
}.
Arguments Tested : clear implicits.
Arguments mkTested {Cmd}.

Inductive TestedEvent {Cmd : Type} :=
  | TRaft (ev : ClusterEvent Cmd)
  | TReport (i : Z).
Arguments TestedEvent : clear implicits.

Section tested.
Context {Cmd : Type} `{EqDecision Cmd} `{Fmt (option Cmd)}.
Context `{GobLaws Z, GobLaws (list (LogEntry Cmd))}.
Implicit Types (c : Cluster Cmd) (rf : Raft Cmd) (A : Acks) (G : Ghost Cmd) (s : Tested Cmd).
Implicit Types (ch : gmap Z (list (ApplyMsg Cmd))) (ts : Test Cmd).

(** ** The system *)

Definition pending ch (i : Z) : list (ApplyMsg Cmd) := default [] (ch !! i).
Definition push (i : Z) (ms : list (ApplyMsg Cmd)) ch : gmap Z (list (ApplyMsg Cmd)) :=
  <[i := pending ch i ++ ms]> ch.

(** What an event of the cluster sends on the apply channels. *)
Definition chan_after (ev : ClusterEvent Cmd) c ch : gmap Z (list (ApplyMsg Cmd)) :=
  match ev with
  | EvApply i =>
    match applyCommitted <$> c.(nodes) !! i with Some (Ret r) => push i r.2 ch | _ => ch end
  | EvDeliver k now =>
    match c.(net) !! k with
    | Some (ISReq dst args) =>
      match InstallSnapshot now args <$> c.(nodes) !! dst with
      | Some (Ret r) => push dst r.2 ch
      | _ => ch
      end
    | _ => ch
    end
  | EvCrash i _ | EvCrashInHandler i _ _ => delete i ch
  | _ => ch
  end.

(** The [applier] of server [i] reports the next message. *)
Definition report_next (i : Z) s : go (Tested Cmd) :=
  match pending s.(tc_chan) i with
  | [] => Ret s
  | m :: ms =>
    ts ← check_event s.(tc_test) (mkCheckEvent _ i m RpcOk RpcOk);
    Ret (mkTested s.(tc_cluster) (<[i := ms]> s.(tc_chan)) ts)
  end.

Definition tested_step s (ev : TestedEvent Cmd) : go (Tested Cmd) :=
  match ev with
  | TRaft ev =>
    c ← cexec ev s.(tc_cluster);
    Ret (mkTested c (chan_after ev s.(tc_cluster) s.(tc_chan)) s.(tc_test))
  | TReport i => report_next i s
  end.

Definition tested_run (evs : list (TestedEvent Cmd)) s : go (Tested Cmd) := foldM tested_step s evs.

Definition tested_boot (n now : Z) : Tested Cmd := mkTested (cluster_boot n now) ∅ (makeTest n).

Definition tested_no_snapshot (ev : TestedEvent Cmd) : Prop :=
  match ev with TRaft ev => no_snapshot ev | TReport _ => True end.

(** ** What moves [lastApplied], and where snapshots come from *)

(** The applied position and the snapshot are what they were. *)
Definition unmoved rf rf' : Prop :=
  rf'.(lastApplied) = rf.(lastApplied) ∧ rf'.(snapshotIndex) = rf.(snapshotIndex) ∧
  ReadSnapshot rf'.(persister) = ReadSnapshot rf.(persister).

(** The operations that leave them alone. *)
Definition keeps_applied (op : RaftOp Cmd) : Prop :=
  match op with OpApply | OpInstallSnapshot _ _ | OpSnapshot _ _ => False | _ => True end.

Lemma unmoved_persist rf rf' :
  rf'.(lastApplied) = rf.(lastApplied) → rf'.(snapshotIndex) = rf.(snapshotIndex) →
  rf'.(persister) = rf.(persister) → unmoved rf (persist rf').
Proof. intros Ha Hs Hp. unfold unmoved, persist. cbn. by rewrite ReadSnapshot_Save, Ha, Hs, Hp. Qed.

Lemma observeTerm_unmoved t rf : unmoved rf (observeTerm t rf).
Proof. unfold observeTerm, stepDown. case_if; [by apply unmoved_persist|done]. Qed.

Lemma decideVote_unmoved now t args rf r : decideVote now t args rf = Ret r → unmoved rf r.1.
Proof. unfold decideVote. intros Hr. go_cases Hr; subst; [by apply unmoved_persist|done]. Qed.

Lemma appendEntriesLog_unmoved t args rf r : appendEntriesLog t args rf = Ret r → unmoved rf r.1.
Proof.
  unfold appendEntriesLog. intros Hr. go_cases Hr; subst; try done; cbn [fst];
    rewrite followerCommit_eq; first [by apply unmoved_persist|done].
Qed.

Lemma startElection_unmoved now rf r : startElection now rf = Ret r → unmoved rf r.1.1.
Proof. unfold startElection. intros Hr. go_inv Hr. subst r. by apply unmoved_persist. Qed.

Lemma unmoved_trans r1 r2 r3 : unmoved r1 r2 → unmoved r2 r3 → unmoved r1 r3.
Proof. intros (? & ? & ?) (? & ? & ?). unfold unmoved. split_and!; congruence. Qed.

Lemma exec_unmoved op rf rf' : keeps_applied op → exec op rf = Ret rf' → unmoved rf rf'.
Proof.
  destruct op; simpl; intros Hop Hr; try done; go_inv Hr; subst.
  - unfold RequestVote in Ha. case_match; [go_inv Ha; by subst a|].
    eapply unmoved_trans; [apply observeTerm_unmoved|by eapply decideVote_unmoved].
  - unfold AppendEntries in Ha. case_match; [go_inv Ha; by subst a|].
    eapply unmoved_trans; [apply (observeTerm_unmoved args.(ae_Term))|].
    by apply appendEntriesLog_unmoved in Ha.
  - unfold Start. case_if; [by apply unmoved_persist|done].
  - by apply startElection_unmoved in Ha.
  - unfold onVoteReply in Ha. go_cases Ha; subst; try done; [by apply unmoved_persist|].
    match goal with Hb : becomeLeader _ = _ |- _ => by rewrite (becomeLeader_frame _ _ Hb) end.
  - done.
  - unfold onInstallSnapshotReply in Hr. go_cases Hr; subst; try done. by apply unmoved_persist.
  - unfold onAppendEntriesReply in Hr. go_cases Hr; subst; try done. by apply unmoved_persist.
  - unfold updateCommitIndex in Hr. go_cases Hr; [|by subst]. by rewrite (commitScan_frame _ _ _ _ Hr).
  - done.
Qed.

(** The peer an event makes deliver or forget messages. *)
Definition touches (ev : ClusterEvent Cmd) (j : Z) : Prop :=
  match ev with EvApply i | EvCrash i _ | EvCrashInHandler i _ _ => i = j | _ => False end.

#[export] Instance touches_dec ev j : Decision (touches ev j).
Proof. destruct ev; simpl; apply _. Defined.

(** All peers of [c'] were there before, [unmoved]. *)
Definition all_unmoved c c' (P : Z → Prop) : Prop :=
  ∀ j rf', P j → c'.(nodes) !! j = Some rf' → ∃ rf, c.(nodes) !! j = Some rf ∧ unmoved rf rf'.

Lemma same_unmoved c c' P : c'.(nodes) = c.(nodes) → all_unmoved c c' P.
Proof. intros E j rf' _ Hj. rewrite E in Hj. by exists rf'. Qed.

Lemma on_node_unmoved {B} c i (f : Raft Cmd → go B) (g : B → Raft Cmd) kont c' op P :
  on_node c i f kont = Ret c' → keeps_applied op → (∀ rf, exec op rf = g <$> f rf) →
  (∀ a, (kont a).(nodes) = <[i := g a]> c.(nodes)) → all_unmoved c c' P.
Proof.
  intros Hr Hop Hex Hk. apply on_node_inv in Hr as [->|(rf & a & Hi & Hr & ->)]; [by apply same_unmoved|].
  intros j rf' _ Hj. rewrite Hk in Hj. apply lookup_insert_Some in Hj as [[<- <-]|[_ Hj]]; [|by exists rf'].
  exists rf. split; [done|]. eapply exec_unmoved; [done|]. by rewrite Hex, Hr.
Qed.

Lemma deliver_unmoved now p c c' P :
  (∀ dst a, p ≠ ISReq dst a) → deliver now p c = Ret c' → all_unmoved c c' P.
Proof.
  intros Hno Hr. destruct p as [dst args|src args reply|dst m|src m reply|dst a|src a r]; cbn in Hr.
  - by apply (on_node_unmoved c dst _ fst _ c' (OpRequestVote now args) P Hr).
  - unfold deliverVote in Hr. destruct (elections c !! _) as [el|];
      [destruct (bool_decide _)|]; [|injection Hr as <-; by apply same_unmoved..].
    by apply (on_node_unmoved c _ _ (fst ∘ fst) _ c' (OpVoteReply args reply el.(el_votes) el.(el_won)) P Hr).
  - by apply (on_node_unmoved c dst _ fst _ c' (OpAppendEntries now m) P Hr).
  - apply (on_node_unmoved c _ _ id _ c' (OpAppendEntriesReply src m reply) P Hr); try done.
    intros rf. apply fmap_id_go.
  - by destruct (Hno dst a).
  - apply (on_node_unmoved c _ _ id _ c' (OpInstallSnapshotReply src a r) P Hr); try done.
    intros rf. apply fmap_id_go.
Qed.

Lemma cexec_unmoved ev c c' :
  no_snapshot ev → (∀ dst a, ISReq dst a ∉ c.(net)) → cexec ev c = Ret c' →
  all_unmoved c c' (λ j, ¬ touches ev j).
Proof.
  intros Hev Hno Hr.
  assert (∀ i rf (P : Z → Prop), c'.(nodes) = <[i := rf]> c.(nodes) → (∀ j, P j → i ≠ j) →
    all_unmoved c c' P) as Hother.
  { intros i rf P E Hij j rf' Hj. rewrite E, lookup_insert_ne by auto. intros. by exists rf'. }
  destruct ev as [k now|i now|i|k srv|i|i|i command|i index data|i|i now|i term now]; cbn in Hr.
  - destruct (net c !! k) as [p|] eqn:Hk; [|injection Hr as <-; by apply same_unmoved].
    eapply deliver_unmoved; [|done]. intros dst a ->. eapply Hno. by eapply list_elem_of_lookup_2.
  - by apply (on_node_unmoved c i _ (fst ∘ fst) _ c' (OpElection now) _ Hr).
  - apply on_node_inv in Hr as [->|(rf & [hb|] & _ & _ & ->)]; by apply same_unmoved.
  - destruct (heartbeats c !! k) as [[i hb]|]; [destruct (bool_decide _)|];
      [|injection Hr as <-; by apply same_unmoved..].
    apply on_node_inv in Hr as [->|(rf & [m|] & _ & _ & ->)]; by apply same_unmoved.
  - apply (on_node_unmoved c i _ id _ c' OpUpdateCommit _ Hr); try done. intros rf. apply fmap_id_go.
  - apply on_node_inv in Hr as [->|(rf & a & _ & _ & ->)]; [by apply same_unmoved|by eapply Hother].
  - by apply (on_node_unmoved c i _ fst _ c' (OpStart command) _ Hr).
  - done.
  - by apply (on_node_unmoved c i _ id _ c' OpKill _ Hr).
  - apply on_node_inv in Hr as [->|(rf & a & _ & _ & ->)]; [by apply same_unmoved|by eapply Hother].
  - apply on_node_inv in Hr as [->|(rf & a & _ & _ & ->)]; [by apply same_unmoved|by eapply Hother].
Qed.

(** *** No snapshot anywhere *)

Record no_snap_state c : Prop := {
  nn_nodes : ∀ i rf, c.(nodes) !! i = Some rf →
    rf.(snapshotIndex) = 0 ∧ ReadSnapshot rf.(persister) = [];
  nn_net : ∀ dst a, ISReq dst a ∉ c.(net);
  nn_heartbeats : ∀ i hb, (i, hb) ∈ c.(heartbeats) → hb.(hb_snapshot) = [];
}.

Lemma no_snap_unmoved c c' :
  all_unmoved c c' (λ _, True) → (∀ dst a, ISReq dst a ∈ c'.(net) → ISReq dst a ∈ c.(net)) →
  (∀ h, h ∈ c'.(heartbeats) → h ∈ c.(heartbeats)) → no_snap_state c → no_snap_state c'.
Proof.
  intros Hun Hnet Hhb [Hn Hno Hh]. constructor.
  - intros i rf' Hi. destruct (Hun i rf' I Hi) as (rf & Hi' & _ & -> & ->). by apply Hn in Hi'.
  - intros dst a Hin. by eapply Hno, Hnet.
  - intros i hb Hin. by eapply Hh, Hhb.
Qed.

Lemma no_snap_deliver now p c c' :
  no_snap_state c → p ∈ c.(net) → deliver now p c = Ret c' → no_snap_state c'.
Proof.
  intros Hc Hp Hr. assert (∀ dst a, p ≠ ISReq dst a) as Hno by (intros dst a ->; by eapply nn_net).
  apply (no_snap_unmoved c); [by eapply deliver_unmoved| | |done].
  - intros dst0 a0. destruct p as [dst args|src args reply|dst m|src m reply|dst a|src a r]; cbn in Hr.
    2: { unfold deliverVote in Hr. destruct (elections c !! _) as [el|];
        [destruct (bool_decide _)|]; [|by injection Hr as <-..].
      by apply on_node_inv in Hr as [->|(rf & r & _ & _ & ->)]. }
    all: apply on_node_inv in Hr as [->|(rf & x & _ & _ & ->)]; [done|]; cbn; try done;
      by intros [[=]|?]%elem_of_cons.
  - intros h. destruct p as [dst args|src args reply|dst m|src m reply|dst a|src a r]; cbn in Hr.
    2: { unfold deliverVote in Hr. destruct (elections c !! _) as [el|];
        [destruct (bool_decide _)|]; [|by injection Hr as <-..].
      by apply on_node_inv in Hr as [->|(rf & r & _ & _ & ->)]. }
    all: by apply on_node_inv in Hr as [->|(rf & x & _ & _ & ->)].
Qed.

(** A peer whose disk and snapshot position are as before. *)
Lemma no_snap_node c c' i rf rf' :
  no_snap_state c → c.(nodes) !! i = Some rf → c'.(nodes) = <[i := rf']> c.(nodes) →
  rf'.(snapshotIndex) = rf.(snapshotIndex) → ReadSnapshot rf'.(persister) = ReadSnapshot rf.(persister) →
  c'.(net) = c.(net) → (∀ h, h ∈ c'.(heartbeats) → h ∈ c.(heartbeats)) → no_snap_state c'.
Proof.
  intros [Hn Hno Hh] Hi En Es Ed Enet Hhb. constructor.
  - intros j r. rewrite En. intros [[<- <-]|[_ Hj]]%lookup_insert_Some; [|by eapply Hn].
    rewrite Es, Ed. by apply Hn in Hi.
  - by rewrite Enet.
  - intros j hb Hin. by eapply Hh, Hhb.
Qed.

Lemma heartbeatMsg_append hb srv rf msg :
  hb.(hb_snapshot) = [] → heartbeatMsg hb srv rf = Ret (Some msg) → ∃ m, msg = SendAppendEntries m.
Proof.
  unfold heartbeatMsg. intros Hd Hr. case_match; [by go_inv Hr|]. go_inv Hr. rewrite Hd in Hr.
  change (0 <? glen (@nil byte)) with false in Hr. rewrite andb_false_r in Hr. go_inv Hr. subst. by eexists.
Qed.

Lemma no_snap_step n V ev c c' :
  cluster_inv n V c → no_snapshot ev → no_snap_state c → cexec ev c = Ret c' → no_snap_state c'.
Proof.
  intros Hci Hev Hc Hr.
  assert (∀ i rf now rf0, c.(nodes) !! i = Some rf → durable rf0 → unmoved rf rf0 →
    no_snap_state (crash i (restart now rf0) c)) as Hcrash.
  { intros i rf now rf0 Hi Hd (_ & Es & Ed). eapply (no_snap_node c); [done|exact Hi|done|..]; try done.
    - by rewrite restart_eq.
    - by rewrite restart_eq.
    - intros h. cbn. by intros [_ ?]%list_elem_of_filter. }
  destruct ev as [k now|i now|i|k srv|i|i|i command|i index data|i|i now|i term now]; cbn in Hr.
  - destruct (net c !! k) as [p|] eqn:Hk; [|by injection Hr as <-].
    eapply no_snap_deliver; [done| |done]. by eapply list_elem_of_lookup_2.
  - apply (no_snap_unmoved c); [|..|done];
      [by apply (on_node_unmoved c i _ (fst ∘ fst) _ c' (OpElection now) _ Hr)|..];
      apply on_node_inv in Hr as [->|(rf & r & _ & _ & ->)]; try done.
    cbn. by intros dst a [(s & ? & _)%list_elem_of_fmap|?]%elem_of_app.
  - apply on_node_inv in Hr as [->|(rf & r & Hi & [= <-] & ->)]; [done|].
    unfold sendHeartbeats. destruct (bool_decide _); [|done]. destruct Hc as [Hn Hno Hh]. constructor; [done..|]. cbn.
    intros j hb [[= -> ->]|?]%elem_of_cons; [by eapply Hn|by eapply Hh].
  - destruct (heartbeats c !! k) as [[i hb]|] eqn:Hk; [case_match|]; [|by injection Hr as <-..].
    apply on_node_inv in Hr as [->|(rf & [msg|] & Hi & Hr & ->)]; [done| |done].
    apply list_elem_of_lookup_2 in Hk. apply (nn_heartbeats _ Hc) in Hk.
    destruct (heartbeatMsg_append _ _ _ _ Hk Hr) as [m ->].
    apply (no_snap_unmoved c); [by apply same_unmoved| |done..]. cbn. by intros dst a [[=]|?]%elem_of_cons.
  - apply on_node_inv in Hr as [->|(rf & r & Hi & Hr & ->)]; [done|].
    destruct (exec_unmoved OpUpdateCommit rf r I Hr) as (_ & ? & ?). by eapply (no_snap_node c _ i rf).
  - apply on_node_inv in Hr as [->|(rf & r & Hi & Hr & ->)]; [done|].
    eapply (no_snap_node c _ i rf); try done; by rewrite (applyLoop_frame _ _ _ Hr).
  - apply on_node_inv in Hr as [->|(rf & r & Hi & [= <-] & ->)]; [done|].
    destruct (exec_unmoved (OpStart command) rf _ I eq_refl) as (_ & ? & ?). by eapply (no_snap_node c _ i rf).
  - done.
  - apply on_node_inv in Hr as [->|(rf & r & Hi & [= <-] & ->)]; [done|]. by eapply (no_snap_node c _ i rf).
  - apply on_node_inv in Hr as [->|(rf & r & Hi & [= <-] & ->)]; [done|].
    destruct (ci_nodes _ _ _ Hci _ _ Hi) as [_ _ _ Hd]. by eapply Hcrash.
  - apply on_node_inv in Hr as [->|(rf & r & Hi & [= <-] & ->)]; [done|].
    destruct (ci_nodes _ _ _ Hci _ _ Hi) as [_ _ _ Hd].
    eapply Hcrash; [done|by apply observeTerm_durable|apply observeTerm_unmoved].
Qed.

(** ** The values committed at an index *)

Definition committed_value (n : Z) A G k (v : option Cmd) : Prop :=
  ∃ t k' q L e, chosen n A G t k' ∧ 1 ≤ k ≤ k' ∧ G !! t = Some (q, L) ∧ L.[k] = Some e ∧ e.(le_Command) = v.

Lemma committed_value_mono n A A' G G' k v :
  A ⊆ A' → ghost_le G G' → committed_value n A G k v → committed_value n A' G' k v.
Proof.
  intros HA HG (t & k' & q & L & e & Hch & Hk & HL & He & Hv).
  destruct (HG _ _ _ HL) as (L' & HL' & Hp). exists t, k', q, L', e.
  split_and!; [by eapply chosen_mono|lia|lia|done|by eapply zlookup_prefix|done].
Qed.

Lemma committed_value_unique n A G c k v v' :
  0 ≤ n → safe_state n A G c → committed_value n A G k v → committed_value n A G k v' → v = v'.
Proof.
  intros Hn (V & _ & Hinv) (t & k1 & q & L & e & Hch & Hk & HL & He & <-)
    (t' & k2 & q' & L' & e' & Hch' & Hk' & HL' & He' & <-).
  assert (L.[k] = L'.[k]) as E; [|congruence].
  apply zlookup_lt_Some in He as ?. apply zlookup_lt_Some in He' as ?.
  eapply (committed_agree n V c A G L L' t t' k k1 k2); try done; try lia; by eapply contains_own; [|lia].
Qed.

(** What a peer may apply. *)
Lemma committed_entry n V c A G i rf k :
  safety_inv n V A G c → c.(nodes) !! i = Some rf → rf.(snapshotIndex) = 0 → 1 ≤ k ≤ rf.(commitIndex) →
  ∃ e, entry_at rf k = Some e ∧ committed_value n A G k e.(le_Command).
Proof.
  intros Hinv Hi Hs Hk. destruct (si_nodes _ _ _ _ _ Hinv _ _ Hi) as [F HF].
  destruct (committed_entry_to n c A G i rf F k HF) as [E [?|(t & k1 & Hch & Hle & _ & Hc)]]; [lia..|].
  destruct (contains_entry _ _ _ _ Hc) as [e He]; [lia|]. exists e. rewrite E. split; [done|].
  destruct Hc as (q & L & HL & _ & Hag). exists t, k1, q, L, e. rewrite <-Hag by lia. split_and!; done || lia.
Qed.

(** ** The invariant *)

(** [m] delivers the value committed at [k]. *)
Definition deliverable (n : Z) A G k (m : ApplyMsg Cmd) : Prop :=
  m.(CommandValid) = true ∧ m.(CommandIndex) = k ∧ committed_value n A G k m.(am_Command).

(** The tester has what server [i] reported, up to [f]; what the peer sent
    after that is in the channel, in order. *)
Definition in_step (n : Z) A G (applied : Z) (rs : raftServer Cmd) (ms : list (ApplyMsg Cmd)) : Prop :=
  ∃ f, 0 ≤ f ≤ applied ∧ (∀ k, 1 ≤ k ≤ f → is_Some (rs.(logs) !! k)) ∧
    Forall2 (deliverable n A G) (seqZ (f + 1) (applied - f)) ms.

Record tested_inv (n : Z) A G s : Prop := {
  ti_state : safe_state n A G s.(tc_cluster);
  ti_snap : no_snap_state s.(tc_cluster);
  ti_len : glen s.(tc_test).(t_srvs) = n;
  ti_srvs : ∀ i rs, s.(tc_test).(t_srvs).[i] = Some rs →
    rs.(applyErr) = "" ∧ ∀ k v, rs.(logs) !! k = Some v → committed_value n A G k v;
  ti_gaps : logs_contiguous s.(tc_test);
  ti_nodes : ∀ i rf, s.(tc_cluster).(nodes) !! i = Some rf → ∀ rs,
    s.(tc_test).(t_srvs).[i] = Some rs →
    in_step n A G rf.(lastApplied) rs (pending s.(tc_chan) i);
  ti_chan : ∀ i, pending s.(tc_chan) i ≠ [] → is_Some (s.(tc_cluster).(nodes) !! i);
}.

Lemma Forall2_impl_in {X Y} (P Q : X → Y → Prop) l ms :
  Forall2 P l ms → (∀ k m, k ∈ l → P k m → Q k m) → Forall2 Q l ms.
Proof.
  induction 1 as [|k m l ms HP _ IH]; intros HPQ; constructor; [apply HPQ; [left|done]|].
  apply IH. intros k' m' Hin. apply HPQ. by right.
Qed.

Lemma deliverable_mono n A A' G G' k m :
  A ⊆ A' → ghost_le G G' → deliverable n A G k m → deliverable n A' G' k m.
Proof. intros HA HG (? & ? & ?). split_and!; [done..|by eapply committed_value_mono]. Qed.

Lemma in_step_mono n A A' G G' a rs ms :
  A ⊆ A' → ghost_le G G' → in_step n A G a rs ms → in_step n A' G' a rs ms.
Proof.
  intros HA HG (f & Hf & Hk & Hms). exists f. split_and!; [lia|lia|done|].
  eapply Forall2_impl; [exact Hms|]. intros k m. by apply deliverable_mono.
Qed.

Lemma in_step_app n A G a a' rs ms ms' :
  a ≤ a' → in_step n A G a rs ms → Forall2 (deliverable n A G) (seqZ (a + 1) (a' - a)) ms' →
  in_step n A G a' rs (ms ++ ms').
Proof.
  intros Ha (f & Hf & Hk & Hms) Hms'. exists f. split_and!; [lia|lia|done|].
  replace (a' - f) with ((a - f) + (a' - a)) by lia. rewrite seqZ_app by lia.
  apply Forall2_app; [done|]. by replace (f + 1 + (a - f)) with (a + 1) by lia.
Qed.

Lemma applyCommitted_deliverable n V c A G i rf r :
  safety_inv n V A G c → cluster_inv n V c → c.(nodes) !! i = Some rf → rf.(snapshotIndex) = 0 → applyCommitted rf = Ret r →
  rf.(lastApplied) ≤ r.1.(lastApplied) ∧
  Forall2 (deliverable n A G) (seqZ (rf.(lastApplied) + 1) (r.1.(lastApplied) - rf.(lastApplied))) r.2.
Proof.
  intros Hinv Hci Hi Hs0 Hr. destruct (ci_nodes _ _ _ Hci _ _ Hi) as [_ _ Hwf _].
  destruct (decide (rf.(lastApplied) ≤ rf.(commitIndex))) as [Hle|Hgt].
  - assert (0 ≤ rf.(lastApplied)) as Hpos by (destruct Hwf; lia).
    destruct (applyLoop_spec rf (Z.to_nat (rf.(commitIndex) - rf.(lastApplied))))
      as (r' & Hr' & Hf & Hms); [|apply Hwf|done..|].
    { destruct (decide (rf.(commitIndex) ≤ 0)).
      - apply wf_log_nonempty in Hwf as ?. destruct Hwf. unfold lastLogIndex. lia.
      - destruct (committed_entry n V c A G i rf rf.(commitIndex)) as (e & He & _); [done..|lia|].
        apply entry_at_Some in He. lia. }
    rewrite (Ret_det _ _ _ Hr Hr') in *. rewrite Hf. cbn. split; [done|].
    eapply Forall2_impl_in; [exact Hms|]. intros k m Hk%elem_of_seqZ (e & He & ->).
    destruct (committed_entry n V c A G i rf k) as (e' & He' & Hc); [done..|lia|].
    rewrite He in He'. injection He' as <-. done.
  - unfold applyCommitted in Hr. replace (Z.to_nat _) with O in Hr by lia. injection Hr as <-. cbn.
    split; [done|]. rewrite Z.sub_diag. constructor.
Qed.

(** *** A step of the cluster *)

Lemma pending_insert ch i ms j :
  pending (<[i := ms]> ch) j = if decide (i = j) then ms else pending ch j.
Proof. unfold pending. rewrite lookup_insert. by case_decide. Qed.

Lemma chan_after_other ev c ch j :
  (∀ dst a, ISReq dst a ∉ c.(net)) → ¬ touches ev j →
  pending (chan_after ev c ch) j = pending ch j.
Proof.
  intros Hno Hj. destruct ev as [k now|i now|i|k srv|i|i|i command|i index data|i|i now|i term now];
    cbn in *; try done.
  - destruct (net c !! k) as [[]|] eqn:Hk; try done.
    apply list_elem_of_lookup_2 in Hk. by apply Hno in Hk.
  - destruct (applyCommitted <$> _) as [[]|]; try done. unfold push. rewrite pending_insert.
    by rewrite decide_False.
  - unfold pending. by rewrite lookup_delete_ne.
  - unfold pending. by rewrite lookup_delete_ne.
Qed.

(** A peer that applies or crashes. *)
Lemma touched_in_step n V c c' A G ev j rf' ch rs :
  safety_inv n V A G c → cluster_inv n V c → no_snap_state c → touches ev j → cexec ev c = Ret c' →
  c'.(nodes) !! j = Some rf' →
  (∀ rf, c.(nodes) !! j = Some rf → in_step n A G rf.(lastApplied) rs (pending ch j)) →
  in_step n A G rf'.(lastApplied) rs (pending (chan_after ev c ch) j).
Proof.
  intros Hinv Hci Hns Ht Hr Hj Hold.
  assert (∀ rf rf0 now, c.(nodes) !! j = Some rf → durable rf0 → rf0.(snapshotIndex) = 0 →
    in_step n A G (restart now rf0).(lastApplied) rs (pending (delete j ch) j)) as Hcrash.
  { intros rf rf0 now _ Hd Hs. rewrite restart_eq by done. cbn. rewrite Hs.
    exists 0. split_and!; [done|done|intros; lia|]. unfold pending. rewrite lookup_delete_eq. constructor. }
  destruct ev as [k now|i now|i|k srv|i|i|i command|i index data|i|i now|i term now];
    cbn in Ht; try done; subst i; cbn [cexec chan_after] in *; unfold on_node in Hr.
  all: destruct (c.(nodes) !! j) as [rf|] eqn:Hi; [|injection Hr as <-; congruence].
  all: destruct (ci_nodes _ _ _ Hci _ _ Hi) as [_ _ _ Hd]; destruct (nn_nodes _ Hns _ _ Hi) as [Hs _].
  all: apply fmap_Ret_inv in Hr as (r & Hr & <-); cbn in Hj; rewrite lookup_insert_eq in Hj;
    injection Hj as <-.
  - cbn. rewrite Hr. unfold push. rewrite pending_insert, decide_True by done.
    destruct (applyCommitted_deliverable _ _ _ _ _ _ _ _ Hinv Hci Hi Hs Hr) as [Hle Hms].
    eapply in_step_app; [done|by apply Hold|done].
  - injection Hr as <-. by eapply Hcrash.
  - injection Hr as <-. eapply Hcrash; [done|by apply observeTerm_durable|].
    by destruct (observeTerm_unmoved term rf) as (_ & -> & _).
Qed.

(** No peer disappears, and only a peer sends on its channel. *)
Lemma on_node_dom {B} c i (f : Raft Cmd → go B) kont c' j :
  on_node c i f kont = Ret c' →
  (∀ a, (kont a).(nodes) = c.(nodes) ∨ ∃ rf, (kont a).(nodes) = <[i := rf]> c.(nodes)) →
  is_Some (c.(nodes) !! j) → is_Some (c'.(nodes) !! j).
Proof.
  intros Hr Hk Hj. apply on_node_inv in Hr as [->|(rf & a & _ & _ & ->)]; [done|].
  destruct (Hk a) as [->|[rf' ->]]; [done|]. rewrite lookup_insert_is_Some'. by right.
Qed.

Lemma cexec_dom ev c c' j : cexec ev c = Ret c' → is_Some (c.(nodes) !! j) → is_Some (c'.(nodes) !! j).
Proof.
  destruct ev; cbn; intros Hr.
  2-3,5-11: eapply on_node_dom; [exact Hr|]; cbn; intros a; first [by right; eexists|destruct a; by left].
  - destruct (net c !! k) as [[]|]; cbn in Hr; [|..|by injection Hr as <-].
    2: { unfold deliverVote in Hr.
      destruct (elections c !! _); [destruct (bool_decide _)|]; [|by injection Hr as <-..].
      eapply on_node_dom; [exact Hr|]. right. by eexists. }
    all: eapply on_node_dom; [exact Hr|]; intros a; right; by eexists.
  - destruct (heartbeats c !! k) as [[i hb]|]; [destruct (bool_decide _)|]; [|by injection Hr as <-..].
    eapply on_node_dom; [exact Hr|]. intros [m|]; by left.
Qed.

Lemma push_dom c i ms ch j :
  is_Some (c.(nodes) !! i) → pending (push i ms ch) j ≠ [] →
  pending ch j ≠ [] ∨ is_Some (c.(nodes) !! j).
Proof. intros Hi. unfold push. rewrite pending_insert. case_decide as E; [subst; by right|by left]. Qed.

Lemma chan_after_dom ev c ch j :
  pending (chan_after ev c ch) j ≠ [] → pending ch j ≠ [] ∨ is_Some (c.(nodes) !! j).
Proof.
  assert (∀ i, pending (delete i ch) j ≠ [] → pending ch j ≠ []) as Hdel.
  { intros i. unfold pending. rewrite lookup_delete. by case_decide. }
  destruct ev; cbn; intros Hj; try by left.
  - destruct (net c !! k) as [[]|]; try by left.
    destruct (nodes c !! dst) eqn:Hi; [|by left]. cbn in Hj.
    destruct (InstallSnapshot _ _ _); [|by left..]. eapply push_dom; [|done]. by eexists.
  - destruct (nodes c !! i) eqn:Hi; [|by left]. cbn in Hj.
    destruct (applyCommitted _); [|by left..]. eapply push_dom; [|done]. by eexists.
  - left. by eapply Hdel.
  - left. by eapply Hdel.
Qed.

Lemma raft_step n A G s ev :
  0 ≤ n → no_snapshot ev → tested_inv n A G s →
  returns (tested_step s (TRaft ev)) (λ s', ∃ A' G', tested_inv n A' G' s').
Proof.
  intros Hn Hev [(V & Hci & Hinv) Hns Hlen Hsrvs Hgaps Hnodes Hchan]. destruct s as [c ch ts]. cbn in *.
  destruct (cexec_inv n V c ev Hci) as (c' & Hr & _). rewrite Hr. cbn.
  destruct (crun_safe n c c' A G [ev]) as (A' & G' & HA & HG & Hs');
    [done|by apply no_snapshot_ok; constructor|by exists V| |].
  { cbn. by rewrite Hr. }
  pose proof (nn_net _ Hns) as Hno.
  apply returns_Ret. exists A', G'. constructor; cbn; [done|by eapply no_snap_step|done| |done| |].
  - intros i rs Hi. destruct (Hsrvs i rs Hi) as [? Hall]. split; [done|]. intros k v Hk.
    by eapply committed_value_mono, Hall.
  - intros j rf' Hj rs Hrs. eapply in_step_mono; [done..|].
    destruct (decide (touches ev j)) as [Ht|Ht].
    + eapply touched_in_step; try done. intros rf Hi. by apply Hnodes.
    + rewrite chan_after_other by done.
      destruct (cexec_unmoved ev c c' Hev Hno Hr j rf' Ht Hj) as (rf & Hi & -> & _). by apply Hnodes.
  - intros i [?|?]%chan_after_dom; (eapply cexec_dom; [done|]); auto.
Qed.

(** *** A report *)

Lemma report_step n A G s i :
  0 ≤ n → tested_inv n A G s → returns (report_next i s) (tested_inv n A G).
Proof.
  intros Hn [Hst Hns Hlen Hsrvs Hgaps Hnodes Hchan]. destruct s as [c ch ts]. cbn in *. unfold report_next. cbn.
  destruct (pending ch i) as [|m ms] eqn:Hp; [by apply returns_Ret|].
  destruct (Hchan i) as [rf Hi]; [by rewrite Hp|].
  destruct Hst as (V & Hci & Hinv). destruct (ci_nodes _ _ _ Hci _ _ Hi) as [Hme Hnp Hwf _].
  destruct (zlookup_is_Some ts.(t_srvs) i) as [rs Hrs]; [destruct Hwf; lia|].
  destruct (Hnodes i rf Hi rs Hrs) as (f & Hf & Hlog & Hms). rewrite Hp in Hms.
  assert (f < rf.(lastApplied)) as Hlt.
  { apply Forall2_length in Hms. rewrite length_seqZ in Hms. cbn in Hms. lia. }
  rewrite seqZ_cons in Hms by lia. apply Forall2_cons in Hms as [(Hv & Hidx & Hval) Hms].
  destruct (check_event_ok ts (mkCheckEvent _ i m RpcOk RpcOk) rs) as (ts1 & E1 & Es); cbn; try done.
  { intros rs0 [j Hj]%zlookup_elem_of old Hold. destruct (Hsrvs j rs0 Hj) as [_ Hall].
    rewrite Hidx in Hold. eapply (committed_value_unique n A G c (f + 1)); [done|by exists V|by apply Hall|done]. }
  { rewrite Hidx. intros H1'. replace (f + 1 - 1) with f by lia. apply Hlog. lia. }
  cbn in E1, Es. rewrite E1. apply returns_Ret.
  assert (∀ j rs', ts1.(t_srvs).[j] = Some rs' → j = i ∧ rs' = rs <| logs := <[f + 1 := m.(am_Command)]> rs.(logs) |>
    ∨ j ≠ i ∧ ts.(t_srvs).[j] = Some rs') as Hsrv'.
  { intros j rs'. rewrite Es, zlookup_insert by by eapply zlookup_lt_Some.
    rewrite Hidx. case_decide; [intros [= <-]; left; by subst|right; by auto]. }
  constructor; cbn; [by exists V|done|by rewrite Es, glen_insert| | | |].
  - intros j rs' [[-> ->]|[_ Hj]]%Hsrv'; [|by eapply Hsrvs]. cbn. split; [by eapply Hsrvs|].
    intros k v. rewrite lookup_insert. case_decide; [intros [= <-]; by subst k|by eapply Hsrvs].
  - intros rs' k v [j Hj]%zlookup_elem_of Hk H1'. apply Hsrv' in Hj as [[-> ->]|[_ Hj]].
    + cbn in *. rewrite lookup_insert_is_Some'. right. destruct (decide (k = f + 1)) as [->|Hne].
      * apply Hlog. lia.
      * rewrite lookup_insert_ne in Hk by done. eapply Hgaps; [|done..]. apply zlookup_elem_of. by exists i.
    + eapply Hgaps; [|done..]. apply zlookup_elem_of. by exists j.
  - intros j rf' Hj rs' [[-> ->]|[Hne Hj']]%Hsrv'; rewrite pending_insert.
    + rewrite decide_True by done. rewrite Hi in Hj. injection Hj as <-. exists (f + 1). cbn.
      split; [lia|]. split.
      * intros k Hk. rewrite lookup_insert_is_Some'. destruct (decide (k = f + 1)); [by left|right].
        apply Hlog. lia.
      * replace (Z.pred (rf.(lastApplied) - f)) with (rf.(lastApplied) - (f + 1)) in Hms by lia.
        by replace (Z.succ (f + 1)) with (f + 1 + 1) in Hms by lia.
    + rewrite decide_False by done. by apply Hnodes.
  - intros j. rewrite pending_insert. case_decide; [intros _; subst; by exists rf|by apply Hchan].
Qed.

(** ** The theorem *)

Lemma tested_run_inv n A G s evs :
  0 ≤ n → Forall tested_no_snapshot evs → tested_inv n A G s →
  returns (tested_run evs s) (λ s', ∃ A' G', tested_inv n A' G' s').
Proof.
  intros Hn. unfold tested_run. revert A G s. induction evs as [|ev evs IH]; intros A G s Hevs Hs; cbn.
  { apply returns_Ret. by exists A, G. }
  apply Forall_cons in Hevs as [Hev Hevs]. eapply returns_bind with (P := λ s', ∃ A' G', tested_inv n A' G' s').
  - destruct ev as [ev|i]; [by eapply raft_step|]. eapply returns_mono; [by eapply report_step|]. eauto.
  - intros s' (A' & G' & Hs'). by eapply IH.
Qed.

Lemma tested_boot_inv n now : 0 ≤ n → tested_inv n [] ∅ (tested_boot n now).
Proof.
  intros Hn. assert (∀ i rs, (makeTest (Cmd := Cmd) n).(t_srvs).[i] = Some rs → rs = newRaftServer) as Hnew.
  { intros i rs Hi. assert (rs ∈ (makeTest (Cmd := Cmd) n).(t_srvs)) as Hin by (apply zlookup_elem_of; by exists i).
    by apply elem_of_replicate in Hin as [-> _]. }
  constructor; cbn [tested_boot tc_cluster tc_chan tc_test].
  - by apply boot_safe.
  - constructor; [|by intros ? ? ?%not_elem_of_nil..]. intros i rf [_ ->]%cluster_boot_lookup. by rewrite boot_eq.
  - cbn. rewrite glen_replicate. lia.
  - intros i rs ->%Hnew. split; [done|]. intros k v. cbn. by rewrite lookup_empty.
  - intros rs k v [i ->%Hnew]%zlookup_elem_of. cbn. by rewrite lookup_empty.
  - intros i rf [_ ->]%cluster_boot_lookup rs _. rewrite boot_eq. exists 0. cbn.
    split_and!; [done|done|intros; lia|]. constructor.
  - intros i. unfold pending. by rewrite lookup_empty.
Qed.

(** Counting the commits at an index does not end the test. *)
Lemma nCommitted_returns k ts :
  no_errors ts → logs_agree ts → returns (nCommitted k ts) (λ _, True).
Proof.
  intros Hno Hag. unfold nCommitted.
  assert (∀ l st, (∀ rs, rs ∈ l → rs ∈ ts.(t_srvs)) →
    (0 < st.1 → ∃ rs, rs ∈ ts.(t_srvs) ∧ rs.(logs) !! k = Some st.2) →
    returns (foldM (count_commit k) st l) (λ _, True)) as Hall.
  { induction l as [|rs l IH]; intros [cnt v] Hsub Hst; cbn [foldM]; [by apply returns_Ret|].
    assert (rs ∈ ts.(t_srvs)) as Hin by (apply Hsub; left).
    assert (count_commit k (cnt, v) rs =
      Ret (match rs.(logs) !! k with Some v' => (cnt + 1, v') | None => (cnt, v) end)) as ->.
    { unfold count_commit, entry. rewrite bool_decide_true by by apply Hno. cbn.
      destruct (rs.(logs) !! k) as [v'|] eqn:Hv; [|done]. destruct (Z.ltb_spec 0 cnt) as [Hc|]; [|done].
      destruct (Hst Hc) as (rs0 & Hin0 & Hv0). rewrite bool_decide_true; [done|].
      by apply (Hag rs0 rs k). }
    cbn [mbind go_bind]. apply IH; [intros; apply Hsub; by right|].
    destruct (rs.(logs) !! k) as [v'|] eqn:Hv; [intros _; by exists rs|done]. }
  apply Hall; [done|]. cbn. lia.
Qed.

(** C4. The tester's checks of what is applied hold for Raft. In every execution
    of a cluster whose services take no snapshots (any message loss,
    duplication, reordering and crashes; the reports arrive, each as late as it
    may), no step panics, the handlers [CheckLogs] and [ApplyErr] record no error,
    no two copies of servers' logs differ at an index or have a gap, and counting
    the commits at an index ([nCommitted]) never ends the test. The checks that
    wait for a leader or an agreement ([checkOneLeader], [checkTerms],
    [checkNoAgreement], [one], [wait]) are not part of it. *)
Theorem raft_passes_tester n now (evs : list (TestedEvent Cmd)) :
  0 ≤ n → Forall tested_no_snapshot evs →
  returns (tested_run evs (tested_boot n now)) (λ s,
    no_errors s.(tc_test) ∧ logs_agree s.(tc_test) ∧ logs_contiguous s.(tc_test) ∧
    ∀ k, returns (nCommitted k s.(tc_test)) (λ _, True)).
Proof.
  intros Hn Hevs. eapply returns_mono; [by eapply tested_run_inv, tested_boot_inv|].
  intros s (A & G & [Hst _ _ Hsrvs Hgaps _ _]).
  assert (no_errors s.(tc_test)) as Hno by (intros rs [i Hi]%zlookup_elem_of; by eapply Hsrvs).
  assert (logs_agree s.(tc_test)) as Hag.
  { intros rs rs' k v v' [i Hi]%zlookup_elem_of [j Hj]%zlookup_elem_of Hv Hv'.
    apply (committed_value_unique n A G s.(tc_cluster) k); [done..| |].
    - by apply (Hsrvs i rs Hi).
    - by apply (Hsrvs j rs' Hj). }
  split_and!; [done..|]. intros k. by apply nCommitted_returns.
Qed.
End tested.
