(* ===== verification/Demux.v ===== *)
(** * Multiplexed calls over a socket: [tester1/demux/]

    [transport.go] frames messages on a byte stream; [dmxclnt.go] and
    [callmap.go] let many goroutines call over one connection and match the
    replies by tag; [dmxsrv.go] serves each request in a goroutine of its own.
    The system below interleaves the steps of all of them: an event is one
    lock region, one frame read or written, or one failure. A write that fails
    sends nothing; a read of an incomplete frame blocks. *)

From S2P Require Import Prelude Gob LabRpc.
From Stdlib Require Import Strings.Byte.

(** ** Frames *)

Record msg := mkMsg { Tag : Z; m_Data : bytes; m_Ok : bool }.

#[export] Instance msg_eq_dec : EqDecision msg.
Proof. solve_decision. Defined.

Definition byte_of (z : Z) : Byte.byte := default Byte.x00 (Byte.of_N (Z.to_N (z mod 256))).
Definition byte_val (b : Byte.byte) : Z := Z.of_N (Byte.to_N b).

(** [binary.Write] and [binary.Read] of a [uint32], little-endian. *)
Definition put_uint32 (n : Z) : bytes :=
  [byte_of n; byte_of (n / 2 ^ 8); byte_of (n / 2 ^ 16); byte_of (n / 2 ^ 24)].
Definition get_uint32 (b0 b1 b2 b3 : Byte.byte) : Z :=
  byte_val b0 + byte_val b1 * 2 ^ 8 + byte_val b2 * 2 ^ 16 + byte_val b3 * 2 ^ 24.

Section transport.
Context `{GobCodec msg}.

(** [WriteCall]: the bytes sent; [uint32(len(b))] truncates. *)
Definition frame (m : msg) : bytes :=
  let b := Marshall m in put_uint32 (glen b mod 2 ^ 32) ++ b.
Definition WriteCall (tag : Z) (d : bytes) (ok : bool) (wire : bytes) : bytes :=
  wire ++ frame (mkMsg tag d ok).

Inductive ReadResult :=
  | RdBlocked                       (* waits for more bytes *)
  | RdError                         (* end of the stream *)
  | RdMsg (m : go msg) (rest : bytes).

(** [eof]: the other end closed the connection. *)
Definition ReadCall (eof : bool) (wire : bytes) : ReadResult :=
  let short := if eof then RdError else RdBlocked in
  match wire with
  | b0 :: b1 :: b2 :: b3 :: rest =>
    let nbyte := get_uint32 b0 b1 b2 b3 in
    if glen rest <? nbyte then short
    else RdMsg (Unmarshall (take (Z.to_nat nbyte) rest)) (drop (Z.to_nat nbyte) rest)
  | _ => short
  end.

Definition fits (m : msg) : bool := glen (Encode m) <? 2 ^ 32.

Lemma byte_of_val z : byte_val (byte_of z) = z mod 256.
Proof.
  unfold byte_val, byte_of. pose proof (Z.mod_pos_bound z 256 ltac:(lia)) as Hb.
  destruct (Byte.of_N (Z.to_N (z mod 256))) as [b|] eqn:E; cbn [default from_option id].
  - apply Byte.to_of_N in E. rewrite E. lia.
  - apply Byte.of_N_None_iff in E. lia.
Qed.

Lemma get_put_uint32 n :
  0 ≤ n < 2 ^ 32 →
  get_uint32 (byte_of n) (byte_of (n / 2 ^ 8)) (byte_of (n / 2 ^ 16)) (byte_of (n / 2 ^ 24)) = n.
Proof.
  intros Hn. unfold get_uint32. rewrite !byte_of_val.
  assert (n / 2 ^ 16 = n / 2 ^ 8 / 2 ^ 8) as E16 by (by rewrite Z.div_div).
  assert (n / 2 ^ 24 = n / 2 ^ 8 / 2 ^ 8 / 2 ^ 8) as E24 by (by rewrite !Z.div_div).
  rewrite E16, E24. change 256 with (2 ^ 8).
  pose proof (Z.div_mod n (2 ^ 8) ltac:(lia)). pose proof (Z.div_mod (n / 2 ^ 8) (2 ^ 8) ltac:(lia)).
  pose proof (Z.div_mod (n / 2 ^ 8 / 2 ^ 8) (2 ^ 8) ltac:(lia)).
  assert (n / 2 ^ 8 / 2 ^ 8 / 2 ^ 8 < 2 ^ 8) by (rewrite !Z.div_div by lia; apply Z.div_lt_upper_bound; lia).
  assert (0 ≤ n / 2 ^ 8 / 2 ^ 8 / 2 ^ 8) by (rewrite !Z.div_div by lia; apply Z.div_pos; lia).
  rewrite (Z.mod_small (n / 2 ^ 8 / 2 ^ 8 / 2 ^ 8)) by lia. lia.
Qed.

Context `{!GobLaws msg}.

(** A written message is read back, with the rest of the stream; a proper
    prefix of a frame is not read. *)
Lemma ReadCall_frame eof m rest :
  fits m = true → ReadCall eof (frame m ++ rest) = RdMsg (Ret m) rest.
Proof.
  intros Hf%Z.ltb_lt. pose proof (glen_nonneg (Encode m)) as H0. unfold frame, Marshall.
  rewrite (Z.mod_small (glen (Encode m))) by lia. unfold put_uint32. cbn [app ReadCall].
  rewrite get_put_uint32 by lia.
  assert (glen (Encode m ++ rest) = glen (Encode m) + glen rest) as Hl by apply glen_app.
  pose proof (glen_nonneg rest). destruct (Z.ltb_spec (glen (Encode m ++ rest)) (glen (Encode m))); [lia|].
  unfold Unmarshall. f_equal.
  - rewrite take_app_length' by (unfold glen; lia). by rewrite Decode_Encode_nil.
  - by rewrite drop_app_length' by (unfold glen; lia).
Qed.
End transport.

(** ** Client and server on one connection *)

(** A call in [SendReceive]: it has its tag; it is in the call map; it has
    written its request and waits on its channel; it returned. *)
Inductive CallState :=
  | CTagged
  | CPut
  | CWaiting
  | CDone (rep : bytes) (ok err : bool).

Record Call := mkCall { ca_tag : Z; ca_req : bytes; ca_state : CallState }.

Definition u32 (z : Z) : Z := z mod 2 ^ 32.

(** [d_calls]: tag to call (the channel). [d_outstanding]: the tags the reader
    still has to fail after an error. [d_log] records, for the theorems only,
    the requests served with their replies. *)
Record DSys {W : Type} := mkDSys {
  d_nextTag : Z;
  d_closed : bool;
  d_calls : gmap Z Z;
  d_pend : gmap Z Call;
  d_reading : bool;
  d_outstanding : option (list Z);
  d_c2s : bytes;
  d_s2c : bytes;
  d_handlers : list (Z * bytes);
  d_world : W;
  d_log : list (Z * bytes * bytes * bool);
}.
Arguments DSys : clear implicits.

Inductive DEvent :=
  | DCall (id : Z) (b : bytes)       (* a goroutine calls [SendReceive] *)
  | DPut (id : Z)
  | DWrite (id : Z) (fails : bool)
  | DSrvRead                          (* the server's reader *)
  | DServe (k : nat) (fails : bool)   (* the [k]th handler goroutine *)
  | DRead                             (* the client's reader *)
  | DReadErr
  | DOutstanding
  | DFail
  | DClose.

Section demux.
Context {W : Type} `{GobCodec msg}.
Context (clntEnd : string) (ServeRequest : W → string → bytes → W * (bytes * bool)).

Definition set_calls (calls : gmap Z Z) (s : DSys W) : DSys W :=
  mkDSys _ s.(d_nextTag) s.(d_closed) calls s.(d_pend) s.(d_reading) s.(d_outstanding)
    s.(d_c2s) s.(d_s2c) s.(d_handlers) s.(d_world) s.(d_log).
Definition set_pend (id : Z) (c : Call) (s : DSys W) : DSys W :=
  mkDSys _ s.(d_nextTag) s.(d_closed) s.(d_calls) (<[id := c]> s.(d_pend)) s.(d_reading) s.(d_outstanding)
    s.(d_c2s) s.(d_s2c) s.(d_handlers) s.(d_world) s.(d_log).
Definition set_state (id : Z) (c : Call) (st : CallState) (s : DSys W) : DSys W :=
  set_pend id (mkCall c.(ca_tag) c.(ca_req) st) s.

(** [callMap] *)
Definition cm_close (s : DSys W) : DSys W :=
  mkDSys _ s.(d_nextTag) true s.(d_calls) s.(d_pend) s.(d_reading) s.(d_outstanding)
    s.(d_c2s) s.(d_s2c) s.(d_handlers) s.(d_world) s.(d_log).
Definition cm_put (tag ch : Z) (s : DSys W) : option (DSys W) :=
  if s.(d_closed) then None else Some (set_calls (<[tag := ch]> s.(d_calls)) s).
Definition cm_remove (tag : Z) (s : DSys W) : option (Z * DSys W) :=
  match s.(d_calls) !! tag with
  | Some ch => Some (ch, set_calls (delete tag s.(d_calls)) s)
  | None => None
  end.
Definition cm_outstanding (s : DSys W) : list Z := (map_to_list s.(d_calls)).*1.

(** [tag()] *)
Definition take_tag (s : DSys W) : Z * DSys W :=
  (s.(d_nextTag), mkDSys _ (u32 (s.(d_nextTag) + 1)) s.(d_closed) s.(d_calls) s.(d_pend) s.(d_reading)
     s.(d_outstanding) s.(d_c2s) s.(d_s2c) s.(d_handlers) s.(d_world) s.(d_log)).

(** [reply]: sends on the channel of the call, which must be waiting. *)
Definition reply (tag : Z) (b : bytes) (oks err : bool) (s : DSys W) : go (DSys W) :=
  match cm_remove tag s with
  | Some (id, s') =>
    match s.(d_pend) !! id with
    | Some c => match c.(ca_state) with
                | CWaiting => Ret (set_state id c (CDone b oks err) s')
                | _ => Ret s
                end
    | None => Ret s
    end
  | None => Fatal
  end.

(** [SendReceive], step by step. *)
Definition start_call (id : Z) (b : bytes) (s : DSys W) : DSys W :=
  let '(t, s) := take_tag s in set_pend id (mkCall t b CTagged) s.
Definition put_call (id : Z) (c : Call) (s : DSys W) : DSys W :=
  match cm_put c.(ca_tag) id s with
  | None => set_state id c (CDone [] false true) s
  | Some s => set_state id c CPut s
  end.
Definition write_call (id : Z) (c : Call) (fails : bool) (s : DSys W) : DSys W :=
  let s := set_state id c CWaiting s in
  if fails then s
  else mkDSys _ s.(d_nextTag) s.(d_closed) s.(d_calls) s.(d_pend) s.(d_reading) s.(d_outstanding)
         (WriteCall c.(ca_tag) c.(ca_req) true s.(d_c2s)) s.(d_s2c) s.(d_handlers) s.(d_world) s.(d_log).

(** The server's [reader] starts a goroutine per request. *)
Definition srv_read (s : DSys W) : go (DSys W) :=
  match ReadCall false s.(d_c2s) with
  | RdMsg m rest =>
    m ← m;
    Ret (mkDSys _ s.(d_nextTag) s.(d_closed) s.(d_calls) s.(d_pend) s.(d_reading) s.(d_outstanding)
           rest s.(d_s2c) (s.(d_handlers) ++ [(m.(Tag), m.(m_Data))]) s.(d_world) s.(d_log))
  | _ => Ret s
  end.
Definition serve (k : nat) (h : Z * bytes) (fails : bool) (s : DSys W) : DSys W :=
  let '(w, (rep, ok)) := ServeRequest s.(d_world) clntEnd h.2 in
  mkDSys _ s.(d_nextTag) s.(d_closed) s.(d_calls) s.(d_pend) s.(d_reading) s.(d_outstanding)
    s.(d_c2s) (if fails then s.(d_s2c) else WriteCall h.1 rep ok s.(d_s2c))
    (delete k s.(d_handlers)) w (s.(d_log) ++ [(h.1, h.2, rep, ok)]).

(** Whether the send on the channel of the call with tag [t] can proceed. *)
Definition waits (t : Z) (s : DSys W) : bool :=
  match s.(d_calls) !! t with
  | Some id => match s.(d_pend) !! id with
               | Some c => match c.(ca_state) with CWaiting => true | _ => false end
               | None => false end
  | None => true
  end.

(** The client's [reader]. *)
Definition clnt_read (s : DSys W) : go (DSys W) :=
  if s.(d_reading) then
    match ReadCall false s.(d_s2c) with
    | RdMsg m rest =>
      m ← m;
      if waits m.(Tag) s then
        reply m.(Tag) m.(m_Data) m.(m_Ok) false
          (mkDSys _ s.(d_nextTag) s.(d_closed) s.(d_calls) s.(d_pend) s.(d_reading) s.(d_outstanding)
             s.(d_c2s) rest s.(d_handlers) s.(d_world) s.(d_log))
      else Ret s
    | _ => Ret s
    end
  else Ret s.
Definition clnt_read_err (s : DSys W) : DSys W :=
  if s.(d_reading) then
    let s := cm_close s in
    mkDSys _ s.(d_nextTag) s.(d_closed) s.(d_calls) s.(d_pend) false s.(d_outstanding)
      s.(d_c2s) s.(d_s2c) s.(d_handlers) s.(d_world) s.(d_log)
  else s.
Definition set_outstanding (ts : list Z) (s : DSys W) : DSys W :=
  mkDSys _ s.(d_nextTag) s.(d_closed) s.(d_calls) s.(d_pend) s.(d_reading) (Some ts)
    s.(d_c2s) s.(d_s2c) s.(d_handlers) s.(d_world) s.(d_log).
Definition take_outstanding (s : DSys W) : DSys W :=
  match s.(d_reading), s.(d_outstanding) with
  | false, None => set_outstanding (cm_outstanding s) s
  | _, _ => s
  end.
Definition fail_one (s : DSys W) : go (DSys W) :=
  match s.(d_outstanding) with
  | Some (t :: ts) =>
    if waits t s then reply t [] false true (set_outstanding ts s) else Ret s
  | _ => Ret s
  end.

Definition with_call (id : Z) (s : DSys W) (f : Call → go (DSys W)) : go (DSys W) :=
  match s.(d_pend) !! id with Some c => f c | None => Ret s end.

Definition dstep (e : DEvent) (s : DSys W) : go (DSys W) :=
  match e with
  | DCall id b => match s.(d_pend) !! id with Some _ => Ret s | None => Ret (start_call id b s) end
  | DPut id => with_call id s (λ c, Ret (match c.(ca_state) with CTagged => put_call id c s | _ => s end))
  | DWrite id fails =>
      with_call id s (λ c, Ret (match c.(ca_state) with CPut => write_call id c fails s | _ => s end))
  | DSrvRead => srv_read s
  | DServe k fails => Ret (match s.(d_handlers) !! k with Some h => serve k h fails s | None => s end)
  | DRead => clnt_read s
  | DReadErr => Ret (clnt_read_err s)
  | DOutstanding => Ret (take_outstanding s)
  | DFail => fail_one s
  | DClose => Ret (if s.(d_closed) then s else cm_close s)
  end.

Fixpoint drun (evs : list DEvent) (s : DSys W) : go (DSys W) :=
  match evs with
  | [] => Ret s
  | e :: evs => s ← dstep e s; drun evs s
  end.

(** [NewDemuxClnt] takes the first tag for its [InitMsg], which [NewDemuxSrv]
    reads before the server's reader starts. *)
Definition dsys_init (w : W) : DSys W :=
  mkDSys _ 1 false ∅ ∅ true None [] [] [] w [].

(** The messages of the run fit in a frame. *)
Definition step_fits (e : DEvent) (s : DSys W) : bool :=
  match e with
  | DWrite id _ => match s.(d_pend) !! id with Some c => fits (mkMsg c.(ca_tag) c.(ca_req) true) | None => true end
  | DServe k _ =>
    match s.(d_handlers) !! k with
    | Some h => let r := (ServeRequest s.(d_world) clntEnd h.2).2 in fits (mkMsg h.1 r.1 r.2)
    | None => true
    end
  | _ => true
  end.
Fixpoint run_fits (evs : list DEvent) (s : DSys W) : bool :=
  match evs with
  | [] => true
  | e :: evs => step_fits e s && match dstep e s with Ret s => run_fits evs s | _ => true end
  end.
End demux.

(** ** Replies match requests *)

Section demux_inv.
Context {W : Type} `{GobLaws msg}.
Context (clntEnd : string) (ServeRequest : W → string → bytes → W * (bytes * bool)).
Implicit Types (s : DSys W) (id t : Z) (c : Call).

Definition in_map (st : CallState) : Prop := st = CPut ∨ st = CWaiting.

(** The frames in transit, as messages: requests [cq] (all with [Ok] true) and
    replies [sq]. *)
Definition req_msg (q : Z * bytes) : msg := mkMsg q.1 q.2 true.
Definition rep_msg (q : Z * bytes * bool) : msg := mkMsg q.1.1 q.1.2 q.2.
Definition wire (ms : list msg) : bytes := concat (frame <$> ms).
Definition served (x : Z * bytes * bytes * bool) : Z * bytes := (x.1.1.1, x.1.1.2).

(** The calls that were sent, in transit to the server, in a handler, or
    served. *)
Definition sent (cq : list (Z * bytes)) s : list (Z * bytes) :=
  cq ++ s.(d_handlers) ++ (served <$> s.(d_log)).

Record dinv (cq : list (Z * bytes)) (sq : list (Z * bytes * bool)) s : Prop := {
  v_tag : ∀ id c, s.(d_pend) !! id = Some c → c.(ca_tag) < 1 + Z.of_nat (size s.(d_pend));
  v_next : s.(d_nextTag) = u32 (1 + Z.of_nat (size s.(d_pend)));
  v_uniq : ∀ id id' c c', s.(d_pend) !! id = Some c → s.(d_pend) !! id' = Some c' →
    c.(ca_tag) = c'.(ca_tag) → id = id';
  v_calls : ∀ t id, s.(d_calls) !! t = Some id ↔
    ∃ c, s.(d_pend) !! id = Some c ∧ c.(ca_tag) = t ∧ in_map c.(ca_state);
  v_c2s : s.(d_c2s) = wire (req_msg <$> cq) ∧ Forall (λ q, fits (req_msg q) = true) cq;
  v_s2c : s.(d_s2c) = wire (rep_msg <$> sq) ∧ Forall (λ q, fits (rep_msg q) = true) sq;
  v_nodup : NoDup (sent cq s).*1;
  v_sent : ∀ q, q ∈ sent cq s → ∃ id c, s.(d_pend) !! id = Some c ∧ c.(ca_tag) = q.1 ∧ c.(ca_req) = q.2 ∧
    (c.(ca_state) = CWaiting ∨ ∃ rep ok err, c.(ca_state) = CDone rep ok err);
  v_live : s.(d_reading) = true → ∀ q, q ∈ cq ++ s.(d_handlers) →
    ∃ id c, s.(d_pend) !! id = Some c ∧ c.(ca_tag) = q.1 ∧ c.(ca_state) = CWaiting;
  v_sq_nodup : NoDup (fst <$> (fst <$> sq));
  v_sq : ∀ q, q ∈ sq → (∃ b, (q.1.1, b, q.1.2, q.2) ∈ s.(d_log)) ∧
    (s.(d_reading) = true → ∃ id c, s.(d_pend) !! id = Some c ∧ c.(ca_tag) = q.1.1 ∧ c.(ca_state) = CWaiting);
  v_done : ∀ id c rep ok, s.(d_pend) !! id = Some c → c.(ca_state) = CDone rep ok false →
    (c.(ca_tag), c.(ca_req), rep, ok) ∈ s.(d_log);
  v_closed : s.(d_reading) = false → s.(d_closed) = true;
  v_out : ∀ ts, s.(d_outstanding) = Some ts → s.(d_reading) = false ∧ NoDup ts ∧
    ∀ t, t ∈ ts ↔ is_Some (s.(d_calls) !! t);
}.

Lemma wire_cons m ms : wire (m :: ms) = frame m ++ wire ms.
Proof. done. Qed.
Lemma wire_snoc ms m : wire (ms ++ [m]) = wire ms ++ frame m.
Proof. unfold wire. rewrite fmap_app, concat_app. cbn. by rewrite app_nil_r. Qed.

Lemma ReadCall_wire eof m ms : fits m = true → ReadCall eof (wire (m :: ms)) = RdMsg (Ret m) (wire ms).
Proof. intros Hf. rewrite wire_cons. by apply ReadCall_frame. Qed.

Lemma ReadCall_empty eof : ReadCall eof (wire []) = if eof then RdError else RdBlocked.
Proof. done. Qed.

Lemma dinv_init w : dinv [] [] (dsys_init w).
Proof.
  constructor; cbn; try done; try apply NoDup_nil_2.
  - intros t id. rewrite lookup_empty. split; [done|]. by intros (c & Hc & _).
  - by intros q ?%not_elem_of_nil.
  - by intros _ q ?%not_elem_of_nil.
  - by intros q ?%not_elem_of_nil.
Qed.

(** *** The caller's steps *)

Lemma dinv_call cq sq id b s :
  dinv cq sq s → s.(d_pend) !! id = None → 1 + Z.of_nat (size s.(d_pend)) < 2 ^ 32 →
  dinv cq sq (start_call id b s).
Proof.
  intros Hinv Hid Hn. unfold start_call, take_tag, set_pend. pose proof (v_next _ _ _ Hinv) as Hnext.
  unfold u32 in Hnext. rewrite Z.mod_small in Hnext by lia.
  assert (∀ id' c', <[id := mkCall s.(d_nextTag) b CTagged]> s.(d_pend) !! id' = Some c' →
    (id' = id ∧ c' = mkCall s.(d_nextTag) b CTagged) ∨ (id' ≠ id ∧ s.(d_pend) !! id' = Some c')) as Hl.
  { intros id' c'. rewrite lookup_insert. case_decide; [intros [= <-]; left; by subst|right; by split]. }
  assert (∀ id' c', s.(d_pend) !! id' = Some c' →
    <[id := mkCall s.(d_nextTag) b CTagged]> s.(d_pend) !! id' = Some c') as Hl'.
  { intros id' c' Hc'. rewrite lookup_insert_ne; [done|]. by intros ->; congruence. }
  constructor; cbn [d_nextTag d_closed d_calls d_pend d_reading d_outstanding d_c2s d_s2c d_handlers d_world d_log];
    try (by apply Hinv).
  - intros id' c' Hc'. rewrite map_size_insert_None by done.
    destruct (Hl _ _ Hc') as [[-> ->]|[_ Hc]]; cbn; [lia|]. pose proof (v_tag _ _ _ Hinv _ _ Hc). lia.
  - rewrite map_size_insert_None by done. rewrite Hnext. unfold u32. f_equal. lia.
  - intros i1 i2 c1 c2 H1 H2 Ht. destruct (Hl _ _ H1) as [[-> ->]|[_ Hc1]], (Hl _ _ H2) as [[-> ->]|[_ Hc2]]; cbn in Ht.
    + done.
    + pose proof (v_tag _ _ _ Hinv _ _ Hc2). lia.
    + pose proof (v_tag _ _ _ Hinv _ _ Hc1). lia.
    + by eapply (v_uniq _ _ _ Hinv).
  - intros t id'. rewrite (v_calls _ _ _ Hinv). split.
    + intros (c & Hc & Hrest). exists c. by split; [apply Hl'|].
    + intros (c & Hc & Ht & Hst). destruct (Hl _ _ Hc) as [[-> ->]|[_ Hc']]; [by destruct Hst|by exists c].
  - intros q Hq. destruct (v_sent _ _ _ Hinv q Hq) as (i & c & Hc & Hrest). exists i, c. by split; [apply Hl'|].
  - intros Hr q Hq. destruct (v_live _ _ _ Hinv Hr q Hq) as (i & c & Hc & Hrest). exists i, c. by split; [apply Hl'|].
  - intros q Hq. destruct (v_sq _ _ _ Hinv q Hq) as [? Hlive]. split; [done|]. intros Hr.
    destruct (Hlive Hr) as (i & c & Hc & Hrest). exists i, c. by split; [apply Hl'|].
  - intros i c rep ok Hc Hst. destruct (Hl _ _ Hc) as [[-> ->]|[_ Hc']]; [done|by eapply (v_done _ _ _ Hinv)].
Qed.

(** Changing the state of a call. *)
Lemma set_state_inv id c st (pend : gmap Z Call) id' c' :
  pend !! id = Some c → <[id := mkCall c.(ca_tag) c.(ca_req) st]> pend !! id' = Some c' →
  ∃ c0, pend !! id' = Some c0 ∧ c'.(ca_tag) = c0.(ca_tag) ∧ c'.(ca_req) = c0.(ca_req) ∧
    ((id' = id ∧ c0 = c ∧ c'.(ca_state) = st) ∨ (id' ≠ id ∧ c' = c0)).
Proof.
  intros Hid. rewrite lookup_insert. case_decide as E.
  - intros [= <-]. subst. exists c. split; [done|]. split; [done|]. split; [done|]. by left.
  - intros Hc'. exists c'. split; [done|]. split; [done|]. split; [done|]. by right.
Qed.

Lemma set_state_fwd id c st (pend : gmap Z Call) id' c0 :
  pend !! id = Some c → pend !! id' = Some c0 →
  ∃ c', <[id := mkCall c.(ca_tag) c.(ca_req) st]> pend !! id' = Some c' ∧
    c'.(ca_tag) = c0.(ca_tag) ∧ c'.(ca_req) = c0.(ca_req) ∧
    ((id' = id ∧ c0 = c ∧ c'.(ca_state) = st) ∨ (id' ≠ id ∧ c' = c0)).
Proof.
  intros Hid Hc0. rewrite lookup_insert. case_decide as E.
  - subst. assert (c0 = c) as -> by congruence. eexists. split; [done|]. split; [done|]. split; [done|]. by left.
  - exists c0. split; [done|]. split; [done|]. split; [done|]. by right.
Qed.

Lemma size_set_state id c st (pend : gmap Z Call) :
  pend !! id = Some c → size (<[id := mkCall c.(ca_tag) c.(ca_req) st]> pend) = size pend.
Proof. intros Hid. by rewrite map_size_insert_Some by by eexists. Qed.

(** A call that was not sent has no trace on the wire or at the server. *)
Definition unsent (st : CallState) : Prop := st = CTagged ∨ st = CPut.

Lemma unsent_fresh cq sq s id c :
  dinv cq sq s → s.(d_pend) !! id = Some c → unsent c.(ca_state) → c.(ca_tag) ∉ (sent cq s).*1.
Proof.
  intros Hinv Hid Hu (q & Ht & Hq)%list_elem_of_fmap.
  destruct (v_sent _ _ _ Hinv q Hq) as (i & c' & Hc' & Htag & _ & Hst).
  assert (i = id) as -> by (eapply (v_uniq _ _ _ Hinv); [done..|congruence]).
  rewrite Hid in Hc'. injection Hc' as <-. destruct Hu as [Hu|Hu], Hst as [Hst|(? & ? & ? & Hst)]; congruence.
Qed.

Definition in_mapb (st : CallState) : bool := match st with CPut | CWaiting => true | _ => false end.
Lemma in_mapb_spec st : in_mapb st = true ↔ in_map st.
Proof. unfold in_map. destruct st; cbn; split; intros H'; try done; try tauto; by destruct H'. Qed.

(** Changing the state of one call, with the call map to match. *)
Lemma dinv_set cq sq s id c st calls' out' :
  dinv cq sq s → s.(d_pend) !! id = Some c →
  calls' = (if in_mapb st then <[c.(ca_tag) := id]> s.(d_calls) else delete c.(ca_tag) s.(d_calls)) →
  (c.(ca_tag) ∈ (sent cq s).*1 → st = CWaiting ∨ ∃ rep ok err, st = CDone rep ok err) →
  (s.(d_reading) = true → c.(ca_tag) ∈ (cq ++ s.(d_handlers)).*1 ∨ c.(ca_tag) ∈ fst <$> (fst <$> sq) →
    st = CWaiting) →
  (∀ rep ok, st = CDone rep ok false → (c.(ca_tag), c.(ca_req), rep, ok) ∈ s.(d_log)) →
  (∀ ts, out' = Some ts → s.(d_reading) = false ∧ NoDup ts ∧ ∀ t, t ∈ ts ↔ is_Some (calls' !! t)) →
  dinv cq sq (mkDSys _ s.(d_nextTag) s.(d_closed) calls' (<[id := mkCall c.(ca_tag) c.(ca_req) st]> s.(d_pend))
    s.(d_reading) out' s.(d_c2s) s.(d_s2c) s.(d_handlers) s.(d_world) s.(d_log)).
Proof.
  intros Hinv Hid Hcalls Hsent Hlive Hdone Hout.
  pose proof (λ i c', set_state_inv id c st _ i c' Hid) as Hb.
  pose proof (λ i c', set_state_fwd id c st _ i c' Hid) as Hf.
  pose proof (size_set_state id c st _ Hid) as Hsz.
  constructor; cbn [d_nextTag d_closed d_calls d_pend d_reading d_outstanding d_c2s d_s2c d_handlers d_world d_log];
    try (by apply Hinv); rewrite ?Hsz; try (by apply Hinv); try exact Hout.
  - intros i c' Hc'. destruct (Hb _ _ Hc') as (c0 & Hc0 & -> & _). by apply (v_tag _ _ _ Hinv _ _ Hc0).
  - intros i i' c1 c2 H1 H2 Ht. destruct (Hb _ _ H1) as (c1' & Hc1 & E1 & _), (Hb _ _ H2) as (c2' & Hc2 & E2 & _).
    eapply (v_uniq _ _ _ Hinv); [done..|congruence].
  - intros t i. subst calls'. transitivity (if decide (t = c.(ca_tag)) then i = id ∧ in_map st
                                       else s.(d_calls) !! t = Some i).
    + pose proof (in_mapb_spec st) as Hm.
      destruct (in_mapb st); [rewrite lookup_insert|rewrite lookup_delete];
        destruct (decide (c.(ca_tag) = t)), (decide (t = c.(ca_tag))); try congruence; try done.
      * split; [intros [= <-]; by split; [|apply Hm]|by intros [-> _]].
      * split; [done|]. intros [_ Hst]. by apply Hm in Hst.
    + case_decide as Et.
      * split.
        -- intros [-> Hst]. destruct (Hf id c Hid) as (c' & Hc' & Ht & _ & [(_ & _ & Es)|[? _]]); [|done].
           exists c'. split; [done|]. split; [congruence|by rewrite Es].
        -- intros (c' & Hc' & Ht & Hst). destruct (Hb _ _ Hc') as (c0 & Hc0 & E0 & _ & Hor).
           assert (i = id) as -> by (eapply (v_uniq _ _ _ Hinv); [done..|congruence]).
           split; [done|]. destruct Hor as [(_ & _ & <-)|[? _]]; done.
      * rewrite (v_calls _ _ _ Hinv). split.
        -- intros (c0 & Hc0 & Ht & Hst). destruct (Hf _ _ Hc0) as (c' & Hc' & Ht' & _ & [(_ & -> & _)|[_ ->]]);
             [congruence|]. by exists c0.
        -- intros (c' & Hc' & Ht & Hst). destruct (Hb _ _ Hc') as (c0 & Hc0 & E0 & _ & [(_ & -> & _)|[_ ->]]);
             [congruence|]. by exists c0.
  - intros q Hq. destruct (v_sent _ _ _ Hinv q Hq) as (i & c0 & Hc0 & Ht & Hr & Hst).
    destruct (Hf _ _ Hc0) as (c' & Hc' & E1 & E2 & Hor). exists i, c'. rewrite E1, E2. split; [done|].
    split; [done|]. split; [done|]. destruct Hor as [(-> & -> & ->)|[_ ->]]; [|done].
    apply Hsent, list_elem_of_fmap. by exists q.
  - intros Hrd q Hq. destruct (v_live _ _ _ Hinv Hrd q Hq) as (i & c0 & Hc0 & Ht & Hst).
    destruct (Hf _ _ Hc0) as (c' & Hc' & E1 & E2 & Hor). exists i, c'. rewrite E1. split; [done|].
    split; [done|]. destruct Hor as [(-> & -> & ->)|[_ ->]]; [|done].
    apply (Hlive Hrd). left. apply list_elem_of_fmap. by exists q.
  - intros q Hq. destruct (v_sq _ _ _ Hinv q Hq) as [? Hl]. split; [done|]. intros Hrd.
    destruct (Hl Hrd) as (i & c0 & Hc0 & Ht & Hst).
    destruct (Hf _ _ Hc0) as (c' & Hc' & E1 & E2 & Hor). exists i, c'. rewrite E1. split; [done|].
    split; [done|]. destruct Hor as [(-> & -> & ->)|[_ ->]]; [|done].
    apply (Hlive Hrd). right. apply list_elem_of_fmap. exists q.1. split; [done|].
    apply list_elem_of_fmap. by exists q.
  - intros i c' rep ok Hc' Hst. destruct (Hb _ _ Hc') as (c0 & Hc0 & E1 & E2 & [(-> & -> & Es)|[_ ->]]).
    + rewrite E1, E2. apply Hdone. congruence.
    + by eapply (v_done _ _ _ Hinv).
Qed.

Lemma set_state_eq id c st s :
  set_state id c st s = mkDSys _ s.(d_nextTag) s.(d_closed) s.(d_calls)
    (<[id := mkCall c.(ca_tag) c.(ca_req) st]> s.(d_pend)) s.(d_reading) s.(d_outstanding)
    s.(d_c2s) s.(d_s2c) s.(d_handlers) s.(d_world) s.(d_log).
Proof. done. Qed.

Lemma calls_None cq sq s id c :
  dinv cq sq s → s.(d_pend) !! id = Some c → ¬ in_map c.(ca_state) → s.(d_calls) !! c.(ca_tag) = None.
Proof.
  intros Hinv Hid Hst. destruct (s.(d_calls) !! c.(ca_tag)) as [i|] eqn:E; [|done].
  apply (v_calls _ _ _ Hinv) in E as (c' & Hc' & Ht & Hst').
  assert (i = id) as -> by (by eapply (v_uniq _ _ _ Hinv)). congruence.
Qed.

Lemma sq_served cq sq s t :
  dinv cq sq s → t ∈ fst <$> (fst <$> sq) → t ∈ (served <$> s.(d_log)).*1.
Proof.
  intros Hinv (q1 & -> & (q & -> & Hq)%list_elem_of_fmap)%list_elem_of_fmap.
  destruct (v_sq _ _ _ Hinv q Hq) as [[b Hb] _]. apply list_elem_of_fmap. exists (q.1.1, b). split; [done|].
  apply list_elem_of_fmap. by exists (q.1.1, b, q.1.2, q.2).
Qed.

Lemma dinv_put cq sq s id c :
  dinv cq sq s → s.(d_pend) !! id = Some c → c.(ca_state) = CTagged → dinv cq sq (put_call id c s).
Proof.
  intros Hinv Hid Hst. assert (¬ in_map c.(ca_state)) as Hnm by (intros [?|?]; congruence).
  pose proof (calls_None _ _ _ _ _ Hinv Hid Hnm) as HN.
  pose proof (unsent_fresh _ _ _ _ _ Hinv Hid (or_introl Hst)) as Hfresh.
  assert (c.(ca_tag) ∉ fst <$> (fst <$> sq)) as Hfsq
    by (intros Hx%(sq_served _ _ _ _ Hinv); apply Hfresh; unfold sent; by rewrite !fmap_app, !elem_of_app; auto).
  assert (∀ x : Prop, c.(ca_tag) ∈ (cq ++ s.(d_handlers)).*1 ∨ c.(ca_tag) ∈ fst <$> (fst <$> sq) → x) as Hno.
  { intros x [Hx|Hx]; exfalso; [|by apply Hfsq]. apply Hfresh. unfold sent.
    rewrite app_assoc, fmap_app, elem_of_app. by left. }
  unfold put_call, cm_put. destruct (d_closed s) eqn:Hcl.
  - rewrite set_state_eq. apply dinv_set; [done|done| | | | |].
    + cbn. by rewrite delete_id.
    + intros _. right. by eexists _, _, _.
    + intros _. apply Hno.
    + done.
    + apply (v_out _ _ _ Hinv).
  - rewrite set_state_eq. apply (dinv_set cq sq s id c CPut); [done|done|done|by intros ?| | |].
    + intros _. apply Hno.
    + done.
    + intros ts Hts. destruct (v_out _ _ _ Hinv ts Hts) as [Hr _]. apply (v_closed _ _ _ Hinv) in Hr. congruence.
Qed.

Lemma dinv_write cq sq s id c fails :
  dinv cq sq s → s.(d_pend) !! id = Some c → c.(ca_state) = CPut →
  (fails = false → fits (mkMsg c.(ca_tag) c.(ca_req) true) = true) →
  ∃ cq', dinv cq' sq (write_call id c fails s).
Proof.
  intros Hinv Hid Hst Hfit. assert (in_map c.(ca_state)) as Hm by by left.
  pose proof (unsent_fresh _ _ _ _ _ Hinv Hid (or_intror Hst)) as Hfresh.
  assert (s.(d_calls) !! c.(ca_tag) = Some id) as Hcm by (apply (v_calls _ _ _ Hinv); by exists c).
  assert (dinv cq sq (set_state id c CWaiting s)) as Hinv'.
  { rewrite set_state_eq. apply dinv_set; [done|done| |by left|done|done|apply (v_out _ _ _ Hinv)].
    cbn. by rewrite insert_id. }
  unfold write_call. destruct fails; [by exists cq|]. exists (cq ++ [(c.(ca_tag), c.(ca_req))]).
  assert (sent (cq ++ [(c.(ca_tag), c.(ca_req))]) s ≡ₚ (c.(ca_tag), c.(ca_req)) :: sent cq s) as Hperm
    by (unfold sent; rewrite <-app_assoc; cbn; by rewrite <-Permutation_middle).
  set (c' := mkCall c.(ca_tag) c.(ca_req) CWaiting) in *.
  assert (<[id := c']> s.(d_pend) !! id = Some c') as Hid' by apply lookup_insert_eq.
  destruct Hinv' as [V1 V2 V3 V4 [V5 F5] V6 V7 V8 V9 V10 V11 V12 V13 V14]. cbn in *.
  constructor; cbn; try done.
  - split; [|apply Forall_app; split; [done|by repeat constructor; apply Hfit]].
    rewrite fmap_app. cbn. rewrite wire_snoc. unfold WriteCall. by rewrite V5.
  - unfold sent in *. cbn in *. rewrite Hperm. cbn. by apply NoDup_cons.
  - intros q Hq. unfold sent in *. cbn in *. rewrite Hperm in Hq. apply elem_of_cons in Hq as [->|Hq]; [|by apply V8].
    exists id, c'. split; [done|]. split; [done|]. split; [done|]. by left.
  - intros Hrd q Hq. assert (q = (c.(ca_tag), c.(ca_req)) ∨ q ∈ cq ++ s.(d_handlers)) as [->|Hq']
      by (rewrite !elem_of_app, list_elem_of_singleton in *; tauto); [|by apply V9].
    exists id, c'. done.
Qed.

(** *** The server's steps *)

Lemma dinv_srv_read cq sq s :
  dinv cq sq s → ∃ cq', returns (srv_read s) (dinv cq' sq).
Proof.
  intros Hinv. pose proof (v_c2s _ _ _ Hinv) as [Hw Hf]. unfold srv_read. rewrite Hw.
  destruct cq as [|q cq].
  { exists []. cbn. by apply returns_Ret. }
  inversion Hf as [|? ? Hfq Hf']; subst. rewrite fmap_cons, ReadCall_wire by done. exists cq.
  cbn [mbind go_bind]. apply returns_Ret. destruct q as [t b]. cbn [req_msg Tag m_Data fst snd].
  assert (sent cq (mkDSys _ s.(d_nextTag) s.(d_closed) s.(d_calls) s.(d_pend) s.(d_reading) s.(d_outstanding)
    (wire (req_msg <$> cq)) s.(d_s2c) (s.(d_handlers) ++ [(t, b)]) s.(d_world) s.(d_log)) ≡ₚ sent ((t, b) :: cq) s) as Hperm.
  { unfold sent. cbn. rewrite <-!app_assoc. cbn. by rewrite <-!Permutation_middle. }
  destruct Hinv as [V1 V2 V3 V4 V5 V6 V7 V8 V9 V10 V11 V12 V13 V14].
  constructor; cbn; try done.
  - by rewrite Hperm.
  - intros q Hq. rewrite Hperm in Hq. by apply V8.
  - intros Hrd q Hq. apply (V9 Hrd). rewrite !elem_of_app, list_elem_of_singleton in Hq.
    rewrite elem_of_app, elem_of_cons. tauto.
Qed.

Lemma dinv_serve cq sq s k h fails :
  dinv cq sq s → s.(d_handlers) !! k = Some h →
  (fails = false → let r := (ServeRequest s.(d_world) clntEnd h.2).2 in fits (mkMsg h.1 r.1 r.2) = true) →
  ∃ sq', dinv cq sq' (serve clntEnd ServeRequest k h fails s).
Proof.
  intros Hinv Hk Hfit. destruct h as [t b]. unfold serve. cbn [fst snd] in *.
  destruct (ServeRequest s.(d_world) clntEnd b) as [w [rep ok]] eqn:E. cbn [fst snd] in *.
  exists (if fails then sq else sq ++ [(t, rep, ok)]).
  pose proof (delete_Permutation _ _ _ Hk) as Hdel.
  set (s' := mkDSys _ _ _ _ _ _ _ _ _ _ _ _).
  assert (sent cq s' ≡ₚ sent cq s) as Hperm.
  { unfold sent, s'. cbn [d_handlers d_log]. apply Permutation_app_head. rewrite fmap_app.
    transitivity (delete k s.(d_handlers) ++ (t, b) :: (served <$> s.(d_log))).
    - apply Permutation_app_head. apply (Permutation_app_comm (served <$> s.(d_log)) [(t, b)]).
    - rewrite <-Permutation_middle. apply (Permutation_app_tail _ (symmetry Hdel)). }
  assert (t ∉ (served <$> s.(d_log)).*1) as Htl.
  { pose proof (v_nodup _ _ _ Hinv) as Hnd. unfold sent in Hnd. rewrite Hdel in Hnd.
    rewrite !fmap_app in Hnd. apply NoDup_app in Hnd as (_ & _ & Hnd). cbn in Hnd.
    apply NoDup_cons in Hnd as [Hni _]. intros Hx. apply Hni. rewrite elem_of_app. by right. }
  assert (t ∉ fst <$> (fst <$> sq)) as Htsq by (intros Hx%(sq_served _ _ _ _ Hinv); done).
  assert ((t, b) ∈ cq ++ s.(d_handlers)) as Hin
    by (rewrite elem_of_app; right; by eapply list_elem_of_lookup_2).
  destruct Hinv as [V1 V2 V3 V4 V5 [V6 F6] V7 V8 V9 V10 V11 V12 V13 V14].
  constructor; cbn; try done.
  - destruct fails; [done|]. split; [|apply Forall_app; split; [done|by repeat constructor; apply Hfit]].
    rewrite fmap_app. cbn. rewrite wire_snoc. unfold WriteCall. by rewrite V6.
  - by rewrite Hperm.
  - intros q Hq. rewrite Hperm in Hq. by apply V8.
  - intros Hrd q Hq. apply (V9 Hrd). rewrite elem_of_app in Hq. rewrite Hdel, elem_of_app, elem_of_cons. tauto.
  - destruct fails; [done|]. rewrite !fmap_app. cbn. apply NoDup_app. split; [done|].
    split; [|apply NoDup_singleton]. intros x Hx Hx'. apply list_elem_of_singleton in Hx' as ->. done.
  - intros q Hq. assert (q ∈ sq ∨ (q = (t, rep, ok) ∧ fails = false)) as [Hq'|[-> ->]].
    { destruct fails; [by left|]. rewrite elem_of_app, list_elem_of_singleton in Hq. tauto. }
    + destruct (V11 q Hq') as [[b' Hb] Hl]. split; [|done]. exists b'. rewrite elem_of_app. by left.
    + split; [exists b; rewrite elem_of_app; right; left|]. intros Hrd. exact (V9 Hrd _ Hin).
  - intros id c rep' ok' Hc Hst. rewrite elem_of_app. left. by eapply V12.
Qed.

(** *** The client's reader *)

Lemma waits_spec cq sq s t id c :
  dinv cq sq s → s.(d_pend) !! id = Some c → c.(ca_tag) = t → c.(ca_state) = CWaiting →
  s.(d_calls) !! t = Some id ∧ waits t s = true.
Proof.
  intros Hinv Hid Ht Hst. assert (s.(d_calls) !! t = Some id) as Hc.
  { apply (v_calls _ _ _ Hinv). exists c. split; [done|]. split; [done|]. by right. }
  split; [done|]. unfold waits. by rewrite Hc, Hid, Hst.
Qed.

Lemma dinv_drop_reply cq q sq s rest :
  dinv cq (q :: sq) s → rest = wire (rep_msg <$> sq) →
  dinv cq sq (mkDSys _ s.(d_nextTag) s.(d_closed) s.(d_calls) s.(d_pend) s.(d_reading) s.(d_outstanding)
    s.(d_c2s) rest s.(d_handlers) s.(d_world) s.(d_log)).
Proof.
  intros [V1 V2 V3 V4 V5 [V6 F6] V7 V8 V9 V10 V11 V12 V13 V14] ->. constructor; cbn; try done.
  - split; [done|]. by inversion F6.
  - by apply NoDup_cons in V10 as [_ ?].
  - intros x Hx. apply V11. by right.
Qed.

Lemma dinv_clnt_read cq sq s :
  dinv cq sq s → ∃ sq', returns (clnt_read s) (dinv cq sq').
Proof.
  intros Hinv. unfold clnt_read. destruct (d_reading s) eqn:Hrd; [|exists sq; by apply returns_Ret].
  pose proof (v_s2c _ _ _ Hinv) as [Hw Hf]. rewrite Hw. destruct sq as [|[[t rep] ok] sq].
  { exists []. by apply returns_Ret. }
  inversion Hf as [|? ? Hfq Hf']; subst. rewrite fmap_cons, ReadCall_wire by done. exists sq.
  cbn [mbind go_bind rep_msg Tag m_Data m_Ok fst snd].
  destruct (v_sq _ _ _ Hinv (t, rep, ok)) as [[b Hb] Hl]; [left|].
  destruct (Hl Hrd) as (id & c & Hc & Ht & Hst). cbn in Hb, Ht.
  destruct (waits_spec _ _ _ _ _ _ Hinv Hc Ht Hst) as [Hcm ->].
  pose proof (v_nodup _ _ _ Hinv) as Hnd.
  assert (t ∈ (served <$> s.(d_log)).*1) as Htl.
  { apply list_elem_of_fmap. exists (t, b). split; [done|]. apply list_elem_of_fmap. by exists (t, b, rep, ok). }
  assert (c.(ca_req) = b) as Hreq.
  { destruct (v_sent _ _ _ Hinv (t, b)) as (i & c' & Hc' & Ht' & Hr' & _).
    - unfold sent. rewrite !elem_of_app. right. right. apply list_elem_of_fmap. by exists (t, b, rep, ok).
    - cbn in Ht', Hr'. assert (i = id) as -> by (eapply (v_uniq _ _ _ Hinv); [done..|congruence]). congruence. }
  pose proof (dinv_drop_reply _ _ _ _ _ Hinv eq_refl) as Hinv'.
  pose proof (v_sq_nodup _ _ _ Hinv) as Hsq. rewrite !fmap_cons in Hsq. cbn in Hsq. apply NoDup_cons in Hsq as [Hnsq _].
  rewrite Hrd in Hinv'.
  unfold reply, cm_remove. cbn [d_calls]. rewrite Hcm. cbn [d_pend]. rewrite Hc, Hst.
  apply returns_Ret. rewrite set_state_eq. unfold set_calls.
  cbn [d_nextTag d_closed d_calls d_pend d_reading d_outstanding d_c2s d_s2c d_handlers d_world d_log].
  eapply (dinv_set cq sq (mkDSys _ _ _ _ _ _ _ _ _ _ _ _) id c (CDone rep ok false)); [exact Hinv'|done| | | | |].
  - cbn. by rewrite Ht.
  - intros _. right. by eexists _, _, _.
  - cbn. intros _ [Hx|Hx]; exfalso.
    + rewrite Ht in Hx. unfold sent in Hnd. rewrite app_assoc, fmap_app in Hnd.
      apply NoDup_app in Hnd as (_ & Hd & _). by apply (Hd t).
    + by rewrite Ht in Hx.
  - cbn. intros rep' ok' [= <- <-]. by rewrite Ht, Hreq.
  - cbn. intros ts Hts. destruct (v_out _ _ _ Hinv ts Hts) as [? _]. congruence.
Qed.

Lemma dinv_close cq sq s : dinv cq sq s → dinv cq sq (cm_close s).
Proof. intros [V1 V2 V3 V4 V5 V6 V7 V8 V9 V10 V11 V12 V13 V14]. by constructor. Qed.

Lemma dinv_read_err cq sq s : dinv cq sq s → dinv cq sq (clnt_read_err s).
Proof.
  intros Hinv. unfold clnt_read_err. destruct (d_reading s) eqn:Hrd; [|done].
  pose proof (v_out _ _ _ Hinv) as Hout.
  destruct Hinv as [V1 V2 V3 V4 V5 V6 V7 V8 V9 V10 V11 V12 V13 V14]. constructor; cbn; try done.
  - intros q Hq. by destruct (V11 q Hq).
  - intros ts Hts. destruct (Hout ts Hts). congruence.
Qed.

Lemma dinv_outstanding cq sq s : dinv cq sq s → dinv cq sq (take_outstanding s).
Proof.
  intros Hinv. unfold take_outstanding. destruct (d_reading s) eqn:Hrd; [done|].
  destruct (d_outstanding s) eqn:Ho; [done|].
  destruct Hinv as [V1 V2 V3 V4 V5 V6 V7 V8 V9 V10 V11 V12 V13 V14]. constructor; cbn; try done.
  intros ts [= <-]. split; [done|]. split; [apply NoDup_fst_map_to_list|]. intros t.
  unfold cm_outstanding. rewrite list_elem_of_fmap. split.
  - intros ([t' id] & -> & Hin%elem_of_map_to_list). by eexists.
  - intros [id Hid]. exists (t, id). split; [done|by apply elem_of_map_to_list].
Qed.

Lemma dinv_fail cq sq s : dinv cq sq s → returns (fail_one s) (dinv cq sq).
Proof.
  intros Hinv. unfold fail_one. destruct (d_outstanding s) as [[|t ts]|] eqn:Ho;
    [by apply returns_Ret| |by apply returns_Ret].
  destruct (v_out _ _ _ Hinv _ Ho) as (Hrd & Hnd & Hin).
  destruct (waits t s) eqn:Hw; [|by apply returns_Ret].
  destruct (proj1 (Hin t) ltac:(left)) as [id Hid].
  pose proof Hid as Hcall. apply (v_calls _ _ _ Hinv) in Hcall as (c & Hc & Ht & _).
  unfold waits in Hw. rewrite Hid, Hc in Hw. destruct (ca_state c) eqn:Hst; try done.
  unfold reply, cm_remove. cbn [d_calls set_outstanding]. rewrite Hid. cbn [d_pend set_outstanding]. rewrite Hc, Hst.
  apply returns_Ret. rewrite set_state_eq. unfold set_calls, set_outstanding.
  cbn [d_nextTag d_closed d_calls d_pend d_reading d_outstanding d_c2s d_s2c d_handlers d_world d_log].
  apply dinv_set; [done|done|cbn; by rewrite Ht| |congruence|done|].
  - intros _. right. by eexists _, _, _.
  - intros ts' [= <-]. split; [done|]. apply NoDup_cons in Hnd as [Hni Hnd]. split; [done|]. intros t'.
    rewrite lookup_delete. case_decide as E.
    + subst t'. split; [done|by intros []].
    + rewrite <-Hin, elem_of_cons. split; [by right|intros [->|?]; done].
Qed.

(** *** Runs *)

Definition is_call (e : DEvent) : bool := match e with DCall _ _ => true | _ => false end.

Definition dgood s : Prop := ∃ cq sq, dinv cq sq s.

Lemma size_set id c st s :
  s.(d_pend) !! id = Some c → size (set_state id c st s).(d_pend) = size s.(d_pend).
Proof. intros Hid. by apply size_set_state. Qed.

Lemma reply_size t b ok err s s' :
  reply t b ok err s = Ret s' → size s'.(d_pend) = size s.(d_pend).
Proof.
  unfold reply, cm_remove. destruct (d_calls s !! t) as [id|]; [|done].
  destruct (d_pend s !! id) as [c|] eqn:Hc; [|by intros [= <-]].
  destruct (ca_state c); intros [= <-]; try done. by apply (size_set_state id c).
Qed.

Lemma dstep_size e s s' :
  dstep clntEnd ServeRequest e s = Ret s' →
  Z.of_nat (size s'.(d_pend)) ≤ Z.of_nat (size s.(d_pend)) + (if is_call e then 1 else 0).
Proof.
  destruct e as [id b|id|id fails| |k fails| | | | |]; cbn [dstep is_call]; unfold with_call;
    try (destruct (d_pend s !! id) as [c|] eqn:Hid; [|by intros [= <-]; lia]).
  - destruct (d_pend s !! id) eqn:Hid; intros [= <-]; [lia|]. cbn. rewrite map_size_insert_None by done. lia.
  - intros [= <-]. destruct (ca_state c); try lia. unfold put_call, cm_put.
    destruct (d_closed s); [by rewrite (size_set id c) by done; lia|].
    rewrite set_state_eq. cbn. rewrite (size_set_state id c) by done. lia.
  - intros [= <-]. destruct (ca_state c); try lia. unfold write_call.
    destruct fails; cbn; rewrite (size_set_state id c) by done; lia.
  - unfold srv_read. destruct (ReadCall _ _) as [| |m rest]; [by intros [= <-]; lia..|].
    destruct m; [|done..]. intros [= <-]. cbn. lia.
  - intros [= <-]. destruct (d_handlers s !! k) as [h|]; [|lia]. unfold serve.
    destruct (ServeRequest _ _ _) as [w [rep ok]]. cbn. lia.
  - unfold clnt_read. destruct (d_reading s); [|by intros [= <-]; lia].
    destruct (ReadCall _ _) as [| |m rest]; [by intros [= <-]; lia..|]. destruct m as [m| |]; [|done..].
    cbn [mbind go_bind]. destruct (waits _ _); [|by intros [= <-]; lia].
    intros Hr%reply_size. cbn in Hr. lia.
  - intros [= <-]. unfold clnt_read_err. destruct (d_reading s); cbn; lia.
  - intros [= <-]. unfold take_outstanding. destruct (d_reading s), (d_outstanding s); cbn; lia.
  - unfold fail_one. destruct (d_outstanding s) as [[|t ts]|]; try (by intros [= <-]; lia).
    destruct (waits t s); [|by intros [= <-]; lia]. intros Hr%reply_size. cbn in Hr. lia.
  - intros [= <-]. destruct (d_closed s); cbn; lia.
Qed.

Lemma dstep_good e s :
  dgood s → step_fits clntEnd ServeRequest e s = true → 1 + Z.of_nat (size s.(d_pend)) < 2 ^ 32 →
  returns (dstep clntEnd ServeRequest e s) dgood.
Proof.
  intros (cq & sq & Hinv) Hfit Hn.
  destruct e as [id b|id|id fails| |k fails| | | | |]; cbn [dstep]; unfold with_call.
  - destruct (d_pend s !! id) eqn:Hid; apply returns_Ret; [by exists cq, sq|].
    exists cq, sq. by apply dinv_call.
  - destruct (d_pend s !! id) as [c|] eqn:Hid; apply returns_Ret; [|by exists cq, sq].
    destruct (ca_state c) eqn:Hst; exists cq, sq; try done. by apply dinv_put.
  - cbn in Hfit. destruct (d_pend s !! id) as [c|] eqn:Hid; apply returns_Ret; [|by exists cq, sq].
    destruct (ca_state c) eqn:Hst; try by exists cq, sq.
    destruct (dinv_write cq sq s id c fails Hinv Hid Hst) as [cq' ?]; [done|]. by exists cq', sq.
  - destruct (dinv_srv_read cq sq s Hinv) as (cq' & Hr). eapply returns_mono; [exact Hr|]. intros. by exists cq', sq.
  - cbn in Hfit. apply returns_Ret. destruct (d_handlers s !! k) as [h|] eqn:Hk; [|by exists cq, sq].
    destruct (dinv_serve cq sq s k h fails Hinv Hk) as [sq' ?]; [done|]. by exists cq, sq'.
  - destruct (dinv_clnt_read cq sq s Hinv) as (sq' & Hr). eapply returns_mono; [exact Hr|]. intros. by exists cq, sq'.
  - apply returns_Ret. exists cq, sq. by apply dinv_read_err.
  - apply returns_Ret. exists cq, sq. by apply dinv_outstanding.
  - eapply returns_mono; [exact (dinv_fail cq sq s Hinv)|]. intros. by exists cq, sq.
  - apply returns_Ret. exists cq, sq. destruct (d_closed s); [done|by apply dinv_close].
Qed.

Lemma drun_good evs : ∀ s,
  dgood s → run_fits clntEnd ServeRequest evs s = true →
  1 + Z.of_nat (size s.(d_pend)) + countb is_call evs < 2 ^ 32 →
  returns (drun clntEnd ServeRequest evs s) dgood.
Proof.
  induction evs as [|e evs IH]; intros s Hg Hfit Hn; cbn [drun run_fits] in *; [by apply returns_Ret|].
  apply andb_true_iff in Hfit as [Hf Hfit]. rewrite countb_cons in Hn.
  pose proof (countb_bounds is_call evs).
  destruct (dstep_good e s Hg Hf) as (s' & E & Hg'); [destruct (is_call e); lia|].
  rewrite E in Hfit |- *. cbn [mbind go_bind]. apply IH; [done|done|].
  pose proof (dstep_size e s s' E). destruct (is_call e); lia.
Qed.

(** C17. However the goroutines of client and server interleave, and whenever
    the connection fails or is closed, the client never sees a reply without a
    matching request; every [SendReceive] that returns without an error
    returns the reply that the server computed for its own request in the only
    run of that request; and once the reader goroutine is done no call waits
    for ever: none is left in the call map. Fewer than 2^32 calls are made, so
    tags are not reused. *)
Theorem demux_matches w evs :
  run_fits clntEnd ServeRequest evs (dsys_init w) = true → 1 + countb is_call evs < 2 ^ 32 →
  returns (drun clntEnd ServeRequest evs (dsys_init w)) (λ s,
    (∀ id c rep ok, s.(d_pend) !! id = Some c → c.(ca_state) = CDone rep ok false →
       (c.(ca_tag), c.(ca_req), rep, ok) ∈ s.(d_log)) ∧
    NoDup (served <$> s.(d_log)).*1 ∧
    (∀ id id' c c', s.(d_pend) !! id = Some c → s.(d_pend) !! id' = Some c' →
       c.(ca_tag) = c'.(ca_tag) → id = id') ∧
    (s.(d_outstanding) = Some [] → ∀ id c, s.(d_pend) !! id = Some c →
       c.(ca_state) ≠ CPut ∧ c.(ca_state) ≠ CWaiting)).
Proof.
  intros Hfit Hn.
  assert (dgood (dsys_init w)) as H0' by (exists [], []; apply dinv_init).
  eapply returns_mono; [exact (drun_good evs _ H0' Hfit Hn)|].
  intros s (cq & sq & Hinv). split; [|split; [|split]].
  - intros id c rep ok. apply (v_done _ _ _ Hinv).
  - pose proof (v_nodup _ _ _ Hinv) as Hnd. unfold sent in Hnd. rewrite !fmap_app in Hnd.
    by apply NoDup_app in Hnd as (_ & _ & (_ & _ & ?)%NoDup_app).
  - apply (v_uniq _ _ _ Hinv).
  - intros Ho id c Hc. destruct (v_out _ _ _ Hinv _ Ho) as (_ & _ & Hin).
    assert (¬ in_map c.(ca_state)) as Hm.
    { intros Hm. assert (s.(d_calls) !! c.(ca_tag) = Some id) as Hx by (apply (v_calls _ _ _ Hinv); by exists c).
      assert (c.(ca_tag) ∈ []) as []%not_elem_of_nil by (apply Hin; by eexists). }
    unfold in_map in Hm. tauto.
Qed.
End demux_inv.
