(* ===== verification/HarnessWitness.v ===== *)
(** * The harness theorems at concrete tests

    Three Raft servers that deliver the same commands, one snapshot, one
    agreement, one election; and one connection with two overlapping calls,
    of which the second is cut off. *)

From S2P Require Import Prelude Gob Persister Raft RaftTest RfSrv LabRpc Demux.
From Stdlib Require Import Strings.Byte.

#[local] Instance fmt_Z : Fmt (option Z) := λ c, match c with Some z => pretty z | None => "nil"%string end.
#[local] Instance Z_codec : GobCodec Z := countable_codec Z.
#[local] Instance Z_laws : GobLaws Z := countable_codec_laws Z.
#[local] Instance cmds_codec : GobCodec (list (option Z)) := countable_codec (list (option Z)).
#[local] Instance cmds_laws : GobLaws (list (option Z)) := countable_codec_laws (list (option Z)).

(** ** The checker *)

Definition deliver (srv index cmd : Z) : CheckEvent Z :=
  mkCheckEvent Z srv (mkApplyMsg true (Some cmd) index false [] 0 0) RpcOk RpcOk.

(** Server 0 is ahead of server 1; server 2 delivers nothing. *)
Definition deliveries : list (CheckEvent Z) := [deliver 0 1 11; deliver 0 2 12; deliver 1 1 11].

Definition checked : Test Z := result (check_run deliveries (makeTest 3)) (makeTest 3).
Lemma checked_run : check_run deliveries (makeTest 3) = Ret checked.
Proof. apply result_Ret. vm_compute; reflexivity. Qed.

Lemma applier_sound_witness : logs_agree checked ∧ logs_contiguous checked.
Proof.
  refine (applier_sound 3 deliveries checked _ checked_run _).
  - repeat constructor; discriminate.
  - intros rs Hrs. vm_compute in Hrs.
    repeat (apply elem_of_cons in Hrs as [-> |Hrs]; [reflexivity|]). by apply elem_of_nil in Hrs.
Defined.

Lemma applier_accepts_witness :
  returns (check_run deliveries (makeTest 3)) (λ ts, no_errors ts ∧ glen ts.(t_srvs) = 3).
Proof.
  eapply returns_mono.
  { refine (applier_accepts 3 (λ i, Some (10 + i)) deliveries _ _); [lia|].
    repeat split; vm_compute; try reflexivity; discriminate. }
  intros ts (H1 & H2 & _). split; assumption.
Defined.

(** ** The snapshot *)

Definition nine : rfsrv Z := mkRfsrv 0 8 (fill_log 0 (None :: (Some <$> seqZ 1 8)) ∅).
Definition ninth : ApplyMsg Z := mkApplyMsg true (Some 9) 9 false [] 0 0.
Definition tester3 : Itester (Test Z) Z := TesterProxy RpcOk RpcOk RpcOk.
Definition snapped :=
  result (@applierSnap_msg Z _ _ (Test Z) tester3 ninth nine (makeTest 3)) (nine, makeTest 3, None).
Definition snap_bytes : bytes := match snapped.2 with Some (_, b) => b | None => [] end.

Lemma snapshot_roundtrip_witness :
  ∃ log, log !! 9 = Some (Some 9) ∧ log !! 10 = None ∧
    ingestSnap snap_bytes 9 (mkRfsrv 2 0 ∅) =
      ("", (mkRfsrv 2 0 ∅ : rfsrv Z) <| rf_log := log |> <| rf_lastApplied := 9 |>).
Proof.
  assert (@applierSnap_msg Z _ _ (Test Z) tester3 ninth nine (makeTest 3) =
    Ret (snapped.1.1, snapped.1.2, Some (9, snap_bytes))) as H.
  { etransitivity; [apply (result_Ret _ (nine, makeTest 3, None)); vm_compute; reflexivity|].
    vm_compute; reflexivity. }
  destruct (@snapshot_roundtrip Z Z_codec Z_laws cmds_codec cmds_laws (Test Z) tester3
    ninth nine (makeTest 3) _ _ 9 snap_bytes 0 (makeTest 3) H) as (_ & _ & _ & Hc & log & Hl & Hi & _);
    [vm_compute; discriminate|].
  exists log. split; [rewrite Hl, Hc; reflexivity|]. split; [rewrite Hl; reflexivity|exact (Hi _)].
Defined.

(** ** Agreement and elections *)

(** Server 1 accepts command 7 at index 1; a poll finds it nowhere, the next
    one at servers 1 and 2. *)
Definition has7 : raftServer Z := mkRaftServer true "" {[1 := Some 7]}.
Definition agreed : Test Z := mkTest [newRaftServer; has7; has7] 1.
Definition tries : list (Attempt (Cmd := Z)) :=
  [([Some (1, false); Some (1, true); None], [makeTest 3; agreed])].

Lemma one_spec_witness :
  ∃ results polls ts nd s, (results, polls) ∈ tries ∧ ts ∈ polls ∧
    results.[s] = Some (Some (1, true)) ∧ 2 ≤ nd ∧ committed 1 nd (Some 7) ts.
Proof.
  destruct (one_spec 3 (Some 7) 2 false false tries 1) as [[? _]|H].
  - vm_compute; reflexivity.
  - discriminate.
  - destruct H as (results & polls & ts & nd & s & H1 & H2 & H3 & _ & H4 & H5 & _).
    exists results, polls, ts, nd, s. repeat (split; [assumption|]). exact H5.
Defined.

(** First nobody leads; then server 2 leads term 3, and an old leader that is
    not connected still thinks it leads term 2. *)
Definition elections : list (list Sample) :=
  [[mkSample true 1 false; mkSample true 1 false; mkSample true 1 false];
   [mkSample false 2 true; mkSample true 3 false; mkSample true 3 true]].

Lemma elections_terms samples :
  samples ∈ elections → ∀ i t, leads samples i t → 0 ≤ t.
Proof.
  intros Hin i t (s & Hs & _ & _ & <-).
  assert (Forall (Forall (λ s, 0 ≤ s.(sm_term))) elections) as Hall
    by (repeat constructor; vm_compute; discriminate).
  assert (s ∈ samples) as Hss by (apply zlookup_elem_of; by exists i).
  exact (proj1 (Forall_forall _ _) (proj1 (Forall_forall _ _) Hall samples Hin) s Hss).
Qed.

Lemma checkOneLeader_spec_witness :
  checkOneLeader elections = Ret 2 ∧ ∃ samples t, samples ∈ elections ∧ leads samples 2 t.
Proof.
  pose proof (checkOneLeader_spec elections elections_terms) as H.
  assert (checkOneLeader elections = Ret 2) as E by (vm_compute; reflexivity).
  rewrite E in H. split; [exact E|].
  destruct H as (before & samples & after & t & Heq & _ & Hl & _).
  exists samples, t. split; [rewrite Heq; apply elem_of_app; right; left|exact Hl].
Defined.
