(* ===== verification/RaftTesterWitness.v ===== *)
(** * Raft under its tester, at a concrete execution

    Three peers elect peer 0, which commits two commands; peer 0 reports both,
    peer 1 the first, then crashes, is told the commits again and reports them
    from the start. *)

From S2P Require Import Prelude Gob Persister Raft RaftNode RaftSpec RaftLog RaftCluster RaftAgreement RaftTest RfSrv RaftTester.
From Stdlib Require Import Strings.Byte.

#[local] Instance fmt_Z : Fmt (option Z) := λ c, match c with Some z => pretty z | None => "nil"%string end.
#[local] Instance Z_codec : GobCodec Z := countable_codec Z.
#[local] Instance Z_laws : GobLaws Z := countable_codec_laws Z.
#[local] Instance log_codec : GobCodec (list (LogEntry Z)) := countable_codec (list (LogEntry Z)).
#[local] Instance log_laws : GobLaws (list (LogEntry Z)) := countable_codec_laws (list (LogEntry Z)).

(** Peer 0 sends a heartbeat to [srv], which is answered. *)
Definition beat (srv : Z) : list (ClusterEvent Z) :=
  [EvHeartbeat 0; EvHeartbeatSend 0 srv; EvDeliver 0 5; EvDeliver 0 6].

Definition tested_events : list (TestedEvent Z) :=
  (TRaft <$> [EvTimeout 0 1; EvDeliver 0 2; EvDeliver 0 3; EvStart 0 (Some 42); EvStart 0 (Some 43)]
     ++ beat 1 ++ [EvUpdateCommit 0] ++ beat 1 ++ [EvApply 0; EvApply 1]) ++
  [TReport 0; TReport 1; TReport 0; TRaft (EvCrash 1 7)] ++
  (TRaft <$> beat 1 ++ [EvApply 1]) ++ [TReport 1; TReport 1].

Definition tested_end : Tested Z := result (tested_run tested_events (tested_boot 3 0)) (tested_boot 3 0).

Lemma tested_end_run : tested_run tested_events (tested_boot 3 0) = Ret tested_end.
Proof. apply result_Ret. vm_compute; reflexivity. Qed.

Lemma raft_passes_tester_witness :
  no_errors tested_end.(tc_test) ∧ logs_agree tested_end.(tc_test) ∧
  ((λ rs, (entry 1 rs, entry 2 rs)) <$> tested_end.(tc_test).(t_srvs)) =
    [(Some (Some 42), Some (Some 43)); (Some (Some 42), Some (Some 43)); (None, None)].
Proof.
  destruct (raft_passes_tester 3 0 tested_events) as (s & Hs & Hno & Hag & _);
    [lia|repeat constructor|].
  rewrite (Ret_det _ _ _ Hs tested_end_run) in Hno, Hag.
  split; [exact Hno|]. split; [exact Hag|]. vm_compute; reflexivity.
Defined.
