(* ===== verification/DemuxWitness.v ===== *)
(** * The call multiplexer at a concrete run

    Two goroutines call over one connection; the server answers the second
    one first, and the connection fails before the first is answered. *)

From S2P Require Import Prelude Gob LabRpc Demux.
From Stdlib Require Import Strings.Byte.

#[local] Instance byte_countable : Countable Byte.byte.
Proof. refine (inj_countable Byte.to_N Byte.of_N _). intros b. apply Byte.of_to_N. Defined.

#[local] Instance msg_countable : Countable msg.
Proof.
  refine (inj_countable' (λ m, (m.(Tag), m.(m_Data), m.(m_Ok))) (λ p, mkMsg p.1.1 p.1.2 p.2) _).
  by intros [].
Defined.

#[local] Instance msg_codec : GobCodec msg := countable_codec msg.
#[local] Instance msg_laws : GobLaws msg := countable_codec_laws msg.

(** The server counts its calls and echoes the request. *)
Definition echo (w : Z) (_ : string) (req : bytes) : Z * (bytes * bool) := (w + 1, (req, true)).

Definition crossing : list DEvent :=
  [DCall 1 [Byte.x0a]; DCall 2 [Byte.x0b]; DPut 2; DPut 1; DWrite 1 false; DWrite 2 false;
   DSrvRead; DSrvRead; DServe 1 false; DRead; DServe 0 true; DReadErr; DOutstanding; DFail].

Definition crossed : DSys Z := result (drun "c" echo crossing (dsys_init 0)) (dsys_init 0).
Lemma crossed_run : drun "c" echo crossing (dsys_init 0) = Ret crossed.
Proof. apply result_Ret. vm_compute; reflexivity. Qed.

Lemma demux_matches_witness :
  ca_state <$> crossed.(d_pend) !! 2 = Some (CDone [Byte.x0b] true false) ∧
  ca_state <$> crossed.(d_pend) !! 1 = Some (CDone [] false true) ∧
  NoDup (served <$> crossed.(d_log)).*1.
Proof.
  split; [vm_compute; reflexivity|]. split; [vm_compute; reflexivity|].
  destruct (demux_matches "c" echo 0 crossing) as (s & Hs & _ & Hnd & _).
  - vm_compute; reflexivity.
  - vm_compute; reflexivity.
  - rewrite (Ret_det _ _ _ Hs crossed_run) in Hnd. exact Hnd.
Defined.
